(* ===== verification/_CoqProject ===== *)
-Q . S2P
Prelude.v
Conc.v
GoLib.v
NetAlloc.v
Serial.v
Session.v
Config.v
HostOS.v
Network.v
Rootfs.v
Launch.v
ProcStop.v
Manager.v
Vsock.v
Ownership.v
ManagerConc.v
ManagerInv.v
ManagerRuns.v
VMTable.v
Host.v
HostLive.v
SessionHost.v
Service.v
Guest.v
Sha256.v
Auth.v
Pages.v
Store.v
Bridge.v
Api.v
Router.v
Daemon.v
Quota.v
Keys.v
Stream.v
Forward.v
Drain.v
Proxy.v
AuditLog.v
ForwardConc.v
