(* ===== verification/Prelude.v ===== *)
(** Verification of microvm-terminal: a control plane that boots a
    Firecracker micro-VM per session and bridges its serial console to the
    browser, a guest agent inside each VM, and an API proxy that holds the
    upstream keys.

    * The program and its models

    Control plane (src/control-plane), from the host up:
    - internal/netalloc                NetAlloc.v    addresses, MACs, TAP names, CIDs
    - internal/config                  Config.v      file, environment, validation, limits
    - internal/firecracker, internal/vm
                                       HostOS.v      what the programs below ask of the OS
                                       Network.v     bridge, NAT rules, TAP devices
                                       Rootfs.v      the per-VM root file system
                                       Launch.v      process launch, vm.json, jailer arguments
                                       ProcStop.v    Stop and Wait of a VM's process
    - internal/session/manager.go      Manager.v     create, boot, destroy, shut down
                                       Ownership.v   who owns which device, over histories
                                       ManagerConc.v the same calls as concurrent programs
                                       ManagerInv.v  what each of them owns, and its safety
                                       ManagerRuns.v isolation and termination of every schedule
                                       VMTable.v     the manager's contract, and its refinement
    - internal/session/session.go, vsock_listener.go
                                       Session.v     readiness, geometry, attachments, guest handlers
                                       Vsock.v       the accept loop of the guest channel
    - internal/session/serial.go       Serial.v      console ring and subscriber
    - internal/session/host.go, warmpool.go
                                       Host.v        live map, watchers, warm pool, idle reaper
                                       HostLive.v    termination of requests, the reaper's deadline
                                       Service.v     the host until the daemon exits
                                       SessionHost.v the interface of api/types.go, and Host as its instance
    - internal/auth                    Sha256.v, Auth.v  slugs, rate limit, signed cookie, gate
    - internal/db                      Store.v       opening, migrations, the table of sessions
    - internal/api                     Pages.v       login, logout, terminal page
                                       Bridge.v      the terminal's WebSocket
                                       Api.v         the session handlers
                                       Router.v      the routes, their gate and middleware
    - cmd/microvm-terminal             Daemon.v      the start of the daemon
                                       Service.v     serving, signal, shutdown, sweep
    Guest agent (src/guest-agent)      Guest.v       command line, frames, window size, redialling
    Proxy (src/proxy):
    - internal/quota                   Quota.v       budgets and the request window
    - internal/keys                    Keys.v        key pool, session tokens
    - internal/server/stream.go        Stream.v      body forwarding and usage sniffing
    - internal/server/server.go        Forward.v     forward and admin handlers
                                       Drain.v       in-flight counter and rotation
                                       ForwardConc.v the forwards of many clients, interleaved
    - cmd/claude-proxy                 Proxy.v       start, mux, histories of requests
    - internal/audit                   AuditLog.v    the sinks, the detached writers, the proxy's end
    Shared: Prelude.v (results, machine integers, the tail of a stream),
    GoLib.v (the parts of Go's standard library the code uses: strconv,
    strings, netip, hex, time, float64) and Conc.v (programs of atomic actions
    in a pool of threads, with a logic of what each thread owns).

    * How code becomes definitions

    A function that cannot fail is a function; one that returns an error
    returns [res]; a panic is [None] or an error of its own.  Integers are
    [Z], wrapped to their width where the code can overflow; instants are
    nanoseconds and [time.Time] subtraction saturates; the rate limiter's
    floats are IEEE doubles.  Strings are byte strings.  Maps are [gmap]; a
    Go map that is iterated is a list in an order the theorem quantifies
    over.  A session, which the code shares by pointer, is a cell of a heap
    (Host.v, Api.v) or is owned by the model that changes it.

    Code that runs under a lock, or between two channel operations, is one
    step.  Goroutines are program counters: [hstep] (Host.v), [step]
    (Serial.v), [stepResize] and [stepHandler] (Session.v), [bstep]
    (Bridge.v), [lstep] (Vsock.v), [dstep] (Drain.v), [pstep] (ProcStop.v), or
    programs of the type [prog] (Conc.v), each of whose actions is a critical
    section or one call into the firecracker package (ManagerConc.v), or a
    call of the quota manager, the key pool or the counter (ForwardConc.v).
    Their interleavings
    are reached by an inductive relation or by lists of labels, and the
    labels carry what comes from outside: outcomes of writes, clocks, random
    bytes, whether the database answers.  Programs that act on the host are
    written in a state monad over the class [HostOS] and reasoned about with
    weakest preconditions.

    * What is assumed

    [HostOSLaws] (HostOS.v) says what ip, iptables, mount, the file system
    and processes do to what can be observed of the host when a command
    succeeds, and that nothing changes when it fails; [SimOS] is a simulator
    that satisfies it.  Decoders of YAML and JSON, the UUID parser, the SQL of
    a migration script and the upstream are parameters.  That new UUIDs are
    fresh is a hypothesis where it matters ([newID], [opOK]).  Postgres is a
    map with atomic statements; a commit may be lost; what it stores for a
    value of a column type is the parameter [coerce] with the laws [Coerces].
    There are no axioms.

    * What is shown

    - Isolation: sessions of a manager own disjoint addresses, devices and
      directories in every interleaving of launches, destructions, shutdown
      and reapers ([conc_sessions_isolated]), each VM is torn down by exactly
      one of the calls that race for it ([conc_destroyed_once]), and every
      schedule ends with the host holding what the registered VMs own
      ([conc_settles]); one call after the other the capacity holds too
      ([sessions_isolated]) and the programs are the sequential functions
      ([create_alone], [destroy_alone]); a stop ends the process within
      thirteen steps ([stop_ends_process]); what a shutdown
      or a failed boot leaves behind ([shutdown_restores_host],
      [failed_boot_traceless]); the manager refines a table of VMs
      ([manager_refines_table]); the allocator refines its list of grants.
    - Life of a session: every session that leaves the live map is reported
      exactly once in every interleaving ([gone_exactly_once]); requests
      terminate ([requests_terminate]); the reaper removes exactly the idle
      ones ([reaper_exact]) and in time ([idle_session_reaped]); every VM
      that outlives the daemon is accounted for ([exit_accounts_for_vms]).
    - Access: no VM without a valid cookie ([vm_needs_login]), which a login
      provides ([login_reaches_sessions], [cookie_roundtrip]); an owner's
      sessions and rows are untouched by the others and hidden from them
      ([owners_isolated], [foreign_sessions_hidden]); what the owner sees of a
      session from its creation to its end ([session_lifecycle]).
    - Terminal: the console's ring and stream ([ring_is_console_tail],
      [no_panic_without_race]); output without gaps, input exact and in
      order, and a clean end of every connection (Bridge.v); the guest gets
      the latest geometry; only the guest with the token is accepted.
    - Proxy: nothing reaches the upstream without a token minted by the
      operator ([upstream_needs_mint]), and then only with the pool's key;
      the rate limit per session ([rate_cap_per_minute]) and the budgets under
      any number of interleaved connections ([conc_quota_enforced]), all of
      which are answered and audited ([conc_proxy_settles]); rotations drain
      what was in flight ([rotation_drains]); tokens resolve by history; the audit trail names
      exactly what was sent or denied ([audit_trail_accounts]).
    - Start: migrations are applied exactly once and in order, whatever fails
      ([migrations_exactly_once]); the daemon starts soundly or not at all
      ([startup_sound]).
    Theorems without a claim number are further properties, or show a defect
    (for example [login_limit_is_per_port], [detach_race_panics],
    [warm_at_capacity_leaks], [drained_rotation_overlaps]).

    * Fuel and bounds

    Recursion is structural almost everywhere.  [alloc_loop] has the
    iteration bound of the source as its fuel, [blocks] (Sha256.v) the number
    of words of the message, which is more than the number of its blocks;
    the theorems state results, not only partial correctness.  Runs are finite
    lists of labels of any length.

    * Not modelled

    The web assets; the text of log lines and of HTML pages; the Prometheus
    endpoint; TLS and the HTTP servers' own machinery (a server accepts
    requests until it is shut down); pattern matching of the mux (a route is
    given as matched).  A handler of the proxy is one step of AuditLog.v, a
    handler of the session API one step of Router.v; the interleavings of what
    they share are those of ForwardConc.v, Drain.v and Host.v.  A call into
    firecracker or the operating system is one step of ManagerConc.v.
    Cryptographic strength is not a theorem: a cookie that verifies carries
    the MAC of its payload ([cookie_names_signer]), and nothing is said
    about who can compute one. *)
From stdpp Require Export base gmap strings list numbers.
From stdpp Require Import options.

(** ** Results *)

Inductive res (E A : Type) : Type :=
| Ok (a : A)
| Err (e : E).
Arguments Ok {E A} _.
Arguments Err {E A} _.

#[export] Instance res_eq_dec {E A} `{EqDecision E, EqDecision A} : EqDecision (res E A).
Proof. solve_decision. Defined.

Definition res_bind {E A B} (r : res E A) (k : A → res E B) : res E B :=
  match r with Ok a => k a | Err e => Err e end.

Definition is_ok {E A} (r : res E A) : bool :=
  match r with Ok _ => true | Err _ => false end.

Declare Scope go_scope.
Delimit Scope go_scope with go.
Notation "'let?' x ':=' c 'in' k" := (res_bind c (λ x, k))
  (at level 10, x binder, c at level 100, k at level 200,
   format "'let?'  x  ':='  c  'in' '//' k") : go_scope.

(** ** Machine integers *)

Open Scope Z_scope.

Definition two64 : Z := 2 ^ 64.
Definition two63 : Z := 2 ^ 63.
Definition two32 : Z := 2 ^ 32.
Definition two16 : Z := 2 ^ 16.

Definition wrapS64 (z : Z) : Z := (z + two63) mod two64 - two63.
Definition wrapU32 (z : Z) : Z := z mod two32.
Definition wrapU16 (z : Z) : Z := z mod two16.
Definition int64_ok (z : Z) : Prop := - two63 ≤ z < two63.

(** [time.Duration] subtraction of two instants saturates. *)
Definition satS64 (z : Z) : Z := Z.max (- two63) (Z.min (two63 - 1) z).

(** ** The last bytes of a stream *)

Definition lastn {A} (n : nat) (l : list A) : list A := drop (length l - n) l.

(** ** Automation *)

Create HintDb go.
Create Rewrite HintDb go.

Ltac go_cases :=
  repeat (case_match; simplify_eq/=).

Lemma wrapS64_id z : int64_ok z → wrapS64 z = z.
Proof.
  unfold int64_ok, wrapS64, two63, two64. intros H.
  rewrite Z.mod_small; lia.
Qed.

Lemma wrapS64_range z : int64_ok (wrapS64 z).
Proof.
  unfold int64_ok, wrapS64, two63, two64.
  pose proof (Z.mod_pos_bound (z + 2 ^ 63) (2 ^ 64) ltac:(lia)). lia.
Qed.

Lemma wrapU32_id z : 0 ≤ z < two32 → wrapU32 z = z.
Proof. apply Z.mod_small. Qed.

Lemma wrapU16_id z : 0 ≤ z < two16 → wrapU16 z = z.
Proof. apply Z.mod_small. Qed.

Lemma mod_eq_diff k x y : 0 < k → x mod k = y mod k → ∃ q, x - y = k * q.
Proof.
  intros Hk H. exists (x / k - y / k).
  pose proof (Z.div_mod x k ltac:(lia)). pose proof (Z.div_mod y k ltac:(lia)).
  rewrite Z.mul_sub_distr_l. lia.
Qed.

(** Two numbers in the same residue class and less than the modulus apart
    are equal. *)
Lemma mod_eq_near k x y : 0 < k → Z.abs (x - y) < k → x mod k = y mod k → x = y.
Proof. intros Hk Ha [q Hq]%mod_eq_diff; [|done]. assert (q = 0) as -> by nia. lia. Qed.

Section lastn.
Context {A : Type}.
Implicit Types l k : list A.

Lemma lastn_all n l : (length l ≤ n)%nat → lastn n l = l.
Proof. intros. unfold lastn. replace (length l - n)%nat with 0%nat by lia. done. Qed.

Lemma length_lastn n l : length (lastn n l) = (length l `min` n)%nat.
Proof. unfold lastn. rewrite length_drop. lia. Qed.

Lemma lastn_suffix n l : lastn n l `suffix_of` l.
Proof. exists (take (length l - n) l). unfold lastn. by rewrite take_drop. Qed.

(** Dropping early and dropping late agree: trimming after every write is
    the same as trimming the whole history once. *)
Lemma lastn_lastn_app n l k : lastn n (lastn n l ++ k) = lastn n (l ++ k).
Proof.
  unfold lastn. rewrite !length_app, length_drop.
  destruct (decide (length l ≤ n)%nat).
  - replace (length l - n)%nat with 0%nat by lia. rewrite drop_0.
    f_equal; lia.
  - rewrite <- (drop_app_le l k (length l - n)) by lia.
    rewrite drop_drop. f_equal. lia.
Qed.

End lastn.

#[export] Hint Resolve wrapS64_range : go.
#[export] Hint Rewrite @length_lastn : go.
