(* ===== verification/Conc.v ===== *)
(** Goroutines that share a state: a program is a tree of atomic actions, a
    pool of programs runs in any interleaving, and a small ownership logic
    proves invariants of every interleaving thread by thread.

    An action that cannot run yet (a wait) blocks.  Each thread owns a part
    of a ghost map; a thread may change the entries it owns and take over
    those marked free, and nothing else, so what one thread knows of its own
    entries cannot be spoilt by the others. *)
From S2P Require Import Prelude.
Open Scope Z_scope.

(** ** Programs *)

Inductive prog (S R : Type) : Type :=
| Ret (r : R)
| Act (B : Type) (m : S → option (B * S)) (k : B → prog S R)
| Fork (child : prog S R) (k : prog S R).
Arguments Ret {_ _} _.
Arguments Act {_ _ _} _ _.
Arguments Fork {_ _} _ _.

Declare Scope conc_scope.
Delimit Scope conc_scope with conc.
Notation "x ⇐ m ; k" := (Act m (λ x, k))
  (at level 20, m at level 100, k at level 200, only parsing) : conc_scope.
Open Scope conc_scope.

Section Pool.
Context {S R : Type}.
Abbreviation Prog := (prog S R).
Abbreviation Pool := (list Prog).

(** One step of a thread: what is left of it, the threads it started, the
    state. *)
Definition tstep (p : Prog) (s : S) : option (Prog * list Prog * S) :=
  match p with
  | Ret _ => None
  | Act m k => match m s with None => None | Some (b, s') => Some (k b, [], s') end
  | Fork c k => Some (k, [c], s)
  end.

Definition stepAt (i : nat) (c : Pool * S) : option (Pool * S) :=
  match c.1 !! i with
  | None => None
  | Some p =>
    match tstep p c.2 with
    | None => None
    | Some (p', new, s') => Some (<[i := p']> c.1 ++ new, s')
    end
  end.

(** The program on its own, with nothing in between; [None] if it blocks. *)
Fixpoint alone (p : Prog) (s : S) : option (R * S) :=
  match p with
  | Ret r => Some (r, s)
  | Act m k => match m s with None => None | Some (b, s') => alone (k b) s' end
  | Fork _ k => alone k s
  end.

(** *** Every schedule ends *)

(** The pool after some step, whatever the state was. *)
Inductive shrinks : Pool → Pool → Prop :=
| shrinks_act ts1 ts2 B (m : S → option (B * S)) k b :
    shrinks (ts1 ++ k b :: ts2) (ts1 ++ Act m k :: ts2)
| shrinks_fork ts1 ts2 c k :
    shrinks (ts1 ++ k :: ts2 ++ [c]) (ts1 ++ Fork c k :: ts2).

Lemma stepAt_shrinks i c c' : stepAt i c = Some c' → shrinks c'.1 c.1.
Proof.
  destruct c as [ts s]. unfold stepAt. cbn [fst snd]. destruct (ts !! i) as [p|] eqn:Ei; [|done].
  pose proof (take_drop_middle ts i p Ei) as Hts.
  assert (i < length ts)%nat as Hi by (eapply lookup_lt_Some; eauto).
  assert (∀ p', <[i := p']> ts = take i ts ++ p' :: drop (Datatypes.S i) ts) as Hins.
  { intros p'. rewrite <- Hts at 1. rewrite insert_app_r_alt; rewrite length_take_le by lia; [|lia].
    by rewrite Nat.sub_diag. }
  destruct p as [r|B m k|c k]; cbn [tstep]; [done| |].
  - destruct (m s) as [[b s']|]; [|done]. intros [= <-]. cbn [fst].
    pose proof (shrinks_act (take i ts) (drop (Datatypes.S i) ts) B m k b) as Hs.
    by rewrite Hts, <- Hins, <- (app_nil_r (<[i := k b]> ts)) in Hs.
  - intros [= <-]. cbn [fst]. rewrite Hins, <- app_assoc.
    pose proof (shrinks_fork (take i ts) (drop (Datatypes.S i) ts) c k) as Hs.
    by rewrite Hts in Hs.
Qed.

Lemma shrinks_middle p ts1 ts2 l :
  shrinks l (ts1 ++ p :: ts2) →
  (∃ B (m : S → option (B * S)) k b, p = Act m k ∧ l = ts1 ++ k b :: ts2) ∨
  (∃ c k, p = Fork c k ∧ l = ts1 ++ k :: ts2 ++ [c]) ∨
  ∃ us1 us2, l = us1 ++ p :: us2 ∧ shrinks (us1 ++ us2) (ts1 ++ ts2).
Proof.
  intros H. remember (ts1 ++ p :: ts2) as ts eqn:E.
  destruct H as [vs1 vs2 B m k b|vs1 vs2 c k];
    apply app_eq_app in E as (vs & [[-> E2]|[-> E2]]);
    (destruct vs as [|v vs]; cbn [app] in E2; simplify_list_eq).
  1,3: by left; rewrite ?app_nil_r; eauto 10.
  3,5: by right; left; rewrite ?app_nil_r; eauto 10.
  all: right; right.
  - exists ts1, (vs ++ k b :: vs2). split; [by simplify_list_eq|].
    rewrite !(app_assoc ts1). constructor.
  - exists (vs1 ++ k b :: vs), ts2. split; [by simplify_list_eq|].
    rewrite <- !app_assoc. constructor.
  - exists ts1, (vs ++ k :: vs2 ++ [c]). split; [by simplify_list_eq|].
    rewrite !(app_assoc ts1). constructor.
  - exists (vs1 ++ k :: vs), (ts2 ++ [c]). split; [by simplify_list_eq|].
    rewrite <- !app_assoc. cbn [app]. rewrite (app_assoc vs). constructor.
Qed.

Lemma Acc_insert p : ∀ ts1 ts2, Acc shrinks (ts1 ++ ts2) → Acc shrinks (ts1 ++ p :: ts2).
Proof.
  induction p as [r|B m k IH|c IHc k IHk]; intros ts1 ts2 Hacc;
    remember (ts1 ++ ts2) as ts eqn:E; revert ts1 ts2 E;
    induction Hacc as [ts Hacc IHacc]; intros ts1 ts2 ->;
    constructor; intros l [(B' & m' & k' & b & Hp & ->)|[(c' & k' & Hp & ->)|(us1 & us2 & -> & Hs)]]%shrinks_middle;
    try discriminate; try (by eapply IHacc; eauto).
  - assert (∃ b', k' b = k b') as [b' ->].
    { revert b. refine (match Hp in _ = q return match q with Act m0 k0 => ∀ b, ∃ b', k0 b = k b' | _ => True end with eq_refl => _ end). eauto. }
    apply IH. by constructor.
  - injection Hp as <- <-. apply IHk. rewrite app_assoc. apply IHc. rewrite app_nil_r. by constructor.
Qed.

Lemma shrinks_wf ts : Acc shrinks ts.
Proof.
  induction ts as [|p ts IH]; [|by apply (Acc_insert p [] ts)].
  constructor. intros l H. remember [] as ts eqn:E. destruct H as [ts1|ts1]; by destruct ts1.
Qed.

Lemma stepAt_wf (c : Pool * S) : Acc (λ c' c, ∃ i, stepAt i c = Some c') c.
Proof.
  destruct c as [ts s]. revert s. induction (shrinks_wf ts) as [ts _ IH]. intros s. constructor.
  intros [ts' s'] [i Hi]. apply IH. by apply stepAt_shrinks in Hi.
Qed.

End Pool.

(** ** Ownership *)

(** [free v]: the entry [v] belongs to no thread. *)
Section Logic.
Context {S R K V : Type} `{Countable K}.
Variable free : V → bool.
Variable Inv : gmap K V → S → Prop.
Variable Post : R → gmap K V → Prop.
(** What is known when a thread waits. *)
Variable Waits : prog S R → S → Prop.
Implicit Types (G o : gmap K V) (s : S) (p : prog S R).

Definition owns o G : Prop := ∀ x v, o !! x = Some v → G !! x = Some v ∧ free v = false.

(** A thread that owned [o] turned the map [G] into [G'] and now owns [o']:
    entries of others are as they were, and no entry is left without an
    owner. *)
Record moved o o' G G' : Prop := {
  mv_frame : ∀ x, o !! x = None → (∀ v, G !! x = Some v → free v = false) →
    G' !! x = G !! x ∧ o' !! x = None;
  mv_owns : owns o' G';
  mv_total : ∀ x v, G' !! x = Some v → free v = false → o' !! x = None →
    o !! x = None ∧ G !! x = Some v;
  mv_dom : dom G' = dom G
}.

Fixpoint safe p o : Prop :=
  match p with
  | Ret r => Post r o
  | Act m k => ∀ G s, Inv G s → owns o G →
      match m s with
      | None => o = ∅ ∧ Waits p s
      | Some (b, s') => ∃ G' o', Inv G' s' ∧ moved o o' G G' ∧ safe (k b) o'
      end
  | Fork c k => safe c ∅ ∧ safe k o
  end.

(** The invariant of a pool: [os] lists what the threads own. *)
Record pooled G (os : list (gmap K V)) (ts : list (prog S R)) s : Prop := {
  pl_inv : Inv G s;
  pl_safe : Forall2 safe ts os;
  pl_owns : ∀ i o, os !! i = Some o → owns o G;
  pl_sep : ∀ i j o1 o2 x, os !! i = Some o1 → os !! j = Some o2 →
    is_Some (o1 !! x) → is_Some (o2 !! x) → i = j;
  pl_total : ∀ x v, G !! x = Some v → free v = false →
    ∃ i o, os !! i = Some o ∧ o !! x = Some v
}.

Lemma moved_refl o G : owns o G → moved o o G G.
Proof. intros Ho. split; [auto|done| |done]. intros x v Hx _ Hn. done. Qed.

(** The entry a thread owns changes; nothing else does. *)
Lemma moved_own o G x v v' :
  owns o G → o !! x = Some v → free v' = false →
  moved o (<[x := v']> o) G (<[x := v']> G).
Proof.
  intros Ho Hx Hf. split.
  - intros y Hy _. destruct (decide (x = y)) as [->|Hne]; [congruence|].
    by rewrite !lookup_insert_ne.
  - intros y u Hy. apply lookup_insert_Some in Hy as [[<- <-]|[Hne Hy]].
    + by rewrite lookup_insert_eq.
    + rewrite lookup_insert_ne by done. by apply Ho.
  - intros y u Hy Hu Hn. apply lookup_insert_None in Hn as [Hn Hne].
    rewrite lookup_insert_ne in Hy by done. done.
  - apply dom_insert_lookup_L. destruct (Ho x v Hx). eauto.
Qed.

(** A free entry is taken over. *)
Lemma moved_take o G x v v' :
  owns o G → G !! x = Some v → free v = true → free v' = false →
  moved o (<[x := v']> o) G (<[x := v']> G).
Proof.
  intros Ho Hx Hf Hf'. assert (o !! x = None) as Hox.
  { destruct (o !! x) as [u|] eqn:E; [|done]. apply Ho in E as [? ?]. congruence. }
  split.
  - intros y Hy Hfy. destruct (decide (x = y)) as [->|Hne].
    + specialize (Hfy v Hx). congruence.
    + by rewrite !lookup_insert_ne.
  - intros y u Hy. apply lookup_insert_Some in Hy as [[<- <-]|[Hne Hy]].
    + by rewrite lookup_insert_eq.
    + rewrite lookup_insert_ne by done. by apply Ho.
  - intros y u Hy Hu Hn. apply lookup_insert_None in Hn as [Hn Hne].
    rewrite lookup_insert_ne in Hy by done. done.
  - apply dom_insert_lookup_L. eauto.
Qed.

(** An owned entry becomes free. *)
Lemma moved_give o G x v v' :
  owns o G → o !! x = Some v → free v' = true →
  moved o (delete x o) G (<[x := v']> G).
Proof.
  intros Ho Hx Hf. split.
  - intros y Hy _. destruct (decide (x = y)) as [->|Hne]; [congruence|].
    by rewrite lookup_insert_ne, lookup_delete_ne.
  - intros y u [Hne Hy]%lookup_delete_Some. rewrite lookup_insert_ne by done. by apply Ho.
  - intros y u Hy Hu Hn. destruct (decide (x = y)) as [->|Hne].
    + rewrite lookup_insert_eq in Hy. congruence.
    + rewrite lookup_insert_ne in Hy by done. by rewrite lookup_delete_ne in Hn.
  - apply dom_insert_lookup_L. destruct (Ho x v Hx). eauto.
Qed.

(** The step of one thread keeps the invariant of the pool. *)
Lemma pooled_moved G G' os ts s s' i o o' p' :
  pooled G os ts s → os !! i = Some o → Inv G' s' → moved o o' G G' → safe p' o' →
  pooled G' (<[i := o']> os) (<[i := p']> ts) s'.
Proof.
  intros Hpl Hi HI Hm Hs.
  assert (i < length os)%nat as Hlt by (eapply lookup_lt_Some; eauto).
  assert (∀ j u x, j ≠ i → os !! j = Some u → is_Some (u !! x) →
            G' !! x = G !! x ∧ o' !! x = None) as Hother.
  { intros j u x Hj Hu Hx. apply (mv_frame _ _ _ _ Hm).
    - destruct (o !! x) eqn:E; [|done]. destruct Hj.
      apply (pl_sep _ _ _ _ Hpl j i u o x); eauto.
    - intros v Hv. destruct Hx as [w Hw]. destruct (pl_owns _ _ _ _ Hpl j u Hu x w Hw). congruence. }
  split; [done|apply Forall2_insert; [apply Hpl|done]|..].
  - intros j u Hj. apply list_lookup_insert_Some in Hj as [(-> & <- & _)|[Hne Hj]]; [apply Hm|].
    intros x v Hx. destruct (Hother j u x ltac:(done) Hj ltac:(eauto)) as [-> _].
    by apply (pl_owns _ _ _ _ Hpl j u Hj).
  - intros j l u1 u2 x Hj Hl Hx1 Hx2.
    apply list_lookup_insert_Some in Hj as [(-> & <- & _)|[Hj1 Hj]],
      Hl as [(-> & <- & _)|[Hl1 Hl]]; [done| | |by apply (pl_sep _ _ _ _ Hpl j l u1 u2 x)].
    + destruct (Hother l u2 x ltac:(done) Hl Hx2) as [_ Hn]. destruct Hx1. congruence.
    + destruct (Hother j u1 x ltac:(done) Hj Hx1) as [_ Hn]. destruct Hx2. congruence.
  - intros x v Hx Hf. destruct (o' !! x) as [w|] eqn:E.
    + exists i, o'. split; [by apply list_lookup_insert_eq|].
      apply (mv_owns _ _ _ _ Hm) in E as E'. destruct E'. congruence.
    + destruct (mv_total _ _ _ _ Hm x v Hx Hf E) as [Ho HG].
      destruct (pl_total _ _ _ _ Hpl x v HG Hf) as (j & u & Hj & Hu).
      exists j, u. split; [|done]. rewrite list_lookup_insert_ne; [done|]. intros ->. congruence.
Qed.

Lemma pooled_fork G os ts s c : pooled G os ts s → safe c ∅ → pooled G (os ++ [∅]) (ts ++ [c]) s.
Proof.
  intros Hpl Hc. assert (∀ i o, (os ++ [∅]) !! i = Some o → os !! i = Some o ∨ o = ∅) as Hnew.
  { intros i o [?|[_ ?%list_elem_of_lookup_2]]%lookup_app_Some; [by left|right; set_solver]. }
  split.
  - apply Hpl.
  - apply Forall2_app; [apply Hpl|by repeat constructor].
  - intros i o [Ho| ->]%Hnew; [by apply (pl_owns _ _ _ _ Hpl i)|]. intros x v. by rewrite lookup_empty.
  - intros i j o1 o2 x [H1| ->]%Hnew [H2| ->]%Hnew X1 X2; rewrite ?lookup_empty in *;
      try (by destruct X1 || by destruct X2). by apply (pl_sep _ _ _ _ Hpl i j o1 o2 x).
  - intros x v Hx Hf. destruct (pl_total _ _ _ _ Hpl x v Hx Hf) as (i & o & Hi & Ho).
    exists i, o. split; [by apply lookup_app_l_Some|done].
Qed.

Lemma pooled_step G os ts s i c' :
  pooled G os ts s → stepAt i (ts, s) = Some c' →
  ∃ G' os', pooled G' os' c'.1 c'.2 ∧ dom G' = dom G.
Proof.
  intros Hpl. unfold stepAt. cbn [fst snd]. destruct (ts !! i) as [p|] eqn:Ei; [|done].
  destruct (Forall2_lookup_l _ _ _ _ _ (pl_safe _ _ _ _ Hpl) Ei) as (o & Ho & Hsafe).
  destruct p as [r|B m k|c k]; cbn [tstep]; [done| |].
  - specialize (Hsafe G s (pl_inv _ _ _ _ Hpl) (pl_owns _ _ _ _ Hpl i o Ho)).
    destruct (m s) as [[b s']|]; [|done]. intros [= <-]. cbn [fst snd].
    destruct Hsafe as (G' & o' & HI & Hm & Hs). exists G', (<[i := o']> os).
    split; [|apply Hm]. rewrite app_nil_r. by eapply pooled_moved.
  - intros [= <-]. cbn [fst snd]. destruct Hsafe as [Hc Hk]. exists G, (<[i := o]> os ++ [∅]).
    split; [|done]. apply pooled_fork; [|done]. eapply pooled_moved; [done..|apply Hpl| |done].
    apply moved_refl, (pl_owns _ _ _ _ Hpl i o Ho).
Qed.

(** A thread that cannot step has returned, or waits and owns nothing. *)
Lemma pooled_stuck G os ts s i p :
  pooled G os ts s → ts !! i = Some p → stepAt i (ts, s) = None →
  ∃ o, os !! i = Some o ∧ ((∃ r, p = Ret r ∧ Post r o) ∨ (o = ∅ ∧ Waits p s)).
Proof.
  intros Hpl Ei Hst. destruct (Forall2_lookup_l _ _ _ _ _ (pl_safe _ _ _ _ Hpl) Ei) as (o & Ho & Hsafe).
  exists o. split; [done|]. unfold stepAt in Hst. cbn [fst snd] in Hst. rewrite Ei in Hst.
  destruct p as [r|B m k|c k]; cbn [tstep] in Hst; [by left; eauto| |done].
  specialize (Hsafe G s (pl_inv _ _ _ _ Hpl) (pl_owns _ _ _ _ Hpl i o Ho)).
  destruct (m s) as [[b s']|]; [done|by right].
Qed.

(** The entries, listed thread by thread. *)
Lemma NoDup_owned (os : list (gmap K V)) :
  (∀ i j o1 o2 x, os !! i = Some o1 → os !! j = Some o2 → is_Some (o1 !! x) → is_Some (o2 !! x) → i = j) →
  NoDup (os ≫= map_to_list).
Proof.
  induction os as [|o os IH]; intros Hsep; simpl; [constructor|]. apply list.NoDup_app. split_and!.
  - apply NoDup_map_to_list.
  - intros [x v] Hx%elem_of_map_to_list (o' & Hx' & [j Hj]%list_elem_of_lookup)%list_elem_of_bind.
    apply elem_of_map_to_list in Hx'.
    specialize (Hsep 0%nat (Datatypes.S j) o o' x eq_refl Hj (mk_is_Some _ _ Hx) (mk_is_Some _ _ Hx')). done.
  - apply IH. intros i j o1 o2 x Hi Hj H1 H2.
    by injection (Hsep (Datatypes.S i) (Datatypes.S j) o1 o2 x Hi Hj H1 H2).
Qed.

Lemma pooled_list G os ts s :
  pooled G os ts s → (∀ v, free v = false) → map_to_list G ≡ₚ os ≫= map_to_list.
Proof.
  intros Hpl Hf. apply NoDup_Permutation; [apply NoDup_map_to_list|apply NoDup_owned, (pl_sep _ _ _ _ Hpl)|].
  intros [x v]. rewrite elem_of_map_to_list, list_elem_of_bind. split.
  - intros Hx. destruct (pl_total _ _ _ _ Hpl x v Hx (Hf v)) as (i & o & Hi & Ho).
    exists o. split; [by apply elem_of_map_to_list|by eapply list_elem_of_lookup_2].
  - intros (o & Hx%elem_of_map_to_list & [i Hi]%list_elem_of_lookup).
    by apply (pl_owns _ _ _ _ Hpl i o Hi).
Qed.

(** A step of the environment touches no entry. *)
Lemma pooled_env G os ts s s' : pooled G os ts s → Inv G s' → pooled G os ts s'.
Proof. intros [] ?. by split. Qed.

End Logic.

(** ** Who holds what *)

(** [f x v] is what the entry [v] of [x] holds of some kind of resource. *)
Section Held.
Context {K V A : Type} `{Countable K, Countable A}.
Implicit Types (G : gmap K V) (B X : gset A).

(** No two entries hold the same. *)
Definition apart G (f : K → V → option A) : Prop := ∀ x y u v a,
  G !! x = Some u → G !! y = Some v → f x u = Some a → f y v = Some a → x = y.
(** [X] is [B] and what the entries hold. *)
Definition holds G (f : K → V → option A) B X : Prop := ∀ a,
  a ∈ X ↔ a ∈ B ∨ ∃ x v, G !! x = Some v ∧ f x v = Some a.

Variable f : K → V → option A.

Lemma apart_keep G x v v' :
  G !! x = Some v → (f x v' = f x v ∨ f x v' = None) → apart G f → apart (<[x := v']> G) f.
Proof.
  intros Hx Hf Ha y z u w a Hy Hz Hfy Hfz.
  apply lookup_insert_Some in Hy as [[<- <-]|[? Hy]], Hz as [[<- <-]|[? Hz]]; try done.
  - apply (Ha x z v w a); [done..| |done]. destruct Hf; congruence.
  - apply (Ha y x u v a); [done..|]. destruct Hf; congruence.
  - by apply (Ha y z u w a).
Qed.

Lemma apart_gain G x v' a :
  f x v' = Some a → (∀ y u, G !! y = Some u → f y u ≠ Some a) → apart G f →
  apart (<[x := v']> G) f.
Proof.
  intros Hf Hnew Ha y z u w b Hy Hz Hfy Hfz.
  apply lookup_insert_Some in Hy as [[<- <-]|[? Hy]], Hz as [[<- <-]|[? Hz]]; try done.
  - destruct (Hnew z w Hz). congruence.
  - destruct (Hnew y u Hy). congruence.
  - by apply (Ha y z u w b).
Qed.

Lemma holds_keep G B X x v v' :
  G !! x = Some v → f x v' = f x v → holds G f B X → holds (<[x := v']> G) f B X.
Proof.
  intros Hx Hf HX a. rewrite (HX a). split; (intros [?|(y & u & Hy & Ha)]; [by left|right]).
  - destruct (decide (x = y)) as [->|Hne].
    + exists y, v'. rewrite lookup_insert_eq. split; [done|]. congruence.
    + exists y, u. by rewrite lookup_insert_ne.
  - apply lookup_insert_Some in Hy as [[<- <-]|[? Hy]]; [|eauto]. exists x, v.
    split; [done|congruence].
Qed.

Lemma holds_gain G B X x v v' a :
  G !! x = Some v → f x v = None → f x v' = Some a → holds G f B X →
  holds (<[x := v']> G) f B ({[a]} ∪ X).
Proof.
  intros Hx Hf Hf' HX b. rewrite elem_of_union, elem_of_singleton, (HX b). split.
  - intros [->|[?|(y & u & Hy & Hb)]]; [right|by left|right].
    + exists x, v'. by rewrite lookup_insert_eq.
    + exists y, u. rewrite lookup_insert_ne; [done|]. intros ->. congruence.
  - intros [?|(y & u & Hy & Hb)]; [by auto|].
    apply lookup_insert_Some in Hy as [[<- <-]|[? Hy]]; [left; congruence|eauto 10].
Qed.

Lemma holds_lose G B X x v v' a :
  G !! x = Some v → f x v = Some a → f x v' = None → a ∉ B → apart G f → holds G f B X →
  holds (<[x := v']> G) f B (X ∖ {[a]}).
Proof.
  intros Hx Hf Hf' Ha Hap HX b. rewrite elem_of_difference, elem_of_singleton, (HX b). split.
  - intros [[?|(y & u & Hy & Hb)] Hne]; [by left|right]. exists y, u.
    rewrite lookup_insert_ne; [done|]. intros ->. congruence.
  - intros [?|(y & u & Hy & Hb)]; [split; [by left|congruence]|].
    apply lookup_insert_Some in Hy as [[<- <-]|[Hne Hy]]; [congruence|].
    split; [eauto 10|]. intros ->. by apply Hne, (Hap x y v u a).
Qed.

(** The entry of a key that had none. *)
Lemma holds_new G B X x v' a :
  G !! x = None → f x v' = Some a → holds G f B X → holds (<[x := v']> G) f B ({[a]} ∪ X).
Proof.
  intros Hx Hf' HX b. rewrite elem_of_union, elem_of_singleton, (HX b). split.
  - intros [->|[?|(y & u & Hy & Hb)]]; [right|by left|right].
    + exists x, v'. by rewrite lookup_insert_eq.
    + exists y, u. rewrite lookup_insert_ne; [done|]. intros ->. congruence.
  - intros [?|(y & u & Hy & Hb)]; [by auto|].
    apply lookup_insert_Some in Hy as [[<- <-]|[? Hy]]; [left; congruence|eauto 10].
Qed.

Lemma holds_in G B X x v a : holds G f B X → G !! x = Some v → f x v = Some a → a ∈ X.
Proof. intros HX Hx Hf. apply HX. eauto. Qed.

(** A resource that exactly one owner can have, and does, is held by nobody else. *)
Lemma holds_fresh G B X a : holds G f B X → a ∉ X → ∀ x v, G !! x = Some v → f x v ≠ Some a.
Proof. intros HX Ha x v Hx Hf. by apply Ha, HX; eauto. Qed.

End Held.
