(* ===== verification/GoLib.v ===== *)
(** The parts of Go's standard library the repository uses on strings and
    byte slices: [strings], [bytes], [strconv], [encoding/hex],
    [unicode/utf8].  A Go string is a sequence of bytes, here Rocq's
    [string] (a sequence of 8-bit [ascii]).  White space and case mapping
    work on the UTF-8 decoded runes, as the library does. *)
From Stdlib Require Export Ascii.
From stdpp Require Export pretty.
From Stdlib Require SpecFloat.
From S2P Require Import Prelude.
Open Scope Z_scope.

(** ** Bytes and runes *)

Definition code (c : ascii) : Z := Z.of_N (N_of_ascii c).
Definition chr (z : Z) : ascii := ascii_of_N (Z.to_N z).

Definition between (lo hi z : Z) : bool := (lo <=? z) && (z <=? hi).

Definition RuneError : Z := 65533.

(** [utf8.DecodeRuneInString], iterated: each rune with the bytes it was
    decoded from; an invalid byte is [RuneError] of width one. *)
Fixpoint segs (s : string) : list (Z * string) :=
  match s with
  | EmptyString => []
  | String a0 t =>
    let b0 := code a0 in
    let bad := (RuneError, String a0 "") in
    if b0 <? 128 then (b0, String a0 "") :: segs t
    else if between 194 223 b0 then
      match t with
      | String a1 t1 =>
        if between 128 191 (code a1)
        then ((b0 - 192) * 64 + (code a1 - 128), String a0 (String a1 "")) :: segs t1
        else bad :: segs t
      | EmptyString => bad :: segs t
      end
    else if between 224 239 b0 then
      match t with
      | String a1 (String a2 t2) =>
        if between (if b0 =? 224 then 160 else 128) (if b0 =? 237 then 159 else 191) (code a1)
           && between 128 191 (code a2)
        then ((b0 - 224) * 4096 + (code a1 - 128) * 64 + (code a2 - 128),
              String a0 (String a1 (String a2 ""))) :: segs t2
        else bad :: segs t
      | _ => bad :: segs t
      end
    else if between 240 244 b0 then
      match t with
      | String a1 (String a2 (String a3 t3)) =>
        if between (if b0 =? 240 then 144 else 128) (if b0 =? 244 then 143 else 191) (code a1)
           && between 128 191 (code a2) && between 128 191 (code a3)
        then ((b0 - 240) * 262144 + (code a1 - 128) * 4096
              + (code a2 - 128) * 64 + (code a3 - 128),
              String a0 (String a1 (String a2 (String a3 "")))) :: segs t3
        else bad :: segs t
      | _ => bad :: segs t
      end
    else bad :: segs t
  end.

Definition runes (s : string) : list Z := (segs s).*1.

(** [unicode.IsSpace] *)
Definition isSpace (r : Z) : bool :=
  between 9 13 r || (r =? 32) || (r =? 133) || (r =? 160) || (r =? 5760)
  || between 8192 8202 r || (r =? 8232) || (r =? 8233) || (r =? 8239)
  || (r =? 8287) || (r =? 12288).

Definition concats (l : list string) : string := foldr String.app "" l.

(** ** [strings] *)

Fixpoint dropWhile {A} (p : A → bool) (l : list A) : list A :=
  match l with
  | [] => []
  | x :: l' => if p x then dropWhile p l' else l
  end.

Definition trimBoth {A} (p : A → bool) (l : list A) : list A :=
  reverse (dropWhile p (reverse (dropWhile p l))).

Definition trimSpace (s : string) : string :=
  concats (trimBoth (λ x : Z * string, isSpace x.1) (segs s)).*2.

Definition hasPrefix (p s : string) : bool := String.prefix p s.

Fixpoint dropStr (n : nat) (s : string) : string :=
  match n, s with
  | O, _ => s
  | S n', String _ s' => dropStr n' s'
  | S _, EmptyString => ""
  end.

Fixpoint takeStr (n : nat) (s : string) : string :=
  match n, s with
  | S n', String c s' => String c (takeStr n' s')
  | _, _ => ""
  end.

Definition trimPrefix (p s : string) : string :=
  if hasPrefix p s then dropStr (String.length p) s else s.

(** [strings.Fields]: the maximal runs of non-space runes. *)
Fixpoint fields_go (cur : list string) (l : list (Z * string)) : list string :=
  match l with
  | [] => match cur with [] => [] | _ => [concats (reverse cur)] end
  | (r, b) :: l' =>
    if isSpace r
    then match cur with [] => fields_go [] l' | _ => concats (reverse cur) :: fields_go [] l' end
    else fields_go (b :: cur) l'
  end.
Definition fields (s : string) : list string := fields_go [] (segs s).

(** Cut at the first occurrence of a byte ([strings.IndexByte]). *)
Fixpoint cutByte (c : ascii) (s : string) : option (string * string) :=
  match s with
  | EmptyString => None
  | String d t =>
    if bool_decide (d = c) then Some ("", t)
    else match cutByte c t with
         | Some (x, y) => Some (String d x, y)
         | None => None
         end
  end.

(** [strings.SplitN] with a one-byte separator. *)
Fixpoint splitN (c : ascii) (n : nat) (s : string) : list string :=
  match n with
  | O => []
  | S O => [s]
  | S n' => match cutByte c s with
            | Some (x, y) => x :: splitN c n' y
            | None => [s]
            end
  end.

Fixpoint joinStr (sep : string) (l : list string) : string :=
  match l with
  | [] => ""
  | [x] => x
  | x :: l' => x +:+ sep +:+ joinStr sep l'
  end.

(** ** [strconv] *)

Definition itoa (z : Z) : string := pretty z.

Definition digitVal (c : ascii) : option Z :=
  if between 48 57 (code c) then Some (code c - 48) else None.

Fixpoint digits_go (acc : Z) (s : string) : option Z :=
  match s with
  | EmptyString => Some acc
  | String c t => match digitVal c with
                  | Some d => digits_go (acc * 10 + d) t
                  | None => None
                  end
  end.

Definition digits (s : string) : option Z :=
  match s with EmptyString => None | _ => digits_go 0 s end.

(** [strconv.ParseInt(s, 10, 64)] and [strconv.Atoi]: an optional sign, at
    least one digit, in the range of an int64. *)
Definition parseInt64 (s : string) : option Z :=
  let inRange (o : option Z) :=
    match o with
    | Some z => if between (- two63) (two63 - 1) z then Some z else None
    | None => None
    end in
  match s with
  | String c t =>
    if bool_decide (c = "+"%char) then inRange (digits t)
    else if bool_decide (c = "-"%char) then inRange (Z.opp <$> digits t)
    else inRange (digits s)
  | EmptyString => None
  end.

(** ** [encoding/hex] *)

Definition hexDigit (z : Z) : ascii :=
  chr (if z <? 10 then 48 + z else 87 + z).

Definition hexVal (c : ascii) : option Z :=
  let z := code c in
  if between 48 57 z then Some (z - 48)
  else if between 97 102 z then Some (z - 87)
  else if between 65 70 z then Some (z - 55)
  else None.

(** [%02x] of a byte *)
Definition hex2 (z : Z) : string :=
  String (hexDigit (z / 16)) (String (hexDigit (z mod 16)) "").

Fixpoint hexEncode (s : string) : string :=
  match s with
  | EmptyString => ""
  | String c t => hex2 (code c) +:+ hexEncode t
  end.

Fixpoint hexDecode (s : string) : option string :=
  match s with
  | EmptyString => Some ""
  | String a (String b t) =>
    match hexVal a, hexVal b, hexDecode t with
    | Some x, Some y, Some r => Some (String (chr (x * 16 + y)) r)
    | _, _, _ => None
    end
  | String _ EmptyString => None
  end.

(** ** [float64]: the reference semantics of IEEE 754 binary64 *)

Abbreviation float64 := SpecFloat.spec_float.
Definition f64 (z : Z) : float64 := SpecFloat.binary_normalize 53 1024 z 0 false.
Definition fadd : float64 → float64 → float64 := SpecFloat.SFadd 53 1024.
Definition fsub : float64 → float64 → float64 := SpecFloat.SFsub 53 1024.
Definition fmul : float64 → float64 → float64 := SpecFloat.SFmul 53 1024.
Definition fdiv : float64 → float64 → float64 := SpecFloat.SFdiv 53 1024.
Definition fltb : float64 → float64 → bool := SpecFloat.SFltb.

(** [int(v)] of a float64: towards zero; what the hardware returns for a
    value that does not fit (amd64) is the least int64. *)
Definition goInt (v : float64) : Z :=
  match v with
  | SpecFloat.S754_zero _ => 0
  | SpecFloat.S754_finite s m e =>
    let a := if 0 <=? e then Zpos m * 2 ^ e else Zpos m / 2 ^ (- e) in
    let z := if s then - a else a in
    if between (- two63) (two63 - 1) z then z else - two63
  | _ => - two63
  end.

(** ** Lemmas *)

Fixpoint allChars (P : ascii → bool) (s : string) : bool :=
  match s with
  | EmptyString => true
  | String c t => P c && allChars P t
  end.

(** A byte that is its own rune and is not white space. *)
Definition plain (c : ascii) : bool := (code c <? 128) && negb (isSpace (code c)).

Lemma str_app_nil (s : string) : "" +:+ s = s.
Proof. done. Qed.

Lemma str_app_cons c (s t : string) : String c s +:+ t = String c (s +:+ t).
Proof. done. Qed.

Lemma str_app_nil_r (s : string) : s +:+ "" = s.
Proof. induction s as [|c s IH]; [done|]. by rewrite str_app_cons, IH. Qed.

Lemma str_app_assoc (s t u : string) : (s +:+ t) +:+ u = s +:+ (t +:+ u).
Proof. induction s as [|c s IH]; [done|]. by rewrite !str_app_cons, IH. Qed.

Create Rewrite HintDb gostr.
#[export] Hint Rewrite str_app_nil str_app_cons str_app_nil_r str_app_assoc : gostr.

Lemma str_length_app (s t : string) :
  String.length (s +:+ t) = (String.length s + String.length t)%nat.
Proof. induction s as [|c s IH]; [done|]. rewrite str_app_cons. simpl. by rewrite IH. Qed.

Lemma prefix_app (s t : string) : hasPrefix s (s +:+ t) = true.
Proof.
  unfold hasPrefix. induction s as [|c s IH]; [by destruct t|].
  rewrite str_app_cons. simpl. destruct (ascii_dec c c); [done|congruence].
Qed.

Lemma dropStr_app (s t : string) : dropStr (String.length s) (s +:+ t) = t.
Proof. induction s as [|c s IH]; [by destruct t|]. by rewrite str_app_cons. Qed.

Lemma trimPrefix_app (s t : string) : trimPrefix s (s +:+ t) = t.
Proof. unfold trimPrefix. by rewrite prefix_app, dropStr_app. Qed.

Lemma allChars_app P (s t : string) :
  allChars P (s +:+ t) = allChars P s && allChars P t.
Proof.
  induction s as [|c s IH]; [done|].
  rewrite str_app_cons. simpl. by rewrite IH, andb_assoc.
Qed.

Lemma allChars_impl (P Q : ascii → bool) s :
  (∀ c, P c = true → Q c = true) → allChars P s = true → allChars Q s = true.
Proof.
  intros HPQ. induction s as [|c s IH]; simpl; [done|].
  intros [??]%andb_true_iff. rewrite HPQ by done. auto.
Qed.

Lemma code_range c : 0 ≤ code c < 256.
Proof.
  unfold code. pose proof (N_ascii_bounded c). lia.
Qed.

Lemma chr_code c : chr (code c) = c.
Proof. unfold chr, code. rewrite N2Z.id. apply ascii_N_embedding. Qed.

Lemma code_chr z : 0 ≤ z < 256 → code (chr z) = z.
Proof.
  intros. unfold chr, code. rewrite N_ascii_embedding by lia. lia.
Qed.

Lemma code_inj c d : code c = code d → c = d.
Proof. intros H. by rewrite <- (chr_code c), <- (chr_code d), H. Qed.

(** *** Hexadecimal *)

Lemma hexVal_hexDigit z : 0 ≤ z < 16 → hexVal (hexDigit z) = Some z.
Proof.
  intros. unfold hexVal, hexDigit, between.
  rewrite code_chr by (destruct (Z.ltb_spec z 10); lia).
  destruct (Z.ltb_spec z 10).
  - replace (48 <=? 48 + z) with true by lia.
    replace (48 + z <=? 57) with true by lia. simpl. f_equal; lia.
  - replace (87 + z <=? 57) with false by lia. rewrite andb_false_r.
    replace (97 <=? 87 + z) with true by lia.
    replace (87 + z <=? 102) with true by lia. simpl. f_equal; lia.
Qed.

(** [hex.DecodeString] inverts [hex.EncodeToString]. *)
Lemma hexDecode_hexEncode s : hexDecode (hexEncode s) = Some s.
Proof.
  induction s as [|c s IH]; [done|].
  pose proof (code_range c).
  assert (0 ≤ code c / 16 < 16) by (split; [apply Z.div_pos|apply Z.div_lt_upper_bound]; lia).
  pose proof (Z.mod_pos_bound (code c) 16 ltac:(lia)).
  cbn [hexEncode]. unfold hex2. rewrite !str_app_cons, str_app_nil. cbn [hexDecode].
  rewrite !hexVal_hexDigit, IH by done.
  replace (code c / 16 * 16 + code c mod 16) with (code c)
    by (pose proof (Z.div_mod (code c) 16); lia).
  by rewrite chr_code.
Qed.

Lemma hexDigit_code z : 0 ≤ z < 16 →
  code (hexDigit z) = (if z <? 10 then 48 + z else 87 + z).
Proof. intros. unfold hexDigit. apply code_chr. destruct (Z.ltb_spec z 10); lia. Qed.

Definition isHexChar (c : ascii) : bool :=
  between 48 57 (code c) || between 97 102 (code c).

Lemma hexDigit_isHex z : 0 ≤ z < 16 → isHexChar (hexDigit z) = true.
Proof.
  intros. unfold isHexChar, between. rewrite hexDigit_code by done.
  destruct (Z.ltb_spec z 10); lia.
Qed.

Lemma hexEncode_isHex s : allChars isHexChar (hexEncode s) = true.
Proof.
  induction s as [|c s IH]; [done|]. cbn [hexEncode]. unfold hex2.
  rewrite !str_app_cons, str_app_nil. cbn [allChars]. rewrite IH.
  pose proof (code_range c).
  assert (0 ≤ code c / 16 < 16) by (split; [apply Z.div_pos|apply Z.div_lt_upper_bound]; lia).
  pose proof (Z.mod_pos_bound (code c) 16 ltac:(lia)).
  by rewrite !hexDigit_isHex.
Qed.

Lemma hex2_inj x y : 0 ≤ x < 256 → 0 ≤ y < 256 → hex2 x = hex2 y → x = y.
Proof.
  intros Hx Hy Heq.
  assert (∀ z, 0 ≤ z < 256 → hexDecode (hex2 z) = Some (String (chr z) "")) as Hd.
  { intros z Hz. pose proof (hexDecode_hexEncode (String (chr z) "")) as H.
    cbn [hexEncode] in H. rewrite code_chr, str_app_nil_r in H by done. done. }
  pose proof (Hd x Hx) as H1. rewrite Heq, (Hd y Hy) in H1.
  injection H1 as H1. rewrite <- (code_chr x), <- (code_chr y) by done. congruence.
Qed.

(** *** Decimal *)

Lemma digitVal_char n : (n < 10)%N → digitVal (pretty_N_char n) = Some (Z.of_N n).
Proof.
  intros. assert (n = 0 ∨ n = 1 ∨ n = 2 ∨ n = 3 ∨ n = 4 ∨ n = 5 ∨ n = 6
          ∨ n = 7 ∨ n = 8 ∨ n = 9)%N as Hn by lia.
  by destruct_or! Hn; subst.
Qed.

Lemma digits_go_pretty n : ∀ s,
  digits_go 0 (pretty_N_go n s) = digits_go (Z.of_N n) s.
Proof.
  induction (N.lt_wf_0 n) as [n _ IH]; intros s.
  assert (n = 0 ∨ 0 < n)%N as [->|?] by lia; [by rewrite pretty_N_go_0|].
  rewrite pretty_N_go_step, IH by (try apply N.div_lt; lia). cbn [digits_go].
  rewrite digitVal_char by (apply N.mod_lt; lia).
  f_equal. pose proof (N.div_mod n 10). lia.
Qed.

Lemma pretty_N_go_nonempty n s : s ≠ "" → pretty_N_go n s ≠ "".
Proof.
  revert s. induction (N.lt_wf_0 n) as [n _ IH]; intros s Hs.
  assert (n = 0 ∨ 0 < n)%N as [->|?] by lia; [by rewrite pretty_N_go_0|].
  rewrite pretty_N_go_step by done. apply IH; [apply N.div_lt; lia|done].
Qed.

Lemma digits_pretty_pos p : digits (pretty (Npos p)) = Some (Zpos p).
Proof.
  unfold pretty, pretty_N. rewrite decide_False by done.
  assert (pretty_N_go (Npos p) "" ≠ "") as Hne.
  { rewrite pretty_N_go_step by done. by apply pretty_N_go_nonempty. }
  unfold digits. destruct (pretty_N_go _ _) as [|c s] eqn:E; [done|].
  by rewrite <- E, digits_go_pretty.
Qed.

Definition isDigit (c : ascii) : bool := between 48 57 (code c).

Lemma pretty_N_char_digit n : isDigit (pretty_N_char n) = true.
Proof. unfold pretty_N_char. by repeat case_match. Qed.

Lemma pretty_N_go_digits n s :
  allChars isDigit s = true → allChars isDigit (pretty_N_go n s) = true.
Proof.
  revert s. induction (N.lt_wf_0 n) as [n _ IH]; intros s Hs.
  assert (n = 0 ∨ 0 < n)%N as [->|?] by lia; [by rewrite pretty_N_go_0|].
  rewrite pretty_N_go_step by done. apply IH; [apply N.div_lt; lia|].
  simpl. by rewrite pretty_N_char_digit.
Qed.

Lemma itoa_digits z : 0 ≤ z → allChars isDigit (itoa z) = true.
Proof.
  intros. destruct z as [|p|p]; [done| |lia].
  unfold itoa, pretty, pretty_Z, pretty, pretty_positive, pretty, pretty_N.
  rewrite decide_False by done. by apply pretty_N_go_digits.
Qed.

Lemma between_int64 z : int64_ok z → between (- two63) (two63 - 1) z = true.
Proof. unfold int64_ok, between, two63. lia. Qed.

(** [strconv.ParseInt] inverts [strconv.FormatInt] on every int64. *)
Lemma parseInt64_itoa z : int64_ok z → parseInt64 (itoa z) = Some z.
Proof.
  intros Hz.
  assert (∀ p, ∃ c t, pretty (Npos p) = String c t ∧ isDigit c = true) as Hhd.
  { intros p. pose proof (itoa_digits (Zpos p) ltac:(lia)) as Hd.
    pose proof (digits_pretty_pos p) as Hp.
    change (itoa (Zpos p)) with (pretty (Npos p)) in Hd.
    destruct (pretty (Npos p)) as [|c t]; [done|].
    exists c, t. simpl in Hd. apply andb_true_iff in Hd as [??]. done. }
  destruct z as [|p|p]; [done|..].
  - change (itoa (Zpos p)) with (pretty (Npos p)).
    destruct (Hhd p) as (c & t & Hp & Hc). rewrite Hp. unfold parseInt64.
    rewrite !bool_decide_eq_false_2 by (intros ->; done).
    by rewrite <- Hp, digits_pretty_pos, between_int64.
  - change (itoa (Zneg p)) with ("-" +:+ pretty (Npos p)).
    rewrite str_app_cons, str_app_nil. unfold parseInt64.
    rewrite bool_decide_eq_false_2, bool_decide_eq_true_2 by done.
    rewrite digits_pretty_pos. cbn [fmap option_fmap option_map Z.opp].
    by rewrite between_int64.
Qed.

(** *** Cutting *)

Lemma cutByte_app c x y :
  allChars (λ d, negb (bool_decide (d = c))) x = true →
  cutByte c (x +:+ String c y) = Some (x, y).
Proof.
  induction x as [|d x IH]; intros Hx.
  - rewrite str_app_nil. simpl. by rewrite bool_decide_eq_true_2.
  - rewrite str_app_cons. simpl in Hx |- *.
    apply andb_true_iff in Hx as [Hd Hx].
    destruct (bool_decide (d = c)); [done|]. by rewrite IH.
Qed.

Lemma cutByte_Some c s x y : cutByte c s = Some (x, y) → s = x +:+ String c y.
Proof.
  revert x y. induction s as [|d s IH]; intros x y; simpl; [done|].
  case_bool_decide; [intros [= <- <-]; by subst|].
  destruct (cutByte c s) as [[x' y']|]; [|done]. intros [= <- <-].
  by rewrite str_app_cons, <- (IH x' y').
Qed.

(** *** Runes of plain text *)

Lemma segs_cons_ascii c s : code c < 128 → segs (String c s) = (code c, String c "") :: segs s.
Proof. intros. cbn [segs]. by replace (code c <? 128) with true by lia. Qed.

Lemma concats_segs s : concats (segs s).*2 = s.
Proof.
  cut (∀ n s, (String.length s ≤ n)%nat → concats (segs s).*2 = s); [eauto|clear s].
  induction n as [|n IH]; intros [|a0 t] Hlen; simpl in Hlen; [done|lia|done|].
  assert (∀ u, (String.length u ≤ n)%nat → concats (segs u).*2 = u) as IH' by eauto.
  cbn [segs]. repeat case_match; subst; cbn [fmap list_fmap concats foldr snd];
    autorewrite with gostr; simpl in Hlen;
    repeat f_equal; try done; apply IH'; simpl; lia.
Qed.

Lemma fields_go_app cur s (l : list (Z * string)) :
  allChars plain s = true →
  fields_go cur (segs s ++ l) = fields_go (reverse (segs s).*2 ++ cur) l.
Proof.
  revert cur. induction s as [|c s IH]; intros cur; [done|].
  intros [Hc Hs]%andb_true_iff. unfold plain in Hc.
  apply andb_true_iff in Hc as [Hc1 Hc2].
  rewrite segs_cons_ascii by lia. simpl. apply negb_true_iff in Hc2. rewrite Hc2.
  rewrite IH by done. by rewrite reverse_cons, <- (assoc_L (++)).
Qed.

Lemma segs_app_ascii s t :
  allChars (λ c, code c <? 128) s = true → segs (s +:+ t) = segs s ++ segs t.
Proof.
  induction s as [|c s IH]; [done|]. intros [Hc Hs]%andb_true_iff.
  rewrite str_app_cons, !segs_cons_ascii by lia. simpl. by rewrite IH.
Qed.

Lemma plain_ascii s : allChars plain s = true → allChars (λ c, code c <? 128) s = true.
Proof. apply allChars_impl. unfold plain. by intros c [??]%andb_true_iff. Qed.

(** A command line made of plain words, joined by single spaces, splits
    back into its words. *)
Lemma fields_word s rest :
  allChars plain s = true → s ≠ "" →
  fields (s +:+ " " +:+ rest) = s :: fields rest.
Proof.
  intros Hs Hne. unfold fields.
  rewrite segs_app_ascii by (by apply plain_ascii).
  rewrite str_app_cons, str_app_nil, segs_cons_ascii by done.
  rewrite fields_go_app by done. rewrite (right_id_L [] (++)). simpl.
  rewrite reverse_involutive, concats_segs.
  destruct (reverse (segs s).*2) eqn:E; [|done].
  apply (f_equal reverse) in E. rewrite reverse_involutive in E.
  pose proof (concats_segs s) as Hc. rewrite E in Hc. simpl in Hc. congruence.
Qed.

Lemma fields_last s : allChars plain s = true → s ≠ "" → fields s = [s].
Proof.
  intros Hs Hne. unfold fields. rewrite <- (app_nil_r (segs s)), fields_go_app by done.
  rewrite (right_id_L [] (++)). simpl. rewrite reverse_involutive, concats_segs.
  destruct (reverse (segs s).*2) eqn:E; [|done].
  apply (f_equal reverse) in E. rewrite reverse_involutive in E.
  pose proof (concats_segs s) as Hc. rewrite E in Hc. simpl in Hc. congruence.
Qed.
