(* ===== verification/NetAlloc.v ===== *)
(** The per-VM network allocator, control-plane/internal/netalloc/netalloc.go,
    with the parts of Go's [net/netip] it uses.

    An IPv4 [netip.Addr] is its 32-bit value; [AInvalid] stands for the
    zero [Addr] (and the invalid values [Next] makes of it), which no
    prefix contains. *)
From S2P Require Import Prelude GoLib.
Open Scope Z_scope.

(** ** net/netip *)

Inductive Addr := AInvalid | A4 (n : Z).

#[export] Instance Addr_eq_dec : EqDecision Addr.
Proof. solve_decision. Defined.

#[export] Instance Addr_countable : Countable Addr.
Proof.
  refine (inj_countable' (λ a, match a with AInvalid => None | A4 n => Some n end)
    (λ o, match o with None => AInvalid | Some n => A4 n end) _).
  by intros [].
Defined.

(** [Addr.Next]: the following address, the zero [Addr] on overflow. *)
Definition Next (a : Addr) : Addr :=
  match a with
  | A4 n => let m := wrapU32 (n + 1) in if m =? 0 then AInvalid else A4 m
  | AInvalid => AInvalid
  end.

Record Prefix := mkPrefix { p_addr : Addr; p_bits : Z }.

Definition Masked (p : Prefix) : Addr :=
  match p_addr p with
  | A4 n => A4 (Z.ldiff n (Z.ones (32 - p_bits p)))
  | AInvalid => AInvalid
  end.

Definition Contains (p : Prefix) (a : Addr) : bool :=
  match p_addr p, a with
  | A4 b, A4 n => Z.shiftr (Z.lxor b n) (32 - p_bits p) =? 0
  | _, _ => false
  end.

(** The four bytes of an IPv4 address ([As4]); [octet 3] is the last. *)
Definition octet (i : Z) (a : Addr) : Z :=
  match a with A4 n => Z.land (Z.shiftr n (8 * (3 - i))) 255 | AInvalid => 0 end.

(** [Addr.String] of an IPv4 address *)
Definition addrString (a : Addr) : string :=
  itoa (octet 0 a) +:+ "." +:+ itoa (octet 1 a) +:+ "."
  +:+ itoa (octet 2 a) +:+ "." +:+ itoa (octet 3 a).

(** [netip.parseIPv4Fields]: [dot] says that the previous byte was a dot or
    that there was none, [dl] counts the digits of the current field. *)
Fixpoint parseIPv4_go (dot : bool) (val dl : Z) (acc : list Z) (s : string) : option (list Z) :=
  match s with
  | EmptyString => if Nat.ltb (length acc) 3 then None else Some (acc ++ [val])
  | String c t =>
    match digitVal c with
    | Some d =>
      if (dl =? 1) && (val =? 0) then None
      else let v := val * 10 + d in
           if 255 <? v then None else parseIPv4_go false v (dl + 1) acc t
    | None =>
      if bool_decide (c = "."%char) then
        if dot || bool_decide (t = "") then None
        else if Nat.eqb (length acc) 3 then None
        else parseIPv4_go true 0 0 (acc ++ [val]) t
      else None
    end
  end.

Definition parseIPv4 (s : string) : option Addr :=
  match parseIPv4_go true 0 0 [] s with
  | Some [a; b; c; d] => Some (A4 (((a * 256 + b) * 256 + c) * 256 + d))
  | _ => None
  end.

Fixpoint cutLast (c : ascii) (s : string) : option (string * string) :=
  match s with
  | EmptyString => None
  | String d t =>
    match cutLast c t with
    | Some (x, y) => Some (String d x, y)
    | None => if bool_decide (d = c) then Some ("", t) else None
    end
  end.

(** [netip.ParsePrefix], on the IPv4 forms: the bit count has no sign and
    no leading zero. *)
Definition ParsePrefix (s : string) : option Prefix :=
  match cutLast "/"%char s with
  | None => None
  | Some (ipS, bitsS) =>
    match parseIPv4 ipS with
    | None => None
    | Some ip =>
      let badStart := match bitsS with
                      | String c (String _ _) => negb (between 49 57 (code c))
                      | _ => false
                      end in
      if badStart then None
      else match parseInt64 bitsS with
           | Some bits => if between 0 32 bits then Some (mkPrefix ip bits) else None
           | None => None
           end
    end
  end.

(** ** The allocator *)

Record Allocator := mkAllocator {
  al_base : Prefix;
  al_host : Addr;
  al_next : Addr;
  al_in_use : gmap Addr bool;
  al_tapIdx : Z;
  al_cidIdx : Z
}.

Inductive NetErr := ErrBadCIDR | ErrNoFreeIPs | ErrLoopExhausted.

(** [netalloc.New].  A CIDR that does not parse and one that parses to an
    IPv6 prefix are both refused. *)
Definition New (cidr : string) : res NetErr Allocator :=
  match ParsePrefix cidr with
  | None => Err ErrBadCIDR
  | Some p =>
    let first := Next (Masked p) in
    Ok {| al_base := p; al_host := first; al_next := Next first;
          al_in_use := ∅; al_tapIdx := 0; al_cidIdx := 99 |}
  end.

Definition HostAddr (a : Allocator) : Addr := al_host a.
Definition PrefixLen (a : Allocator) : Z := p_bits (al_base a).

Record Grant := mkGrant { g_ip : Addr; g_mac : string; g_tap : string; g_cid : Z }.

#[export] Instance Grant_eq_dec : EqDecision Grant.
Proof. solve_decision. Defined.

Definition macOf (ip : Addr) : string :=
  "AA:BB:CC:00:" +:+ hex2 (octet 2 ip) +:+ ":" +:+ hex2 (octet 3 ip).
Definition tapOf (i : Z) : string := "tap-fc" +:+ itoa i.

(** The loop of [Alloc]; the [fuel] is its iteration bound. *)
Fixpoint alloc_loop (fuel : nat) (a : Allocator) : res NetErr Grant * Allocator :=
  match fuel with
  | O => (Err ErrLoopExhausted, a)
  | S fuel' =>
    let candidate := al_next a in
    let a1 := mkAllocator (al_base a) (al_host a) (Next candidate)
                (al_in_use a) (al_tapIdx a) (al_cidIdx a) in
    if negb (Contains (al_base a) candidate) then (Err ErrNoFreeIPs, a1)
    else if bool_decide (candidate = al_host a) then alloc_loop fuel' a1
    else if default false (al_in_use a !! candidate) then alloc_loop fuel' a1
    else
      let tapIdx := wrapS64 (al_tapIdx a + 1) in
      let cidIdx := wrapU32 (al_cidIdx a + 1) in
      (Ok (mkGrant candidate (macOf candidate) (tapOf tapIdx) cidIdx),
       mkAllocator (al_base a) (al_host a) (Next candidate)
         (<[candidate := true]> (al_in_use a)) tapIdx cidIdx)
  end.

Definition Alloc (a : Allocator) : res NetErr Grant * Allocator :=
  alloc_loop (Z.to_nat (Z.shiftl 1 16)) a.

Definition Release (ip : Addr) (a : Allocator) : Allocator :=
  mkAllocator (al_base a) (al_host a) (al_next a)
    (delete ip (al_in_use a)) (al_tapIdx a) (al_cidIdx a).

Definition InUseCount (a : Allocator) : nat := size (al_in_use a).

(** A history of calls, and the grants it produced. *)
Inductive NetOp := OpAlloc | OpRelease (ip : Addr).

Definition step_op (o : NetOp) (a : Allocator) : list Grant * Allocator :=
  match o with
  | OpAlloc => match Alloc a with
               | (Ok g, a') => ([g], a')
               | (Err _, a') => ([], a')
               end
  | OpRelease ip => ([], Release ip a)
  end.

Fixpoint run (ops : list NetOp) (a : Allocator) : list Grant * Allocator :=
  match ops with
  | [] => ([], a)
  | o :: ops' => let '(gs, a1) := step_op o a in
                 let '(gs', a2) := run ops' a1 in (gs ++ gs', a2)
  end.

Definition isAlloc (o : NetOp) : bool := match o with OpAlloc => true | _ => false end.
Definition allocs (ops : list NetOp) : nat := length (List.filter isAlloc ops).

(** ** The address range of a prefix *)

Definition prefix_ok (p : Prefix) : Prop :=
  (∃ b, p_addr p = A4 b ∧ 0 ≤ b < two32) ∧ 0 ≤ p_bits p ≤ 32.

Definition netLow (p : Prefix) : Z := match Masked p with A4 n => n | AInvalid => 0 end.
Definition netSize (p : Prefix) : Z := 2 ^ (32 - p_bits p).

(** The addresses [Alloc] can ever hand out: all but the first two. *)
Definition capacity (p : Prefix) : Z := Z.max 0 (netSize p - 2).

Definition addrAt (z : Z) : Addr := if z <? two32 then A4 z else AInvalid.

(** The [n]-th grant of an allocator, counting from zero. *)
Definition grantAt (p : Prefix) (n : Z) : Grant :=
  let ip := A4 (netLow p + 2 + n) in
  mkGrant ip (macOf ip) (tapOf (n + 1)) (wrapU32 (100 + n)).

Lemma netLow_div p b : p_addr p = A4 b → 0 ≤ p_bits p ≤ 32 →
  netLow p = b / netSize p * netSize p.
Proof.
  intros Hb Hk. unfold netLow, netSize, Masked. rewrite Hb.
  rewrite Z.ldiff_ones_r, Z.shiftl_mul_pow2, Z.shiftr_div_pow2 by lia. done.
Qed.

Lemma netSize_pos p : 0 ≤ p_bits p ≤ 32 → 0 < netSize p.
Proof. intros. unfold netSize. apply Z.pow_pos_nonneg; lia. Qed.

Lemma netLow_bounds p : prefix_ok p → 0 ≤ netLow p ∧ netLow p + netSize p ≤ two32.
Proof.
  intros [(b & Hb & Hr) Hk]. pose proof (netSize_pos p Hk) as Hpos.
  rewrite (netLow_div p b Hb Hk). split.
  - apply Z.mul_nonneg_nonneg; [apply Z.div_pos; lia|lia].
  - assert (two32 = 2 ^ p_bits p * netSize p) as Heq.
    { unfold two32, netSize. rewrite <- Z.pow_add_r by lia. f_equal. lia. }
    assert (b / netSize p < 2 ^ p_bits p) by (apply Z.div_lt_upper_bound; lia).
    rewrite Heq. nia.
Qed.

Lemma Contains_iff p n : prefix_ok p → 0 ≤ n →
  Contains p (A4 n) = bool_decide (netLow p ≤ n < netLow p + netSize p).
Proof.
  intros [(b & Hb & Hr) Hk] Hn. pose proof (netSize_pos p Hk) as Hpos.
  rewrite (netLow_div p b Hb Hk). unfold Contains. rewrite Hb.
  rewrite Z.shiftr_lxor.
  assert ((Z.lxor (Z.shiftr b (32 - p_bits p)) (Z.shiftr n (32 - p_bits p)) =? 0)
          = (b / netSize p =? n / netSize p)) as ->.
  { rewrite !Z.shiftr_div_pow2 by lia. apply eq_true_iff_eq.
    by rewrite !Z.eqb_eq, Z.lxor_eq_0_iff. }
  apply eq_true_iff_eq. rewrite Z.eqb_eq, bool_decide_eq_true.
  pose proof (Z.div_mod n (netSize p) ltac:(lia)).
  pose proof (Z.mod_pos_bound n (netSize p) Hpos). split.
  - intros ->. nia.
  - intros. apply (Z.div_unique n (netSize p) (b / netSize p)
      (n - b / netSize p * netSize p)); nia.
Qed.

Lemma Next_addrAt z : 0 ≤ z → Next (addrAt z) = addrAt (z + 1).
Proof.
  intros. unfold addrAt, Next, wrapU32.
  destruct (Z.ltb_spec z two32), (Z.ltb_spec (z + 1) two32); try lia; [..|done].
  - rewrite Z.mod_small by lia. by replace (z + 1 =? 0) with false by lia.
  - replace (z + 1) with two32 by lia. by rewrite Z.mod_same by done.
Qed.

Lemma Contains_addrAt p z : prefix_ok p → 0 ≤ z →
  Contains p (addrAt z) = bool_decide (netLow p ≤ z < netLow p + netSize p).
Proof.
  intros Hp Hz. unfold addrAt. pose proof (netLow_bounds p Hp).
  destruct (Z.ltb_spec z two32); [by apply Contains_iff|].
  rewrite bool_decide_eq_false_2 by lia. unfold Contains. by case_match.
Qed.

(** ** What a history does to an allocator *)

(** The state after [n] calls of [Alloc] and any number of [Release]s. *)
Record Reach (p : Prefix) (n : Z) (a : Allocator) : Prop := {
  rc_base : al_base a = p;
  rc_host : al_host a = addrAt (netLow p + 1);
  rc_next : al_next a = addrAt (netLow p + 2 + n);
  rc_tap : al_tapIdx a = Z.min n (capacity p);
  rc_cid : al_cidIdx a = wrapU32 (99 + Z.min n (capacity p));
  rc_used : ∀ x, is_Some (al_in_use a !! x) →
    ∃ z, x = A4 z ∧ netLow p + 1 < z < netLow p + 2 + n
}.

Lemma parseIPv4_go_range s : ∀ dot val dl acc l,
  0 ≤ val ≤ 255 → Forall (λ x, 0 ≤ x ≤ 255) acc →
  parseIPv4_go dot val dl acc s = Some l → Forall (λ x, 0 ≤ x ≤ 255) l.
Proof.
  assert (∀ c d, digitVal c = Some d → 0 ≤ d) as Hd.
  { intros c d. unfold digitVal, between. case_match; [|done]. intros [= <-]. lia. }
  induction s as [|c t IH]; intros dot val dl acc l Hv Ha; cbn [parseIPv4_go].
  - case_match; [done|]. intros [= <-]. by apply Forall_app_2; [|constructor].
  - destruct (digitVal c) as [d|] eqn:E.
    + case_match; [done|]. case_match; [done|]. intros Hgo.
      eapply IH; [|done..]. apply Hd in E. lia.
    + repeat case_match; try done. intros Hgo.
      eapply (IH true 0 0 (acc ++ [val])); [lia| |done]. by apply Forall_app_2; [|constructor].
Qed.

Lemma ParsePrefix_ok s p : ParsePrefix s = Some p → prefix_ok p.
Proof.
  unfold ParsePrefix, parseIPv4, prefix_ok.
  destruct (cutLast _ s) as [[ipS bitsS]|]; [|done].
  destruct (parseIPv4_go true 0 0 [] ipS) as [l|] eqn:E; [|done].
  apply parseIPv4_go_range in E; [|lia|done].
  destruct l as [|x1 [|x2 [|x3 [|x4 [|]]]]]; try done.
  repeat match goal with H : Forall _ (_ :: _) |- _ => apply Forall_cons in H as [??] end.
  cbn zeta. case_match; [done|].
  destruct (parseInt64 bitsS) as [bits|]; [|done].
  destruct (between 0 32 bits) eqn:Eb; [|done]. intros [= <-]. simpl.
  unfold between in Eb. unfold two32. split; [|lia]. eexists. split; [done|]. lia.
Qed.

Lemma New_reach cidr a : New cidr = Ok a → prefix_ok (al_base a) ∧ Reach (al_base a) 0 a.
Proof.
  unfold New. destruct (ParsePrefix cidr) as [p|] eqn:E; [|done].
  apply ParsePrefix_ok in E. intros [= <-]. simpl. split; [done|].
  pose proof (netLow_bounds p E) as [Hlo Hhi].
  pose proof (netSize_pos p (proj2 E)).
  assert (Masked p = addrAt (netLow p)) as Hm.
  { unfold addrAt. replace (netLow p <? two32) with true by lia.
    unfold netLow. destruct E as [(b & Hb & _) _].
    unfold Masked in *. by rewrite Hb. }
  split; simpl; rewrite ?Hm, ?Next_addrAt, ?Next_addrAt by lia;
    [done|done|f_equal; lia|unfold capacity; lia| |].
  - unfold capacity. rewrite wrapU32_id; unfold two32; lia.
  - intros x [y Hy]. done.
Qed.

Lemma Alloc_unfold a : Alloc a = alloc_loop (S (Z.to_nat 65535)) a.
Proof.
  unfold Alloc. replace (Z.shiftl 1 16) with (Z.succ 65535) by done.
  by rewrite Z2Nat.inj_succ.
Qed.

(** One call: the next address of the prefix while there is one, else an
    error; a released address is never reconsidered. *)
Lemma Alloc_reach p n a :
  prefix_ok p → 0 ≤ n → Reach p n a →
  ∃ a', Alloc a = ((if n <? capacity p then Ok (grantAt p n) else Err ErrNoFreeIPs), a') ∧
        Reach p (n + 1) a' ∧
        al_in_use a' = if n <? capacity p
                       then <[g_ip (grantAt p n) := true]> (al_in_use a) else al_in_use a.
Proof.
  intros Hp Hn [Hb Hh Hx Ht Hc Hu]. pose proof (netLow_bounds p Hp) as [Hlo Hhi].
  rewrite Alloc_unfold. cbn [alloc_loop]. rewrite Hb, Hh, Hx, Contains_addrAt by (done || lia).
  unfold capacity in *. destruct (Z.ltb_spec n (Z.max 0 (netSize p - 2))) as [Hlt|Hge].
  - rewrite bool_decide_eq_true_2 by lia. simpl negb. cbv iota.
    assert (addrAt (netLow p + 2 + n) = A4 (netLow p + 2 + n)) as Ha.
    { unfold addrAt. by replace (_ <? _) with true by lia. }
    rewrite Ha. rewrite bool_decide_eq_false_2.
    2:{ unfold addrAt. case_match; [intros [= ?]; lia|done]. }
    destruct (al_in_use a !! A4 (netLow p + 2 + n)) as [u|] eqn:Eu.
    { destruct (Hu (A4 (netLow p + 2 + n))) as (z & [= <-] & ?); [eauto|lia]. }
    simpl default. cbv iota. rewrite Ht, Hc.
    assert (0 ≤ n + 1 < two32) by lia.
    rewrite wrapS64_id by (unfold int64_ok, two63, two32 in *; lia).
    assert (wrapU32 (wrapU32 (99 + Z.min n (Z.max 0 (netSize p - 2))) + 1) = wrapU32 (100 + n)) as ->.
    { unfold wrapU32. rewrite Zplus_mod_idemp_l. f_equal. lia. }
    eexists. split; [|split].
    + f_equal. unfold grantAt. do 2 f_equal. f_equal. lia.
    + assert (capacity p = Z.max 0 (netSize p - 2)) as Hcap by done.
      rewrite <- Ha, Next_addrAt by lia.
      split; simpl; rewrite ?Hcap; [done|done|f_equal; lia|lia|f_equal; lia|].
      intros x. rewrite Ha. intros [y Hy]. apply lookup_insert_Some in Hy as [[<- _]|[_ Hy]].
      * exists (netLow p + 2 + n). split; [done|lia].
      * destruct (Hu x) as (z & -> & ?); [eauto|]. exists z. split; [done|lia].
    + done.
  - rewrite bool_decide_eq_false_2 by lia. simpl.
    eexists. split; [done|]. split; [|done].
    assert (capacity p = Z.max 0 (netSize p - 2)) as Hcap by done.
    rewrite Next_addrAt by lia.
    split; simpl; rewrite ?Hcap; [done|done|f_equal; lia|lia|rewrite Hc; f_equal; lia|].
    intros x Hx'. destruct (Hu x Hx') as (z & -> & ?). exists z. split; [done|lia].
Qed.

Lemma Release_reach p n ip a : Reach p n a → Reach p n (Release ip a).
Proof.
  intros [Hb Hh Hx Ht Hc Hu]. split; simpl; try done.
  intros x [y Hy]. apply lookup_delete_Some in Hy as [_ Hy]. eauto.
Qed.

Lemma run_reach p ops : ∀ n a,
  prefix_ok p → 0 ≤ n → Reach p n a →
  (run ops a).1 = grantAt p <$> seqZ n (Z.min (Z.of_nat (allocs ops)) (capacity p - n)) ∧
  Reach p (n + Z.of_nat (allocs ops)) (run ops a).2.
Proof.
  induction ops as [|[|ip] ops IH]; intros n a Hp Hn Hr.
  - change (allocs []) with 0%nat. rewrite Z.add_0_r. split; [|done]. by rewrite seqZ_nil by lia.
  - cbn [run step_op]. destruct (Alloc_reach p n a Hp Hn Hr) as (a' & -> & Hr' & _).
    specialize (IH (n + 1) a' Hp ltac:(lia) Hr') as [Hg Hr''].
    assert (allocs (OpAlloc :: ops) = S (allocs ops)) as -> by done.
    replace (n + Z.of_nat (S (allocs ops))) with (n + 1 + Z.of_nat (allocs ops)) by lia.
    destruct (Z.ltb_spec n (capacity p)); destruct (run ops a') as [gs a2];
      cbn [fst snd app] in *; (split; [|done]); rewrite Hg.
    + rewrite (seqZ_cons n) by lia. cbn [fmap list_fmap]. do 3 f_equal; lia.
    + rewrite !seqZ_nil by lia. done.
  - cbn [run step_op]. specialize (IH n (Release ip a) Hp Hn (Release_reach p n ip a Hr)).
    destruct (run ops (Release ip a)). done.
Qed.

Lemma run_grants cidr a ops :
  New cidr = Ok a →
  (run ops a).1 = grantAt (al_base a) <$>
    seqZ 0 (Z.min (Z.of_nat (allocs ops)) (capacity (al_base a))).
Proof.
  intros [Hp Hr]%New_reach.
  destruct (run_reach _ ops 0 a Hp ltac:(lia) Hr) as [-> _]. by rewrite Z.sub_0_r.
Qed.

Lemma octet_range i a : 0 ≤ octet i a < 256.
Proof.
  destruct a as [|z]; simpl; [lia|]. change 255 with (Z.ones 8).
  rewrite Z.land_ones by lia. apply Z.mod_pos_bound. lia.
Qed.

Lemma hex2_pair_inj x y x' y' :
  0 ≤ x < 256 → 0 ≤ x' < 256 → 0 ≤ y < 256 → 0 ≤ y' < 256 →
  hex2 x +:+ ":" +:+ hex2 y = hex2 x' +:+ ":" +:+ hex2 y' → x = x' ∧ y = y'.
Proof.
  intros Rx Rx' Ry Ry' Heq. unfold hex2 in Heq. autorewrite with gostr in Heq.
  injection Heq as H1 H2 H3 H4.
  split; apply hex2_inj; unfold hex2; congruence.
Qed.

Lemma macOf_low16 x y : macOf (A4 x) = macOf (A4 y) → x mod 65536 = y mod 65536.
Proof.
  unfold macOf. intros Heq%(inj (String.app _)).
  apply hex2_pair_inj in Heq as [E2 E3]; [|apply octet_range..].
  unfold octet in E2, E3. change 255 with (Z.ones 8) in *.
  change (8 * (3 - 2)) with 8 in E2. change (8 * (3 - 3)) with 0 in E3.
  rewrite !Z.land_ones, !Z.shiftr_div_pow2 in E2, E3 by lia.
  rewrite !Z.div_1_r in E3. change (2 ^ 8) with 256 in *.
  change 65536 with (256 * 256). rewrite !Z.rem_mul_r by lia. lia.
Qed.

(** A subnet of at most 65536 addresses sits inside one block of them. *)
Lemma small_prefix_block p : prefix_ok p → 16 ≤ p_bits p →
  0 < netSize p ∧ netSize p ≤ 65536.
Proof.
  intros [_ Hk] Hb. split; [by apply netSize_pos|].
  unfold netSize. change 65536 with (2 ^ 16). apply Z.pow_le_mono_r; lia.
Qed.

(** ** Properties *)


(** No two VMs ever share an address, a TAP device name or a vsock CID,
    over the whole life of the allocator, and every granted address lies in
    the subnet and is not the bridge's. *)
Theorem alloc_grants_distinct (cidr : string) (a : Allocator) (ops : list NetOp) :
  New cidr = Ok a →
  NoDup (g_ip <$> (run ops a).1) ∧ NoDup (g_tap <$> (run ops a).1) ∧
  NoDup (g_cid <$> (run ops a).1) ∧
  Forall (λ g, Contains (al_base a) (g_ip g) = true ∧ g_ip g ≠ HostAddr a) (run ops a).1.
Proof.
  intros Hn. rewrite (run_grants _ _ _ Hn).
  destruct (New_reach _ _ Hn) as [Hp [_ Hh _ _ _ _]].
  pose proof (netLow_bounds _ Hp) as [Hlo Hhi].
  assert (capacity (al_base a) < two32) by (unfold capacity, two32 in *; lia).
  rewrite <- !list_fmap_compose. split_and!.
  1-3: apply NoDup_fmap_2_strong; [|apply NoDup_seqZ];
    intros m n Hm%elem_of_seqZ Hm'%elem_of_seqZ; simpl.
  - intros [= ?]. lia.
  - unfold tapOf, itoa. intros Heq%(inj (String.app _))%(inj pretty). lia.
  - unfold wrapU32. intros Heq%mod_eq_near; unfold two32 in *; lia.
  - apply Forall_fmap, Forall_forall. intros n Hm%elem_of_seqZ. simpl.
    unfold HostAddr. rewrite Hh, Contains_iff by (done || lia). split.
    + apply bool_decide_eq_true_2. unfold capacity in *. lia.
    + unfold addrAt. case_match; [intros [= ?]; lia|done].
Qed.

(** In a subnet of /16 or smaller the MAC addresses, which carry only
    the low two octets, are pairwise distinct too. *)
Theorem alloc_macs_distinct (cidr : string) (a : Allocator) (ops : list NetOp) :
  New cidr = Ok a → 16 ≤ PrefixLen a → NoDup (g_mac <$> (run ops a).1).
Proof.
  intros Hn Hb. rewrite (run_grants _ _ _ Hn).
  destruct (New_reach _ _ Hn) as [Hp _].
  destruct (small_prefix_block _ Hp Hb) as [Hpos Hsz].
  rewrite <- list_fmap_compose.
  apply NoDup_fmap_2_strong; [|apply NoDup_seqZ].
  intros m n Hm%elem_of_seqZ Hm'%elem_of_seqZ. cbn [compose g_mac grantAt].
  intros Heq%macOf_low16%mod_eq_near; unfold capacity in *; lia.
Qed.

(** Releasing does not refill the pool.  Once as many calls of Alloc
    were made as the prefix has addresses, Alloc fails forever, whatever
    is released in between, although nothing may be in use any more. *)
Theorem alloc_never_reuses (cidr : string) (a : Allocator) (ops : list NetOp) :
  New cidr = Ok a →
  capacity (al_base a) ≤ Z.of_nat (allocs ops) →
  (Alloc (run ops a).2).1 = Err ErrNoFreeIPs.
Proof.
  intros [Hp Hr]%New_reach Hc.
  destruct (run_reach _ ops 0 a Hp ltac:(lia) Hr) as [_ Hr'].
  destruct (Alloc_reach _ (0 + Z.of_nat (allocs ops)) _ Hp ltac:(lia) Hr') as (a' & -> & _).
  cbn [fst]. by rewrite (proj2 (Z.ltb_ge _ _)) by lia.
Qed.

(** *** Witnesses *)

Definition demoAllocator : Allocator :=
  mkAllocator (mkPrefix (A4 2886991872) 24) (A4 2886991873) (A4 2886991874) ∅ 0 99.


Lemma alloc_grants_distinct_witness :
  NoDup (g_ip <$> (run [OpAlloc; OpAlloc; OpAlloc] demoAllocator).1).
Proof.
  apply (alloc_grants_distinct "172.20.0.0/24" demoAllocator [OpAlloc; OpAlloc; OpAlloc]).
  vm_compute. reflexivity.
Defined.

Lemma alloc_macs_distinct_witness :
  NoDup (g_mac <$> (run [OpAlloc; OpAlloc; OpAlloc] demoAllocator).1).
Proof.
  apply (alloc_macs_distinct "172.20.0.0/24" demoAllocator [OpAlloc; OpAlloc; OpAlloc]).
  - vm_compute. reflexivity.
  - vm_compute. discriminate.
Defined.

(** A /29 has six addresses to give; after one VM at a time came and went
    six times, the seventh boot fails with every address free. *)
Definition demoSmall : Allocator :=
  mkAllocator (mkPrefix (A4 2886991872) 29) (A4 2886991873) (A4 2886991874) ∅ 0 99.
Definition comeAndGo (z : Z) : list NetOp := [OpAlloc; OpRelease (A4 (2886991874 + z))].

Lemma alloc_never_reuses_witness :
  let a := (run (seqZ 0 6 ≫= comeAndGo) demoSmall).2 in
  InUseCount a = 0%nat ∧ (Alloc a).1 = Err ErrNoFreeIPs.
Proof.
  split; [vm_compute; reflexivity|].
  apply (alloc_never_reuses "172.20.0.0/29" demoSmall (seqZ 0 6 ≫= comeAndGo));
    vm_compute; [reflexivity|discriminate].
Defined.
