(* ===== verification/Serial.v ===== *)
(** The serial tee, control-plane/internal/session/serial.go: one goroutine
    drains the VM's console into a bounded ring and broadcasts to at most
    one subscriber, while WebSocket handlers attach and detach.

    Each critical section is one atomic operation; [step] runs one of them
    and [reach] closes over every interleaving.  [bytes.Buffer] is modelled
    with its backing array, because trimming the ring writes a slice of
    the buffer's own array back into the buffer. *)
From Stdlib Require Import Init.Byte.
From S2P Require Import Prelude.
Open Scope Z_scope.

Abbreviation byte := Byte.byte.

(** ** bytes.Buffer *)

(** The backing array (its length is the capacity) and the filled part. *)
Record Buffer := mkBuffer { bb_arr : list byte; bb_len : nat }.

Definition emptyBuffer : Buffer := mkBuffer [] 0.

(** [Buffer.Bytes]: a view of the array, not a copy. *)
Definition contents (b : Buffer) : list byte := take (bb_len b) (bb_arr b).

(** [copy(arr[at:], p)] *)
Definition blit (arr : list byte) (pos : nat) (p : list byte) : list byte :=
  take pos arr ++ p ++ drop (pos + length p) arr.

Section Buffer.
(** How much room [Buffer.grow] adds beyond what it needs. *)
Variable slack : nat → nat → nat.

(** [Buffer.Write]: in place while the capacity lasts, else into a new and
    larger array. *)
Definition bufWrite (p : list byte) (b : Buffer) : Buffer :=
  let need := (bb_len b + length p)%nat in
  if Nat.leb need (length (bb_arr b))
  then mkBuffer (blit (bb_arr b) (bb_len b) p) need
  else mkBuffer (contents b ++ p ++ replicate (slack (length (bb_arr b)) need) x00) need.

Definition bufReset (b : Buffer) : Buffer := mkBuffer (bb_arr b) 0.

(** [buf.Write(view[over:])], where the view is the first [n] bytes of the
    buffer's own array: the bytes are read from the array as it is at the
    time of the call, and [copy] behaves like memmove. *)
Definition bufWriteOwn (over n : nat) (b : Buffer) : Buffer :=
  bufWrite (drop over (take n (bb_arr b))) b.

(** ** The tee *)

(** A subscriber channel of capacity 64.  [ch_replay], [ch_got] and
    [ch_lost] record what its client has been given: the replay, the bytes
    received since, and whether a chunk was dropped. *)
Record Chan := mkChan {
  ch_queue : list (list byte);
  ch_closed : bool;
  ch_replay : list byte;
  ch_got : list byte;
  ch_lost : bool
}.

Definition chanCap : nat := 64.

(** Where the drain goroutine is: about to read, or about to send a copied
    chunk to the subscriber it saw under the lock. *)
Inductive DrainPC := DRead | DSend (chunk : list byte) (ch : nat) | DDone.

Record Tee := mkTee {
  t_ring : Buffer;
  t_ringLimit : nat;
  t_subscriber : option nat;
  t_chans : gmap nat Chan;
  t_pc : DrainPC;
  t_next : nat;
  t_hist : list byte;
  t_panic : bool
}.

Definition NewSerialTee (limit : nat) : Tee :=
  mkTee emptyBuffer limit None ∅ DRead 0 [] false.

(** The critical section of [drain]: append, keep the last [ringLimit]
    bytes, look up the subscriber. *)
Definition ringPut (limit : nat) (p : list byte) (ring : Buffer) : Buffer :=
  let ring1 := bufWrite p ring in
  let n := bb_len ring1 in
  if Nat.ltb limit n
  then bufWriteOwn (n - limit) n (bufReset ring1)
  else ring1.

Definition drainChunk (p : list byte) (t : Tee) : option Tee :=
  match t_pc t with
  | DRead =>
    if Nat.leb 1 (length p) && Nat.leb (length p) 4096 then
      Some (mkTee (ringPut (t_ringLimit t) p (t_ring t)) (t_ringLimit t)
              (t_subscriber t) (t_chans t)
              (match t_subscriber t with Some ch => DSend p ch | None => DRead end)
              (t_next t) (t_hist t ++ p) (t_panic t))
    else None
  | _ => None
  end.

Definition setChans (m : gmap nat Chan) (pc : DrainPC) (pan : bool) (t : Tee) : Tee :=
  mkTee (t_ring t) (t_ringLimit t) (t_subscriber t) m pc (t_next t) (t_hist t) pan.

(** The non-blocking send after the lock was released.  A send on a closed
    channel panics. *)
Definition drainSend (t : Tee) : option Tee :=
  match t_pc t with
  | DSend p i =>
    match t_chans t !! i with
    | None => None
    | Some c =>
      if ch_closed c then Some (setChans (t_chans t) DDone true t)
      else if Nat.ltb (length (ch_queue c)) chanCap
      then Some (setChans (<[i := mkChan (ch_queue c ++ [p]) false (ch_replay c)
                                    (ch_got c) (ch_lost c)]> (t_chans t)) DRead (t_panic t) t)
      else Some (setChans (<[i := mkChan (ch_queue c) false (ch_replay c)
                                    (ch_got c) true]> (t_chans t)) DRead (t_panic t) t)
    end
  | _ => None
  end.

(** The source reported an error (the VM is gone): [drain] returns. *)
Definition drainEOF (t : Tee) : option Tee :=
  match t_pc t with
  | DRead => Some (setChans (t_chans t) DDone (t_panic t) t)
  | _ => None
  end.

(** [Attach]: the replay, a fresh channel, which replaces any subscriber. *)
Definition Attach (t : Tee) : Tee :=
  mkTee (t_ring t) (t_ringLimit t) (Some (t_next t))
    (<[t_next t := mkChan [] false (contents (t_ring t)) [] false]> (t_chans t))
    (t_pc t) (S (t_next t)) (t_hist t) (t_panic t).

(** The cleanup function [Attach] returns, in its two parts: unsubscribe
    under the lock, then close the channel. *)
Definition unsubscribe (i : nat) (t : Tee) : Tee :=
  mkTee (t_ring t) (t_ringLimit t)
    (if bool_decide (t_subscriber t = Some i) then None else t_subscriber t)
    (t_chans t) (t_pc t) (t_next t) (t_hist t) (t_panic t).

Definition closeChan (i : nat) (t : Tee) : option Tee :=
  match t_chans t !! i with
  | None => None
  | Some c =>
    if ch_closed c then None
    else if bool_decide (t_subscriber t = Some i) then None
    else Some (setChans (<[i := mkChan (ch_queue c) true (ch_replay c) (ch_got c)
                                  (ch_lost c)]> (t_chans t)) (t_pc t) (t_panic t) t)
  end.

(** The client takes the oldest queued chunk. *)
Definition recv (i : nat) (t : Tee) : option Tee :=
  match t_chans t !! i with
  | Some (mkChan (p :: q) cl rep got lost) =>
    Some (setChans (<[i := mkChan q cl rep (got ++ p) lost]> (t_chans t)) (t_pc t) (t_panic t) t)
  | _ => None
  end.

Inductive Label :=
| LChunk (p : list byte) | LSend | LEOF
| LAttach | LUnsub (i : nat) | LClose (i : nat) | LRecv (i : nat).

Definition step (l : Label) (t : Tee) : option Tee :=
  match l with
  | LChunk p => drainChunk p t
  | LSend => drainSend t
  | LEOF => drainEOF t
  | LAttach => Some (Attach t)
  | LUnsub i => match t_chans t !! i with Some _ => Some (unsubscribe i t) | None => None end
  | LClose i => closeChan i t
  | LRecv i => recv i t
  end.

Fixpoint steps (ls : list Label) (t : Tee) : option Tee :=
  match ls with
  | [] => Some t
  | l :: ls' => match step l t with Some t' => steps ls' t' | None => None end
  end.

Inductive reach (limit : nat) : Tee → Prop :=
| reach_init : reach limit (NewSerialTee limit)
| reach_step t l t' : reach limit t → step l t = Some t' → reach limit t'.


(** ** The ring holds the last bytes of the console *)

Definition buf_wf (b : Buffer) : Prop := (bb_len b ≤ length (bb_arr b))%nat.

Lemma length_contents b : buf_wf b → length (contents b) = bb_len b.
Proof. unfold buf_wf, contents. intros. rewrite length_take. lia. Qed.

Lemma bufWrite_spec p b : buf_wf b →
  buf_wf (bufWrite p b) ∧ contents (bufWrite p b) = contents b ++ p.
Proof.
  unfold buf_wf, bufWrite. intros Hwf.
  destruct (Nat.leb_spec (bb_len b + length p) (length (bb_arr b))) as [Hle|Hgt];
    unfold contents, blit; simpl.
  - split; [rewrite !length_app, length_take, length_drop; lia|].
    rewrite (assoc_L (++)), take_app_le by (rewrite length_app, length_take; lia).
    apply take_ge. rewrite length_app, length_take. lia.
  - split; [rewrite !length_app, length_take; lia|].
    rewrite (assoc_L (++)), take_app_le by (rewrite length_app, length_take; lia).
    apply take_ge. rewrite length_app, length_take. lia.
Qed.

Lemma ringPut_spec limit p b : buf_wf b →
  buf_wf (ringPut limit p b) ∧ contents (ringPut limit p b) = lastn limit (contents b ++ p).
Proof.
  intros Hwf. destruct (bufWrite_spec p b Hwf) as [Hwf1 Hc1].
  unfold ringPut. destruct (Nat.ltb_spec limit (bb_len (bufWrite p b))) as [Hlt|Hge].
  - unfold bufWriteOwn. simpl bb_arr.
    destruct (bufWrite_spec (drop (bb_len (bufWrite p b) - limit)
      (take (bb_len (bufWrite p b)) (bb_arr (bufWrite p b)))) (bufReset (bufWrite p b)))
      as [Hwf2 ->]; [unfold buf_wf; simpl; lia|].
    split; [done|]. change (contents (bufReset (bufWrite p b))) with (@nil byte). simpl app.
    change (take _ _) with (contents (bufWrite p b)).
    unfold lastn. rewrite <- Hc1. by rewrite length_contents.
  - split; [done|]. rewrite Hc1. symmetry. apply lastn_all.
    rewrite <- Hc1, length_contents by done. lia.
Qed.

(** ** Invariant over all interleavings *)

Definition pending (t : Tee) (i : nat) : list byte :=
  match t_pc t with
  | DSend p j => if bool_decide (i = j) then p else []
  | _ => []
  end.

(** Everything the client of channel [i] has been or will be given. *)
Definition stream (t : Tee) (i : nat) (c : Chan) : list byte :=
  ch_replay c ++ ch_got c ++ concat (ch_queue c) ++ pending t i.

Record TInv (limit : nat) (t : Tee) : Prop := {
  ti_limit : t_ringLimit t = limit;
  ti_wf : buf_wf (t_ring t);
  ti_ring : contents (t_ring t) = lastn limit (t_hist t);
  ti_fresh : ∀ i c, t_chans t !! i = Some c → (i < t_next t)%nat;
  ti_sub : ∀ i, t_subscriber t = Some i → ∃ c, t_chans t !! i = Some c ∧ ch_closed c = false;
  ti_pc : ∀ p i, t_pc t = DSend p i → is_Some (t_chans t !! i);
  ti_stream : ∀ i c, t_chans t !! i = Some c → ch_lost c = false →
    ∃ pre post, t_hist t = pre ++ stream t i c ++ post ∧ (t_subscriber t = Some i → post = [])
}.

Lemma TInv_init limit : TInv limit (NewSerialTee limit).
Proof. split; simpl; intros; try done; [unfold buf_wf; simpl; lia]. Qed.

Lemma TInv_chunk limit t p t' : TInv limit t → drainChunk p t = Some t' → TInv limit t'.
Proof.
  intros [Hl Hwf Hr Hf Hs Hp Hst]. unfold drainChunk.
  destruct (t_pc t) eqn:Hpc; try done. case_match; [|done]. intros [= <-].
  destruct (ringPut_spec (t_ringLimit t) p (t_ring t) Hwf) as [Hwf' Hr'].
  split; simpl; try done.
  - by rewrite Hr', Hr, Hl, lastn_lastn_app.
  - intros q i. destruct (t_subscriber t) as [j|] eqn:Esub; [|done]. intros [= -> ->].
    destruct (Hs _ eq_refl) as (c & ? & _). eauto.
  - intros i c Hc Hlost. destruct (Hst i c Hc Hlost) as (pre & post & Hh & Hpost).
    unfold stream, pending in *. rewrite Hpc in Hh. simpl.
    destruct (t_subscriber t) as [j|] eqn:Esub.
    + case_bool_decide as Hij.
      * subst j. rewrite Hpost in Hh by done. exists pre, []. split; [|done].
        rewrite Hh, !app_nil_r. by rewrite <- !(assoc_L (++)).
      * exists pre, (post ++ p). split; [|naive_solver].
        rewrite Hh. by rewrite <- !(assoc_L (++)).
    + exists pre, (post ++ p). split; [|done]. rewrite Hh. by rewrite <- !(assoc_L (++)).
Qed.

(** The bytes of a stream do not depend on where in it they are. *)
Lemma TInv_update limit t i c c' pc' :
  TInv limit t → t_chans t !! i = Some c →
  (t_subscriber t = Some i → ch_closed c' = false) →
  (∀ p j, pc' = DSend p j → t_pc t = DSend p j) →
  (ch_lost c' = false → ch_lost c = false ∧ ∃ tl,
     stream t i c = stream (setChans (t_chans t) pc' (t_panic t) t) i c' ++ tl ∧
     (t_subscriber t = Some i → tl = [])) →
  (∀ j, j ≠ i → pending t j = [] ∨ pc' = t_pc t) →
  ∀ pan, TInv limit (setChans (<[i := c']> (t_chans t)) pc' pan t).
Proof.
  intros [Hl Hwf Hr Hf Hs Hp Hst] Hc Hcl Hpc Hlost Hoth pan.
  split; simpl; try done.
  - intros j d. rewrite lookup_insert_Some. intros [[<- _]|[_ ?]]; eauto.
  - intros j Hj. destruct (Hs j Hj) as (d & Hd & ?).
    destruct (decide (j = i)) as [->|]; [rewrite lookup_insert_eq; eauto|].
    rewrite lookup_insert_ne by done. eauto.
  - intros q j Hq. destruct (decide (j = i)) as [->|]; [rewrite lookup_insert_eq; eauto|].
    rewrite lookup_insert_ne by done. eauto.
  - intros j d. rewrite lookup_insert_Some. intros [[<- <-]|[Hne Hd]] Hd'.
    + destruct (Hlost Hd') as (Hl' & tl & Htl & Hsub).
      destruct (Hst i c Hc Hl') as (pre & post & Hh & Hpost).
      exists pre, (tl ++ post). rewrite Hh, Htl. split; [by rewrite <- !(assoc_L (++))|].
      intros Hi. by rewrite Hsub, Hpost.
    + destruct (Hst j d Hd Hd') as (pre & post & Hh & Hpost).
      unfold stream, pending in *. simpl.
      destruct (Hoth j ltac:(done)) as [He| ->]; [|eauto].
      rewrite He in Hh. destruct pc' as [|q k|]; eauto.
      rewrite (Hpc q k eq_refl) in He. rewrite He. eauto.
Qed.

Lemma TInv_send limit t t' : TInv limit t → drainSend t = Some t' → TInv limit t'.
Proof.
  intros Hinv. unfold drainSend. destruct (t_pc t) as [|p i|] eqn:Hpc; try done.
  destruct (t_chans t !! i) as [c|] eqn:Hc; [|done].
  assert (∀ j, j ≠ i → pending t j = [] ∨ DRead = t_pc t) as Hoth.
  { intros j Hj. left. unfold pending. rewrite Hpc. by rewrite bool_decide_eq_false_2. }
  destruct (ch_closed c) eqn:Hcl.
  - intros [= <-]. rewrite <- (insert_id (t_chans t) i c Hc).
    apply (TInv_update limit t i c c DDone Hinv Hc); try done.
    + intros Hi. destruct (ti_sub _ _ Hinv i Hi) as (c' & ? & ?). congruence.
    + intros Hl. split; [done|]. exists p. split.
      * unfold stream, pending. rewrite Hpc, bool_decide_eq_true_2 by done. simpl.
        by rewrite app_nil_r, <- !(assoc_L (++)).
      * intros Hi. destruct (ti_sub _ _ Hinv i Hi) as (c' & ? & ?). congruence.
    + intros j Hj. destruct (Hoth j Hj); [by left|by rewrite Hpc in *].
  - case_match; intros [= <-]; apply (TInv_update limit t i c); try done.
    intros Hl. split; [done|]. exists []. split; [|done].
    unfold stream, pending. rewrite Hpc, bool_decide_eq_true_2 by done. simpl.
    rewrite concat_app. simpl. by rewrite !app_nil_r.
Qed.

Lemma TInv_attach limit t : TInv limit t → TInv limit (Attach t).
Proof.
  intros [Hl Hwf Hr Hf Hs Hp Hst].
  assert (t_chans t !! t_next t = None) as Hnew.
  { destruct (t_chans t !! t_next t) as [c|] eqn:E; [|done]. apply Hf in E. lia. }
  split; simpl; try done.
  - intros i c. rewrite lookup_insert_Some. intros [[<- _]|[_ Hc]]; [lia|].
    apply Hf in Hc. lia.
  - intros i [= <-]. rewrite lookup_insert_eq. eauto.
  - intros p i Hpc. destruct (decide (i = t_next t)) as [->|].
    + rewrite lookup_insert_eq. eauto.
    + rewrite lookup_insert_ne by done. eauto.
  - intros i c. rewrite lookup_insert_Some. intros [[<- <-]|[Hne Hc]] Hlost.
    + assert (pending t (t_next t) = []) as Hpd.
      { unfold pending. destruct (t_pc t) as [|q j|] eqn:Hpc; try done.
        destruct (Hp q j eq_refl) as [d Hd]. rewrite bool_decide_eq_false_2; [done|congruence]. }
      unfold stream, pending in *. simpl. rewrite Hpd, Hr, app_nil_r.
      destruct (lastn_suffix limit (t_hist t)) as [pre Hpre].
      exists pre, []. by rewrite app_nil_r.
    + destruct (Hst i c Hc Hlost) as (pre & post & Hh & _).
      exists pre, post. split; [done|]. congruence.
Qed.

Lemma TInv_unsub limit t i : TInv limit t → TInv limit (unsubscribe i t).
Proof.
  intros [Hl Hwf Hr Hf Hs Hp Hst]. split; simpl; try done.
  - intros j. case_bool_decide; [done|]. apply Hs.
  - intros j c Hc Hlost. destruct (Hst j c Hc Hlost) as (pre & post & Hh & Hpost).
    exists pre, post. split; [done|]. case_bool_decide; [done|]. apply Hpost.
Qed.

Lemma TInv_close limit t i t' : TInv limit t → closeChan i t = Some t' → TInv limit t'.
Proof.
  intros Hinv. unfold closeChan. destruct (t_chans t !! i) as [c|] eqn:Hc; [|done].
  destruct (ch_closed c); [done|]. case_bool_decide as Hsub; [done|]. intros [= <-].
  apply (TInv_update limit t i c); try done; [|by right].
  intros Hl. split; [done|]. exists []. split; [|done]. by rewrite app_nil_r.
Qed.

Lemma TInv_recv limit t i t' : TInv limit t → recv i t = Some t' → TInv limit t'.
Proof.
  intros Hinv. unfold recv.
  destruct (t_chans t !! i) as [[[|p q] cl rep got lost]|] eqn:Hc; try done. intros [= <-].
  apply (TInv_update limit t i _ _ (t_pc t) Hinv Hc); try done; [..|by right].
  - intros Hi. destruct (ti_sub _ _ Hinv i Hi) as (c' & ? & ?). simplify_eq. done.
  - intros Hl. split; [done|]. exists []. split; [|done].
    unfold stream, pending. simpl. by rewrite app_nil_r, <- !(assoc_L (++)).
Qed.

Lemma TInv_eof limit t t' : TInv limit t → drainEOF t = Some t' → TInv limit t'.
Proof.
  intros [Hl Hwf Hr Hf Hs Hp Hst]. unfold drainEOF.
  destruct (t_pc t) eqn:Hpc; try done. intros [= <-]. split; simpl; try done.
  intros i c Hc Hlost. destruct (Hst i c Hc Hlost) as (pre & post & Hh & Hpost).
  unfold stream, pending in *. rewrite Hpc in Hh. eauto.
Qed.

Lemma reach_TInv limit t : reach limit t → TInv limit t.
Proof.
  induction 1 as [|t l t' _ IH Hstep]; [apply TInv_init|].
  destruct l; simpl in Hstep; simplify_eq;
    [by eapply TInv_chunk|by eapply TInv_send|by eapply TInv_eof|by apply TInv_attach|
     |by eapply TInv_close|by eapply TInv_recv].
  case_match; simplify_eq. by apply TInv_unsub.
Qed.

Lemma steps_reach limit ls t t' : reach limit t → steps ls t = Some t' → reach limit t'.
Proof.
  revert t. induction ls as [|l ls IH]; intros t Hr; simpl; [by intros [= <-]|].
  destruct (step l t) eqn:E; [|done]. intros. eapply IH; [|done]. by eapply reach_step.
Qed.

(** ** Panics *)

(** A label that closes the channel the drain goroutine is about to send
    on. *)
Definition racy (l : Label) (t : Tee) : bool :=
  match l, t_pc t with
  | LClose i, DSend _ j => bool_decide (i = j)
  | _, _ => false
  end.

Fixpoint race_free (ls : list Label) (t : Tee) : bool :=
  match ls with
  | [] => true
  | l :: ls' => negb (racy l t) &&
                match step l t with Some t' => race_free ls' t' | None => true end
  end.

(** The channel of a pending send is open. *)
Definition send_open (t : Tee) : Prop :=
  t_panic t = false ∧
  ∀ p i, t_pc t = DSend p i → ∃ c, t_chans t !! i = Some c ∧ ch_closed c = false.

Lemma send_open_step limit l t t' :
  TInv limit t → send_open t → racy l t = false → step l t = Some t' → send_open t'.
Proof.
  intros Hinv [Hpan Hopen] Hrace.
  assert (∀ i, t_subscriber t = Some i → ∃ c, t_chans t !! i = Some c ∧ ch_closed c = false)
    as Hs by apply Hinv.
  destruct l as [p| | | |i|i|i]; simpl.
  - unfold drainChunk. destruct (t_pc t) eqn:Hpc; try done. case_match; [|done].
    intros [= <-]. split; [done|]. simpl. intros q j.
    destruct (t_subscriber t); [|done]. intros [= -> ->]. by apply Hs.
  - unfold drainSend. destruct (t_pc t) as [|p i|] eqn:Hpc; try done.
    destruct (Hopen p i eq_refl) as (c & -> & Hcl). rewrite Hcl.
    case_match; intros [= <-]; (split; [done|]); simpl; done.
  - unfold drainEOF. destruct (t_pc t); try done. intros [= <-]. done.
  - intros [= <-]. split; [done|]. simpl. intros p i Hpc.
    destruct (Hopen p i Hpc) as (c & Hc & Hcl).
    destruct (decide (i = t_next t)) as [->|]; [rewrite lookup_insert_eq; eauto|].
    rewrite lookup_insert_ne by done. eauto.
  - case_match; [|done]. intros [= <-]. done.
  - unfold closeChan. destruct (t_chans t !! i) as [c|] eqn:Hc; [|done].
    destruct (ch_closed c); [done|]. case_bool_decide; [done|]. intros [= <-].
    split; [done|]. simpl. intros p j Hpc. destruct (Hopen p j Hpc) as (d & Hd & Hcl).
    unfold racy in Hrace. rewrite Hpc in Hrace. apply bool_decide_eq_false in Hrace.
    rewrite lookup_insert_ne by done. eauto.
  - unfold recv. destruct (t_chans t !! i) as [[[|p q] cl rep got lost]|] eqn:Hc; try done.
    intros [= <-]. split; [done|]. simpl. intros p' j Hpc.
    destruct (Hopen p' j Hpc) as (d & Hd & Hcl).
    destruct (decide (j = i)) as [->|].
    + rewrite lookup_insert_eq. simplify_eq. eauto.
    + rewrite lookup_insert_ne by done. eauto.
Qed.

Lemma race_free_open limit ls : ∀ t t',
  reach limit t → send_open t → race_free ls t = true → steps ls t = Some t' → send_open t'.
Proof.
  induction ls as [|l ls IH]; intros t t' Hr Ho Hf; simpl; [by intros [= <-]|].
  simpl in Hf. apply andb_true_iff in Hf as [Hl Hf].
  destruct (step l t) as [t1|] eqn:E; [|done]. intros Hs.
  apply (IH t1); [by eapply reach_step| |done|done].
  eapply send_open_step; [by apply reach_TInv|done| |done]. by apply negb_true_iff.
Qed.

(** ** Properties *)

(** C24: after any interleaving of console output, attaches, detaches and
    slow clients, the ring buffer holds exactly the last [ringLimit] bytes
    of everything the console ever printed, so that is what a late
    subscriber is replayed. *)
Theorem ring_is_console_tail (limit : nat) (t : Tee) :
  reach limit t →
  contents (t_ring t) = lastn limit (t_hist t) ∧
  (length (contents (t_ring t)) ≤ limit)%nat ∧
  ch_replay <$> t_chans (Attach t) !! t_next t = Some (lastn limit (t_hist t)).
Proof.
  intros Hr%reach_TInv. pose proof (ti_ring _ _ Hr) as Hc.
  split; [done|]. split; [rewrite Hc, length_lastn; lia|].
  simpl. by rewrite lookup_insert_eq, <- Hc.
Qed.

(** What a client sees is a contiguous piece of the console output, with nothing
    missing and nothing twice across the seam between replay and live
    stream, unless a chunk was dropped because its queue was full; for the
    current subscriber it reaches to the last byte drained. *)
Theorem stream_has_no_gap (limit : nat) (t : Tee) (i : nat) (c : Chan) :
  reach limit t → t_chans t !! i = Some c → ch_lost c = false →
  (∃ pre post, t_hist t = pre ++ (ch_replay c ++ ch_got c ++ concat (ch_queue c)) ++ post) ∧
  (t_subscriber t = Some i → stream t i c `suffix_of` t_hist t).
Proof.
  intros Hr%reach_TInv Hc Hlost.
  destruct (ti_stream _ _ Hr i c Hc Hlost) as (pre & post & Hh & Hpost). split.
  - exists pre, (pending t i ++ post). rewrite Hh. unfold stream. by rewrite <- !(assoc_L (++)).
  - intros Hi. exists pre. by rewrite Hh, Hpost, app_nil_r.
Qed.

(** The drain goroutine never panics and a current subscriber's channel
    is never closed, in every run in which no client closes its channel in
    the moment between the drain goroutine releasing the lock and sending. *)
Theorem no_panic_without_race (limit : nat) (ls : list Label) (t : Tee) :
  race_free ls (NewSerialTee limit) = true →
  steps ls (NewSerialTee limit) = Some t →
  t_panic t = false ∧
  ∀ i, t_subscriber t = Some i → ∃ c, t_chans t !! i = Some c ∧ ch_closed c = false.
Proof.
  intros Hf Hs.
  assert (reach limit t) as Hr by (eapply steps_reach; [constructor|done]).
  assert (send_open t) as [? _].
  { eapply race_free_open; [constructor| |done|done]. by split. }
  split; [done|]. apply (ti_sub _ _ (reach_TInv _ _ Hr)).
Qed.

(** Without that restriction the drain goroutine can panic: a client that
    detaches between the unlock and the send leaves it sending on a closed
    channel. *)
Theorem detach_race_panics (limit : nat) :
  ∃ t, reach limit t ∧ t_panic t = true.
Proof.
  destruct (steps [LAttach; LChunk [x41]; LUnsub 0; LClose 0; LSend] (NewSerialTee limit))
    as [t|] eqn:E; [|done].
  exists t. split; [by eapply steps_reach; [constructor|]|].
  simpl in E. by injection E as <-.
Qed.

(** The tee never blocks the VM.  Whatever the clients do, the drain
    goroutine can take its next step: accept the next chunk when it is
    reading, and finish its send when it is sending. *)
Theorem drain_never_blocks (limit : nat) (t : Tee) :
  reach limit t →
  match t_pc t with
  | DRead => ∀ p, (1 ≤ length p ≤ 4096)%nat → ∃ t', step (LChunk p) t = Some t'
  | DSend _ _ => ∃ t', step LSend t = Some t'
  | DDone => True
  end.
Proof.
  intros Hr%reach_TInv. destruct (t_pc t) as [|p i|] eqn:Hpc; [..|done].
  - intros p Hp. simpl. unfold drainChunk. rewrite Hpc.
    rewrite (proj2 (Nat.leb_le _ _)), (proj2 (Nat.leb_le _ _)) by lia. eauto.
  - simpl. unfold drainSend. rewrite Hpc.
    destruct (ti_pc _ _ Hr p i Hpc) as [c ->]. repeat case_match; eauto.
Qed.

End Buffer.

(** *** Witnesses *)

Definition noSlack : nat → nat → nat := λ _ _, 0%nat.

(** A boot log is printed, a browser attaches, reads on, and is replaced. *)
Definition demoLabels : list Label :=
  [LChunk [x41; x42; x43]; LAttach; LChunk [x44; x45]; LSend; LRecv 0;
   LAttach; LChunk [x46]; LUnsub 0; LClose 0; LSend].
Definition demoTee : Tee :=
  default (NewSerialTee 4) (steps noSlack demoLabels (NewSerialTee 4)).

Lemma demoTee_steps : steps noSlack demoLabels (NewSerialTee 4) = Some demoTee.
Proof. vm_compute. reflexivity. Qed.

Lemma demoTee_reach : reach noSlack 4 demoTee.
Proof. exact (steps_reach noSlack 4 demoLabels _ _ (reach_init _ _) demoTee_steps). Qed.

Lemma ring_is_console_tail_witness :
  contents (t_ring demoTee) = [x43; x44; x45; x46] ∧
  contents (t_ring demoTee) = lastn 4 (t_hist demoTee).
Proof.
  split; [vm_compute; reflexivity|].
  apply (ring_is_console_tail noSlack 4 demoTee demoTee_reach).
Defined.

Lemma stream_has_no_gap_witness :
  ∃ c, t_chans demoTee !! 1%nat = Some c ∧
       stream demoTee 1 c `suffix_of` t_hist demoTee ∧
       stream demoTee 1 c = [x42; x43; x44; x45; x46].
Proof.
  eexists. split; [vm_compute; reflexivity|]. split; [|vm_compute; reflexivity].
  apply (stream_has_no_gap noSlack 4 demoTee 1); [exact demoTee_reach|..]; vm_compute; reflexivity.
Defined.

Lemma no_panic_without_race_witness : t_panic demoTee = false.
Proof.
  apply (no_panic_without_race noSlack 4 demoLabels demoTee); vm_compute; reflexivity.
Defined.

Lemma drain_never_blocks_witness : ∃ t', step noSlack (LChunk [x41]) demoTee = Some t'.
Proof.
  apply (drain_never_blocks noSlack 4 demoTee demoTee_reach [x41]). simpl. lia.
Defined.
