(* ===== verification/Session.v ===== *)
(** One VM session, control-plane/internal/session/session.go, and the
    guest handshake of control-plane/internal/session/vsock_listener.go.

    A [*Session] is shared between the manager, the host, the HTTP handlers
    and several goroutines, so the record below is one cell of a heap
    (see Manager.v, Host.v) and every method is a function of its content.
    Methods that take several locks one after the other are given in
    atomic pieces, and the interleavings of [Resize] with the guest
    handshake are a step function of their own. *)
From S2P Require Import Prelude GoLib NetAlloc.
Open Scope Z_scope.

(** ** Time *)

(** Instants are nanoseconds since the Unix epoch; Go's zero [time.Time] is
    the first of January of year one. *)
Definition second : Z := 1000000000.
Definition zeroTime : Z := - 62135596800 * second.
Definition IsZero (t : Z) : bool := t =? zeroTime.

(** ** Errors of package session *)

Inductive GoErr :=
| ErrAtCapacity | ErrNotFound | ErrNoGuest | ErrSessionClosed | ErrBootTimeout
| ErrCtx                     (* context cancelled or past its deadline *)
| ErrResizeZero              (* "cols and rows must be positive" *)
| ErrConnWrite               (* the connection refused the bytes *)
| ErrWrap (what : string).   (* fmt.Errorf with a prefix *)

#[export] Instance GoErr_eq_dec : EqDecision GoErr.
Proof. solve_decision. Defined.

(** ** The session record *)

(** A [chan struct{}] that is only ever closed. *)
Inductive Signal := SigNil | SigOpen | SigClosed.

#[export] Instance Signal_eq_dec : EqDecision Signal.
Proof. solve_decision. Defined.

Record Session := mkSession {
  s_ID : string;
  s_IP : Addr;
  s_MAC : string;
  s_Tap : string;
  s_Hostname : string;
  s_SessionToken : string;
  s_Owner : string;
  s_Process : option Z;        (* process handle; None is nil *)
  s_VmDir : string;
  s_Serial : bool;             (* the serial tee is attached, not nil *)
  s_Warm : bool;
  s_createdAt : Z;
  s_readyAt : Z;               (* unix nanoseconds, 0 before the handshake *)
  s_ready : Signal;
  s_readyOnce : bool;
  s_mgr : bool;                (* the back-pointer to the manager is set *)
  s_done : Signal;
  s_doneOnce : bool;
  s_guestConn : option nat;
  s_cols : Z;
  s_rows : Z;
  s_attached : Z;
  s_lastDetach : Z
}.

(** *** Field updates *)

Definition with_ready (r : Signal) (o : bool) (t : Z) (s : Session) : Session :=
  mkSession (s_ID s) (s_IP s) (s_MAC s) (s_Tap s) (s_Hostname s) (s_SessionToken s)
    (s_Owner s) (s_Process s) (s_VmDir s) (s_Serial s) (s_Warm s) (s_createdAt s) t r o (s_mgr s)
    (s_done s) (s_doneOnce s) (s_guestConn s) (s_cols s) (s_rows s) (s_attached s)
    (s_lastDetach s).

Definition with_done (d : Signal) (o : bool) (s : Session) : Session :=
  mkSession (s_ID s) (s_IP s) (s_MAC s) (s_Tap s) (s_Hostname s) (s_SessionToken s)
    (s_Owner s) (s_Process s) (s_VmDir s) (s_Serial s) (s_Warm s) (s_createdAt s) (s_readyAt s)
    (s_ready s) (s_readyOnce s) (s_mgr s) d o (s_guestConn s) (s_cols s) (s_rows s)
    (s_attached s) (s_lastDetach s).

Definition with_conn (c : option nat) (s : Session) : Session :=
  mkSession (s_ID s) (s_IP s) (s_MAC s) (s_Tap s) (s_Hostname s) (s_SessionToken s)
    (s_Owner s) (s_Process s) (s_VmDir s) (s_Serial s) (s_Warm s) (s_createdAt s) (s_readyAt s)
    (s_ready s) (s_readyOnce s) (s_mgr s) (s_done s) (s_doneOnce s) c (s_cols s)
    (s_rows s) (s_attached s) (s_lastDetach s).

Definition with_size (c r : Z) (s : Session) : Session :=
  mkSession (s_ID s) (s_IP s) (s_MAC s) (s_Tap s) (s_Hostname s) (s_SessionToken s)
    (s_Owner s) (s_Process s) (s_VmDir s) (s_Serial s) (s_Warm s) (s_createdAt s) (s_readyAt s)
    (s_ready s) (s_readyOnce s) (s_mgr s) (s_done s) (s_doneOnce s) (s_guestConn s) c r
    (s_attached s) (s_lastDetach s).

Definition with_attach (n t : Z) (s : Session) : Session :=
  mkSession (s_ID s) (s_IP s) (s_MAC s) (s_Tap s) (s_Hostname s) (s_SessionToken s)
    (s_Owner s) (s_Process s) (s_VmDir s) (s_Serial s) (s_Warm s) (s_createdAt s) (s_readyAt s)
    (s_ready s) (s_readyOnce s) (s_mgr s) (s_done s) (s_doneOnce s) (s_guestConn s)
    (s_cols s) (s_rows s) n t.

Definition with_ident (id owner : string) (warm : bool) (s : Session) : Session :=
  mkSession id (s_IP s) (s_MAC s) (s_Tap s) (s_Hostname s) (s_SessionToken s)
    owner (s_Process s) (s_VmDir s) (s_Serial s) warm (s_createdAt s) (s_readyAt s)
    (s_ready s) (s_readyOnce s) (s_mgr s) (s_done s) (s_doneOnce s) (s_guestConn s)
    (s_cols s) (s_rows s) (s_attached s) (s_lastDetach s).

(** ** Readiness *)

(** Closing a channel; closing a closed or nil channel panics. *)
Definition closeSignal (c : Signal) : option Signal :=
  match c with SigOpen => Some SigClosed | _ => None end.

(** [MarkReady]; [None] is a panic. *)
Definition MarkReady (now : Z) (s : Session) : option Session :=
  let r := match s_ready s with SigNil => SigOpen | c => c end in
  if s_readyOnce s then Some (with_ready r true (s_readyAt s) s)
  else match closeSignal r with
       | Some c => Some (with_ready c true now s)
       | None => None
       end.

Definition ReadyAt (s : Session) : Z :=
  if s_readyAt s =? 0 then zeroTime else s_readyAt s.

(** [WaitReady]: the results its select may return; several may be possible
    at once and none means that it still waits. *)
Definition WaitReady (ctxDone : bool) (s : Session) : list (res GoErr unit) :=
  match s_ready s with
  | SigNil => [Ok tt]
  | r => (match r with SigClosed => [Ok tt] | _ => [] end)
         ++ (if ctxDone then [Err ErrCtx] else [])
         ++ (match s_done s with SigClosed => [Err ErrSessionClosed] | _ => [] end)
  end.

(** [CloseDone]; [None] is a panic. *)
Definition CloseDone (s : Session) : option Session :=
  match s_done s with
  | SigNil => Some s
  | d => if s_doneOnce s then Some s
         else match closeSignal d with
              | Some c => Some (with_done c true s)
              | None => None
              end
  end.

(** ** The guest connection and the window size *)

Definition SetGuestConn (c : option nat) (s : Session) : Session := with_conn c s.

Record GuestMessage := mkGuestMessage { gm_Type : string; gm_Payload : gmap string Z }.

#[export] Instance GuestMessage_eq_dec : EqDecision GuestMessage.
Proof. solve_decision. Defined.

Definition resizeMessage (cols rows : Z) : GuestMessage :=
  mkGuestMessage "resize" {[ "cols" := cols; "rows" := rows ]}.

(** What was written to each guest connection, oldest first. *)
Definition Wire : Type := nat → list GuestMessage.
Definition put (w : Wire) (c : nat) (m : GuestMessage) : Wire :=
  λ d, if Nat.eqb d c then w d ++ [m] else w d.

(** [SendToGuest]: look up the connection under the lock, write after it.
    [wok] is whether the connection accepts the bytes. *)
Definition SendToGuest (wok : bool) (m : GuestMessage) (s : Session) (w : Wire)
  : option GoErr * Wire :=
  match s_guestConn s with
  | None => (Some ErrNoGuest, w)
  | Some c => if wok then (None, put w c m) else (Some ErrConnWrite, w)
  end.

Definition Resize (wok : bool) (cols rows : Z) (s : Session) (w : Wire)
  : option GoErr * Session * Wire :=
  if (cols =? 0) || (rows =? 0) then (Some ErrResizeZero, s, w)
  else
    let s1 := with_size cols rows s in
    let '(e, w1) := SendToGuest wok (resizeMessage cols rows) s1 w in
    (match e with Some ErrNoGuest => None | _ => e end, s1, w1).

Definition WindowSize (s : Session) : Z * Z := (s_cols s, s_rows s).

(** ** Attach bookkeeping *)

(** The session's handles: the [i]-th call of [Attach] returned a detach
    function whose [sync.Once] has fired or not. *)
Record Attachments := mkAttachments { at_s : Session; at_once : list bool }.

Definition Attach (a : Attachments) : Attachments :=
  mkAttachments (with_attach (s_attached (at_s a) + 1) (s_lastDetach (at_s a)) (at_s a))
    (at_once a ++ [false]).

(** Calling the [i]-th detach function at [now]. *)
Definition detach (now : Z) (i : nat) (a : Attachments) : Attachments :=
  match at_once a !! i with
  | Some false =>
    let n := s_attached (at_s a) - 1 in
    mkAttachments (with_attach n (if n =? 0 then now else s_lastDetach (at_s a)) (at_s a))
      (<[i := true]> (at_once a))
  | _ => a
  end.

Definition Attached (s : Session) : Z := s_attached s.

Definition IdleSince (s : Session) : option Z :=
  if 0 <? s_attached s then None
  else if negb (IsZero (s_lastDetach s)) then Some (s_lastDetach s)
  else if negb (IsZero (ReadyAt s)) then Some (ReadyAt s)
  else Some (s_createdAt s).

Definition CreatedAt (s : Session) : Z := s_createdAt s.

(** ** Construction *)

Definition freshSession (id : string) (now : Z) : Session :=
  mkSession id AInvalid "" "" "" "" "" None "" false false now 0 SigOpen false false
    SigOpen false None 0 0 0 zeroTime.

Definition NewInMemorySession (id : string) (now : Z) : option Session :=
  MarkReady now (freshSession id now).

(** ** The vsock handler and its interleavings with Resize *)

(** The fields the host acts on; the time stamp and the payload are only
    logged. *)
Record GuestEvent := mkGuestEvent { ge_Type : string; ge_SessionToken : string }.

(** The check on the first frame of a connection. *)
Definition helloAccepted (hello : GuestEvent) (s : Session) : bool :=
  bool_decide (ge_Type hello = "hello") && bool_decide (ge_SessionToken hello = s_SessionToken s).

(** The program points of [Resize] between its critical sections. *)
Inductive RPC :=
| RStore (cols rows : Z)               (* about to store the geometry *)
| RLook (cols rows : Z)                (* about to look up the connection *)
| RWrite (cols rows : Z) (conn : nat)  (* about to write to it *)
| RDone.

#[export] Instance RPC_eq_dec : EqDecision RPC.
Proof. solve_decision. Defined.

(** The program points of [handleGuestConn]. *)
Inductive HPC :=
| HHello (hello : GuestEvent)          (* the first frame was decoded *)
| HMark                                (* connection set, about to mark ready *)
| HSize                                (* about to read the window size *)
| HLook (cols rows : Z)                (* replay: about to look up the connection *)
| HWrite (cols rows : Z) (conn : nat)
| HLoop                                (* reading further frames *)
| HExit.

Record Config := mkConfig {
  k_s : Session;
  k_w : Wire;
  k_resizes : list RPC;
  k_handlers : list HPC          (* the [i]-th handler serves connection [i] *)
}.

Definition stepResize (pc : RPC) (s : Session) (w : Wire) : option (RPC * Session * Wire) :=
  match pc with
  | RStore c r => if (c =? 0) || (r =? 0) then Some (RDone, s, w)
                  else Some (RLook c r, with_size c r s, w)
  | RLook c r => match s_guestConn s with
                 | None => Some (RDone, s, w)
                 | Some cn => Some (RWrite c r cn, s, w)
                 end
  | RWrite c r cn => Some (RDone, s, put w cn (resizeMessage c r))
  | RDone => None
  end.

Definition stepHandler (now : Z) (i : nat) (pc : HPC) (s : Session) (w : Wire)
  : option (HPC * Session * Wire) :=
  match pc with
  | HHello e => if helloAccepted e s then Some (HMark, SetGuestConn (Some i) s, w)
                else Some (HExit, s, w)
  | HMark => match MarkReady now s with
             | Some s' => Some (HSize, s', w)
             | None => None
             end
  | HSize => let '(c, r) := WindowSize s in
             if (0 <? c) && (0 <? r) then Some (HLook c r, s, w) else Some (HLoop, s, w)
  | HLook c r => match s_guestConn s with
                 | None => Some (HLoop, s, w)
                 | Some cn => Some (HWrite c r cn, s, w)
                 end
  | HWrite c r cn => Some (HLoop, s, put w cn (resizeMessage c r))
  | HLoop => Some (HExit, SetGuestConn None s, w)
  | HExit => None
  end.

Inductive Tick := TickR (i : nat) | TickH (now : Z) (i : nat).

Definition tick (t : Tick) (k : Config) : option Config :=
  match t with
  | TickR i =>
    match k_resizes k !! i with
    | Some pc => match stepResize pc (k_s k) (k_w k) with
                 | Some (pc', s', w') =>
                   Some (mkConfig s' w' (<[i := pc']> (k_resizes k)) (k_handlers k))
                 | None => None
                 end
    | None => None
    end
  | TickH now i =>
    match k_handlers k !! i with
    | Some pc => match stepHandler now i pc (k_s k) (k_w k) with
                 | Some (pc', s', w') =>
                   Some (mkConfig s' w' (k_resizes k) (<[i := pc']> (k_handlers k)))
                 | None => None
                 end
    | None => None
    end
  end.

Fixpoint ticks (ts : list Tick) (k : Config) : option Config :=
  match ts with
  | [] => Some k
  | t :: ts' => match tick t k with Some k' => ticks ts' k' | None => None end
  end.

(** A session before any handshake, with the given requests about to start
    and one guest connection per hello. *)
Definition startConfig (s : Session) (reqs : list (Z * Z)) (hellos : list GuestEvent) : Config :=
  mkConfig s (λ _, []) ((λ p : Z * Z, RStore p.1 p.2) <$> reqs) (HHello <$> hellos).

(** ** Lemmas: the one-shot signals *)

Inductive LifeOp := OMarkReady (now : Z) | OCloseDone.

Definition lifeStep (o : LifeOp) (s : Session) : option Session :=
  match o with OMarkReady now => MarkReady now s | OCloseDone => CloseDone s end.

Fixpoint lifeRun (ops : list LifeOp) (s : Session) : option Session :=
  match ops with
  | [] => Some s
  | o :: ops' => match lifeStep o s with Some s' => lifeRun ops' s' | None => None end
  end.

(** What a history amounts to: when the session first became ready, and
    whether it was closed. *)
Fixpoint firstReady (ops : list LifeOp) : option Z :=
  match ops with
  | [] => None
  | OMarkReady now :: _ => Some now
  | _ :: ops' => firstReady ops'
  end.

Definition closes (o : LifeOp) : bool := match o with OCloseDone => true | _ => false end.

(** The session's signals agree with a summary of its history. *)
Record LInv (r : option Z) (d : bool) (s : Session) : Prop := {
  li_ready : s_readyOnce s = (match r with Some _ => true | None => false end);
  li_chan : s_ready s = (match r with Some _ => SigClosed | None => SigOpen end);
  li_at : s_readyAt s = default 0 r;
  li_once : s_doneOnce s = d;
  li_done : s_done s = if d then SigClosed else SigOpen
}.

Lemma MarkReady_LInv r d now s : LInv r d s →
  ∃ s', MarkReady now s = Some s' ∧ LInv (Some (default now r)) d s'.
Proof.
  intros [H1 H2 H3 H4 H5]. unfold MarkReady. rewrite H1, H2.
  destruct r; simpl; eexists; (split; [done|]); by split.
Qed.

Lemma CloseDone_LInv r d s : LInv r d s → ∃ s', CloseDone s = Some s' ∧ LInv r true s'.
Proof.
  intros [H1 H2 H3 H4 H5]. unfold CloseDone. rewrite H4, H5.
  destruct d; simpl; eexists; (split; [done|]); by split.
Qed.

Lemma lifeRun_LInv ops : ∀ r d s, LInv r d s →
  ∃ s', lifeRun ops s = Some s' ∧
        LInv (match r with Some t => Some t | None => firstReady ops end)
             (d || existsb closes ops) s'.
Proof.
  induction ops as [|[now|] ops IH]; intros r d s Hs; simpl.
  - exists s. rewrite orb_false_r. by destruct r.
  - destruct (MarkReady_LInv r d now s Hs) as (s1 & -> & H1).
    destruct (IH _ _ _ H1) as (s' & -> & H'). exists s'. split; [done|]. by destruct r.
  - destruct (CloseDone_LInv r d s Hs) as (s1 & -> & H1).
    destruct (IH _ _ _ H1) as (s' & -> & H'). exists s'. split; [done|].
    by rewrite orb_true_r.
Qed.

(** ** Lemmas: attach bookkeeping *)

Inductive AttOp := AAttach | ADetach (now : Z) (i : nat).

Definition attStep (o : AttOp) (a : Attachments) : Attachments :=
  match o with AAttach => Attach a | ADetach now i => detach now i a end.

Definition attRun (ops : list AttOp) (a : Attachments) : Attachments :=
  foldl (λ a o, attStep o a) a ops.

(** The specification: which clients are connected, and when the last of
    them left. *)
Record Presence := mkPresence { pr_live : list bool; pr_left : option Z }.

Definition presStep (o : AttOp) (p : Presence) : Presence :=
  match o with
  | AAttach => mkPresence (pr_live p ++ [true]) (pr_left p)
  | ADetach now i =>
    match pr_live p !! i with
    | Some true =>
      let l := <[i := false]> (pr_live p) in
      mkPresence l (if existsb id l then pr_left p else Some now)
    | _ => p
    end
  end.

Definition presRun (ops : list AttOp) (p : Presence) : Presence :=
  foldl (λ p o, presStep o p) p ops.

Fixpoint countTrue (l : list bool) : Z :=
  match l with [] => 0 | b :: l' => (if b then 1 else 0) + countTrue l' end.

Lemma countTrue_app l k : countTrue (l ++ k) = countTrue l + countTrue k.
Proof. induction l as [|b l IH]; simpl; [done|]. rewrite IH. lia. Qed.

Lemma countTrue_nonneg l : 0 ≤ countTrue l.
Proof. induction l as [|[] l IH]; simpl; lia. Qed.

Lemma countTrue_zero l : (countTrue l =? 0) = negb (existsb id l).
Proof.
  induction l as [|[] l IH]; simpl; [done|..|done].
  pose proof (countTrue_nonneg l). lia.
Qed.

Lemma countTrue_clear l i : l !! i = Some true → countTrue (<[i := false]> l) = countTrue l - 1.
Proof.
  revert i. induction l as [|b l IH]; intros [|i]; simpl; [done|done|..].
  - intros [= ->]. lia.
  - intros H. rewrite IH by done. lia.
Qed.

Record AInv (p : Presence) (a : Attachments) : Prop := {
  ai_once : negb <$> at_once a = pr_live p;
  ai_count : s_attached (at_s a) = countTrue (pr_live p);
  ai_left : s_lastDetach (at_s a) = default zeroTime (pr_left p)
}.

Lemma AInv_step o p a : AInv p a → AInv (presStep o p) (attStep o a).
Proof.
  destruct p as [live left]. intros [H1 H2 H3]. simpl in *. subst live.
  destruct o as [|now i].
  - split; simpl; [by rewrite fmap_app|rewrite H2, countTrue_app; simpl; lia|done].
  - cbn [presStep attStep pr_live pr_left]. unfold detach.
    rewrite list_lookup_fmap. destruct (at_once a !! i) as [[]|] eqn:E; [by split| |by split].
    assert ((negb <$> at_once a) !! i = Some true) as Hl by (by rewrite list_lookup_fmap, E).
    assert (s_attached (at_s a) - 1 = countTrue (<[i := false]> (negb <$> at_once a))) as Hn
      by (by rewrite countTrue_clear, H2).
    cbn [fmap option_fmap option_map negb]. rewrite Hn.
    split; cbn [at_once at_s pr_live pr_left with_attach s_attached s_lastDetach].
    + by rewrite list_fmap_insert.
    + done.
    + rewrite countTrue_zero. by destruct (existsb id _).
Qed.

Lemma AInv_run ops p a : AInv p a → AInv (presRun ops p) (attRun ops a).
Proof.
  revert p a. induction ops as [|o ops IH]; intros p a H; [done|].
  apply IH. by apply AInv_step.
Qed.

(** ** Lemmas: resize against handshake *)

Lemma elem_of_insert_other {A} (l : list A) i x y z :
  l !! i = Some y → x ∈ l → x ≠ y → x ∈ <[i := z]> l.
Proof.
  intros Hy [j Hj]%list_elem_of_lookup Hne. apply list_elem_of_lookup. exists j.
  rewrite list_lookup_insert_ne; [done|]. intros ->. congruence.
Qed.

Lemma elem_of_insert_new {A} (l : list A) i y z : l !! i = Some y → z ∈ <[i := z]> l.
Proof.
  intros Hy. apply list_elem_of_lookup. exists i. apply list_lookup_insert_eq.
  by eapply lookup_lt_Some.
Qed.

Lemma put_self w c m : m ∈ put w c m c.
Proof. unfold put. rewrite Nat.eqb_refl. set_solver. Qed.

Lemma put_mono w c d m m' : m ∈ w d → m ∈ put w c m' d.
Proof. unfold put. case_match; set_solver. Qed.

#[local] Hint Resolve put_self put_mono elem_of_insert_new : core.

(** The connection is set: the handler is past the hello and not gone. *)
Definition connected (h : HPC) : bool :=
  match h with HHello _ | HExit => false | _ => true end.

(** Geometry [c, r] has been handed to connection 0 or some thread is on
    its way to do so. *)
Definition covered (c r : Z) (h : HPC) (k : Config) : Prop :=
  resizeMessage c r ∈ k_w k 0%nat ∨ RLook c r ∈ k_resizes k ∨ RWrite c r 0 ∈ k_resizes k ∨
  h = HSize ∨ h = HMark ∨ h = HLook c r ∨ h = HWrite c r 0.

Record DInv (k : Config) (h : HPC) : Prop := {
  di_one : k_handlers k = [h];
  di_conn : s_guestConn (k_s k) = if connected h then Some 0%nat else None;
  di_w : ∀ c r cn, RWrite c r cn ∈ k_resizes k → cn = 0%nat;
  di_h : ∀ c r cn, h = HWrite c r cn → cn = 0%nat;
  di_cov : connected h = true → 0 < s_cols (k_s k) → 0 < s_rows (k_s k) →
    covered (s_cols (k_s k)) (s_rows (k_s k)) h k
}.

Lemma covered_resize c r h k i pc pc' s' w' :
  k_resizes k !! i = Some pc →
  (∀ m, m ∈ k_w k 0%nat → m ∈ w' 0%nat) →
  (pc = RLook c r → pc' = RWrite c r 0) →
  (pc = RWrite c r 0 → resizeMessage c r ∈ w' 0%nat) →
  covered c r h k →
  covered c r h (mkConfig s' w' (<[i := pc']> (k_resizes k)) (k_handlers k)).
Proof.
  intros Hi Hw Hlook Hwr [H|[H|[H|H]]]; unfold covered; simpl; [auto|..|auto].
  - destruct (decide (pc = RLook c r)) as [->|Hne]; [rewrite Hlook by done; eauto|].
    eauto using elem_of_insert_other.
  - destruct (decide (pc = RWrite c r 0)) as [->|Hne]; [auto|].
    eauto using elem_of_insert_other.
Qed.

Lemma DInv_resize k h i k' : DInv k h → tick (TickR i) k = Some k' → DInv k' h.
Proof.
  intros [H1 H2 H3 H4 H5]. simpl. destruct (k_resizes k !! i) as [pc|] eqn:Hi; [|done].
  assert (∀ c r cn z, RWrite c r cn ∈ <[i := z]> (k_resizes k) →
            z = RWrite c r cn ∨ RWrite c r cn ∈ k_resizes k) as Hins.
  { intros c r cn z [j Hj]%list_elem_of_lookup.
    apply list_lookup_insert_Some in Hj as [(_ & ? & _)|[_ Hj]]; [by left|].
    right. apply list_elem_of_lookup. eauto. }
  destruct pc as [c r|c r|c r cn|]; simpl; [..|done].
  - destruct ((c =? 0) || (r =? 0)); intros [= <-]; split; simpl; try done.
    + intros ??? [?|?]%Hins; naive_solver.
    + intros Hc Hp Hp'. eapply covered_resize; eauto; naive_solver.
    + intros ??? [?|?]%Hins; naive_solver.
    + intros Hc _ _. unfold covered. simpl. eauto.
  - destruct (s_guestConn (k_s k)) as [cn|] eqn:Hcn; intros [= <-]; split; simpl; try done;
      rewrite ?Hcn; try done.
    + intros ??? [?|?]%Hins; [|eauto]. destruct (connected h); naive_solver.
    + intros Hc Hp Hp'. rewrite Hc in H2. simplify_eq.
      eapply covered_resize; eauto; naive_solver.
    + intros ??? [?|?]%Hins; naive_solver.
    + intros Hc. rewrite Hc in H2. done.
  - intros [= <-].
    assert (cn = 0%nat) as -> by (eapply H3, list_elem_of_lookup; eauto).
    split; simpl; try done.
    + intros ??? [?|?]%Hins; naive_solver.
    + intros Hc Hp Hp'. eapply covered_resize; eauto; naive_solver.
Qed.

Lemma DInv_handler k h now k' : DInv k h → tick (TickH now 0) k = Some k' →
  ∃ h', DInv k' h'.
Proof.
  intros [H1 H2 H3 H4 H5]. simpl. rewrite H1. simpl.
  destruct h as [e| | |c r|c r cn| |]; simpl; [..|done].
  - destruct (helloAccepted e (k_s k)); intros [= <-]; [exists HMark|exists HExit]; split; simpl; try done.
    intros _ _ _. unfold covered. tauto.
  - destruct (MarkReady now (k_s k)) as [s'|] eqn:Hm; [|done]. intros [= <-].
    assert (s_guestConn s' = s_guestConn (k_s k) ∧ s_cols s' = s_cols (k_s k)
            ∧ s_rows s' = s_rows (k_s k)) as (E1 & E2 & E3).
    { unfold MarkReady in Hm. repeat case_match; simplify_eq; done. }
    exists HSize. split; simpl; try done; [by rewrite E1|]. intros _ _ _. unfold covered. tauto.
  - destruct ((0 <? _) && (0 <? _)) eqn:Hpos; intros [= <-]; [eexists (HLook _ _)|exists HLoop]; split; simpl; try done.
    + intros _ _ _. unfold covered. tauto.
    + lia.
  - simpl in H2. rewrite H2. intros [= <-]. exists (HWrite c r 0). split; simpl; try done.
    + naive_solver.
    + intros _ Hp Hp'. destruct (H5 eq_refl Hp Hp') as [?|[?|[?|[?|[?|[?|?]]]]]];
        unfold covered; simpl; naive_solver.
  - intros [= <-]. specialize (H4 c r cn eq_refl) as ->. exists HLoop. split; simpl; try done.
    intros _ Hp Hp'. destruct (H5 eq_refl Hp Hp') as [?|[?|[?|[?|[?|[?|?]]]]]];
      unfold covered; simpl; simplify_eq; eauto.
  - intros [= <-]. exists HExit. split; simpl; done.
Qed.

Lemma DInv_ticks ts : ∀ k h k', DInv k h → ticks ts k = Some k' → ∃ h', DInv k' h'.
Proof.
  induction ts as [|[i|now i] ts IH]; intros k h k' Hk; cbn [ticks].
  - intros [= <-]. eauto.
  - destruct (tick (TickR i) k) as [k1|] eqn:E; [|done].
    intros. eapply IH; [|done]. by eapply DInv_resize.
  - destruct (tick (TickH now i) k) as [k1|] eqn:E; [|done]. intros.
    assert (i = 0%nat) as ->.
    { simpl in E. rewrite (di_one _ _ Hk) in E. by destruct i. }
    destruct (DInv_handler k h now k1 Hk E) as [h1 Hk1]. by eapply IH.
Qed.

(** ** Lemmas: the token *)

Definition accepted (hellos : list GuestEvent) (tok : string) : Prop :=
  ∃ e, e ∈ hellos ∧ ge_Type e = "hello" ∧ ge_SessionToken e = tok.

Record HInv (hellos : list GuestEvent) (tok : string) (k : Config) : Prop := {
  hi_tok : s_SessionToken (k_s k) = tok;
  hi_ready : s_ready (k_s k) = SigClosed → accepted hellos tok;
  hi_pcs : ∀ i pc, k_handlers k !! i = Some pc →
    match pc with
    | HHello e => e ∈ hellos
    | HExit => True
    | _ => accepted hellos tok
    end
}.

Lemma HInv_tick hellos tok t k k' : HInv hellos tok k → tick t k = Some k' → HInv hellos tok k'.
Proof.
  intros [H1 H2 H3]. destruct t as [i|now i]; simpl.
  - destruct (k_resizes k !! i) as [pc|]; [|done].
    destruct (stepResize pc (k_s k) (k_w k)) as [[[pc' s'] w']|] eqn:E; [|done]. intros [= <-].
    assert (s_SessionToken s' = s_SessionToken (k_s k) ∧ s_ready s' = s_ready (k_s k))
      as [E1 E2] by (destruct pc; simpl in E; repeat case_match; simplify_eq; done).
    split; simpl; rewrite ?E1, ?E2; done.
  - destruct (k_handlers k !! i) as [pc|] eqn:Hi; [|done].
    destruct (stepHandler now i pc (k_s k) (k_w k)) as [[[pc' s'] w']|] eqn:E; [|done].
    intros [= <-]. specialize (H3 i pc Hi) as Hpc.
    assert (s_SessionToken s' = tok ∧ (s_ready s' = SigClosed → accepted hellos tok) ∧
      match pc' with HHello e => e ∈ hellos | HExit => True | _ => accepted hellos tok end)
      as (E1 & E2 & E3).
    { destruct pc; simpl in E; unfold MarkReady, WindowSize in E;
        repeat case_match; simplify_eq; simpl; try done.
      split; [done|]. split; [done|].
      unfold helloAccepted in *.
      match goal with H : _ && _ = true |- _ => apply andb_true_iff in H as [Ha Hb] end.
      apply bool_decide_eq_true in Ha, Hb. exists hello. done. }
    split; simpl; [done|done|].
    intros j pc'' Hj. apply list_lookup_insert_Some in Hj as [(-> & <- & _)|[_ Hj]]; [done|].
    by apply (H3 j).
Qed.

Lemma HInv_ticks hellos tok ts : ∀ k k',
  HInv hellos tok k → ticks ts k = Some k' → HInv hellos tok k'.
Proof.
  induction ts as [|t ts IH]; intros k k' Hk; simpl; [by intros [= <-]|].
  destruct (tick t k) eqn:E; [|done]. intros. eapply IH; [|done]. by eapply HInv_tick.
Qed.

(** ** Properties *)

(** The ready and done channels are one-shot.  Whatever sequence of
    MarkReady and CloseDone the goroutines issue on a new session, none of
    them panics on a double close; the recorded ready time is that of the
    first MarkReady and never moves; each channel is closed exactly if one
    of its calls happened. *)
Theorem signals_fire_once (id : string) (now : Z) (ops : list LifeOp) :
  ∃ s, lifeRun ops (freshSession id now) = Some s ∧
       s_readyAt s = default 0 (firstReady ops) ∧
       (s_ready s = SigClosed ↔ is_Some (firstReady ops)) ∧
       (s_done s = SigClosed ↔ existsb closes ops = true).
Proof.
  destruct (lifeRun_LInv ops None false (freshSession id now)) as (s & Hs & [H1 H2 H3 H4 H5]);
    [by split|]. exists s. simpl in *. split_and!; [done|done|..].
  - rewrite H2. destruct (firstReady ops); naive_solver.
  - rewrite H5. by destruct (existsb closes ops).
Qed.

(** The idle clock follows the clients.  After any sequence of attaches
    and detaches, repeated detaches included, the attach count is the number
    of connected clients, IdleSince reports nothing while one is connected,
    and otherwise the moment the last one left, or the ready time, or the
    creation time if there was neither. *)
Theorem idle_since_follows_clients (s : Session) (ops : list AttOp) :
  s_attached s = 0 → s_lastDetach s = zeroTime →
  Forall (λ o, match o with ADetach now _ => now ≠ zeroTime | AAttach => True end) ops →
  let p := presRun ops (mkPresence [] None) in
  let s' := at_s (attRun ops (mkAttachments s [])) in
  Attached s' = countTrue (pr_live p) ∧
  IdleSince s' = if existsb id (pr_live p) then None
                 else Some (default (if IsZero (ReadyAt s) then s_createdAt s else ReadyAt s)
                                    (pr_left p)).
Proof.
  intros Ha Hl Hops p s'.
  destruct (AInv_run ops (mkPresence [] None) (mkAttachments s [])) as [H1 H2 H3]; [by split|].
  fold p in H1, H2, H3. fold s' in H2, H3. split; [done|].
  assert (pr_left p ≠ Some zeroTime) as Hz.
  { subst p. assert (pr_left (mkPresence [] None) ≠ Some zeroTime) as H0 by done.
    revert H0. generalize (mkPresence [] None). clear -Hops.
    induction Hops as [|o ops Ho _ IH]; intros q Hq; [done|]. apply IH.
    destruct o as [|t i]; simpl; [done|]. repeat case_match; simpl; congruence. }
  assert (ReadyAt s' = ReadyAt s ∧ s_createdAt s' = s_createdAt s) as [E1 E2].
  { subst s'. change s with (at_s (mkAttachments s [])) at 2 4.
    generalize (mkAttachments s []). clear. induction ops as [|o ops IH]; intros a; [done|].
    simpl. destruct (IH (attStep o a)) as [-> ->].
    destruct o; simpl; [done|]. unfold detach. by repeat case_match. }
  pose proof (countTrue_nonneg (pr_live p)).
  pose proof (countTrue_zero (pr_live p)) as Hc0.
  unfold IdleSince. rewrite H2, H3, E1, E2.
  destruct (existsb id (pr_live p)); simpl in Hc0.
  - by rewrite (proj2 (Z.ltb_lt _ _)) by lia.
  - rewrite (proj2 (Z.ltb_ge _ _)) by lia. unfold IsZero in *.
    destruct (pr_left p) as [t|]; cbn [default from_option id].
    + by rewrite (proj2 (Z.eqb_neq t _)) by congruence.
    + rewrite Z.eqb_refl. by destruct (ReadyAt s =? zeroTime).
Qed.


(** C26: only the right token makes a session ready.  If any run of guest
    connections and resizes closes the ready channel, one of the connections
    sent a hello with the token from this VM's kernel command line. *)
Theorem ready_needs_token (s : Session) (reqs : list (Z * Z)) (hellos : list GuestEvent)
    (ts : list Tick) (k : Config) :
  s_ready s ≠ SigClosed →
  ticks ts (startConfig s reqs hellos) = Some k →
  s_ready (k_s k) = SigClosed →
  ∃ e, e ∈ hellos ∧ ge_Type e = "hello" ∧ ge_SessionToken e = s_SessionToken s.
Proof.
  intros Hr Ht. apply (hi_ready hellos (s_SessionToken s) k).
  eapply HInv_ticks; [|exact Ht]. split; simpl; [done|done|].
  intros i pc Hi. apply list_lookup_fmap_Some in Hi as (e & Hpc & He). subst pc.
  apply list_elem_of_lookup. eauto.
Qed.

(** A dying connection can take the live one with it.  When the guest
    redials before the handler of its old connection returns, that handler
    clears the new connection; the guest's handler is still reading, yet
    every later resize is dropped without an error. *)
Theorem stale_handler_drops_guest :
  ∃ s hello ts k,
    ticks ts (startConfig s [(120, 40)] [hello; hello]) = Some k ∧
    k_handlers k = [HExit; HLoop] ∧ k_resizes k = [RDone] ∧
    WindowSize (k_s k) = (120, 40) ∧ s_guestConn (k_s k) = None ∧
    k_w k 0%nat = [] ∧ k_w k 1%nat = [].
Proof.
  exists (freshSession "id" 1), (mkGuestEvent "hello" ""),
    [TickH 2 0; TickH 2 0; TickH 2 0; TickH 3 1; TickH 3 1; TickH 3 1; TickH 4 0;
     TickR 0; TickR 0].
  eexists. split; [vm_compute; reflexivity|]. done.
Qed.

(** A replay that read the size before a resize stored a new one is written
    after it, and the guest is left with the old size. *)
Example replay_can_be_stale :
  ∃ ts k, ticks ts (startConfig (with_size 80 24 (freshSession "id" 1)) [(120, 40)]
                      [mkGuestEvent "hello" ""]) = Some k ∧
          WindowSize (k_s k) = (120, 40) ∧
          k_w k 0%nat = [resizeMessage 120 40; resizeMessage 80 24].
Proof.
  exists [TickH 2 0; TickH 2 0; TickH 2 0; TickR 0; TickR 0; TickR 0; TickH 2 0; TickH 2 0].
  eexists. split; [vm_compute; reflexivity|]. split; vm_compute; reflexivity.
Qed.

(** *** Witnesses *)

Lemma idle_since_follows_clients_witness :
  let ops := [AAttach; AAttach; ADetach 50 0; ADetach 60 0; ADetach 70 1] in
  IdleSince (at_s (attRun ops (mkAttachments (freshSession "id" 10) []))) = Some 70.
Proof.
  simpl.
  refine (eq_trans (proj2 (idle_since_follows_clients (freshSession "id" 10)
    [AAttach; AAttach; ADetach 50 0; ADetach 60 0; ADetach 70 1] eq_refl eq_refl _)) _).
  - repeat constructor; discriminate.
  - vm_compute. reflexivity.
Defined.

Definition demoTicks : list Tick :=
  [TickR 0; TickH 2 0; TickR 0; TickH 2 0; TickH 2 0; TickR 1; TickR 0; TickH 2 0;
   TickH 2 0; TickR 1; TickR 1].
Definition demoConfig : Config :=
  default (startConfig (freshSession "id" 1) [] [])
    (ticks demoTicks (startConfig (freshSession "id" 1) [(120, 40); (100, 30)]
                        [mkGuestEvent "hello" ""])).


Lemma ready_needs_token_witness :
  ∃ e, e ∈ [mkGuestEvent "hello" ""] ∧ ge_Type e = "hello" ∧ ge_SessionToken e = "".
Proof.
  apply (ready_needs_token (freshSession "id" 1) [(120, 40); (100, 30)]
    [mkGuestEvent "hello" ""] demoTicks demoConfig);
    [discriminate|vm_compute; reflexivity|vm_compute; reflexivity].
Defined.
