(* ===== verification/HostOS.v ===== *)
(** The operating system as the control plane sees it: a class of
    operations (run a command, make a directory, start a process), an
    observation of what exists on the host, and the documented effect of
    the commands the control plane runs.  The components above are defined
    against the class and their theorems against its laws; [SimOS] is a
    model of both, used to evaluate them. *)
From S2P Require Import Prelude GoLib.
Open Scope Z_scope.

(** ** Commands *)

Inductive RuleVerb := RuleCheck | RuleAppend.

(** The commands the control plane runs through [runCmd]. *)
Inductive Cmd :=
| IpTuntapAdd (tap : string)
| IpLinkShow (name : string)
| IpLinkAdd (name kind : string)
| IpLinkSetMaster (dev bridge : string)
| IpLinkSetUp (dev : string)
| IpLinkSetDown (dev : string)
| IpLinkDel (dev : string)
| IpAddrReplace (cidr dev : string)
| Iptables (table : option string) (verb : RuleVerb) (rule : list string)
| MountLoop (image mnt : string)
| Umount (mnt : string)
| Sync
| CpReflink (src dst : string).

(** The argument vectors they stand for. *)
Definition argv (c : Cmd) : list string :=
  match c with
  | IpTuntapAdd t => ["ip"; "tuntap"; "add"; t; "mode"; "tap"]
  | IpLinkShow n => ["ip"; "link"; "show"; n]
  | IpLinkAdd n k => ["ip"; "link"; "add"; "name"; n; "type"; k]
  | IpLinkSetMaster d b => ["ip"; "link"; "set"; d; "master"; b]
  | IpLinkSetUp d => ["ip"; "link"; "set"; d; "up"]
  | IpLinkSetDown d => ["ip"; "link"; "set"; d; "down"]
  | IpLinkDel d => ["ip"; "link"; "del"; d]
  | IpAddrReplace a d => ["ip"; "addr"; "replace"; a; "dev"; d]
  | Iptables tb v r =>
    "iptables" :: match tb with Some t => ["-t"; t] | None => [] end
      ++ (match v with RuleCheck => "-C" | RuleAppend => "-A" end) :: r
  | MountLoop i m => ["mount"; "-o"; "loop"; i; m]
  | Umount m => ["umount"; m]
  | Sync => ["sync"]
  | CpReflink a b => ["cp"; "--reflink=auto"; a; b]
  end.

(** ** What exists on the host *)

Abbreviation Rule := (option string * list string)%type.

Record Obs := mkObs {
  o_links : gset string;          (* network devices *)
  o_rules : list Rule;            (* iptables rules, in order *)
  o_dirs : gset string;           (* per-VM directories *)
  o_mounts : gset string;         (* mount points *)
  o_procs : gset Z                (* running VM processes *)
}.

Definition set_links l (o : Obs) := mkObs l (o_rules o) (o_dirs o) (o_mounts o) (o_procs o).
Definition set_rules r (o : Obs) := mkObs (o_links o) r (o_dirs o) (o_mounts o) (o_procs o).
Definition set_dirs d (o : Obs) := mkObs (o_links o) (o_rules o) d (o_mounts o) (o_procs o).
Definition set_mounts m (o : Obs) := mkObs (o_links o) (o_rules o) (o_dirs o) m (o_procs o).
Definition set_procs p (o : Obs) := mkObs (o_links o) (o_rules o) (o_dirs o) (o_mounts o) p.

(** A path inside a directory, and what is left of a set of paths when the
    inside of a directory goes away. *)
Definition inside (d x : string) : bool := hasPrefix (d +:+ "/") x.
Definition outside (d : string) (l : gset string) : gset string :=
  filter (λ x, inside d x = false) l.

(** The documented effect of a command that exited with success; a command
    that failed, and every other command, changes nothing observed. *)
Definition cmdEffect (c : Cmd) (o : Obs) : Obs :=
  match c with
  | IpTuntapAdd t => set_links ({[t]} ∪ o_links o) o
  | IpLinkAdd n _ => set_links ({[n]} ∪ o_links o) o
  | IpLinkDel n => set_links (o_links o ∖ {[n]}) o
  | Iptables tb RuleAppend r => set_rules (o_rules o ++ [(tb, r)]) o
  | MountLoop _ m => set_mounts ({[m]} ∪ o_mounts o) o
  | Umount m => set_dirs (outside m (o_dirs o)) (set_mounts (o_mounts o ∖ {[m]}) o)
  | _ => o
  end.

(** [filepath.Join] of a clean directory path and a clean relative path (the
    configured directories are taken in clean form). *)
Definition joinPath (d f : string) : string := d +:+ "/" +:+ f.

(** File contents: text, text around a string in Go's [%q] syntax, or a JSON
    document given by its tree. *)
#[warnings="-register-all"]
Inductive json :=
| JStr (s : string) | JNum (z : Z) | JBool (b : bool)
| JArr (l : list json) | JObj (l : list (string * json)).
Inductive FileData :=
| FText (s : string) | FQuoted (pre s post : string) | FJson (j : json).

(** ** Programs that act on the host: a state monad *)

Definition osM (OS A : Type) : Type := OS → A * OS.

#[export] Instance osM_ret {OS} : MRet (osM OS) := λ A a os, (a, os).
#[export] Instance osM_bind {OS} : MBind (osM OS) := λ A B k m os,
  let '(a, os') := m os in k a os'.

(** [if err := ...; err != nil { return ..., fmt.Errorf(...) }] *)
Definition orFail {OS E A} (ok : bool) (e : E) (k : osM OS (res E A)) : osM OS (res E A) :=
  if ok then k else mret (Err e).

(** ** The interface *)

Class HostOS (OS : Type) := {
  obs : OS → Obs;
  runCmd : Cmd → osM OS bool;
  cmdOutput : string → list string → OS → option string;
  mkdirAll : string → osM OS bool;
  mkdirTemp : string → osM OS (option string);
  removeAll : string → osM OS unit;
  removeFile : string → osM OS unit;
  readFile : string → OS → option string;
  writeFile : string → FileData → osM OS bool;
  chown : string → Z → Z → osM OS bool;
  startProc : string → list string → osM OS (option Z);
  stopProc : Z → osM OS unit
}.

(** What the control plane relies on. *)
Class HostOSLaws (OS : Type) `{!HostOS OS} : Prop := {
  run_effect c os :
    obs (runCmd c os).2 = if (runCmd c os).1 then cmdEffect c (obs os) else obs os;
  link_show n os : (runCmd (IpLinkShow n) os).1 = bool_decide (n ∈ o_links (obs os));
  link_del n os : n ∈ o_links (obs os) → (runCmd (IpLinkDel n) os).1 = true;
  rule_check tb r os :
    (runCmd (Iptables tb RuleCheck r) os).1 = bool_decide ((tb, r) ∈ o_rules (obs os));
  mkdirAll_effect d os :
    obs (mkdirAll d os).2 =
    if (mkdirAll d os).1 then set_dirs ({[d]} ∪ o_dirs (obs os)) (obs os) else obs os;
  mkdirTemp_effect p os : obs (mkdirTemp p os).2 = obs os;
  mkdirTemp_fresh p os d : (mkdirTemp p os).1 = Some d →
    (d ∉ o_mounts (obs os) ∧ outside d (o_dirs (obs os)) = o_dirs (obs os));
  removeAll_effect d os :
    obs (removeAll d os).2 = set_dirs (outside d (o_dirs (obs os)) ∖ {[d]}) (obs os);
  removeFile_effect f os : obs (removeFile f os).2 = obs os;
  writeFile_effect f c os : obs (writeFile f c os).2 = obs os;
  chown_effect f u g os : obs (chown f u g os).2 = obs os;
  start_effect b a os :
    obs (startProc b a os).2 =
    match (startProc b a os).1 with
    | Some p => set_procs ({[p]} ∪ o_procs (obs os)) (obs os)
    | None => obs os
    end;
  start_fresh b a os p : (startProc b a os).1 = Some p → p ∉ o_procs (obs os);
  stop_effect p os : obs (stopProc p os).2 = set_procs (o_procs (obs os) ∖ {[p]}) (obs os)
}.

(** ** Weakest preconditions *)

(** [wp m Q os]: running [m] from [os] ends in a result and a host that
    satisfy [Q].  Every program of the monad terminates, so this is total
    correctness. *)
Definition wp {OS A} (m : osM OS A) (Q : A → OS → Prop) (os : OS) : Prop :=
  Q (m os).1 (m os).2.

Section wp.
Context {OS : Type} `{!HostOS OS, !HostOSLaws OS}.
Implicit Types os : OS.

Lemma wp_ret {A} (a : A) (Q : A → OS → Prop) os : Q a os → wp (mret a) Q os.
Proof. done. Qed.

Lemma wp_bind {A B} (m : osM OS A) (k : A → osM OS B) Q os :
  wp m (λ a, wp (k a) Q) os → wp (m ≫= k) Q os.
Proof. unfold wp, mbind, osM_bind. by destruct (m os). Qed.

Lemma wp_mono {A} (m : osM OS A) (P Q : A → OS → Prop) os :
  (∀ a os', P a os' → Q a os') → wp m P os → wp m Q os.
Proof. unfold wp. auto. Qed.

Lemma wp_run {A} (m : osM OS A) (Q : A → OS → Prop) os : wp m Q os → Q (m os).1 (m os).2.
Proof. done. Qed.

Lemma wp_intro {A} (m : osM OS A) (Q : A → OS → Prop) os : Q (m os).1 (m os).2 → wp m Q os.
Proof. done. Qed.

Lemma wp_orFail {E A} (b : bool) (e : E) (k : osM OS (res E A)) Q os :
  (b = true → wp k Q os) → (b = false → Q (Err e) os) → wp (orFail b e k) Q os.
Proof. intros Ht Hf. destruct b; [by apply Ht|by apply Hf]. Qed.

Lemma wp_runCmd c Q os :
  (∀ b os', obs os' = (if b : bool then cmdEffect c (obs os) else obs os) →
            b = (runCmd c os).1 → Q b os') → wp (runCmd c) Q os.
Proof. intros H. apply H; [apply run_effect|done]. Qed.

Lemma wp_mkdirAll d Q os :
  (∀ b os', obs os' = (if b : bool then set_dirs ({[d]} ∪ o_dirs (obs os)) (obs os)
                       else obs os) → Q b os') → wp (mkdirAll d) Q os.
Proof. intros H. apply H, mkdirAll_effect. Qed.

Lemma wp_mkdirTemp p Q os :
  (∀ o os', obs os' = obs os →
     (∀ d, o = Some d →
        (d ∉ o_mounts (obs os) ∧ outside d (o_dirs (obs os)) = o_dirs (obs os))) →
     Q o os') → wp (mkdirTemp p) Q os.
Proof. intros H. apply H; [apply mkdirTemp_effect|apply mkdirTemp_fresh]. Qed.

Lemma wp_removeAll d Q os :
  (∀ os', obs os' = set_dirs (outside d (o_dirs (obs os)) ∖ {[d]}) (obs os) → Q tt os') →
  wp (removeAll d) Q os.
Proof. intros H. unfold wp. destruct (removeAll d os).1 eqn:E. apply H, removeAll_effect. Qed.

Lemma wp_removeFile f Q os : (∀ os', obs os' = obs os → Q tt os') → wp (removeFile f) Q os.
Proof. intros H. unfold wp. destruct (removeFile f os).1. apply H, removeFile_effect. Qed.

Lemma wp_writeFile f c Q os : (∀ b os', obs os' = obs os → Q b os') → wp (writeFile f c) Q os.
Proof. intros H. apply H, writeFile_effect. Qed.

Lemma wp_chown f u g Q os : (∀ b os', obs os' = obs os → Q b os') → wp (chown f u g) Q os.
Proof. intros H. apply H, chown_effect. Qed.

Lemma wp_startProc b a Q os :
  (∀ o os', obs os' = (match o with Some p => set_procs ({[p]} ∪ o_procs (obs os)) (obs os)
                       | None => obs os end) →
     (∀ p, o = Some p → p ∉ o_procs (obs os)) → Q o os') → wp (startProc b a) Q os.
Proof. intros H. apply H; [apply start_effect|apply start_fresh]. Qed.

Lemma wp_stopProc p Q os :
  (∀ os', obs os' = set_procs (o_procs (obs os) ∖ {[p]}) (obs os) → Q tt os') →
  wp (stopProc p) Q os.
Proof. intros H. unfold wp. destruct (stopProc p os).1. apply H, stop_effect. Qed.

End wp.

#[global] Opaque wp.

(** One step of symbolic execution; [wp_steps] runs to the end, splitting
    on the outcome of every call. *)
Ltac wp_step :=
  lazymatch goal with
  | |- wp (mret _) _ _ => apply wp_ret
  | |- wp (_ ≫= _) _ _ => apply wp_bind
  | |- wp (runCmd _) _ _ => apply wp_runCmd; intros ? ? ? ?
  | |- wp (mkdirAll _) _ _ => apply wp_mkdirAll; intros ? ? ?
  | |- wp (mkdirTemp _) _ _ => apply wp_mkdirTemp; intros [?|] ? ? ?
  | |- wp (removeAll _) _ _ => apply wp_removeAll; intros ? ?
  | |- wp (removeFile _) _ _ => apply wp_removeFile; intros ? ?
  | |- wp (writeFile _ _) _ _ => apply wp_writeFile; intros ? ? ?
  | |- wp (chown _ _ _) _ _ => apply wp_chown; intros ? ? ?
  | |- wp (startProc _ _) _ _ => apply wp_startProc; intros [?|] ? ? ?
  | |- wp (stopProc _) _ _ => apply wp_stopProc; intros ? ?
  | |- wp (orFail ?b _ _) _ _ =>
    apply wp_orFail; (let H := fresh in intros H; try discriminate H; try (is_var b; destruct b; try discriminate H); cbn iota in * )
  | |- wp (if ?b then _ else _) _ _ => destruct b eqn:?; cbn iota in *
  | |- wp (match ?b with _ => _ end) _ _ => destruct b eqn:?
  end; cbn [negb].
Ltac wp_steps := repeat wp_step.

(** Rewrites every host of the goal back to the one it started from. *)
Ltac obs_back :=
  repeat match goal with H : obs ?o = _ |- context [obs ?o] => rewrite H end.

(** ** A model: every command does what it documents, and the script
    [so_fail] makes chosen calls fail. *)

Record SimOS := mkSimOS {
  so_obs : Obs;
  so_fail : list bool;
  so_pid : Z;
  so_files : gmap string string
}.

Definition emptyObs : Obs := mkObs ∅ [] ∅ ∅ ∅.
Definition simStart (fails : list bool) (files : gmap string string) : SimOS :=
  mkSimOS emptyObs fails 1 files.

Definition simObs (f : Obs → Obs) (s : SimOS) : SimOS :=
  mkSimOS (f (so_obs s)) (so_fail s) (so_pid s) (so_files s).
Definition simPop (s : SimOS) : bool * SimOS :=
  match so_fail s with
  | [] => (false, s)
  | b :: l => (b, mkSimOS (so_obs s) l (so_pid s) (so_files s))
  end.

Definition simRun (c : Cmd) (s : SimOS) : bool * SimOS :=
  match c with
  | IpLinkShow n => (bool_decide (n ∈ o_links (so_obs s)), s)
  | IpLinkDel n =>
    if decide (n ∈ o_links (so_obs s)) then (true, simObs (cmdEffect c) s) else (false, s)
  | Iptables tb RuleCheck r => (bool_decide ((tb, r) ∈ o_rules (so_obs s)), s)
  | _ => let '(b, s1) := simPop s in
         if b then (false, s1) else (true, simObs (cmdEffect c) s1)
  end.

(** A name that no mount uses and no path lies inside: longer than all. *)
Definition longest (m : gset string) : nat :=
  foldr Nat.max 0%nat (String.length <$> elements m).
Fixpoint xs (n : nat) : string :=
  match n with O => "" | S n' => String "x"%char (xs n') end.

Definition freshPid (p : gset Z) : Z := 1 + foldr Z.max 0 (elements p).

#[export] Instance SimHostOS : HostOS SimOS := {
  obs := so_obs;
  runCmd := simRun;
  cmdOutput name args s := so_files s !! ("$" +:+ name);
  mkdirAll d s := let '(b, s1) := simPop s in
    if b then (false, s1) else (true, simObs (λ o, set_dirs ({[d]} ∪ o_dirs o) o) s1);
  mkdirTemp p s := let '(b, s1) := simPop s in
    if b then (None, s1) else (Some (xs (S (longest (o_mounts (so_obs s1) ∪ o_dirs (so_obs s1))))), s1);
  removeAll d s := (tt, simObs (λ o, set_dirs (outside d (o_dirs o) ∖ {[d]}) o) s);
  removeFile f s := (tt, s);
  readFile f s := so_files s !! f;
  writeFile f c s := let '(b, s1) := simPop s in (negb b, s1);
  chown f u g s := let '(b, s1) := simPop s in (negb b, s1);
  startProc b a s := let '(f, s1) := simPop s in
    if f then (None, s1)
    else let p := freshPid (o_procs (so_obs s1)) in
         (Some p, simObs (λ o, set_procs ({[p]} ∪ o_procs o) o) s1);
  stopProc p s := (tt, simObs (λ o, set_procs (o_procs o ∖ {[p]}) o) s)
}.

Lemma simPop_obs s : so_obs (simPop s).2 = so_obs s.
Proof. unfold simPop. by destruct (so_fail s). Qed.

Lemma length_xs n : String.length (xs n) = n.
Proof. induction n; simpl; congruence. Qed.

Lemma longest_bound m x : x ∈ m → (String.length x ≤ longest m)%nat.
Proof.
  intros Hx%elem_of_elements. unfold longest.
  induction (elements m) as [|y l IH]; [by apply not_elem_of_nil in Hx|].
  apply elem_of_cons in Hx as [->|Hx]; cbn [fmap list_fmap foldr]; [lia|].
  specialize (IH Hx). lia.
Qed.

Lemma inside_longer d x : inside d x = true → (String.length d < String.length x)%nat.
Proof.
  unfold inside, hasPrefix. revert x. induction d as [|c d IH]; intros x Hx.
  - destruct x; simpl in *; [done|lia].
  - rewrite str_app_cons in Hx. destruct x as [|e x]; simpl in *; [done|].
    destruct (ascii_dec c e); [|done]. apply IH in Hx. lia.
Qed.

Lemma outside_id d l : (∀ x, x ∈ l → inside d x = false) → outside d l = l.
Proof.
  intros H. apply set_eq. intros x. unfold outside. rewrite elem_of_filter. naive_solver.
Qed.

Lemma longer_fresh o :
  let d := String "x"%char (xs (longest (o_mounts o ∪ o_dirs o))) in
  (d ∉ o_mounts o ∧ outside d (o_dirs o) = o_dirs o).
Proof.
  set (n := longest _). intros d.
  assert (String.length d = S n) as Hd by (unfold d; simpl; by rewrite length_xs).
  split.
  - intros Hin. assert (d ∈ o_mounts o ∪ o_dirs o) as Hb%longest_bound by set_solver. lia.
  - apply outside_id. intros x Hx.
    assert (x ∈ o_mounts o ∪ o_dirs o) as Hb%longest_bound by set_solver.
    destruct (inside d x) eqn:E; [|done]. apply inside_longer in E. lia.
Qed.

Lemma freshPid_fresh p : freshPid p ∉ p.
Proof.
  cut (∀ x, x ∈ p → x < freshPid p); [intros H Hin; apply H in Hin; lia|].
  intros x Hx%elem_of_elements. unfold freshPid.
  induction (elements p) as [|y l IH]; [by apply not_elem_of_nil in Hx|].
  apply elem_of_cons in Hx as [->|Hx]; cbn [fmap list_fmap foldr]; [lia|].
  specialize (IH Hx). lia.
Qed.

Lemma simRun_effect c s :
  so_obs (simRun c s).2 = if (simRun c s).1 then cmdEffect c (so_obs s) else so_obs s.
Proof.
  pose proof (simPop_obs s) as Ho.
  destruct c as [| | | | | | | |? []| | | |]; simpl;
    try (destruct (simPop s) as [[] s1]; simpl in *; by rewrite ?Ho).
  - by case_bool_decide.
  - by case_decide.
  - by case_bool_decide.
Qed.

#[export] Instance SimHostOSLaws : HostOSLaws SimOS.
Proof.
  split.
  - apply simRun_effect.
  - done.
  - intros n s Hn. simpl. by rewrite decide_True.
  - done.
  - intros d s. simpl. pose proof (simPop_obs s) as Ho. destruct (simPop s) as [[] s1]; simpl in *;
      by rewrite ?Ho.
  - intros p s. simpl. pose proof (simPop_obs s) as Ho. by destruct (simPop s) as [[] s1].
  - intros p s d. simpl. pose proof (simPop_obs s) as Ho. destruct (simPop s) as [[] s1]; [done|].
    simpl in *. rewrite Ho. intros [= <-]. apply longer_fresh.
  - done.
  - done.
  - intros f c s. simpl. pose proof (simPop_obs s) as Ho. by destruct (simPop s).
  - intros f u g s. simpl. pose proof (simPop_obs s) as Ho. by destruct (simPop s).
  - intros b a s. simpl. pose proof (simPop_obs s) as Ho. destruct (simPop s) as [[] s1]; simpl in *;
      by rewrite ?Ho.
  - intros b a s p. simpl. pose proof (simPop_obs s) as Ho. destruct (simPop s) as [[] s1]; [done|].
    simpl in *. rewrite Ho. intros [= <-]. apply freshPid_fresh.
  - done.
Qed.
