(* ===== verification/Network.v ===== *)
(** Host networking, control-plane/internal/firecracker/network.go: the
    bridge with its NAT and forwarding rules, and the per-VM TAP devices. *)
From S2P Require Import Prelude GoLib HostOS NetAlloc.
Open Scope Z_scope.

(** [Prefix.String] *)
Definition prefixString (p : Prefix) : string := addrString (p_addr p) +:+ "/" +:+ itoa (p_bits p).

Section Network.
Context {OS : Type} `{!HostOS OS}.

(** The error of a command is reported by [runCmd] itself, so the silent
    form only drops the text. *)
Definition runCmdSilent (c : Cmd) : osM OS bool := runCmd c.

Definition ensureLink (name kind : string) : osM OS bool :=
  shown ← runCmdSilent (IpLinkShow name);
  if (shown : bool) then mret true else runCmd (IpLinkAdd name kind).

(** The [-C] / [-A] pair of [EnsureBridge]'s closure [addIfMissing]. *)
Definition addIfMissing (tb : option string) (rule : list string) : osM OS bool :=
  present ← runCmdSilent (Iptables tb RuleCheck rule);
  if (present : bool) then mret true else runCmd (Iptables tb RuleAppend rule).

Definition natRule (subnet : Prefix) (upstream : string) : list string :=
  ["POSTROUTING"; "-s"; prefixString subnet; "-o"; upstream; "-j"; "MASQUERADE"].
Definition fwdOutRule (bridge : string) : list string :=
  ["FORWARD"; "-i"; bridge; "-j"; "ACCEPT"].
Definition fwdInRule (bridge : string) : list string :=
  ["FORWARD"; "-o"; bridge; "-m"; "state"; "--state"; "RELATED,ESTABLISHED"; "-j"; "ACCEPT"].

Definition EnsureBridge (bridgeName : string) (hostAddr : Addr) (prefixLen : Z)
    (subnet : Prefix) (upstreamIface : string) : osM OS (res string unit) :=
  linked ← ensureLink bridgeName "bridge";
  orFail linked "bridge" (
  addressed ← runCmd (IpAddrReplace (addrString hostAddr +:+ "/" +:+ itoa prefixLen) bridgeName);
  orFail addressed "bridge addr" (
  up ← runCmd (IpLinkSetUp bridgeName);
  orFail up "bridge up" (
  _ ← writeFile "/proc/sys/net/ipv4/ip_forward" (FText "1
");
  orFail (negb (bool_decide (upstreamIface = ""))) "upstream iface required" (
  nat ← addIfMissing (Some "nat") (natRule subnet upstreamIface);
  orFail nat "nat add" (
  _ ← addIfMissing None (fwdOutRule bridgeName);
  _ ← addIfMissing None (fwdInRule bridgeName);
  mret (Ok tt)))))).

Definition CreateTAP (tapName bridgeName : string) : osM OS (res string unit) :=
  added ← runCmd (IpTuntapAdd tapName);
  there ← (if (added : bool) then mret true else runCmdSilent (IpLinkShow tapName));
  orFail there "create tap" (
  attached ← runCmd (IpLinkSetMaster tapName bridgeName);
  orFail attached "attach tap to bridge" (
  up ← runCmd (IpLinkSetUp tapName);
  orFail up "tap up" (mret (Ok tt)))).

(** [DeleteTAP]: both errors are dropped. *)
Definition DeleteTAP (tapName : string) : osM OS unit :=
  _ ← runCmd (IpLinkSetDown tapName);
  _ ← runCmd (IpLinkDel tapName);
  mret tt.

(** ** What they do to the host *)

Context `{!HostOSLaws OS}.

Lemma wp_addIfMissing tb rule Q os :
  (∀ b os', (if decide ((tb, rule) ∈ o_rules (obs os)) then b = true ∧ obs os' = obs os
             else obs os' = if b : bool then cmdEffect (Iptables tb RuleAppend rule) (obs os)
                            else obs os) → Q b os') →
  wp (addIfMissing tb rule) Q os.
Proof.
  intros HQ. unfold addIfMissing, runCmdSilent. apply wp_bind, wp_runCmd.
  intros b os1 Ho Hb. rewrite rule_check in Hb.
  case_bool_decide; subst b; simpl in Ho.
  - apply wp_ret, HQ. by rewrite decide_True.
  - apply wp_runCmd. intros b os2 Ho2 _. apply HQ.
    rewrite decide_False by done. by rewrite Ho2, Ho.
Qed.

(** What [EnsureBridge] may do to the observed host. *)
Record Extends (rules : list Rule) (bridge : string) (o o' : Obs) : Prop := {
  ext_nodup : NoDup (o_rules o) → NoDup (o_rules o');
  ext_rules : o_rules o `sublist_of` o_rules o';
  ext_only : ∀ r, r ∈ o_rules o' → r ∈ o_rules o ∨ r ∈ rules;
  ext_links : o_links o' ⊆ {[bridge]} ∪ o_links o;
  ext_keep : o_links o ⊆ o_links o';
  ext_rest : o_dirs o' = o_dirs o ∧ o_mounts o' = o_mounts o ∧ o_procs o' = o_procs o
}.

Lemma Extends_refl rules bridge o : Extends rules bridge o o.
Proof. split; (done || set_solver). Qed.

Lemma Extends_rule rules bridge o o1 tb rule :
  Extends rules bridge o o1 → (tb, rule) ∈ rules → (tb, rule) ∉ o_rules o1 →
  Extends rules bridge o (cmdEffect (Iptables tb RuleAppend rule) o1).
Proof.
  intros [] Hin Hnew. split; simpl; [| |set_solver..].
  - intros Hnd. apply NoDup_app. split_and!; [auto|set_solver|apply NoDup_singleton].
  - by apply sublist_inserts_r.
Qed.

Lemma wp_addIfMissing_ext rules bridge o tb rule Q os :
  Extends rules bridge o (obs os) → (tb, rule) ∈ rules →
  (∀ b os', Extends rules bridge o (obs os') → o_links (obs os') = o_links (obs os) →
            o_rules (obs os) ⊆ o_rules (obs os') →
            (b = true → (tb, rule) ∈ o_rules (obs os')) → Q b os') →
  wp (addIfMissing tb rule) Q os.
Proof.
  intros Hext Hin HQ. apply wp_addIfMissing. intros b os' Ho. apply HQ.
  - case_decide; [by destruct Ho as [_ ->]|]. rewrite Ho.
    destruct b; [by apply Extends_rule|done].
  - case_decide; [by destruct Ho as [_ ->]|]. rewrite Ho. by destruct b.
  - case_decide; [by destruct Ho as [_ ->]|]. rewrite Ho. destruct b; simpl; set_solver.
  - intros ->. case_decide; [by destruct Ho as [_ ->]|]. rewrite Ho. simpl. set_solver.
Qed.

Definition bridgeRules (subnet : Prefix) (upstream bridge : string) : list Rule :=
  [(Some "nat", natRule subnet upstream); (None, fwdOutRule bridge); (None, fwdInRule bridge)].

Lemma wp_ensureLink rules kind name Q os :
  (∀ b os', Extends rules name (obs os) (obs os') →
            (b = true → name ∈ o_links (obs os')) → Q b os') →
  wp (ensureLink name kind) Q os.
Proof.
  intros HQ. unfold ensureLink, runCmdSilent. apply wp_bind, wp_runCmd.
  intros b os1 Ho Hb. rewrite link_show in Hb. case_bool_decide; subst b; simpl in Ho.
  - apply wp_ret, HQ; rewrite Ho; [apply Extends_refl|done].
  - apply wp_runCmd. intros [] os2 Ho2 _; apply HQ; try done; rewrite Ho2, Ho; simpl.
    + split; simpl; (done || set_solver).
    + set_solver.
    + apply Extends_refl.
Qed.

(** Every outcome of [EnsureBridge]: the host is only extended, and a
    success leaves the bridge and the NAT rule in place. *)
Lemma wp_EnsureBridge bridge host len subnet upstream os :
  wp (EnsureBridge bridge host len subnet upstream)
    (λ r os', Extends (bridgeRules subnet upstream bridge) bridge (obs os) (obs os') ∧
       (r = Ok tt → bridge ∈ o_links (obs os') ∧
          (Some "nat", natRule subnet upstream) ∈ o_rules (obs os'))) os.
Proof.
  unfold EnsureBridge. apply wp_bind, (wp_ensureLink (bridgeRules subnet upstream bridge)).
  intros b os1 Hext Hlink.
  set (rules := bridgeRules subnet upstream bridge) in *.
  apply wp_orFail; intros ->; [|done]. wp_steps; obs_back; try done.
  apply (wp_addIfMissing_ext rules bridge (obs os)); obs_back; [done|set_solver|].
  intros b2 os2 Hext2 Hlk2 _ Hnat. apply wp_orFail; intros ->; [|done]. wp_step.
  apply (wp_addIfMissing_ext rules bridge (obs os) _ _ _ _ Hext2); [set_solver|].
  intros b3 os3 Hext3 Hlk3 Hsub3 _. wp_step.
  apply (wp_addIfMissing_ext rules bridge (obs os) _ _ _ _ Hext3); [set_solver|].
  intros b4 os4 Hext4 Hlk4 Hsub4 _. wp_step. split; [done|]. intros _.
  rewrite Hlk4, Hlk3, Hlk2. obs_back. auto.
Qed.

Lemma wp_CreateTAP tap bridge os :
  wp (CreateTAP tap bridge)
    (λ r os', (r = Ok tt → tap ∈ o_links (obs os')) ∧
       (obs os' = obs os ∨ obs os' = cmdEffect (IpTuntapAdd tap) (obs os))) os.
Proof.
  unfold CreateTAP, runCmdSilent. apply wp_bind, wp_runCmd. intros [] os1 Ho _; wp_step.
  - wp_steps; obs_back; (split; [|by right]); try done. intros _. simpl. set_solver.
  - apply wp_runCmd. intros b os2 Ho2 Hb. rewrite link_show in Hb.
    case_bool_decide; subst b; wp_steps; obs_back; simpl; (split; [|by left]); try done.
    by rewrite <- Ho.
Qed.

Lemma wp_DeleteTAP tap os Q :
  (∀ os', obs os' = set_links (o_links (obs os) ∖ {[tap]}) (obs os) → Q tt os') →
  wp (DeleteTAP tap) Q os.
Proof.
  intros HQ. unfold DeleteTAP. wp_step. apply wp_runCmd. intros b os1 Ho _.
  assert (obs os1 = obs os) as Ho1 by (by destruct b). wp_step.
  apply wp_runCmd. intros b2 os2 Ho2 Hb2. apply wp_ret, HQ. rewrite Ho2, Ho1.
  destruct b2; [done|].
  assert (tap ∉ o_links (obs os)) as Hno.
  { rewrite <- Ho1. intros Hin. by rewrite link_del in Hb2. }
  destruct (obs os); unfold set_links; simpl in *. f_equal. set_solver.
Qed.

(** The daemon restarted [n] times, each time with its own bridge setup. *)
Fixpoint restarts (n : nat) (bridge : string) (host : Addr) (len : Z) (subnet : Prefix)
    (upstream : string) (os : OS) : OS :=
  match n with
  | O => os
  | S n' => (EnsureBridge bridge host len subnet upstream
               (restarts n' bridge host len subnet upstream os)).2
  end.

Lemma Extends_trans rules bridge o1 o2 o3 :
  Extends rules bridge o1 o2 → Extends rules bridge o2 o3 → Extends rules bridge o1 o3.
Proof.
  intros [? ? Hr1 Hl1 Hk1 (?&?&?)] [? ? Hr2 Hl2 Hk2 (?&?&?)]. split.
  - auto.
  - by etrans.
  - intros r [?|?]%Hr2; auto.
  - clear -Hl1 Hl2. set_solver.
  - by etrans.
  - split_and!; congruence.
Qed.

Lemma restarts_ext n bridge host len subnet upstream os :
  Extends (bridgeRules subnet upstream bridge) bridge (obs os)
    (obs (restarts n bridge host len subnet upstream os)).
Proof.
  induction n as [|n IH]; [apply Extends_refl|]. cbn [restarts].
  eapply Extends_trans; [apply IH|].
  apply (proj1 (wp_run _ _ _ (wp_EnsureBridge bridge host len subnet upstream _))).
Qed.

End Network.

(** ** Properties *)

(** However many times the daemon restarts, and whichever of its
    commands fail on the way, [EnsureBridge] never stacks duplicate iptables
    rules: the rule list stays duplicate-free, keeps the rules it had in
    their order, and grows by at most the three rules of the bridge; a run
    that reports success has the bridge and the NAT rule in place. *)
Theorem bridge_rules_never_stack {OS : Type} `{!HostOS OS, !HostOSLaws OS}
    (n : nat) (bridge : string) (host : Addr) (len : Z) (subnet : Prefix)
    (upstream : string) (os : OS) :
  NoDup (o_rules (obs os)) →
  let os' := restarts n bridge host len subnet upstream os in
  NoDup (o_rules (obs os')) ∧
  o_rules (obs os) `sublist_of` o_rules (obs os') ∧
  (length (o_rules (obs os')) ≤ length (o_rules (obs os)) + 3)%nat ∧
  (let '(r, os2) := EnsureBridge bridge host len subnet upstream os' in
   r = Ok tt → bridge ∈ o_links (obs os2) ∧
               (Some "nat", natRule subnet upstream) ∈ o_rules (obs os2)).
Proof.
  intros Hnd os'. destruct (restarts_ext n bridge host len subnet upstream os) as [Hn Hs Ho _ _ _].
  fold os' in Hn, Hs, Ho. split_and!; [auto|done| |].
  - apply (Nat.le_trans _ (length (o_rules (obs os) ++ bridgeRules subnet upstream bridge)));
      [|by rewrite length_app].
    apply submseteq_length, NoDup_submseteq; [auto|]. intros r [?|?]%Ho; apply elem_of_app; auto.
  - pose proof (wp_run _ _ _ (wp_EnsureBridge bridge host len subnet upstream os')) as [_ Hok].
    by destruct (EnsureBridge _ _ _ _ _ os').
Qed.

Definition demoSubnet : Prefix := mkPrefix (A4 2886991872) 24.

(** Three restarts; in the second one the bridge is there but its address
    cannot be set. *)
Lemma bridge_rules_never_stack_witness :
  let os := simStart [false; false; false; false; false; false; false; true] ∅ in
  let os' := restarts 3 "fcbr0" (A4 2886991873) 24 demoSubnet "eno1" os in
  NoDup (o_rules (obs os')) ∧ (length (o_rules (obs os')) ≤ 3)%nat ∧
  length (o_rules (obs os')) = 3%nat.
Proof.
  intros os os'.
  assert (NoDup (o_rules (obs os))) as Hnd by apply NoDup_nil_2.
  destruct (bridge_rules_never_stack 3 "fcbr0" (A4 2886991873) 24 demoSubnet "eno1" os Hnd)
    as (H1 & _ & H2 & _).
  split_and!; [exact H1|exact H2|vm_compute; reflexivity].
Defined.
