(* ===== verification/Rootfs.v ===== *)
(** Per-VM root file systems,
    control-plane/internal/firecracker/rootfs.go: copy the golden image,
    loop-mount the copy, write the VM's identity onto it, unmount. *)
From S2P Require Import Prelude GoLib HostOS NetAlloc Session.
Open Scope Z_scope.

Definition GuestUser : string := "dev".
Definition GuestHome : string := "home/" +:+ GuestUser.
Definition guestUID : Z := 1001.
Definition guestGID : Z := 1001.

Section Rootfs.
Context {OS : Type} `{!HostOS OS}.

Definition reflinkCopy (src dst : string) : osM OS bool :=
  _ ← removeFile dst;
  runCmd (CpReflink src dst).

(** [writeOwnedJSON]; the trees written here always marshal. *)
Definition writeOwnedJSON (path : string) (v : json) : osM OS (res string unit) :=
  written ← writeFile path (FJson v);
  orFail written "write" (
  owned ← chown path guestUID guestGID;
  orFail owned "chown" (mret (Ok tt))).

Definition networkUnit (ip : Addr) (prefixLen : Z) (gateway : Addr) : string :=
  "[Match]
Name=eth0

[Network]
Address=" +:+ addrString ip +:+ "/" +:+ itoa prefixLen +:+ "
Gateway=" +:+ addrString gateway +:+ "
DNS=1.1.1.1
DNS=1.0.0.1
".

(** [time.Now().Add(350 * 24 * time.Hour).UnixMilli()] *)
Definition credsExpiry (now : Z) : Z := (now + 350 * 24 * 3600 * second) / 1000000.

Definition credsJSON (now : Z) (oauthToken : string) : json :=
  JObj [("claudeAiOauth", JObj [
    ("accessToken", JStr oauthToken); ("refreshToken", JStr oauthToken);
    ("expiresAt", JNum (credsExpiry now));
    ("scopes", JArr [JStr "user:inference"; JStr "user:profile"])])].

Definition claudeDirOf (mnt : string) : string := joinPath (joinPath mnt GuestHome) ".claude".

(** The part of [PrepareRootfs] that runs with the copy mounted on [mnt],
    up to and including the [umount] that makes it a success. *)
Definition fillRootfs (now : Z) (mnt : string) (ip : Addr) (prefixLen : Z) (gateway : Addr)
    (hostname oauthToken : string) : osM OS (res string unit) :=
  net ← writeFile (joinPath mnt "etc/systemd/network/10-eth0.network")
          (FText (networkUnit ip prefixLen gateway));
  orFail net "write networkd config" (
  hn ← writeFile (joinPath mnt "etc/hostname") (FText (hostname +:+ "
"));
  orFail hn "write hostname" (
  prof ← writeFile (joinPath mnt "etc/profile.d/99-claude-token.sh")
           (FQuoted "export CLAUDE_CODE_OAUTH_TOKEN=" oauthToken "
");
  orFail prof "write profile.d" (
  made ← mkdirAll (claudeDirOf mnt);
  orFail made "mkdir .claude" (
  owned ← chown (claudeDirOf mnt) guestUID guestGID;
  orFail owned "chown .claude" (
  creds ← writeOwnedJSON (joinPath (claudeDirOf mnt) ".credentials.json")
            (credsJSON now oauthToken);
  match creds with
  | Err e => mret (Err e)
  | Ok _ =>
    state ← writeOwnedJSON (joinPath (joinPath mnt GuestHome) ".claude.json")
              (JObj [("hasCompletedOnboarding", JBool true)]);
    match state with
    | Err e => mret (Err e)
    | Ok _ =>
      synced ← runCmd Sync;
      orFail synced "sync" (
      unmounted ← runCmd (Umount mnt);
      orFail unmounted "umount" (mret (Ok tt)))
    end
  end))))).

(** [PrepareRootfs].  The deferred calls run in reverse order on every
    return: the [umount] unless [unmounted] was set (which happens just
    before the only successful return), then the removal of the mount
    point. *)
Definition PrepareRootfs (now : Z) (goldenPath dstPath : string) (ip : Addr) (prefixLen : Z)
    (gateway : Addr) (hostname oauthToken : string) : osM OS (res string unit) :=
  copied ← reflinkCopy goldenPath dstPath;
  orFail copied "copy rootfs" (
  tmp ← mkdirTemp "microvm-rootfs-";
  match tmp with
  | None => mret (Err "mktemp")
  | Some mnt =>
    mounted ← runCmd (MountLoop dstPath mnt);
    r ← (if (mounted : bool) then
           r ← fillRootfs now mnt ip prefixLen gateway hostname oauthToken;
           _ ← (if is_ok r then mret true else runCmd (Umount mnt));
           mret r
         else mret (Err "mount"));
    _ ← removeFile mnt;
    mret r
  end).

(** ** What they do to the host *)

Context `{!HostOSLaws OS}.

Lemma wp_writeOwnedJSON path v Q os :
  (∀ r os', obs os' = obs os → Q r os') → wp (writeOwnedJSON path v) Q os.
Proof. intros HQ. unfold writeOwnedJSON. wp_steps; apply HQ; by obs_back. Qed.

Lemma wp_reflinkCopy src dst Q os :
  (∀ b os', obs os' = obs os → Q b os') → wp (reflinkCopy src dst) Q os.
Proof.
  intros HQ. unfold reflinkCopy. wp_steps. apply HQ.
  match goal with b : bool |- _ => destruct b end; simpl in *; by obs_back.
Qed.

(** [mounted m o o']: the host is [o] with something mounted on [m], and
    perhaps the guest's dot directory inside it. *)
Definition mounted (m : string) (o o' : Obs) : Prop :=
  o' = set_mounts ({[m]} ∪ o_mounts o) o ∨
  o' = set_dirs ({[claudeDirOf m]} ∪ o_dirs o) (set_mounts ({[m]} ∪ o_mounts o) o).

Lemma inside_claudeDir m : inside m (claudeDirOf m) = true.
Proof.
  unfold inside, claudeDirOf, joinPath.
  rewrite !str_app_assoc, <- (str_app_assoc m "/"). apply prefix_app.
Qed.

Lemma umount_mounted m o o' :
  m ∉ o_mounts o → outside m (o_dirs o) = o_dirs o →
  mounted m o o' → cmdEffect (Umount m) o' = o.
Proof.
  intros Hm Hd Hmt.
  assert (({[m]} ∪ o_mounts o) ∖ {[m]} = o_mounts o) as Hmo by set_solver.
  assert (outside m ({[claudeDirOf m]} ∪ o_dirs o) = o_dirs o) as Hdo.
  { rewrite <- Hd at 2. apply set_eq. intros x. unfold outside. rewrite !elem_of_filter.
    pose proof (inside_claudeDir m). set_unfold. naive_solver congruence. }
  destruct Hmt as [-> | ->]; destruct o; unfold cmdEffect, set_dirs, set_mounts in *; simpl in *;
    congruence.
Qed.

Lemma wp_fillRootfs now m ip len gw hn tok o os :
  m ∉ o_mounts o → outside m (o_dirs o) = o_dirs o →
  obs os = set_mounts ({[m]} ∪ o_mounts o) o →
  wp (fillRootfs now m ip len gw hn tok)
    (λ r os', if is_ok r then obs os' = o else mounted m o (obs os')) os.
Proof.
  intros Hm Hd Ho. unfold fillRootfs.
  wp_steps; try (simpl; obs_back; by (left + right)).
  all: apply wp_writeOwnedJSON; intros r1 os1 Ho1; wp_steps; try (simpl; obs_back; by (left + right)).
  all: apply wp_writeOwnedJSON; intros r2 os2 Ho2; wp_steps; try (simpl; obs_back; by (left + right)).
  simpl. obs_back. apply (umount_mounted m); [done|done|]. by right.
Qed.

(** Every outcome of [PrepareRootfs]: the host is as before, or the call
    failed, and with it the last attempt to unmount. *)
Definition stuckMount (o o' : Obs) : Prop :=
  ∃ m (os : OS), (runCmd (Umount m) os).1 = false ∧ m ∉ o_mounts o ∧ mounted m o o'.

Lemma wp_PrepareRootfs now golden dst ip len gw hn tok os :
  wp (PrepareRootfs now golden dst ip len gw hn tok)
    (λ r os', obs os' = obs os ∨ (is_ok r = false ∧ stuckMount (obs os) (obs os'))) os.
Proof.
  unfold PrepareRootfs. wp_step. apply wp_reflinkCopy. intros b os1 Ho1.
  apply wp_orFail; intros ->; [|by left]. wp_step.
  apply wp_mkdirTemp. intros [m|] os2 Ho2 Hfresh; [|wp_step; left; congruence].
  destruct (Hfresh m eq_refl) as [Hm Hd]. rewrite Ho1 in *. wp_step.
  apply wp_runCmd. intros [] os3 Ho3 _; wp_steps; [|left; congruence].
  eapply wp_mono; [|apply (wp_fillRootfs _ m _ _ _ _ _ (obs os) os3); [done..|]].
  - intros [] os4 H4; cbn [is_ok] in *; wp_step; [wp_steps; left; congruence|].
    apply wp_runCmd. intros b os5 Hob Hb. wp_steps.
    destruct b; [left; rewrite (umount_mounted m (obs os)) in Hob by done; congruence|].
    right. split; [done|]. exists m, os4. split_and!; [done|done|].
    by obs_back.
  - rewrite Ho3, Ho2. done.
Qed.

End Rootfs.

(** ** Properties *)

(** [PrepareRootfs] never loses a mount: whatever fails on the way
    (copying, mounting, any of the eight writes and ownership changes,
    syncing, unmounting), either the host ends exactly as it began (in
    particular after every success), or the call reported an error and what
    is left is the one mount point whose last [umount] was refused. *)
Theorem rootfs_mount_balanced {OS : Type} `{!HostOS OS, !HostOSLaws OS}
    (now : Z) (golden dst : string) (ip : Addr) (len : Z) (gw : Addr)
    (hostname token : string) (os : OS) :
  let run := PrepareRootfs now golden dst ip len gw hostname token os in
  obs run.2 = obs os ∨
  (run.1 ≠ Ok tt ∧
   ∃ m os0, (runCmd (Umount m) os0).1 = false ∧ m ∉ o_mounts (obs os) ∧
     o_mounts (obs run.2) = {[m]} ∪ o_mounts (obs os) ∧
     o_links (obs run.2) = o_links (obs os) ∧ o_procs (obs run.2) = o_procs (obs os)).
Proof.
  pose proof (wp_run _ _ _ (wp_PrepareRootfs now golden dst ip len gw hostname token os)) as H.
  intros run. fold run in H.
  destruct H as [?|[Hr (m & os0 & ? & ? & Hmt)]]; [by left|right].
  split; [intros Heq; by rewrite Heq in Hr|]. exists m, os0. by destruct Hmt as [-> | ->].
Qed.

(** A run in which [.credentials.json] cannot be written, so that the
    deferred [umount] does the work. *)
Definition demoRootfs : osM SimOS (res string unit) :=
  PrepareRootfs 0 "golden" "/vms/a/rootfs.ext4" (A4 2886991874) 24 (A4 2886991873) "vm-a" "tok".
Definition demoRootfsOS : SimOS :=
  simStart [false; false; false; false; false; false; false; false; true] ∅.

Lemma rootfs_mount_balanced_witness :
  (demoRootfs demoRootfsOS).1 = Err "write" ∧
  obs (demoRootfs demoRootfsOS).2 = obs demoRootfsOS.
Proof.
  assert ((demoRootfs demoRootfsOS).1 = Err "write") as He by (vm_compute; reflexivity).
  split; [exact He|].
  destruct (rootfs_mount_balanced 0 "golden" "/vms/a/rootfs.ext4" (A4 2886991874) 24
                (A4 2886991873) "vm-a" "tok" demoRootfsOS) as [H|(_ & m & os0 & _ & _ & Hm & _)].
  - exact H.
  - assert (o_mounts (obs (demoRootfs demoRootfsOS).2) = ∅) as Hno by (vm_compute; reflexivity).
    exfalso. apply (not_elem_of_empty (C := gset string) m). rewrite <- Hno. unfold demoRootfs.
    rewrite Hm. apply elem_of_union_l, elem_of_singleton_2. reflexivity.
Defined.
