(* ===== verification/Launch.v ===== *)
(** Starting a VM process: directly,
    control-plane/internal/firecracker/launcher.go, or through the jailer
    wrapper, control-plane/internal/vm/jailer.go. *)
From S2P Require Import Prelude GoLib HostOS.
Open Scope Z_scope.

(** ** firecracker.Launch *)

Record LaunchSpec := mkLaunchSpec {
  l_BinaryPath : string;
  l_VMDir : string;
  l_KernelPath : string;
  l_RootfsPath : string;
  l_VcpuCount : Z;
  l_MemMiB : Z;
  l_TapName : string;
  l_GuestMAC : string;
  l_BootArgs : string;
  l_VsockCID : Z;
  l_VsockUDS : string
}.

(** A running VM: both [Process] types, whose methods are the same. *)
Record Process := mkProcess { pr_pid : Z; pr_dir : string; pr_vmID : string; pr_chroot : string }.

(** The accessors of a handle. *)
Definition VmDir (p : Process) : string := pr_dir p.
Definition VMID (p : Process) : string := pr_vmID p.
Definition Chroot (p : Process) : string := pr_chroot p.

(** The document Firecracker is configured with: the [fc*] structs. *)
Definition defaultBootArgs : string := "console=ttyS0 reboot=k panic=1 pci=off rw".

Record fcVsock := mkFcVsock { fc_GuestCID : Z; fc_UDSPath : string }.
Record fcBootSource := mkFcBootSource { fc_KernelImagePath : string; fc_BootArgs : string }.
Record fcDrive := mkFcDrive {
  fc_DriveID : string; fc_PathOnHost : string; fc_IsRootDevice : bool; fc_IsReadOnly : bool
}.
Record fcNetIface := mkFcNetIface { fc_IfaceID : string; fc_GuestMAC : string; fc_HostDevName : string }.
Record fcMachineConfig := mkFcMachineConfig { fc_VcpuCount : Z; fc_MemSizeMiB : Z; fc_Smt : bool }.
Record fcConfig := mkFcConfig {
  fc_BootSource : fcBootSource;
  fc_Drives : list fcDrive;
  fc_NetworkInterfaces : list fcNetIface;
  fc_MachineConfig : fcMachineConfig;
  fc_Vsock : option fcVsock            (* a pointer, omitted when nil *)
}.

(** What [json.MarshalIndent] makes of the structs, by their tags. *)
Definition marshalVsock (v : fcVsock) : json :=
  JObj [("guest_cid", JNum (fc_GuestCID v)); ("uds_path", JStr (fc_UDSPath v))].
Definition marshalBoot (b : fcBootSource) : json :=
  JObj [("kernel_image_path", JStr (fc_KernelImagePath b)); ("boot_args", JStr (fc_BootArgs b))].
Definition marshalDrive (d : fcDrive) : json :=
  JObj [("drive_id", JStr (fc_DriveID d)); ("path_on_host", JStr (fc_PathOnHost d));
        ("is_root_device", JBool (fc_IsRootDevice d)); ("is_read_only", JBool (fc_IsReadOnly d))].
Definition marshalIface (n : fcNetIface) : json :=
  JObj [("iface_id", JStr (fc_IfaceID n)); ("guest_mac", JStr (fc_GuestMAC n));
        ("host_dev_name", JStr (fc_HostDevName n))].
Definition marshalMachine (m : fcMachineConfig) : json :=
  JObj [("vcpu_count", JNum (fc_VcpuCount m)); ("mem_size_mib", JNum (fc_MemSizeMiB m));
        ("smt", JBool (fc_Smt m))].
Definition marshalFc (c : fcConfig) : json :=
  JObj ([("boot-source", marshalBoot (fc_BootSource c));
         ("drives", JArr (marshalDrive <$> fc_Drives c));
         ("network-interfaces", JArr (marshalIface <$> fc_NetworkInterfaces c));
         ("machine-config", marshalMachine (fc_MachineConfig c))]
        ++ match fc_Vsock c with Some v => [("vsock", marshalVsock v)] | None => [] end).

(** The configuration [Launch] writes for a VM. *)
Definition fcConfigOf (spec : LaunchSpec) : fcConfig :=
  mkFcConfig
    (mkFcBootSource (l_KernelPath spec)
       (if bool_decide (l_BootArgs spec = "") then defaultBootArgs else l_BootArgs spec))
    [mkFcDrive "rootfs" (l_RootfsPath spec) true false]
    [mkFcNetIface "eth0" (l_GuestMAC spec) (l_TapName spec)]
    (mkFcMachineConfig (l_VcpuCount spec) (l_MemMiB spec) false)
    (if (0 <? l_VsockCID spec) && negb (bool_decide (l_VsockUDS spec = ""))
     then Some (mkFcVsock (l_VsockCID spec) (l_VsockUDS spec)) else None).

Section Launch.
Context {OS : Type} `{!HostOS OS}.

(** [startProc] covers the pipes and [cmd.Start]: it fails when any of them
    does. *)
Definition Launch (spec : LaunchSpec) : osM OS (res string Process) :=
  made ← mkdirAll (l_VMDir spec);
  orFail made "mkdir vm dir" (
  let sockPath := joinPath (l_VMDir spec) "fc.sock" in
  _ ← removeFile sockPath;
  let configPath := joinPath (l_VMDir spec) "vm.json" in
  written ← writeFile configPath (FJson (marshalFc (fcConfigOf spec)));
  orFail written "write config" (
  started ← startProc (l_BinaryPath spec)
              ["--api-sock"; sockPath; "--config-file"; configPath];
  match started with
  | None => mret (Err "start firecracker")
  | Some pid => mret (Ok (mkProcess pid (l_VMDir spec) "" ""))
  end)).

(** [Stop]: SIGTERM, SIGKILL after five seconds, and in both cases a wait
    for the process to be gone. *)
Definition Stop (p : Process) : osM OS unit := stopProc (pr_pid p).

End Launch.

(** ** vm.LaunchJailed *)

Record JailedSpec := mkJailedSpec {
  js_spec : LaunchSpec;
  js_VMID : string;
  js_JailerBin : string;
  js_ChrootBase : string;
  js_CPUQuotaMicros : Z;
  js_MemBytes : Z;
  js_SeccompProfile : string;
  js_JailerUser : string;
  js_JailerUID : Z;
  js_JailerGID : Z
}.

(** [splitColon]: [cur] holds [s[start:i]]. *)
Fixpoint splitColon_go (cur : string) (s : string) : list string :=
  match s with
  | EmptyString => [cur]
  | String c t =>
    if bool_decide (c = ":"%char) then cur :: splitColon_go "" t
    else splitColon_go (cur +:+ String c "") t
  end.
Definition splitColon (s : string) : list string := splitColon_go "" s.

Definition strDefault (s d : string) : string := if bool_decide (s = "") then d else s.
Definition numDefault (n d : Z) : Z := if n =? 0 then d else n.

(** The defaults [LaunchJailed] fills in before the user lookup. *)
Definition jailDefaults (spec : JailedSpec) : JailedSpec :=
  mkJailedSpec (js_spec spec) (js_VMID spec)
    (strDefault (js_JailerBin spec) "/usr/local/libexec/microvm-terminal/jailer.sh")
    (strDefault (js_ChrootBase spec) "/srv/jailer")
    (numDefault (js_CPUQuotaMicros spec) 100000)
    (numDefault (js_MemBytes spec) (Z.shiftl 1 30))
    (js_SeccompProfile spec)
    (strDefault (js_JailerUser spec) "microvm")
    (js_JailerUID spec) (js_JailerGID spec).

(** The command line handed to [bash]. *)
Definition jailerArgs (spec : JailedSpec) : list string :=
  let l := js_spec spec in
  [js_JailerBin spec;
   "--vm-id"; js_VMID spec;
   "--uid"; itoa (js_JailerUID spec);
   "--gid"; itoa (js_JailerGID spec);
   "--chroot-base"; js_ChrootBase spec;
   "--cpu-quota-us"; itoa (js_CPUQuotaMicros spec);
   "--mem-bytes"; itoa (js_MemBytes spec);
   "--kernel"; l_KernelPath l;
   "--rootfs"; l_RootfsPath l;
   "--vm-dir"; l_VMDir l;
   "--firecracker-bin"; l_BinaryPath l]
  ++ (if bool_decide (js_SeccompProfile spec = "") then []
      else ["--seccomp-profile"; js_SeccompProfile spec])
  ++ (if bool_decide (l_VsockUDS l = "") then []
      else ["--vsock-uds"; l_VsockUDS l; "--vsock-cid"; itoa (l_VsockCID l)])
  ++ (if bool_decide (l_TapName l = "") then []
      else ["--tap"; l_TapName l; "--guest-mac"; l_GuestMAC l])
  ++ (if bool_decide (l_BootArgs l = "") then [] else ["--boot-args"; l_BootArgs l])
  ++ ["--vcpu"; itoa (l_VcpuCount l)]
  ++ ["--mem-mib"; itoa (l_MemMiB l)].

Section Jailed.
Context {OS : Type} `{!HostOS OS}.

Definition lookupUser (name : string) (os : OS) : res string (Z * Z) :=
  match cmdOutput "getent" ["passwd"; name] os with
  | None => Err "getent"
  | Some out =>
    match splitColon out with
    | _ :: _ :: u :: g :: _ =>
      match parseInt64 u with
      | None => Err "uid"
      | Some uid => match parseInt64 g with None => Err "gid" | Some gid => Ok (uid, gid) end
      end
    | _ => Err "getent: unexpected output"
    end
  end.

(** The user and group resolved: explicit ids win, one at a time. *)
Definition resolveIDs (spec : JailedSpec) (os : OS) : res string JailedSpec :=
  if (js_JailerUID spec =? 0) || (js_JailerGID spec =? 0) then
    (let? ids := lookupUser (js_JailerUser spec) os in
     Ok (mkJailedSpec (js_spec spec) (js_VMID spec) (js_JailerBin spec) (js_ChrootBase spec)
           (js_CPUQuotaMicros spec) (js_MemBytes spec) (js_SeccompProfile spec)
           (js_JailerUser spec)
           (numDefault (js_JailerUID spec) ids.1) (numDefault (js_JailerGID spec) ids.2)))%go
  else Ok spec.

Definition LaunchJailed (spec : JailedSpec) : osM OS (res string Process) := λ os,
  if bool_decide (js_VMID spec = "") then (Err "vm: JailedSpec.VMID required", os)
  else match resolveIDs (jailDefaults spec) os with
  | Err e => (Err e, os)
  | Ok js =>
    (made ← mkdirAll (l_VMDir (js_spec js));
     orFail made "mkdir vm dir" (
     started ← startProc "/usr/bin/env" ("bash" :: jailerArgs js);
     match started with
     | None => mret (Err "start jailer")
     | Some pid =>
       mret (Ok (mkProcess pid (l_VMDir (js_spec js)) (js_VMID js)
         (joinPath (joinPath (joinPath (js_ChrootBase js) "firecracker") (js_VMID js)) "root")))
     end)) os
  end.

(** ** What they do to the host *)

Context `{!HostOSLaws OS}.

(** Starting a VM on a host that already has its directory. *)
Definition launched (o o' : Obs) (r : res string Process) : Prop :=
  match r with
  | Ok p => pr_pid p ∉ o_procs o ∧ o' = set_procs ({[pr_pid p]} ∪ o_procs o) o
  | Err _ => o' = o
  end.

Lemma set_dirs_there d o : d ∈ o_dirs o → set_dirs ({[d]} ∪ o_dirs o) o = o.
Proof. intros. destruct o; unfold set_dirs; simpl in *. f_equal. set_solver. Qed.

Lemma wp_Launch spec os :
  l_VMDir spec ∈ o_dirs (obs os) →
  wp (Launch spec) (λ r os', launched (obs os) (obs os') r) os.
Proof.
  intros Hd. unfold Launch. wp_step. apply wp_mkdirAll. intros b os1 Ho1.
  rewrite set_dirs_there in Ho1 by done.
  assert (obs os1 = obs os) as Ho by (by destruct b). clear Ho1. wp_steps; simpl; obs_back; try done.
  match goal with H : ∀ p, Some _ = Some p → _ |- _ => specialize (H _ eq_refl); revert H end.
  by obs_back.
Qed.

Lemma wp_LaunchJailed spec os :
  l_VMDir (js_spec spec) ∈ o_dirs (obs os) →
  wp (LaunchJailed spec) (λ r os', launched (obs os) (obs os') r) os.
Proof.
  intros Hd.
  assert (∀ js, resolveIDs (jailDefaults spec) os = Ok js → js_spec js = js_spec spec) as Hjs.
  { unfold resolveIDs, jailDefaults. intros js. destruct (_ || _); simpl.
    - destruct (lookupUser _ os) as [[]|]; simpl; intros [= <-]; done.
    - by intros [= <-]. }
  apply wp_intro. unfold LaunchJailed. case_bool_decide; [done|].
  destruct (resolveIDs (jailDefaults spec) os) as [js|]; [|done].
  rewrite (Hjs js eq_refl). apply wp_run. wp_step. apply wp_mkdirAll. intros b os1 Ho1.
  rewrite set_dirs_there in Ho1 by done.
  assert (obs os1 = obs os) as Ho by (by destruct b). clear Ho1. wp_steps; simpl; obs_back; try done.
  match goal with H : ∀ p, Some _ = Some p → _ |- _ => specialize (H _ eq_refl); revert H end.
  by obs_back.
Qed.

End Jailed.

(** ** [splitColon] and [lookupUser] *)

Definition isColon (c : ascii) : bool := bool_decide (c = ":"%char).

Lemma splitColon_go_app cur s t :
  allChars (λ c, negb (isColon c)) s = true →
  splitColon_go cur (s +:+ t) = splitColon_go (cur +:+ s) t.
Proof.
  revert cur. induction s as [|c s IH]; intros cur; simpl allChars; [by rewrite str_app_nil_r|].
  intros [Hc Hs]%andb_true_iff. rewrite str_app_cons. cbn [splitColon_go].
  unfold isColon in Hc. case_bool_decide; [done|]. rewrite IH by done.
  by rewrite str_app_assoc.
Qed.

Lemma splitColon_field s t :
  allChars (λ c, negb (isColon c)) s = true →
  splitColon (s +:+ ":" +:+ t) = s :: splitColon t.
Proof. intros Hs. unfold splitColon. by rewrite splitColon_go_app. Qed.

Lemma splitColon_last s :
  allChars (λ c, negb (isColon c)) s = true → splitColon s = [s].
Proof.
  intros Hs. unfold splitColon. rewrite <- (str_app_nil_r s) at 1.
  by rewrite splitColon_go_app.
Qed.

Lemma splitColon_go_cons cur s : ∃ x l, splitColon_go cur s = x :: l.
Proof. revert cur. induction s; intros; cbn [splitColon_go]; [eauto|]. case_bool_decide; eauto. Qed.

Lemma splitColon_go_join cur s : joinStr ":" (splitColon_go cur s) = cur +:+ s.
Proof.
  revert cur. induction s as [|c s IH]; intros cur; cbn [splitColon_go].
  - by rewrite str_app_nil_r.
  - case_bool_decide as Hc.
    + subst c. pose proof (IH "") as IH0.
      destruct (splitColon_go_cons "" s) as (x & l & E). rewrite E in IH0 |- *.
      change (cur +:+ ":" +:+ joinStr ":" (x :: l) = cur +:+ String ":" s).
      by rewrite IH0.
    + rewrite IH, str_app_assoc. done.
Qed.

Lemma digits_no_colon s : allChars isDigit s = true → allChars (λ c, negb (isColon c)) s = true.
Proof.
  apply allChars_impl. intros c Hc. unfold isColon. case_bool_decide; [by subst|done].
Qed.

(** ** Reading the wrapper's command line *)

(** infra/jailer/jailer.sh takes its arguments two at a time, a flag and its
    value. *)
Fixpoint readFlags (args : list string) : option (list (string * string)) :=
  match args with
  | [] => Some []
  | f :: v :: rest => cons (f, v) <$> readFlags rest
  | [_] => None
  end.

Fixpoint flagValue (f : string) (l : list (string * string)) : option string :=
  match l with
  | [] => None
  | (g, v) :: l' => if bool_decide (f = g) then Some v else flagValue f l'
  end.

Lemma readFlags_app a b : ∀ la, readFlags a = Some la →
  readFlags (a ++ b) = app la <$> readFlags b.
Proof.
  cut (∀ n a, (length a ≤ n)%nat → ∀ la, readFlags a = Some la →
         readFlags (a ++ b) = app la <$> readFlags b); [intros H; by apply (H (length a))|].
  induction n as [|n IH]; intros [|f [|v a']] Hn la Ha; simpl in *; simplify_eq;
    try (by destruct (readFlags b)); try lia.
  destruct (readFlags a') as [la'|] eqn:E; simpl in Ha; [|done]. simplify_eq.
  rewrite (IH a' ltac:(lia) la' E). by destruct (readFlags b).
Qed.

(** The flags a specification stands for. *)
Definition jailerFlags (spec : JailedSpec) : list (string * string) :=
  let l := js_spec spec in
  [("--vm-id", js_VMID spec); ("--uid", itoa (js_JailerUID spec));
   ("--gid", itoa (js_JailerGID spec)); ("--chroot-base", js_ChrootBase spec);
   ("--cpu-quota-us", itoa (js_CPUQuotaMicros spec)); ("--mem-bytes", itoa (js_MemBytes spec));
   ("--kernel", l_KernelPath l); ("--rootfs", l_RootfsPath l); ("--vm-dir", l_VMDir l);
   ("--firecracker-bin", l_BinaryPath l)]
  ++ (if bool_decide (js_SeccompProfile spec = "") then []
      else [("--seccomp-profile", js_SeccompProfile spec)])
  ++ (if bool_decide (l_VsockUDS l = "") then []
      else [("--vsock-uds", l_VsockUDS l); ("--vsock-cid", itoa (l_VsockCID l))])
  ++ (if bool_decide (l_TapName l = "") then []
      else [("--tap", l_TapName l); ("--guest-mac", l_GuestMAC l)])
  ++ (if bool_decide (l_BootArgs l = "") then [] else [("--boot-args", l_BootArgs l)])
  ++ [("--vcpu", itoa (l_VcpuCount l)); ("--mem-mib", itoa (l_MemMiB l))].

Lemma readFlags_jailerArgs spec : readFlags (tail (jailerArgs spec)) = Some (jailerFlags spec).
Proof. unfold jailerArgs, jailerFlags. cbv zeta. repeat case_bool_decide; reflexivity. Qed.

Lemma jailerFlags_NoDup spec : NoDup (jailerFlags spec).*1.
Proof.
  unfold jailerFlags. cbv zeta. repeat case_bool_decide; cbn [app fmap list_fmap fst];
    apply (bool_decide_unpack _); vm_compute; exact I.
Qed.

Lemma resolveIDs_spec {OS} `{!HostOS OS} spec (os : OS) js :
  resolveIDs spec os = Ok js →
  ∃ uid gid, js = mkJailedSpec (js_spec spec) (js_VMID spec) (js_JailerBin spec)
    (js_ChrootBase spec) (js_CPUQuotaMicros spec) (js_MemBytes spec) (js_SeccompProfile spec)
    (js_JailerUser spec) uid gid ∧
    (uid = 0 → ∃ g, lookupUser (js_JailerUser spec) os = Ok (0, g)) ∧
    (gid = 0 → ∃ u, lookupUser (js_JailerUser spec) os = Ok (u, 0)).
Proof.
  unfold resolveIDs. destruct (Z.eqb_spec (js_JailerUID spec) 0) as [Hu|Hu],
    (Z.eqb_spec (js_JailerGID spec) 0) as [Hg|Hg]; cbn [orb].
  4: { intros [= <-]. exists (js_JailerUID spec), (js_JailerGID spec).
       split; [by destruct spec|]. naive_solver. }
  all: destruct (lookupUser _ os) as [[u g]|] eqn:E; simpl; intros [= <-];
    eexists _, _; (split; [reflexivity|]); unfold numDefault;
    split; intros H0; repeat case_match; naive_solver lia.
Qed.

(** ** Reading the configuration document *)

(** The first member of a name, as Firecracker looks one up. *)
Definition jfield (k : string) (j : json) : option json :=
  match j with
  | JObj l => (λ x, snd (snd x)) <$> list_find (λ x, fst x = k) l
  | _ => None
  end.
Definition jstr (j : json) : option string := match j with JStr s => Some s | _ => None end.
Definition jnum (j : json) : option Z := match j with JNum z => Some z | _ => None end.
Definition jbool (j : json) : option bool := match j with JBool b => Some b | _ => None end.
Definition jarr (j : json) : option (list json) := match j with JArr l => Some l | _ => None end.

Definition readBoot (j : json) : option fcBootSource :=
  k ← jfield "kernel_image_path" j ≫= jstr; a ← jfield "boot_args" j ≫= jstr;
  Some (mkFcBootSource k a).
Definition readDrive (j : json) : option fcDrive :=
  d ← jfield "drive_id" j ≫= jstr; p ← jfield "path_on_host" j ≫= jstr;
  r ← jfield "is_root_device" j ≫= jbool; o ← jfield "is_read_only" j ≫= jbool;
  Some (mkFcDrive d p r o).
Definition readIface (j : json) : option fcNetIface :=
  i ← jfield "iface_id" j ≫= jstr; m ← jfield "guest_mac" j ≫= jstr;
  h ← jfield "host_dev_name" j ≫= jstr; Some (mkFcNetIface i m h).
Definition readMachine (j : json) : option fcMachineConfig :=
  v ← jfield "vcpu_count" j ≫= jnum; m ← jfield "mem_size_mib" j ≫= jnum;
  s ← jfield "smt" j ≫= jbool; Some (mkFcMachineConfig v m s).
Definition readVsock (j : json) : option fcVsock :=
  c ← jfield "guest_cid" j ≫= jnum; u ← jfield "uds_path" j ≫= jstr; Some (mkFcVsock c u).
Definition readFc (j : json) : option fcConfig :=
  match jfield "boot-source" j ≫= readBoot, jfield "drives" j ≫= jarr,
        jfield "network-interfaces" j ≫= jarr, jfield "machine-config" j ≫= readMachine with
  | Some b, Some ds, Some ns, Some m =>
    match mapM readDrive ds, mapM readIface ns with
    | Some ds, Some ns =>
      match jfield "vsock" j with
      | None => Some (mkFcConfig b ds ns m None)
      | Some v => (λ v, mkFcConfig b ds ns m (Some v)) <$> readVsock v
      end
    | _, _ => None
    end
  | _, _, _, _ => None
  end.

Lemma mapM_fmap_inverse {A B} (f : A → B) (g : B → option A) (l : list A) :
  (∀ a, g (f a) = Some a) → mapM g (f <$> l) = Some l.
Proof.
  intros H. apply mapM_Some. induction l as [|a l IH]; constructor; [apply H|done].
Qed.

Lemma readFc_marshalFc c : readFc (marshalFc c) = Some c.
Proof.
  assert (jfield "boot-source" (marshalFc c) ≫= readBoot = Some (fc_BootSource c)) as Hb
    by (by destruct c as [[]]).
  assert (jfield "drives" (marshalFc c) ≫= jarr = Some (marshalDrive <$> fc_Drives c)) as Hd by done.
  assert (jfield "network-interfaces" (marshalFc c) ≫= jarr = Some (marshalIface <$> fc_NetworkInterfaces c))
    as Hn by done.
  assert (jfield "machine-config" (marshalFc c) ≫= readMachine = Some (fc_MachineConfig c)) as Hm
    by (by destruct c as [? ? ? []]).
  unfold readFc. rewrite Hb, Hd, Hn, Hm, !mapM_fmap_inverse by (by intros []).
  by destruct c as [? ? ? ? [[]|]].
Qed.

(** ** Properties *)

(** What Firecracker reads is what the VM was asked to be: the document
    [Launch] writes reads back, member by member, as the configuration it was
    made of, with the kernel, the root file system as a writable root drive,
    the VM's own device and MAC, its processors and memory, and the vsock
    exactly when it has a CID and a socket; and no configuration is lost in
    the document, the vsock pointer included. *)
Theorem vm_document_roundtrip (spec : LaunchSpec) (c : fcConfig) :
  readFc (marshalFc c) = Some c ∧
  ∃ d, readFc (marshalFc (fcConfigOf spec)) = Some d ∧
    fc_KernelImagePath (fc_BootSource d) = l_KernelPath spec ∧
    fc_Drives d = [mkFcDrive "rootfs" (l_RootfsPath spec) true false] ∧
    fc_NetworkInterfaces d = [mkFcNetIface "eth0" (l_GuestMAC spec) (l_TapName spec)] ∧
    fc_MachineConfig d = mkFcMachineConfig (l_VcpuCount spec) (l_MemMiB spec) false ∧
    (fc_BootArgs (fc_BootSource d) = l_BootArgs spec ∨
     l_BootArgs spec = "" ∧ fc_BootArgs (fc_BootSource d) = defaultBootArgs) ∧
    (fc_Vsock d = Some (mkFcVsock (l_VsockCID spec) (l_VsockUDS spec)) ↔
     0 < l_VsockCID spec ∧ l_VsockUDS spec ≠ "").
Proof.
  split; [apply readFc_marshalFc|]. exists (fcConfigOf spec). split; [apply readFc_marshalFc|].
  split_and!; [done..| |]; cbn [fcConfigOf fc_BootSource fc_BootArgs fc_Vsock].
  - case_bool_decide; auto.
  - destruct (Z.ltb_spec 0 (l_VsockCID spec)); case_bool_decide; simpl; split; try done;
      intros [? ?]; (done || lia).
Qed.

(** What a jailed VM is confined by reaches the wrapper intact: its
    command line reads back, two words at a time, as a list of distinct
    flags in which the VM id, the cgroup quota and the memory limit are the
    ones asked for (or the documented defaults, never zero), the seccomp
    profile is passed exactly when one is configured, and the uid and gid
    are zero only if the system's user database says so. *)
Theorem jail_limits_reach_wrapper {OS : Type} `{!HostOS OS} (spec : JailedSpec) (os : OS)
    (js : JailedSpec) :
  resolveIDs (jailDefaults spec) os = Ok js →
  ∃ flags uid gid,
    readFlags (tail (jailerArgs js)) = Some flags ∧ NoDup flags.*1 ∧
    flagValue "--vm-id" flags = Some (js_VMID spec) ∧
    flagValue "--cpu-quota-us" flags =
      Some (itoa (if js_CPUQuotaMicros spec =? 0 then 100000 else js_CPUQuotaMicros spec)) ∧
    flagValue "--mem-bytes" flags =
      Some (itoa (if js_MemBytes spec =? 0 then 2 ^ 30 else js_MemBytes spec)) ∧
    flagValue "--seccomp-profile" flags =
      (if bool_decide (js_SeccompProfile spec = "") then None else Some (js_SeccompProfile spec)) ∧
    flagValue "--uid" flags = Some (itoa uid) ∧ flagValue "--gid" flags = Some (itoa gid) ∧
    (uid = 0 → ∃ g, lookupUser (strDefault (js_JailerUser spec) "microvm") os = Ok (0, g)) ∧
    (gid = 0 → ∃ u, lookupUser (strDefault (js_JailerUser spec) "microvm") os = Ok (u, 0)).
Proof.
  intros (uid & gid & -> & Hu & Hg)%resolveIDs_spec. eexists _, uid, gid.
  split; [apply readFlags_jailerArgs|]. split; [apply jailerFlags_NoDup|].
  split_and!; [reflexivity..| | | | |].
  - unfold jailerFlags. cbn [js_SeccompProfile js_spec jailDefaults].
    repeat case_bool_decide; reflexivity.
  - reflexivity.
  - reflexivity.
  - exact Hu.
  - exact Hg.
Qed.

(** [lookupUser] reads uid and gid out of a passwd entry: for every
    entry whose first two fields have no colon the ids come back exactly,
    whatever the remaining fields hold; and [splitColon] loses nothing, the
    fields of any line joined by colons are the line. *)
Theorem lookup_user_reads_passwd {OS : Type} `{!HostOS OS}
    (name pw rest : string) (uid gid : Z) (os : OS) :
  allChars (λ c, negb (isColon c)) name = true → allChars (λ c, negb (isColon c)) pw = true →
  0 ≤ uid < two63 → 0 ≤ gid < two63 →
  cmdOutput "getent" ["passwd"; name] os =
    Some (name +:+ ":" +:+ pw +:+ ":" +:+ itoa uid +:+ ":" +:+ itoa gid +:+ ":" +:+ rest) →
  lookupUser name os = Ok (uid, gid) ∧
  (∀ s, joinStr ":" (splitColon s) = s).
Proof.
  intros Hn Hp Hu Hg Ho. split.
  - unfold lookupUser. rewrite Ho, !splitColon_field; [|try done; apply digits_no_colon, itoa_digits; lia..].
    rewrite !parseInt64_itoa by (unfold int64_ok, two63 in *; lia). done.
  - intros s. unfold splitColon. by rewrite splitColon_go_join.
Qed.

Definition passwdOS : SimOS :=
  simStart [] {["$getent" := "microvm:x:997:996::/nonexistent:/usr/sbin/nologin"]}.

Lemma lookup_user_reads_passwd_witness : lookupUser "microvm" passwdOS = Ok (997, 996).
Proof.
  apply (lookup_user_reads_passwd "microvm" "x" ":/nonexistent:/usr/sbin/nologin" 997 996 passwdOS);
    [reflexivity|reflexivity|unfold two63; lia|unfold two63; lia|vm_compute; reflexivity].
Defined.

Definition demoSpec : LaunchSpec :=
  mkLaunchSpec "/usr/local/bin/firecracker" "/vms/a" "/vmlinux" "/vms/a/rootfs.ext4" 2 2048
    "tap-fc0" "06:00:ac:14:00:02" defaultBootArgs 100 "/vms/a/fc.vsock".
Definition demoJailed : JailedSpec :=
  mkJailedSpec demoSpec "a" "" "" 0 0 "/seccomp.json" "" 0 0.

Lemma jail_limits_reach_wrapper_witness :
  ∃ flags, readFlags (tail (jailerArgs (mkJailedSpec demoSpec "a"
      "/usr/local/libexec/microvm-terminal/jailer.sh" "/srv/jailer" 100000 1073741824
      "/seccomp.json" "microvm" 997 996))) = Some flags ∧
    flagValue "--mem-bytes" flags = Some "1073741824".
Proof.
  destruct (jail_limits_reach_wrapper demoJailed passwdOS
    (mkJailedSpec demoSpec "a" "/usr/local/libexec/microvm-terminal/jailer.sh" "/srv/jailer"
       100000 1073741824 "/seccomp.json" "microvm" 997 996))
    as (flags & uid & gid & H1 & _ & _ & _ & H2 & _); [vm_compute; reflexivity|].
  exists flags. split; [exact H1|]. rewrite H2. vm_compute. reflexivity.
Defined.
