(* ===== verification/ProcStop.v ===== *)
(** The end of a VM's process: [Stop] and [Wait] of firecracker/launcher.go
    and vm/jailer.go (the same code in both), with the goroutine [Stop]
    starts, the reaper that waits for the same process at the same time, the
    timer and the two console pipes.

    The machine has finitely many states, and no more than a few hundred
    from where [Stop] is called; what holds of all of them is checked by
    exploring them ([explore]) and lifted to every schedule ([explored]). *)
From S2P Require Import Prelude.
Open Scope Z_scope.

(** ** The machine *)

(** Where [Stop] is: it signals, starts the goroutine, selects, perhaps
    kills and waits for the goroutine, and closes the pipes. *)
Inductive StopPC := AtSignal | AtGo | AtSelect | AtKill | AtDone | AtStdin | AtStdout | Returned.
(** The goroutine of [Stop]: [cmd.Wait()], then [close(done)]. *)
Inductive GoPC := NotStarted | GoWaits | GoCloses | GoEnded.
(** The reaper of the manager: [proc.Wait()]. *)
Inductive ReapPC := ReapWaits | ReapReturned.

Record PS := mkPS {
  p_alive : bool;        (* the process runs *)
  p_reaped : bool;       (* somebody's wait collected it *)
  p_termed : bool;       (* SIGTERM was delivered to it *)
  p_killed : bool;       (* SIGKILL was delivered to it *)
  p_timer : bool;        (* five seconds have passed since the select *)
  p_done : nat;          (* how often the channel was closed *)
  p_stdin : bool;        (* the pipe is open *)
  p_stdout : bool;
  p_stop : StopPC;
  p_go : GoPC;
  p_reap : ReapPC
}.

#[export] Instance StopPC_eq_dec : EqDecision StopPC.
Proof. solve_decision. Defined.
#[export] Instance GoPC_eq_dec : EqDecision GoPC.
Proof. solve_decision. Defined.
#[export] Instance ReapPC_eq_dec : EqDecision ReapPC.
Proof. solve_decision. Defined.
#[export] Instance PS_eq_dec : EqDecision PS.
Proof. solve_decision. Defined.

(** A step of [Stop], of its goroutine or of the reaper; the process exits
    (on its own, or because of SIGTERM); the timer fires.  When both cases of
    the select are ready the runtime picks one: [LStop] prefers the channel,
    [LStopTimer] the timer. *)
Inductive PLbl := LStop | LStopTimer | LGo | LReap | LExit | LTimer.
Definition allLbls : list PLbl := [LStop; LStopTimer; LGo; LReap; LExit; LTimer].

Definition at_stop (pc : StopPC) (s : PS) : PS :=
  mkPS (p_alive s) (p_reaped s) (p_termed s) (p_killed s) (p_timer s) (p_done s) (p_stdin s)
    (p_stdout s) pc (p_go s) (p_reap s).
Definition at_go (pc : GoPC) (s : PS) : PS :=
  mkPS (p_alive s) (p_reaped s) (p_termed s) (p_killed s) (p_timer s) (p_done s) (p_stdin s)
    (p_stdout s) (p_stop s) pc (p_reap s).

(** [cmd.Process.Signal]: a process that was waited for is not signalled. *)
Definition signal (kill : bool) (s : PS) : PS :=
  if p_reaped s then s
  else mkPS (p_alive s && negb kill) (p_reaped s) (p_termed s || negb kill) (p_killed s || kill)
         (p_timer s) (p_done s) (p_stdin s) (p_stdout s) (p_stop s) (p_go s) (p_reap s).

(** [cmd.Wait]: blocks while the process runs; the first to come back
    collects it, and every one that does closes the parent's pipe ends. *)
Definition wait (s : PS) : option PS :=
  if p_alive s then None
  else Some (mkPS false true (p_termed s) (p_killed s) (p_timer s) (p_done s) false false
               (p_stop s) (p_go s) (p_reap s)).

(** [Process.Wait] as the reaper calls it. *)
Definition WaitStep (s : PS) : option PS :=
  match p_reap s with
  | ReapWaits =>
    match wait s with
    | None => None
    | Some s' => Some (mkPS (p_alive s') (p_reaped s') (p_termed s') (p_killed s') (p_timer s')
                   (p_done s') (p_stdin s') (p_stdout s') (p_stop s') (p_go s') ReapReturned)
    end
  | ReapReturned => None
  end.

Definition GoStep (s : PS) : option PS :=
  match p_go s with
  | GoWaits => match wait s with None => None | Some s' => Some (at_go GoCloses s') end
  | GoCloses =>
    Some (mkPS (p_alive s) (p_reaped s) (p_termed s) (p_killed s) (p_timer s) (S (p_done s))
            (p_stdin s) (p_stdout s) (p_stop s) GoEnded (p_reap s))
  | _ => None
  end.

Definition isClosed (s : PS) : bool := (0 <? p_done s)%nat.

(** [Process.Stop] *)
Definition StopStep (preferTimer : bool) (s : PS) : option PS :=
  match p_stop s with
  | AtSignal => Some (at_stop AtGo (signal false s))
  | AtGo => Some (at_stop AtSelect (at_go GoWaits s))
  | AtSelect =>
    if isClosed s && negb (preferTimer && p_timer s) then Some (at_stop AtStdin s)
    else if p_timer s then Some (at_stop AtKill s)
    else None
  | AtKill => Some (at_stop AtDone (signal true s))
  | AtDone => if isClosed s then Some (at_stop AtStdin s) else None
  | AtStdin =>
    Some (mkPS (p_alive s) (p_reaped s) (p_termed s) (p_killed s) (p_timer s) (p_done s)
            false (p_stdout s) AtStdout (p_go s) (p_reap s))
  | AtStdout =>
    Some (mkPS (p_alive s) (p_reaped s) (p_termed s) (p_killed s) (p_timer s) (p_done s)
            (p_stdin s) false Returned (p_go s) (p_reap s))
  | Returned => None
  end.

Definition pstep (l : PLbl) (s : PS) : option PS :=
  match l with
  | LStop => StopStep false s
  | LStopTimer => StopStep true s
  | LGo => GoStep s
  | LReap => WaitStep s
  | LExit =>
    if p_alive s then
      Some (mkPS false (p_reaped s) (p_termed s) (p_killed s) (p_timer s) (p_done s) (p_stdin s)
              (p_stdout s) (p_stop s) (p_go s) (p_reap s))
    else None
  | LTimer =>
    match p_stop s, p_timer s with
    | AtSelect, false =>
      Some (mkPS (p_alive s) (p_reaped s) (p_termed s) (p_killed s) true (p_done s) (p_stdin s)
              (p_stdout s) (p_stop s) (p_go s) (p_reap s))
    | _, _ => None
    end
  end.

Fixpoint prun (ls : list PLbl) (s : PS) : option PS :=
  match ls with
  | [] => Some s
  | l :: ls' => match pstep l s with None => None | Some s' => prun ls' s' end
  end.

(** [Stop] is called on a running process, on one that has exited, or on one
    the reaper has already collected. *)
Definition calledOn (alive reaped : bool) : PS :=
  mkPS alive reaped false false false 0 (negb reaped) (negb reaped) AtSignal NotStarted
    (if reaped then ReapReturned else ReapWaits).
Definition starts : list PS := [calledOn true false; calledOn false false; calledOn false true].

(** ** Exploration *)

Definition succs (s : PS) : list PS := omap (λ l, pstep l s) allLbls.

(** Breadth first, [n] rounds; [seen] grows by the new states of each. *)
Fixpoint explore (n : nat) (frontier seen : list PS) : list PS :=
  match n with
  | O => seen
  | S n' =>
    let new := remove_dups (filter (λ s, s ∉ seen) (frontier ≫= succs)) in
    explore n' new (new ++ seen)
  end.

Definition states : list PS := explore 20 starts starts.

(** The set is closed under steps. *)
Definition closed (l : list PS) : bool :=
  forallb (λ s, forallb (λ t, bool_decide (t ∈ l)) (succs s)) l.

Lemma succs_step l s t : pstep l s = Some t → t ∈ succs s.
Proof.
  intros E. apply list_elem_of_omap. exists l. split; [|done]. destruct l; set_solver.
Qed.

Lemma closed_step L l s t : closed L = true → s ∈ L → pstep l s = Some t → t ∈ L.
Proof.
  intros Hc Hs E. unfold closed in Hc. rewrite forallb_forall in Hc.
  specialize (Hc s (proj1 (list_elem_of_In _ _) Hs)). rewrite forallb_forall in Hc.
  apply (bool_decide_eq_true_1 (t ∈ L)), Hc, list_elem_of_In. by eapply succs_step.
Qed.

Lemma explored (L : list PS) (P : PS → bool) :
  closed L = true → forallb P L = true →
  ∀ ls s s', s ∈ L → prun ls s = Some s' → P s' = true.
Proof.
  intros Hc HP ls. rewrite forallb_forall in HP.
  induction ls as [|l ls IH]; intros s s' Hs Hrun; cbn [prun] in Hrun.
  - injection Hrun as <-. by apply HP, list_elem_of_In.
  - destruct (pstep l s) as [t|] eqn:E; [|done]. apply (IH t s'); [|done]. by eapply closed_step.
Qed.

Lemma states_closed : closed states = true.
Proof. vm_compute. reflexivity. Qed.

Lemma starts_explored s : s ∈ starts → s ∈ states.
Proof.
  assert (forallb (λ s, bool_decide (s ∈ states)) starts = true) as H by (vm_compute; reflexivity).
  rewrite forallb_forall in H. intros Hs%list_elem_of_In%H. by apply bool_decide_eq_true in Hs.
Qed.

(** A check of every state holds in every schedule. *)
Lemma always (P : PS → bool) : forallb P states = true →
  ∀ ls s s', s ∈ starts → prun ls s = Some s' → P s' = true.
Proof. intros HP ls s s' Hs. apply (explored states P states_closed HP), starts_explored, Hs. Qed.

(** ** What is checked *)

Definition isB (b c : bool) : bool := Bool.eqb b c.

(** [Stop] has returned: the process is dead and collected, its pipes are
    closed, and the channel was closed once. *)
Definition endedWell (s : PS) : bool :=
  implb (bool_decide (p_stop s = Returned))
    (negb (p_alive s) && p_reaped s && negb (p_stdin s) && negb (p_stdout s) && (p_done s =? 1)%nat).
(** Closing a closed channel would panic. *)
Definition closedOnce (s : PS) : bool := (p_done s <=? 1)%nat.
(** SIGKILL comes after SIGTERM and five seconds. *)
Definition killLast (s : PS) : bool :=
  implb (p_killed s) (p_termed s && p_timer s).

(** None of the three goroutines can run. *)
Definition idle (s : PS) : bool :=
  forallb (λ l, match pstep l s with Some _ => false | None => true end) [LStop; LStopTimer; LGo; LReap].
(** They rest only before the timer of a process that still runs, or at the
    end. *)
Definition restsWell (s : PS) : bool :=
  implb (idle s)
    ((bool_decide (p_stop s = AtSelect) && p_alive s && negb (p_timer s)) ||
     (bool_decide (p_stop s = Returned) && bool_decide (p_go s = GoEnded) &&
      bool_decide (p_reap s = ReapReturned))).

(** What is left to do. *)
Definition rank (s : PS) : nat :=
  (match p_stop s with
   | AtSignal => 7 | AtGo => 6 | AtSelect => 5 | AtKill => 4 | AtDone => 3 | AtStdin => 2
   | AtStdout => 1 | Returned => 0 end
   + match p_go s with NotStarted => 3 | GoWaits => 2 | GoCloses => 1 | GoEnded => 0 end
   + match p_reap s with ReapWaits => 1 | ReapReturned => 0 end
   + (if p_alive s then 1 else 0) + (if p_timer s then 0 else 1))%nat.
Definition decreases (s : PS) : bool := forallb (λ t, rank t <? rank s)%nat (succs s).

Lemma prun_bounded ls : ∀ s s', s ∈ states → prun ls s = Some s' → (length ls + rank s' ≤ rank s)%nat.
Proof.
  assert (forallb decreases states = true) as Hd by (vm_compute; reflexivity).
  pose proof states_closed as Hc. revert Hd Hc. generalize states as L. intros L Hd Hc.
  rewrite forallb_forall in Hd.
  induction ls as [|l ls IH]; intros s s' Hs Hrun; cbn [prun] in Hrun.
  - injection Hrun as <-. simpl. lia.
  - destruct (pstep l s) as [t|] eqn:E; [|done].
    specialize (Hd s (proj1 (list_elem_of_In _ _) Hs)). unfold decreases in Hd.
    rewrite forallb_forall in Hd.
    specialize (Hd t (proj1 (list_elem_of_In _ _) (succs_step l s t E))). apply Nat.ltb_lt in Hd.
    specialize (IH t s' (closed_step _ _ _ _ Hc Hs E) Hrun). simpl. lia.
Qed.

(** ** Properties *)

(** C12: [Stop] ends its process, however it is scheduled against the reaper
    that waits for the same process: every run has at most thirteen steps;
    when [Stop] has returned the process is dead and collected, both console
    pipes are closed and the channel was closed exactly once (it is never
    closed twice, which would panic); SIGKILL is sent only after SIGTERM and
    only once the five seconds are over; and the goroutines come to rest
    either all finished, or waiting for a process that still runs while the
    timer has not fired, so a process that ignores SIGTERM does not stop
    [Stop] from returning. *)
Theorem stop_ends_process (s s' : PS) (ls : list PLbl) :
  s ∈ starts → prun ls s = Some s' →
  (length ls ≤ 13)%nat ∧
  (p_stop s' = Returned →
     p_alive s' = false ∧ p_reaped s' = true ∧ p_stdin s' = false ∧ p_stdout s' = false ∧ p_done s' = 1%nat) ∧
  (p_done s' ≤ 1)%nat ∧
  (p_killed s' = true → p_termed s' = true ∧ p_timer s' = true) ∧
  (idle s' = true →
     (p_stop s' = AtSelect ∧ p_alive s' = true ∧ p_timer s' = false) ∨
     (p_stop s' = Returned ∧ p_go s' = GoEnded ∧ p_reap s' = ReapReturned)).
Proof.
  intros Hs Hrun.
  assert (∀ P, forallb P states = true → P s' = true) as Hall
    by (intros P HP; exact (always P HP ls s s' Hs Hrun)).
  split_and!.
  - pose proof (prun_bounded ls s s' (starts_explored s Hs) Hrun).
    assert (rank s ≤ 13)%nat; [|lia].
    assert (forallb (λ s, rank s <=? 13)%nat starts = true) as Hr by (vm_compute; reflexivity).
    rewrite forallb_forall in Hr. apply list_elem_of_In, Hr, Nat.leb_le in Hs. lia.
  - intros E. specialize (Hall endedWell ltac:(vm_compute; reflexivity)). unfold endedWell in Hall.
    rewrite bool_decide_true in Hall by done. cbn [implb] in Hall.
    rewrite !andb_true_iff, !negb_true_iff, Nat.eqb_eq in Hall. tauto.
  - specialize (Hall closedOnce ltac:(vm_compute; reflexivity)). by apply Nat.leb_le.
  - intros E. specialize (Hall killLast ltac:(vm_compute; reflexivity)). unfold killLast in Hall.
    rewrite E in Hall. by apply andb_true_iff in Hall.
  - intros E. specialize (Hall restsWell ltac:(vm_compute; reflexivity)). unfold restsWell in Hall.
    rewrite E in Hall. cbn [implb] in Hall.
    rewrite orb_true_iff, !andb_true_iff, !bool_decide_eq_true, negb_true_iff in Hall. tauto.
Qed.

(** A process that ignores SIGTERM: the timer fires, it is killed, the
    reaper collects it first. *)
Lemma stop_ends_process_witness : ∃ s',
  prun [LStop; LStop; LTimer; LStop; LStop; LReap; LGo; LGo; LStop; LStop; LStop] (calledOn true false)
    = Some s' ∧ p_stop s' = Returned ∧ p_killed s' = true ∧ p_alive s' = false ∧ p_stdout s' = false.
Proof.
  eexists. split; [vm_compute; reflexivity|].
  destruct (stop_ends_process (calledOn true false) _
    [LStop; LStop; LTimer; LStop; LStop; LReap; LGo; LGo; LStop; LStop; LStop]
    ltac:(unfold starts; set_solver) ltac:(vm_compute; reflexivity)) as (_ & H & _).
  destruct (H ltac:(reflexivity)) as (Ha & _ & _ & Ho & _).
  split_and!; [reflexivity|reflexivity|exact Ha|exact Ho].
Defined.
