(* ===== verification/Manager.v ===== *)
(** The session manager, control-plane/internal/session/manager.go, with the
    adapter of control-plane/cmd/microvm-terminal/main.go that waits for the
    guest: who owns which network device, address, directory and process.

    The manager's state and the host are one [World]; the sessions are cells
    of a heap, since the host, the pool and the handlers share the pointers.
    What is random or external (the token bytes, the UUID, the clock) is an
    input of the operation. *)
From S2P Require Import Prelude GoLib NetAlloc Session Config HostOS Network Rootfs Launch.
Open Scope Z_scope.

Definition cmdlineTokenKey : string := "mvt.session_token".
Definition cmdlineVsockKey : string := "mvt.vsock_port".
Definition guestVsockPort : Z := 5555.

Record World (OS : Type) := mkWorld {
  w_os : OS;
  w_alloc : Allocator;
  w_sessions : gmap string nat;      (* id to heap cell *)
  w_heap : gmap nat Session
}.
Arguments mkWorld {_} _ _ _ _.
Arguments w_os {_} _.
Arguments w_alloc {_} _.
Arguments w_sessions {_} _.
Arguments w_heap {_} _.

(** What one call of [Create] draws from outside. *)
Record CreateIn := mkCreateIn {
  ci_rand : option string;           (* rand.Read of 32 bytes *)
  ci_uuid : string;                  (* uuid.NewString *)
  ci_now : Z                         (* time.Now *)
}.

Definition shortID (id : string) : string :=
  if (Z.of_nat (String.length id) <? 8) then id else takeStr 8 id.

Definition bootArgsOf (sessionToken : string) : string :=
  "console=ttyS0 reboot=k panic=1 pci=off rw " +:+ cmdlineTokenKey +:+ "=" +:+ sessionToken
  +:+ " " +:+ cmdlineVsockKey +:+ "=" +:+ itoa guestVsockPort.

(** The loop of [detectUpstreamIface]: the word after the first [dev]. *)
Fixpoint afterDev (l : list string) : option string :=
  match l with
  | w :: l' => match l' with
               | v :: _ => if bool_decide (w = "dev") then Some v else afterDev l'
               | [] => None
               end
  | [] => None
  end.

Section Manager.
Context {OS : Type} `{!HostOS OS}.
Variable cfg : Config.

Definition detectUpstreamIface (os : OS) : option string :=
  match cmdOutput "ip" ["-o"; "route"; "show"; "default"] os with
  | None => None
  | Some out => afterDev (fields out)
  end.

Definition readTokenFile (path : string) (os : OS) : option string :=
  trimSpace <$> readFile path os.

(** [NewManager] *)
Definition NewManager : osM OS (res GoErr (World OS)) := λ os,
  match New (c_VMCIDR cfg) with
  | Err _ => (Err (ErrWrap "netalloc"), os)
  | Ok alloc =>
    match ParsePrefix (c_VMCIDR cfg) with
    | None => (Err (ErrWrap "parse prefix"), os)
    | Some subnet =>
      match detectUpstreamIface os with
      | None => (Err (ErrWrap "detect upstream"), os)
      | Some upstream =>
        let '(r, os1) := EnsureBridge (c_BridgeName cfg) (HostAddr alloc) (PrefixLen alloc)
                           subnet upstream os in
        match r with
        | Err _ => (Err (ErrWrap "ensure bridge"), os1)
        | Ok _ => (Ok (mkWorld os1 alloc ∅ ∅), os1)
        end
      end
    end
  end.

(** *** Access to the parts of the world *)

Definition liftOS {A} (m : osM OS A) : osM (World OS) A := λ w,
  let '(a, os) := m (w_os w) in
  (a, mkWorld os (w_alloc w) (w_sessions w) (w_heap w)).
Definition allocM : osM (World OS) (res NetErr Grant) := λ w,
  let '(r, al) := Alloc (w_alloc w) in
  (r, mkWorld (w_os w) al (w_sessions w) (w_heap w)).
Definition releaseM (ip : Addr) : osM (World OS) unit := λ w,
  (tt, mkWorld (w_os w) (Release ip (w_alloc w)) (w_sessions w) (w_heap w)).
Definition gets {A} (f : World OS → A) : osM (World OS) A := λ w, (f w, w).
(** A new heap cell, entered in the session table. *)
Definition registerM (id : string) (s : Session) : osM (World OS) nat := λ w,
  let a := fresh (dom (w_heap w)) in
  (a, mkWorld (w_os w) (w_alloc w) (<[id := a]> (w_sessions w)) (<[a := s]> (w_heap w))).
Definition unregisterM (id : string) : osM (World OS) unit := λ w,
  (tt, mkWorld (w_os w) (w_alloc w) (delete id (w_sessions w)) (w_heap w)).
Definition storeM (a : nat) (s : Session) : osM (World OS) unit := λ w,
  (tt, mkWorld (w_os w) (w_alloc w) (w_sessions w) (<[a := s]> (w_heap w))).

(** *** Create *)

Definition vmDirOf (sid : string) : string := joinPath (c_VMDataDir cfg) sid.

Definition cleanup (vmDir tap : string) (ip : Addr) : osM (World OS) unit :=
  _ ← liftOS (removeAll vmDir);
  _ ← liftOS (DeleteTAP tap);
  releaseM ip.

Definition launchVM (sid : string) (spec : LaunchSpec) : osM OS (res string Process) :=
  if j_Enabled (c_Jailer cfg) then
    LaunchJailed {|
      js_spec := spec; js_VMID := sid;
      js_JailerBin := j_Script (c_Jailer cfg);
      js_ChrootBase := j_ChrootBase (c_Jailer cfg);
      js_CPUQuotaMicros := JailerCPUQuotaMicros cfg;
      js_MemBytes := JailerMemBytes cfg;
      js_SeccompProfile := j_SeccompProfile (c_Jailer cfg);
      js_JailerUser := j_User (c_Jailer cfg);
      js_JailerUID := j_UID (c_Jailer cfg);
      js_JailerGID := j_GID (c_Jailer cfg) |}
  else Launch spec.

Definition fcSpecOf (sid sessionToken : string) (g : Grant) : LaunchSpec := {|
  l_BinaryPath := c_FirecrackerBin cfg;
  l_VMDir := vmDirOf sid;
  l_KernelPath := c_KernelPath cfg;
  l_RootfsPath := joinPath (vmDirOf sid) "rootfs.ext4";
  l_VcpuCount := vm_Vcpu (c_VM cfg);
  l_MemMiB := vm_MemMiB (c_VM cfg);
  l_TapName := g_tap g;
  l_GuestMAC := g_mac g;
  l_BootArgs := bootArgsOf sessionToken;
  l_VsockCID := g_cid g;
  l_VsockUDS := joinPath (vmDirOf sid) "fc.vsock"
|}.

Definition newSession (sid sessionToken : string) (g : Grant) (proc : Process) (now : Z) : Session :=
  mkSession sid (g_ip g) (g_mac g) (g_tap g) ("vm-" +:+ shortID sid) sessionToken "" (Some (pr_pid proc))
    (vmDirOf sid) true false now 0 SigOpen false true SigOpen false None 0 0 0 zeroTime.

Definition atCapacity (w : World OS) : bool :=
  c_MaxConcurrent cfg <=? Z.of_nat (size (w_sessions w)).

(** The rest of [Create] once the VM has a device and a directory: every
    failure from here on goes through [cleanup].  The vsock listener and the
    reaper goroutine that a success starts are events of their own: the
    handshake of Session.v, and a later [Destroy]. *)
Definition provision (inp : CreateIn) (g : Grant) (sessionToken : string)
    : osM (World OS) (res GoErr nat) :=
  let sid := ci_uuid inp in
  let vmDir := vmDirOf sid in
  token ← gets (λ w, readTokenFile (c_ClaudeOAuthTokenFile cfg) (w_os w));
  match token with
  | None =>
    _ ← cleanup vmDir (g_tap g) (g_ip g);
    mret (Err (ErrWrap "read token file"))
  | Some token =>
    len ← gets (λ w, PrefixLen (w_alloc w));
    gw ← gets (λ w, HostAddr (w_alloc w));
    prepared ← liftOS (PrepareRootfs (ci_now inp) (c_RootfsPath cfg)
                 (joinPath vmDir "rootfs.ext4") (g_ip g) len gw
                 ("vm-" +:+ shortID sid) token);
    match prepared with
    | Err _ =>
      _ ← cleanup vmDir (g_tap g) (g_ip g);
      mret (Err (ErrWrap "prepare rootfs"))
    | Ok _ =>
      launched ← liftOS (launchVM sid (fcSpecOf sid sessionToken g));
      match launched with
      | Err _ =>
        _ ← cleanup vmDir (g_tap g) (g_ip g);
        mret (Err (ErrWrap "launch"))
      | Ok proc =>
        a ← registerM sid (newSession sid sessionToken g proc (ci_now inp));
        mret (Ok a)
      end
    end
  end.

(** [Create] after its capacity check, which is a critical section of its
    own. *)
Definition createVM (inp : CreateIn) : osM (World OS) (res GoErr nat) :=
  granted ← allocM;
  match granted with
  | Err _ => mret (Err (ErrWrap "alloc net"))
  | Ok g =>
    tapped ← liftOS (CreateTAP (g_tap g) (c_BridgeName cfg));
    match tapped with
    | Err _ => _ ← releaseM (g_ip g); mret (Err (ErrWrap "create tap"))
    | Ok _ =>
      match ci_rand inp with
      | None =>
        _ ← liftOS (DeleteTAP (g_tap g));
        _ ← releaseM (g_ip g);
        mret (Err (ErrWrap "rand"))
      | Some tokBytes =>
        made ← liftOS (mkdirAll (vmDirOf (ci_uuid inp)));
        if negb made then
          _ ← liftOS (DeleteTAP (g_tap g));
          _ ← releaseM (g_ip g);
          mret (Err (ErrWrap "mkdir vmdir"))
        else provision inp g (hexEncode tokBytes)
      end
    end
  end.

Definition Create (inp : CreateIn) : osM (World OS) (res GoErr nat) :=
  full ← gets atCapacity;
  if (full : bool) then mret (Err ErrAtCapacity) else createVM inp.

Definition Get (id : string) (w : World OS) : option nat := w_sessions w !! id.
Definition Count (w : World OS) : nat := size (w_sessions w).

(** *** Destroy *)

(** [Destroy].  Closing a closed channel and calling a method of a nil
    process are panics, and values of their own here. *)
Definition Destroy (id : string) : osM (World OS) (res GoErr unit) :=
  found ← gets (Get id);
  match found with
  | None => mret (Err ErrNotFound)
  | Some a =>
    _ ← unregisterM id;
    cell ← gets (λ w, w_heap w !! a);
    match cell with
    | None => mret (Err (ErrWrap "panic: nil session"))
    | Some s =>
      match CloseDone s with
      | None => mret (Err (ErrWrap "panic: close of closed channel"))
      | Some s' =>
        _ ← storeM a s';
        match s_Process s with
        | None => mret (Err (ErrWrap "panic: nil process"))
        | Some pid =>
          _ ← liftOS (stopProc pid);
          _ ← liftOS (DeleteTAP (s_Tap s));
          _ ← releaseM (s_IP s);
          _ ← liftOS (removeAll (s_VmDir s));
          mret (Ok tt)
        end
      end
    end
  end.

(** [Shutdown]; [ids] is the order in which the map was iterated. *)
Fixpoint Shutdown (ids : list string) : osM (World OS) unit :=
  match ids with
  | [] => mret tt
  | id :: ids' => _ ← Destroy id; Shutdown ids'
  end.

(** [managerLauncher.Launch] of main.go; [ready] is what [WaitReady]
    returned. *)
Definition launchReady (inp : CreateIn) (ready : res GoErr unit) : osM (World OS) (res GoErr nat) :=
  r ← Create inp;
  match r with
  | Err e => mret (Err e)
  | Ok a =>
    match ready with
    | Ok _ => mret (Ok a)
    | Err _ =>
      id ← gets (λ w, match w_heap w !! a with Some s => s_ID s | None => "" end);
      _ ← Destroy id;
      mret (Err ErrBootTimeout)
    end
  end.

(** ** Histories *)

Inductive MOp := MCreate (inp : CreateIn) | MDestroy (id : string).

Definition stepM (o : MOp) : osM (World OS) (res GoErr unit) :=
  match o with
  | MCreate inp => r ← Create inp; mret (match r with Ok _ => Ok tt | Err e => Err e end)
  | MDestroy id => Destroy id
  end.

Fixpoint runM (ops : list MOp) : osM (World OS) (list (res GoErr unit)) :=
  match ops with
  | [] => mret []
  | o :: ops' => r ← stepM o; rs ← runM ops'; mret (r :: rs)
  end.

(** ** What one call does *)

Context `{!HostOSLaws OS}.
Implicit Types w : World OS.

Lemma wp_liftOS {A} (m : osM OS A) Q w :
  wp m (λ a os', Q a (mkWorld os' (w_alloc w) (w_sessions w) (w_heap w))) (w_os w) →
  wp (liftOS m) Q w.
Proof.
  intros H%wp_run. apply wp_intro. unfold liftOS. by destruct (m (w_os w)).
Qed.

Lemma wp_gets {A} (f : World OS → A) Q w : Q (f w) w → wp (gets f) Q w.
Proof. intros. by apply wp_intro. Qed.

Lemma wp_releaseM ip Q w :
  Q tt (mkWorld (w_os w) (Release ip (w_alloc w)) (w_sessions w) (w_heap w)) → wp (releaseM ip) Q w.
Proof. intros. by apply wp_intro. Qed.

Lemma wp_registerM id s Q w :
  Q (fresh (dom (w_heap w)))
    (mkWorld (w_os w) (w_alloc w) (<[id := fresh (dom (w_heap w))]> (w_sessions w))
       (<[fresh (dom (w_heap w)) := s]> (w_heap w))) → wp (registerM id s) Q w.
Proof. intros. by apply wp_intro. Qed.

Lemma wp_unregisterM id Q w :
  Q tt (mkWorld (w_os w) (w_alloc w) (delete id (w_sessions w)) (w_heap w)) →
  wp (unregisterM id) Q w.
Proof. intros. by apply wp_intro. Qed.

Lemma wp_storeM a s Q w :
  Q tt (mkWorld (w_os w) (w_alloc w) (w_sessions w) (<[a := s]> (w_heap w))) →
  wp (storeM a s) Q w.
Proof. intros. by apply wp_intro. Qed.

(** The host once a directory and a device are gone. *)
Definition swept (vmDir tap : string) (o : Obs) : Obs :=
  set_links (o_links o ∖ {[tap]}) (set_dirs (outside vmDir (o_dirs o) ∖ {[vmDir]}) o).

Lemma wp_cleanup vmDir tap ip Q w :
  (∀ os', obs os' = swept vmDir tap (obs (w_os w)) →
     Q tt (mkWorld os' (Release ip (w_alloc w)) (w_sessions w) (w_heap w))) →
  wp (cleanup vmDir tap ip) Q w.
Proof.
  intros HQ. unfold cleanup. apply wp_bind, wp_liftOS, wp_removeAll. intros os1 Ho1.
  apply wp_bind, wp_liftOS, wp_DeleteTAP. intros os2 Ho2. apply wp_releaseM. simpl in *.
  apply HQ. rewrite Ho2, Ho1. done.
Qed.

(** What a failing [Create] may leave behind. *)
Record failed (e : GoErr) (tap vmDir : string) (o o' : Obs) : Prop := {
  fl_rules : o_rules o' = o_rules o;
  fl_procs : o_procs o' = o_procs o;
  fl_links : o_links o' ∖ {[tap]} = o_links o ∖ {[tap]};
  fl_tap : e ≠ ErrWrap "create tap" → tap ∉ o_links o → o_links o' = o_links o;
  fl_keep : ∀ x, x ≠ vmDir → inside vmDir x = false → x ∈ o_dirs o → x ∈ o_dirs o';
  fl_dirs : e ≠ ErrWrap "prepare rootfs" → vmDir ∉ o_dirs o →
    outside vmDir (o_dirs o) = o_dirs o → o_dirs o' = o_dirs o;
  fl_mounts : e ≠ ErrWrap "prepare rootfs" → o_mounts o' = o_mounts o
}.

Definition grown (tap vmDir : string) (pid : Z) (o : Obs) : Obs :=
  mkObs ({[tap]} ∪ o_links o) (o_rules o) ({[vmDir]} ∪ o_dirs o) (o_mounts o)
    ({[pid]} ∪ o_procs o).

Lemma failed_same e tap vmDir o : failed e tap vmDir o o.
Proof. by split. Qed.

Lemma failed_untap e tap vmDir o o1 :
  o1 = set_links ({[tap]} ∪ o_links o) o →
  failed e tap vmDir o (set_links (o_links o1 ∖ {[tap]}) o1).
Proof. intros ->. split; simpl; try done; set_solver. Qed.

Lemma outside_elem vmDir l x : x ∈ outside vmDir l ↔ x ∈ l ∧ inside vmDir x = false.
Proof. unfold outside. rewrite elem_of_filter. naive_solver. Qed.

(** [o1] is the host before the clean-up: the device and the directory are
    there, everything else is as at the start, or a mount is stuck. *)
Lemma failed_swept e tap vmDir o o1 :
  o_links o1 = {[tap]} ∪ o_links o → o_rules o1 = o_rules o → o_procs o1 = o_procs o →
  (e ≠ ErrWrap "prepare rootfs" → o_dirs o1 = {[vmDir]} ∪ o_dirs o ∧ o_mounts o1 = o_mounts o) →
  o_dirs o ⊆ o_dirs o1 →
  failed e tap vmDir o (swept vmDir tap o1).
Proof.
  intros Hl Hr Hp Hd Hsub. split; simpl; rewrite ?Hl; try done; [set_solver|set_solver| | |].
  - intros x Hx Hin Hxd. apply elem_of_difference.
    rewrite outside_elem, elem_of_singleton. auto.
  - intros He Hno Hout. destruct (Hd He) as [-> _]. apply set_eq. intros x.
    rewrite elem_of_difference, outside_elem, elem_of_union, elem_of_singleton.
    rewrite <- Hout at 2. rewrite outside_elem. split; [naive_solver|].
    intros [Hx Hin]. split_and!; [auto|done|]. intros ->. done.
  - intros He. by apply Hd.
Qed.

Lemma mounted_frame m o o' : mounted m o o' →
  o_links o' = o_links o ∧ o_rules o' = o_rules o ∧ o_procs o' = o_procs o ∧ o_dirs o ⊆ o_dirs o'.
Proof. intros [-> | ->]; simpl; split_and!; (done || set_solver). Qed.

Lemma wp_launchVM sid spec os :
  l_VMDir spec ∈ o_dirs (obs os) →
  wp (launchVM sid spec) (λ r os', launched (obs os) (obs os') r) os.
Proof.
  intros Hd. unfold launchVM. destruct (j_Enabled (c_Jailer cfg)).
  - by apply wp_LaunchJailed.
  - by apply wp_Launch.
Qed.

(** The outcomes of [createVM] on an allocator that made [n] attempts. *)
Definition created (inp : CreateIn) (p : Prefix) (n : Z) w (r : res GoErr nat) w' : Prop :=
  let g := grantAt p n in
  Reach p (n + 1) (w_alloc w') ∧
  match r with
  | Ok a => ∃ tok proc,
      n < capacity p ∧ ci_rand inp = Some tok ∧ a = fresh (dom (w_heap w)) ∧
      w_sessions w' = <[ci_uuid inp := a]> (w_sessions w) ∧
      w_heap w' = <[a := newSession (ci_uuid inp) (hexEncode tok) g proc (ci_now inp)]> (w_heap w) ∧
      al_in_use (w_alloc w') = <[g_ip g := true]> (al_in_use (w_alloc w)) ∧
      pr_pid proc ∉ o_procs (obs (w_os w)) ∧
      obs (w_os w') = grown (g_tap g) (vmDirOf (ci_uuid inp)) (pr_pid proc) (obs (w_os w))
  | Err e =>
      w_sessions w' = w_sessions w ∧ w_heap w' = w_heap w ∧
      al_in_use (w_alloc w') = al_in_use (w_alloc w) ∧
      failed e (g_tap g) (vmDirOf (ci_uuid inp)) (obs (w_os w)) (obs (w_os w'))
  end.

Lemma wp_allocM p n Q w :
  prefix_ok p → 0 ≤ n → Reach p n (w_alloc w) →
  (∀ al, Reach p (n + 1) al → n < capacity p →
     al_in_use al = <[g_ip (grantAt p n) := true]> (al_in_use (w_alloc w)) →
     al_in_use (w_alloc w) !! g_ip (grantAt p n) = None →
     Q (Ok (grantAt p n)) (mkWorld (w_os w) al (w_sessions w) (w_heap w))) →
  (∀ al, Reach p (n + 1) al → al_in_use al = al_in_use (w_alloc w) →
     Q (Err ErrNoFreeIPs) (mkWorld (w_os w) al (w_sessions w) (w_heap w))) →
  wp allocM Q w.
Proof.
  intros Hp Hn Hr Hok Herr. apply wp_intro. unfold allocM.
  destruct (Alloc_reach p n (w_alloc w) Hp Hn Hr) as (al & -> & Hr' & Hu).
  destruct (Z.ltb_spec n (capacity p)); [|by apply Herr]. apply Hok; [done..|].
  apply eq_None_not_Some. intros Hs. destruct (rc_used _ _ _ Hr _ Hs) as (z & [= <-] & ?). lia.
Qed.

Lemma created_err inp p n w e os' al :
  Reach p (n + 1) al →
  al_in_use al = <[g_ip (grantAt p n) := true]> (al_in_use (w_alloc w)) →
  al_in_use (w_alloc w) !! g_ip (grantAt p n) = None →
  failed e (g_tap (grantAt p n)) (vmDirOf (ci_uuid inp)) (obs (w_os w)) (obs os') →
  created inp p n w (Err e)
    (mkWorld os' (Release (g_ip (grantAt p n)) al) (w_sessions w) (w_heap w)).
Proof.
  intros Hr Hu Hno Hf. split; [by apply Release_reach|]. split_and!; [done|done| |done].
  cbn [w_alloc Release al_in_use]. by rewrite Hu, delete_insert_id.
Qed.

Lemma wp_provision inp p n w w1 tok :
  let g := grantAt p n in
  Reach p (n + 1) (w_alloc w1) → n < capacity p → ci_rand inp = Some tok →
  al_in_use (w_alloc w1) = <[g_ip g := true]> (al_in_use (w_alloc w)) →
  al_in_use (w_alloc w) !! g_ip g = None →
  w_sessions w1 = w_sessions w → w_heap w1 = w_heap w →
  obs (w_os w1) = mkObs ({[g_tap g]} ∪ o_links (obs (w_os w))) (o_rules (obs (w_os w)))
    ({[vmDirOf (ci_uuid inp)]} ∪ o_dirs (obs (w_os w))) (o_mounts (obs (w_os w)))
    (o_procs (obs (w_os w))) →
  wp (provision inp g (hexEncode tok)) (created inp p n w) w1.
Proof.
  destruct w1 as [os1 al se he]. cbn [w_os w_alloc w_sessions w_heap].
  intros Hr Hcap Htok Hu Hno -> -> Ho1. set (g := grantAt p n) in *. unfold provision.
  assert (∀ e, failed e (g_tap g) (vmDirOf (ci_uuid inp)) (obs (w_os w))
            (swept (vmDirOf (ci_uuid inp)) (g_tap g) (obs os1))) as Hswept.
  { intros e. rewrite Ho1. apply failed_swept; simpl; (done || set_solver). }
  apply wp_bind, wp_gets. destruct (readTokenFile _ _) as [token|].
  2:{ apply wp_bind, wp_cleanup. intros os3 Ho3. apply wp_ret, (created_err inp p n w); [done..|].
      rewrite Ho3. apply Hswept. }
  apply wp_bind, wp_gets, wp_bind, wp_gets, wp_bind, wp_liftOS.
  eapply wp_mono; [|apply wp_PrepareRootfs]. intros prepared os3 Hp3.
  cbn [w_os w_alloc w_sessions w_heap] in *. destruct prepared as [[]|].
  2:{ apply wp_bind, wp_cleanup. intros os4 Ho4. apply wp_ret, (created_err inp p n w); [done..|].
      rewrite Ho4. cbn [w_os]. destruct Hp3 as [->|[_ (m & os0 & _ & _ & Hmt%mounted_frame)]];
        [apply Hswept|]. destruct Hmt as (Hl & Hrl & Hpr & Hd). rewrite Ho1 in *.
      apply failed_swept; rewrite ?Hl, ?Hrl, ?Hpr; try done. simpl in Hd. set_solver. }
  destruct Hp3 as [Ho3|[? _]]; [|done]. apply wp_bind, wp_liftOS.
  eapply wp_mono; [|apply wp_launchVM; cbn [w_os]; rewrite Ho3, Ho1; simpl; set_solver].
  intros [proc|] os4 Hl4; unfold launched in Hl4; cbn [w_os w_alloc w_sessions w_heap] in *.
  2:{ apply wp_bind, wp_cleanup. intros os5 Ho5. apply wp_ret, (created_err inp p n w); [done..|].
      rewrite Ho5. cbn [w_os]. rewrite Hl4, Ho3. apply Hswept. }
  destruct Hl4 as [Hpid Ho4]. apply wp_bind, wp_registerM, wp_ret. split; [done|].
  exists tok, proc. cbn [w_os w_alloc w_sessions w_heap]. rewrite Ho3, Ho1 in Hpid, Ho4.
  split_and!; done.
Qed.

Lemma wp_createVM inp p n w :
  prefix_ok p → 0 ≤ n → Reach p n (w_alloc w) → wp (createVM inp) (created inp p n w) w.
Proof.
  intros Hp Hn Hr. unfold createVM. apply wp_bind, (wp_allocM p n); [done..| |].
  2:{ intros al Hr' Hu. apply wp_ret. split; [done|]. split_and!; [done..|apply failed_same]. }
  intros al Hr' Hcap Hu Hno. set (g := grantAt p n) in *.
  apply wp_bind, wp_liftOS. eapply wp_mono; [|apply wp_CreateTAP]. intros tapped os1 [Hin Hob].
  cbn [w_os] in Hob.
  destruct tapped as [[]|]; cbn [w_alloc w_sessions w_heap].
  2:{ apply wp_bind, wp_releaseM, wp_ret. apply (created_err inp p n w); [done..|].
      cbn [w_os]. destruct Hob as [->| ->]; [apply failed_same|]. split; simpl; (done || set_solver). }
  assert (obs os1 = set_links ({[g_tap g]} ∪ o_links (obs (w_os w))) (obs (w_os w))) as Ho1.
  { destruct Hob as [Hob|Hob]; [|exact Hob]. specialize (Hin eq_refl). rewrite Hob in *.
    destruct (obs (w_os w)); unfold set_links; simpl in *. f_equal. set_solver. }
  clear Hin Hob. destruct (ci_rand inp) as [tok|] eqn:Etok.
  2:{ apply wp_bind, wp_liftOS, wp_DeleteTAP. intros os2 Ho2. apply wp_bind, wp_releaseM, wp_ret.
      apply (created_err inp p n w); [done..|]. cbn [w_os] in *. rewrite Ho2.
      by apply failed_untap. }
  apply wp_bind, wp_liftOS, wp_mkdirAll. intros made os2 Ho2. cbn [w_os w_alloc w_sessions w_heap] in *.
  destruct made; cbn [negb].
  - apply wp_provision; cbn [w_os w_alloc w_sessions w_heap]; try done. by rewrite Ho2, Ho1.
  - apply wp_bind, wp_liftOS, wp_DeleteTAP. intros os3 Ho3. apply wp_bind, wp_releaseM, wp_ret.
    apply (created_err inp p n w); [done..|]. cbn [w_os] in *. rewrite Ho3, Ho2.
    by apply failed_untap.
Qed.

(** The host once a session's resources are gone. *)
Definition razed (tap vmDir : string) (pid : Z) (o : Obs) : Obs :=
  mkObs (o_links o ∖ {[tap]}) (o_rules o) (outside vmDir (o_dirs o) ∖ {[vmDir]}) (o_mounts o)
    (o_procs o ∖ {[pid]}).

Lemma wp_Destroy id a s pid Q w :
  w_sessions w !! id = Some a → w_heap w !! a = Some s →
  s_done s = SigOpen → s_doneOnce s = false → s_Process s = Some pid →
  (∀ os', obs os' = razed (s_Tap s) (s_VmDir s) pid (obs (w_os w)) →
     Q (Ok tt) (mkWorld os' (Release (s_IP s) (w_alloc w)) (delete id (w_sessions w))
                  (<[a := with_done SigClosed true s]> (w_heap w)))) →
  wp (Destroy id) Q w.
Proof.
  intros Hid Ha Hd Ho Hp HQ. unfold Destroy. apply wp_bind, wp_gets. unfold Get. rewrite Hid.
  apply wp_bind, wp_unregisterM, wp_bind, wp_gets. cbn [w_heap]. rewrite Ha.
  assert (CloseDone s = Some (with_done SigClosed true s)) as ->.
  { unfold CloseDone. by rewrite Hd, Ho. }
  apply wp_bind, wp_storeM. rewrite Hp.
  apply wp_bind, wp_liftOS, wp_stopProc. intros os1 Ho1.
  apply wp_bind, wp_liftOS, wp_DeleteTAP. intros os2 Ho2.
  apply wp_bind, wp_releaseM.
  apply wp_bind, wp_liftOS, wp_removeAll. intros os3 Ho3.
  apply wp_ret. cbn [w_os w_alloc w_sessions w_heap] in *. apply HQ.
  rewrite Ho3, Ho2, Ho1. done.
Qed.

Lemma wp_Destroy_missing id Q w :
  w_sessions w !! id = None → Q (Err ErrNotFound) w → wp (Destroy id) Q w.
Proof.
  intros Hid HQ. unfold Destroy. apply wp_bind, wp_gets. unfold Get. rewrite Hid. by apply wp_ret.
Qed.

End Manager.
