(* ===== verification/Vsock.v ===== *)
(** The accept loop of the guest channel, [startVsockListener] of
    control-plane/internal/session/vsock_listener.go: one goroutine per
    session that listens on a unix socket, starts a handler per connection
    (Session.v has the handlers) and ends with the session. *)
From S2P Require Import Prelude GoLib NetAlloc Session Manager.
Open Scope Z_scope.

Inductive ListenPC :=
| LStart                         (* about to remove a stale socket and listen *)
| LCheck                         (* top of the loop: is the session done? *)
| LAccept (deadline : Z)
| LRemove                        (* the deferred calls, last first *)
| LCloseLn
| LEnd.

Record Listener := mkListener {
  l_session : Session;
  l_addr : string;
  l_files : gset string;          (* the sockets on disk *)
  l_open : bool;                  (* the listener accepts *)
  l_conns : list nat;             (* the connections handed to handlers *)
  l_pc : ListenPC
}.

Definition acceptTimeout : Z := 2 * second.
Definition socketAddr (udsPath : string) : string := udsPath +:+ "_" +:+ itoa guestVsockPort.

Definition setL (files : gset string) (op : bool) (conns : list nat) (pc : ListenPC) (l : Listener) : Listener :=
  mkListener (l_session l) (l_addr l) files op conns pc.

(** How [Accept] returned. *)
Inductive Accepted := AcConn (c : nat) | AcTimeout | AcClosed | AcError.

Inductive LLabel :=
| LListen (ok : bool)             (* [net.Listen] *)
| LLoop (now : Z)                 (* the check, and the next deadline *)
| LAcc (now : Z) (r : Accepted)
| LStep
| LDone.                          (* the session ends *)

Definition lstep (x : LLabel) (l : Listener) : option Listener :=
  match l_pc l, x with
  | _, LDone => match CloseDone (l_session l) with
                | Some s => Some (mkListener s (l_addr l) (l_files l) (l_open l) (l_conns l) (l_pc l))
                | None => None
                end
  | LStart, LListen ok =>
    let files := l_files l ∖ {[l_addr l]} in
    Some (if ok then setL ({[l_addr l]} ∪ files) true (l_conns l) LCheck l
          else setL files (l_open l) (l_conns l) LEnd l)
  | LCheck, LLoop now =>
    Some (setL (l_files l) (l_open l) (l_conns l)
            (if bool_decide (s_done (l_session l) = SigClosed) then LRemove else LAccept (now + acceptTimeout)) l)
  | LAccept d, LAcc now r =>
    match r with
    | AcConn c => if now <=? d then Some (setL (l_files l) (l_open l) (l_conns l ++ [c]) LCheck l) else None
    | AcTimeout => if d <=? now then Some (setL (l_files l) (l_open l) (l_conns l) LCheck l) else None
    | AcClosed => if l_open l then None else Some (setL (l_files l) (l_open l) (l_conns l) LRemove l)
    | AcError => Some (setL (l_files l) (l_open l) (l_conns l) LCheck l)
    end
  | LRemove, LStep => Some (setL (l_files l ∖ {[l_addr l]}) (l_open l) (l_conns l) LCloseLn l)
  | LCloseLn, LStep => Some (setL (l_files l) false (l_conns l) LEnd l)
  | _, _ => None
  end.

Fixpoint lsteps (xs : list LLabel) (l : Listener) : option Listener :=
  match xs with
  | [] => Some l
  | x :: xs' => match lstep x l with Some l' => lsteps xs' l' | None => None end
  end.

(** A listener about to start. *)
Definition listenerStart (s : Session) (udsPath : string) (files : gset string) : Listener :=
  mkListener s (socketAddr udsPath) files false [] LStart.

(** ** Lemmas *)

(** The socket exists exactly while the loop may accept on it. *)
Record LInv (l : Listener) : Prop := {
  li_file : match l_pc l with
            | LCheck | LAccept _ | LRemove => l_addr l ∈ l_files l ∧ l_open l = true
            | LCloseLn => l_addr l ∉ l_files l
            | LEnd => l_addr l ∉ l_files l ∧ l_open l = false
            | LStart => l_open l = false
            end
}.

Lemma lstep_inv x l l' : LInv l → lstep x l = Some l' → LInv l'.
Proof.
  intros [Hf] Hs. unfold lstep in Hs.
  destruct x as [ok|now|now r| |]; destruct (l_pc l) eqn:Hpc; try done;
    try (destruct (CloseDone (l_session l)); [|done]; injection Hs as <-; split; done).
  - destruct ok; injection Hs as <-; split; simpl; [split; [set_solver|done]|split; [set_solver|done]].
  - injection Hs as <-. split. simpl. by case_bool_decide.
  - destruct r; repeat case_match; simplify_eq; split; simpl; try done.
  - injection Hs as <-. split. simpl. set_solver.
  - injection Hs as <-. by split.
Qed.

Lemma lsteps_inv xs : ∀ l l', LInv l → lsteps xs l = Some l' → LInv l'.
Proof.
  induction xs as [|x xs IH]; intros l l' Hl; simpl; [by intros [= <-]|].
  destruct (lstep x l) as [l1|] eqn:E; [|done]. apply IH. by eapply lstep_inv.
Qed.

Definition lrank (pc : ListenPC) : nat :=
  match pc with LStart => 5 | LAccept _ => 4 | LCheck => 3 | LRemove => 2 | LCloseLn => 1 | LEnd => 0 end.

(** Once the session is done every step of the loop itself brings it closer
    to its end. *)
Lemma done_closer x l l' : s_done (l_session l) = SigClosed → x ≠ LDone → lstep x l = Some l' →
  (lrank (l_pc l') < lrank (l_pc l))%nat ∧ s_done (l_session l') = SigClosed.
Proof.
  intros Hd Hx Hs. unfold lstep in Hs.
  destruct x as [ok|now|now r| |]; destruct (l_pc l) eqn:Hpc; try done.
  - destruct ok; injection Hs as <-; simpl; (split; [lia|done]).
  - rewrite bool_decide_true in Hs by done. injection Hs as <-. simpl. split; [lia|done].
  - destruct r; repeat case_match; simplify_eq; simpl; (split; [lia|done]).
  - injection Hs as <-. simpl. split; [lia|done].
  - injection Hs as <-. simpl. split; [lia|done].
Qed.

(** How many connections the loop may still accept. *)
Definition budget (pc : ListenPC) : nat := match pc with LStart | LAccept _ => 1 | _ => 0 end.

Lemma done_conns x l l' : s_done (l_session l) = SigClosed → lstep x l = Some l' →
  (length (l_conns l') + budget (l_pc l') ≤ length (l_conns l) + budget (l_pc l))%nat.
Proof.
  intros Hd Hs. unfold lstep in Hs.
  destruct x as [ok|now|now r| |]; destruct (l_pc l) eqn:Hpc; try done;
    try (destruct (CloseDone (l_session l)); [|done]; injection Hs as <-; simpl; lia);
    try rewrite bool_decide_true in Hs by done;
    repeat case_match; simplify_eq; simpl; rewrite ?length_app; simpl; lia.
Qed.

Lemma done_run ys : ∀ l l', s_done (l_session l) = SigClosed → Forall (λ y, y ≠ LDone) ys → lsteps ys l = Some l' →
  (lrank (l_pc l') + length ys ≤ lrank (l_pc l))%nat ∧
  (length (l_conns l') + budget (l_pc l') ≤ length (l_conns l) + budget (l_pc l))%nat.
Proof.
  induction ys as [|y ys IH]; intros l l' Hd Hys; simpl; [intros [= <-]; lia|].
  apply Forall_cons in Hys as [Hy Hys]. destruct (lstep y l) as [l1|] eqn:Es; [|done]. intros Hrun.
  destruct (done_closer y l l1 Hd Hy Es) as [Hlt Hd1]. destruct (IH l1 l' Hd1 Hys Hrun) as [IH1 IH2].
  pose proof (done_conns y l l1 Hd Es). lia.
Qed.

Lemma loop_moves l now : (∀ d, l_pc l = LAccept d → d ≤ now) → l_pc l ≠ LEnd → ∃ x l', x ≠ LDone ∧ lstep x l = Some l'.
Proof.
  intros Hd Hne. unfold lstep. destruct (l_pc l) as [| |d| | |] eqn:Hpc; try done.
  - exists (LListen true). eauto.
  - exists (LLoop now). eauto.
  - exists (LAcc now AcTimeout). rewrite (proj2 (Z.leb_le d now)) by auto. eauto.
  - exists LStep. eauto.
  - exists LStep. eauto.
Qed.

(** ** Properties *)


(** ** A session with one guest that ends *)

Definition demoListen : list LLabel :=
  [LListen true; LLoop 0; LAcc 1 (AcConn 7); LLoop 1; LDone].

