(* ===== verification/Ownership.v ===== *)
(** Who owns what: the accounting of the session manager (Manager.v) over
    whole histories of [Create] and [Destroy], with every failure the host
    can produce in between. *)
From S2P Require Import Prelude GoLib NetAlloc Session Config HostOS Network Rootfs Launch Manager.
Open Scope Z_scope.

(** What a live session owns: its heap cell, the number of its grant, its
    process. *)
Record Live := mkLive { lv_addr : nat; lv_k : Z; lv_pid : Z }.

Definition ipAt (p : Prefix) (k : Z) : Addr := A4 (netLow p + 2 + k).

(** [S] is [B] and what [f] says the live sessions own, and nothing else. *)
Definition exactly {A} `{Countable A} (G : gmap string Live) (f : string → Live → A)
    (B S : gset A) : Prop :=
  ∀ x, x ∈ S ↔ x ∈ B ∨ ∃ id l, G !! id = Some l ∧ f id l = x.

(** Two live sessions own the same thing only if they are the same. *)
Definition separate {A} (G : gmap string Live) (f : string → Live → A) : Prop :=
  ∀ i j l m, G !! i = Some l → G !! j = Some m → f i l = f j m → i = j.

Section exactly.
Context {A : Type} `{Countable A} (f : string → Live → A).
Implicit Types (G : gmap string Live) (B S : gset A).

Lemma exactly_insert G B S id l :
  G !! id = None → exactly G f B S → exactly (<[id := l]> G) f B ({[f id l]} ∪ S).
Proof.
  intros Hno HS x. rewrite elem_of_union, elem_of_singleton, (HS x). split.
  - intros [->|[?|(j & m & Hj & <-)]]; [|by left|].
    + right. exists id, l. by rewrite lookup_insert_eq.
    + right. exists j, m. rewrite lookup_insert_ne by congruence. done.
  - intros [?|(j & m & Hj & <-)]; [by auto|].
    apply lookup_insert_Some in Hj as [[<- <-]|[_ Hj]]; [by auto|]. eauto 10.
Qed.

Lemma exactly_delete G B S id l :
  G !! id = Some l → separate G f → f id l ∉ B → exactly G f B S →
  exactly (delete id G) f B (S ∖ {[f id l]}).
Proof.
  intros Hid Hsep HB HS x. rewrite elem_of_difference, elem_of_singleton, (HS x). split.
  - intros [[?|(j & m & Hj & <-)] Hne]; [by auto|].
    right. exists j, m. rewrite lookup_delete_ne; [done|]. intros <-. simplify_eq.
  - intros [?|(j & m & [Hne Hj]%lookup_delete_Some & <-)]; [split; [by auto|congruence]|].
    split; [eauto 10|]. intros Heq. by apply Hne, (Hsep id j l m).
Qed.

Lemma separate_insert G id l :
  (∀ j m, G !! j = Some m → f j m ≠ f id l) → separate G f → separate (<[id := l]> G) f.
Proof.
  intros Hnew Hsep i j l1 l2 Hi Hj Heq.
  apply lookup_insert_Some in Hi as [[<- <-]|[Hi1 Hi]], Hj as [[<- <-]|[Hj1 Hj]]; try done.
  - by destruct (Hnew j l2 Hj).
  - by destruct (Hnew i l1 Hi).
  - eauto.
Qed.

Lemma separate_delete G id : separate G f → separate (delete id G) f.
Proof.
  intros Hsep i j l m [_ Hi]%lookup_delete_Some [_ Hj]%lookup_delete_Some. eauto.
Qed.

End exactly.

(** ** The invariant *)

Definition isSlash (c : ascii) : bool := bool_decide (c = "/"%char).
Definition noSlash (s : string) : bool := allChars (λ c, negb (isSlash c)) s.

Lemma tapOf_inj i j : tapOf i = tapOf j → i = j.
Proof. unfold tapOf. intros H. by simplify_eq. Qed.

Lemma prefix_cons c d (s t : string) :
  hasPrefix (String c s) (String d t) = bool_decide (c = d) && hasPrefix s t.
Proof.
  unfold hasPrefix. cbn [String.prefix].
  destruct (ascii_dec c d); [by rewrite bool_decide_true|by rewrite bool_decide_false].
Qed.

Lemma noSlash_prefix a b : hasPrefix (a +:+ "/") b = true → noSlash b = false.
Proof.
  unfold noSlash. revert b. induction a as [|c a IH]; intros [|d b] Hb; try done.
  - change ("" +:+ "/") with (String "/"%char "") in Hb. rewrite prefix_cons in Hb.
    apply andb_true_iff in Hb as [<-%bool_decide_eq_true _]. done.
  - rewrite str_app_cons, prefix_cons in Hb. apply andb_true_iff in Hb as [_ Hb].
    cbn [allChars]. by rewrite (IH b Hb), andb_false_r.
Qed.

Lemma prefix_strip d a b : hasPrefix (d +:+ a) (d +:+ b) = hasPrefix a b.
Proof.
  induction d as [|c d IH]; [done|]. rewrite !str_app_cons, prefix_cons.
  by rewrite bool_decide_true.
Qed.

Section Ownership.
Context {OS : Type} `{!HostOS OS, !HostOSLaws OS}.
Variable cfg : Config.
Implicit Types w : World OS.

Lemma str_app_inj (d a b : string) : d +:+ a = d +:+ b → a = b.
Proof. induction d as [|c d IH]; [done|]. rewrite !str_app_cons. intros [= ?]. auto. Qed.

Lemma vmDirOf_inj a b : vmDirOf cfg a = vmDirOf cfg b → a = b.
Proof. unfold vmDirOf, joinPath. by intros ?%str_app_inj%str_app_inj. Qed.

Lemma vmDirOf_inside a b : noSlash b = true → inside (vmDirOf cfg a) (vmDirOf cfg b) = false.
Proof.
  intros Hb. unfold inside, vmDirOf, joinPath. rewrite !str_app_assoc, !prefix_strip.
  destruct (hasPrefix (a +:+ "/") b) eqn:E; [|done]. apply noSlash_prefix in E. congruence.
Qed.

(** No directory of the host is the session's, or inside it. *)
Definition freshDir (base : Obs) (id : string) : Prop :=
  vmDirOf cfg id ∉ o_dirs base ∧ ∀ x, x ∈ o_dirs base → inside (vmDirOf cfg id) x = false.

Record cellOK (p : Prefix) (id : string) (l : Live) (s : Session) : Prop := {
  ce_id : s_ID s = id;
  ce_ip : s_IP s = ipAt p (lv_k l);
  ce_tap : s_Tap s = tapOf (lv_k l + 1);
  ce_proc : s_Process s = Some (lv_pid l);
  ce_dir : s_VmDir s = vmDirOf cfg id;
  ce_done : s_done s = SigOpen;
  ce_once : s_doneOnce s = false
}.

Abbreviation tapF := (λ (_ : string) l, tapOf (lv_k l + 1)).
Abbreviation dirF := (λ id (_ : Live), vmDirOf cfg id).
Abbreviation pidF := (λ (_ : string) l, lv_pid l).

(** [clean] says that no [Create] failed in a way that leaves something on
    the host. *)
Record Inv (base : Obs) (clean : bool) (p : Prefix) (n : Z) (G : gmap string Live) w : Prop := {
  iv_reach : Reach p n (w_alloc w);
  iv_sess : w_sessions w = lv_addr <$> G;
  iv_size : Z.of_nat (size G) ≤ Z.max 0 (c_MaxConcurrent cfg);
  iv_cells : ∀ id l, G !! id = Some l →
    noSlash id = true ∧ 0 ≤ lv_k l < n ∧ lv_pid l ∉ o_procs base ∧
    ∃ s, w_heap w !! lv_addr l = Some s ∧ cellOK p id l s;
  iv_addr : separate G (λ _ l, lv_addr l);
  iv_k : separate G (λ _ l, lv_k l);
  iv_pid : separate G pidF;
  iv_procs : exactly G pidF (o_procs base) (o_procs (obs (w_os w)));
  iv_used : exactly G (λ _ l, ipAt p (lv_k l)) ∅ (dom (al_in_use (w_alloc w)));
  iv_links : ∀ id l, G !! id = Some l → tapF id l ∈ o_links (obs (w_os w));
  iv_dirs : ∀ id l, G !! id = Some l → dirF id l ∈ o_dirs (obs (w_os w));
  iv_newtap : ∀ k, n ≤ k → tapOf (k + 1) ∉ o_links (obs (w_os w));
  iv_basetap : ∀ k, 0 ≤ k → tapOf (k + 1) ∉ o_links base;
  iv_rules : o_rules (obs (w_os w)) = o_rules base;
  iv_clean : clean = true →
    exactly G tapF (o_links base) (o_links (obs (w_os w))) ∧
    exactly G dirF (o_dirs base) (o_dirs (obs (w_os w))) ∧
    o_mounts (obs (w_os w)) = o_mounts base ∧
    ∀ id l, G !! id = Some l → freshDir base id
}.

(** The two failures that [Create] does not clean up after. *)
Definition leaves (e : GoErr) : bool :=
  bool_decide (e = ErrWrap "create tap") || bool_decide (e = ErrWrap "prepare rootfs").

Lemma separate_tap G : separate G (λ _ l, lv_k l) → separate G tapF.
Proof. intros H i j l m Hi Hj Heq%tapOf_inj. apply (H i j l m); [done..|lia]. Qed.

Lemma separate_ip p G : separate G (λ _ l, lv_k l) → separate G (λ _ l, ipAt p (lv_k l)).
Proof. intros H i j l m Hi Hj [= Heq]. apply (H i j l m); [done..|lia]. Qed.

Lemma separate_dir G : separate G dirF.
Proof. intros i j l m _ _ ?%vmDirOf_inj. done. Qed.

(** *** Create *)

Lemma clean_fresh base p n G w id :
  Inv base true p n G w → noSlash id = true → G !! id = None → freshDir base id →
  vmDirOf cfg id ∉ o_dirs (obs (w_os w)) ∧
  outside (vmDirOf cfg id) (o_dirs (obs (w_os w))) = o_dirs (obs (w_os w)).
Proof.
  intros Hinv Hid Hno [Hf1 Hf2]. destruct (iv_clean _ _ _ _ _ _ Hinv eq_refl) as (_ & Hd & _ & _).
  split.
  - rewrite (Hd _). intros [?|(j & l & Hj & Heq%vmDirOf_inj)]; [done|congruence].
  - apply outside_id. intros x [?|(j & l & Hj & <-)]%Hd; [auto|].
    apply vmDirOf_inside. by destruct (iv_cells _ _ _ _ _ _ Hinv j l Hj) as [? _].
Qed.

Lemma Inv_failed base clean p n G w w' e id :
  Inv base clean p n G w → noSlash id = true → G !! id = None →
  (clean = true → freshDir base id) →
  Reach p (n + 1) (w_alloc w') → w_sessions w' = w_sessions w → w_heap w' = w_heap w →
  al_in_use (w_alloc w') = al_in_use (w_alloc w) →
  failed e (tapOf (n + 1)) (vmDirOf cfg id) (obs (w_os w)) (obs (w_os w')) →
  Inv base (clean && negb (leaves e)) p (n + 1) G w'.
Proof.
  intros Hinv Hid Hno Hfr Hr Hs Hh Hu Hf.
  assert (∀ k, k ≠ n → tapOf (k + 1) ∈ o_links (obs (w_os w')) ↔
                       tapOf (k + 1) ∈ o_links (obs (w_os w))) as Hlk.
  { intros k Hk. pose proof (fl_links _ _ _ _ _ Hf) as Hl.
    assert (tapOf (k + 1) ≠ tapOf (n + 1)) by (intros ?%tapOf_inj; lia). set_solver. }
  split; rewrite ?Hs, ?Hh, ?Hu, ?(fl_procs _ _ _ _ _ Hf), ?(fl_rules _ _ _ _ _ Hf);
    try (by apply Hinv).
  - done.
  - intros j l Hj. destruct (iv_cells _ _ _ _ _ _ Hinv j l Hj) as (?&?&?&?). split_and!; [done|lia..|done|done].
  - intros j l Hj. destruct (iv_cells _ _ _ _ _ _ Hinv j l Hj) as (_&?&_).
    apply Hlk; [lia|]. by apply (iv_links _ _ _ _ _ _ Hinv j).
  - intros j l Hj. apply (fl_keep _ _ _ _ _ Hf).
    + intros ?%vmDirOf_inj. congruence.
    + apply vmDirOf_inside. by destruct (iv_cells _ _ _ _ _ _ Hinv j l Hj) as [? _].
    + by apply (iv_dirs _ _ _ _ _ _ Hinv j l).
  - intros k Hk. rewrite Hlk by lia. apply (iv_newtap _ _ _ _ _ _ Hinv). lia.
  - intros [-> Hlv%negb_true_iff]%andb_true_iff.
    unfold leaves in Hlv. apply orb_false_iff in Hlv as [He1 He2].
    apply bool_decide_eq_false in He1, He2.
    destruct (clean_fresh _ _ _ _ _ _ Hinv Hid Hno (Hfr eq_refl)) as [Hd1 Hd2].
    destruct (iv_clean _ _ _ _ _ _ Hinv eq_refl) as (Hc1 & Hc2 & Hc3 & Hc4).
    rewrite (fl_tap _ _ _ _ _ Hf He1), (fl_dirs _ _ _ _ _ Hf He2), (fl_mounts _ _ _ _ _ Hf He2)
      by (done || (apply (iv_newtap _ _ _ _ _ _ Hinv); lia)). done.
Qed.

Lemma Inv_fresh_addr base clean p n G w id l :
  Inv base clean p n G w → G !! id = Some l → lv_addr l ≠ fresh (dom (w_heap w)).
Proof.
  intros Hinv Hid Heq. destruct (iv_cells _ _ _ _ _ _ Hinv id l Hid) as (_&_&_& s & Hs & _).
  apply (is_fresh (dom (w_heap w))). rewrite <- Heq. by apply elem_of_dom.
Qed.

Lemma Inv_created base clean p n G w w' id tok proc now :
  let a := fresh (dom (w_heap w)) in
  Inv base clean p n G w → 0 ≤ n → noSlash id = true → G !! id = None →
  (clean = true → freshDir base id) →
  Z.of_nat (size (w_sessions w)) < c_MaxConcurrent cfg →
  Reach p (n + 1) (w_alloc w') →
  w_sessions w' = <[id := a]> (w_sessions w) →
  w_heap w' = <[a := newSession cfg id tok (grantAt p n) proc now]> (w_heap w) →
  al_in_use (w_alloc w') = <[ipAt p n := true]> (al_in_use (w_alloc w)) →
  pr_pid proc ∉ o_procs (obs (w_os w)) →
  obs (w_os w') = grown (tapOf (n + 1)) (vmDirOf cfg id) (pr_pid proc) (obs (w_os w)) →
  Inv base clean p (n + 1) (<[id := mkLive a n (pr_pid proc)]> G) w'.
Proof.
  intros a Hinv Hn Hid Hno Hfr Hcap Hr Hs Hh Hu Hp Ho.
  set (l0 := mkLive a n (pr_pid proc)).
  assert (∀ j m, G !! j = Some m → lv_addr m ≠ a ∧ lv_k m < n ∧ lv_pid m ≠ pr_pid proc) as Hold.
  { intros j m Hj. split_and!; [by apply (Inv_fresh_addr _ _ _ _ _ _ _ _ Hinv Hj)| |].
    - destruct (iv_cells _ _ _ _ _ _ Hinv j m Hj) as (_ & ? & _). lia.
    - intros Heq. apply Hp, (iv_procs _ _ _ _ _ _ Hinv). rewrite <- Heq. eauto 10. }
  assert (pr_pid proc ∉ o_procs base) as Hpb.
  { intros ?. apply Hp, (iv_procs _ _ _ _ _ _ Hinv). auto. }
  split; rewrite ?Hs, ?Hh, ?Hu, ?Ho; simpl o_links; simpl o_dirs; simpl o_procs; simpl o_rules;
    simpl o_mounts; try (by apply Hinv).
  - done.
  - by rewrite fmap_insert, (iv_sess _ _ _ _ _ _ Hinv).
  - rewrite map_size_insert_None by done.
    rewrite (iv_sess _ _ _ _ _ _ Hinv), map_size_fmap in Hcap. lia.
  - intros j m [[<- <-]|[Hne Hj]]%lookup_insert_Some.
    + split_and!; [done|simpl; lia..|done|].
      eexists. rewrite lookup_insert_eq. split; [done|]. by split.
    + destruct (iv_cells _ _ _ _ _ _ Hinv j m Hj) as (?&?&?&s&Hs'&?). split_and!; [done|lia..|done|].
      exists s. rewrite lookup_insert_ne; [done|]. intros ->. by destruct (Hold j m Hj).
  - apply separate_insert; [intros j m Hj; by apply (Hold j m)|apply Hinv].
  - apply separate_insert; [|apply Hinv]. intros j m Hj. destruct (Hold j m Hj). simpl. lia.
  - apply separate_insert; [intros j m Hj; by apply (Hold j m)|apply Hinv].
  - apply (exactly_insert pidF); [done|apply Hinv].
  - rewrite dom_insert_L. apply (exactly_insert (λ _ l, ipAt p (lv_k l)) _ _ _ id l0); [done|apply Hinv].
  - intros j m [[<- <-]|[Hne Hj]]%lookup_insert_Some; [simpl; set_solver|].
    apply elem_of_union_r. by apply (iv_links _ _ _ _ _ _ Hinv j m).
  - intros j m [[<- <-]|[Hne Hj]]%lookup_insert_Some; [simpl; set_solver|].
    apply elem_of_union_r. by apply (iv_dirs _ _ _ _ _ _ Hinv j m).
  - intros k Hk [Heq%elem_of_singleton%tapOf_inj|Hin]%elem_of_union; [lia|].
    revert Hin. apply (iv_newtap _ _ _ _ _ _ Hinv). lia.
  - intros ->. destruct (iv_clean _ _ _ _ _ _ Hinv eq_refl) as (Hc1 & Hc2 & Hc3 & Hc4).
    split_and!; [by apply (exactly_insert tapF _ _ _ id l0)|by apply (exactly_insert dirF _ _ _ id l0)|done|].
    intros j m [[<- _]|[_ Hj]]%lookup_insert_Some; eauto.
Qed.

Lemma wp_Create_Inv base clean p n G inp w :
  prefix_ok p → 0 ≤ n → Inv base clean p n G w →
  noSlash (ci_uuid inp) = true → G !! ci_uuid inp = None →
  (clean = true → freshDir base (ci_uuid inp)) →
  wp (Create cfg inp) (λ r w',
    ∃ n' G', n ≤ n' ∧
      match r with
      | Ok a => (∃ l, lv_addr l = a ∧ G' = <[ci_uuid inp := l]> G) ∧ Inv base clean p n' G' w'
      | Err e => G' = G ∧ Inv base (clean && negb (leaves e)) p n' G' w'
      end) w.
Proof.
  intros Hp Hn Hinv Hid Hno Hfr. unfold Create. apply wp_bind, wp_gets.
  destruct (atCapacity cfg w) eqn:Ecap.
  - apply wp_ret. exists n, G. split_and!; [lia|done|]. simpl. by rewrite andb_true_r.
  - assert (Z.of_nat (size (w_sessions w)) < c_MaxConcurrent cfg) as Hcap
      by (unfold atCapacity in Ecap; lia).
    eapply wp_mono; [|apply (wp_createVM cfg inp p n); [done..|apply Hinv]].
    intros [a|e] w' [Hr Hc]; cbn zeta in Hc.
    + destruct Hc as (tok & proc & _ & _ & -> & Hs & Hh & Hu & Hpid & Ho).
      exists (n + 1), (<[ci_uuid inp := mkLive (fresh (dom (w_heap w))) n (pr_pid proc)]> G).
      split_and!; [lia|by eexists (mkLive _ n (pr_pid proc))|].
      by apply (Inv_created base clean p n G w w' _ (hexEncode tok) proc (ci_now inp)).
    + destruct Hc as (Hs & Hh & Hu & Hf). exists (n + 1), G. split_and!; [lia|done|].
      by eapply Inv_failed.
Qed.

(** *** Destroy *)

Lemma Inv_destroyed base clean p n G w id l s os' :
  Inv base clean p n G w → G !! id = Some l → w_heap w !! lv_addr l = Some s → cellOK p id l s →
  obs os' = razed (tapOf (lv_k l + 1)) (vmDirOf cfg id) (lv_pid l) (obs (w_os w)) →
  Inv base clean p n (delete id G)
    (mkWorld os' (Release (ipAt p (lv_k l)) (w_alloc w)) (delete id (w_sessions w))
       (<[lv_addr l := with_done SigClosed true s]> (w_heap w))).
Proof.
  intros Hinv Hid Hs Hc Ho. destruct (iv_cells _ _ _ _ _ _ Hinv id l Hid) as (Hsl & Hk & Hpb & _).
  pose proof (separate_tap _ (iv_k _ _ _ _ _ _ Hinv)) as Hst.
  split; cbn [w_os w_alloc w_sessions w_heap]; rewrite ?Ho; simpl o_links; simpl o_dirs;
    simpl o_procs; simpl o_rules; simpl o_mounts; try (by apply Hinv).
  - apply Release_reach, Hinv.
  - by rewrite fmap_delete, (iv_sess _ _ _ _ _ _ Hinv).
  - pose proof (iv_size _ _ _ _ _ _ Hinv). rewrite map_size_delete, Hid. lia.
  - intros j m [Hne Hj]%lookup_delete_Some.
    destruct (iv_cells _ _ _ _ _ _ Hinv j m Hj) as (?&?&?&s'&Hs'&?). split_and!; [done|lia..|done|].
    exists s'. rewrite lookup_insert_ne; [done|]. intros Heq.
    by apply Hne, (iv_addr _ _ _ _ _ _ Hinv id j l m).
  - apply separate_delete, Hinv.
  - apply separate_delete, Hinv.
  - apply separate_delete, Hinv.
  - apply (exactly_delete pidF); [done|apply Hinv|done|apply Hinv].
  - cbn [Release al_in_use]. rewrite dom_delete_L.
    apply (exactly_delete (λ _ l, ipAt p (lv_k l)) _ _ _ id l); [done| |set_solver|apply Hinv].
    apply separate_ip, Hinv.
  - intros j m [Hne Hj]%lookup_delete_Some. apply elem_of_difference.
    split; [by apply (iv_links _ _ _ _ _ _ Hinv j m)|].
    intros Heq%elem_of_singleton. by apply Hne, (Hst id j l m).
  - intros j m [Hne Hj]%lookup_delete_Some. destruct (iv_cells _ _ _ _ _ _ Hinv j m Hj) as [Hj1 _].
    apply elem_of_difference. rewrite outside_elem, elem_of_singleton. split_and!.
    + by apply (iv_dirs _ _ _ _ _ _ Hinv j m).
    + by apply vmDirOf_inside.
    + intros ?%vmDirOf_inj. congruence.
  - intros k Hk' [? _]%elem_of_difference. by apply (iv_newtap _ _ _ _ _ _ Hinv k).
  - intros ->. destruct (iv_clean _ _ _ _ _ _ Hinv eq_refl) as (Hc1 & Hc2 & Hc3 & Hc4).
    destruct (Hc4 id l Hid) as [Hf1 Hf2]. split_and!.
    + apply (exactly_delete tapF); [done|done| |done]. apply (iv_basetap _ _ _ _ _ _ Hinv). lia.
    + rewrite (outside_id _ (o_dirs _)).
      * apply (exactly_delete dirF _ _ _ id l); [done|apply separate_dir|done|done].
      * intros x [?|(j & m & Hj & <-)]%Hc2; [auto|].
        apply vmDirOf_inside. by destruct (iv_cells _ _ _ _ _ _ Hinv j m Hj) as [? _].
    + done.
    + intros j m [_ Hj]%lookup_delete_Some. eauto.
Qed.

Lemma wp_Destroy_Inv base clean p n G id w :
  Inv base clean p n G w →
  wp (Destroy id) (λ r w',
    r = (if decide (is_Some (G !! id)) then Ok tt else Err ErrNotFound) ∧
    Inv base clean p n (delete id G) w') w.
Proof.
  intros Hinv. destruct (G !! id) as [l|] eqn:Hid.
  - destruct (iv_cells _ _ _ _ _ _ Hinv id l Hid) as (_ & _ & _ & s & Hs & Hc).
    eapply wp_Destroy; [|exact Hs|apply Hc..|].
    + by rewrite (iv_sess _ _ _ _ _ _ Hinv), lookup_fmap, Hid.
    + intros os' Ho. split; [by rewrite decide_True by eauto|].
      rewrite (ce_tap _ _ _ _ Hc), (ce_dir _ _ _ _ Hc), (ce_ip _ _ _ _ Hc) in *.
      by apply Inv_destroyed.
  - apply wp_Destroy_missing.
    + by rewrite (iv_sess _ _ _ _ _ _ Hinv), lookup_fmap, Hid.
    + split; [by rewrite decide_False by (intros [? ?]; congruence)|].
      by rewrite delete_id.
Qed.

(** *** Histories *)

(** The ids a history of operations draws. *)
Definition uuidsOf (ops : list MOp) : list string :=
  omap (λ o, match o with MCreate inp => Some (ci_uuid inp) | MDestroy _ => None end) ops.

(** What [uuid.NewString] promises of them, on a host [base] that does not
    hold their directories yet. *)
Record goodIDs (base : Obs) (ids : list string) : Prop := {
  gi_nodup : NoDup ids;
  gi_shape : ∀ id, id ∈ ids → noSlash id = true;
  gi_fresh : ∀ id, id ∈ ids → freshDir base id
}.

Lemma goodIDs_cons base id ids :
  goodIDs base (id :: ids) → noSlash id = true ∧ freshDir base id ∧ id ∉ ids ∧ goodIDs base ids.
Proof.
  intros [[? ?]%NoDup_cons Hs Hf]. split_and!; [apply Hs; set_solver|apply Hf; set_solver|done|].
  split; [done| |]; intros; [apply Hs|apply Hf]; set_solver.
Qed.

Definition noLeak (rs : list (res GoErr unit)) : Prop := ∀ e, Err e ∈ rs → leaves e = false.

Lemma wp_runM_Inv base p ops : ∀ clean n G w,
  prefix_ok p → 0 ≤ n → Inv base clean p n G w → goodIDs base (uuidsOf ops) →
  (∀ id, id ∈ uuidsOf ops → G !! id = None) →
  wp (runM cfg ops) (λ rs w', ∃ clean' n' G',
    0 ≤ n' ∧ Inv base clean' p n' G' w' ∧ (clean = true → noLeak rs → clean' = true) ∧
    ∀ id, is_Some (G' !! id) → is_Some (G !! id) ∨ id ∈ uuidsOf ops) w.
Proof.
  induction ops as [|[inp|id] ops IH]; intros clean n G w Hp Hn Hinv Hids Hnew; cbn [runM].
  - apply wp_ret. exists clean, n, G. split_and!; auto.
  - change (uuidsOf (MCreate inp :: ops)) with (ci_uuid inp :: uuidsOf ops) in *.
    apply goodIDs_cons in Hids as (Hs & Hf & Hni & Hids). cbn [stepM].
    apply wp_bind, wp_bind. eapply wp_mono; [|apply (wp_Create_Inv base clean p n G); auto].
    2:{ apply Hnew. set_solver. }
    intros r w1 (n1 & G1 & Hn1 & Hr). apply wp_ret, wp_bind.
    destruct r as [a|e].
    + destruct Hr as [(l & _ & ->) Hinv1].
      eapply wp_mono; [|apply (IH clean n1 (<[ci_uuid inp := l]> G) w1); [done|lia|done|done|]].
      2:{ intros j Hj. rewrite lookup_insert_ne by congruence. apply Hnew. set_solver. }
      intros rs w2 (c' & n2 & G2 & ? & Hinv2 & Hc & Hd). apply wp_ret.
      exists c', n2, G2. split_and!; [done|done| |].
      * intros Hcl Hnl. apply Hc; [done|]. intros e He. apply Hnl. set_solver.
      * intros j Hj. destruct (Hd j Hj) as [Hj'|?]; [|set_solver].
        apply lookup_insert_is_Some in Hj' as [->|[_ ?]]; [set_solver|by left].
    + destruct Hr as [-> Hinv1].
      eapply wp_mono; [|apply (IH (clean && negb (leaves e)) n1 G w1); [done|lia|done|done|]].
      2:{ intros j Hj. apply Hnew. set_solver. }
      intros rs w2 (c' & n2 & G2 & ? & Hinv2 & Hc & Hd). apply wp_ret.
      exists c', n2, G2. split_and!; [done|done| |set_solver].
      intros -> Hnl. apply Hc; [|intros e' He'; apply Hnl; set_solver].
      rewrite (Hnl e) by set_solver. done.
  - change (uuidsOf (MDestroy id :: ops)) with (uuidsOf ops) in *. cbn [stepM].
    apply wp_bind. eapply wp_mono; [|apply (wp_Destroy_Inv base clean p n G id w Hinv)].
    intros r w1 [_ Hinv1]. apply wp_bind.
    eapply wp_mono; [|apply (IH clean n (delete id G) w1); [done|done|exact Hinv1|done|]].
    2:{ intros j Hj. apply lookup_delete_None. right. by apply Hnew. }
    intros rs w2 (c' & n2 & G2 & ? & Hinv2 & Hc & Hd). apply wp_ret.
    exists c', n2, G2. split_and!; [done|done| |].
    + intros Hcl Hnl. apply Hc; [done|]. intros e He. apply Hnl. set_solver.
    + intros j Hj. destruct (Hd j Hj) as [[m [_ Hj']%lookup_delete_Some]|?]; eauto.
Qed.

(** A manager that has just started on a host without leftover TAPs. *)
Definition startedOn (os : OS) (base : Obs) w : Prop :=
  (∃ os1, NewManager cfg os = (Ok w, os1)) ∧ base = obs (w_os w) ∧
  ∀ k, 0 ≤ k → tapOf (k + 1) ∉ o_links base.

Lemma startedOn_Inv os base w :
  startedOn os base w → ∃ p, prefix_ok p ∧ Inv base true p 0 ∅ w.
Proof.
  intros ([os1 Hnm] & -> & Htap). unfold NewManager in Hnm.
  destruct (New (c_VMCIDR cfg)) as [al|] eqn:Eal; [|done].
  destruct (ParsePrefix (c_VMCIDR cfg)); [|done].
  destruct (detectUpstreamIface os); [|done].
  destruct (EnsureBridge _ _ _ _ _ os) as [[[]|] os2]; [|done]. simplify_eq.
  apply New_reach in Eal as [Hp Hr]. exists (al_base al). split; [done|].
  assert (al_in_use al = ∅) as Hu.
  { apply map_empty. intros x. apply eq_None_not_Some. intros Hx.
    destruct (rc_used _ _ _ Hr x Hx) as (z & _ & ?). lia. }
  split; cbn [w_os w_alloc w_sessions w_heap]; rewrite ?Hu, ?dom_empty_L; try done;
    try (by rewrite map_size_empty; lia); try (intros ? ?; by rewrite lookup_empty);
    try (by intros i j l m; rewrite lookup_empty); try (intros x; set_solver).
  intros _. split_and!; [intros x; set_solver|intros x; set_solver|done|].
  intros ? ?. by rewrite lookup_empty.
Qed.

Lemma wp_Shutdown_Inv base clean p n ids : ∀ G w,
  Inv base clean p n G w →
  wp (Shutdown ids) (λ _ w', ∃ G', Inv base clean p n G' w' ∧
    ∀ id, is_Some (G' !! id) → is_Some (G !! id) ∧ id ∉ ids) w.
Proof.
  induction ids as [|id ids IH]; intros G w Hinv; cbn [Shutdown].
  - apply wp_ret. exists G. split; [done|]. set_solver.
  - apply wp_bind. eapply wp_mono; [|apply (wp_Destroy_Inv base clean p n G id w Hinv)].
    intros r w1 [_ Hinv1]. eapply wp_mono; [|apply (IH _ w1 Hinv1)].
    intros _ w2 (G' & Hinv2 & Hd). exists G'. split; [done|]. intros j Hj.
    destruct (Hd j Hj) as [[m [Hne Hm]%lookup_delete_Some] Hni]. split; [eauto|]. set_solver.
Qed.

(** With nothing live and nothing left behind, the host is as it was. *)
Lemma Inv_empty base p n w :
  Inv base true p n ∅ w →
  w_sessions w = ∅ ∧ al_in_use (w_alloc w) = ∅ ∧ obs (w_os w) = base.
Proof.
  intros Hinv. destruct (iv_clean _ _ _ _ _ _ Hinv eq_refl) as (Hl & Hd & Hm & _).
  pose proof (iv_procs _ _ _ _ _ _ Hinv) as Hp. pose proof (iv_used _ _ _ _ _ _ Hinv) as Hu.
  pose proof (iv_rules _ _ _ _ _ _ Hinv) as Hr.
  assert (∀ {A} `{Countable A} (f : string → Live → A) B S, exactly ∅ f B S → S = B) as Hex.
  { intros A ? ? f B S HS. apply set_eq. intros x. rewrite (HS x).
    split; [|by auto]. intros [?|(j & l & Hj & _)]; [done|]. by rewrite lookup_empty in Hj. }
  split_and!.
  - rewrite (iv_sess _ _ _ _ _ _ Hinv). apply fmap_empty.
  - by apply dom_empty_inv_L, (Hex _ _ _ (λ _ l, ipAt p (lv_k l))).
  - apply Hex in Hl, Hd, Hp. destruct (obs (w_os w)), base; simpl in *. by subst.
Qed.

(** The same live sessions mean the same clean host. *)
Lemma Inv_same_host base p n n' G w w' :
  Inv base true p n G w → Inv base true p n' G w' →
  dom (al_in_use (w_alloc w')) = dom (al_in_use (w_alloc w)) ∧ obs (w_os w') = obs (w_os w).
Proof.
  intros H1 H2. destruct (iv_clean _ _ _ _ _ _ H1 eq_refl) as (Hl1 & Hd1 & Hm1 & _).
  destruct (iv_clean _ _ _ _ _ _ H2 eq_refl) as (Hl2 & Hd2 & Hm2 & _).
  assert (∀ {A} `{Countable A} (f : string → Live → A) B S S',
    exactly G f B S → exactly G f B S' → S' = S) as Hex.
  { intros A ? ? f B S S' HS HS'. apply set_eq. intros x. by rewrite (HS x), (HS' x). }
  split.
  - exact (Hex _ _ _ _ _ _ _ (iv_used _ _ _ _ _ _ H1) (iv_used _ _ _ _ _ _ H2)).
  - pose proof (Hex _ _ _ _ _ _ _ (iv_procs _ _ _ _ _ _ H1) (iv_procs _ _ _ _ _ _ H2)).
    pose proof (Hex _ _ _ _ _ _ _ Hl1 Hl2). pose proof (Hex _ _ _ _ _ _ _ Hd1 Hd2).
    pose proof (iv_rules _ _ _ _ _ _ H1). pose proof (iv_rules _ _ _ _ _ _ H2).
    destruct (obs (w_os w)), (obs (w_os w')); simpl in *; congruence.
Qed.

(** The state a good history leads to. *)
Lemma history_Inv os base w0 ops :
  startedOn os base w0 → goodIDs base (uuidsOf ops) →
  let run := runM cfg ops w0 in
  ∃ p clean n G, prefix_ok p ∧ 0 ≤ n ∧ Inv base clean p n G run.2 ∧
    (noLeak run.1 → clean = true) ∧ ∀ id, is_Some (G !! id) → id ∈ uuidsOf ops.
Proof.
  intros (p & Hp & Hinv)%startedOn_Inv Hids run.
  destruct (wp_run _ _ _ (wp_runM_Inv base p ops true 0 ∅ w0 Hp ltac:(lia) Hinv Hids
              (λ _ _, lookup_empty _))) as (c & n & G & Hn & Hinv' & Hc & Hd).
  exists p, c, n, G. split_and!; auto. intros id Hid. destruct (Hd id Hid) as [[? ?]|?]; [|done].
  by rewrite lookup_empty in H.
Qed.

Lemma wp_launchReady_Inv base clean p n G inp ready w :
  prefix_ok p → 0 ≤ n → Inv base clean p n G w →
  noSlash (ci_uuid inp) = true → G !! ci_uuid inp = None →
  (clean = true → freshDir base (ci_uuid inp)) →
  wp (launchReady cfg inp ready) (λ r w',
    ∃ n' G', n ≤ n' ∧
      match r with
      | Ok a => ready = Ok tt ∧ (∃ l, lv_addr l = a ∧ G' = <[ci_uuid inp := l]> G) ∧
                Inv base clean p n' G' w'
      | Err e => G' = G ∧ Inv base (clean && negb (leaves e)) p n' G' w'
      end) w.
Proof.
  intros Hp Hn Hinv Hs Hno Hf. unfold launchReady. apply wp_bind.
  eapply wp_mono; [|by apply (wp_Create_Inv base clean p n G)].
  intros [a|e] w1 (n1 & G1 & Hn1 & Hr).
  2:{ apply wp_ret. exists n1, G1. naive_solver. }
  destruct Hr as [(l & <- & ->) Hinv1]. destruct ready as [[]|e0].
  - apply wp_ret. exists n1, (<[ci_uuid inp := l]> G). split_and!; eauto.
  - destruct (iv_cells _ _ _ _ _ _ Hinv1 (ci_uuid inp) l) as (_ & _ & _ & s & Hs1 & Hc);
      [apply lookup_insert_eq|].
    apply wp_bind, wp_gets. rewrite Hs1, (ce_id _ _ _ _ Hc).
    apply wp_bind. eapply wp_mono; [|apply (wp_Destroy_Inv _ _ _ _ _ (ci_uuid inp) _ Hinv1)].
    intros r w2 [_ Hinv2]. apply wp_ret. exists n1, G. split_and!; [lia|done|].
    rewrite delete_insert_id in Hinv2 by done. simpl. by rewrite andb_true_r.
Qed.

End Ownership.

(** ** Properties *)

Section Claims.
Context {OS : Type} `{!HostOS OS, !HostOSLaws OS}.

(** After any history of [Create] and [Destroy] calls, made one after
    the other on a fresh manager with any host failures, there are at most [MaxConcurrent]
    sessions; every live session still has its own running process, TAP
    device, directory and reserved address; no two live sessions share any
    of them; and every process and every reserved address the manager added
    belongs to a live session. *)
Theorem sessions_isolated (cfg : Config) (os : OS) (base : Obs) (w0 : World OS) (ops : list MOp) :
  startedOn cfg os base w0 → goodIDs cfg base (uuidsOf ops) → 0 ≤ c_MaxConcurrent cfg →
  let w := (runM cfg ops w0).2 in
  let o := obs (w_os w) in
  let live id s := ∃ a, w_sessions w !! id = Some a ∧ w_heap w !! a = Some s in
  Z.of_nat (size (w_sessions w)) ≤ c_MaxConcurrent cfg ∧
  (∀ id a, w_sessions w !! id = Some a → ∃ s pid, w_heap w !! a = Some s ∧ s_ID s = id ∧
     s_Process s = Some pid ∧ pid ∈ o_procs o ∧ s_Tap s ∈ o_links o ∧ s_VmDir s ∈ o_dirs o ∧
     s_IP s ∈ dom (al_in_use (w_alloc w))) ∧
  (∀ i j s t, live i s → live j t → i ≠ j →
     s_Process s ≠ s_Process t ∧ s_Tap s ≠ s_Tap t ∧ s_VmDir s ≠ s_VmDir t ∧ s_IP s ≠ s_IP t) ∧
  (∀ pid, pid ∈ o_procs o → pid ∈ o_procs base ∨ ∃ id s, live id s ∧ s_Process s = Some pid) ∧
  (∀ ip, ip ∈ dom (al_in_use (w_alloc w)) → ∃ id s, live id s ∧ s_IP s = ip).
Proof.
  intros Hst Hids Hmax w o live.
  destruct (history_Inv cfg os base w0 ops Hst Hids) as (p & c & n & G & Hp & Hn & Hinv & _ & _).
  fold w in Hinv.
  assert (∀ id a, w_sessions w !! id = Some a → ∃ l s, G !! id = Some l ∧ a = lv_addr l ∧
            w_heap w !! a = Some s ∧ cellOK cfg p id l s) as Hcell.
  { intros id a. rewrite (iv_sess _ _ _ _ _ _ _ Hinv), lookup_fmap.
    destruct (G !! id) as [l|] eqn:E; [|done]. intros [= <-].
    destruct (iv_cells _ _ _ _ _ _ _ Hinv id l E) as (_ & _ & _ & s & ? & ?). eauto 10. }
  assert (∀ id s, live id s → ∃ l, G !! id = Some l ∧ cellOK cfg p id l s) as Hlive.
  { intros id s (a & Ha & Hs). destruct (Hcell id a Ha) as (l & s' & ? & -> & ? & ?).
    simplify_eq. eauto. }
  assert (∀ id l, G !! id = Some l → ∃ s, live id s ∧ cellOK cfg p id l s) as Hback.
  { intros id l E. destruct (iv_cells _ _ _ _ _ _ _ Hinv id l E) as (_ & _ & _ & s & ? & ?).
    exists s. split; [|done]. exists (lv_addr l). split; [|done].
    by rewrite (iv_sess _ _ _ _ _ _ _ Hinv), lookup_fmap, E. }
  split_and!.
  - rewrite (iv_sess _ _ _ _ _ _ _ Hinv), map_size_fmap.
    pose proof (iv_size _ _ _ _ _ _ _ Hinv). lia.
  - intros id a Ha. destruct (Hcell id a Ha) as (l & s & HG & -> & Hs & Hc). exists s, (lv_pid l).
    rewrite (ce_tap _ _ _ _ _ Hc), (ce_dir _ _ _ _ _ Hc), (ce_ip _ _ _ _ _ Hc).
    split_and!; [done|by apply Hc|by apply Hc|..].
    + apply (iv_procs _ _ _ _ _ _ _ Hinv). eauto 10.
    + by apply (iv_links _ _ _ _ _ _ _ Hinv id).
    + by apply (iv_dirs _ _ _ _ _ _ _ Hinv id l).
    + apply (iv_used _ _ _ _ _ _ _ Hinv). eauto 10.
  - intros i j s t (l & Hl & Hcs)%Hlive (m & Hm & Hct)%Hlive Hne.
    rewrite (ce_tap _ _ _ _ _ Hcs), (ce_dir _ _ _ _ _ Hcs), (ce_ip _ _ _ _ _ Hcs),
      (ce_proc _ _ _ _ _ Hcs), (ce_tap _ _ _ _ _ Hct), (ce_dir _ _ _ _ _ Hct),
      (ce_ip _ _ _ _ _ Hct), (ce_proc _ _ _ _ _ Hct).
    pose proof (iv_k _ _ _ _ _ _ _ Hinv) as Hk. split_and!; intros Heq; apply Hne.
    + simplify_eq. by apply (iv_pid _ _ _ _ _ _ _ Hinv i j l m).
    + by apply (separate_tap G Hk i j l m).
    + by apply (separate_dir cfg G i j l m).
    + by apply (separate_ip p G Hk i j l m).
  - intros pid [?|(id & l & Hl & <-)]%(iv_procs _ _ _ _ _ _ _ Hinv); [by left|right].
    destruct (Hback id l Hl) as (s & ? & ?). exists id, s. split; [done|]. by apply ce_proc with cfg p id.
  - intros ip [?|(id & l & Hl & <-)]%(iv_used _ _ _ _ _ _ _ Hinv); [set_solver|].
    destruct (Hback id l Hl) as (s & ? & Hc). exists id, s. split; [done|]. by apply Hc.
Qed.



End Claims.

(** The failure that is excluded above does leak: when the TAP device
    was made but cannot be attached to the bridge, [Create] gives the address
    back and reports an error, the device stays on the host, and nothing in
    the manager's state refers to it any more. *)
Theorem tap_attach_failure_leaks :
  let cfg := Defaults in
  ∃ (w : World SimOS) (inp : CreateIn),
    obs (w_os w) = mkObs {["fc-br0"]} [] ∅ ∅ ∅ ∧ w_sessions w = ∅ ∧ al_in_use (w_alloc w) = ∅ ∧
    (Create cfg inp w).1 = Err (ErrWrap "create tap") ∧
    o_links (obs (w_os (Create cfg inp w).2)) = {["fc-br0"; "tap-fc1"]} ∧
    w_sessions (Create cfg inp w).2 = ∅ ∧ al_in_use (w_alloc (Create cfg inp w).2) = ∅.
Proof.
  exists (mkWorld (mkSimOS (mkObs {["fc-br0"]} [] ∅ ∅ ∅) [false; true] 1 ∅)
            (match New "172.20.0.0/24" with Ok a => a | Err _ => demoAllocator end) ∅ ∅).
  exists (mkCreateIn (Some "0123456789abcdef0123456789abcdef") "id" 0).
  split_and!; vm_compute; reflexivity.
Qed.

(** ** A concrete manager *)

Definition demoHost : SimOS := simStart []
  {["$ip" := "default via 10.0.0.1 dev eno1 proto static";
    "$getent" := "microvm:x:997:996::/nonexistent:/bin/false";
    "/etc/microvm-terminal/claude-oauth-token" := "tok"]}.
Definition demoWorld : World SimOS :=
  match (NewManager Defaults demoHost).1 with
  | Ok w => w
  | Err _ => mkWorld demoHost demoAllocator ∅ ∅
  end.
Definition demoIn (id : string) : CreateIn :=
  mkCreateIn (Some "0123456789abcdef0123456789abcdef") id 1000.
Definition demoOps : list MOp :=
  [MCreate (demoIn "a"); MCreate (demoIn "b"); MDestroy "a"; MCreate (demoIn "c")].

Lemma demo_started : startedOn Defaults demoHost (obs (w_os demoWorld)) demoWorld.
Proof.
  split; [|split; [reflexivity|]].
  - exists (NewManager Defaults demoHost).2. vm_compute. reflexivity.
  - assert (o_links (obs (w_os demoWorld)) = {["fc-br0"]}) as -> by (vm_compute; reflexivity).
    intros k _ H%elem_of_singleton. discriminate H.
Qed.

Lemma demo_ids ids :
  NoDup ids → (∀ id, id ∈ ids → noSlash id = true) →
  goodIDs Defaults (obs (w_os demoWorld)) ids.
Proof.
  intros Hn Hs. assert (o_dirs (obs (w_os demoWorld)) = ∅) as Hd by (vm_compute; reflexivity).
  split; [done|done|]. intros id _. unfold freshDir. rewrite Hd. split; set_solver.
Qed.

Lemma demo_abc : goodIDs Defaults (obs (w_os demoWorld)) (uuidsOf demoOps).
Proof.
  apply demo_ids.
  - apply (bool_decide_unpack _). vm_compute. exact I.
  - assert (Forall (λ id, noSlash id = true) (uuidsOf demoOps)) as H
      by (apply (bool_decide_unpack _); vm_compute; exact I).
    intros id Hid. by apply (proj1 (Forall_forall _ _) H).
Qed.

Lemma sessions_isolated_witness :
  Z.of_nat (size (w_sessions (runM Defaults demoOps demoWorld).2)) ≤ 3 ∧
  size (w_sessions (runM Defaults demoOps demoWorld).2) = 2%nat.
Proof.
  destruct (sessions_isolated Defaults demoHost (obs (w_os demoWorld)) demoWorld demoOps
              demo_started demo_abc ltac:(vm_compute; discriminate)) as [H _].
  split; [exact H|vm_compute; reflexivity].
Defined.

Lemma demo_noLeak : noLeak (runM Defaults demoOps demoWorld).1.
Proof.
  assert ((runM Defaults demoOps demoWorld).1 = [Ok tt; Ok tt; Ok tt; Ok tt]) as ->
    by (vm_compute; reflexivity).
  intros e He. set_solver.
Qed.


