(* ===== verification/ManagerConc.v ===== *)
(** Concurrent calls of one manager (control-plane/internal/session/manager.go):
    creations, destructions, a shutdown and the goroutine that waits for each
    VM's process run in any interleaving, while VMs may exit on their own.

    One step is a critical section of the manager's or the allocator's lock,
    or one call into package firecracker, os or exec.  Every step is the one
    the sequential model of Manager.v takes ([create_alone],
    [destroy_alone]). *)
From S2P Require Import Prelude Conc GoLib NetAlloc Session Config HostOS Network Rootfs Launch Manager Ownership.
Open Scope Z_scope.

(** ** Process handles *)

(** What [os.Process] knows of its process.  A process that exited keeps its
    pid until it is waited for; afterwards the handle does nothing. *)
Inductive PStat := PRunning | PExited | PReaped.
#[export] Instance PStat_eq_dec : EqDecision PStat.
Proof. solve_decision. Defined.

Record CWorld (OS : Type) := mkCW {
  cw : World OS;
  ph : gmap string (Z * PStat)      (* the handle of each VM's process, by session id *)
}.
Arguments mkCW {_} _ _.
Arguments cw {_} _.
Arguments ph {_} _.

(** What a finished call reports. *)
Inductive CRes :=
| RLaunch (id : string) (r : res GoErr nat) (undo : option (res GoErr unit))
| RDestroy (id : string) (r : res GoErr unit)
| RReaper (id : string) (r : res GoErr unit)
| RShutdown (l : list (string * res GoErr unit)).

Section Programs.
Context {OS : Type} `{!HostOS OS}.
Variable cfg : Config.
Abbreviation Prog := (prog (CWorld OS) CRes).

Definition worldM {A} (m : osM (World OS) A) : CWorld OS → option (A * CWorld OS) := λ c,
  let '(a, w) := m (cw c) in Some (a, mkCW w (ph c)).

(** [launchVM] and the handle it returns. *)
Definition launchM (sid : string) (spec : LaunchSpec)
    : CWorld OS → option (res string Process * CWorld OS) := λ c,
  let '(r, w) := liftOS (launchVM cfg sid spec) (cw c) in
  Some (r, mkCW w (match r with Ok p => <[sid := (pr_pid p, PRunning)]> (ph c) | Err _ => ph c end)).

(** [Process.Wait]: blocks while the process runs, and reaps it. *)
Definition waitM (sid : string) : CWorld OS → option (unit * CWorld OS) := λ c,
  match ph c !! sid with
  | Some (pid, PRunning) => None
  | Some (pid, PExited) =>
    let '(_, w) := liftOS (stopProc pid) (cw c) in
    Some (tt, mkCW w (<[sid := (pid, PReaped)]> (ph c)))
  | _ => Some (tt, c)
  end.

(** [Process.Stop]: signals, waits and reaps; a handle already waited for is
    not signalled. *)
Definition stopM (sid : string) (pid : Z) : CWorld OS → option (unit * CWorld OS) := λ c,
  match ph c !! sid with
  | Some (_, PReaped) => Some (tt, c)
  | _ => let '(_, w) := liftOS (stopProc pid) (cw c) in
         Some (tt, mkCW w (<[sid := (pid, PReaped)]> (ph c)))
  end.

(** The lookup and the removal of [Destroy], one critical section. *)
Definition takeM (id : string) : osM (World OS) (option nat) := λ w,
  match Get id w with
  | None => (None, w)
  | Some a => (Some a, (unregisterM id w).2)
  end.

(** [CloseDone] on the session of a cell. *)
Definition closeM (a : nat) : osM (World OS) (res GoErr Session) := λ w,
  match w_heap w !! a with
  | None => (Err (ErrWrap "panic: nil session"), w)
  | Some s =>
    match CloseDone s with
    | None => (Err (ErrWrap "panic: close of closed channel"), w)
    | Some s' => (Ok s, (storeM a s' w).2)
    end
  end.

Definition DestroyP (id : string) (k : res GoErr unit → Prog) : Prog :=
  found ⇐ worldM (takeM id);
  match found with
  | None => k (Err ErrNotFound)
  | Some a =>
    closed ⇐ worldM (closeM a);
    match closed with
    | Err e => k (Err e)
    | Ok s =>
      match s_Process s with
      | None => k (Err (ErrWrap "panic: nil process"))
      | Some pid =>
        _ ⇐ stopM (s_ID s) pid;
        _ ⇐ worldM (liftOS (DeleteTAP (s_Tap s)));
        _ ⇐ worldM (releaseM (s_IP s));
        _ ⇐ worldM (liftOS (removeAll (s_VmDir s)));
        k (Ok tt)
      end
    end
  end.

(** The goroutine [Create] starts: [proc.Wait()], then [m.Destroy(sid)]. *)
Definition reaperP (sid : string) : Prog :=
  _ ⇐ waitM sid;
  DestroyP sid (λ r, Ret (RReaper sid r)).

Definition cleanupP (vmDir tap : string) (ip : Addr) (k : Prog) : Prog :=
  _ ⇐ worldM (liftOS (removeAll vmDir));
  _ ⇐ worldM (liftOS (DeleteTAP tap));
  _ ⇐ worldM (releaseM ip);
  k.

(** [provision] of Manager.v, step by step, with the reaper it starts. *)
Definition provisionP (inp : CreateIn) (g : Grant) (sessionToken : string)
    (k : res GoErr nat → Prog) : Prog :=
  let sid := ci_uuid inp in
  let vmDir := vmDirOf cfg sid in
  read ⇐ worldM (gets (λ w,
    (readTokenFile (c_ClaudeOAuthTokenFile cfg) (w_os w), PrefixLen (w_alloc w), HostAddr (w_alloc w))));
  match read with
  | (None, _, _) => cleanupP vmDir (g_tap g) (g_ip g) (k (Err (ErrWrap "read token file")))
  | (Some token, len, gw) =>
    prepared ⇐ worldM (liftOS (PrepareRootfs (ci_now inp) (c_RootfsPath cfg)
                 (joinPath vmDir "rootfs.ext4") (g_ip g) len gw
                 ("vm-" +:+ shortID sid) token));
    match prepared with
    | Err _ => cleanupP vmDir (g_tap g) (g_ip g) (k (Err (ErrWrap "prepare rootfs")))
    | Ok _ =>
      launched ⇐ launchM sid (fcSpecOf cfg sid sessionToken g);
      match launched with
      | Err _ => cleanupP vmDir (g_tap g) (g_ip g) (k (Err (ErrWrap "launch")))
      | Ok proc =>
        a ⇐ worldM (registerM sid (newSession cfg sid sessionToken g proc (ci_now inp)));
        Fork (reaperP sid) (k (Ok a))
      end
    end
  end.

Definition CreateP (inp : CreateIn) (k : res GoErr nat → Prog) : Prog :=
  full ⇐ worldM (gets (atCapacity cfg));
  if (full : bool) then k (Err ErrAtCapacity) else
  granted ⇐ worldM allocM;
  match granted with
  | Err _ => k (Err (ErrWrap "alloc net"))
  | Ok g =>
    tapped ⇐ worldM (liftOS (CreateTAP (g_tap g) (c_BridgeName cfg)));
    match tapped with
    | Err _ => _ ⇐ worldM (releaseM (g_ip g)); k (Err (ErrWrap "create tap"))
    | Ok _ =>
      match ci_rand inp with
      | None =>
        _ ⇐ worldM (liftOS (DeleteTAP (g_tap g)));
        _ ⇐ worldM (releaseM (g_ip g));
        k (Err (ErrWrap "rand"))
      | Some tokBytes =>
        made ⇐ worldM (liftOS (mkdirAll (vmDirOf cfg (ci_uuid inp))));
        if negb made then
          _ ⇐ worldM (liftOS (DeleteTAP (g_tap g)));
          _ ⇐ worldM (releaseM (g_ip g));
          k (Err (ErrWrap "mkdir vmdir"))
        else provisionP inp g (hexEncode tokBytes) k
      end
    end
  end.

(** *** The calls *)

(** [CLaunch] is [managerLauncher.Launch] of main.go: [ready] is what
    [WaitReady] returned.  [CShutdown] iterates the session map in the order
    [ord] makes of it. *)
Inductive Call :=
| CLaunch (inp : CreateIn) (ready : res GoErr unit)
| CDestroy (id : string)
| CShutdown (ord : list string → list string).

Fixpoint destroyAll (ids : list string) (acc : list (string * res GoErr unit)) : Prog :=
  match ids with
  | [] => Ret (RShutdown acc)
  | id :: ids' => DestroyP id (λ r, destroyAll ids' (acc ++ [(id, r)]))
  end.

Definition progOf (c : Call) : Prog :=
  match c with
  | CLaunch inp ready =>
    CreateP inp (λ r,
      match r with
      | Err e => Ret (RLaunch (ci_uuid inp) (Err e) None)
      | Ok a =>
        match ready with
        | Ok _ => Ret (RLaunch (ci_uuid inp) (Ok a) None)
        | Err _ => DestroyP (ci_uuid inp) (λ d, Ret (RLaunch (ci_uuid inp) (Err ErrBootTimeout) (Some d)))
        end
      end)
  | CDestroy id => DestroyP id (λ r, Ret (RDestroy id r))
  | CShutdown ord =>
    ids ⇐ worldM (gets (λ w, ord (elements (dom (w_sessions w)))));
    destroyAll ids []
  end.

(** *** Runs *)

Abbreviation CState := (list Prog * CWorld OS)%type.

(** A thread runs, or a VM's process exits on its own. *)
Inductive Lbl := Run (i : nat) | Exit (id : string).

Definition cstep (l : Lbl) (c : CState) : option CState :=
  match l with
  | Run i => stepAt i c
  | Exit id =>
    match ph c.2 !! id with
    | Some (pid, PRunning) => Some (c.1, mkCW (cw c.2) (<[id := (pid, PExited)]> (ph c.2)))
    | _ => None
    end
  end.

Fixpoint runC (ls : list Lbl) (c : CState) : option CState :=
  match ls with
  | [] => Some c
  | l :: ls' => match cstep l c with None => None | Some c' => runC ls' c' end
  end.

(** A manager that has just started, and the calls that will be made: a
    thread that has not run yet has not been called yet. *)
Definition startC (calls : list Call) (w : World OS) : CState := (progOf <$> calls, mkCW w ∅).

(** ** Alone, they are the sequential operations *)

Lemma alone_world {A} (m : osM (World OS) A) (k : A → Prog) w hs :
  alone (Act (worldM m) k) (mkCW w hs) = alone (k (m w).1) (mkCW (m w).2 hs).
Proof. cbn [alone]. unfold worldM. cbn [cw ph]. by destruct (m w). Qed.

Lemma bind_run {S A B} (m : osM S A) (k : A → osM S B) (w : S) : (m ≫= k) w = k (m w).1 (m w).2.
Proof. unfold mbind, osM_bind. by destruct (m w). Qed.

Lemma create_alone inp (k : res GoErr nat → Prog) w hs : ∃ hs',
  alone (CreateP inp k) (mkCW w hs) =
  alone (k (Create cfg inp w).1) (mkCW (Create cfg inp w).2 hs').
Proof.
  assert (∀ d t ip e w hs, alone (cleanupP d t ip (k (Err e))) (mkCW w hs) =
    alone (k ((_ ← cleanup d t ip; mret (Err e)) w).1)
      (mkCW ((_ ← cleanup d t ip; mret (Err e : res GoErr nat)) w).2 hs)) as Hclean.
  { intros d t ip e w1 hs1. unfold cleanupP, cleanup. by rewrite !alone_world, !bind_run. }
  unfold CreateP, Create. rewrite alone_world, bind_run. destruct (gets (atCapacity cfg) w) as [[] w1].
  { by exists hs. }
  cbn [fst snd]. unfold createVM. rewrite alone_world, bind_run. destruct (allocM w1) as [[g|e] w2]; [|by exists hs].
  cbn [fst snd]. rewrite alone_world, bind_run.
  destruct (liftOS (CreateTAP (g_tap g) (c_BridgeName cfg)) w2) as [[[]|e] w3]; cbn [fst snd].
  2: { rewrite alone_world, bind_run. by exists hs. }
  destruct (ci_rand inp) as [tok|]; [|rewrite !alone_world, !bind_run; by exists hs].
  rewrite alone_world, bind_run. destruct (liftOS (mkdirAll _) w3) as [[] w4]; cbn [fst snd negb].
  2: { rewrite !alone_world, !bind_run. by exists hs. }
  unfold provisionP, provision. rewrite alone_world, !bind_run. cbn [gets fst snd].
  destruct (readTokenFile _ _) as [token|]; [|rewrite Hclean; by exists hs].
  rewrite alone_world, !bind_run. cbn [gets fst snd].
  destruct (liftOS (PrepareRootfs _ _ _ _ _ _ _ _) w4) as [[[]|e] w5]; cbn [fst snd];
    [|rewrite Hclean; by exists hs].
  cbn [alone]. unfold launchM at 1. cbn [cw ph]. rewrite bind_run.
  destruct (liftOS (launchVM cfg _ _) w5) as [[proc|e] w6]; cbn [fst snd];
    [|rewrite Hclean; by exists hs].
  rewrite alone_world, bind_run. eexists. reflexivity.
Qed.

Lemma destroy_alone id (k : res GoErr unit → Prog) w hs :
  (∀ a s pid, w_sessions w !! id = Some a → w_heap w !! a = Some s →
     hs !! s_ID s ≠ Some (pid, PReaped)) →
  ∃ hs', alone (DestroyP id k) (mkCW w hs) =
         alone (k (Destroy id w).1) (mkCW (Destroy id w).2 hs').
Proof.
  intros Hh. unfold DestroyP, Destroy. rewrite alone_world, bind_run. cbn [gets fst snd].
  unfold takeM at 1 2, Get. destruct (w_sessions w !! id) as [a|] eqn:Ea; [|by exists hs].
  cbn [fst snd]. rewrite alone_world, !bind_run. cbn [gets unregisterM fst snd w_heap].
  unfold closeM at 1 2. cbn [w_heap]. destruct (w_heap w !! a) as [s|] eqn:Es; [|by exists hs].
  destruct (CloseDone s) as [s'|] eqn:Ec; [|by exists hs]. cbn [fst snd].
  rewrite bind_run. cbn [storeM fst snd]. destruct (s_Process s) as [pid|]; [|by exists hs].
  cbn [alone]. unfold stopM. cbn [cw ph]. rewrite bind_run.
  assert (∀ q, hs !! s_ID s ≠ Some (q, PReaped)) as Hn by eauto.
  destruct (liftOS (stopProc pid) _) as [[] w1]. cbn [fst snd].
  destruct (hs !! s_ID s) as [[q []]|] eqn:Eq; [| |by destruct (Hn q)|];
    rewrite <- ?(alone_world _ (λ _, Act (worldM _) _)); rewrite !bind_run;
    eexists; unfold worldM; cbn [cw ph];
    (destruct (liftOS (DeleteTAP (s_Tap s)) w1) as [[] w2]; cbn [fst snd releaseM cw ph];
     destruct (liftOS (removeAll (s_VmDir s)) _) as [[] w3]; reflexivity).
Qed.

End Programs.
