(* ===== verification/ManagerInv.v ===== *)
(** The invariant of concurrent calls of one manager: who holds which
    address, device, directory and process while VMs are made and torn down
    by interleaved threads (the programs of ManagerConc.v).

    The ghost map of the ownership logic (Conc.v) has one entry per VM, with
    the stage it has reached; each program is shown [safe] step by step. *)
From S2P Require Import Prelude Conc GoLib NetAlloc Session Config HostOS Network Rootfs Launch Manager Ownership ManagerConc.
Open Scope Z_scope.

(** ** The invariant *)

(** How far a VM has come.  Threads own the VMs that are being made or torn
    down; [SLive] ones are in the session table. *)
Inductive Stage :=
| SNew                                        (* nothing yet *)
| SAddr | STap | SDir | SProc                 (* address; device; directory; process *)
| SLive
| SOut | SStopping                            (* taken out of the table; signalled *)
| SStopped | SUntapped | SFreed               (* process, device, address gone *)
| SGone | SFailed.

Record VM := mkVM {
  v_st : Stage;
  v_k : option Z;                             (* the number of its grant *)
  v_leak : bool;                              (* its device could not be attached *)
  v_dirty : bool;                             (* its root file system could not be prepared *)
  v_addr : nat;
  v_pid : Z
}.

Definition goto (st : Stage) (v : VM) : VM :=
  mkVM st (v_k v) (v_leak v) (v_dirty v) (v_addr v) (v_pid v).
Definition newVM : VM := mkVM SNew None false false 0 0.

Definition isLive (v : VM) : bool := match v_st v with SLive => true | _ => false end.
Definition hasIP (st : Stage) : bool :=
  match st with
  | SAddr | STap | SDir | SProc | SLive | SOut | SStopping | SStopped | SUntapped => true
  | _ => false
  end.
Definition hasTap (st : Stage) : bool :=
  match st with STap | SDir | SProc | SLive | SOut | SStopping | SStopped => true | _ => false end.
Definition hasDir (st : Stage) : bool :=
  match st with
  | SDir | SProc | SLive | SOut | SStopping | SStopped | SUntapped | SFreed => true
  | _ => false
  end.
Definition hasCell (st : Stage) : bool := match st with SLive | SOut => true | _ => false end.

(** The handle of a VM's process at each stage. *)
Definition handleOK (st : Stage) (pid : Z) (h : option (Z * PStat)) : Prop :=
  match st with
  | SNew | SAddr | STap | SDir | SFailed => h = None
  | SProc | SLive | SOut | SStopping => ∃ s, h = Some (pid, s)
  | SStopped | SUntapped | SFreed | SGone => h = Some (pid, PReaped)
  end.

Section Invariant.
Context {OS : Type} `{!HostOS OS, !HostOSLaws OS}.
Variable cfg : Config.
Variable p : Prefix.
Variable base : Obs.
Hypothesis Hp : prefix_ok p.
Implicit Types (G : gmap string VM) (c : CWorld OS) (w : World OS) (v : VM).

Definition kF (_ : string) v : option Z := v_k v.
Definition ipF (_ : string) v : option Addr := if hasIP (v_st v) then ipAt p <$> v_k v else None.
Definition tapF (_ : string) v : option string :=
  if hasTap (v_st v) || v_leak v then (λ k, tapOf (k + 1)) <$> v_k v else None.
Definition dirF (id : string) v : option string :=
  if hasDir (v_st v) then Some (vmDirOf cfg id) else None.
Definition cellF (_ : string) v : option nat := if hasCell (v_st v) then Some (v_addr v) else None.
Definition pidF (_ : string) (h : Z * PStat) : option Z :=
  match h with (pid, PReaped) => None | (pid, _) => Some pid end.

(** The allocator. *)
Definition AInv G (al : Allocator) : Prop :=
  apart G kF ∧ holds G ipF ∅ (dom (al_in_use al)) ∧
  (∀ id v, G !! id = Some v → hasIP (v_st v) = true → is_Some (v_k v)) ∧
  ∃ n, 0 ≤ n ∧ Reach p n al ∧ ∀ id v k, G !! id = Some v → v_k v = Some k → 0 ≤ k < n.
(** The network devices. *)
Definition LInv G (links : gset string) : Prop :=
  holds G tapF (o_links base) links ∧ ∀ k, 0 ≤ k → tapOf (k + 1) ∉ o_links base.
(** The directories and mounts. *)
Definition tidy G : Prop := ∀ id v, G !! id = Some v → v_dirty v = false.
Definition DInv G (dirs mounts : gset string) : Prop :=
  (∀ id v, G !! id = Some v → noSlash id = true ∧ freshDir cfg base id) ∧
  (∀ id v, G !! id = Some v → hasDir (v_st v) = true → vmDirOf cfg id ∈ dirs) ∧
  (tidy G → holds G dirF (o_dirs base) dirs ∧ mounts = o_mounts base).
(** The session table and its cells. *)
Record cellFor (id : string) v (s : Session) : Prop := {
  cf_id : s_ID s = id;
  cf_ip : Some (s_IP s) = ipAt p <$> v_k v;
  cf_tap : Some (s_Tap s) = (λ k, tapOf (k + 1)) <$> v_k v;
  cf_proc : s_Process s = Some (v_pid v);
  cf_dir : s_VmDir s = vmDirOf cfg id;
  cf_done : s_done s = SigOpen;
  cf_once : s_doneOnce s = false;
  cf_leak : v_leak v = false;
  cf_dirty : v_dirty v = false
}.
Definition TInv G (tbl : gmap string nat) (heap : gmap nat Session) : Prop :=
  (∀ id a, tbl !! id = Some a ↔ ∃ v, G !! id = Some v ∧ v_st v = SLive ∧ v_addr v = a) ∧
  apart G cellF ∧
  ∀ id v, G !! id = Some v → hasCell (v_st v) = true →
    ∃ s, heap !! v_addr v = Some s ∧ cellFor id v s.
(** The processes. *)
Definition PInv G (hs : gmap string (Z * PStat)) (procs : gset Z) : Prop :=
  holds hs pidF (o_procs base) procs ∧ apart hs pidF ∧
  (∀ id h pid, hs !! id = Some h → pidF id h = Some pid → pid ∉ o_procs base) ∧
  (∀ id, G !! id = None → hs !! id = None) ∧
  ∀ id v, G !! id = Some v → handleOK (v_st v) (v_pid v) (hs !! id).

Record CInv G c : Prop := {
  ci_alloc : AInv G (w_alloc (cw c));
  ci_links : LInv G (o_links (obs (w_os (cw c))));
  ci_dirs : DInv G (o_dirs (obs (w_os (cw c)))) (o_mounts (obs (w_os (cw c))));
  ci_table : TInv G (w_sessions (cw c)) (w_heap (cw c));
  ci_procs : PInv G (ph c) (o_procs (obs (w_os (cw c))));
  ci_rules : o_rules (obs (w_os (cw c))) = o_rules base
}.

(** *** A stage changes and a part of the world does not *)

Lemma AInv_keep G al id v v' :
  G !! id = Some v → v_k v' = v_k v → hasIP (v_st v') = hasIP (v_st v) → AInv G al →
  AInv (<[id := v']> G) al.
Proof.
  intros Hid Hk Hip (Ha & Hh & His & n & Hn & Hr & Hlt). split_and!.
  - eapply apart_keep; eauto.
  - eapply holds_keep; [done| |done]. unfold ipF. by rewrite Hk, Hip.
  - intros j u Hj Hu. apply lookup_insert_Some in Hj as [[<- <-]|[_ Hj]]; [|by eapply His].
    rewrite Hip in Hu. rewrite Hk. by eapply His.
  - exists n. split_and!; [done..|]. intros j u k Hj Hu.
    apply lookup_insert_Some in Hj as [[<- <-]|[_ Hj]]; [|by eapply Hlt]. rewrite Hk in Hu.
    by eapply Hlt.
Qed.

Lemma LInv_keep G links id v v' :
  G !! id = Some v → tapF id v' = tapF id v → LInv G links → LInv (<[id := v']> G) links.
Proof. intros Hid Ht [Hh Hb]. split; [|done]. eapply holds_keep; eauto. Qed.

Lemma tidy_update G id v v' :
  G !! id = Some v → (v_dirty v' = false → v_dirty v = false) → tidy (<[id := v']> G) → tidy G.
Proof.
  intros Hid Hd Ht j u Hj. destruct (decide (id = j)) as [->|Hne].
  - assert (u = v) as -> by congruence. apply Hd, (Ht j). apply lookup_insert_eq.
  - apply (Ht j). by rewrite lookup_insert_ne.
Qed.

Lemma DInv_keep G dirs mounts id v v' :
  G !! id = Some v → hasDir (v_st v') = hasDir (v_st v) → (v_dirty v' = false → v_dirty v = false) →
  DInv G dirs mounts → DInv (<[id := v']> G) dirs mounts.
Proof.
  intros Hid Hd Hdirty (Hs & Hin & Ht). split_and!.
  - intros j u Hj. apply lookup_insert_Some in Hj as [[<- <-]|[_ Hj]]; eauto.
  - intros j u Hj Hu. apply lookup_insert_Some in Hj as [[<- <-]|[_ Hj]]; [|by eauto].
    rewrite Hd in Hu. eauto.
  - intros Htd. destruct (Ht (tidy_update _ _ _ _ Hid Hdirty Htd)) as [Hh Hm]. split; [|done].
    eapply holds_keep; [done| |done]. unfold dirF. by rewrite Hd.
Qed.

Lemma TInv_keep G tbl heap id v v' :
  G !! id = Some v → (v_st v' = SLive ↔ v_st v = SLive) → hasCell (v_st v') = hasCell (v_st v) →
  (hasCell (v_st v) = true → v_addr v' = v_addr v ∧ v_k v' = v_k v ∧ v_pid v' = v_pid v ∧
    v_leak v' = v_leak v ∧ v_dirty v' = v_dirty v) →
  TInv G tbl heap → TInv (<[id := v']> G) tbl heap.
Proof.
  intros Hid Hl Hc Hsame (Ht & Ha & Hcell). split_and!.
  - intros j a. rewrite (Ht j a). destruct (decide (id = j)) as [<-|Hne];
      [|by rewrite lookup_insert_ne]. rewrite lookup_insert_eq, Hid.
    split; intros (u & [= <-] & Hu & <-); eexists; (split; [done|]).
    + rewrite Hl. destruct Hsame as (-> & _); [by rewrite Hu|done].
    + destruct Hsame as (-> & _); [by rewrite <- Hc, Hu|]. split; [by apply Hl|done].
  - eapply apart_keep; [done| |done]. unfold cellF. rewrite Hc.
    destruct (hasCell (v_st v)); [|by left]. left. by destruct Hsame as (-> & _).
  - intros j u Hj Hu. apply lookup_insert_Some in Hj as [[<- <-]|[_ Hj]]; [|by eauto].
    rewrite Hc in Hu. destruct (Hsame Hu) as (-> & Hk & Hpid & Hlk & Hdi).
    destruct (Hcell id v Hid Hu) as (s & Hs & []). exists s. split; [done|].
    split; rewrite ?Hk, ?Hpid, ?Hlk, ?Hdi; done.
Qed.

Lemma PInv_keep G hs procs id v v' :
  G !! id = Some v → handleOK (v_st v') (v_pid v') (hs !! id) →
  PInv G hs procs → PInv (<[id := v']> G) hs procs.
Proof.
  intros Hid Hok (Hh & Ha & Hb & Hn & Hg). split_and!; [done..| |].
  - intros j Hj. apply lookup_insert_None in Hj as [Hj _]. auto.
  - intros j u Hj. apply lookup_insert_Some in Hj as [[<- <-]|[_ Hj]]; auto.
Qed.

(** *** A resource is gained or lost *)

Lemma apart_ip G : apart G kF → apart G ipF.
Proof.
  intros Ha x y u v a Hx Hy Hu Hv. unfold ipF in *.
  destruct (hasIP (v_st u)), (hasIP (v_st v)); try done.
  destruct (v_k u) as [k|] eqn:Ek, (v_k v) as [l|] eqn:El; simplify_eq/=.
  apply (Ha x y u v k); [done..|]. unfold kF. rewrite El. f_equal. unfold ipAt in *. naive_solver lia.
Qed.

Lemma apart_tap G : apart G kF → apart G tapF.
Proof.
  intros Ha x y u v a Hx Hy Hu Hv. unfold tapF in *.
  destruct (_ || v_leak u), (_ || v_leak v); try done.
  destruct (v_k u) as [k|] eqn:Ek, (v_k v) as [l|] eqn:El; cbn in Hu, Hv; try done.
  assert (tapOf (k + 1) = tapOf (l + 1)) as Ht%tapOf_inj by congruence.
  apply (Ha x y u v k); [done..|]. unfold kF. rewrite El. f_equal. lia.
Qed.

Lemma apart_dir G : apart G dirF.
Proof.
  intros x y u v a Hx Hy Hu Hv. unfold dirF in *.
  destruct (hasDir (v_st u)), (hasDir (v_st v)); try done.
  apply (vmDirOf_inj cfg). congruence.
Qed.

Lemma AInv_grant G al al' n id v v' :
  G !! id = Some v → v_k v = None → v_k v' = Some n → hasIP (v_st v') = true →
  0 ≤ n → Reach p (n + 1) al' →
  al_in_use al' = <[ipAt p n := true]> (al_in_use al) →
  apart G kF → holds G ipF ∅ (dom (al_in_use al)) →
  (∀ j u, G !! j = Some u → hasIP (v_st u) = true → is_Some (v_k u)) →
  (∀ j u k, G !! j = Some u → v_k u = Some k → 0 ≤ k < n) →
  AInv (<[id := v']> G) al'.
Proof.
  intros Hid Hv Hv' Hip Hn Hr Hu Ha Hh His Hlt. split_and!.
  - eapply apart_gain; [exact Hv'| |done]. intros j u Hj Hk. specialize (Hlt j u n Hj Hk). lia.
  - rewrite Hu, dom_insert_L. eapply holds_gain; [done| | |done].
    + unfold ipF. rewrite Hv. destruct (hasIP (v_st v)); reflexivity.
    + unfold ipF. by rewrite Hip, Hv'.
  - intros j u Hj Hj'. apply lookup_insert_Some in Hj as [[<- <-]|[_ Hj]]; eauto.
  - exists (n + 1). split_and!; [lia|done|]. intros j u k Hj Hk.
    apply lookup_insert_Some in Hj as [[<- <-]|[_ Hj]]; [simplify_eq; lia|].
    specialize (Hlt j u k Hj Hk). lia.
Qed.

Lemma AInv_release G al id v v' ip :
  G !! id = Some v → ipF id v = Some ip → hasIP (v_st v') = false → v_k v' = v_k v →
  AInv G al → AInv (<[id := v']> G) (Release ip al).
Proof.
  intros Hid Hip Hip' Hk (Ha & Hh & His & n & Hn & Hr & Hlt). split_and!.
  - eapply apart_keep; eauto.
  - cbn [Release al_in_use]. rewrite dom_delete_L.
    eapply holds_lose; [done|done|by unfold ipF; rewrite Hip'|set_solver|by apply apart_ip|done].
  - intros j u Hj Hj'. apply lookup_insert_Some in Hj as [[<- <-]|[_ Hj]]; [congruence|eauto].
  - exists n. split_and!; [done|by apply Release_reach|]. intros j u k Hj Hu.
    apply lookup_insert_Some in Hj as [[<- <-]|[_ Hj]]; [|by eapply Hlt].
    rewrite Hk in Hu. by eapply Hlt.
Qed.

Lemma LInv_gain G links id v v' t :
  G !! id = Some v → tapF id v = None → tapF id v' = Some t → LInv G links →
  LInv (<[id := v']> G) ({[t]} ∪ links).
Proof. intros Hid Hv Hv' [Hh Hb]. split; [|done]. by eapply holds_gain. Qed.

Lemma LInv_lose G links id v v' t k :
  G !! id = Some v → tapF id v = Some t → tapF id v' = None → v_k v = Some k → 0 ≤ k →
  apart G kF → LInv G links → LInv (<[id := v']> G) (links ∖ {[t]}).
Proof.
  intros Hid Hv Hv' Hk H0 Ha [Hh Hb]. split; [|done].
  eapply holds_lose; [done..| |by apply apart_tap|done].
  unfold tapF in Hv. rewrite Hk in Hv. destruct (_ || _); [|done].
  injection Hv as <-. auto.
Qed.

Lemma tap_absent G links id v k :
  G !! id = Some v → tapF id v = None → v_k v = Some k → 0 ≤ k → apart G kF → LInv G links →
  tapOf (k + 1) ∉ links.
Proof.
  intros Hid Hv Hk H0 Ha [Hh Hb] Hin. apply Hh in Hin as [Hin|(j & u & Hj & Hu)].
  - by apply (Hb k).
  - assert (v_k u = Some k) as Huk.
    { unfold tapF in Hu. destruct (_ || _), (v_k u) as [l|]; cbn in Hu; try done.
      assert (tapOf (l + 1) = tapOf (k + 1)) as Htap%tapOf_inj by congruence. f_equal. lia. }
    assert (j = id) as -> by (by apply (Ha j id u v k)). simplify_eq.
Qed.

Lemma DInv_gain G dirs mounts id v v' :
  G !! id = Some v → hasDir (v_st v) = false → hasDir (v_st v') = true → v_dirty v' = v_dirty v →
  DInv G dirs mounts → DInv (<[id := v']> G) ({[vmDirOf cfg id]} ∪ dirs) mounts.
Proof.
  intros Hid Hv Hv' Hd (Hs & Hin & Ht). split_and!.
  - intros j u Hj. apply lookup_insert_Some in Hj as [[<- <-]|[_ Hj]]; eauto.
  - intros j u Hj Hu. apply lookup_insert_Some in Hj as [[<- <-]|[_ Hj]]; [set_solver|].
    apply elem_of_union_r. eauto.
  - intros Htd. assert (tidy G) as [Hh Hm]%Ht by (eapply tidy_update; [done| |done]; congruence).
    split; [|done]. eapply holds_gain; [done| | |done]; unfold dirF; by rewrite ?Hv, ?Hv'.
Qed.

Lemma DInv_lose G dirs mounts id v v' :
  G !! id = Some v → hasDir (v_st v) = true → hasDir (v_st v') = false → v_dirty v' = v_dirty v →
  DInv G dirs mounts →
  DInv (<[id := v']> G) (outside (vmDirOf cfg id) dirs ∖ {[vmDirOf cfg id]}) mounts.
Proof.
  intros Hid Hv Hv' Hd (Hs & Hin & Ht). split_and!.
  - intros j u Hj. apply lookup_insert_Some in Hj as [[<- <-]|[_ Hj]]; eauto.
  - intros j u Hj Hu. apply lookup_insert_Some in Hj as [[<- <-]|[Hne Hj]]; [congruence|].
    apply elem_of_difference. rewrite outside_elem, elem_of_singleton. split_and!; [by eapply Hin| |].
    + apply vmDirOf_inside. by destruct (Hs j u Hj).
    + intros ?%vmDirOf_inj. congruence.
  - intros Htd. assert (tidy G) as [Hh Hm]%Ht by (eapply tidy_update; [done| |done]; congruence).
    split; [|done]. destruct (Hs id v Hid) as [_ [Hf1 Hf2]]. rewrite outside_id.
    + eapply holds_lose; [done| | |done|apply apart_dir|done]; unfold dirF; by rewrite ?Hv, ?Hv'.
    + intros x [Hx|(j & u & Hj & Hu)]%Hh; [by apply Hf2|]. unfold dirF in Hu.
      destruct (hasDir (v_st u)); simplify_eq. apply vmDirOf_inside. by destruct (Hs j u Hj).
Qed.

Lemma DInv_dirty G dirs mounts dirs' mounts' id v v' :
  G !! id = Some v → hasDir (v_st v') = hasDir (v_st v) → v_dirty v' = true → dirs ⊆ dirs' →
  DInv G dirs mounts → DInv (<[id := v']> G) dirs' mounts'.
Proof.
  intros Hid Hv Hd Hsub (Hs & Hin & _). split_and!.
  - intros j u Hj. apply lookup_insert_Some in Hj as [[<- <-]|[_ Hj]]; eauto.
  - intros j u Hj Hu. apply Hsub. apply lookup_insert_Some in Hj as [[<- <-]|[_ Hj]]; [|by eauto].
    rewrite Hv in Hu. eauto.
  - intros Htd. specialize (Htd id v' (lookup_insert_eq _ _ _)). congruence.
Qed.

Lemma TInv_register G tbl heap id v v' a s :
  G !! id = Some v → v_st v = SProc → v_st v' = SLive → v_addr v' = a →
  heap !! a = None → cellFor id v' s → TInv G tbl heap →
  TInv (<[id := v']> G) (<[id := a]> tbl) (<[a := s]> heap).
Proof.
  intros Hid Hv Hv' Ha Hno Hs (Ht & Hap & Hcell).
  assert (∀ j u, G !! j = Some u → hasCell (v_st u) = true → v_addr u ≠ a) as Hne.
  { intros j u Hj Hu Heq. destruct (Hcell j u Hj Hu) as (? & ? & _). congruence. }
  split_and!.
  - intros j b. destruct (decide (id = j)) as [<-|Hj].
    + rewrite !lookup_insert_eq. naive_solver.
    + by rewrite !lookup_insert_ne.
  - apply (apart_gain _ _ _ _ a); [by unfold cellF; rewrite Hv'; simpl; f_equal| |done].
    intros j u Hj Hu. unfold cellF in Hu. destruct (hasCell (v_st u)) eqn:E; [|done].
    injection Hu. by apply (Hne j u).
  - intros j u Hj Hu. apply lookup_insert_Some in Hj as [[<- <-]|[_ Hj]].
    + exists s. by rewrite Ha, lookup_insert_eq.
    + destruct (Hcell j u Hj Hu) as (t & Ht1 & Ht2). exists t.
      rewrite lookup_insert_ne; [done|]. intros Heq. by apply (Hne j u).
Qed.

Lemma TInv_take G tbl heap id v v' :
  G !! id = Some v → v_st v = SLive → v' = goto SOut v → TInv G tbl heap →
  TInv (<[id := v']> G) (delete id tbl) heap.
Proof.
  intros Hid Hv -> (Ht & Hap & Hcell). split_and!.
  - intros j a. destruct (decide (id = j)) as [<-|Hj].
    + rewrite lookup_delete_eq, lookup_insert_eq. split; [done|]. by intros (u & [= <-] & ? & _).
    + by rewrite lookup_delete_ne, lookup_insert_ne.
  - eapply apart_keep; [done| |done]. left. unfold cellF. by rewrite Hv.
  - intros j u Hj Hu. apply lookup_insert_Some in Hj as [[<- <-]|[_ Hj]]; [|by eauto].
    destruct (Hcell id v Hid) as (s & Hs & []); [by rewrite Hv|]. exists s. split; [done|]. by split.
Qed.

Lemma TInv_shut G tbl heap id v v' s :
  G !! id = Some v → v_st v = SOut → v' = goto SStopping v → TInv G tbl heap →
  TInv (<[id := v']> G) tbl (<[v_addr v := s]> heap).
Proof.
  intros Hid Hv -> (Ht & Hap & Hcell). split_and!.
  - intros j a. rewrite (Ht j a). destruct (decide (id = j)) as [<-|Hj];
      [|by rewrite lookup_insert_ne]. rewrite lookup_insert_eq, Hid.
    split; intros (u & [= <-] & Hu & _); [congruence|done].
  - eapply apart_keep; [done|by right|done].
  - intros j u Hj Hu. apply lookup_insert_Some in Hj as [[<- <-]|[Hne Hj]]; [done|].
    destruct (Hcell j u Hj Hu) as (t & Ht1 & Ht2). exists t. rewrite lookup_insert_ne; [done|].
    intros Heq. apply Hne, (Hap id j v u (v_addr v)); [done..| |]; unfold cellF.
    + by rewrite Hv.
    + by rewrite Hu, Heq.
Qed.

Lemma PInv_launch G hs procs id v v' pid :
  G !! id = Some v → v_st v = SDir → v_st v' = SProc → v_pid v' = pid → pid ∉ procs →
  PInv G hs procs → PInv (<[id := v']> G) (<[id := (pid, PRunning)]> hs) ({[pid]} ∪ procs).
Proof.
  intros Hid Hv Hv' Hpid Hnew (Hh & Ha & Hb & Hn & Hg).
  assert (hs !! id = None) as Hno by (specialize (Hg id v Hid); by rewrite Hv in Hg).
  split_and!.
  - by apply holds_new.
  - eapply apart_gain; [done| |done]. by eapply holds_fresh.
  - intros j h q Hj Hq. apply lookup_insert_Some in Hj as [[<- <-]|[_ Hj]]; [|by eapply Hb].
    cbn in Hq. simplify_eq. intros ?. apply Hnew, Hh. by left.
  - intros j Hj. apply lookup_insert_None in Hj as [Hj Hne]. rewrite lookup_insert_ne by done. auto.
  - intros j u Hj. destruct (decide (id = j)) as [<-|Hne].
    + rewrite lookup_insert_eq. rewrite lookup_insert_eq in Hj. injection Hj as <-.
      rewrite Hv', Hpid. simpl. eauto.
    + rewrite lookup_insert_ne by done. rewrite lookup_insert_ne in Hj by done. auto.
Qed.

(** A process changes its state and nobody's stage does. *)
Lemma PInv_status G hs procs id pid s s' :
  hs !! id = Some (pid, s) → s ≠ PReaped → PInv G hs procs →
  PInv G (<[id := (pid, s')]> hs) (if decide (s' = PReaped) then procs ∖ {[pid]} else procs).
Proof.
  intros Hid Hs (Hh & Ha & Hb & Hn & Hg).
  assert (pidF id (pid, s) = Some pid) as Hf by (by destruct s).
  assert (pid ∉ o_procs base) as Hpb by (by eapply Hb).
  split_and!.
  - case_decide as E; [subst s'; by eapply holds_lose|].
    eapply holds_keep; [done| |done]. rewrite Hf. by destruct s'.
  - eapply apart_keep; [done| |done]. rewrite Hf. destruct s'; [by left|by left|by right].
  - intros j h q Hj Hq. apply lookup_insert_Some in Hj as [[<- <-]|[_ Hj]]; [|by eapply Hb].
    destruct s'; naive_solver.
  - intros j Hj. rewrite lookup_insert_ne; [by auto|]. intros <-. specialize (Hn id Hj). congruence.
  - intros j u Hj. specialize (Hg j u Hj). destruct (decide (id = j)) as [<-|Hne];
      [|by rewrite lookup_insert_ne]. rewrite lookup_insert_eq. rewrite Hid in Hg.
    destruct (v_st u); simpl in *; naive_solver.
Qed.

(** *** What a finished thread still owns *)

(** The VMs a call tore down, and the one it failed to boot. *)
Definition winners (r : CRes) : list string :=
  match r with
  | RLaunch id _ (Some (Ok _)) => [id]
  | RDestroy id (Ok _) | RReaper id (Ok _) => [id]
  | RShutdown l => omap (λ x, match x.2 with Ok _ => Some x.1 | Err _ => None end) l
  | _ => []
  end.
Definition botched (r : CRes) : list string :=
  match r with RLaunch id (Err _) None => [id] | _ => [] end.

(** No destruction panicked. *)
Definition calmRes (r : res GoErr unit) : Prop := r = Ok tt ∨ r = Err ErrNotFound.
Definition calm (r : CRes) : Prop :=
  match r with
  | RLaunch _ _ (Some d) => calmRes d
  | RLaunch _ _ None => True
  | RDestroy _ d | RReaper _ d => calmRes d
  | RShutdown l => ∀ x, x ∈ l → calmRes x.2
  end.

(** A VM whose failure left nothing on the host. *)
Definition spotless v : Prop := v_leak v = false ∧ v_dirty v = false.
Definition leavesR (r : CRes) : bool :=
  match r with RLaunch _ (Err e) None => leaves e | _ => false end.

Record Post (r : CRes) (o : gmap string VM) : Prop := {
  po_keys : ∀ id, is_Some (o !! id) ↔ id ∈ winners r ∨ id ∈ botched r;
  po_gone : ∀ id v, o !! id = Some v → id ∈ winners r → v_st v = SGone ∧ spotless v;
  po_failed : ∀ id v, o !! id = Some v → id ∈ botched r →
    v_st v = SFailed ∧ (leavesR r = false → spotless v);
  po_nodup : NoDup (winners r);
  po_calm : calm r
}.

(** Only a reaper waits. *)
Definition Waits (q : prog (CWorld OS) CRes) c : Prop :=
  ∃ id pid, q = reaperP id ∧ ph c !! id = Some (pid, PRunning).

Abbreviation safeC := (safe isLive CInv Post Waits).
Implicit Types o : gmap string VM.

(** One step on a VM the thread owns. *)
Lemma safe_own {A} (m : osM (World OS) A) k o id v :
  (∀ G c, CInv G c → G !! id = Some v →
     wp m (λ b w', ∃ v', isLive v' = false ∧ CInv (<[id := v']> G) (mkCW w' (ph c)) ∧
                         safeC (k b) (<[id := v']> o)) (cw c)) →
  safeC (Act (worldM m) k) (<[id := v]> o).
Proof.
  intros Hm G c HI Ho. unfold worldM.
  destruct (Ho id v (lookup_insert_eq _ _ _)) as [Hid _].
  specialize (Hm G c HI Hid). apply wp_run in Hm. destruct (m (cw c)) as [b w'].
  destruct Hm as (v' & Hf & HI' & Hs). exists (<[id := v']> G), (<[id := v']> o).
  split_and!; [done| |done].
  pose proof (moved_own isLive _ G id v v' Ho (lookup_insert_eq _ _ _) Hf) as Hmv.
  by rewrite insert_insert_eq in Hmv.
Qed.

Lemma CInv_obs G c os' :
  obs os' = obs (w_os (cw c)) → CInv G c →
  CInv G (mkCW (mkWorld os' (w_alloc (cw c)) (w_sessions (cw c)) (w_heap (cw c))) (ph c)).
Proof. intros Ho []. split; cbn [cw w_os w_alloc w_sessions w_heap ph]; by rewrite ?Ho. Qed.

(** The stage changes and the world does not. *)
Lemma CInv_goto G c id v st :
  G !! id = Some v → hasIP st = hasIP (v_st v) → hasTap st = hasTap (v_st v) →
  hasDir st = hasDir (v_st v) → hasCell st = hasCell (v_st v) → (st = SLive ↔ v_st v = SLive) →
  handleOK st (v_pid v) (ph c !! id) → CInv G c → CInv (<[id := goto st v]> G) c.
Proof.
  intros Hid Hip Htap Hdir Hcell Hl Hh [HA HL HD HT HP HR]. split; [..|done].
  - by eapply AInv_keep.
  - eapply LInv_keep; [done| |done]. unfold tapF. cbn [goto v_st v_k v_leak]. by rewrite Htap.
  - by eapply DInv_keep.
  - by eapply TInv_keep.
  - by eapply PInv_keep.
Qed.

Lemma CInv_kpos G c id v : CInv G c → G !! id = Some v → ∀ k, v_k v = Some k → 0 ≤ k.
Proof.
  intros [(_ & _ & _ & n & _ & _ & Hlt) _ _ _ _ _] Hid k Hk. specialize (Hlt id v k Hid Hk). lia.
Qed.

(** The stages between which a device, an address or a directory goes away. *)
Definition untaps (st st' : Stage) : Prop :=
  (st = STap ∧ st' = SAddr) ∨ (st = SStopped ∧ st' = SUntapped).
Definition releases (st st' : Stage) : Prop :=
  (st = SAddr ∧ st' = SFailed) ∨ (st = SUntapped ∧ st' = SFreed).
Definition sweeps (st st' : Stage) : Prop :=
  (st = SDir ∧ st' = STap) ∨ (st = SFreed ∧ st' = SGone).

(** Decides what a VM holds before and after a change of its stage. *)
Ltac stages Hst :=
  cbn [goto v_st v_k v_leak v_dirty v_addr v_pid] in *;
  destruct Hst as [[?E ?E]|[?E ?E]]; subst; cbn [goto v_st v_k v_leak v_dirty v_addr v_pid] in *;
  repeat match goal with
  | E : v_st _ = _ |- _ => rewrite ?E in *; clear E
  end; by simpl in *.
Ltac world := cbn [cw w_os w_alloc w_sessions w_heap ph set_links set_dirs set_procs o_links o_dirs
  o_mounts o_procs o_rules].

Lemma safe_DeleteTAP id v st' k tap P o :
  untaps (v_st v) st' → v_leak v = false → v_k v = Some k → tap = tapOf (k + 1) →
  safeC P (<[id := goto st' v]> o) →
  safeC (Act (worldM (liftOS (DeleteTAP tap))) (λ _, P)) (<[id := v]> o).
Proof.
  intros Hst Hlk Hk -> HP. apply safe_own. intros G c HI Hid.
  apply wp_liftOS, wp_DeleteTAP. intros os' Ho. exists (goto st' v).
  pose proof (CInv_kpos _ _ _ _ HI Hid k Hk) as H0. destruct HI as [HA HL HD HT HP' HR].
  split_and!; [unfold isLive; stages Hst| |done].
  split; world; rewrite ?Ho; world; [| | | | |done].
  - eapply AInv_keep; [done|done| |done]. stages Hst.
  - eapply LInv_lose; [done| | |done|done|apply HA|done]; unfold tapF; rewrite ?Hlk, ?Hk.
    + stages Hst.
    + cbn [goto v_leak]. rewrite Hlk. stages Hst.
  - eapply DInv_keep; [done| |done|done]. stages Hst.
  - eapply TInv_keep; [done| | | |done]; stages Hst.
  - eapply PInv_keep; [done| |done]. destruct HP' as (_ & _ & _ & _ & Hg). specialize (Hg id v Hid).
    stages Hst.
Qed.

Lemma safe_release id v st' k ip P o :
  releases (v_st v) st' → v_k v = Some k → ip = ipAt p k →
  safeC P (<[id := goto st' v]> o) →
  safeC (Act (worldM (releaseM ip)) (λ _, P)) (<[id := v]> o).
Proof.
  intros Hst Hk -> HP. apply safe_own. intros G c HI Hid.
  apply wp_releaseM. exists (goto st' v). destruct HI as [HA HL HD HT HP' HR].
  split_and!; [unfold isLive; stages Hst| |done].
  split; world; [| | | | |done].
  - eapply AInv_release; [done| | |done|done]; [unfold ipF; rewrite Hk|]; stages Hst.
  - eapply LInv_keep; [done| |done]. unfold tapF. stages Hst.
  - eapply DInv_keep; [done| |done|done]. stages Hst.
  - eapply TInv_keep; [done| | | |done]; stages Hst.
  - eapply PInv_keep; [done| |done]. destruct HP' as (_ & _ & _ & _ & Hg). specialize (Hg id v Hid).
    stages Hst.
Qed.

Lemma safe_removeAll id v st' P o :
  sweeps (v_st v) st' → safeC P (<[id := goto st' v]> o) →
  safeC (Act (worldM (liftOS (removeAll (vmDirOf cfg id)))) (λ _, P)) (<[id := v]> o).
Proof.
  intros Hst HP. apply safe_own. intros G c HI Hid.
  apply wp_liftOS, wp_removeAll. intros os' Ho. exists (goto st' v).
  destruct HI as [HA HL HD HT HP' HR]. split_and!; [unfold isLive; stages Hst| |done].
  split; world; rewrite ?Ho; world; [| | | | |done].
  - eapply AInv_keep; [done|done| |done]. stages Hst.
  - eapply LInv_keep; [done| |done]. unfold tapF. stages Hst.
  - eapply DInv_lose; [done| | |done|done]; stages Hst.
  - eapply TInv_keep; [done| | | |done]; stages Hst.
  - eapply PInv_keep; [done| |done]. destruct HP' as (_ & _ & _ & _ & Hg). specialize (Hg id v Hid).
    stages Hst.
Qed.

(** The error path of [Create] once the VM has a directory. *)
Lemma safe_cleanup id v k tap ip P o :
  v_st v = SDir → v_leak v = false → v_k v = Some k → tap = tapOf (k + 1) → ip = ipAt p k →
  safeC P (<[id := goto SFailed v]> o) →
  safeC (cleanupP (vmDirOf cfg id) tap ip P) (<[id := v]> o).
Proof.
  intros Hst Hlk Hk Ht Hi HP. unfold cleanupP.
  apply (safe_removeAll _ _ STap); [by left|]. apply (safe_DeleteTAP _ _ SAddr k); [by left|done..|].
  by apply (safe_release _ _ SFailed k); [left|..].
Qed.

(** *** Destroy *)

Lemma CInv_live G c id a :
  CInv G c → w_sessions (cw c) !! id = Some a →
  ∃ v s, G !! id = Some v ∧ v_st v = SLive ∧ v_addr v = a ∧ w_heap (cw c) !! a = Some s ∧ cellFor id v s.
Proof.
  intros [_ _ _ (Ht & _ & Hcell) _ _] (v & Hid & Hv & <-)%Ht.
  destruct (Hcell id v Hid) as (s & ? & ?); [by rewrite Hv|]. eauto 10.
Qed.

(** Taking a session out of the table, or finding that it is not there. *)
Lemma safe_take id k o :
  (∀ v, v_st v = SOut → o !! id = None → safeC (k (Some (v_addr v))) (<[id := v]> o)) →
  safeC (k None) o →
  safeC (Act (worldM (takeM id)) k) o.
Proof.
  intros Hsome Hnone G c HI Ho. unfold worldM, takeM, Get.
  destruct (w_sessions (cw c) !! id) as [a|] eqn:E.
  2:{ exists G, o. destruct c as [w hs]. split_and!; [done|by apply moved_refl|done]. }
  destruct (CInv_live G c id a HI E) as (v & s & Hid & Hv & <- & Hs & Hc).
  assert (isLive v = true) as Hl by (unfold isLive; by rewrite Hv).
  assert (o !! id = None) as Hno.
  { destruct (o !! id) as [u|] eqn:Eu; [|done]. destruct (Ho id u Eu). congruence. }
  exists (<[id := goto SOut v]> G), (<[id := goto SOut v]> o).
  split_and!; [|by eapply moved_take|by apply (Hsome (goto SOut v))].
  destruct HI as [HA HL HD HT HP' HR]. split; world; [| | | | |done].
  - eapply AInv_keep; [done|done| |done]. by rewrite Hv.
  - eapply LInv_keep; [done| |done]. unfold tapF. cbn [goto v_st v_k v_leak]. by rewrite Hv.
  - eapply DInv_keep; [done| |done|done]. by rewrite Hv.
  - by eapply TInv_take.
  - eapply PInv_keep; [done| |done]. destruct HP' as (_ & _ & _ & _ & Hg). specialize (Hg id v Hid).
    by rewrite Hv in Hg.
Qed.

(** [CloseDone] on the session just taken: it cannot panic. *)
Lemma safe_close id v k o :
  v_st v = SOut →
  (∀ s, cellFor id v s → safeC (k (Ok s)) (<[id := goto SStopping v]> o)) →
  safeC (Act (worldM (closeM (v_addr v))) k) (<[id := v]> o).
Proof.
  intros Hv Hk. apply safe_own. intros G c HI Hid. destruct HI as [HA HL HD HT HP' HR].
  pose proof HT as (_ & _ & Hcell). destruct (Hcell id v Hid) as (s & Hs & Hc); [by rewrite Hv|].
  apply wp_intro. unfold closeM. rewrite Hs. unfold CloseDone.
  rewrite (cf_done _ _ _ Hc), (cf_once _ _ _ Hc). cbn [fst snd].
  exists (goto SStopping v). split_and!; [done| |by apply Hk].
  split; world; [| | | | |done].
  - eapply AInv_keep; [done|done| |done]. by rewrite Hv.
  - eapply LInv_keep; [done| |done]. unfold tapF. cbn [goto v_st v_k v_leak]. by rewrite Hv.
  - eapply DInv_keep; [done| |done|done]. by rewrite Hv.
  - by eapply TInv_shut.
  - eapply PInv_keep; [done| |done]. destruct HP' as (_ & _ & _ & _ & Hg). specialize (Hg id v Hid).
    by rewrite Hv in Hg.
Qed.

(** The host once a process is reaped. *)
Lemma CInv_reaped G c id pid st os' :
  CInv G c → ph c !! id = Some (pid, st) → st ≠ PReaped →
  obs os' = set_procs (o_procs (obs (w_os (cw c))) ∖ {[pid]}) (obs (w_os (cw c))) →
  CInv G (mkCW (mkWorld os' (w_alloc (cw c)) (w_sessions (cw c)) (w_heap (cw c)))
            (<[id := (pid, PReaped)]> (ph c))).
Proof.
  intros [HA HL HD HT HP' HR] Hid Hst Ho. split; world; rewrite ?Ho; world; try done.
  exact (PInv_status _ _ _ _ _ _ PReaped Hid Hst HP').
Qed.

Lemma stopProc_world (pid : Z) w : ∃ os',
  liftOS (stopProc pid) w = (tt, mkWorld os' (w_alloc w) (w_sessions w) (w_heap w)) ∧
  obs os' = set_procs (o_procs (obs (w_os w)) ∖ {[pid]}) (obs (w_os w)).
Proof.
  unfold liftOS. pose proof (stop_effect pid (w_os w)) as He.
  destruct (stopProc pid (w_os w)) as [[] os']. eauto.
Qed.

Lemma safe_stop id v pid P o :
  v_st v = SStopping → pid = v_pid v → safeC P (<[id := goto SStopped v]> o) →
  safeC (Act (stopM id pid) (λ _, P)) (<[id := v]> o).
Proof.
  intros Hv -> HP G c HI Ho. destruct (Ho id v (lookup_insert_eq _ _ _)) as [Hid _].
  assert (moved isLive (<[id := v]> o) (<[id := goto SStopped v]> o) G (<[id := goto SStopped v]> G)) as Hm.
  { pose proof (moved_own isLive _ G id v (goto SStopped v) Ho (lookup_insert_eq _ _ _) eq_refl) as Hmv.
    by rewrite insert_insert_eq in Hmv. }
  destruct (ci_procs _ _ HI) as (_ & _ & _ & _ & Hg). specialize (Hg id v Hid). rewrite Hv in Hg.
  destruct Hg as [st Hst].
  assert (∀ c', CInv G c' → ph c' !! id = Some (v_pid v, PReaped) →
            CInv (<[id := goto SStopped v]> G) c') as Hgoto.
  { intros c' HI' Hh. apply CInv_goto; rewrite ?Hv; done. }
  unfold stopM. rewrite Hst. destruct (decide (st = PReaped)) as [->|Hne].
  - exists (<[id := goto SStopped v]> G), (<[id := goto SStopped v]> o). split_and!; auto.
  - destruct (stopProc_world (v_pid v) (cw c)) as (os' & E & Hob). rewrite E.
    destruct st; [| |done];
      (exists (<[id := goto SStopped v]> G), (<[id := goto SStopped v]> o); split_and!; [|done|done];
       apply Hgoto; [by eapply CInv_reaped|by cbn [ph]; rewrite lookup_insert_eq]).
Qed.

Lemma safe_DestroyP id k o :
  (∀ v, v_st v = SGone → spotless v → o !! id = None → safeC (k (Ok tt)) (<[id := v]> o)) →
  safeC (k (Err ErrNotFound)) o →
  safeC (DestroyP id k) o.
Proof.
  intros Hok Hmissing. unfold DestroyP. apply safe_take; [|done]. intros v Hv Hno.
  apply safe_close; [done|]. intros s Hc. rewrite (cf_proc _ _ _ Hc), (cf_id _ _ _ Hc), (cf_dir _ _ _ Hc).
  pose proof (cf_ip _ _ _ Hc) as Hip. pose proof (cf_tap _ _ _ Hc) as Htap.
  destruct (v_k v) as [k'|] eqn:Ek; [|done]. cbn in Hip, Htap.
  apply safe_stop; [done|done|].
  apply (safe_DeleteTAP _ _ SUntapped k'); [by right|by apply Hc|done|congruence|].
  apply (safe_release _ _ SFreed k'); [by right|done|congruence|].
  apply (safe_removeAll _ _ SGone); [by right|]. apply Hok; [done| |done].
  split; [apply (cf_leak _ _ _ Hc)|apply (cf_dirty _ _ _ Hc)].
Qed.

Lemma Post_one r id v :
  (winners r = [id] ∧ botched r = [] ∧ v_st v = SGone ∧ spotless v) ∨
  (winners r = [] ∧ botched r = [id] ∧ v_st v = SFailed ∧ (leavesR r = false → spotless v)) →
  calm r → Post r (<[id := v]> ∅).
Proof.
  intros Hr Hc. assert (∀ j u, <[id := v]> (∅ : gmap string VM) !! j = Some u → j = id ∧ u = v) as Hl.
  { intros j u [[<- <-]|[_ Hj]]%lookup_insert_Some; [done|]. by rewrite lookup_empty in Hj. }
  destruct Hr as [(Hw & Hb & Hv)|(Hw & Hb & Hv)];
    (split; rewrite ?Hw, ?Hb; [| | | |done]; [|naive_solver set_solver|naive_solver set_solver|]).
  1,3: intros j; rewrite lookup_insert_is_Some, lookup_empty; split;
    [intros [<-|[_ [? ?]]]; [set_solver|done]|set_solver].
  - apply NoDup_singleton.
  - apply NoDup_nil_2.
Qed.

Lemma Post_none r : winners r = [] → botched r = [] → calm r → Post r ∅.
Proof.
  intros Hw Hb Hc. split; rewrite ?Hw, ?Hb; [|set_solver|set_solver|apply NoDup_nil_2|done].
  intros j. rewrite lookup_empty. split; [by intros [? ?]|set_solver].
Qed.

Lemma safe_reaper id : safeC (reaperP id) ∅.
Proof.
  intros G c HI Ho. unfold waitM.
  assert (safeC (DestroyP id (λ r, Ret (RReaper id r))) ∅) as Hd.
  { apply safe_DestroyP; [intros v Hv Hsp _; apply Post_one; [by left|by left]|].
    apply Post_none; [done..|by right]. }
  destruct (ph c !! id) as [[pid []]|] eqn:E.
  1: { split; [done|]. by exists id, pid. }
  1: { destruct (stopProc_world pid (cw c)) as (os' & Es & Hob). rewrite Es. exists G, ∅.
       split_and!; [by eapply CInv_reaped|by apply moved_refl|done]. }
  all: exists G, ∅; split_and!; [done|by apply moved_refl|done].
Qed.

(** *** Create *)

(** A step that only reads. *)
Lemma safe_gets {A} (f : World OS → A) k id v o :
  (∀ a, safeC (k a) (<[id := v]> o)) → isLive v = false →
  safeC (Act (worldM (gets f)) k) (<[id := v]> o).
Proof.
  intros Hk Hl. apply safe_own. intros G c HI Hid. apply wp_gets. exists v.
  rewrite insert_id by done. destruct c. split_and!; auto.
Qed.

Lemma safe_alloc id k o :
  (∀ n, 0 ≤ n → safeC (k (Ok (grantAt p n))) (<[id := mkVM SAddr (Some n) false false 0 0]> o)) →
  safeC (k (Err ErrNoFreeIPs)) (<[id := goto SFailed newVM]> o) →
  safeC (Act (worldM allocM) k) (<[id := newVM]> o).
Proof.
  intros Hok Herr. apply safe_own. intros G c HI Hid. destruct HI as [HA HL HD HT HP' HR].
  destruct HA as (Ha & Hh & His & n & Hn & Hr & Hlt).
  apply (wp_allocM p n); [done..| |].
  - intros al Hr' Hcap Hu _. exists (mkVM SAddr (Some n) false false 0 0).
    split_and!; [done| |by apply Hok]. split; world; [| | | | |done].
    + by eapply AInv_grant.
    + by eapply LInv_keep.
    + by eapply DInv_keep.
    + by eapply TInv_keep.
    + eapply PInv_keep; [done| |done]. destruct HP' as (_ & _ & _ & _ & Hg). exact (Hg id newVM Hid).
  - intros al Hr' Hu. exists (goto SFailed newVM). split_and!; [done| |done].
    apply CInv_goto; [done..|by destruct HP' as (_ & _ & _ & _ & Hg); exact (Hg id newVM Hid)|].
    split; world; [|done..]. split_and!; [done|by rewrite Hu|done|]. exists (n + 1).
    split_and!; [lia|done|]. intros j u l Hj Hl. specialize (Hlt j u l Hj Hl). lia.
Qed.

(** The capacity check. *)
Lemma safe_check id k o :
  safeC (k false) (<[id := newVM]> o) → safeC (k true) (<[id := goto SFailed newVM]> o) →
  safeC (Act (worldM (gets (atCapacity cfg))) k) (<[id := newVM]> o).
Proof.
  intros Hok Hfull. apply safe_own. intros G c HI Hid. apply wp_gets. destruct c as [w hs].
  destruct (atCapacity cfg _).
  - exists (goto SFailed newVM). split_and!; [done| |done]. apply CInv_goto; [done..| |done].
    destruct (ci_procs _ _ HI) as (_ & _ & _ & _ & Hg). exact (Hg id newVM Hid).
  - exists newVM. rewrite insert_id by done. by split_and!.
Qed.

(** [CreateTAP]: the device is new, so a success makes it and a failure may
    leave it behind. *)
Lemma safe_CreateTAP id n tap bridge k o :
  tap = tapOf (n + 1) →
  safeC (k (Ok tt)) (<[id := mkVM STap (Some n) false false 0 0]> o) →
  (∀ e leak, safeC (k (Err e)) (<[id := mkVM SAddr (Some n) leak false 0 0]> o)) →
  safeC (Act (worldM (liftOS (CreateTAP tap bridge))) k) (<[id := mkVM SAddr (Some n) false false 0 0]> o).
Proof.
  intros -> Hok Herr. apply safe_own. intros G c HI Hid. apply wp_liftOS.
  pose proof (CInv_kpos _ _ _ _ HI Hid n eq_refl) as H0.
  pose proof (tap_absent G _ id _ n Hid eq_refl eq_refl H0 (proj1 (ci_alloc _ _ HI)) (ci_links _ _ HI)) as Hno.
  eapply wp_mono; [|apply wp_CreateTAP]. intros r os' [Hin Hob].
  assert (∀ v', tapF id v' = Some (tapOf (n + 1)) → (v_st v' = STap ∨ v_st v' = SAddr) →
            v_k v' = Some n → v_dirty v' = false →
            obs os' = cmdEffect (IpTuntapAdd (tapOf (n + 1))) (obs (w_os (cw c))) →
            CInv (<[id := v']> G) (mkCW (mkWorld os' (w_alloc (cw c)) (w_sessions (cw c)) (w_heap (cw c))) (ph c))) as Hmade.
  { intros v' Ht Hst Hk Hd Ho. destruct HI as [HA HL HD HT HP' HR].
    split; world; rewrite ?Ho; world; [| | | | |done].
    - eapply AInv_keep; [done|done| |done]. by destruct Hst as [-> | ->].
    - by eapply LInv_gain.
    - eapply DInv_keep; [done| |by rewrite Hd|done]. by destruct Hst as [-> | ->].
    - eapply TInv_keep; [done| | | |done]; cbn [v_st hasCell]; destruct Hst as [E|E]; by rewrite ?E.
    - eapply PInv_keep; [done| |done]. destruct HP' as (_ & _ & _ & _ & Hg). specialize (Hg _ _ Hid).
      by destruct Hst as [-> | ->]. }
  destruct r as [[]|e], Hob as [Hob|Hob].
  - destruct Hno. rewrite <- Hob. by apply Hin.
  - exists (mkVM STap (Some n) false false 0 0). split_and!; [done| |done]. apply Hmade; auto.
  - exists (mkVM SAddr (Some n) false false 0 0). split_and!; [done| |done].
    rewrite insert_id by done. by apply CInv_obs.
  - exists (mkVM SAddr (Some n) true false 0 0). split_and!; [done| |done]. apply Hmade; auto.
Qed.

Lemma safe_mkdirAll id n k o :
  safeC (k true) (<[id := mkVM SDir (Some n) false false 0 0]> o) →
  safeC (k false) (<[id := mkVM STap (Some n) false false 0 0]> o) →
  safeC (Act (worldM (liftOS (mkdirAll (vmDirOf cfg id)))) k) (<[id := mkVM STap (Some n) false false 0 0]> o).
Proof.
  intros Hok Herr. apply safe_own. intros G c HI Hid. apply wp_liftOS, wp_mkdirAll. intros made os' Ho.
  destruct made.
  - exists (mkVM SDir (Some n) false false 0 0). split_and!; [done| |done].
    destruct HI as [HA HL HD HT HP' HR]. split; world; rewrite ?Ho; world; [| | | | |done].
    + by eapply AInv_keep.
    + by eapply LInv_keep.
    + by eapply DInv_gain.
    + by eapply TInv_keep.
    + eapply PInv_keep; [done| |done]. destruct HP' as (_ & _ & _ & _ & Hg). exact (Hg _ _ Hid).
  - exists (mkVM STap (Some n) false false 0 0). split_and!; [done| |done].
    rewrite insert_id by done. by apply CInv_obs.
Qed.

Lemma safe_PrepareRootfs id n now golden dst ip len gw hn tok k o :
  safeC (k (Ok tt)) (<[id := mkVM SDir (Some n) false false 0 0]> o) →
  (∀ e d, safeC (k (Err e)) (<[id := mkVM SDir (Some n) false d 0 0]> o)) →
  safeC (Act (worldM (liftOS (PrepareRootfs now golden dst ip len gw hn tok))) k)
    (<[id := mkVM SDir (Some n) false false 0 0]> o).
Proof.
  intros Hok Herr. apply safe_own. intros G c HI Hid. apply wp_liftOS.
  eapply wp_mono; [|apply wp_PrepareRootfs]. intros r os' [Ho|[Hr (m & os0 & _ & _ & Hm%mounted_frame)]].
  - exists (mkVM SDir (Some n) false false 0 0). rewrite insert_id by done.
    split_and!; [done|by apply CInv_obs|]. destruct r as [[]|]; [done|apply Herr].
  - destruct Hm as (Hl & Hrl & Hpr & Hd). exists (mkVM SDir (Some n) false true 0 0).
    split_and!; [done| |destruct r; [done|apply Herr]].
    destruct HI as [HA HL HD HT HP' HR]. split; world; rewrite ?Hl, ?Hrl, ?Hpr; [| | | | |done].
    + by eapply AInv_keep.
    + by eapply LInv_keep.
    + by eapply DInv_dirty.
    + by eapply TInv_keep.
    + eapply PInv_keep; [done| |done]. destruct HP' as (_ & _ & _ & _ & Hg). exact (Hg _ _ Hid).
Qed.

Lemma safe_launch id n spec k o :
  l_VMDir spec = vmDirOf cfg id →
  (∀ pr, safeC (k (Ok pr)) (<[id := mkVM SProc (Some n) false false 0 (pr_pid pr)]> o)) →
  (∀ e, safeC (k (Err e)) (<[id := mkVM SDir (Some n) false false 0 0]> o)) →
  safeC (Act (launchM cfg id spec) k) (<[id := mkVM SDir (Some n) false false 0 0]> o).
Proof.
  intros Hspec Hok Herr G c HI Ho. destruct (Ho id _ (lookup_insert_eq _ _ _)) as [Hid _].
  assert (l_VMDir spec ∈ o_dirs (obs (w_os (cw c)))) as Hdir.
  { rewrite Hspec. destruct (ci_dirs _ _ HI) as (_ & Hin & _). by eapply Hin. }
  unfold launchM, liftOS. pose proof (wp_run _ _ _ (wp_launchVM cfg id spec (w_os (cw c)) Hdir)) as Hl.
  destruct (launchVM cfg id spec (w_os (cw c))) as [r os'].
  cbn [fst snd] in Hl. destruct r as [pr|e].
  - destruct Hl as [Hpid Hob]. set (v' := mkVM SProc (Some n) false false 0 (pr_pid pr)).
    exists (<[id := v']> G), (<[id := v']> o). split_and!; [| |apply Hok].
    + destruct HI as [HA HL HD HT HP' HR]. split; world; rewrite ?Hob; world; [| | | | |done].
      * by eapply AInv_keep.
      * by eapply LInv_keep.
      * by eapply DInv_keep.
      * by eapply TInv_keep.
      * by eapply PInv_launch.
    + pose proof (moved_own isLive _ G id _ v' Ho (lookup_insert_eq _ _ _) eq_refl) as Hmv.
      by rewrite insert_insert_eq in Hmv.
  - exists G, (<[id := mkVM SDir (Some n) false false 0 0]> o).
    split_and!; [by apply CInv_obs|by apply moved_refl|apply Herr].
Qed.

Lemma safe_register id n pid s k o :
  (∀ a, cellFor id (mkVM SLive (Some n) false false a pid) s) → o !! id = None →
  (∀ a, safeC (k a) o) →
  safeC (Act (worldM (registerM id s)) k) (<[id := mkVM SProc (Some n) false false 0 pid]> o).
Proof.
  intros Hs Hno Hk G c HI Ho. destruct (Ho id _ (lookup_insert_eq _ _ _)) as [Hid _].
  unfold worldM, registerM. set (a := fresh (dom (w_heap (cw c)))).
  set (v' := mkVM SLive (Some n) false false a pid).
  assert (w_heap (cw c) !! a = None) as Ha by apply not_elem_of_dom, is_fresh.
  exists (<[id := v']> G), o. split_and!; [| |apply Hk].
  - destruct HI as [HA HL HD HT HP' HR]. split; world; [| | | | |done].
    + by eapply AInv_keep.
    + by eapply LInv_keep.
    + by eapply DInv_keep.
    + eapply TInv_register; [done..|apply Hs|done].
    + eapply PInv_keep; [done| |done]. destruct HP' as (_ & _ & _ & _ & Hg). exact (Hg _ _ Hid).
  - pose proof (moved_give isLive _ G id _ v' Ho (lookup_insert_eq _ _ _) eq_refl) as Hmv.
    by rewrite delete_insert_id in Hmv.
Qed.

Lemma safe_provisionP inp n tok k o :
  let id := ci_uuid inp in
  o !! id = None →
  (∀ e v, v_st v = SFailed → (leaves e = false → spotless v) → safeC (k (Err e)) (<[id := v]> o)) →
  (∀ a, safeC (k (Ok a)) o) →
  safeC (provisionP cfg inp (grantAt p n) tok k) (<[id := mkVM SDir (Some n) false false 0 0]> o).
Proof.
  intros id Hno Herr Hok. unfold provisionP.
  assert (∀ e d, (leaves e = false → d = false) →
    safeC (cleanupP (vmDirOf cfg id) (g_tap (grantAt p n)) (g_ip (grantAt p n)) (k (Err e)))
      (<[id := mkVM SDir (Some n) false d 0 0]> o)) as Hclean.
  { intros e d Hd. apply (safe_cleanup _ _ n); [done..|]. apply Herr; [done|]. by intros ->%Hd. }
  apply safe_gets; [|done]. intros [[[token|] len] gw]; [|by apply Hclean].
  apply safe_PrepareRootfs; [|intros e d; by apply Hclean].
  apply safe_launch; [done| |intros e; by apply Hclean].
  intros pr. apply safe_register; [by intros a; split|done|]. intros a.
  split; [apply safe_reaper|apply Hok].
Qed.

Lemma safe_CreateP inp k o :
  let id := ci_uuid inp in
  o !! id = None →
  (∀ e v, v_st v = SFailed → (leaves e = false → spotless v) → safeC (k (Err e)) (<[id := v]> o)) →
  (∀ a, safeC (k (Ok a)) o) →
  safeC (CreateP cfg inp k) (<[id := newVM]> o).
Proof.
  intros id Hno Herr Hok. unfold CreateP. apply safe_check; [|by apply Herr].
  apply safe_alloc; [|by apply Herr]. intros n Hn.
  assert (∀ e v, v_st v = SAddr → v_k v = Some n → (leaves e = false → spotless v) →
    safeC (Act (worldM (releaseM (g_ip (grantAt p n)))) (λ _, k (Err e))) (<[id := v]> o)) as Hrel.
  { intros e v Hv Hk Hsp. by apply (safe_release _ _ SFailed n); [left|..|apply Herr]. }
  assert (∀ e, safeC (Act (worldM (liftOS (DeleteTAP (g_tap (grantAt p n)))))
                 (λ _, Act (worldM (releaseM (g_ip (grantAt p n)))) (λ _, k (Err e))))
                 (<[id := mkVM STap (Some n) false false 0 0]> o)) as Hdel.
  { intros e. apply (safe_DeleteTAP _ _ SAddr n); [by left|done..|]. by apply Hrel. }
  apply safe_CreateTAP; [done| |intros e leak; by apply Hrel].
  destruct (ci_rand inp) as [tok|]; [|by apply Hdel].
  apply safe_mkdirAll; [by apply safe_provisionP|by apply Hdel].
Qed.

(** *** The calls *)

Lemma Post_shutdown_Ok id v acc o :
  o !! id = None → v_st v = SGone → spotless v → Post (RShutdown acc) o →
  Post (RShutdown (acc ++ [(id, Ok tt)])) (<[id := v]> o).
Proof.
  intros Hno Hv Hsp [Hk Hg Hf Hn Hc].
  assert (winners (RShutdown (acc ++ [(id, Ok tt)])) = winners (RShutdown acc) ++ [id]) as Hw
    by (cbn [winners]; by rewrite omap_app).
  assert (∀ j, j ∈ winners (RShutdown acc) ↔ is_Some (o !! j)) as Hk'.
  { intros j. rewrite Hk. cbn [botched]. set_solver. }
  split; rewrite ?Hw; cbn [botched].
  - intros j. rewrite elem_of_app, list_elem_of_singleton, Hk', lookup_insert_is_Some'. set_solver.
  - intros j u [[<- <-]|[Hne Hj]]%lookup_insert_Some _; [done|]. apply (Hg j u Hj), Hk'. eauto.
  - set_solver.
  - apply NoDup_app. split_and!; [done| |apply NoDup_singleton].
    intros j [u Hu]%Hk' ->%list_elem_of_singleton. congruence.
  - intros x [Hx|Hx]%elem_of_app; [by apply Hc|].
    apply list_elem_of_singleton in Hx as ->. by left.
Qed.

Lemma Post_shutdown_Err id acc o :
  Post (RShutdown acc) o → Post (RShutdown (acc ++ [(id, Err ErrNotFound)])) o.
Proof.
  intros [Hk Hg Hf Hn Hc].
  assert (winners (RShutdown (acc ++ [(id, Err ErrNotFound)])) = winners (RShutdown acc)) as Hw
    by (cbn [winners]; rewrite omap_app; simpl; by rewrite app_nil_r).
  split; rewrite ?Hw; [done..|]. intros x [Hx|Hx]%elem_of_app; [by apply Hc|].
  apply list_elem_of_singleton in Hx as ->. by right.
Qed.

Lemma safe_destroyAll ids : ∀ acc o, Post (RShutdown acc) o → safeC (destroyAll ids acc) o.
Proof.
  induction ids as [|id ids IH]; intros acc o Hpost; [done|]. cbn [destroyAll]. apply safe_DestroyP.
  - intros v Hv Hsp Hno. by apply IH, Post_shutdown_Ok.
  - by apply IH, Post_shutdown_Err.
Qed.

(** What a call owns when it is made: a launch, the VM it will make. *)
Definition initial (cl : Call) : gmap string VM :=
  match cl with CLaunch inp _ => <[ci_uuid inp := newVM]> ∅ | _ => ∅ end.

Lemma safe_progOf cl : safeC (progOf cfg cl) (initial cl).
Proof.
  destruct cl as [inp ready|id|ord]; cbn [progOf initial].
  - apply safe_CreateP; [done|intros e v Hv Hsp; by apply Post_one; [right|]|].
    intros a. destruct ready as [[]|e]; [by apply Post_none|]. apply safe_DestroyP.
    + intros v Hv Hsp _. by apply Post_one; left.
    + apply Post_none; [done..|by right].
  - apply safe_DestroyP; [intros v Hv Hsp _; by apply Post_one; left|]. apply Post_none; [done..|by right].
  - intros G c HI Ho. exists G, ∅. destruct c as [w hs].
    split_and!; [done|by apply moved_refl|]. apply safe_destroyAll, Post_none; [done..|]. set_solver.
Qed.

End Invariant.
