(* ===== verification/ManagerRuns.v ===== *)
(** Every interleaving of concurrent calls of one manager: runs of the
    programs of ManagerConc.v, and what holds of all of them. *)
From S2P Require Import Prelude Conc GoLib NetAlloc Session Config HostOS Network Rootfs Launch Manager Ownership ManagerConc ManagerInv.
Open Scope Z_scope.

(** ** Every registered VM has its reaper *)

Section Watched.
Context {OS : Type} `{!HostOS OS}.
Variable cfg : Config.
Implicit Types (c : CWorld OS) (w : World OS).

Abbreviation Prog := (prog (CWorld OS) CRes).
Implicit Types ts : list Prog.

Definition reapNow (id : string) : Prog := DestroyP id (λ r, Ret (RReaper id r)).
(** The thread that will notice the end of the VM [id]. *)
Definition guards (q : Prog) (id : string) : Prop :=
  q = reaperP id ∨ q = reapNow id ∨ ∃ k, q = Fork (reaperP id) k.

(** A program that registers a VM forks its reaper next. *)
Fixpoint forks (q : Prog) : Prop :=
  match q with
  | Ret _ => True
  | Act m k => ∀ c b c', m c = Some (b, c') →
      (∀ id, is_Some (w_sessions (cw c') !! id) →
         is_Some (w_sessions (cw c) !! id) ∨ ∃ k', k b = Fork (reaperP id) k') ∧ forks (k b)
  | Fork ch k => forks ch ∧ forks k
  end.

(** Actions that do not register anything. *)
Definition shy {A} (m : CWorld OS → option (A * CWorld OS)) : Prop :=
  ∀ c b c', m c = Some (b, c') → w_sessions (cw c') ⊆ w_sessions (cw c).

Lemma forks_shy {A} (m : CWorld OS → option (A * CWorld OS)) k :
  shy m → (∀ b, forks (k b)) → forks (Act m k).
Proof.
  intros Hm Hk c b c' E. split; [|done]. intros id [a Ha]. left. exists a.
  by eapply lookup_weaken; [|eapply Hm].
Qed.

Lemma shy_world {A} (m : osM (World OS) A) :
  (∀ w, w_sessions (m w).2 ⊆ w_sessions w) → shy (worldM m).
Proof.
  intros Hm c b c'. unfold worldM. specialize (Hm (cw c)). destruct (m (cw c)). by intros [= <- <-].
Qed.

Lemma liftOS_sessions {A} (m : osM OS A) w : w_sessions (liftOS m w).2 = w_sessions w.
Proof. unfold liftOS. by destruct (m (w_os w)). Qed.

Lemma shy_lift {A} (m : osM OS A) : shy (worldM (liftOS m)).
Proof. apply shy_world. intros w. by rewrite liftOS_sessions. Qed.

Lemma shy_gets {A} (f : World OS → A) : shy (worldM (gets f)).
Proof. by apply shy_world. Qed.

Lemma shy_release ip : shy (worldM (releaseM ip)).
Proof. by apply shy_world. Qed.

Lemma shy_alloc : shy (worldM allocM).
Proof. apply shy_world. intros w. unfold allocM. by destruct (Alloc _). Qed.

Lemma shy_take id : shy (worldM (takeM id)).
Proof.
  apply shy_world. intros w. unfold takeM. destruct (Get id w); [|done]. apply delete_subseteq.
Qed.

Lemma shy_close a : shy (worldM (closeM a)).
Proof.
  apply shy_world. intros w. unfold closeM. destruct (w_heap w !! a) as [s|]; [|done].
  by destruct (CloseDone s).
Qed.

Lemma shy_stop id pid : shy (stopM id pid).
Proof.
  intros c b c'. unfold stopM. pose proof (liftOS_sessions (stopProc pid) (cw c)) as Hs.
  destruct (liftOS (stopProc pid) (cw c)) as [[] w]. cbn [snd] in Hs.
  destruct (ph c !! id) as [[? []]|]; intros [= <- <-]; cbn [cw]; by rewrite ?Hs.
Qed.

Lemma shy_wait id : shy (waitM id).
Proof.
  intros c b c'. unfold waitM. destruct (ph c !! id) as [[pid []]|]; try done; try (by intros [= <- <-]).
  pose proof (liftOS_sessions (stopProc pid) (cw c)) as Hs.
  destruct (liftOS (stopProc pid) (cw c)) as [[] w]. intros [= <- <-]. cbn [cw snd] in *. by rewrite Hs.
Qed.

Lemma shy_launch id spec : shy (launchM cfg id spec).
Proof.
  intros c b c'. unfold launchM. pose proof (liftOS_sessions (launchVM cfg id spec) (cw c)) as Hs.
  destruct (liftOS (launchVM cfg id spec) (cw c)) as [r w]. intros [= <- <-]. cbn [cw snd] in *. by rewrite Hs.
Qed.

Create HintDb shy.
#[local] Hint Resolve shy_lift shy_gets shy_release shy_alloc shy_take shy_close shy_stop shy_wait
  shy_launch : shy.

Lemma forks_DestroyP id k : (∀ r, forks (k r)) → forks (DestroyP id k).
Proof.
  intros Hk. unfold DestroyP.
  repeat (apply forks_shy; [by auto with shy|intros ?]; repeat case_match; try apply Hk).
Qed.

Lemma forks_reaper id : forks (reaperP id).
Proof. apply forks_shy; [apply shy_wait|]. intros _. by apply forks_DestroyP. Qed.

Lemma forks_cleanupP d t ip k : forks k → forks (cleanupP d t ip k).
Proof. intros Hk. unfold cleanupP. repeat (apply forks_shy; [by auto with shy|intros ?]). done. Qed.

Lemma forks_provisionP inp g tok k : (∀ r, forks (k r)) → forks (provisionP cfg inp g tok k).
Proof.
  intros Hk. unfold provisionP.
  repeat (apply forks_shy; [by auto with shy|intros ?]; repeat case_match; try (by apply forks_cleanupP, Hk)).
  intros c x c2. unfold worldM, registerM. intros [= <- <-]. split.
  - intros id. cbn [cw w_sessions]. intros [<-|[_ ?]]%lookup_insert_is_Some; [right; eauto|by left].
  - split; [apply forks_reaper|apply Hk].
Qed.

Lemma forks_CreateP inp k : (∀ r, forks (k r)) → forks (CreateP cfg inp k).
Proof.
  intros Hk. unfold CreateP.
  repeat (apply forks_shy; [by auto with shy|intros ?]; repeat case_match;
          try apply Hk; try (by apply forks_provisionP)).
Qed.

Lemma forks_progOf cl : forks (progOf cfg cl).
Proof.
  destruct cl as [inp ready|id|ord]; cbn [progOf].
  - apply forks_CreateP. intros [a|e]; [|done]. destruct ready; [done|]. by apply forks_DestroyP.
  - by apply forks_DestroyP.
  - apply forks_shy; [auto with shy|]. intros ids. generalize (@nil (string * res GoErr unit)).
    induction ids as [|id ids IH]; intros acc; [done|]. apply forks_DestroyP. auto.
Qed.

Definition watched ts c : Prop :=
  Forall forks ts ∧
  ∀ id, is_Some (w_sessions (cw c) !! id) → ∃ i q, ts !! i = Some q ∧ guards q id.

(** A guard that steps leaves a guard, or the VM is out of the table. *)
Lemma guards_step q id c q' new c' :
  guards q id → tstep q c = Some (q', new, c') →
  w_sessions (cw c') !! id = None ∨ guards q' id ∨ ∃ g, g ∈ new ∧ guards g id.
Proof.
  intros [->|[->|[k ->]]]; cbn [tstep reaperP reapNow DestroyP].
  - destruct (waitM id c) as [[[] c1]|]; [|done]. intros [= <- <- <-]. right. left. right. by left.
  - unfold worldM, takeM, Get. destruct (w_sessions (cw c) !! id) eqn:E; intros [= <- <- <-]; left.
    + apply lookup_delete_eq.
    + done.
  - intros [= <- <- <-]. right. right. exists (reaperP id). split; [set_solver|by left].
Qed.

Lemma watched_step ts c i ts' c' :
  watched ts c → stepAt i (ts, c) = Some (ts', c') → watched ts' c'.
Proof.
  intros [Hf Hw]. unfold stepAt. cbn [fst snd]. destruct (ts !! i) as [q|] eqn:Ei; [|done].
  destruct (tstep q c) as [[[q' new] c1]|] eqn:Es; [|done]. intros [= <- <-].
  assert (i < length ts)%nat as Hi by (eapply lookup_lt_Some; eauto).
  pose proof (Forall_lookup_1 _ _ _ _ Hf Ei) as Hq.
  assert (forks q' ∧ Forall forks new) as [Hq' Hnew].
  { destruct q as [r|B m k|ch k]; cbn [tstep] in Es; [done| |].
    - destruct (m c) as [[b c2]|] eqn:Em; simplify_eq. split; [by eapply Hq|constructor].
    - simplify_eq. destruct Hq. by repeat constructor. }
  split.
  { apply Forall_app. split; [by apply Forall_insert|done]. }
  intros id Hid.
  assert (∀ g, (g = q' ∨ g ∈ new) → guards g id → ∃ j u, (<[i := q']> ts ++ new) !! j = Some u ∧ guards u id) as Hhere.
  { intros g Hg Hgu. assert (g ∈ <[i := q']> ts ++ new) as [j Hj]%list_elem_of_lookup by
      (apply elem_of_app; destruct Hg as [->|?]; [left; by apply list_elem_of_insert|by right]). eauto. }
  assert (is_Some (w_sessions (cw c) !! id) ∨ guards q' id) as [Hold|Hg]; [|destruct Hold as [a Ha]|eauto].
  { destruct q as [r|B m k|ch k]; cbn [tstep] in Es; [done| |].
    - destruct (m c) as [[b c2]|] eqn:Em; simplify_eq. destruct (Hq c b c1 Em) as [Hr _].
      destruct (Hr id Hid) as [?|[k' ->]]; [by left|right]. right. right. eauto.
    - simplify_eq. by left. }
  destruct (Hw id ltac:(eauto)) as (j & u & Hj & Hu). destruct (decide (j = i)) as [->|Hne].
  - simplify_eq. destruct (guards_step _ _ _ _ _ _ Hu Es) as [Hn|[?|(g & ? & ?)]]; eauto.
    rewrite Hn in Hid. by destruct Hid.
  - exists j, u. split; [|done]. apply lookup_app_l_Some. by rewrite list_lookup_insert_ne.
Qed.

End Watched.

(** ** Runs *)

Section Runs.
Context {OS : Type} `{!HostOS OS, !HostOSLaws OS}.
Variable cfg : Config.
Variable p : Prefix.
Variable base : Obs.
Hypothesis Hp : prefix_ok p.
Implicit Types (c : CWorld OS) (w : World OS) (ts : list (prog (CWorld OS) CRes)).

Definition uuidsC (calls : list Call) : list string :=
  omap (λ cl, match cl with CLaunch inp _ => Some (ci_uuid inp) | _ => None end) calls.

Definition reached (calls : list Call) ts c : Prop :=
  watched ts c ∧ ∃ G os, pooled isLive (CInv cfg p base) Post Waits G os ts c ∧
    dom G = list_to_set (uuidsC calls).

Lemma CInv_exit G c id pid :
  CInv cfg p base G c → ph c !! id = Some (pid, PRunning) →
  CInv cfg p base G (mkCW (cw c) (<[id := (pid, PExited)]> (ph c))).
Proof.
  intros [HA HL HD HT HP' HR] Hid. split; cbn [cw ph]; try done.
  exact (PInv_status _ _ _ _ _ _ _ PExited Hid ltac:(done) HP').
Qed.

Lemma reached_step calls l ts c ts' c' :
  reached calls ts c → cstep l (ts, c) = Some (ts', c') → reached calls ts' c'.
Proof.
  intros (Hw & G & os & Hpl & Hd). destruct l as [i|id]; cbn [cstep fst snd].
  - intros Hs. split; [by eapply watched_step|]. destruct (pooled_step _ _ _ _ _ _ _ _ _ _ Hpl Hs) as (G' & os' & ? & ?).
    exists G', os'. split; [done|congruence].
  - destruct (ph c !! id) as [[pid []]|] eqn:E; try done. intros [= <- <-]. split; [done|].
    exists G, os. split; [|done]. eapply pooled_env; [done|]. eapply CInv_exit; [apply Hpl|done].
Qed.

Lemma reached_run calls ls : ∀ ts c ts' c',
  reached calls ts c → runC ls (ts, c) = Some (ts', c') → reached calls ts' c'.
Proof.
  induction ls as [|l ls IH]; intros ts c ts' c' Hr; cbn [runC]; [by intros [= <- <-]|].
  destruct (cstep l (ts, c)) as [[ts1 c1]|] eqn:E; [|done]. apply IH. by eapply reached_step.
Qed.

Definition start_map (calls : list Call) : gmap string VM :=
  gset_to_gmap newVM (list_to_set (uuidsC calls)).

Lemma start_map_Some calls id v :
  start_map calls !! id = Some v ↔ id ∈ uuidsC calls ∧ v = newVM.
Proof. unfold start_map. rewrite lookup_gset_to_gmap_Some, elem_of_list_to_set. naive_solver. Qed.

Lemma initial_Some cl id v :
  initial cl !! id = Some v ↔ v = newVM ∧ ∃ inp ready, cl = CLaunch inp ready ∧ ci_uuid inp = id.
Proof.
  destruct cl as [inp ready|j|ord]; cbn [initial]; rewrite ?lookup_insert_Some, ?lookup_empty; naive_solver.
Qed.

Lemma uuidsC_initial calls id :
  id ∈ uuidsC calls ↔ ∃ i cl, calls !! i = Some cl ∧ initial cl !! id = Some newVM.
Proof.
  unfold uuidsC. rewrite list_elem_of_omap. split.
  - intros (cl & [i Hi]%list_elem_of_lookup & Hcl). exists i, cl. split; [done|].
    apply initial_Some. destruct cl; naive_solver.
  - intros (i & cl & Hi & (_ & inp & ready & -> & <-)%initial_Some). eexists.
    split; [by eapply list_elem_of_lookup_2|done].
Qed.

(** Two launches never share an id. *)
Lemma uuidsC_inj calls : NoDup (uuidsC calls) → ∀ i j cl1 cl2 id,
  calls !! i = Some cl1 → calls !! j = Some cl2 →
  is_Some (initial cl1 !! id) → is_Some (initial cl2 !! id) → i = j.
Proof.
  induction calls as [|cl calls IH]; intros Hnd i j cl1 cl2 id Hi Hj H1 H2; [done|].
  assert (NoDup (uuidsC calls)) as Hnd'.
  { unfold uuidsC in *. cbn [omap list_omap] in Hnd. case_match; [by apply NoDup_cons in Hnd as [_ ?]|done]. }
  assert (∀ l clx, is_Some (initial cl !! id) → calls !! l = Some clx → is_Some (initial clx !! id) → False) as Hx.
  { intros l clx [u (_ & inp & ready & -> & <-)%initial_Some] Hl [w' Hw].
    unfold uuidsC in Hnd. cbn [omap list_omap] in Hnd. apply NoDup_cons in Hnd as [Hni _]. apply Hni.
    apply uuidsC_initial. exists l, clx. split; [done|]. apply initial_Some in Hw as Hw'. destruct Hw' as [-> _]. done. }
  destruct i as [|i], j as [|j]; simpl in Hi, Hj; simplify_eq; [done| | |].
  - exfalso. eauto.
  - exfalso. eauto.
  - f_equal. by eapply IH.
Qed.

Lemma start_CInv calls w :
  Inv cfg base true p 0 ∅ w → goodIDs cfg base (uuidsC calls) →
  CInv cfg p base (start_map calls) (mkCW w ∅).
Proof.
  intros HI [_ Hs Hf]. destruct (Inv_empty cfg base p 0 w HI) as (Hse & Hu & Ho).
  assert (∀ id v, start_map calls !! id = Some v → v = newVM ∧ id ∈ uuidsC calls) as Hm.
  { intros id v [? ->]%start_map_Some. done. }
  assert (∀ {A} `{Countable A} (f : string → VM → option A) B, (∀ id, f id newVM = None) →
            apart (start_map calls) f ∧ holds (start_map calls) f B B) as Hno.
  { intros A ? ? f B Hf0. split.
    - intros x y u v a Hx Hy Hu' Hv. apply Hm in Hx as [-> _]. by rewrite Hf0 in Hu'.
    - intros a. split; [by left|]. intros [?|(x & v & [-> _]%Hm & Hv)]; [done|]. by rewrite Hf0 in Hv. }
  split; cbn [cw ph]; rewrite ?Ho, ?Hse; [| | | | |done].
  - unfold AInv. rewrite Hu. split_and!; [by apply (Hno _ _ _ _ ∅)|rewrite dom_empty_L; by apply Hno|by intros id v [-> _]%Hm|].
    exists 0. split_and!; [lia|by apply HI|]. intros id v k [-> _]%Hm Hk. done.
  - split; [by apply Hno|apply HI].
  - split_and!.
    + intros id v [_ ?]%Hm. auto.
    + by intros id v [-> _]%Hm.
    + intros _. split; [by apply Hno|done].
  - split_and!.
    + intros id a. rewrite lookup_empty. split; [done|]. by intros (v & [-> _]%Hm & ? & _).
    + by apply (Hno _ _ _ _ ∅).
    + by intros id v [-> _]%Hm.
  - split_and!.
    + intros pid. split; [by left|]. intros [?|(x & h & Hx & _)]; [done|]. by rewrite lookup_empty in Hx.
    + intros x y u v a Hx. by rewrite lookup_empty in Hx.
    + intros id h pid Hx. by rewrite lookup_empty in Hx.
    + done.
    + intros id v [-> _]%Hm. done.
Qed.

Lemma reached_start calls w :
  Inv cfg base true p 0 ∅ w → goodIDs cfg base (uuidsC calls) →
  reached calls (progOf cfg <$> calls) (mkCW w ∅).
Proof.
  intros HI Hids. split.
  - split; [apply Forall_fmap, Forall_true; intros cl; apply forks_progOf|].
    intros id. cbn [cw]. destruct (Inv_empty cfg base p 0 w HI) as (-> & _ & _).
    rewrite lookup_empty. by intros [? ?].
  - exists (start_map calls), (initial <$> calls).
    assert (∀ i o, (initial <$> calls) !! i = Some o → ∃ cl, calls !! i = Some cl ∧ o = initial cl) as Hin.
    { intros i o. rewrite list_lookup_fmap. destruct (calls !! i); naive_solver. }
    split; [|by unfold start_map; rewrite dom_gset_to_gmap]. split.
    + by apply start_CInv.
    + apply Forall2_fmap, Forall_Forall2_diag, Forall_true. intros cl. by apply safe_progOf.
    + intros i o (cl & Hcl & ->)%Hin x v Hx. apply initial_Some in Hx as Hx'. destruct Hx' as [-> _].
      split; [|done]. apply start_map_Some. split; [|done]. apply uuidsC_initial. eauto.
    + intros i j o1 o2 x (cl1 & ? & ->)%Hin (cl2 & ? & ->)%Hin. eapply uuidsC_inj; [apply Hids|done..].
    + intros x v [Hx ->]%start_map_Some _. apply uuidsC_initial in Hx as (i & cl & Hi & Hcl).
      exists i, (initial cl). by rewrite list_lookup_fmap, Hi.
Qed.

(** *** What a run shows from outside *)

Definition liveIn c (id : string) (s : Session) : Prop :=
  ∃ a, w_sessions (cw c) !! id = Some a ∧ w_heap (cw c) !! a = Some s.

Lemma CInv_liveIn G c id s :
  CInv cfg p base G c → liveIn c id s ↔ ∃ v, G !! id = Some v ∧ v_st v = SLive ∧
    w_heap (cw c) !! v_addr v = Some s ∧ cellFor cfg p id v s.
Proof.
  intros HI. split.
  - intros (a & Ha & Hs). destruct (CInv_live cfg p base G c id a HI Ha) as (v & t & ? & ? & <- & Ht & ?).
    simplify_eq. eauto.
  - intros (v & Hv & Hl & Hs & _). exists (v_addr v). split; [|done].
    destruct (ci_table _ _ _ _ _ HI) as (Ht & _). apply Ht. eauto.
Qed.

Lemma live_holdings G c id v s :
  CInv cfg p base G c → G !! id = Some v → v_st v = SLive → cellFor cfg p id v s →
  ipF p id v = Some (s_IP s) ∧ tapF id v = Some (s_Tap s) ∧ dirF cfg id v = Some (s_VmDir s) ∧
  ∃ st, ph c !! id = Some (v_pid v, st).
Proof.
  intros HI Hid Hv Hc. unfold ipF, tapF, dirF. rewrite Hv, (cf_dir _ _ _ _ _ Hc).
  rewrite (cf_ip _ _ _ _ _ Hc), (cf_tap _ _ _ _ _ Hc). split_and!; [done..|].
  destruct (ci_procs _ _ _ _ _ HI) as (_ & _ & _ & _ & Hg). specialize (Hg id v Hid). by rewrite Hv in Hg.
Qed.

(** Nothing can run. *)
Definition stuck ts c : Prop := ∀ i, stepAt i (ts, c) = None.

(** In a pool where nothing can run, every VM is registered, torn down by a
    call that says so, or was never booted by a call that says so. *)
Lemma stuck_stage G os ts c id v :
  pooled isLive (CInv cfg p base) Post Waits G os ts c → stuck ts c → G !! id = Some v →
  v_st v = SLive ∨ ∃ i r, ts !! i = Some (Ret r) ∧
    ((id ∈ winners r ∧ v_st v = SGone ∧ spotless v) ∨
     (id ∈ botched r ∧ v_st v = SFailed ∧ (leavesR r = false → spotless v))).
Proof.
  intros Hpl Hst Hid. destruct (isLive v) eqn:El.
  - left. unfold isLive in El. by destruct (v_st v).
  - right. destruct (pl_total _ _ _ _ _ _ _ _ Hpl id v Hid El) as (i & o & Hi & Ho).
    destruct (Forall2_lookup_r _ _ _ _ _ (pl_safe _ _ _ _ _ _ _ _ Hpl) Hi) as (q & Hq & _).
    destruct (pooled_stuck _ _ _ _ _ _ _ _ _ _ Hpl Hq (Hst i)) as (o' & Ho' & Hc).
    assert (o' = o) as -> by congruence.
    destruct Hc as [(r & -> & HP)|[-> _]]; [|by rewrite lookup_empty in Ho].
    exists i, r. split; [done|].
    destruct (proj1 (po_keys _ _ HP id) ltac:(eauto)) as [Hw|Hb].
    + left. split; [done|]. by eapply po_gone.
    + right. split; [done|]. by eapply po_failed.
Qed.

Lemma stuck_running ts c calls id :
  reached calls ts c → stuck ts c → is_Some (w_sessions (cw c) !! id) →
  (∃ i, ts !! i = Some (reaperP id)) ∧ ∃ pid, ph c !! id = Some (pid, PRunning).
Proof.
  intros ([_ Hw] & G & os & Hpl & _) Hst Hid. destruct (Hw id Hid) as (i & q & Hq & Hg).
  specialize (Hst i). unfold stepAt in Hst. cbn [fst snd] in Hst. rewrite Hq in Hst.
  destruct Hg as [->|[->|[k ->]]]; cbn [reaperP reapNow DestroyP tstep] in Hst; [| |done].
  - split; [by exists i|]. destruct Hid as [a Ha].
    destruct (CInv_live cfg p base G c id a (pl_inv _ _ _ _ _ _ _ _ Hpl) Ha) as (v & s & Hv & Hl & _ & _ & Hc).
    destruct (live_holdings G c id v s (pl_inv _ _ _ _ _ _ _ _ Hpl) Hv Hl Hc) as (_ & _ & _ & st & Hph).
    unfold waitM in Hst. rewrite Hph in *. destruct st; [eauto| |done].
    by destruct (liftOS (stopProc (v_pid v)) (cw c)).
  - exfalso. unfold worldM, takeM, Get in Hst. by destruct (w_sessions (cw c) !! id).
Qed.

(** With nothing running and nothing left behind, a resource is held exactly
    by the registered VMs. *)
Lemma stuck_held {A} `{Countable A} (f : string → VM → option A) (g : Session → A) G os ts c B X :
  pooled isLive (CInv cfg p base) Post Waits G os ts c → stuck ts c →
  (∀ id v, v_st v = SGone ∨ v_st v = SFailed → spotless v → f id v = None) →
  (∀ i r, ts !! i = Some (Ret r) → leavesR r = false) ∨
    (∀ id v, v_st v = SGone ∨ v_st v = SFailed → f id v = None) →
  (∀ id v s, G !! id = Some v → v_st v = SLive → cellFor cfg p id v s → f id v = Some (g s)) →
  holds G f B X → ∀ a, a ∈ X ↔ a ∈ B ∨ ∃ id s, liveIn c id s ∧ g s = a.
Proof.
  intros Hpl Hst Hend Hnl Hlive HX a. rewrite (HX a).
  pose proof (pl_inv _ _ _ _ _ _ _ _ Hpl) as HI.
  split; (intros [?|Hr]; [by left|right]).
  - destruct Hr as (id & v & Hv & Hf).
    destruct (stuck_stage _ _ _ _ id v Hpl Hst Hv) as [Hl|(i & r & Hi & Hc)].
    + destruct (ci_table _ _ _ _ _ HI) as (_ & _ & Hcell).
      destruct (Hcell id v Hv) as (s & Hs & Hc); [by rewrite Hl|]. exists id, s.
      split; [apply (CInv_liveIn G c id s HI); eauto|]. specialize (Hlive id v s Hv Hl Hc). congruence.
    + destruct Hnl as [Hnl|Hnl]; [|destruct Hc as [(_ & Hs & _)|(_ & Hs & _)]; by rewrite Hnl in Hf by auto].
      destruct Hc as [(_ & Hs & Hsp)|(_ & Hs & Hsp)]; by rewrite Hend in Hf by eauto.
  - destruct Hr as (id & s & (v & Hv & Hl & _ & Hc)%(CInv_liveIn G c id s HI) & <-).
    exists id, v. split; [done|]. by apply Hlive.
Qed.

(** A process that is still there belongs to a registered VM. *)
Lemma stuck_handle G os ts c id pid st :
  pooled isLive (CInv cfg p base) Post Waits G os ts c → stuck ts c →
  ph c !! id = Some (pid, st) → st ≠ PReaped →
  ∃ v, G !! id = Some v ∧ v_st v = SLive ∧ v_pid v = pid.
Proof.
  intros Hpl Hst Hid Hne.
  destruct (ci_procs _ _ _ _ _ (pl_inv _ _ _ _ _ _ _ _ Hpl)) as (_ & _ & _ & Hnone & Hg).
  destruct (G !! id) as [v|] eqn:Hv; [|by rewrite (Hnone id Hv) in Hid]. exists v. split; [done|].
  specialize (Hg id v Hv). rewrite Hid in Hg.
  destruct (stuck_stage _ _ _ _ id v Hpl Hst Hv) as [Hl|(i & r & _ & Hc)].
  - split; [done|]. rewrite Hl in Hg. destruct Hg as [? Hg]. by injection Hg.
  - destruct Hc as [(_ & Hs & _)|(_ & Hs & _)]; rewrite Hs in Hg; simpl in Hg; congruence.
Qed.

Lemma stuck_waiter G os ts c i q :
  pooled isLive (CInv cfg p base) Post Waits G os ts c → stuck ts c → ts !! i = Some q →
  (∃ r, q = Ret r) ∨ ∃ id pid, q = reaperP id ∧ is_Some (w_sessions (cw c) !! id) ∧
    ph c !! id = Some (pid, PRunning).
Proof.
  intros Hpl Hst Hi. destruct (pooled_stuck _ _ _ _ _ _ _ _ _ _ Hpl Hi (Hst i)) as (o & _ & Hc).
  destruct Hc as [(r & -> & _)|(_ & id & pid & -> & Hph)]; [by left; eauto|right].
  exists id, pid. split_and!; [done| |done].
  destruct (stuck_handle _ _ _ _ id pid PRunning Hpl Hst Hph ltac:(done)) as (v & Hv & Hl & _).
  destruct (ci_table _ _ _ _ _ (pl_inv _ _ _ _ _ _ _ _ Hpl)) as (Ht & _).
  exists (v_addr v). apply Ht. eauto.
Qed.

Lemma stuck_tidy G os ts c :
  pooled isLive (CInv cfg p base) Post Waits G os ts c → stuck ts c →
  (∀ i r, ts !! i = Some (Ret r) → leavesR r = false) → tidy G.
Proof.
  intros Hpl Hst Hnl id v Hv. destruct (stuck_stage _ _ _ _ id v Hpl Hst Hv) as [Hl|(i & r & Hi & Hc)].
  - destruct (ci_table _ _ _ _ _ (pl_inv _ _ _ _ _ _ _ _ Hpl)) as (_ & _ & Hcell).
    destruct (Hcell id v Hv) as (s & _ & Hc); [by rewrite Hl|]. apply Hc.
  - destruct Hc as [(_ & _ & Hsp)|(_ & _ & Hsp)]; [apply Hsp|apply Hsp, (Hnl i r Hi)].
Qed.

(** The processes of the host are those of the registered VMs. *)
Lemma stuck_procs G os ts c calls :
  reached calls ts c → pooled isLive (CInv cfg p base) Post Waits G os ts c → stuck ts c →
  ∀ pid, pid ∈ o_procs (obs (w_os (cw c))) ↔
    pid ∈ o_procs base ∨ ∃ id s, liveIn c id s ∧ s_Process s = Some pid.
Proof.
  intros Hr Hpl Hst pid. pose proof (pl_inv _ _ _ _ _ _ _ _ Hpl) as HI.
  destruct (ci_procs _ _ _ _ _ HI) as (Hpr & _). rewrite (Hpr pid).
  split; (intros [?|Hx]; [by left|right]).
  - destruct Hx as (id & [q st] & Hid & Hq).
    assert (st ≠ PReaped ∧ q = pid) as [Hne ->] by (destruct st; cbn in Hq; [..|done]; by injection Hq as ->).
    destruct (stuck_handle _ _ _ _ id pid st Hpl Hst Hid Hne) as (v & Hv & Hl & <-).
    destruct (ci_table _ _ _ _ _ HI) as (_ & _ & Hcell).
    destruct (Hcell id v Hv) as (s & Hs & Hc); [by rewrite Hl|]. exists id, s.
    split; [apply (CInv_liveIn G c id s HI); eauto|apply Hc].
  - destruct Hx as (id & s & Hlive & Hs).
    destruct (proj1 (CInv_liveIn G c id s HI) Hlive) as (v & Hv & Hl & _ & Hc).
    destruct (live_holdings G c id v s HI Hv Hl Hc) as (_ & _ & _ & st & Hph).
    destruct Hlive as (a & Ha & _).
    destruct (stuck_running ts c calls id Hr Hst ltac:(eauto)) as (_ & q & Hq).
    exists id, (q, PRunning). split; [done|]. cbn. rewrite (cf_proc _ _ _ _ _ Hc) in Hs. congruence.
Qed.

End Runs.

(** *** Every schedule ends *)

Section Schedules.
Context {OS : Type} `{!HostOS OS}.
Abbreviation CState := (list (prog (CWorld OS) CRes) * CWorld OS)%type.

Definition isRunning (h : Z * PStat) : Prop := h.2 = PRunning.
#[local] Instance isRunning_dec h : Decision (isRunning h) := decide (h.2 = PRunning).
Definition runningVMs (c : CWorld OS) : nat := size (filter (λ x, isRunning x.2) (ph c)).

Definition next (st' st : CState) : Prop := ∃ l, cstep l st = Some st'.

Lemma exit_decreases (c : CWorld OS) id pid :
  ph c !! id = Some (pid, PRunning) →
  (runningVMs (mkCW (cw c) (<[id := (pid, PExited)]> (ph c))) < runningVMs c)%nat.
Proof.
  intros Hid. unfold runningVMs. cbn [ph].
  assert (filter (λ x, isRunning x.2) (ph c) !! id = Some (pid, PRunning)) as Hf
    by (by apply map_lookup_filter_Some_2).
  rewrite map_filter_insert_False by done. rewrite map_filter_delete, map_size_delete, Hf.
  assert (size (filter (λ x, isRunning x.2) (ph c)) ≠ 0%nat); [|lia].
  intros H0%map_size_empty_iff. rewrite H0 in Hf. by rewrite lookup_empty in Hf.
Qed.

Lemma next_wf : ∀ ts (c : CWorld OS), Acc next (ts, c).
Proof.
  intros ts. induction (shrinks_wf ts) as [ts _ IH]. intros c. remember (runningVMs c) as n eqn:En.
  revert c En. induction (lt_wf n) as [n _ IHn]. intros c ->.
  constructor. intros [ts' c'] [l Hl]. destruct l as [i|id]; cbn [cstep fst snd] in Hl.
  - apply IH. exact (stepAt_shrinks _ _ _ Hl).
  - destruct (ph c !! id) as [[pid []]|] eqn:E; [|discriminate Hl..]. injection Hl as <- <-.
    eapply IHn; [by eapply exit_decreases|done].
Qed.

End Schedules.

(** ** Properties *)

Section Claims.
Context {OS : Type} `{!HostOS OS, !HostOSLaws OS}.

Lemma run_reached (cfg : Config) (os : OS) (base : Obs) w0 calls ls ts c :
  startedOn cfg os base w0 → goodIDs cfg base (uuidsC calls) →
  runC ls (startC cfg calls w0) = Some (ts, c) →
  prefix_ok (al_base (w_alloc w0)) ∧ reached cfg (al_base (w_alloc w0)) base calls ts c.
Proof.
  intros (p & Hp & HI)%startedOn_Inv Hids Hrun.
  assert (al_base (w_alloc w0) = p) as -> by (by apply (rc_base _ _ _ (iv_reach _ _ _ _ _ _ _ HI))).
  split; [done|]. eapply reached_run; [by apply reached_start|exact Hrun].
Qed.

(** Two registered VMs share no device, directory or address. *)
Lemma CInv_lives_apart cfg p base G c i j s t : CInv cfg p base G c →
  liveIn c i s → liveIn c j t → i ≠ j → s_Tap s ≠ s_Tap t ∧ s_VmDir s ≠ s_VmDir t ∧ s_IP s ≠ s_IP t.
Proof.
  intros HI (u & Hu & Hul & _ & Hcu)%(CInv_liveIn cfg p base G c i s HI)
    (v & Hv & Hvl & _ & Hcv)%(CInv_liveIn cfg p base G c j t HI) Hne.
  destruct (ci_alloc _ _ _ _ _ HI) as (Hk & _).
  destruct (live_holdings cfg p base G c i u s HI Hu Hul Hcu) as (Hi1 & Ht1 & Hd1 & _).
  destruct (live_holdings cfg p base G c j v t HI Hv Hvl Hcv) as (Hi2 & Ht2 & Hd2 & _).
  split_and!; intros Heq; apply Hne.
  - apply (apart_tap G Hk i j u v (s_Tap s)); [done..|by rewrite Heq].
  - apply (apart_dir cfg G i j u v (s_VmDir s)); [done..|by rewrite Heq].
  - apply (apart_ip p G Hk i j u v (s_IP s)); [done..|by rewrite Heq].
Qed.

(** A process that was not waited for has everything its VM was given. *)
Lemma CInv_unreaped cfg p base G c id pid st : CInv cfg p base G c →
  ph c !! id = Some (pid, st) → st ≠ PReaped → ∃ k, omap v_k G !! id = Some k ∧
    pid ∈ o_procs (obs (w_os (cw c))) ∧ tapOf (k + 1) ∈ o_links (obs (w_os (cw c))) ∧
    ipAt p k ∈ dom (al_in_use (w_alloc (cw c))) ∧ vmDirOf cfg id ∈ o_dirs (obs (w_os (cw c))).
Proof.
  intros HI Hph Hheld.
  destruct (ci_alloc _ _ _ _ _ HI) as (Hk & Hip & His & _). destruct (ci_links _ _ _ _ _ HI) as (Htap & _).
  destruct (ci_dirs _ _ _ _ _ HI) as (_ & Hdir & _). destruct (ci_procs _ _ _ _ _ HI) as (Hpr & _ & _ & Hnone & Hg).
  destruct (G !! id) as [v|] eqn:Hv; [|by rewrite (Hnone id Hv) in Hph].
  specialize (Hg id v Hv). rewrite Hph in Hg.
  assert (hasIP (v_st v) = true ∧ hasTap (v_st v) = true ∧ hasDir (v_st v) = true) as (E1 & E2 & E3).
  { destruct (v_st v); simpl in Hg; try done; by injection Hg as -> ->. }
  destruct (His id v Hv E1) as [k Hkk]. exists k. split_and!.
  - by rewrite lookup_omap, Hv.
  - eapply (holds_in _ _ _ _ _ _ _ Hpr Hph). by destruct st.
  - eapply (holds_in _ _ _ _ _ _ _ Htap Hv). unfold tapF. by rewrite E2, Hkk.
  - eapply (holds_in _ _ _ _ _ _ _ Hip Hv). unfold ipF. by rewrite E1, Hkk.
  - by eapply Hdir.
Qed.

(** C1: However concurrent calls are interleaved (launches, destructions, a
    shutdown, the reaper of every VM), and whichever VMs exit and host
    operations fail in between, at every moment: a session in the table has
    its cell, its process handle, its device, its directory and its reserved
    address, and shares none of them with another; and as long as a VM's
    process has not been waited for, also while the VM is being made or torn
    down, its device, address and directory are still there, and are no
    other VM's; every process on the host is one of these or was there
    before. *)
Theorem conc_sessions_isolated (cfg : Config) (os : OS) (base : Obs) (w0 : World OS)
    (calls : list Call) (ls : list Lbl) ts (c : CWorld OS) :
  startedOn cfg os base w0 → goodIDs cfg base (uuidsC calls) →
  runC ls (startC cfg calls w0) = Some (ts, c) →
  let o := obs (w_os (cw c)) in
  let used := dom (al_in_use (w_alloc (cw c))) in
  let held st := st ≠ PReaped in
  (∀ id a, w_sessions (cw c) !! id = Some a → ∃ s pid st, w_heap (cw c) !! a = Some s ∧ s_ID s = id ∧
     s_Process s = Some pid ∧ ph c !! id = Some (pid, st) ∧
     s_Tap s ∈ o_links o ∧ s_VmDir s ∈ o_dirs o ∧ s_IP s ∈ used) ∧
  (∀ i j s t, liveIn c i s → liveIn c j t → i ≠ j →
     s_Tap s ≠ s_Tap t ∧ s_VmDir s ≠ s_VmDir t ∧ s_IP s ≠ s_IP t) ∧
  (∃ num : gmap string Z, (∀ i j k, num !! i = Some k → num !! j = Some k → i = j) ∧
     ∀ id pid st, ph c !! id = Some (pid, st) → held st → ∃ k, num !! id = Some k ∧
       pid ∈ o_procs o ∧ tapOf (k + 1) ∈ o_links o ∧
       ipAt (al_base (w_alloc w0)) k ∈ used ∧ vmDirOf cfg id ∈ o_dirs o) ∧
  (∀ i j pid s t, ph c !! i = Some (pid, s) → ph c !! j = Some (pid, t) → held s → held t → i = j) ∧
  (∀ pid, pid ∈ o_procs o →
     pid ∈ o_procs base ∨ ∃ id st, ph c !! id = Some (pid, st) ∧ held st).
Proof.
  intros Hst Hids Hrun o used held.
  destruct (run_reached cfg os base w0 calls ls ts c Hst Hids Hrun) as [Hp (_ & G & ows & Hpl & _)].
  set (p := al_base (w_alloc w0)) in *. pose proof (pl_inv _ _ _ _ _ _ _ _ Hpl) as HI.
  destruct (ci_alloc _ _ _ _ _ HI) as (Hk & Hip & His & _). destruct (ci_links _ _ _ _ _ HI) as (Htap & _).
  destruct (ci_dirs _ _ _ _ _ HI) as (_ & Hdir & _). destruct (ci_procs _ _ _ _ _ HI) as (Hpr & Hpa & _ & Hnone & Hg).
  split_and!.
  - intros id a Ha. destruct (CInv_live cfg p base G c id a HI Ha) as (v & s & Hv & Hl & <- & Hs & Hc).
    destruct (live_holdings cfg p base G c id v s HI Hv Hl Hc) as (Hi & Ht & _ & st & Hph).
    exists s, (v_pid v), st. split_and!; [done|by apply Hc|by apply Hc|done|..].
    + by eapply holds_in.
    + rewrite (cf_dir _ _ _ _ _ Hc). eapply Hdir; [done|by rewrite Hl].
    + by eapply (holds_in _ _ _ _ _ _ _ Hip).
  - intros i j s t. by apply (CInv_lives_apart cfg p base G).
  - exists (omap v_k G). split.
    + intros i j k. rewrite !lookup_omap.
      intros (u & Hu & Huk)%bind_Some (v & Hv & Hvk)%bind_Some. by apply (Hk i j u v k).
    + intros id pid st. by apply (CInv_unreaped cfg p base G).
  - intros i j pid s t Hi Hj Hs Ht. apply (Hpa i j (pid, s) (pid, t) pid); [done..| |]; simpl.
    + by destruct s.
    + by destruct t.
  - intros pid [?|(id & [q st] & Hid & Hq)]%Hpr; [by left|right]. exists id, st.
    destruct st; cbn in Hq; [..|discriminate Hq]; injection Hq as <-; (split; [done|discriminate]).
Qed.

(** C4: A VM is torn down exactly once, by one of the calls that may race
    for it (a user's delete, a boot that timed out, a shutdown, the reaper):
    in every interleaving at most one call reports that it destroyed a given
    VM, and at most once; from then on the VM is out of the table and its
    process has been waited for; every other call for it gets [ErrNotFound],
    and no call panics. *)
Theorem conc_destroyed_once (cfg : Config) (os : OS) (base : Obs) (w0 : World OS)
    (calls : list Call) (ls : list Lbl) ts (c : CWorld OS) :
  startedOn cfg os base w0 → goodIDs cfg base (uuidsC calls) →
  runC ls (startC cfg calls w0) = Some (ts, c) →
  (∀ i r, ts !! i = Some (Ret r) → calm r ∧ NoDup (winners r)) ∧
  (∀ i j r1 r2 id, ts !! i = Some (Ret r1) → ts !! j = Some (Ret r2) →
     id ∈ winners r1 → id ∈ winners r2 → i = j) ∧
  (∀ i r id, ts !! i = Some (Ret r) → id ∈ winners r →
     w_sessions (cw c) !! id = None ∧ ∃ pid, ph c !! id = Some (pid, PReaped)).
Proof.
  intros Hst Hids Hrun.
  destruct (run_reached cfg os base w0 calls ls ts c Hst Hids Hrun) as [Hp (_ & G & ows & Hpl & _)].
  pose proof (pl_inv _ _ _ _ _ _ _ _ Hpl) as HI.
  assert (∀ i r, ts !! i = Some (Ret r) → ∃ o, ows !! i = Some o ∧ Post r o) as Hpost.
  { intros i r Hi. by destruct (Forall2_lookup_l _ _ _ _ _ (pl_safe _ _ _ _ _ _ _ _ Hpl) Hi) as (o & ? & ?); eauto. }
  split_and!.
  - intros i r (o & _ & HP)%Hpost. split; apply HP.
  - intros i j r1 r2 id (o1 & H1 & P1)%Hpost (o2 & H2 & P2)%Hpost W1 W2.
    apply (pl_sep _ _ _ _ _ _ _ _ Hpl i j o1 o2 id H1 H2).
    + apply (po_keys _ _ P1). by left.
    + apply (po_keys _ _ P2). by left.
  - intros i r id (o & Ho & HP)%Hpost Hw.
    destruct (proj2 (po_keys _ _ HP id) (or_introl Hw)) as [v Hv].
    destruct (po_gone _ _ HP id v Hv Hw) as [Hg _].
    destruct (pl_owns _ _ _ _ _ _ _ _ Hpl i o Ho id v Hv) as [HG _]. split.
    + destruct (w_sessions (cw c) !! id) as [a|] eqn:E; [|done].
      destruct (CInv_live _ _ _ G c id a HI E) as (u & s & Hu & Hl & _). congruence.
    + destruct (ci_procs _ _ _ _ _ HI) as (_ & _ & _ & _ & Hh). specialize (Hh id v HG).
      rewrite Hg in Hh. by exists (v_pid v).
Qed.


End Claims.

(** ** Concrete schedules *)

Abbreviation SimState := (list (prog (CWorld SimOS) CRes) * CWorld SimOS)%type.

Definition canStep (st : SimState) (i : nat) : bool := match stepAt i st with Some _ => true | None => false end.
(** Turn by turn: thread [i] first, then the next one that can run. *)
Fixpoint turns (n i : nat) (st : SimState) : list Lbl :=
  match n with
  | O => []
  | S n' =>
    match filter (λ j, canStep st j = true) (rotate i (seq 0 (length st.1))) with
    | [] => []
    | j :: _ => match stepAt j st with
                | Some st' => Run j :: turns n' (S j) st'
                | None => []
                end
    end
  end.

Definition launchCall (id : string) : Call := CLaunch (demoIn id) (Ok tt).
Definition demoCalls : list Call :=
  [launchCall "a"; launchCall "b"; CLaunch (demoIn "c") (Err ErrCtx); CDestroy "a"].
(** All four at once, until only the reapers wait; then VM b exits, and
    everyone runs to the end. *)
Definition demoSched : list Lbl := Eval vm_compute in
  let st0 := startC Defaults demoCalls demoWorld in
  let first := turns 200 0 st0 in
  match runC (first ++ [Exit "b"]) st0 with
  | Some st => first ++ Exit "b" :: turns 50 0 st
  | None => []
  end.

Definition stuckb (st : SimState) : bool := forallb (λ i, negb (canStep st i)) (seq 0 (length st.1)).
Lemma stuckb_spec st : stuckb st = true → stuck st.1 st.2.
Proof.
  intros H i. destruct (stepAt i (st.1, st.2)) as [st'|] eqn:E; [|done].
  destruct st as [ts c]. assert (i < length ts)%nat as Hi.
  { unfold stepAt in E. cbn [fst snd] in E. destruct (ts !! i) eqn:Ei; [|done]. by eapply lookup_lt_Some. }
  unfold stuckb in H. rewrite forallb_forall in H. specialize (H i). rewrite in_seq in H.
  specialize (H ltac:(simpl; lia)). unfold canStep in H. cbn [fst snd] in *. by rewrite E in H.
Qed.

Definition results (st : SimState) : list CRes :=
  omap (λ q, match q with Ret x => Some x | _ => None end) st.1.

Lemma demo_run : ∃ ts c, runC demoSched (startC Defaults demoCalls demoWorld) = Some (ts, c) ∧
  stuckb (ts, c) = true ∧ dom (w_sessions (cw c)) = {["a"]} ∧
  results (ts, c) = [RLaunch "a" (Ok 0%nat) None; RLaunch "b" (Ok 1%nat) None;
    RLaunch "c" (Err ErrBootTimeout) (Some (Ok tt)); RDestroy "a" (Err ErrNotFound);
    RReaper "b" (Ok tt); RReaper "c" (Err ErrNotFound)] ∧
  o_links (obs (w_os (cw c))) = {["fc-br0"; "tap-fc1"]}.
Proof.
  assert (match runC demoSched (startC Defaults demoCalls demoWorld) with
    | Some st => stuckb st = true ∧ dom (w_sessions (cw st.2)) = {["a"]} ∧
        results st = [RLaunch "a" (Ok 0%nat) None; RLaunch "b" (Ok 1%nat) None;
          RLaunch "c" (Err ErrBootTimeout) (Some (Ok tt)); RDestroy "a" (Err ErrNotFound);
          RReaper "b" (Ok tt); RReaper "c" (Err ErrNotFound)] ∧
        o_links (obs (w_os (cw st.2))) = {["fc-br0"; "tap-fc1"]}
    | None => False
    end) as H by (vm_compute; repeat split).
  destruct (runC _ _) as [[ts c]|]; [|done]. by exists ts, c.
Qed.

Lemma demo_uuids ids : (bool_decide (NoDup ids) && forallb noSlash ids) = true →
  goodIDs Defaults (obs (w_os demoWorld)) ids.
Proof.
  intros [Hn%bool_decide_eq_true Hs]%andb_true_iff. apply demo_ids; [done|].
  intros id Hid. rewrite forallb_forall in Hs. apply Hs. by apply list_elem_of_In.
Qed.

Lemma demo_good : goodIDs Defaults (obs (w_os demoWorld)) (uuidsC demoCalls).
Proof. apply demo_uuids. vm_compute. reflexivity. Qed.

Lemma conc_sessions_isolated_witness : ∃ ts c,
  runC demoSched (startC Defaults demoCalls demoWorld) = Some (ts, c) ∧
  ∃ a s pid, w_sessions (cw c) !! "a" = Some a ∧ w_heap (cw c) !! a = Some s ∧
    s_Process s = Some pid ∧ s_Tap s ∈ o_links (obs (w_os (cw c))).
Proof.
  destruct demo_run as (ts & c & Hrun & _ & Hdom & _). exists ts, c. split; [exact Hrun|].
  destruct (conc_sessions_isolated Defaults demoHost (obs (w_os demoWorld)) demoWorld demoCalls demoSched
              ts c demo_started demo_good Hrun) as (H & _).
  assert (is_Some (w_sessions (cw c) !! "a")) as [a Ha] by (apply elem_of_dom; rewrite Hdom; by apply elem_of_singleton).
  destruct (H "a" a Ha) as (s & pid & st & ? & ? & ? & ? & ? & _). exists a, s, pid. split_and!; assumption.
Defined.

Lemma conc_destroyed_once_witness : ∃ ts c,
  runC demoSched (startC Defaults demoCalls demoWorld) = Some (ts, c) ∧
  ∀ i j r1 r2, ts !! i = Some (Ret r1) → ts !! j = Some (Ret r2) →
    "c" ∈ winners r1 → "c" ∈ winners r2 → i = j.
Proof.
  destruct demo_run as (ts & c & Hrun & _). exists ts, c. split; [exact Hrun|].
  destruct (conc_destroyed_once Defaults demoHost (obs (w_os demoWorld)) demoWorld demoCalls demoSched
              ts c demo_started demo_good Hrun) as (_ & H & _).
  intros i j r1 r2. apply H.
Defined.


(** ** Races of the code *)

(** The capacity check is not atomic with the registration: four launches
    that check before any of them registers leave four VMs on a manager
    configured for three. *)
Definition raceCalls : list Call := [launchCall "a"; launchCall "b"; launchCall "c"; launchCall "d"].
Theorem manager_capacity_races : ∃ ls ts c,
  runC ls (startC Defaults raceCalls demoWorld) = Some (ts, c) ∧
  c_MaxConcurrent Defaults = 3 ∧ size (w_sessions (cw c)) = 4%nat.
Proof.
  exists (turns 200 0 (startC Defaults raceCalls demoWorld)).
  assert (match runC (turns 200 0 (startC Defaults raceCalls demoWorld)) (startC Defaults raceCalls demoWorld) with
    | Some st => size (w_sessions (cw st.2)) = 4%nat | None => False end) as H by (vm_compute; reflexivity).
  destruct (runC _ _) as [[ts c]|]; [|done]. exists ts, c. by split_and!.
Qed.

(** [Shutdown] takes one snapshot of the table: a VM that is registered after
    it survives the shutdown, with its process, device and address. *)
Definition lateCalls : list Call := [launchCall "a"; CShutdown id].
Definition lateSched : list Lbl := Eval vm_compute in
  let st0 := startC Defaults lateCalls demoWorld in
  match runC [Run 0; Run 1] st0 with Some st => Run 0 :: Run 1 :: turns 200 0 st | None => [] end.
Theorem shutdown_misses_late_vm : ∃ ls ts c,
  runC ls (startC Defaults lateCalls demoWorld) = Some (ts, c) ∧
  ts !! 1%nat = Some (Ret (RShutdown [])) ∧
  stuck ts c ∧ is_Some (w_sessions (cw c) !! "a") ∧ o_procs (obs (w_os (cw c))) ≠ ∅.
Proof.
  exists lateSched.
  assert (match runC lateSched (startC Defaults lateCalls demoWorld) with
    | Some st => stuckb st = true ∧ dom (w_sessions (cw st.2)) = {["a"]} ∧
        o_procs (obs (w_os (cw st.2))) = {[1]} ∧
        (match st.1 !! 1%nat with Some (Ret (RShutdown [])) => true | _ => false end) = true
    | None => False end) as H by (vm_compute; repeat split).
  destruct (runC _ _) as [[ts c]|]; [|done]. destruct H as (H1 & H2 & H3 & H4). cbn [fst snd] in *.
  exists ts, c. split_and!; [done| |exact (stuckb_spec _ H1)| |].
  - destruct (ts !! 1%nat) as [[[| | |[]]| |]|]; done.
  - apply elem_of_dom. rewrite H2. by apply elem_of_singleton.
  - rewrite H3. by apply non_empty_singleton_L.
Qed.
