(* ===== verification/VMTable.v ===== *)
(** What the rest of the control plane sees of the session manager: a table
    of VMs by id and the session records it points to.  [vmAdd] and
    [vmDestroy] are the contract of [Manager.Create] and [Manager.Destroy];
    the refinement theorem shows that the manager keeps it over every
    history, whatever happens on the host. *)
From S2P Require Import Prelude GoLib NetAlloc Session Config HostOS Manager Ownership.
Open Scope Z_scope.

Record VMs := mkVMs { v_table : gmap string nat; v_heap : gmap nat Session }.

(** A session as a launcher hands it out: it belongs to a manager, and its
    [done] channel is open. *)
Record opened (s : Session) : Prop := {
  op_done : s_done s = SigOpen;
  op_once : s_doneOnce s = false
}.

(** A new VM, entered under its id if a manager owns it. *)
Definition vmAdd (s : Session) (v : VMs) : nat * VMs :=
  let a := fresh (dom (v_heap v)) in
  (a, mkVMs (if s_mgr s then <[s_ID s := a]> (v_table v) else v_table v)
        (<[a := s]> (v_heap v))).

(** [CloseDone]; that it never panics is [signals_fire_once]. *)
Definition closed (s : Session) : Session := default s (CloseDone s).

Definition vmClose (a : nat) (v : VMs) : VMs := mkVMs (v_table v) (alter closed a (v_heap v)).

Definition vmDestroy (id : string) (v : VMs) : res GoErr unit * VMs :=
  match v_table v !! id with
  | None => (Err ErrNotFound, v)
  | Some a => (Ok tt, mkVMs (delete id (v_table v)) (alter closed a (v_heap v)))
  end.

(** The contract, one call at a time. *)
Inductive vstep : MOp → res GoErr unit → VMs → VMs → Prop :=
| vs_create inp s v :
    s_ID s = ci_uuid inp → s_mgr s = true → opened s → v_table v !! ci_uuid inp = None →
    vstep (MCreate inp) (Ok tt) v (vmAdd s v).2
| vs_fail inp e v : vstep (MCreate inp) (Err e) v v
| vs_destroy id v : vstep (MDestroy id) (vmDestroy id v).1 v (vmDestroy id v).2.

Inductive vsteps : list MOp → list (res GoErr unit) → VMs → VMs → Prop :=
| vss_nil v : vsteps [] [] v v
| vss_cons o r ops rs v v1 v2 :
    vstep o r v v1 → vsteps ops rs v1 v2 → vsteps (o :: ops) (r :: rs) v v2.

Section Refinement.
Context {OS : Type} `{!HostOS OS, !HostOSLaws OS}.
Variable cfg : Config.
Implicit Types w : World OS.

Definition view w : VMs := mkVMs (w_sessions w) (w_heap w).

Lemma wp_Create_view base clean p n G inp w :
  prefix_ok p → 0 ≤ n → Inv cfg base clean p n G w → G !! ci_uuid inp = None →
  wp (Create cfg inp) (λ r w',
    vstep (MCreate inp) (match r with Ok _ => Ok tt | Err e => Err e end) (view w) (view w')) w.
Proof.
  intros Hp Hn Hinv Hno. unfold Create. apply wp_bind, wp_gets.
  destruct (atCapacity cfg w); [apply wp_ret, vs_fail|].
  eapply wp_mono; [|apply (wp_createVM cfg inp p n); [done..|apply Hinv]].
  intros [a|e] w' [_ Hc]; cbn zeta in Hc.
  - destruct Hc as (tok & proc & _ & _ & -> & Hs & Hh & _).
    unfold view. rewrite Hs, Hh.
    change (vstep (MCreate inp) (Ok tt) (view w)
      (vmAdd (newSession cfg (ci_uuid inp) (hexEncode tok) (grantAt p n) proc (ci_now inp)) (view w)).2).
    apply vs_create; [done|done|done|]. simpl.
    by rewrite (iv_sess _ _ _ _ _ _ _ Hinv), lookup_fmap, Hno.
  - destruct Hc as (Hs & Hh & _). unfold view. rewrite Hs, Hh. apply vs_fail.
Qed.

Lemma wp_Destroy_view base clean p n G id w :
  Inv cfg base clean p n G w →
  wp (Destroy id) (λ r w', vstep (MDestroy id) r (view w) (view w')) w.
Proof.
  intros Hinv. destruct (G !! id) as [l|] eqn:Hid.
  - destruct (iv_cells _ _ _ _ _ _ _ Hinv id l Hid) as (_ & _ & _ & s & Hs & Hc).
    assert (w_sessions w !! id = Some (lv_addr l)) as Hw
      by (by rewrite (iv_sess _ _ _ _ _ _ _ Hinv), lookup_fmap, Hid).
    eapply wp_Destroy; [exact Hw|exact Hs|apply Hc..|]. intros os' _.
    assert (vmDestroy id (view w) = (Ok tt, mkVMs (delete id (w_sessions w))
      (<[lv_addr l := with_done SigClosed true s]> (w_heap w)))) as Hv.
    { unfold vmDestroy, view. cbn [v_table v_heap]. rewrite Hw. do 2 f_equal.
      apply map_eq. intros b. destruct (decide (b = lv_addr l)) as [->|Hne].
      - rewrite lookup_alter_eq, Hs, lookup_insert_eq. simpl. f_equal.
        unfold closed, CloseDone. by rewrite (ce_done _ _ _ _ _ Hc), (ce_once _ _ _ _ _ Hc).
      - by rewrite lookup_alter_ne, lookup_insert_ne by done. }
    pose proof (vs_destroy id (view w)) as Hvs. by rewrite Hv in Hvs.
  - assert (w_sessions w !! id = None) as Hw
      by (by rewrite (iv_sess _ _ _ _ _ _ _ Hinv), lookup_fmap, Hid).
    apply wp_Destroy_missing; [done|].
    pose proof (vs_destroy id (view w)) as Hvs. unfold vmDestroy in Hvs. cbn [view v_table] in Hvs.
    by rewrite Hw in Hvs.
Qed.

Lemma wp_and {A} (m : osM (World OS) A) P Q w :
  wp m P w → wp m Q w → wp m (λ a w', P a w' ∧ Q a w') w.
Proof. intros ?%wp_run ?%wp_run. by apply wp_intro. Qed.

Lemma wp_runM_view base p ops : ∀ clean n G w,
  prefix_ok p → 0 ≤ n → Inv cfg base clean p n G w → goodIDs cfg base (uuidsOf ops) →
  (∀ id, id ∈ uuidsOf ops → G !! id = None) →
  wp (runM cfg ops) (λ rs w', vsteps ops rs (view w) (view w')) w.
Proof.
  induction ops as [|[inp|id] ops IH]; intros clean n G w Hp Hn Hinv Hids Hnew; cbn [runM].
  - apply wp_ret. constructor.
  - change (uuidsOf (MCreate inp :: ops)) with (ci_uuid inp :: uuidsOf ops) in *.
    apply goodIDs_cons in Hids as (Hs & Hf & Hni & Hids). cbn [stepM].
    assert (G !! ci_uuid inp = None) as Hno by (apply Hnew; set_solver).
    apply wp_bind, wp_bind. eapply wp_mono;
      [|apply wp_and; [by apply (wp_Create_view base clean p n G)
                      |by apply (wp_Create_Inv cfg base clean p n G)]].
    intros r w1 [Hv (n1 & G1 & Hn1 & Hr)]. apply wp_ret, wp_bind.
    assert (∃ c1, Inv cfg base c1 p n1 G1 w1 ∧ ∀ id, id ∈ uuidsOf ops → G1 !! id = None) as (c1 & Hi1 & Hg1).
    { destruct r as [a|e].
      - destruct Hr as [(l & _ & ->) Hinv1]. exists clean. split; [done|]. intros j Hj.
        rewrite lookup_insert_ne by congruence. apply Hnew. set_solver.
      - destruct Hr as [-> Hinv1]. eexists. split; [done|]. intros j Hj. apply Hnew. set_solver. }
    eapply wp_mono; [|apply (IH c1 n1 G1 w1); [done|lia|done|done|done]].
    intros rs w2 Hvs. apply wp_ret. by econstructor.
  - change (uuidsOf (MDestroy id :: ops)) with (uuidsOf ops) in *. cbn [stepM]. apply wp_bind.
    eapply wp_mono; [|apply wp_and; [by apply (wp_Destroy_view base clean p n G)
                                    |by apply (wp_Destroy_Inv cfg base clean p n G)]].
    intros r w1 [Hv [_ Hinv1]]. apply wp_bind.
    eapply wp_mono; [|apply (IH clean n (delete id G) w1); [done|done|exact Hinv1|done|]].
    2:{ intros j Hj. apply lookup_delete_None. right. by apply Hnew. }
    intros rs w2 Hvs. apply wp_ret. by econstructor.
Qed.

(** C10: the manager implements the VM table: over every history, with every
    host failure, each call answers and changes the table exactly as the
    contract says: a successful [Create] adds one VM under its new id with
    open signals, a failed one changes nothing, [Destroy] removes the VM and
    closes its [done] channel once, or answers [ErrNotFound]; no call
    panics. *)
Theorem manager_refines_table (os : OS) (base : Obs) (w0 : World OS) (ops : list MOp) :
  startedOn cfg os base w0 → goodIDs cfg base (uuidsOf ops) →
  vsteps ops (runM cfg ops w0).1 (view w0) (view (runM cfg ops w0).2).
Proof.
  intros (p & Hp & Hinv)%startedOn_Inv Hids.
  apply (wp_run _ _ _ (wp_runM_view base p ops true 0 ∅ w0 Hp ltac:(lia) Hinv Hids
              (λ _ _, lookup_empty _))).
Qed.

End Refinement.

Lemma manager_refines_table_witness :
  vsteps demoOps [Ok tt; Ok tt; Ok tt; Ok tt] (view demoWorld)
    (view (runM Defaults demoOps demoWorld).2).
Proof.
  assert ((runM Defaults demoOps demoWorld).1 = [Ok tt; Ok tt; Ok tt; Ok tt]) as <-
    by (vm_compute; reflexivity).
  exact (manager_refines_table Defaults demoHost (obs (w_os demoWorld)) demoWorld demoOps
           demo_started demo_abc).
Defined.
