(* ===== verification/Host.v ===== *)
(** The session host and its warm pool,
    control-plane/internal/session/host.go and warmpool.go, over the VM table
    of VMTable.v.

    Every critical section is a function; the goroutines that run them (HTTP
    requests, the watcher of each session, the pool's builders) are program
    counters, and [hstep] interleaves them in any order with VMs that exit on
    their own. *)
From S2P Require Import Prelude GoLib NetAlloc Session VMTable.
Open Scope Z_scope.

(** ** Program points *)

Inductive PC :=
| PCheck                       (* Create: about to check the capacity *)
| PLaunch                      (* Create: about to launch *)
| PInsert (a : nat)            (* Create: launched, about to register *)
| PPop                         (* CreateWarm: about to ask the pool *)
| PPoke (o : option nat)       (* AcquireWarm: popped, about to ask for a refill *)
| PWarm (a : nat)              (* CreateWarm: got a VM, about to register it *)
| PTake (id : string)          (* Destroy: about to look the id up *)
| PMgr (a : nat)               (* Destroy: taken, about to tear the VM down *)
| PClose (a : nat)             (* Destroy: about to close the done channel *)
| PGone (a : nat)              (* about to call onGone *)
| PWatch (a : nat)             (* the watcher goroutine *)
| PBuild                       (* buildOne: about to launch *)
| PPool (a : nat)              (* buildOne: about to append to the pool *)
| PSeed (n : nat)              (* Start: [n] requests left to seed *)
| PLoop                        (* the pool's loop: waiting *)
| PHave                        (* the pool's loop: took a request *)
| PRet.                        (* returned *)

Record HState := mkH {
  h_sessions : gmap string nat;
  h_vms : VMs;
  h_ready : list nat;          (* WarmPool.ready *)
  h_replenish : nat;           (* requests in the replenish channel *)
  h_gone : list nat;           (* the calls of onGone, oldest first *)
  h_threads : list PC;
  h_inserted : list nat;       (* every VM that ever entered the live map *)
  h_dropped : list nat         (* every VM CreateWarm let go of *)
}.

Definition NewHostMax (maxLive : Z) : Z := if maxLive <=? 0 then 3 else maxLive.
Definition NewWarmPoolTarget (target : Z) : Z := if target <=? 0 then 2 else target.

Definition sid (v : VMs) (a : nat) : string :=
  match v_heap v !! a with Some s => s_ID s | None => "" end.

(** [if s.ID == "" { s.ID = uuid.NewString() }], and the [Warm] flag. *)
Definition ensureID (uuid : string) (warm : bool) (a : nat) (v : VMs) : VMs :=
  mkVMs (v_table v)
    (alter (λ s, with_ident (if bool_decide (s_ID s = "") then uuid else s_ID s) (s_Owner s)
                   (s_Warm s || warm) s) a (v_heap v)).

Section Host.
Variables (maxLive target : Z).

Definition full (st : HState) : bool := maxLive <=? Z.of_nat (size (h_sessions st)).

Definition setPC (i : nat) (pc : PC) (st : HState) : HState :=
  mkH (h_sessions st) (h_vms st) (h_ready st) (h_replenish st) (h_gone st)
    (<[i := pc]> (h_threads st)) (h_inserted st) (h_dropped st).
Definition spawn (pc : PC) (st : HState) : HState :=
  mkH (h_sessions st) (h_vms st) (h_ready st) (h_replenish st) (h_gone st)
    (h_threads st ++ [pc]) (h_inserted st) (h_dropped st).
Definition setVMs (v : VMs) (st : HState) : HState :=
  mkH (h_sessions st) v (h_ready st) (h_replenish st) (h_gone st)
    (h_threads st) (h_inserted st) (h_dropped st).

(** *** Critical sections *)

(** [h.sessions[s.ID] = s], then [h.watch(s)]. *)
Definition insertLive (uuid : string) (warm : bool) (a : nat) (st : HState) : HState :=
  let v := ensureID uuid warm a (h_vms st) in
  spawn (PWatch a)
    (mkH (<[sid v a := a]> (h_sessions st)) v (h_ready st) (h_replenish st) (h_gone st)
       (h_threads st) (a :: h_inserted st) (h_dropped st)).

(** The locked part of [Destroy]. *)
Definition takeLive (id : string) (st : HState) : option nat * HState :=
  (h_sessions st !! id,
   mkH (delete id (h_sessions st)) (h_vms st) (h_ready st) (h_replenish st) (h_gone st)
     (h_threads st) (h_inserted st) (h_dropped st)).

(** The locked part of the watcher: only the session it watches. *)
Definition takeWatched (a : nat) (st : HState) : bool * HState :=
  let id := sid (h_vms st) a in
  if bool_decide (h_sessions st !! id = Some a)
  then (true, (takeLive id st).2) else (false, st).

(** A non-blocking send on the replenish channel, of capacity [2*target]. *)
Definition poke (st : HState) : HState :=
  mkH (h_sessions st) (h_vms st) (h_ready st)
    (if Z.of_nat (h_replenish st) <? target * 2 then S (h_replenish st) else h_replenish st)
    (h_gone st) (h_threads st) (h_inserted st) (h_dropped st).

(** The locked part of [AcquireWarm]. *)
Definition popReady (st : HState) : option nat * HState :=
  match h_ready st with
  | [] => (None, st)
  | a :: l => (Some a, mkH (h_sessions st) (h_vms st) l (h_replenish st) (h_gone st)
                         (h_threads st) (h_inserted st) (h_dropped st))
  end.

Definition pushReady (a : nat) (st : HState) : HState :=
  mkH (h_sessions st) (h_vms st) (h_ready st ++ [a]) (h_replenish st) (h_gone st)
    (h_threads st) (h_inserted st) (h_dropped st).

(** The receive of [WarmPool.loop]. *)
Definition receive (st : HState) : HState :=
  mkH (h_sessions st) (h_vms st) (h_ready st) (pred (h_replenish st)) (h_gone st)
    (h_threads st) (h_inserted st) (h_dropped st).

(** The rest of a round of the loop: build one VM if too few are ready. *)
Definition poolRound (st : HState) : HState :=
  if target <=? Z.of_nat (length (h_ready st)) then st else spawn PBuild st.

(** [Start]: the loop, and the requests that seed the pool. *)
Definition Start (st : HState) : HState := spawn (PSeed (Z.to_nat target)) (spawn PLoop st).

(** [Size], [Count] and [WarmPoolSize], with the gauge of [RegisterMetrics];
    [pool] is whether the host has a warm pool. *)
Definition Size (st : HState) : Z := Z.of_nat (length (h_ready st)).
Definition HostCount (st : HState) : Z := Z.of_nat (size (h_sessions st)).
Definition WarmPoolSize (pool : bool) (st : HState) : Z := if pool then Size st else 0.
(** [Get] and [List], in the order of the map. *)
Definition HostGet (id : string) (st : HState) : option nat := h_sessions st !! id.
Definition HostList (st : HState) : list nat := (map_to_list (h_sessions st)).*2.
Arguments HostGet _ _ /.
Arguments HostList _ /.
Definition liveGauge (st : HState) : Z := HostCount st.

Definition callGone (a : nat) (st : HState) : HState :=
  mkH (h_sessions st) (h_vms st) (h_ready st) (h_replenish st) (h_gone st ++ [a])
    (h_threads st) (h_inserted st) (h_dropped st).

Definition dropVM (a : nat) (st : HState) : HState :=
  mkH (h_sessions st) (h_vms st) (h_ready st) (h_replenish st) (h_gone st)
    (h_threads st) (h_inserted st) (a :: h_dropped st).

(** The registering part of [CreateWarm]: check and insert under one lock. *)
Definition warmInsert (uuid : string) (a : nat) (st : HState) : HState :=
  if full st then dropVM a st else insertLive uuid true a st.

(** Tearing a VM down: through its manager if it has one. *)
Definition teardown (a : nat) (st : HState) : HState :=
  match v_heap (h_vms st) !! a with
  | Some s => if s_mgr s then setVMs (vmDestroy (s_ID s) (h_vms st)).2 st else st
  | None => st
  end.

Definition isDone (a : nat) (st : HState) : bool :=
  match v_heap (h_vms st) !! a with
  | Some s => bool_decide (s_done s = SigClosed)
  | None => false
  end.

(** An id no VM has: what [uuid.NewString] promises. *)
Definition newID (v : VMs) (id : string) : Prop :=
  id ≠ "" ∧ ∀ a s, v_heap v !! a = Some s → s_ID s ≠ id.

(** *** Interleavings *)

Inductive hstep : HState → HState → Prop :=
| h_request st pc : pc = PCheck ∨ pc = PPop ∨ (∃ id, pc = PTake id) → hstep st (spawn pc st)
| h_check st i : h_threads st !! i = Some PCheck →
    hstep st (setPC i (if full st then PRet else PLaunch) st)
| h_launch st i s pc a v :
    (h_threads st !! i = Some PLaunch ∧ pc = PInsert a) ∨
    (h_threads st !! i = Some PBuild ∧ pc = PPool a) →
    s_ID s = "" ∨ newID (h_vms st) (s_ID s) → opened s →
    vmAdd s (h_vms st) = (a, v) → hstep st (setPC i pc (setVMs v st))
| h_launch_err st i : h_threads st !! i = Some PLaunch ∨ h_threads st !! i = Some PBuild →
    hstep st (setPC i PRet st)
| h_insert st i a uuid : h_threads st !! i = Some (PInsert a) → newID (h_vms st) uuid →
    hstep st (insertLive uuid false a (setPC i PRet st))
| h_pop st i : h_threads st !! i = Some PPop →
    hstep st (setPC i (PPoke (popReady st).1) (popReady st).2)
| h_poke st i o : h_threads st !! i = Some (PPoke o) →
    hstep st (setPC i (match o with Some a => PWarm a | None => PCheck end) (poke st))
| h_warm st i a uuid : h_threads st !! i = Some (PWarm a) → newID (h_vms st) uuid →
    hstep st (warmInsert uuid a (setPC i PRet st))
| h_take st i id : h_threads st !! i = Some (PTake id) →
    hstep st (match takeLive id st with
              | (Some a, st') => setPC i (PMgr a) st'
              | (None, st') => setPC i PRet st'
              end)
| h_mgr st i a : h_threads st !! i = Some (PMgr a) → hstep st (setPC i (PClose a) (teardown a st))
| h_close st i a : h_threads st !! i = Some (PClose a) →
    hstep st (setPC i (PGone a) (setVMs (vmClose a (h_vms st)) st))
| h_gone_call st i a : h_threads st !! i = Some (PGone a) → hstep st (setPC i PRet (callGone a st))
| h_watch st i a : h_threads st !! i = Some (PWatch a) → isDone a st = true →
    hstep st (match takeWatched a st with
              | (true, st') => setPC i (PGone a) st'
              | (false, st') => setPC i PRet st'
              end)
| h_exit st id : hstep st (setVMs (vmDestroy id (h_vms st)).2 st)
| h_start st : hstep st (Start st)
| h_seed st i n : h_threads st !! i = Some (PSeed (S n)) → hstep st (setPC i (PSeed n) (poke st))
| h_loop st i : h_threads st !! i = Some PLoop → (0 < h_replenish st)%nat →
    hstep st (setPC i PHave (receive st))
| h_have st i : h_threads st !! i = Some PHave → hstep st (poolRound (setPC i PLoop st))
| h_stop st i : h_threads st !! i = Some PLoop → hstep st (setPC i PRet st)
| h_pool st i a : h_threads st !! i = Some (PPool a) → hstep st (pushReady a (setPC i PRet st)).

(** *** A scheduler: which goroutine moves next, with what it draws *)

Inductive Act :=
| ARequest (pc : PC)                     (* a request, or the reaper, arrives *)
| ARun (i : nat)                         (* thread [i] runs to its next point *)
| ALaunch (i : nat) (s : Session)        (* its launcher returns a session *)
| AFail (i : nat)                        (* its launcher fails *)
| AInsert (i : nat) (uuid : string)      (* it registers the session *)
| AExit (id : string)                    (* a VM exits and is reaped *)
| AStart.                                (* the pool is started *)

#[export] Instance PC_eq_dec : EqDecision PC.
Proof. solve_decision. Defined.

Definition isRequest (pc : PC) : bool :=
  match pc with PCheck | PPop | PTake _ => true | _ => false end.

Definition newIDb (v : VMs) (id : string) : bool :=
  negb (bool_decide (id = "")) && bool_decide (map_Forall (λ _ s, s_ID s ≠ id) (v_heap v)).

Definition openedb (s : Session) : bool := bool_decide (s_done s = SigOpen) && negb (s_doneOnce s).

Definition runThread (i : nat) (pc : PC) (st : HState) : option HState :=
  match pc with
  | PCheck => Some (setPC i (if full st then PRet else PLaunch) st)
  | PPop => Some (setPC i (PPoke (popReady st).1) (popReady st).2)
  | PPoke o => Some (setPC i (match o with Some a => PWarm a | None => PCheck end) (poke st))
  | PSeed (S n) => Some (setPC i (PSeed n) (poke st))
  | PLoop => if (0 <? h_replenish st)%nat then Some (setPC i PHave (receive st)) else None
  | PHave => Some (poolRound (setPC i PLoop st))
  | PTake id => Some (match takeLive id st with
                      | (Some a, st') => setPC i (PMgr a) st'
                      | (None, st') => setPC i PRet st'
                      end)
  | PMgr a => Some (setPC i (PClose a) (teardown a st))
  | PClose a => Some (setPC i (PGone a) (setVMs (vmClose a (h_vms st)) st))
  | PGone a => Some (setPC i PRet (callGone a st))
  | PWatch a => if isDone a st
                then Some (match takeWatched a st with
                           | (true, st') => setPC i (PGone a) st'
                           | (false, st') => setPC i PRet st'
                           end)
                else None
  | PPool a => Some (pushReady a (setPC i PRet st))
  | _ => None
  end.

Definition exec1 (act : Act) (st : HState) : option HState :=
  match act with
  | ARequest pc => if isRequest pc then Some (spawn pc st) else None
  | ARun i => match h_threads st !! i with Some pc => runThread i pc st | None => None end
  | ALaunch i s =>
    if (bool_decide (s_ID s = "") || newIDb (h_vms st) (s_ID s)) && openedb s then
      let '(a, v) := vmAdd s (h_vms st) in
      match h_threads st !! i with
      | Some PLaunch => Some (setPC i (PInsert a) (setVMs v st))
      | Some PBuild => Some (setPC i (PPool a) (setVMs v st))
      | _ => None
      end
    else None
  | AFail i => match h_threads st !! i with
               | Some PLaunch | Some PBuild => Some (setPC i PRet st)
               | _ => None
               end
  | AInsert i uuid =>
    if newIDb (h_vms st) uuid then
      match h_threads st !! i with
      | Some (PInsert a) => Some (insertLive uuid false a (setPC i PRet st))
      | Some (PWarm a) => Some (warmInsert uuid a (setPC i PRet st))
      | _ => None
      end
    else None
  | AExit id => Some (setVMs (vmDestroy id (h_vms st)).2 st)
  | AStart => Some (Start st)
  end.

Fixpoint exec (acts : list Act) (st : HState) : option HState :=
  match acts with
  | [] => Some st
  | act :: acts' => match exec1 act st with Some st' => exec acts' st' | None => None end
  end.

(** *** Whole calls, run without interruption *)

Definition HostDestroy (id : string) (st : HState) : res GoErr unit * HState :=
  match takeLive id st with
  | (None, st1) => (Err ErrNotFound, st1)
  | (Some a, st1) =>
    let st2 := teardown a st1 in
    let st3 := setVMs (vmClose a (h_vms st2)) st2 in
    (Ok tt, callGone a st3)
  end.

(** The loop of [ReapIdle] over the snapshot of [List]; [Destroy] answers
    nil or [ErrNotFound], and both count as reaped. *)
Fixpoint reapLoop (now timeout : Z) (cells : list nat) (st : HState) : list string * HState :=
  match cells with
  | [] => ([], st)
  | a :: cells' =>
    match v_heap (h_vms st) !! a with
    | None => reapLoop now timeout cells' st
    | Some s =>
      match IdleSince s with
      | None => reapLoop now timeout cells' st
      | Some since =>
        if satS64 (now - since) <? timeout then reapLoop now timeout cells' st
        else let '(_, st1) := HostDestroy (s_ID s) st in
             let '(ids, st2) := reapLoop now timeout cells' st1 in
             (s_ID s :: ids, st2)
      end
    end
  end.

(** [ReapIdle]; [cells] is the order in which [List] met the sessions. *)
Definition ReapIdle (now timeout : Z) (cells : list nat) (st : HState) : list string * HState :=
  if timeout <=? 0 then ([], st) else reapLoop now timeout cells st.

(** The end of [main]: destroy every session [List] returned. *)
Fixpoint shutdownHost (ids : list string) (st : HState) : HState :=
  match ids with
  | [] => st
  | id :: ids' => shutdownHost ids' (HostDestroy id st).2
  end.

Definition hostStart : HState := mkH ∅ (mkVMs ∅ ∅) [] 0 [] [] [] [].

Inductive reachable : HState → Prop :=
| r_start : reachable hostStart
| r_step st st' : reachable st → hstep st st' → reachable st'.

(** ** Where each VM is *)

Definition held (pc : PC) : option nat :=
  match pc with
  | PInsert a | PWarm a | PPool a => Some a
  | PPoke o => o
  | _ => None
  end.
Definition pending (pc : PC) : option nat :=
  match pc with PMgr a | PClose a | PGone a => Some a | _ => None end.

Definition lives (st : HState) : list nat := (map_to_list (h_sessions st)).*2.
Definition holds (st : HState) : list nat := omap held (h_threads st).
Definition pends (st : HState) : list nat := omap pending (h_threads st).

Definition optl (o : option nat) : list nat := match o with Some a => [a] | None => [] end.

(** Changing one thread changes what it holds and nothing else. *)
Lemma threads_set (l : list PC) i old :
  l !! i = Some old →
  ∃ H P, omap held l ≡ₚ optl (held old) ++ H ∧ omap pending l ≡ₚ optl (pending old) ++ P ∧
    ∀ pc, omap held (<[i := pc]> l) ≡ₚ optl (held pc) ++ H ∧
          omap pending (<[i := pc]> l) ≡ₚ optl (pending pc) ++ P.
Proof.
  intros Hi.
  exists (omap held (take i l ++ drop (S i) l)), (omap pending (take i l ++ drop (S i) l)).
  assert (∀ f pc, omap f (take i l ++ pc :: drop (S i) l) ≡ₚ
                  optl (f pc) ++ omap f (take i l ++ drop (S i) l)) as Hf.
  { intros f pc. rewrite !omap_app. cbn [omap list_omap]. destruct (f pc); simpl; solve_Permutation. }
  assert (i < length l)%nat by (by eapply lookup_lt_Some).
  pose proof (Hf held old) as H1. pose proof (Hf pending old) as H2.
  rewrite take_drop_middle in H1, H2 by done. split_and!; [exact H1|exact H2|].
  intros pc. rewrite insert_take_drop by done. split; apply Hf.
Qed.

(** The same VMs with the same ids; some may have left the table. *)
Definition sameIDs (v v' : VMs) : Prop :=
  (∀ a, s_ID <$> v_heap v' !! a = s_ID <$> v_heap v !! a) ∧ v_table v' ⊆ v_table v.

Lemma closed_ID s : s_ID (closed s) = s_ID s.
Proof.
  unfold closed, CloseDone. destruct (s_done s); try done; simpl; by destruct (s_doneOnce s).
Qed.

Lemma sameIDs_close a v : sameIDs v (vmClose a v).
Proof.
  split; [|done].
  intros b. unfold vmClose. cbn [v_heap]. destruct (decide (b = a)) as [->|].
  - rewrite lookup_alter_eq. destruct (v_heap v !! a); simpl; [|done]. by rewrite closed_ID.
  - by rewrite lookup_alter_ne.
Qed.

Lemma sameIDs_destroy id v : sameIDs v (vmDestroy id v).2.
Proof.
  unfold vmDestroy. destruct (v_table v !! id) as [a|]; [|done].
  split; [apply (sameIDs_close a)|]. apply delete_subseteq.
Qed.

Lemma sameIDs_sid v v' a : sameIDs v v' → sid v' a = sid v a.
Proof. intros [H _]. specialize (H a). unfold sid. by do 2 destruct (_ !! a); simplify_eq/=. Qed.

Lemma sameIDs_alloc v v' a : sameIDs v v' → is_Some (v_heap v !! a) → is_Some (v_heap v' !! a).
Proof. intros [H _] [s Hs]. specialize (H a). rewrite Hs in H. by destruct (v_heap v' !! a). Qed.

Definition uniqueIDs (v : VMs) : Prop :=
  ∀ a b s t, v_heap v !! a = Some s → v_heap v !! b = Some t → s_ID s = s_ID t → s_ID s ≠ "" → a = b.

Lemma sameIDs_unique v v' : sameIDs v v' → uniqueIDs v → uniqueIDs v'.
Proof.
  intros [H _] Hu a b s t Hs Ht. pose proof (H a) as Ha. pose proof (H b) as Hb.
  rewrite Hs in Ha. rewrite Ht in Hb.
  destruct (v_heap v !! a) as [s'|] eqn:Es; [|done]. destruct (v_heap v !! b) as [t'|] eqn:Et; [|done].
  simpl in *. injection Ha as ->. injection Hb as ->. by apply Hu.
Qed.

(** ** The invariant *)

Record J (st : HState) : Prop := {
  j_nodup : NoDup (holds st ++ h_ready st ++ h_dropped st ++ h_inserted st);
  j_alloc : ∀ a, a ∈ holds st ++ h_ready st ++ h_dropped st ++ h_inserted st →
    is_Some (v_heap (h_vms st) !! a);
  j_part : h_inserted st ≡ₚ lives st ++ pends st ++ h_gone st;
  j_map : ∀ id a, h_sessions st !! id = Some a → sid (h_vms st) a = id ∧ id ≠ "";
  j_ids : uniqueIDs (h_vms st);
  j_table : ∀ id a, v_table (h_vms st) !! id = Some a → id ≠ "" →
    sid (h_vms st) a = id ∧ is_Some (v_heap (h_vms st) !! a)
}.

(** Moving VMs between places: threads, pool, live map, pending, gone. *)
Lemma J_move st st' :
  J st → sameIDs (h_vms st) (h_vms st') →
  holds st' ++ h_ready st' ++ h_dropped st' ++ h_inserted st' ≡ₚ
    holds st ++ h_ready st ++ h_dropped st ++ h_inserted st →
  (h_inserted st ≡ₚ lives st ++ pends st ++ h_gone st →
   h_inserted st' ≡ₚ lives st' ++ pends st' ++ h_gone st') →
  h_sessions st' ⊆ h_sessions st → J st'.
Proof.
  intros [Hn Ha Hp Hm Hu Htb] Hs Hperm Hpart Hsub. split.
  - by rewrite Hperm.
  - intros a. rewrite Hperm. intros Hin. eapply sameIDs_alloc; [done|]. by apply Ha.
  - auto.
  - intros id a Hid. rewrite (sameIDs_sid _ _ _ Hs). apply Hm. by eapply lookup_weaken.
  - by eapply sameIDs_unique.
  - intros id a Hid Hne. rewrite (sameIDs_sid _ _ _ Hs).
    destruct (Htb id a (lookup_weaken _ _ _ _ Hid (proj2 Hs)) Hne) as [? ?].
    split; [done|]. by eapply sameIDs_alloc.
Qed.

Lemma lives_take st id a : h_sessions st !! id = Some a →
  lives st ≡ₚ a :: (map_to_list (delete id (h_sessions st))).*2.
Proof. intros H. unfold lives. by rewrite <- (map_to_list_delete _ _ _ H). Qed.

(** Naming a VM on registration. *)
Lemma ensureID_spec uuid warm a v :
  is_Some (v_heap v !! a) → uniqueIDs v → newID v uuid →
  let v' := ensureID uuid warm a v in
  (∀ b, b ≠ a → v_heap v' !! b = v_heap v !! b) ∧ is_Some (v_heap v' !! a) ∧
  sid v' a ≠ "" ∧ (sid v a ≠ "" → sid v' a = sid v a) ∧
  (∀ b, is_Some (v_heap v !! b) → sid v b = sid v' a → b = a) ∧ uniqueIDs v'.
Proof.
  intros [s Hs] Hu [Hne Hnew] v'.
  assert (∀ b, b ≠ a → v_heap v' !! b = v_heap v !! b) as Hoth.
  { intros b Hb. unfold v', ensureID. cbn [v_heap]. by rewrite lookup_alter_ne by done. }
  set (nid := if bool_decide (s_ID s = "") then uuid else s_ID s).
  assert (∃ s', v_heap v' !! a = Some s' ∧ s_ID s' = nid) as (s' & Hs' & Hid').
  { unfold v', ensureID. cbn [v_heap]. rewrite lookup_alter_eq, Hs. simpl. by eexists. }
  assert (sid v' a = nid) as -> by (unfold sid; by rewrite Hs').
  assert (∀ b t, v_heap v !! b = Some t → s_ID t = nid → b = a) as Huniq.
  { intros b t Ht Heq. unfold nid in Heq. case_bool_decide; [by destruct (Hnew b t Ht)|].
    apply (Hu b a t s); [done..|congruence]. }
  split_and!; [done|by eexists|unfold nid; by case_bool_decide| | |].
  - unfold sid, nid. rewrite Hs. by case_bool_decide.
  - intros b [t Ht] Hb. unfold sid in Hb. rewrite Ht in Hb. by apply (Huniq b t).
  - intros b c t u Ht Hv Heq Hne'.
    destruct (decide (b = a)) as [->|Hba], (decide (c = a)) as [->|Hca]; try done.
    + rewrite Hoth in Hv by done. rewrite Hs' in Ht. simplify_eq. symmetry.
      apply (Huniq c u Hv). congruence.
    + rewrite Hoth in Ht by done. rewrite Hs' in Hv. simplify_eq.
      apply (Huniq b t Ht). congruence.
    + rewrite Hoth in Ht, Hv by done. by apply (Hu b c t u).
Qed.

Lemma lives_elem st id a : h_sessions st !! id = Some a → a ∈ lives st.
Proof.
  intros H. unfold lives. apply list_elem_of_fmap. exists (id, a). split; [done|].
  by apply elem_of_map_to_list.
Qed.

Lemma J_live_alloc st id a : J st → h_sessions st !! id = Some a → is_Some (v_heap (h_vms st) !! a).
Proof.
  intros HJ Hid. apply (j_alloc st HJ). rewrite (j_part st HJ). apply lives_elem in Hid. set_solver.
Qed.

(** The id a VM is registered under is not in use. *)
Lemma insert_free st i old a uuid warm :
  J st → h_threads st !! i = Some old → held old = Some a → newID (h_vms st) uuid →
  h_sessions st !! sid (ensureID uuid warm a (h_vms st)) a = None ∧ a ∉ h_inserted st.
Proof.
  intros HJ Hi Hh Hnew. pose proof HJ as [Hn Ha Hp Hm Hu Htb].
  destruct (threads_set _ _ _ Hi) as (H & P & HH & _ & _). rewrite Hh in HH. simpl in HH.
  assert (is_Some (v_heap (h_vms st) !! a)) as Hal by (apply Ha; unfold holds; rewrite HH; set_solver).
  destruct (ensureID_spec uuid warm a _ Hal Hu Hnew) as (_ & _ & _ & _ & Huniq & _).
  assert (a ∉ h_inserted st) as Hnew'.
  { unfold holds in Hn. rewrite HH in Hn. apply NoDup_cons in Hn as [Hni _]. set_solver. }
  split; [|done]. set (v' := ensureID uuid warm a (h_vms st)) in *.
  destruct (h_sessions st !! sid v' a) as [b|] eqn:E; [|done]. destruct (Hm _ b E) as [Hb _].
  rewrite (Huniq b (J_live_alloc st _ b HJ E) Hb) in E.
  destruct Hnew'. rewrite Hp. apply lives_elem in E. set_solver.
Qed.

Lemma J_insert st i old a uuid warm :
  J st → h_threads st !! i = Some old → held old = Some a → pending old = None →
  newID (h_vms st) uuid →
  J (insertLive uuid warm a (setPC i PRet st)).
Proof.
  intros HJ Hi Hh Hpd Hnew. pose proof HJ as [Hn Ha Hp Hm Hu Htb].
  destruct (threads_set _ _ _ Hi) as (H & P & HH & HP & Hset). rewrite Hh in HH. rewrite Hpd in HP.
  destruct (Hset PRet) as [HH' HP']. simpl in HH, HP, HH', HP'.
  assert (is_Some (v_heap (h_vms st) !! a)) as Hal by (apply Ha; unfold holds; rewrite HH; set_solver).
  destruct (ensureID_spec uuid warm a _ Hal Hu Hnew) as (Hoth & Hal' & Hnid & Hkeep & Huniq & Hu').
  destruct (insert_free st i old a uuid warm HJ Hi Hh Hnew) as [Hfree _].
  unfold insertLive, spawn. cbn [h_vms setPC]. set (v' := ensureID uuid warm a (h_vms st)) in *.
  split; unfold holds, lives, pends, setPC in *; simpl.
  - rewrite omap_app, HH'. simpl. rewrite HH in Hn. revert Hn.
    apply NoDup_Permutation_proper. simpl. solve_Permutation.
  - intros b. rewrite omap_app, HH'. simpl. intros Hb.
    destruct (decide (b = a)) as [->|Hba]; [done|]. rewrite Hoth by done. apply Ha.
    rewrite HH. set_solver.
  - rewrite omap_app, HP', map_to_list_insert by done. simpl. by rewrite Hp, HP, app_nil_r.
  - intros id b [[<- <-]|[Hidne Hb]]%lookup_insert_Some; [done|].
    destruct (Hm id b Hb) as [Hb1 Hb2]. split; [|done].
    destruct (decide (b = a)) as [->|Hba]; [rewrite Hkeep; congruence|].
    unfold sid. rewrite Hoth by done. exact Hb1.
  - exact Hu'.
  - intros id b Hb Hne. destruct (Htb id b Hb Hne) as [Hb1 Hb2].
    destruct (decide (b = a)) as [->|Hba]; [split; [rewrite Hkeep; congruence|done]|].
    unfold sid. rewrite Hoth by done. split; [exact Hb1|rewrite <- (Hoth b Hba) in Hb2; exact Hb2].
Qed.

(** A VM enters the heap in the hands of the thread that launched it. *)
Lemma J_launch st i old pc s a v :
  J st → h_threads st !! i = Some old → held old = None → pending old = None →
  held pc = Some a → pending pc = None →
  s_ID s = "" ∨ newID (h_vms st) (s_ID s) → vmAdd s (h_vms st) = (a, v) →
  J (setPC i pc (setVMs v st)).
Proof.
  intros [Hn Ha Hp Hm Hu Htb] Hi Ho1 Ho2 Hp1 Hp2 Hid Hv.
  destruct (threads_set _ _ _ Hi) as (H & P & HH & HP & Hset). rewrite Ho1 in HH. rewrite Ho2 in HP.
  destruct (Hset pc) as [HH' HP']. rewrite Hp1 in HH'. rewrite Hp2 in HP'.
  unfold vmAdd in Hv. injection Hv as Hav Hvv.
  assert (v_heap (h_vms st) !! a = None) as Hfr.
  { apply not_elem_of_dom. rewrite <- Hav. apply is_fresh. }
  assert (v_heap v = <[a := s]> (v_heap (h_vms st))) as Hheap by (by rewrite <- Hvv, <- Hav).
  assert (∀ b, is_Some (v_heap (h_vms st) !! b) → b ≠ a) as Hba by (intros b [? ?]; congruence).
  split; unfold holds, lives, pends, setPC, setVMs in *; simpl in *.
  - rewrite HH'. simpl. apply NoDup_cons. split; [|by rewrite <- HH].
    rewrite <- HH. intros Hin%Ha%Hba. done.
  - intros b. rewrite HH', Hheap. simpl. intros [->|Hb]%elem_of_cons.
    + rewrite lookup_insert_eq. eauto.
    + rewrite <- HH in Hb. pose proof (Ha b Hb) as Hb'. rewrite lookup_insert_ne; [done|].
      symmetry. by apply Hba.
  - by rewrite Hp, HP, HP'.
  - intros id b Hb. destruct (Hm id b Hb) as [Hb1 Hb2]. split; [|done].
    unfold sid in *. rewrite Hheap. destruct (v_heap (h_vms st) !! b) eqn:Eb; [|by subst].
    rewrite lookup_insert_ne; [by rewrite Eb|]. symmetry. apply Hba. eauto.
  - intros b c t u. rewrite Hheap.
    intros [[<- <-]|[? Ht]]%lookup_insert_Some [[<- <-]|[? Hc]]%lookup_insert_Some Heq Hne.
    + done.
    + destruct Hid as [?|[_ Hnew]]; [done|]. by destruct (Hnew c u Hc).
    + destruct Hid as [?|[_ Hnew]]; [congruence|]. by destruct (Hnew b t Ht).
    + by apply (Hu b c t u).
  - intros id b Hb Hne. rewrite Hheap.
    assert (id = s_ID s ∧ b = a ∨ v_table (h_vms st) !! id = Some b) as [[-> ->]|Hold].
    { rewrite <- Hvv in Hb. simpl in Hb. destruct (s_mgr s); [|by right].
      apply lookup_insert_Some in Hb as [[? ?]|[_ ?]]; [left; split; congruence|by right]. }
    + unfold sid. rewrite Hheap, lookup_insert_eq. eauto.
    + destruct (Htb id b Hold Hne) as [Hb1 Hb2]. unfold sid in *.
      rewrite Hheap, lookup_insert_ne by (symmetry; by apply Hba). done.
Qed.

(** A step that changes one thread and moves VMs between the lists. *)
Lemma J_thread st st1 i old pc :
  J st → h_threads st !! i = Some old → h_threads st1 = h_threads st →
  sameIDs (h_vms st) (h_vms st1) → h_sessions st1 ⊆ h_sessions st →
  optl (held pc) ++ h_ready st1 ++ h_dropped st1 ++ h_inserted st1 ≡ₚ
    optl (held old) ++ h_ready st ++ h_dropped st ++ h_inserted st →
  h_inserted st1 = h_inserted st →
  lives st1 ++ optl (pending pc) ++ h_gone st1 ≡ₚ lives st ++ optl (pending old) ++ h_gone st →
  J (setPC i pc st1).
Proof.
  intros HJ Hi Ht Hs Hsub Hplaces Hins Hpart.
  destruct (threads_set _ _ _ Hi) as (H & P & HH & HP & Hset). destruct (Hset pc) as [HH' HP'].
  apply (J_move st); [done|done| | |done]; unfold holds, pends, lives, setPC in *; simpl;
    rewrite Ht, ?Hins in *.
  - rewrite HH, HH'.
    trans (H ++ optl (held pc) ++ h_ready st1 ++ h_dropped st1 ++ h_inserted st);
      [solve_Permutation|]. rewrite Hplaces. solve_Permutation.
  - intros Hp. rewrite Hp, HP, HP'. symmetry.
    trans (P ++ (map_to_list (h_sessions st1)).*2 ++ optl (pending pc) ++ h_gone st1);
      [solve_Permutation|]. rewrite Hpart. solve_Permutation.
Qed.

Lemma J_spawn st pc : J st → held pc = None → pending pc = None → J (spawn pc st).
Proof.
  intros HJ Hh Hp. apply (J_move st); [done|done| | |done]; unfold holds, pends, spawn; simpl;
    rewrite omap_app; simpl; rewrite ?Hh, ?Hp, app_nil_r; done.
Qed.

Lemma J_vms st v : J st → sameIDs (h_vms st) v → J (setVMs v st).
Proof. intros HJ Hv. by apply (J_move st). Qed.

Lemma sameIDs_refl v : sameIDs v v.
Proof. done. Qed.

Lemma takeLive_lives st id a : h_sessions st !! id = Some a →
  lives st ≡ₚ a :: lives (takeLive id st).2.
Proof. apply lives_take. Qed.

Lemma J_step st st' : J st → hstep st st' → J st'.
Proof.
  intros HJ Hstep. destruct Hstep as
    [st pc Hpc|st i Hi|st i s pc a v Hi Hid Hop Hv|st i Hi|st i a uuid Hi Hnew|st i Hi
    |st i o Hi|st i a uuid Hi Hnew|st i id Hi|st i a Hi|st i a Hi|st i a Hi|st i a Hi Hdone|st id
    |st|st i n Hi|st i Hi Hn|st i Hi|st i Hi|st i a Hi].
  - apply J_spawn; [done|..]; by destruct Hpc as [->|[->|[id ->]]].
  - apply (J_thread st st i PCheck); try done; by destruct (full st).
  - destruct Hi as [[Hi ->]|[Hi ->]]; by eapply J_launch.
  - destruct Hi as [Hi|Hi]; by apply (J_thread st st i _ PRet HJ Hi).
  - by eapply J_insert.
  - unfold popReady. destruct (h_ready st) as [|a l] eqn:Er.
    + by apply (J_thread st st i PPop).
    + apply (J_thread st _ i PPop); try done. simpl. by rewrite Er.
  - apply (J_thread st _ i (PPoke o)); by destruct o.
  - unfold warmInsert. destruct (full _); [|by eapply J_insert].
    change (J (setPC i PRet (dropVM a st))). apply (J_thread st _ i (PWarm a)); try done.
    simpl. solve_Permutation.
  - unfold takeLive. destruct (h_sessions st !! id) as [a|] eqn:Eid.
    + apply (J_thread st _ i (PTake id)); try done; [by apply delete_subseteq|].
      simpl. rewrite (lives_take st id a Eid). unfold lives. simpl. solve_Permutation.
    + apply (J_thread st _ i (PTake id)); try done; unfold lives; simpl;
        by rewrite delete_id.
  - apply (J_thread st _ i (PMgr a)); try done; unfold teardown;
      destruct (v_heap (h_vms st) !! a) as [s|]; try done; destruct (s_mgr s); try done.
    apply sameIDs_destroy.
  - apply (J_thread st _ i (PClose a)); try done. apply sameIDs_close.
  - apply (J_thread st _ i (PGone a)); try done. simpl. unfold lives. simpl. solve_Permutation.
  - unfold takeWatched. case_bool_decide as Hw.
    + apply (J_thread st _ i (PWatch a)); try done; [by apply delete_subseteq|].
      simpl. rewrite (lives_take st _ a Hw). unfold lives. simpl. solve_Permutation.
    + by apply (J_thread st st i (PWatch a)).
  - apply J_vms; [done|]. apply sameIDs_destroy.
  - by repeat apply J_spawn.
  - by apply (J_thread st _ i (PSeed (S n))).
  - by apply (J_thread st _ i PLoop).
  - assert (J (setPC i PLoop st)) by (by apply (J_thread st st i PHave)).
    unfold poolRound. case_match; [done|by apply J_spawn].
  - by apply (J_thread st st i PLoop).
  - change (J (setPC i PRet (pushReady a st))). apply (J_thread st _ i (PPool a)); try done.
    simpl. solve_Permutation.
Qed.

Lemma J_reachable st : reachable st → J st.
Proof.
  induction 1 as [|st st' _ IH Hst]; [|by eapply J_step].
  split; simpl; try done; try set_solver.
  apply NoDup_nil_2.
Qed.

(** *** The scheduler only takes steps *)

Lemma newIDb_sound v id : newIDb v id = true → newID v id.
Proof.
  unfold newIDb. intros [?%negb_true_iff%bool_decide_eq_false ?%bool_decide_eq_true]%andb_true_iff.
  by split.
Qed.

Lemma exec1_sound act st st' : exec1 act st = Some st' → hstep st st'.
Proof.
  destruct act as [pc|i|i s|i|i uuid|id|]; cbn [exec1]; intros Hx.
  - destruct pc; simpl in Hx; simplify_eq; apply h_request; eauto.
  - destruct (h_threads st !! i) as [pc|] eqn:Hi; [|done]. destruct pc; simpl in Hx; simplify_eq;
      try by constructor.
    + case_match; simplify_eq. by constructor.
    + case_match; simplify_eq. by eapply h_seed.
    + destruct (0 <? h_replenish st)%nat eqn:E; simplify_eq. apply Nat.ltb_lt in E. by apply h_loop.
  - destruct (_ && _) eqn:Hc; [|done]. apply andb_true_iff in Hc as [Hid Hop].
    unfold openedb in Hop.
    apply andb_true_iff in Hop as [Hop1%bool_decide_eq_true Hop2%negb_true_iff].
    destruct (vmAdd s (h_vms st)) as [a v] eqn:Hv.
    assert (s_ID s = "" ∨ newID (h_vms st) (s_ID s)) as Hid'.
    { apply orb_true_iff in Hid as [?%bool_decide_eq_true|?%newIDb_sound]; auto. }
    destruct (h_threads st !! i) as [[]|] eqn:Hi; simplify_eq;
      (eapply h_launch; [|done|done|done]; auto).
  - destruct (h_threads st !! i) as [[]|] eqn:Hi; simplify_eq; apply h_launch_err; auto.
  - destruct (newIDb _ uuid) eqn:Hn; [|done]. apply newIDb_sound in Hn.
    destruct (h_threads st !! i) as [[]|] eqn:Hi; simplify_eq; by constructor.
  - simplify_eq. constructor.
  - simplify_eq. constructor.
Qed.

Lemma exec_reachable acts : ∀ st st', reachable st → exec acts st = Some st' → reachable st'.
Proof.
  induction acts as [|act acts IH]; intros st st' Hr Hx; simpl in Hx; simplify_eq; [done|].
  destruct (exec1 act st) as [st1|] eqn:E; [|done].
  eapply IH; [|done]. eapply r_step; [done|]. by apply exec1_sound in E.
Qed.

(** *** Destroy and ReapIdle *)

(** The [done] channel of every session is open and its [sync.Once] unused,
    or closed and used. *)
Definition sigOK (v : VMs) : Prop :=
  map_Forall (λ _ s, (s_done s = SigOpen ∧ s_doneOnce s = false) ∨
                     (s_done s = SigClosed ∧ s_doneOnce s = true)) (v_heap v).

Lemma sigOK_alter f a v :
  (∀ s, s_done (f s) = s_done s ∧ s_doneOnce (f s) = s_doneOnce s ∨
        s_done (f s) = SigClosed ∧ s_doneOnce (f s) = true) →
  sigOK v → sigOK (mkVMs (v_table v) (alter f a (v_heap v))).
Proof.
  intros Hf Hv b s Hs. cbn [v_heap] in Hs. destruct (decide (b = a)) as [->|Hba].
  - rewrite lookup_alter_eq in Hs. destruct (v_heap v !! a) as [t|] eqn:Et; [|done].
    simpl in Hs. simplify_eq. destruct (Hf t) as [[-> ->]|?]; [by apply (Hv a t)|by right].
  - rewrite lookup_alter_ne in Hs by done. by apply (Hv b s).
Qed.

Lemma closed_sig s :
  s_done (closed s) = s_done s ∧ s_doneOnce (closed s) = s_doneOnce s ∨
  s_done (closed s) = SigClosed ∧ s_doneOnce (closed s) = true.
Proof.
  unfold closed, CloseDone. destruct (s_done s) eqn:E, (s_doneOnce s) eqn:Eo; simpl; auto.
Qed.

Lemma sigOK_destroy id v : sigOK v → sigOK (vmDestroy id v).2.
Proof.
  intros Hv. unfold vmDestroy. destruct (v_table v !! id) as [a|]; [|done].
  apply (sigOK_alter closed a v closed_sig Hv).
Qed.

Lemma sig_step st st' : sigOK (h_vms st) → hstep st st' → sigOK (h_vms st').
Proof.
  intros Hv Hstep.
  assert (∀ uuid warm a, sigOK (ensureID uuid warm a (h_vms st))) as Hens
    by (intros; apply (sigOK_alter _ a); [by left|done]).
  destruct Hstep as [| |st i s pc a v _ _ Hop Hadd| | | | | | | | | | | | | | | | |]; simpl; try done.
  - injection Hadd as _ <-. apply map_Forall_insert_2; [|done]. left. by destruct Hop.
  - unfold popReady. by destruct (h_ready st).
  - unfold warmInsert. case_match; [done|apply Hens].
  - unfold takeLive. by destruct (h_sessions st !! id).
  - unfold teardown. destruct (v_heap (h_vms st) !! a) as [s|]; [|done].
    destruct (s_mgr s); [by apply sigOK_destroy|done].
  - by apply (sigOK_alter closed a _ closed_sig).
  - unfold takeWatched. by case_bool_decide.
  - by apply sigOK_destroy.
  - unfold poolRound. by case_match.
Qed.

Lemma sig_reachable st : reachable st → sigOK (h_vms st).
Proof. induction 1; [by apply map_Forall_empty|by eapply sig_step]. Qed.

Lemma closed_closed s : closed (closed s) = closed s.
Proof.
  unfold closed, CloseDone.
  destruct s as [? ? ? ? ? ? ? ? ? ? ? ? ? ? ? ? [] [] ? ? ? ? ?]; reflexivity.
Qed.

(** Tearing down a live VM touches its own record only. *)
Lemma teardown_heap st id a :
  J st → h_sessions st !! id = Some a →
  let v := h_vms (teardown a st) in
  alter closed a (v_heap v) = alter closed a (v_heap (h_vms st)) ∧ sameIDs (h_vms st) v.
Proof.
  intros HJ Hid. destruct (j_map st HJ id a Hid) as [Hsid Hne]. unfold teardown.
  destruct (v_heap (h_vms st) !! a) as [s|] eqn:Hs; [|done].
  destruct (s_mgr s); [|done]. split; [|apply sameIDs_destroy]. simpl. unfold vmDestroy.
  unfold sid in Hsid. rewrite Hs in Hsid. rewrite Hsid.
  destruct (v_table (h_vms st) !! id) as [b|] eqn:Et; [|done]. simpl.
  destruct (j_table st HJ id b Et Hne) as [Hb [t Ht]]. unfold sid in Hb. rewrite Ht in Hb.
  assert (b = a) as -> by (apply (j_ids st HJ b a t s); congruence).
  apply map_eq. intros c. destruct (decide (c = a)) as [->|Hc].
  - rewrite !lookup_alter_eq. destruct (v_heap (h_vms st) !! a); simpl; [|done].
    by rewrite closed_closed.
  - by rewrite !lookup_alter_ne.
Qed.

Lemma HostDestroy_eq st id a : h_sessions st !! id = Some a →
  (HostDestroy id st).2 =
  callGone a (setVMs (vmClose a (h_vms (teardown a (takeLive id st).2))) (teardown a (takeLive id st).2)).
Proof. intros Hid. unfold HostDestroy, takeLive. by rewrite Hid. Qed.

Lemma HostDestroy_spec st id a :
  J st → sigOK (h_vms st) → h_sessions st !! id = Some a →
  let st' := (HostDestroy id st).2 in
  J st' ∧ sigOK (h_vms st') ∧ h_sessions st' = delete id (h_sessions st) ∧
  h_gone st' = h_gone st ++ [a] ∧ isDone a st' = true ∧
  (∀ b, b ≠ a → v_heap (h_vms st') !! b = v_heap (h_vms st) !! b).
Proof.
  intros HJ Hsig Hid.
  destruct (teardown_heap st id a HJ Hid) as [Hheap Hsame].
  assert (h_vms (teardown a (takeLive id st).2) = h_vms (teardown a st)) as Htd.
  { unfold teardown. simpl. destruct (v_heap (h_vms st) !! a) as [s|]; [|done]. by destruct (s_mgr s). }
  assert (∀ st0, h_sessions (teardown a st0) = h_sessions st0 ∧ h_gone (teardown a st0) = h_gone st0
    ∧ h_threads (teardown a st0) = h_threads st0 ∧ h_ready (teardown a st0) = h_ready st0
    ∧ h_dropped (teardown a st0) = h_dropped st0 ∧ h_inserted (teardown a st0) = h_inserted st0) as Hfr.
  { intros st0. unfold teardown. destruct (v_heap (h_vms st0) !! a) as [s|]; [|done].
    by destruct (s_mgr s). }
  destruct (Hfr (takeLive id st).2) as (Hf1 & Hf2 & Hf3 & Hf4 & Hf5 & Hf6).
  rewrite (HostDestroy_eq st id a Hid). destruct (J_live_alloc st id a HJ Hid) as [s Hs].
  set (t := teardown a (takeLive id st).2) in *. cbn [takeLive snd h_sessions h_gone h_threads
    h_ready h_dropped h_inserted] in Hf1, Hf2, Hf3, Hf4, Hf5, Hf6. clearbody t.
  set (st' := callGone a _). cbv zeta. split_and!.
  - apply (J_move st); unfold holds, pends, lives, st'; simpl; rewrite ?Hf1, ?Hf2, ?Hf3, ?Hf4, ?Hf5, ?Hf6;
      simpl; try done; rewrite ?Htd.
    + destruct (sameIDs_close a (h_vms (teardown a st))) as [H1 H2]. destruct Hsame as [H3 H4].
      split; [intros b; etrans; [apply (H1 b)|apply H3]|by etrans].
    + intros ->. unfold lives. rewrite (lives_take st id a Hid). solve_Permutation.
    + apply delete_subseteq.
  - unfold st'. simpl. rewrite Htd. intros b x Hx. simpl in Hx. rewrite Hheap in Hx.
    by apply (sigOK_alter closed a _ closed_sig Hsig b x).
  - unfold st'. simpl. by rewrite Hf1.
  - unfold st'. simpl. by rewrite Hf2.
  - unfold st', isDone. simpl. rewrite Htd, Hheap, lookup_alter_eq, Hs. simpl.
    apply bool_decide_eq_true. unfold closed, CloseDone.
    destruct (Hsig a s Hs) as [[-> ->]|[E1 E2]]; [done|]. rewrite E1, E2. done.
  - intros b Hb. unfold st'. simpl. by rewrite Htd, Hheap, lookup_alter_ne.
Qed.

Definition idleFor (now timeout : Z) (s : Session) : bool :=
  match IdleSince s with Some since => timeout <=? satS64 (now - since) | None => false end.

(** What the loop does to one live session. *)
Definition reapedOr (now timeout : Z) (cells : list nat) (ids : list string) (st st' : HState) : Prop :=
  ∀ id a s, h_sessions st !! id = Some a → v_heap (h_vms st) !! a = Some s →
  if bool_decide (a ∈ cells) && idleFor now timeout s
  then h_sessions st' !! id = None ∧ id ∈ ids ∧ isDone a st' = true ∧ a ∈ h_gone st'
  else h_sessions st' !! id = Some a ∧ v_heap (h_vms st') !! a = Some s.

Lemma reapLoop_spec now timeout cells : ∀ st,
  J st → sigOK (h_vms st) → NoDup cells → (∀ a, a ∈ cells → ∃ id, h_sessions st !! id = Some a) →
  let '(ids, st') := reapLoop now timeout cells st in
  reapedOr now timeout cells ids st st' ∧ h_gone st ⊆ h_gone st' ∧
  (∀ id, h_sessions st !! id = None → h_sessions st' !! id = None) ∧
  (∀ b, b ∉ cells → v_heap (h_vms st') !! b = v_heap (h_vms st) !! b).
Proof.
  induction cells as [|a cells IH]; intros st HJ Hsig Hnd Hlive; cbn [reapLoop].
  - split_and!; try done.
  - apply NoDup_cons in Hnd as [Hni Hnd].
    destruct (Hlive a) as [id0 Hid0]; [set_solver|].
    destruct (J_live_alloc st id0 a HJ Hid0) as [s Hs].
    destruct (j_map st HJ id0 a Hid0) as [Hsid Hne0]. rewrite Hs.
    unfold sid in Hsid. rewrite Hs in Hsid.
    assert (idleFor now timeout s = false → let '(ids, st') := reapLoop now timeout cells st in
      reapedOr now timeout (a :: cells) ids st st' ∧ h_gone st ⊆ h_gone st' ∧
      (∀ id, h_sessions st !! id = None → h_sessions st' !! id = None) ∧
      (∀ b, b ∉ a :: cells → v_heap (h_vms st') !! b = v_heap (h_vms st) !! b)) as Hskip.
    { intros Hidle. specialize (IH st HJ Hsig Hnd (λ b Hb, Hlive b (list_elem_of_further b a cells Hb))).
      destruct (reapLoop now timeout cells st) as [ids st']. destruct IH as (Hr & ? & ? & Hb).
      split_and!; [|done|done|intros b Hb'; apply Hb; set_solver].
      intros id b t Hid Ht. specialize (Hr id b t Hid Ht).
      destruct (decide (b = a)) as [->|Hba].
      - assert (t = s) as -> by congruence. rewrite Hidle, andb_false_r in *. done.
      - rewrite (bool_decide_ext (b ∈ a :: cells) (b ∈ cells)) by set_solver. done. }
    unfold idleFor in Hskip. destruct (IdleSince s) as [since|] eqn:Ei; [|by apply Hskip].
    destruct (Z.ltb_spec (satS64 (now - since)) timeout) as [Hlt|Hge]; [apply Hskip; lia|].
    clear Hskip. rewrite Hsid.
    destruct (HostDestroy_spec st id0 a HJ Hsig Hid0) as (HJ1 & Hsig1 & Hs1 & Hg1 & Hd1 & Hh1).
    destruct (HostDestroy id0 st) as [r st1]. cbn [snd] in *.
    assert (∀ b, b ∈ cells → ∃ id, h_sessions st1 !! id = Some b) as Hlive1.
    { intros b Hb. destruct (Hlive b) as [id Hid]; [set_solver|]. exists id. rewrite Hs1.
      rewrite lookup_delete_ne; [done|]. intros <-. simplify_eq. }
    specialize (IH st1 HJ1 Hsig1 Hnd Hlive1). destruct (reapLoop now timeout cells st1) as [ids st'].
    destruct IH as (Hr & Hg & Hn & Hb). split_and!.
    + intros id b t Hid Ht. destruct (decide (b = a)) as [->|Hba].
      * assert (t = s) as -> by congruence. assert (id = id0) as ->.
        { destruct (j_map st HJ id a Hid) as [Hx _]. unfold sid in Hx. rewrite Hs in Hx. congruence. }
        rewrite bool_decide_true by set_solver. unfold idleFor. rewrite Ei.
        destruct (Z.leb_spec timeout (satS64 (now - since))); [|lia]. simpl. split_and!.
        -- apply Hn. rewrite Hs1. apply lookup_delete_eq.
        -- set_solver.
        -- unfold isDone in *. by rewrite Hb.
        -- apply Hg. rewrite Hg1. set_solver.
      * assert (id ≠ id0) as Hidne by (intros ->; congruence).
        specialize (Hr id b t). rewrite Hs1, lookup_delete_ne, Hh1 in Hr by done.
        specialize (Hr Hid Ht).
        rewrite (bool_decide_ext (b ∈ a :: cells) (b ∈ cells)) by set_solver.
        destruct (bool_decide (b ∈ cells) && idleFor now timeout t); [|done].
        destruct Hr as (?&?&?&?). split_and!; [done|set_solver|done|done].
    + rewrite Hg1 in Hg. set_solver.
    + intros id Hid. apply Hn. rewrite Hs1. apply lookup_delete_None. by right.
    + intros b Hb'. rewrite Hb by set_solver. apply Hh1. set_solver.
Qed.

End Host.

(** ** Properties *)

(** C5: [onGone] is called exactly once for every session that leaves the
    live map, whatever the interleaving of creations, destructions, idle
    reaping, pool hand-outs and VMs that exit on their own: the calls never
    repeat, and the sessions that ever entered the map are, without
    duplicates, the live ones, those a goroutine is about to report, and
    those already reported. *)
Theorem gone_exactly_once (maxLive target : Z) (st : HState) :
  reachable maxLive target st →
  NoDup (h_gone st) ∧ NoDup (h_inserted st) ∧
  h_inserted st ≡ₚ lives st ++ pends st ++ h_gone st ∧
  (∀ a, a ∈ h_inserted st → pends st = [] →
     (∃ id, h_sessions st !! id = Some a) ∨ a ∈ h_gone st).
Proof.
  intros HJ%J_reachable. pose proof (j_part st HJ) as Hp.
  pose proof (j_nodup st HJ) as Hn. rewrite !NoDup_app in Hn.
  assert (NoDup (h_inserted st)) as Hi by naive_solver. split_and!; [|done|done|].
  - rewrite Hp, !NoDup_app in Hi. naive_solver.
  - intros a Ha Hpe. rewrite Hp, Hpe in Ha. apply elem_of_app in Ha as [Ha|Ha]; [|by right].
    left. unfold lives in Ha. apply list_elem_of_fmap in Ha as ([id b] & -> & Hm).
    apply elem_of_map_to_list in Hm. eauto.
Qed.

(** The idle reaper, run on any reachable state, destroys exactly the
    sessions that have had no terminal client for at least the timeout: each
    of them leaves the live map, has its [done] channel closed and is
    reported, and every other session is left as it is; with a timeout of
    zero or less it does nothing. *)
Theorem reaper_exact (maxLive target now timeout : Z) (st : HState) (cells : list nat) :
  reachable maxLive target st → cells ≡ₚ lives st →
  let '(ids, st') := ReapIdle now timeout cells st in
  if timeout <=? 0 then ids = [] ∧ st' = st
  else ∀ id a s, h_sessions st !! id = Some a → v_heap (h_vms st) !! a = Some s →
    if idleFor now timeout s
    then h_sessions st' !! id = None ∧ id ∈ ids ∧ isDone a st' = true ∧ a ∈ h_gone st'
    else h_sessions st' !! id = Some a ∧ v_heap (h_vms st') !! a = Some s.
Proof.
  intros Hr Hc. unfold ReapIdle. destruct (timeout <=? 0); [done|].
  pose proof (J_reachable _ _ st Hr) as HJ.
  pose proof (reapLoop_spec now timeout cells st HJ (sig_reachable _ _ st Hr)) as Hspec.
  destruct (reapLoop now timeout cells st) as [ids st'].
  destruct Hspec as (Hre & _).
  - rewrite Hc. pose proof (j_nodup st HJ) as Hn. rewrite (j_part st HJ), !NoDup_app in Hn. naive_solver.
  - intros a. rewrite Hc. unfold lives. intros ([id b] & -> & Hm)%list_elem_of_fmap.
    apply elem_of_map_to_list in Hm. eauto.
  - intros id a s Hid Hs. specialize (Hre id a s Hid Hs).
    rewrite bool_decide_true in Hre; [done|]. rewrite Hc. by eapply lives_elem.
Qed.

(** ** Concrete interleavings *)

(** A session as the manager launches it. *)
Definition demoVM (id : string) : Session :=
  mkSession id AInvalid "" "" "" "" "" (Some 1) "" true false 0 0 SigOpen false true SigOpen
    false None 0 0 0 zeroTime.

Definition ranTo (maxLive target : Z) (acts : list Act) (P : HState → bool) : bool :=
  match exec maxLive target acts hostStart with Some st => P st | None => false end.

Lemma ranTo_reachable maxLive target acts P :
  ranTo maxLive target acts P = true → ∃ st, reachable maxLive target st ∧ P st = true.
Proof.
  unfold ranTo. destruct (exec _ _ _ _) as [st|] eqn:E; [|done]. intros HP. exists st.
  split; [|done]. eapply exec_reachable; [constructor|exact E].
Qed.

Definition twoCreates : list Act :=
  [ARequest PCheck; ARequest PCheck; ARun 0; ARun 1; ALaunch 0 (demoVM "a"); ALaunch 1 (demoVM "b");
   AInsert 0 "u0"; AInsert 1 "u1"].

(** The capacity is checked and the session registered under separate
    locks, with the boot in between: two requests that arrive together both
    pass the check of a host that admits one session, and both VMs end up
    live. *)
Theorem capacity_check_races :
  ∃ st, reachable 1 2 st ∧ size (h_sessions st) = 2%nat.
Proof.
  destruct (ranTo_reachable 1 2 twoCreates (λ st, bool_decide (size (h_sessions st) = 2%nat)))
    as (st & Hr & Hs%bool_decide_eq_true); [vm_compute; reflexivity|eauto].
Qed.

(** The pool of target one starts, and its VM boots and waits. *)
Definition warmedUp : list Act :=
  [AStart; ARun 1; ARun 0; ARun 0; ALaunch 2 (demoVM "w"); ARun 2].

(** Meanwhile a cold VM fills the host. *)
Definition warmAndCold : list Act :=
  warmedUp ++ [ARequest PCheck; ARun 3; ALaunch 3 (demoVM "a"); AInsert 3 "u0"].
Definition warmAtCapacity : list Act :=
  warmAndCold ++ [ARequest PPop; ARun 5; ARun 5; AInsert 5 "u1"].

(** [CreateWarm] takes the VM out of the pool before it checks the
    capacity, and at capacity only returns an error: the VM is then in no
    map, no pool and no goroutine, was never reported gone, and still runs
    in the manager's table. *)
Theorem warm_at_capacity_leaks :
  ∃ st a id, reachable 1 1 st ∧ v_table (h_vms st) !! id = Some a ∧ isDone a st = false ∧
    a ∉ lives st ∧ a ∉ h_ready st ∧ a ∉ holds st ∧ a ∉ pends st ∧ a ∉ h_gone st.
Proof.
  destruct (ranTo_reachable 1 1 warmAtCapacity (λ st,
    bool_decide (v_table (h_vms st) !! "w" = Some 0%nat) && negb (isDone 0 st) &&
    negb (bool_decide (0%nat ∈ lives st ++ h_ready st ++ holds st ++ pends st ++ h_gone st))))
    as (st & Hr & Hs); [vm_compute; reflexivity|].
  apply andb_true_iff in Hs as [[Ht%bool_decide_eq_true Hd%negb_true_iff]%andb_true_iff
    Hn%negb_true_iff%bool_decide_eq_false].
  exists st, 0%nat, "w". rewrite !elem_of_app in Hn. split_and!; [done..| | | | |]; tauto.
Qed.

(** The gauge that is published as the number of VMs running does not see
    the warm pool: it reads zero while a VM runs. *)
Theorem gauge_misses_warm_pool :
  ∃ st, reachable 1 1 st ∧ liveGauge st = 0 ∧ WarmPoolSize true st = 1 ∧ v_table (h_vms st) !! "w" = Some 0%nat.
Proof.
  destruct (ranTo_reachable 1 1 warmedUp (λ st,
    (liveGauge st =? 0) && (WarmPoolSize true st =? 1) && bool_decide (v_table (h_vms st) !! "w" = Some 0%nat)))
    as (st & Hr & [[H1%Z.eqb_eq H2%Z.eqb_eq]%andb_true_iff H3%bool_decide_eq_true]%andb_true_iff); [vm_compute; reflexivity|].
  eauto.
Qed.

Definition missWhileBuilding : list Act :=
  [AStart; ARun 1; ARun 0; ARun 0; ARequest PPop; ARun 3; ARun 3; ARun 0; ARun 0;
   ALaunch 2 (demoVM "w1"); ALaunch 4 (demoVM "w2"); ARun 2; ARun 4].

(** The pool's loop compares the target with the VMs that are ready and
    not with those being built, so a request that misses while the first VM
    of a pool of target one is booting leaves two warm VMs running. *)
Theorem pool_overshoots_target :
  ∃ st, reachable 1 1 st ∧ length (h_ready st) = 2%nat.
Proof.
  destruct (ranTo_reachable 1 1 missWhileBuilding (λ st, bool_decide (length (h_ready st) = 2%nat)))
    as (st & Hr & Hs%bool_decide_eq_true); [vm_compute; reflexivity|eauto].
Qed.

Definition warmDies : list Act :=
  warmedUp ++ [AExit "w"; ARequest PPop; ARun 3; ARun 3; AInsert 3 "u"].

(** A VM that exits while it waits in the pool is handed out all the
    same: a client is given a live session whose VM is already gone. *)
Theorem pool_serves_dead_vm :
  ∃ st a id, reachable 1 1 st ∧ h_sessions st !! id = Some a ∧ isDone a st = true ∧
    v_table (h_vms st) !! id = None.
Proof.
  destruct (ranTo_reachable 1 1 warmDies (λ st,
    bool_decide (h_sessions st !! "w" = Some 0%nat) && isDone 0 st &&
    bool_decide (v_table (h_vms st) !! "w" = None)))
    as (st & Hr & Hs); [vm_compute; reflexivity|].
  apply andb_true_iff in Hs as [[Ht%bool_decide_eq_true Hd]%andb_true_iff Hn%bool_decide_eq_true].
  exists st, 0%nat, "w". done.
Qed.

(** The daemon's last act is to destroy every session the host lists;
    the VMs waiting in the warm pool are not among them and are still in the
    manager's table, running, when it exits. *)
Theorem shutdown_spares_warm_pool :
  ∃ st a id, reachable 3 1 st ∧ h_ready st = [a] ∧
    let st' := shutdownHost (map_to_list (h_sessions st)).*1 st in
    h_sessions st' = ∅ ∧ v_table (h_vms st') !! id = Some a ∧ isDone a st' = false.
Proof.
  destruct (ranTo_reachable 3 1 warmAndCold (λ st,
    let st' := shutdownHost (map_to_list (h_sessions st)).*1 st in
    bool_decide (h_ready st = [0%nat]) && bool_decide (h_sessions st' = ∅) &&
    bool_decide (v_table (h_vms st') !! "w" = Some 0%nat) && negb (isDone 0 st')))
    as (st & Hr & Hs); [vm_compute; reflexivity|].
  apply andb_true_iff in Hs as [[[H1%bool_decide_eq_true H2%bool_decide_eq_true]%andb_true_iff
    H3%bool_decide_eq_true]%andb_true_iff H4%negb_true_iff].
  exists st, 0%nat, "w". done.
Qed.

(** The two creations again, then one is deleted while its VM exits. *)
Definition deleteAndExit : list Act :=
  twoCreates ++ [ARequest (PTake "a"); ARun 4; AExit "a"; ARun 2; ARun 4; ARun 4; ARun 4].

Definition demoState : HState :=
  match exec 3 2 deleteAndExit hostStart with Some st => st | None => hostStart end.

Lemma demoState_reachable : reachable 3 2 demoState.
Proof.
  apply (exec_reachable 3 2 deleteAndExit hostStart); [constructor|vm_compute; reflexivity].
Qed.

Lemma gone_exactly_once_witness : NoDup (h_gone demoState) ∧ h_gone demoState = [0%nat].
Proof.
  destruct (gone_exactly_once 3 2 demoState demoState_reachable) as (H & _).
  split; [exact H|vm_compute; reflexivity].
Defined.

Lemma reaper_exact_witness :
  (ReapIdle (400 * second) (300 * second) [1%nat] demoState).1 = ["b"] ∧
  h_sessions (ReapIdle (400 * second) (300 * second) [1%nat] demoState).2 !! "b" = None.
Proof.
  assert ([1%nat] ≡ₚ lives demoState) as Hl
    by (replace (lives demoState) with [1%nat] by (vm_compute; reflexivity); reflexivity).
  pose proof (reaper_exact 3 2 (400 * second) (300 * second) demoState [1%nat]
                demoState_reachable Hl) as H.
  split; [vm_compute; reflexivity|].
  destruct (ReapIdle (400 * second) (300 * second) [1%nat] demoState) as [ids st'].
  specialize (H "b" 1%nat (demoVM "b") ltac:(vm_compute; reflexivity) ltac:(vm_compute; reflexivity)).
  destruct H as [H _]. exact H.
Defined.
