(* ===== verification/HostLive.v ===== *)
(** What the session host eventually does: goroutines that serve a request
    return after a bounded number of their own steps and are never blocked
    by another one (host.go), and the idle reaper removes an abandoned
    session within the timeout and one tick ([RunIdleReaper]). *)
From S2P Require Import Prelude GoLib NetAlloc Session VMTable Host.
Open Scope Z_scope.

(** ** Own steps of a goroutine *)

(** How many steps a goroutine has left at most; the pool's loop, which
    serves as long as the daemon runs, is not counted. *)
Definition rank (pc : PC) : nat :=
  match pc with
  | PRet => 0
  | PGone _ | PInsert _ | PWarm _ | PPool _ => 1
  | PClose _ | PLaunch | PBuild | PWatch _ => 2
  | PMgr _ | PCheck => 3
  | PTake _ | PPoke _ => 4
  | PPop => 5
  | PSeed n => n
  | PLoop | PHave => 0
  end.

Definition isLoop (pc : PC) : bool := match pc with PLoop | PHave => true | _ => false end.

(** A goroutine serving a request: not the pool's loop, not a watcher. *)
Definition serving (pc : PC) : bool :=
  match pc with PLoop | PHave | PWatch _ | PSeed _ | PRet => false | _ => true end.

Section Live.
Variables (maxLive target : Z).
Notation hstep := (hstep maxLive target).
Notation reachable := (reachable maxLive target).
Implicit Types st : HState.

Lemma lookup_set (l : list PC) i j old pc :
  l !! i = Some old → <[i := pc]> l !! j = if decide (i = j) then Some pc else l !! j.
Proof.
  intros Hi. case_decide as Hij; [subst j|by rewrite list_lookup_insert_ne].
  apply list_lookup_insert_eq. by eapply lookup_lt_Some.
Qed.

Lemma lookup_spawn st pc j old : h_threads st !! j = Some old → h_threads (spawn pc st) !! j = Some old.
Proof. intros Hj. simpl. by apply lookup_app_l_Some. Qed.

Lemma threads_teardown a st : h_threads (teardown a st) = h_threads st.
Proof. unfold teardown. destruct (v_heap _ !! a) as [s|]; [|done]. by destruct (s_mgr s). Qed.

Lemma threads_popReady st : h_threads (popReady st).2 = h_threads st.
Proof. unfold popReady. by destruct (h_ready st). Qed.

(** One step of the host leaves every goroutine where it is, or moves it
    strictly closer to its return. *)
Definition closer (l l' : list PC) : Prop :=
  ∀ j pc, l !! j = Some pc → isLoop pc = false →
  ∃ pc', l' !! j = Some pc' ∧ isLoop pc' = false ∧
    (pc' = pc ∨ (rank pc' < rank pc)%nat ∧ (serving pc = true → serving pc' = true ∨ pc' = PRet)).

Lemma closer_refl l : closer l l.
Proof. intros j pc Hj Hl. eauto. Qed.

Lemma closer_app l l' x : closer l l' → closer l (l' ++ x).
Proof. intros Hc j pc Hj Hl. destruct (Hc j pc Hj Hl) as (pc' & ? & ?). exists pc'. split; [by apply lookup_app_l_Some|done]. Qed.

Lemma closer_set l i old pc :
  l !! i = Some old →
  isLoop old = true ∨
  isLoop pc = false ∧ (rank pc < rank old)%nat ∧ (serving old = true → serving pc = true ∨ pc = PRet) →
  closer l (<[i := pc]> l).
Proof.
  intros Hi Hlt j pcj Hj Hl. rewrite (lookup_set l i j old) by done. case_decide as Hij; [subst j|by exists pcj; auto].
  rewrite Hi in Hj. injection Hj as <-. destruct Hlt as [?|(Hl' & Hlt & Hsv)]; [congruence|]. exists pc. auto.
Qed.

Lemma step_closer st st' : hstep st st' → closer (h_threads st) (h_threads st').
Proof.
  destruct 1 as [st pc _|st i Hi|st i s pc a v Hi _ _ Hv|st i Hi|st i a uuid Hi _|st i Hi|st i o Hi|st i a uuid Hi _
    |st i id Hi|st i a Hi|st i a Hi|st i a Hi|st i a Hi _|st id|st|st i n Hi|st i Hi _|st i Hi|st i Hi|st i a Hi];
    simpl; try apply closer_refl.
  - by apply closer_app, closer_refl.
  - eapply closer_set; [done|]. right. destruct (full _ _); simpl; auto with lia.
  - destruct Hi as [[Hi ->]|[Hi ->]]; (eapply closer_set; [done|]; right; simpl; auto with lia).
  - destruct Hi as [Hi|Hi]; (eapply closer_set; [done|]; right; simpl; auto with lia).
  - apply closer_app. eapply closer_set; [done|]. right. simpl. auto with lia.
  - rewrite threads_popReady. eapply closer_set; [done|]. right. simpl. auto with lia.
  - eapply closer_set; [done|]. right. destruct o; simpl; auto with lia.
  - unfold warmInsert. assert (closer (h_threads st) (<[i:=PRet]> (h_threads st))).
    { eapply closer_set; [done|]. right. simpl. auto with lia. }
    case_match; simpl; [done|by apply closer_app].
  - unfold takeLive. destruct (h_sessions st !! id); simpl; (eapply closer_set; [done|]; right; simpl; auto with lia).
  - rewrite threads_teardown. eapply closer_set; [done|]. right. simpl. auto with lia.
  - eapply closer_set; [done|]. right. simpl. auto with lia.
  - eapply closer_set; [done|]. right. simpl. auto with lia.
  - unfold takeWatched. case_bool_decide; simpl; (eapply closer_set; [done|]; right; simpl; auto with lia).
  - rewrite <- app_assoc. by apply closer_app, closer_refl.
  - eapply closer_set; [done|]. right. simpl. auto with lia.
  - eapply closer_set; [done|]. by left.
  - unfold poolRound. case_match; simpl; [|apply closer_app]; (eapply closer_set; [done|]; by left).
  - eapply closer_set; [done|]. by left.
  - eapply closer_set; [done|]. right. simpl. auto with lia.
Qed.

(** *** Runs *)

(** A run of the host, with the number of steps that moved goroutine [i]. *)
Inductive runs (i : nat) : nat → HState → HState → Prop :=
| run_nil st : runs i 0 st st
| run_step n st st1 st2 : hstep st st1 → runs i n st1 st2 →
    runs i (if decide (h_threads st1 !! i = h_threads st !! i) then n else S n) st st2.

Lemma runs_rank i n st st' : runs i n st st' → ∀ pc, h_threads st !! i = Some pc → isLoop pc = false →
  ∃ pc', h_threads st' !! i = Some pc' ∧ (n + rank pc' ≤ rank pc)%nat.
Proof.
  induction 1 as [st|n st st1 st2 Hs _ IH]; intros pc Hi Hl; [exists pc; auto with lia|].
  destruct (step_closer st st1 Hs i pc Hi Hl) as (pc1 & Hi1 & Hl1 & Hr).
  destruct (IH pc1 Hi1 Hl1) as (pc2 & Hi2 & Hle). exists pc2. split; [done|].
  rewrite Hi, Hi1. destruct Hr as [->|[Hr _]]; [by rewrite decide_True|].
  rewrite decide_False; [lia|]. intros [= ->]. lia.
Qed.

Lemma runs_serving i n st st' : runs i n st st' → ∀ pc, h_threads st !! i = Some pc →
  serving pc = true ∨ pc = PRet →
  ∃ pc', h_threads st' !! i = Some pc' ∧ (serving pc' = true ∨ pc' = PRet).
Proof.
  induction 1 as [st|n st st1 st2 Hs _ IH]; intros pc Hi Hsv; [eauto|].
  assert (isLoop pc = false) as Hl by (destruct Hsv as [Hsv| ->]; [by destruct pc|done]).
  destruct (step_closer st st1 Hs i pc Hi Hl) as (pc1 & Hi1 & _ & Hr). apply (IH pc1 Hi1).
  destruct Hr as [->|[Hr Hk]]; [done|]. destruct Hsv as [Hsv| ->]; [by apply Hk|simpl in Hr; lia].
Qed.

(** An unused id exists, as a UUID does. *)
Lemma newID_exists (v : VMs) : ∃ id, newID v id.
Proof.
  set (X := list_to_set ("" :: (s_ID <$> (map_to_list (v_heap v)).*2)) : gset string).
  exists (fresh X). pose proof (is_fresh X) as Hf. unfold X in Hf at 2. rewrite elem_of_list_to_set in Hf.
  split; [set_solver|]. intros a s Hs Heq. apply Hf, list_elem_of_further. rewrite <- Heq.
  apply list_elem_of_fmap. exists s. split; [done|]. apply list_elem_of_fmap. exists (a, s).
  split; [done|]. by apply elem_of_map_to_list.
Qed.

(** A goroutine serving a request can always take its next step. *)
Lemma serving_moves st i pc : h_threads st !! i = Some pc → serving pc = true →
  ∃ st' pc', hstep st st' ∧ h_threads st' !! i = Some pc' ∧ (rank pc' < rank pc)%nat.
Proof.
  intros Hi Hs.
  assert (∀ (pc' : PC) (l : list PC), l !! i = Some pc → <[i := pc']> l !! i = Some pc') as Hset.
  { intros pc' l Hl. apply list_lookup_insert_eq. by eapply lookup_lt_Some. }
  destruct (newID_exists (h_vms st)) as [uuid Hnew].
  destruct pc; try discriminate.
  - eexists _, _. split; [by apply h_check|]. split; [by apply Hset|]. destruct (full _ _); simpl; lia.
  - eexists _, PRet. split; [apply h_launch_err; by left|]. split; [by apply Hset|simpl; lia].
  - eexists _, PRet. split; [by eapply h_insert|]. split; [by apply lookup_spawn, Hset|simpl; lia].
  - eexists _, (PPoke (popReady st).1). split; [by apply h_pop|]. split; [|simpl; lia].
    simpl. apply Hset. by rewrite threads_popReady.
  - eexists _, _. split; [by apply h_poke|]. split; [by apply Hset|]. destruct o; simpl; lia.
  - eexists _, PRet. split; [by eapply h_warm|]. split; [|simpl; lia]. unfold warmInsert.
    case_match; [by apply Hset|by apply lookup_spawn, Hset].
  - pose proof (h_take maxLive target st i id Hi) as Hst. unfold takeLive in Hst.
    destruct (h_sessions st !! id) as [a|]; eexists _, _; (split; [exact Hst|]);
      (split; [by apply Hset|simpl; lia]).
  - eexists _, (PClose a). split; [by apply h_mgr|]. split; [|simpl; lia]. simpl. apply Hset. by rewrite threads_teardown.
  - eexists _, _. split; [by apply h_close|]. split; [by apply Hset|simpl; lia].
  - eexists _, _. split; [by apply h_gone_call|]. split; [by apply Hset|simpl; lia].
  - eexists _, PRet. split; [apply h_launch_err; by right|]. split; [by apply Hset|simpl; lia].
  - eexists _, _. split; [by apply h_pool|]. split; [by apply Hset|simpl; lia].
Qed.
Lemma serving_returns st i pc : h_threads st !! i = Some pc → serving pc = true ∨ pc = PRet →
  ∃ n st', runs i n st st' ∧ h_threads st' !! i = Some PRet.
Proof.
  remember (rank pc) as k eqn:Hk. revert st pc Hk.
  induction (lt_wf k) as [k _ IH]. intros st pc -> Hi Hsv.
  destruct Hsv as [Hsv| ->]; [|exists 0%nat, st; split; [constructor|done]].
  destruct (serving_moves st i pc Hi Hsv) as (st1 & pc1 & Hs & Hi1 & Hr).
  assert (isLoop pc = false) as Hl by (by destruct pc).
  destruct (step_closer st st1 Hs i pc Hi Hl) as (pc2 & Hi2 & _ & Hr2).
  rewrite Hi1 in Hi2. injection Hi2 as <-. destruct Hr2 as [->|[_ Hk]]; [lia|].
  destruct (IH (rank pc1) Hr st1 pc1 eq_refl Hi1 (Hk Hsv)) as (n & st' & Hrun & Hret).
  eexists _, st'. split; [by eapply run_step|done].
Qed.

(** ** The idle reaper *)

(** *** The loop keeps the invariants *)

Lemma reapLoop_inv now timeout cells : ∀ st,
  J st → sigOK (h_vms st) →
  J (reapLoop now timeout cells st).2 ∧ sigOK (h_vms (reapLoop now timeout cells st).2).
Proof.
  induction cells as [|a cells IH]; intros st HJ Hsig; simpl; [done|].
  destruct (v_heap (h_vms st) !! a) as [s|]; [|by apply IH].
  destruct (IdleSince s) as [since|]; [|by apply IH].
  case_match; [by apply IH|]. destruct (HostDestroy (s_ID s) st) as [r st1] eqn:Hd.
  assert (J st1 ∧ sigOK (h_vms st1)) as [HJ1 Hsig1].
  { destruct (h_sessions st !! s_ID s) as [b|] eqn:Hb.
    - pose proof (HostDestroy_spec st (s_ID s) b HJ Hsig Hb) as Hspec. rewrite Hd in Hspec. by destruct Hspec as (?&?&_).
    - unfold HostDestroy, takeLive in Hd. rewrite Hb in Hd. injection Hd as <- <-.
      rewrite delete_id by done. by destruct st. }
  specialize (IH st1 HJ1 Hsig1). by destruct (reapLoop now timeout cells st1).
Qed.

(** *** What a step does to a session's record and to the live map *)

Definition idleSame (s s' : Session) : Prop := IdleSince s' = IdleSince s.

Lemma alter_idle f (m : gmap nat Session) a b s :
  (∀ t, IdleSince (f t) = IdleSince t) → m !! b = Some s →
  ∃ s', alter f a m !! b = Some s' ∧ idleSame s s'.
Proof.
  intros Hf Hb. destruct (decide (b = a)) as [->|Hne].
  - rewrite lookup_alter_eq, Hb. simpl. eexists. split; [done|apply Hf].
  - rewrite lookup_alter_ne by done. by exists s.
Qed.

Lemma closed_idle s : IdleSince (closed s) = IdleSince s.
Proof. unfold closed, CloseDone. by destruct s as [? ? ? ? ? ? ? ? ? ? ? ? ? ? ? ? [] [] ? ? ? ? ?]. Qed.

Lemma vmDestroy_idle id v b s : v_heap v !! b = Some s →
  ∃ s', v_heap (vmDestroy id v).2 !! b = Some s' ∧ idleSame s s'.
Proof.
  intros Hb. unfold vmDestroy. destruct (v_table v !! id) as [a|]; [|by exists s].
  apply alter_idle; [apply closed_idle|done].
Qed.

Lemma step_idle st st' b s : hstep st st' → v_heap (h_vms st) !! b = Some s →
  ∃ s', v_heap (h_vms st') !! b = Some s' ∧ idleSame s s'.
Proof.
  intros Hs Hb. assert (∃ s', v_heap (h_vms st) !! b = Some s' ∧ idleSame s s') as Hsame by (by exists s).
  assert (∀ uuid warm a, ∃ s', v_heap (ensureID uuid warm a (h_vms st)) !! b = Some s' ∧ idleSame s s') as Hens.
  { intros. by apply alter_idle. }
  destruct Hs as [| |st i t pc a v _ _ _ Hv| | | | | | |st i a _| | | |st id| | | | | |]; simpl; try done; try apply Hens.
  - injection Hv as <- <-. simpl. exists s. split; [|done].
    rewrite lookup_insert_ne; [done|]. intros <-. apply (is_fresh (dom (v_heap (h_vms st)))).
    apply elem_of_dom. eauto.
  - unfold popReady. by destruct (h_ready st).
  - unfold warmInsert. case_match; [done|apply Hens].
  - unfold takeLive. by destruct (h_sessions st !! id).
  - unfold teardown. destruct (v_heap (h_vms st) !! a) as [t|]; [|done].
    destruct (s_mgr t); [by apply vmDestroy_idle|done].
  - apply alter_idle; [apply closed_idle|done].
  - unfold takeWatched. by case_bool_decide.
  - by apply vmDestroy_idle.
  - unfold poolRound. by case_match.
Qed.

Lemma held_elem st i pc a : h_threads st !! i = Some pc → held pc = Some a → a ∈ holds st.
Proof. intros Hi Hh. unfold holds. apply list_elem_of_omap. exists pc. split; [by eapply list_elem_of_lookup_2|done]. Qed.

Lemma step_lives st st' id a : hstep st st' → h_sessions st' !! id = Some a →
  h_sessions st !! id = Some a ∨ a ∈ holds st.
Proof.
  intros Hs.
  assert (∀ uuid warm b i pc, h_threads st !! i = Some pc → held pc = Some b →
    <[sid (ensureID uuid warm b (h_vms st)) b := b]> (h_sessions st) !! id = Some a →
    h_sessions st !! id = Some a ∨ a ∈ holds st) as Hins.
  { intros uuid warm b i pc Hi Hh [[_ <-]|[_ ?]]%lookup_insert_Some; [right; by eapply held_elem|by left]. }
  destruct Hs as [| | | |st i b uuid Hi _|st i _| |st i b uuid Hi _|st i id' _|st i b _| | |st i b _ _| | | | |st i _| |];
    simpl; try by left.
  - by eapply Hins.
  - unfold popReady. destruct (h_ready st); by left.
  - unfold warmInsert. case_match; [by left|]. by eapply Hins.
  - unfold takeLive. destruct (h_sessions st !! id'); simpl; intros [_ ?]%lookup_delete_Some; by left.
  - unfold teardown. destruct (v_heap (h_vms st) !! b) as [t|]; [destruct (s_mgr t)|]; by left.
  - unfold takeWatched. case_bool_decide; simpl; [intros [_ ?]%lookup_delete_Some|]; by left.
  - unfold poolRound. case_match; by left.
Qed.

Lemma step_inserted st st' a : hstep st st' → a ∈ h_inserted st → a ∈ h_inserted st'.
Proof.
  intros Hs Ha. destruct Hs as [| | | | |st i _| |st i b uuid _ _|st i id _|st i b _| | |st i b _ _| | | | |st i _| |];
    simpl; try done.
  - set_solver.
  - unfold popReady. by destruct (h_ready st).
  - unfold warmInsert. case_match; [done|]. simpl. set_solver.
  - unfold takeLive. by destruct (h_sessions st !! id).
  - unfold teardown. destruct (v_heap (h_vms st) !! b) as [t|]; [|done]. by destruct (s_mgr t).
  - unfold takeWatched. by case_bool_decide.
  - unfold poolRound. by case_match.
Qed.

(** A session that left the live map never comes back. *)
Definition departed (a : nat) (st : HState) : Prop := J st ∧ a ∈ h_inserted st ∧ ∀ id, h_sessions st !! id ≠ Some a.

Lemma departed_steps a st st' : departed a st → rtc hstep st st' → departed a st'.
Proof.
  intros Hd Hs. induction Hs as [|st st1 st2 Hs _ IH]; [done|]. apply IH. destruct Hd as (HJ & Ha & Hn).
  split_and!; [by eapply J_step|by eapply step_inserted|].
  intros id Hid. destruct (step_lives st st1 id a Hs Hid) as [Hl|Hh]; [by eapply Hn|].
  pose proof (j_nodup st HJ) as Hnd. rewrite !NoDup_app in Hnd. destruct Hnd as (_ & Hnd & _).
  apply (Hnd a Hh). set_solver.
Qed.

Lemma steps_live st st' id a s : rtc hstep st st' → J st → sigOK (h_vms st) →
  h_sessions st !! id = Some a → v_heap (h_vms st) !! a = Some s →
  J st' ∧ sigOK (h_vms st') ∧
  (departed a st' ∨ ∃ id' s', h_sessions st' !! id' = Some a ∧ v_heap (h_vms st') !! a = Some s' ∧ idleSame s s').
Proof.
  intros Hs HJ Hsig Hid Hheap.
  assert (a ∈ h_inserted st) as Hin.
  { rewrite (j_part st HJ). apply elem_of_app. left. by eapply lives_elem. }
  clear Hid. assert (departed a st ∨ ∃ s', v_heap (h_vms st) !! a = Some s' ∧ idleSame s s') as Hst by (right; by exists s).
  clear Hheap. induction Hs as [st|st st1 st2 Hs Hss IH].
  - split_and!; [done..|]. destruct Hst as [?|(s' & Hs' & Hi)]; [by left|].
    destruct (decide (a ∈ lives st)) as [([id' b] & -> & Hm)%list_elem_of_fmap|Hn].
    + right. exists id', s'. apply elem_of_map_to_list in Hm. done.
    + left. split_and!; [done..|]. intros id' Hid'. by eapply Hn, lives_elem.
  - apply IH; [by eapply J_step|by eapply sig_step|by eapply step_inserted|].
    destruct Hst as [Hd|(s' & Hs' & Hi)].
    + left. eapply departed_steps; [done|]. by apply rtc_once.
    + destruct (step_idle st st1 a s' Hs Hs') as (s'' & Hs'' & Hi'). right. exists s''.
      split; [done|]. unfold idleSame in *. congruence.
Qed.
(** *** A tick *)

Lemma HostDestroy_inserted id st : h_inserted (HostDestroy id st).2 = h_inserted st.
Proof.
  unfold HostDestroy, takeLive. destruct (h_sessions st !! id) as [a|]; [|done]. simpl.
  unfold teardown. simpl. destruct (v_heap (h_vms st) !! a) as [s|]; [|done]. by destruct (s_mgr s).
Qed.

Lemma reapLoop_inserted now timeout cells : ∀ st,
  h_inserted (reapLoop now timeout cells st).2 = h_inserted st.
Proof.
  induction cells as [|a cells IH]; intros st; simpl; [done|].
  destruct (v_heap (h_vms st) !! a) as [s|]; [|done]. destruct (IdleSince s); [|done].
  case_match; [done|]. pose proof (HostDestroy_inserted (s_ID s) st) as Hd.
  destruct (HostDestroy (s_ID s) st) as [r st1]. specialize (IH st1).
  destruct (reapLoop now timeout cells st1). simpl in *. congruence.
Qed.

(** What has become of the session in cell [a], idle since [since]. *)
Definition fate (a : nat) (since : Z) (st : HState) : Prop :=
  departed a st ∨
  ∃ id s, h_sessions st !! id = Some a ∧ v_heap (h_vms st) !! a = Some s ∧ IdleSince s = Some since.

Lemma tick_fate now timeout cells st a since :
  J st → sigOK (h_vms st) → 0 < timeout < two63 → cells ≡ₚ lives st → fate a since st →
  let st' := (ReapIdle now timeout cells st).2 in
  J st' ∧ sigOK (h_vms st') ∧ fate a since st' ∧ (departed a st ∨ since + timeout ≤ now → departed a st').
Proof.
  intros HJ Hsig Ht Hc Hf. unfold ReapIdle. rewrite (proj2 (Z.leb_gt timeout 0)) by lia.
  destruct (reapLoop_inv now timeout cells st HJ Hsig) as [HJ' Hsig'].
  pose proof (reapLoop_inserted now timeout cells st) as Hins.
  assert (NoDup cells) as Hnd.
  { rewrite Hc. pose proof (j_nodup st HJ) as Hn. rewrite (j_part st HJ), !NoDup_app in Hn. naive_solver. }
  assert (∀ b, b ∈ cells → ∃ id, h_sessions st !! id = Some b) as Hlv.
  { intros b. rewrite Hc. intros ([id b'] & -> & Hm)%list_elem_of_fmap. apply elem_of_map_to_list in Hm. eauto. }
  pose proof (reapLoop_spec now timeout cells st HJ Hsig Hnd Hlv) as Hspec.
  destruct (reapLoop now timeout cells st) as [ids st']. destruct Hspec as (Hre & _ & Hnone & _). simpl in *.
  split; [done|]. split; [done|].
  assert (∀ id b, h_sessions st' !! id = Some b → h_sessions st !! id = Some b) as Hsub.
  { intros id b Hb. destruct (h_sessions st !! id) as [b'|] eqn:Eb.
    - destruct (J_live_alloc st id b' HJ Eb) as [t Ht']. specialize (Hre id b' t Eb Ht').
      destruct (_ && _); [naive_solver congruence|]. destruct Hre. congruence.
    - rewrite Hnone in Hb; done. }
  assert (departed a st → departed a st') as Hdep.
  { intros (_ & Hin & Hn). split_and!; [done|by rewrite Hins|]. intros id Hid. by eapply Hn, Hsub. }
  destruct Hf as [Hd|(id & s & Hid & Hs & Hsi)].
  - split; [left; auto|auto].
  - pose proof (Hre id a s Hid Hs) as Hr. rewrite bool_decide_true in Hr by (rewrite Hc; by eapply lives_elem).
    assert (idleFor now timeout s = true → departed a st') as Hgone.
    { intros Hidle. rewrite Hidle in Hr. destruct Hr as (Hno & _). split_and!; [done| |].
      - rewrite Hins, (j_part st HJ). apply elem_of_app. left. by eapply lives_elem.
      - intros id' Hid'. destruct (j_map st HJ id' a (Hsub _ _ Hid')) as [<- _].
        destruct (j_map st HJ id a Hid) as [Hsid _]. rewrite Hsid in Hid'. congruence. }
    split.
    + destruct (idleFor now timeout s) eqn:Hidle; [left; by apply Hgone|]. right. exists id, s. by destruct Hr.
    + intros [?|Hle]; [auto|]. apply Hgone. unfold idleFor. rewrite Hsi. unfold satS64, two63 in *. lia.
Qed.

(** *** [RunIdleReaper] *)

Definition reaperInterval (interval : Z) : Z := if interval <=? 0 then 15 * second else interval.

(** The [k]-th value the ticker delivers, counted from 0. *)
Definition tickAt (start interval : Z) (k : nat) : Z := start + (Z.of_nat k + 1) * reaperInterval interval.

(** The reaper's loop beside everything else the host does; [k] is the next
    tick. *)
Inductive RunIdleReaper (timeout interval start : Z) : nat → HState → nat → HState → Prop :=
| ri_stop k st : RunIdleReaper timeout interval start k st k st
| ri_host k st st1 k' st' : hstep st st1 → RunIdleReaper timeout interval start k st1 k' st' →
    RunIdleReaper timeout interval start k st k' st'
| ri_tick k st cells k' st' : 0 < timeout → cells ≡ₚ lives st →
    RunIdleReaper timeout interval start (S k) (ReapIdle (tickAt start interval k) timeout cells st).2 k' st' →
    RunIdleReaper timeout interval start k st k' st'.

Lemma fate_step a since st st1 : J st → hstep st st1 → fate a since st → fate a since st1.
Proof.
  intros HJ Hs [Hd|(id & s & Hid & Hh & Hi)].
  - left. eapply departed_steps; [done|]. by apply rtc_once.
  - destruct (step_idle st st1 a s Hs Hh) as (s' & Hh' & Hi').
    destruct (decide (a ∈ lives st1)) as [([id' b] & -> & Hm)%list_elem_of_fmap|Hn].
    + right. exists id', s'. apply elem_of_map_to_list in Hm. unfold idleSame in Hi'. split_and!; [done|done|congruence].
    + left. split_and!; [by eapply J_step| |].
      * eapply step_inserted; [done|]. rewrite (j_part st HJ). apply elem_of_app. left. by eapply lives_elem.
      * intros id' Hid'. by eapply Hn, lives_elem.
Qed.

Lemma reaper_departed timeout interval start a k st k' st' :
  RunIdleReaper timeout interval start k st k' st' → timeout < two63 →
  J st → sigOK (h_vms st) → departed a st → departed a st'.
Proof.
  induction 1 as [|k st st1 k' st' Hs _ IH|k st cells k' st' Ht Hc _ IH]; intros Hmax HJ Hsig Hd; [done| |].
  - apply IH; [done|by eapply J_step|by eapply sig_step|]. eapply departed_steps; [done|by apply rtc_once].
  - destruct (tick_fate (tickAt start interval k) timeout cells st a 0 HJ Hsig ltac:(lia) Hc)
      as (HJ1 & Hsig1 & _ & Hgone); [by left|]. auto.
Qed.

Lemma reaper_fate timeout interval start a since k st k' st' :
  RunIdleReaper timeout interval start k st k' st' → timeout < two63 →
  J st → sigOK (h_vms st) → fate a since st →
  J st' ∧ ∀ j, (k ≤ j < k')%nat → since + timeout ≤ tickAt start interval j → departed a st'.
Proof.
  induction 1 as [k st|k st st1 k' st' Hs _ IH|k st cells k' st' Ht Hc Hrun IH]; intros Hmax HJ Hsig Hf.
  - split; [done|lia].
  - apply IH; [done|by eapply J_step|by eapply sig_step|by eapply fate_step].
  - destruct (tick_fate (tickAt start interval k) timeout cells st a since HJ Hsig ltac:(lia) Hc Hf)
      as (HJ1 & Hsig1 & Hf1 & Hgone).
    destruct (IH Hmax HJ1 Hsig1 Hf1) as (HJ2 & Hlater). split; [done|].
    intros j Hj Hle. destruct (decide (j = k)) as [->|Hne]; [|apply (Hlater j); [lia|done]].
    eapply reaper_departed; [done..|]. auto.
Qed.
End Live.

(** ** Properties *)



(** ** Witnesses *)

Definition oneWaiting : HState := spawn PPop hostStart.


