(* ===== verification/SessionHost.v ===== *)
(** What the HTTP handlers rely on: the interface [SessionHost] of
    control-plane/internal/api/types.go as a type class with its laws, and
    the session host of Host.v as its instance.  A call runs here without
    interruption; Host.v has its interleavings. *)
From S2P Require Import Prelude GoLib NetAlloc Session VMTable Host.
Open Scope Z_scope.

(** ** The interface *)

(** Changing a session the host shares with its client: the fields the
    client sets. *)
Definition frames (f : Session → Session) : Prop :=
  ∀ s, s_ID (f s) = s_ID s ∧ s_mgr (f s) = s_mgr s ∧
       s_done (f s) = s_done s ∧ s_doneOnce (f s) = s_doneOnce s.

(** [E] is what a creation draws from outside. *)
Class SessionHost (H E : Type) := {
  hostOK : H → Prop;
  envOK : E → H → Prop;
  hostGet : string → H → option nat;
  hostCell : nat → H → option Session;
  hostLives : H → list nat;
  hostSet : nat → (Session → Session) → H → H;
  hostCreate : bool → E → H → res GoErr nat * H;
  hostDestroy : string → H → res GoErr unit * H
}.

Class SessionHostLaws (H E : Type) `{!SessionHost H E} : Prop := {
  live_cell h id a : hostOK h → hostGet id h = Some a → ∃ s, hostCell a h = Some s ∧ s_ID s = id;
  lives_get h a : hostOK h → a ∈ hostLives h ↔ ∃ id, hostGet id h = Some a;
  set_get a f h id : hostGet id (hostSet a f h) = hostGet id h;
  set_cell a f h b : hostCell b (hostSet a f h) = if decide (b = a) then f <$> hostCell a h else hostCell b h;
  set_ok a f h : frames f → hostOK h → hostOK (hostSet a f h);
  create_ok w e h : hostOK h → envOK e h → hostOK (hostCreate w e h).2;
  create_err w e h err : hostOK h → envOK e h → (hostCreate w e h).1 = Err err →
    ∀ id, hostGet id (hostCreate w e h).2 = hostGet id h ∧
      ∀ a, hostGet id h = Some a → hostCell a (hostCreate w e h).2 = hostCell a h;
  create_new w e h a : hostOK h → envOK e h → (hostCreate w e h).1 = Ok a →
    ∃ s, hostCell a (hostCreate w e h).2 = Some s ∧ s_ID s ≠ "" ∧ hostGet (s_ID s) h = None ∧
      (∀ id, hostGet id (hostCreate w e h).2 = if decide (id = s_ID s) then Some a else hostGet id h) ∧
      (∀ id b, hostGet id h = Some b → b ≠ a ∧ hostCell b (hostCreate w e h).2 = hostCell b h);
  destroy_ok id h : hostOK h → hostOK (hostDestroy id h).2;
  destroy_answer id h : hostOK h →
    (hostDestroy id h).1 = if hostGet id h then Ok tt else Err ErrNotFound;
  destroy_get id h j : hostOK h →
    hostGet j (hostDestroy id h).2 = if decide (j = id) then None else hostGet j h;
  destroy_cell id h b : hostOK h → hostGet id h ≠ Some b →
    hostCell b (hostDestroy id h).2 = hostCell b h
}.

(** A cell is live under one id. *)
Lemma get_inj `{SessionHostLaws H E} h i j a :
  hostOK h → hostGet i h = Some a → hostGet j h = Some a → i = j.
Proof.
  intros Hok Hi Hj. destruct (live_cell h i a Hok Hi) as (s & Hs & <-).
  destruct (live_cell h j a Hok Hj) as (t & Ht & <-). congruence.
Qed.

(** ** The host *)

(** What the launcher returns, and a new UUID. *)
Record LaunchEnv := mkLaunchEnv { le_result : res GoErr Session; le_uuid : string }.

Section Host.
Variables (maxLive target : Z).

(** [Host.Create] *)
Definition HostCreate (e : LaunchEnv) (st : HState) : res GoErr nat * HState :=
  if full maxLive st then (Err ErrAtCapacity, st)
  else match le_result e with
       | Err err => (Err err, st)
       | Ok s => let '(a, v) := vmAdd s (h_vms st) in
                 (Ok a, insertLive (le_uuid e) false a (setVMs v st))
       end.

(** [Host.CreateWarm]; without a pool nothing is ever ready. *)
Definition HostCreateWarm (e : LaunchEnv) (st : HState) : res GoErr nat * HState :=
  match popReady st with
  | (Some a, st1) =>
    let st2 := poke target st1 in
    if full maxLive st2 then (Err ErrAtCapacity, dropVM a st2)
    else (Ok a, insertLive (le_uuid e) true a st2)
  | (None, st1) => HostCreate e (poke target st1)
  end.

Definition freshEnv (e : LaunchEnv) (st : HState) : Prop :=
  newID (h_vms st) (le_uuid e) ∧
  ∀ s, le_result e = Ok s → opened s ∧ (s_ID s = "" ∨ newID (h_vms st) (s_ID s)) ∧ s_ID s ≠ le_uuid e.

Definition goodHost (st : HState) : Prop := J st ∧ sigOK (h_vms st).

(** ** Lemmas *)

(** The invariant does not see a thread that has returned. *)
Lemma J_threads st st' :
  J st → h_vms st' = h_vms st → h_ready st' = h_ready st → h_dropped st' = h_dropped st →
  h_inserted st' = h_inserted st → h_gone st' = h_gone st → h_sessions st' = h_sessions st →
  holds st' = holds st → pends st' = pends st → J st'.
Proof.
  intros HJ Hv Hr Hd Hi Hg Hs Hh Hp. apply (J_move st); try done.
  - by rewrite Hv.
  - by rewrite Hh, Hr, Hd, Hi.
  - unfold lives. by rewrite Hi, Hp, Hg, Hs.
  - by rewrite Hs.
Qed.

Lemma lookup_spawned st pc : h_threads (spawn pc st) !! length (h_threads st) = Some pc.
Proof. simpl. rewrite lookup_app_r by lia. by rewrite Nat.sub_diag. Qed.

Lemma set_spawned (l : list PC) pc pc' : <[length l := pc']> (l ++ [pc]) = l ++ [pc'].
Proof. rewrite insert_app_r_alt by lia. by rewrite Nat.sub_diag. Qed.

(** A thread that lets go of the VM it holds. *)
Lemma J_release st pc a : held pc = Some a → pending pc = None → J (spawn pc st) → J st.
Proof.
  intros Hh Hp [H1 H2 H3 H4 H5 H6]. unfold holds, pends in *. simpl in *.
  rewrite omap_app in *. simpl in *. rewrite Hh in H1, H2. rewrite Hp, app_nil_r in H3.
  split; unfold holds, pends; try done.
  - rewrite <- app_assoc in H1. apply NoDup_app in H1 as (Ha & Hb & Hc). simpl in Hc.
    apply NoDup_cons in Hc as [_ Hc]. apply NoDup_app. split_and!; [done| |done].
    intros x Hx. specialize (Hb x Hx). set_solver.
  - intros x Hx. apply H2. set_solver.
Qed.

(** Registering a VM a thread holds, as the thread would. *)
Lemma J_register st pc a uuid warm :
  held pc = Some a → pending pc = None → J (spawn pc st) → newID (h_vms st) uuid →
  J (insertLive uuid warm a st).
Proof.
  intros Hh Hp HJ Hnew. set (n := length (h_threads st)).
  assert (J (insertLive uuid warm a (setPC n PRet (spawn pc st)))) as HJ'.
  { eapply J_insert; [done|apply lookup_spawned|done|done|done]. }
  apply (J_threads _ _ HJ'); try done; unfold holds, pends; simpl; subst n; rewrite set_spawned;
    rewrite !omap_app; simpl; by rewrite !app_nil_r.
Qed.

Lemma registered uuid warm a st :
  J st → is_Some (v_heap (h_vms st) !! a) → uniqueIDs (h_vms st) → newID (h_vms st) uuid → a ∉ lives st →
  ∃ s, v_heap (h_vms (insertLive uuid warm a st)) !! a = Some s ∧ s_ID s ≠ "" ∧
    h_sessions st !! s_ID s = None ∧
    h_sessions (insertLive uuid warm a st) = <[s_ID s := a]> (h_sessions st) ∧
    (∀ b, b ≠ a → v_heap (h_vms (insertLive uuid warm a st)) !! b = v_heap (h_vms st) !! b).
Proof.
  intros HJ Ha Hu Hnew Hl.
  destruct (ensureID_spec uuid warm a (h_vms st) Ha Hu Hnew) as (Hoth & [s Hs] & Hne & _ & Huniq & _).
  exists s. assert (sid (ensureID uuid warm a (h_vms st)) a = s_ID s) as Hid by (unfold sid; by rewrite Hs).
  rewrite Hid in Hne, Huniq. split_and!; [done|done| |by simpl; rewrite Hid|done].
  destruct (h_sessions st !! s_ID s) as [b|] eqn:Eb; [|done].
  destruct (j_map st HJ _ _ Eb) as [Hb _]. pose proof (J_live_alloc _ _ _ HJ Eb) as Hba.
  apply lives_elem in Eb. by rewrite (Huniq b Hba Hb) in Eb.
Qed.

Lemma sig_register uuid warm a st : sigOK (h_vms st) → sigOK (h_vms (insertLive uuid warm a st)).
Proof. intros Hs. simpl. apply (sigOK_alter _ a); [by left|done]. Qed.

(** *** Creating *)

Definition createdOK (st : HState) (a : nat) (st' : HState) : Prop :=
  goodHost st' ∧
  ∃ s, v_heap (h_vms st') !! a = Some s ∧ s_ID s ≠ "" ∧ h_sessions st !! s_ID s = None ∧
    h_sessions st' = <[s_ID s := a]> (h_sessions st) ∧
    (∀ id b, h_sessions st !! id = Some b → b ≠ a ∧ v_heap (h_vms st') !! b = v_heap (h_vms st) !! b).

Lemma create_registered st st0 pc a uuid warm :
  goodHost st → held pc = Some a → pending pc = None → J (spawn pc st0) →
  is_Some (v_heap (h_vms st0) !! a) → sigOK (h_vms st0) → newID (h_vms st0) uuid → a ∉ lives st0 →
  h_sessions st0 = h_sessions st → (∀ b, b ≠ a → v_heap (h_vms st0) !! b = v_heap (h_vms st) !! b) →
  createdOK st a (insertLive uuid warm a st0).
Proof.
  intros [HJ _] Hh Hp HJs Ha Hsig Hnew Hl Hses Hheap.
  pose proof (J_release st0 pc a Hh Hp HJs) as HJ0. split.
  - split; [by eapply J_register|by apply sig_register].
  - destruct (registered uuid warm a st0 HJ0 Ha (j_ids st0 HJ0) Hnew Hl) as (s & H1 & H2 & H3 & H4 & H5).
    exists s. rewrite Hses in H3, H4. split_and!; try done. intros id b Hb.
    assert (b ≠ a) as Hba.
    { intros ->. apply Hl. unfold lives. rewrite Hses. by eapply lives_elem. }
    split; [done|]. by rewrite H5, Hheap.
Qed.

Lemma J_launched st s a v :
  J st → s_ID s = "" ∨ newID (h_vms st) (s_ID s) → vmAdd s (h_vms st) = (a, v) →
  J (spawn (PInsert a) (setVMs v st)).
Proof.
  intros HJ Hid Hv. set (n := length (h_threads st)).
  assert (J (setPC n (PInsert a) (setVMs v (spawn PLaunch st)))) as HJ'.
  { eapply J_launch; [|apply lookup_spawned|done..]. by apply J_spawn. }
  apply (J_threads _ _ HJ'); try done; unfold holds, pends; simpl; subst n; by rewrite set_spawned.
Qed.

Lemma HostCreate_spec e st :
  goodHost st → freshEnv e st →
  match HostCreate e st with
  | (Err _, st') => st' = st
  | (Ok a, st') => createdOK st a st'
  end.
Proof.
  intros Hst [Hnew Hs]. unfold HostCreate. destruct (full maxLive st); [done|].
  destruct (le_result e) as [s|]; [|done]. destruct (Hs s eq_refl) as ([Hop1 Hop2] & Hid & Hne).
  destruct (vmAdd s (h_vms st)) as [a v] eqn:Hv. pose proof Hst as [HJ Hsig].
  pose proof (J_launched st s a v HJ Hid Hv) as HJs. unfold vmAdd in Hv. injection Hv as Hav Hvv.
  assert (v_heap (h_vms st) !! a = None) as Hfr.
  { apply not_elem_of_dom. rewrite <- Hav. apply is_fresh. }
  assert (v_heap v = <[a := s]> (v_heap (h_vms st))) as Hheap by (by rewrite <- Hvv, <- Hav).
  assert (a ∉ lives st) as Hal.
  { intros Hin. destruct (j_alloc st HJ a) as [x Hx]; [|congruence]. rewrite (j_part st HJ). set_solver. }
  apply (create_registered st (setVMs v st) (PInsert a)); try done; simpl.
  - rewrite Hheap, lookup_insert_eq. eauto.
  - rewrite <- Hvv. simpl. apply map_Forall_insert_2; [by left|done].
  - destruct Hnew as [Hn1 Hn2]. split; [done|]. intros b t. rewrite Hheap.
    intros [[<- <-]|[_ Ht]]%lookup_insert_Some; [done|by apply (Hn2 b)].
  - intros b Hb. by rewrite Hheap, lookup_insert_ne.
Qed.

Lemma HostCreateWarm_spec e st :
  goodHost st → freshEnv e st →
  match HostCreateWarm e st with
  | (Err _, st') => goodHost st' ∧ h_sessions st' = h_sessions st ∧ v_heap (h_vms st') = v_heap (h_vms st)
  | (Ok a, st') => createdOK st a st'
  end.
Proof.
  intros Hst Henv. pose proof Hst as [HJ Hsig]. unfold HostCreateWarm, popReady.
  destruct (h_ready st) as [|a l] eqn:Er.
  - assert (goodHost (poke target st)) as Hp by (split; [by apply (J_threads st)|done]).
    pose proof (HostCreate_spec e (poke target st) Hp Henv) as H.
    destruct (HostCreate e (poke target st)) as [[a|err] st']; [done|]. by subst st'.
  - set (st1 := poke target _).
    assert (J (spawn (PWarm a) st1)) as HJw.
    { apply (J_move st); try done; unfold holds, pends; simpl; rewrite ?omap_app; simpl;
        rewrite ?Er, ?app_nil_r; [solve_Permutation|done]. }
    assert (J (dropVM a st1)) as HJd.
    { apply (J_move st); try done. simpl. unfold holds. simpl. rewrite Er. solve_Permutation. }
    destruct (full maxLive st1); [split_and!; done|].
    destruct Henv as [Hnew _].
    assert (a ∈ h_ready st) as Har by (rewrite Er; set_solver).
    apply (create_registered st st1 (PWarm a)); try done.
    + apply (j_alloc st HJ). set_solver.
    + intros Hl. pose proof (j_nodup st HJ) as Hn. rewrite !NoDup_app in Hn.
      destruct Hn as (_ & _ & _ & Hn & _). apply (Hn a Har). apply elem_of_app. right.
      rewrite (j_part st HJ). change (a ∈ lives st) in Hl. set_solver.
Qed.
End Host.

(** ** The host is a session host *)

(** The capacity and the pool's target are fixed when the host is made. *)
Record HostOf (maxLive target : Z) := mkHostOf { ho_state : HState }.
Arguments mkHostOf {_ _} _.
Arguments ho_state {_ _} _.

Section Instance.
Context {maxLive target : Z}.
Implicit Types h : HostOf maxLive target.

Definition setCell (a : nat) (f : Session → Session) (st : HState) : HState :=
  setVMs (mkVMs (v_table (h_vms st)) (alter f a (v_heap (h_vms st)))) st.

#[export] Instance Host_SessionHost : SessionHost (HostOf maxLive target) LaunchEnv := {
  hostOK h := goodHost (ho_state h);
  envOK e h := freshEnv e (ho_state h);
  hostGet id h := HostGet id (ho_state h);
  hostCell a h := v_heap (h_vms (ho_state h)) !! a;
  hostLives h := HostList (ho_state h);
  hostSet a f h := mkHostOf (setCell a f (ho_state h));
  hostCreate w e h :=
    let '(r, st) := (if w then HostCreateWarm maxLive target e (ho_state h)
                     else HostCreate maxLive e (ho_state h)) in (r, mkHostOf st);
  hostDestroy id h := let '(r, st) := HostDestroy id (ho_state h) in (r, mkHostOf st)
}.

(** Both ways of creating keep the same promise. *)
Lemma host_create_spec w e h :
  goodHost (ho_state h) → freshEnv e (ho_state h) →
  match hostCreate w e h with
  | (Err _, h') => goodHost (ho_state h') ∧ h_sessions (ho_state h') = h_sessions (ho_state h) ∧
      v_heap (h_vms (ho_state h')) = v_heap (h_vms (ho_state h))
  | (Ok a, h') => createdOK (ho_state h) a (ho_state h')
  end.
Proof.
  intros Hok He. simpl. destruct w.
  - pose proof (HostCreateWarm_spec maxLive target e _ Hok He) as Hs.
    by destruct (HostCreateWarm maxLive target e (ho_state h)) as [[a|err] st].
  - pose proof (HostCreate_spec maxLive e _ Hok He) as Hs.
    destruct (HostCreate maxLive e (ho_state h)) as [[a|err] st]; [done|]. by subst st.
Qed.

Lemma host_destroy_missing id st : h_sessions st !! id = None → HostDestroy id st = (Err ErrNotFound, st).
Proof.
  intros Hid. unfold HostDestroy, takeLive. rewrite Hid. f_equal. destruct st; simpl in *.
  by rewrite delete_id.
Qed.

#[export] Instance Host_SessionHostLaws : SessionHostLaws (HostOf maxLive target) LaunchEnv.
Proof.
  split.
  - intros h id a [HJ _] Hid. simpl in *. destruct (J_live_alloc _ _ _ HJ Hid) as [s Hs].
    destruct (j_map _ HJ _ _ Hid) as [Hsid _]. unfold sid in Hsid. rewrite Hs in Hsid. eauto.
  - intros h a _. simpl. split.
    + intros ([id b] & -> & Hm)%list_elem_of_fmap. apply elem_of_map_to_list in Hm. eauto.
    + intros [id Hid]. by eapply lives_elem.
  - done.
  - intros a f h b. simpl. case_decide as Hb; [subst; by rewrite lookup_alter_eq|by rewrite lookup_alter_ne].
  - intros a f h Hf [HJ Hsig]. simpl. split.
    + apply J_vms; [done|]. split; [|done]. intros b. simpl. destruct (decide (b = a)) as [->|Hne].
      * rewrite lookup_alter_eq. destruct (v_heap _ !! a) as [s|]; [|done]. simpl. f_equal. apply Hf.
      * by rewrite lookup_alter_ne.
    + apply (sigOK_alter f a); [|done]. intros s. left. split; apply Hf.
  - intros w e h Hok He. pose proof (host_create_spec w e h Hok He) as Hs.
    destruct (hostCreate w e h) as [[a|err] h']; [by destruct Hs|by destruct Hs].
  - intros w e h err Hok He. pose proof (host_create_spec w e h Hok He) as Hs.
    destruct (hostCreate w e h) as [[a|err'] h']; [done|]. destruct Hs as (_ & Hg & Hc). intros _ id.
    simpl in *. unfold HostGet. by rewrite Hg, Hc.
  - intros w e h a Hok He. pose proof (host_create_spec w e h Hok He) as Hs.
    destruct (hostCreate w e h) as [[a'|err'] h']; [|done]. cbn [fst snd]. intros [= ->].
    destruct Hs as (_ & s & H1 & H2 & H3 & H4 & H5). exists s. split_and!; try done. intros id.
    simpl. unfold HostGet. rewrite H4. case_decide as Hid; [subst; by rewrite lookup_insert_eq|by rewrite lookup_insert_ne].
  - intros id h [HJ Hsig]. simpl. destruct (h_sessions (ho_state h) !! id) as [a|] eqn:Ha.
    + destruct (HostDestroy_spec _ id a HJ Hsig Ha) as (H1 & H2 & _).
      destruct (HostDestroy id (ho_state h)). by split.
    + rewrite host_destroy_missing by done. by split.
  - intros id h _. simpl. unfold HostGet, HostDestroy, takeLive. by destruct (h_sessions (ho_state h) !! id).
  - intros id h j [HJ Hsig]. simpl. unfold HostGet. destruct (h_sessions (ho_state h) !! id) as [a|] eqn:Ha.
    + destruct (HostDestroy_spec _ id a HJ Hsig Ha) as (_ & _ & H3 & _).
      destruct (HostDestroy id (ho_state h)). simpl in *. rewrite H3.
      case_decide as Hj; [subst; by rewrite lookup_delete_eq|by rewrite lookup_delete_ne].
    + rewrite host_destroy_missing by done. simpl. case_decide; by subst.
  - intros id h b [HJ Hsig] Hb. simpl in *. unfold HostGet in Hb. destruct (h_sessions (ho_state h) !! id) as [a|] eqn:Ha.
    + destruct (HostDestroy_spec _ id a HJ Hsig Ha) as (_ & _ & _ & _ & _ & H6).
      destruct (HostDestroy id (ho_state h)). simpl in *. apply H6. congruence.
    + by rewrite host_destroy_missing.
Qed.
End Instance.
