(* ===== verification/Service.v ===== *)
(** The life of the daemon after its start: the rest of [main] of
    control-plane/cmd/microvm-terminal/main.go.  It serves until the listener
    fails or a signal comes, shuts the HTTP server down, destroys the
    sessions [List] returned, and exits; requests in flight, the warm pool,
    the watchers and the VMs themselves go on meanwhile, as the interleaved
    host of Host.v. *)
From S2P Require Import Prelude GoLib NetAlloc Session VMTable Host.
Open Scope Z_scope.

(** ** The phases of [main] *)

Inductive Phase :=
| Serving
| Draining                                             (* srv.Shutdown, at most thirty seconds *)
| Sweeping (cur : option nat) (todo : list string) (listed : list nat)
    (* the loop over [List]: the thread of the running [Destroy], the ids
       left, and what had entered the live map when the list was made *)
| Exited (code : Z) (listed : list nat).

Section Life.
Variables (maxLive target : Z).

(** A request for a VM is accepted while serving only; a sweep of the idle
    reaper that is under way may go on to destroy sessions. *)
Definition arrives (st st' : HState) : Prop :=
  ∃ pc, (pc = PCheck ∨ pc = PPop) ∧ st' = spawn pc st.

(** The manager names its sessions, so the table has no empty id. *)
Inductive life : Phase * HState → Phase * HState → Prop :=
| l_serve st st' :
    hstep maxLive target st st' → v_table (h_vms st') !! "" = None → life (Serving, st) (Serving, st')
| l_host ph st st' :
    ph ≠ Serving → (∀ code l, ph ≠ Exited code l) →
    hstep maxLive target st st' → ¬ arrives st st' → v_table (h_vms st') !! "" = None →
    life (ph, st) (ph, st')
| l_listen_fails st : life (Serving, st) (Exited 1 [], st)
| l_signal st : life (Serving, st) (Draining, st)
| l_drained st todo :
    todo ≡ₚ (map_to_list (h_sessions st)).*1 →
    life (Draining, st) (Sweeping None todo (h_inserted st), st)
| l_destroy st id todo l :
    life (Sweeping None (id :: todo) l, st)
      (Sweeping (Some (length (h_threads st))) todo l, spawn (PTake id) st)
| l_destroyed st i todo l :
    h_threads st !! i = Some PRet → life (Sweeping (Some i) todo l, st) (Sweeping None todo l, st)
| l_bye st l : life (Sweeping None [] l, st) (Exited 0 l, st).

Inductive lived : Phase * HState → Prop :=
| lv_start : lived (Serving, hostStart)
| lv_pool : lived (Serving, Start target hostStart)    (* with a warm pool *)
| lv_step c c' : lived c → life c c' → lived c'.

Lemma life_reachable c : lived c → reachable maxLive target c.2.
Proof.
  induction 1 as [| |c c' _ IH Hs].
  - constructor.
  - eapply r_step; [constructor|constructor].
  - destruct Hs; simpl in *; try done; try (by eapply r_step).
    eapply r_step; [done|]. constructor. eauto.
Qed.

(** ** Where the VMs of the table are *)

(** With somebody who will register, keep or destroy it, or let go of. *)
Definition kept (st : HState) (a : nat) : Prop :=
  a ∈ holds st ∨ a ∈ h_ready st ∨ a ∈ h_dropped st ∨ (∃ id, h_sessions st !! id = Some a) ∨
  PMgr a ∈ h_threads st.

Record Table (st : HState) : Prop := {
  tb_named : v_table (h_vms st) !! "" = None;
  tb_cell : ∀ id a, v_table (h_vms st) !! id = Some a →
    ∃ s, v_heap (h_vms st) !! a = Some s ∧ s_mgr s = true ∧ s_done s = SigOpen;
  tb_kept : ∀ id a, v_table (h_vms st) !! id = Some a → kept st a;
  tb_closed : ∀ id a, v_table (h_vms st) !! id = Some a → PClose a ∉ h_threads st
}.

(** A session as it was, but for what does not matter here. *)
Definition alike (s s' : Session) : Prop := s_mgr s' = s_mgr s ∧ s_done s' = s_done s.

Lemma Table_sub st st' :
  Table st → v_table (h_vms st') ⊆ v_table (h_vms st) →
  (∀ id a s, v_table (h_vms st') !! id = Some a → v_heap (h_vms st) !! a = Some s →
     ∃ s', v_heap (h_vms st') !! a = Some s' ∧ alike s s') →
  (∀ id a, v_table (h_vms st') !! id = Some a → kept st a → kept st' a) →
  (∀ id a, v_table (h_vms st') !! id = Some a → PClose a ∈ h_threads st' → PClose a ∈ h_threads st) →
  Table st'.
Proof.
  intros [Hn Hc Hk Hcl] Hsub Hheap Hkept Hclose.
  assert (∀ id a, v_table (h_vms st') !! id = Some a → v_table (h_vms st) !! id = Some a) as Hold
    by (intros id a Ha; by eapply lookup_weaken).
  split.
  - destruct (v_table (h_vms st') !! "") eqn:E; [|done]. apply Hold in E. congruence.
  - intros id a Ha. destruct (Hc id a (Hold id a Ha)) as (s & Hs & Hm & Hd).
    destruct (Hheap id a s Ha Hs) as (s' & Hs' & Ha1 & Ha2). exists s'. split_and!; congruence.
  - intros id a Ha. eauto.
  - intros id a Ha Hin. eapply Hcl; [by apply Hold|]. by eapply Hclose.
Qed.

Lemma alike_refl v a s : v_heap v !! a = Some s → ∃ s', v_heap v !! a = Some s' ∧ alike s s'.
Proof. intros ->. by exists s. Qed.

(** One thread goes on: what it held it still holds, or has put where it is
    kept. *)
Lemma Table_thread st st1 i old pc :
  Table st → h_threads st !! i = Some old → h_threads st1 = h_threads st →
  v_table (h_vms st1) ⊆ v_table (h_vms st) →
  (∀ id a s, v_table (h_vms st1) !! id = Some a → v_heap (h_vms st) !! a = Some s →
     ∃ s', v_heap (h_vms st1) !! a = Some s' ∧ alike s s') →
  (∀ id a, v_table (h_vms st1) !! id = Some a →
     a ∈ h_ready st ∨ a ∈ h_dropped st ∨ (∃ j, h_sessions st !! j = Some a) ∨ held old = Some a ∨ old = PMgr a →
     a ∈ h_ready st1 ∨ a ∈ h_dropped st1 ∨ (∃ j, h_sessions st1 !! j = Some a) ∨ held pc = Some a ∨ pc = PMgr a) →
  (∀ id a, v_table (h_vms st1) !! id = Some a → pc ≠ PClose a) →
  Table (setPC i pc st1).
Proof.
  intros HT Hi Ht Hsub Hheap Hmove Hpc.
  assert (i < length (h_threads st))%nat as Hlt by (by eapply lookup_lt_Some).
  assert (∀ q, q ∈ h_threads st → q = old ∨ q ∈ <[i := pc]> (h_threads st)) as Hthr.
  { intros q [j Hj]%list_elem_of_lookup. destruct (decide (j = i)) as [->|Hne]; [left; congruence|right].
    apply list_elem_of_lookup. exists j. by rewrite list_lookup_insert_ne. }
  assert (pc ∈ <[i := pc]> (h_threads st)) as Hin by (by apply list_elem_of_insert).
  eapply (Table_sub st); [done|done|done| |]; cbn [setPC h_vms h_threads]; rewrite ?Ht.
  - intros id a Ha Hk.
    assert ((held old = Some a ∨ old = PMgr a ∨ a ∈ h_ready st ∨ a ∈ h_dropped st ∨ (∃ j, h_sessions st !! j = Some a)) ∨
            (a ∈ omap held (<[i := pc]> (h_threads st)) ∨ PMgr a ∈ <[i := pc]> (h_threads st))) as [Hc|Hc].
    { destruct Hk as [Hh|[?|[?|[?|Hm]]]]; [|by auto 10..|].
      - unfold holds in Hh. apply list_elem_of_omap in Hh as (q & [->|Hq]%Hthr & Hqa); [by auto|].
        right. left. apply list_elem_of_omap. eauto.
      - destruct (Hthr _ Hm) as [?|?]; auto. }
    + destruct (Hmove id a Ha ltac:(naive_solver)) as [?|[?|[?|[Hh| ->]]]]; unfold kept, holds; simpl;
        rewrite ?Ht; auto 10.
      left. apply list_elem_of_omap. eauto.
    + unfold kept, holds. simpl. rewrite Ht. destruct Hc; auto 10.
  - intros id a Ha [j Hj]%list_elem_of_lookup.
    apply list_lookup_insert_Some in Hj as [(_ & Hj & _)|[_ Hj]]; [by destruct (Hpc id a Ha)|].
    apply list_elem_of_lookup. eauto.
Qed.

Lemma Table_spawn st pc : Table st → held pc = None → (∀ a, pc ≠ PMgr a ∧ pc ≠ PClose a) → Table (spawn pc st).
Proof.
  intros HT Hh Hpc. apply (Table_sub st); [done|done| | |]; cbn [spawn h_vms h_threads].
  - intros id a s _. apply alike_refl.
  - intros id a _ [Hk|[?|[?|[?|?]]]]; unfold kept, holds, spawn; simpl; rewrite ?omap_app; auto 10.
    + left. apply elem_of_app. by left.
    + do 4 right. set_solver.
  - intros id a _ [?|Hin]%elem_of_app; [done|]. apply list_elem_of_singleton in Hin.
    destruct (Hpc a). congruence.
Qed.

(** Registering a VM moves it from the thread to the live map. *)
Lemma Table_insert st i old a uuid warm :
  J st → Table st → h_threads st !! i = Some old → held old = Some a → (∀ b, old ≠ PMgr b) →
  newID (h_vms st) uuid → Table (insertLive uuid warm a (setPC i PRet st)).
Proof.
  intros HJ HT Hi Hh Hold Hnew. destruct (insert_free st i old a uuid warm HJ Hi Hh Hnew) as [Hfree _].
  unfold insertLive. cbn [setPC h_vms].
  apply Table_spawn; [|done|done].
  match goal with |- Table ?t => change (Table (setPC i PRet (mkH (h_sessions t) (h_vms t) (h_ready st)
    (h_replenish st) (h_gone st) (h_threads st) (h_inserted t) (h_dropped st)))) end.
  apply (Table_thread st _ i old); cbn [h_sessions h_vms h_ready h_dropped h_threads ensureID v_table v_heap]; try done.
  - intros id b s _ Hs. destruct (decide (b = a)) as [->|Hne].
    + rewrite lookup_alter_eq, Hs. eexists. split; [done|]. by split.
    + rewrite lookup_alter_ne by done. by apply alike_refl.
  - intros id b _ [?|[?|[[j Hj]|[Hb|Hb]]]]; [by auto|by auto|..|by destruct (Hold b)].
    + right. right. left. exists j. rewrite lookup_insert_ne; [done|]. intros <-. congruence.
    + right. right. left. rewrite Hb in Hh. injection Hh as ->. eexists. apply lookup_insert_eq.
Qed.

Lemma Table_launch st i old pc s a v :
  Table st → h_threads st !! i = Some old → held old = None → (∀ b, old ≠ PMgr b) →
  held pc = Some a → (∀ b, pc ≠ PClose b) → opened s →
  vmAdd s (h_vms st) = (a, v) → v_table v !! "" = None → J st →
  Table (setPC i pc (setVMs v st)).
Proof.
  intros HT Hi Ho Hom Hp Hpc Hop Hv Hnm HJ. unfold vmAdd in Hv. injection Hv as Ha Hv.
  assert (v_heap (h_vms st) !! a = None) as Hfr by (apply not_elem_of_dom; rewrite <- Ha; apply is_fresh).
  assert (v_heap v = <[a := s]> (v_heap (h_vms st))) as Hheap by (by rewrite <- Hv, <- Ha).
  assert (∀ id b, v_table v !! id = Some b → (b = a ∧ s_mgr s = true) ∨ (b ≠ a ∧ v_table (h_vms st) !! id = Some b)) as Htb.
  { intros id b Hb. assert (v_table (h_vms st) !! id = Some b → b ≠ a) as Hne.
    { intros Hb' ->. destruct (tb_cell _ HT id a Hb') as (? & ? & _). congruence. }
    rewrite <- Hv in Hb. simpl in Hb. destruct (s_mgr s) eqn:Em; [|by auto].
    apply lookup_insert_Some in Hb as [[_ <-]|[_ Hb]]; [left; split; congruence|by auto]. }
  assert (i < length (h_threads st))%nat as Hlt by (by eapply lookup_lt_Some).
  assert (pc ∈ <[i := pc]> (h_threads st)) as Hin by (by apply list_elem_of_insert).
  split; cbn [setPC setVMs h_vms h_threads].
  - done.
  - intros id b Hb. rewrite Hheap. destruct (Htb id b Hb) as [[-> Hm]|[Hne Hb']].
    + exists s. rewrite lookup_insert_eq. split_and!; [done|done|apply Hop].
    + rewrite lookup_insert_ne by done. by apply (tb_cell _ HT id).
  - intros id b Hb. unfold kept, holds. cbn [setPC setVMs h_threads h_ready h_dropped h_sessions].
    destruct (Htb id b Hb) as [[-> _]|[_ Hb']].
    + left. apply list_elem_of_omap. eauto.
    + destruct (threads_set _ _ _ Hi) as (H & P & HH & _ & Hset). destruct (Hset pc) as [HH' _].
      rewrite Ho in HH. rewrite HH'. destruct (tb_kept _ HT id b Hb') as [Hk|[?|[?|[?|Hk]]]]; auto 10.
      * left. unfold holds in Hk. rewrite HH in Hk. simpl in Hk. apply elem_of_app. by right.
      * do 4 right. apply list_elem_of_lookup in Hk as [j Hj]. apply list_elem_of_lookup. exists j.
        rewrite list_lookup_insert_ne; [done|]. intros <-. destruct (Hom b). congruence.
  - intros id b Hb [j Hj]%list_elem_of_lookup.
    apply list_lookup_insert_Some in Hj as [(_ & Hj & _)|[_ Hj]]; [by destruct (Hpc b)|].
    destruct (Htb id b Hb) as [[-> _]|[_ Hb']].
    + assert (is_Some (v_heap (h_vms st) !! a)) as [? ?]; [|congruence].
      apply (j_alloc st HJ). rewrite (j_part st HJ). unfold pends. rewrite !elem_of_app.
      do 3 right. right. left. apply list_elem_of_omap. exists (PClose a). split; [|done].
      apply list_elem_of_lookup. eauto.
    + apply (tb_closed _ HT id b Hb'). apply list_elem_of_lookup. eauto.
Qed.

(** An id of the table has one VM, and a VM one id. *)
Lemma Table_inj st id1 id2 a :
  J st → Table st → v_table (h_vms st) !! id1 = Some a → v_table (h_vms st) !! id2 = Some a → id1 = id2.
Proof.
  intros HJ HT H1 H2. pose proof (tb_named _ HT) as Hn.
  destruct (j_table st HJ id1 a H1) as [<- _]; [by intros ->; congruence|].
  destruct (j_table st HJ id2 a H2) as [<- _]; [by intros ->; congruence|]. done.
Qed.

Lemma vmDestroy_alike st id0 :
  J st → Table st → let v := (vmDestroy id0 (h_vms st)).2 in
  v_table v ⊆ v_table (h_vms st) ∧
  ∀ id a s, v_table v !! id = Some a → v_heap (h_vms st) !! a = Some s →
    ∃ s', v_heap v !! a = Some s' ∧ alike s s'.
Proof.
  intros HJ HT v. unfold v, vmDestroy. destruct (v_table (h_vms st) !! id0) as [a0|] eqn:E; simpl.
  - split; [apply delete_subseteq|]. intros id a s [Hne Ha]%lookup_delete_Some Hs.
    rewrite lookup_alter_ne; [by apply alike_refl|]. intros ->. by apply Hne, (Table_inj st id0 id a).
  - split; [done|]. intros id a s _. apply alike_refl.
Qed.

Lemma Table_exit st id : J st → Table st → Table (setVMs (vmDestroy id (h_vms st)).2 st).
Proof.
  intros HJ HT. destruct (vmDestroy_alike st id HJ HT) as [Hsub Hal].
  by apply (Table_sub st).
Qed.

(** [Destroy] takes its VM out of the table. *)
Lemma teardown_gone st a : J st → Table st → a ∈ pends st →
  v_table (h_vms (teardown a st)) ⊆ v_table (h_vms st) ∧
  (∀ id b s, v_table (h_vms (teardown a st)) !! id = Some b → v_heap (h_vms st) !! b = Some s →
     ∃ s', v_heap (h_vms (teardown a st)) !! b = Some s' ∧ alike s s') ∧
  ∀ id, v_table (h_vms (teardown a st)) !! id ≠ Some a.
Proof.
  intros HJ HT Hpd.
  assert (is_Some (v_heap (h_vms st) !! a)) as [s Hs].
  { apply (j_alloc st HJ). rewrite (j_part st HJ). set_solver. }
  unfold teardown. rewrite Hs. destruct (s_mgr s) eqn:Em.
  - destruct (vmDestroy_alike st (s_ID s) HJ HT) as [Hsub Hal]. cbn [setVMs h_vms].
    split_and!; [done|done|]. intros id Hid.
    assert (v_table (h_vms st) !! id = Some a) as Hold by (by eapply lookup_weaken).
    destruct (j_table st HJ id a Hold) as [Hsid _]; [intros ->; pose proof (tb_named _ HT); congruence|].
    unfold sid in Hsid. rewrite Hs in Hsid. unfold vmDestroy in Hid. rewrite Hsid, Hold in Hid. simpl in Hid.
    by rewrite lookup_delete_eq in Hid.
  - split_and!; [done|by intros id b t _; apply alike_refl|]. intros id Hid.
    destruct (tb_cell _ HT id a Hid) as (t & Ht & Hm & _). congruence.
Qed.

Lemma in_pends st i pc a : h_threads st !! i = Some pc → pending pc = Some a → a ∈ pends st.
Proof.
  intros Hi Hp. apply list_elem_of_omap. exists pc. split; [by eapply list_elem_of_lookup_2|done].
Qed.

Lemma teardown_frame a st :
  h_threads (teardown a st) = h_threads st ∧ h_ready (teardown a st) = h_ready st ∧
  h_dropped (teardown a st) = h_dropped st ∧ h_sessions (teardown a st) = h_sessions st.
Proof. unfold teardown. destruct (v_heap (h_vms st) !! a) as [s|]; [|done]. by destruct (s_mgr s). Qed.

(** A thread steps and the VMs stay as they are. *)
Lemma Table_local st st1 i old pc :
  Table st → h_threads st !! i = Some old → h_threads st1 = h_threads st → h_vms st1 = h_vms st →
  (∀ id a, v_table (h_vms st) !! id = Some a →
     a ∈ h_ready st ∨ a ∈ h_dropped st ∨ (∃ j, h_sessions st !! j = Some a) ∨ held old = Some a ∨ old = PMgr a →
     a ∈ h_ready st1 ∨ a ∈ h_dropped st1 ∨ (∃ j, h_sessions st1 !! j = Some a) ∨ held pc = Some a ∨ pc = PMgr a) →
  (∀ a, pc ≠ PClose a) → Table (setPC i pc st1).
Proof.
  intros HT Hi Ht Hv Hmove Hpc. apply (Table_thread st _ i old); rewrite ?Hv; try done.
  intros id a s _. apply alike_refl.
Qed.

Lemma Table_step st st' :
  J st → Table st → hstep maxLive target st st' → v_table (h_vms st') !! "" = None → Table st'.
Proof.
  intros HJ HT Hstep Hnm. destruct Hstep as
    [st pc Hpc|st i Hi|st i s pc a v Hi Hid Hop Hv|st i Hi|st i a uuid Hi Hnew|st i Hi
    |st i o Hi|st i a uuid Hi Hnew|st i id Hi|st i a Hi|st i a Hi|st i a Hi|st i a Hi Hdone|st id
    |st|st i n Hi|st i Hi Hn|st i Hi|st i Hi|st i a Hi].
  - apply Table_spawn; [done|..]; by destruct Hpc as [->|[->|[id ->]]].
  - destruct (full maxLive st); apply (Table_local st st i PCheck); try done; naive_solver.
  - destruct Hi as [[Hi ->]|[Hi ->]]; by eapply Table_launch.
  - destruct Hi as [Hi|Hi]; apply (Table_local st st i _ PRet HT Hi); naive_solver.
  - by eapply Table_insert.
  - unfold popReady. destruct (h_ready st) as [|a l] eqn:Er.
    + apply (Table_local st st i PPop); try done. naive_solver.
    + apply (Table_local st _ i PPop); try done. cbn [fst snd h_ready h_dropped h_sessions held].
      rewrite Er. intros id b _ [[->|?]%elem_of_cons|?]; naive_solver.
  - apply (Table_local st _ i (PPoke o)); try done; destruct o; naive_solver.
  - unfold warmInsert. destruct (full _ _); [|by eapply Table_insert].
    change (Table (setPC i PRet (dropVM a st))). apply (Table_local st _ i (PWarm a)); try done.
    cbn [dropVM h_ready h_dropped h_sessions held]. intros id b _.
    intros [?|[?|[?|[[= ->]|?]]]]; [by auto|right; left; set_solver|by auto|right; left; set_solver|done].
  - unfold takeLive. destruct (h_sessions st !! id) as [a|] eqn:Eid.
    + apply (Table_local st _ i (PTake id)); try done. cbn [h_ready h_dropped h_sessions held].
      intros id' b _. intros [?|[?|[[j Hj]|[?|?]]]]; try by auto.
      destruct (decide (j = id)) as [->|Hne]; [|right; right; left; exists j; by rewrite lookup_delete_ne].
      do 4 right. congruence.
    + apply (Table_local st _ i (PTake id)); try done. cbn [h_ready h_dropped h_sessions held].
      intros id' b _. rewrite delete_id by done. naive_solver.
  - destruct (teardown_gone st a HJ HT (in_pends _ _ _ _ Hi eq_refl)) as (Hsub & Hal & Hno).
    destruct (teardown_frame a st) as (Hf1 & Hf2 & Hf3 & Hf4).
    apply (Table_thread st _ i (PMgr a)); rewrite ?Hf2, ?Hf3, ?Hf4; try done.
    + intros id b Hb. intros [?|[?|[?|[?|[= ->]]]]]; [by auto..|done|by destruct (Hno id)].
    + intros id b Hb [= ->]. by destruct (Hno id).
  - assert (∀ id, v_table (h_vms st) !! id ≠ Some a) as Hno.
    { intros id Hid. apply (tb_closed _ HT id a Hid). by eapply list_elem_of_lookup_2. }
    apply (Table_thread st _ i (PClose a)); cbn [setVMs h_vms vmClose v_table v_heap h_threads h_ready h_dropped h_sessions]; try done.
    + intros id b s Hb Hs. rewrite lookup_alter_ne; [by apply alike_refl|]. intros ->. by destruct (Hno id).
    + naive_solver.
  - apply (Table_local st _ i (PGone a)); try done. naive_solver.
  - assert (∀ id, v_table (h_vms st) !! id ≠ Some a) as Hno.
    { intros id Hid. destruct (tb_cell _ HT id a Hid) as (s & Hs & _ & Ho). unfold isDone in Hdone.
      rewrite Hs, Ho in Hdone. done. }
    unfold takeWatched. case_bool_decide as Hw.
    + apply (Table_local st _ i (PWatch a)); try done. cbn [takeLive snd h_ready h_dropped h_sessions held].
      intros id b Hb. intros [?|[?|[[j Hj]|[?|?]]]]; try by auto.
      right. right. left. exists j. rewrite lookup_delete_ne; [done|]. intros <-.
      rewrite Hw in Hj. injection Hj as ->. by destruct (Hno id).
    + apply (Table_local st st i (PWatch a)); try done. naive_solver.
  - by apply Table_exit.
  - unfold Start. repeat (apply Table_spawn; [|done|done]). done.
  - apply (Table_local st _ i (PSeed (S n))); try done. naive_solver.
  - apply (Table_local st _ i PLoop); try done. naive_solver.
  - assert (Table (setPC i PLoop st)) by (apply (Table_local st st i PHave); try done; naive_solver).
    unfold poolRound. case_match; [done|]. by apply Table_spawn.
  - apply (Table_local st st i PLoop); try done. naive_solver.
  - change (Table (setPC i PRet (pushReady a st))). apply (Table_local st _ i (PPool a)); try done.
    cbn [pushReady h_ready h_dropped h_sessions held].
    intros id b _ [?|[?|[?|[[= ->]|?]]]]; [left; set_solver|by auto|by auto|left; set_solver|done].
Qed.

(** ** The sweep *)

(** What is left of the sessions that were listed. *)
Definition toSweep (ph : Phase) (st : HState) : Prop :=
  match ph with
  | Serving | Draining => True
  | Sweeping cur todo listed =>
    listed ⊆ h_inserted st ∧
    ∀ id a, h_sessions st !! id = Some a → a ∈ listed →
      id ∈ todo ∨ ∃ i, cur = Some i ∧ h_threads st !! i = Some (PTake id)
  | Exited code listed =>
    code = 1 ∨ (code = 0 ∧ ∀ id a, h_sessions st !! id = Some a → a ∉ listed)
  end.

(** A thread other than a waiting [Destroy] went on. *)
Lemma take_kept (l : list PC) i old pc extra :
  l !! i = Some old → (∀ id, old ≠ PTake id) →
  ∀ j id, l !! j = Some (PTake id) → (<[i := pc]> l ++ extra) !! j = Some (PTake id).
Proof.
  intros Hi Hold j id Hj. apply lookup_app_l_Some. rewrite list_lookup_insert_ne; [done|].
  intros ->. destruct (Hold id). congruence.
Qed.

Definition liveStep (st st' : HState) : Prop :=
  h_inserted st ⊆ h_inserted st' ∧
  (∀ id a, h_sessions st' !! id = Some a → h_sessions st !! id = Some a ∨ a ∉ h_inserted st) ∧
  (∀ i id, h_threads st !! i = Some (PTake id) →
     h_threads st' !! i = Some (PTake id) ∨ h_sessions st' !! id = None).

Lemma liveStep_thread st st' i old pc extra :
  h_threads st !! i = Some old → (∀ id, old ≠ PTake id) →
  h_threads st' = <[i := pc]> (h_threads st) ++ extra → h_inserted st' = h_inserted st →
  h_sessions st' ⊆ h_sessions st → liveStep st st'.
Proof.
  intros Hi Hold Ht Hins Hsub. split_and!; [by rewrite Hins| |].
  - intros id a Ha. left. by eapply lookup_weaken.
  - intros j id Hj. left. rewrite Ht. by eapply take_kept.
Qed.

Lemma liveStep_setPC st st1 i old pc :
  h_threads st !! i = Some old → (∀ id, old ≠ PTake id) → h_threads st1 = h_threads st →
  h_inserted st1 = h_inserted st → h_sessions st1 ⊆ h_sessions st → liveStep st (setPC i pc st1).
Proof.
  intros Hi Hold Ht Hins Hsub. apply (liveStep_thread st _ i old pc []); simpl; [done..|by rewrite Ht, app_nil_r|done|done].
Qed.

Lemma liveStep_insert st i old a uuid warm :
  J st → h_threads st !! i = Some old → held old = Some a → newID (h_vms st) uuid →
  liveStep st (insertLive uuid warm a (setPC i PRet st)).
Proof.
  intros HJ Hi Hh Hnew. destruct (insert_free st i old a uuid warm HJ Hi Hh Hnew) as [_ Hni].
  unfold insertLive, spawn. split_and!; cbn [setPC h_inserted h_sessions h_threads h_vms].
  - set_solver.
  - intros id b [[_ <-]|[_ Hb]]%lookup_insert_Some; auto.
  - intros j id Hj. left. eapply take_kept; [done| |done]. intros id' ->. done.
Qed.

(** A VM enters the live map once, and a [Destroy] that has not looked yet
    has its session still to find. *)
Lemma hstep_live st st' : J st → hstep maxLive target st st' → liveStep st st'.
Proof.
  intros HJ Hstep. destruct Hstep as
    [st pc Hpc|st i Hi|st i s pc a v Hi Hid Hop Hv|st i Hi|st i a uuid Hi Hnew|st i Hi
    |st i o Hi|st i a uuid Hi Hnew|st i id Hi|st i a Hi|st i a Hi|st i a Hi|st i a Hi Hdone|st id
    |st|st i n Hi|st i Hi Hn|st i Hi|st i Hi|st i a Hi];
    try (by eapply liveStep_setPC).
  - split_and!; simpl; [done|by auto|]. intros j id Hj. left. by apply lookup_app_l_Some.
  - destruct Hi as [[Hi ->]|[Hi ->]]; by eapply liveStep_setPC.
  - destruct Hi as [Hi|Hi]; by eapply liveStep_setPC.
  - by eapply liveStep_insert.
  - unfold popReady. destruct (h_ready st); by eapply liveStep_setPC.
  - unfold warmInsert. destruct (full _ _); [|by eapply liveStep_insert].
    change (liveStep st (setPC i PRet (dropVM a st))). by eapply liveStep_setPC.
  - unfold takeLive. split_and!.
    + by destruct (h_sessions st !! id).
    + intros id' b. destruct (h_sessions st !! id); simpl; intros [_ Hb]%lookup_delete_Some; auto.
    + intros j id' Hj. destruct (decide (j = i)) as [->|Hne].
      * assert (id' = id) as -> by congruence. right.
        destruct (h_sessions st !! id); simpl; apply lookup_delete_eq.
      * left. destruct (h_sessions st !! id); simpl; by rewrite list_lookup_insert_ne.
  - destruct (teardown_frame a st) as (Hf1 & _ & _ & Hf4).
    eapply liveStep_setPC; [done|done|done| |by rewrite Hf4].
    unfold teardown. destruct (v_heap (h_vms st) !! a) as [s|]; [|done]. by destruct (s_mgr s).
  - unfold takeWatched. case_bool_decide; eapply liveStep_setPC; try done. apply delete_subseteq.
  - split_and!; simpl; auto.
  - unfold Start, spawn. split_and!; simpl; [done|by auto|]. intros j id Hj. left.
    by apply lookup_app_l_Some, lookup_app_l_Some.
  - unfold poolRound. case_match; [by eapply liveStep_setPC|].
    by apply (liveStep_thread st _ i PHave PLoop [PBuild]).
Qed.

Lemma toSweep_step ph st st' : J st → liveStep st st' → toSweep ph st →
  (∀ code l, ph ≠ Exited code l) → toSweep ph st'.
Proof.
  intros HJ (Hins & Hlive & Htake) Hs Hne. destruct ph as [| |cur todo listed|code l]; try done.
  - destruct Hs as [Hsub Hs]. split; [set_solver|]. intros id a Ha Hal.
    destruct (Hlive id a Ha) as [Hold|Hno]; [|set_solver].
    destruct (Hs id a Hold Hal) as [?|(i & -> & Hi)]; [by left|].
    destruct (Htake i id Hi) as [?|Hgone]; [right; eauto|congruence].
  - by destruct (Hne code l).
Qed.

Lemma lived_inv c : lived c → J c.2 ∧ Table c.2 ∧ toSweep c.1 c.2.
Proof.
  intros Hl. pose proof (J_reachable _ _ _ (life_reachable c Hl)) as HJ. split; [done|].
  assert (Table hostStart) as HT0.
  { split; simpl; try done; intros id a Ha; by rewrite lookup_empty in Ha. }
  induction Hl as [| |c c' Hl IH Hs]; simpl; [done| |].
  - split; [|done]. unfold Start. repeat (apply Table_spawn; [|done|done]). done.
  - pose proof (J_reachable _ _ _ (life_reachable c Hl)) as HJc. destruct (IH HJc) as [HT HS].
    destruct Hs as [st st' Hs Hn|ph st st' Hp He Hs Hna Hn|st|st|st todo Hperm|st id todo l|st i todo l Hi|st l];
      simpl in *.
    + split; [by eapply Table_step|done].
    + split; [by eapply Table_step|]. eapply toSweep_step; [done|by apply hstep_live|done|done].
    + auto.
    + auto.
    + split; [done|]. split; [done|]. intros id a Ha _. left. rewrite Hperm.
      apply list_elem_of_fmap. exists (id, a). split; [done|]. by apply elem_of_map_to_list.
    + split; [by apply Table_spawn|]. destruct HS as [Hsub HS]. split; [done|]. intros id' a Ha Hal.
      destruct (HS id' a Ha Hal) as [[->|?]%elem_of_cons|(i & ? & _)]; [|by auto|done].
      right. exists (length (h_threads st)). split; [done|].
      rewrite lookup_app_r by lia. by rewrite Nat.sub_diag.
    + split; [done|]. destruct HS as [Hsub HS]. split; [done|]. intros id' a Ha Hal.
      destruct (HS id' a Ha Hal) as [?|(j & [= <-] & Hj)]; [by left|congruence].
    + split; [done|]. right. split; [done|]. intros id a Ha Hal. destruct HS as [_ HS].
      destruct (HS id a Ha Hal) as [?|(j & ? & _)]; [set_solver|done].
Qed.

End Life.

(** ** Properties *)

(** C11: What a stopped daemon leaves behind, however the rest of the program
    is interleaved with its shutdown: when [main] returns after a signal,
    every session that [List] returned has left the live map; a VM that is
    still in the manager's table is in the warm pool, was dropped by a warm
    request at capacity, is in the hands of a request or a pool build in
    flight, is being torn down by another goroutine, or was registered after
    the list was made; so with none of these no VM outlives the daemon: the
    table and the live map are empty. *)
Theorem exit_accounts_for_vms (maxLive target : Z) (listed : list nat) (st : HState) :
  lived maxLive target (Exited 0 listed, st) →
  (∀ id a, h_sessions st !! id = Some a → a ∉ listed) ∧
  (∀ id a, v_table (h_vms st) !! id = Some a →
     a ∈ h_ready st ∨ a ∈ h_dropped st ∨ a ∈ holds st ∨ PMgr a ∈ h_threads st ∨
     (∃ id', h_sessions st !! id' = Some a ∧ a ∉ listed)) ∧
  (h_ready st = [] → h_dropped st = [] → holds st = [] → (∀ a, PMgr a ∉ h_threads st) →
   h_inserted st = listed → v_table (h_vms st) = ∅ ∧ h_sessions st = ∅).
Proof.
  intros Hl. destruct (lived_inv _ _ _ Hl) as (HJ & HT & [?|[_ Hsw]]); [done|].
  assert (∀ id a, v_table (h_vms st) !! id = Some a →
    a ∈ h_ready st ∨ a ∈ h_dropped st ∨ a ∈ holds st ∨ PMgr a ∈ h_threads st ∨
    (∃ id', h_sessions st !! id' = Some a ∧ a ∉ listed)) as Hacc.
  { intros id a Ha. destruct (tb_kept _ HT id a Ha) as [?|[?|[?|[[id' Hid']|?]]]]; auto 10.
    do 4 right. eauto. }
  split_and!; [done|done|]. intros H1 H2 H3 H4 H5.
  assert (∀ id a, h_sessions st !! id = Some a → False) as Hno.
  { intros id a Ha. apply (Hsw id a Ha). rewrite <- H5, (j_part st HJ). apply lives_elem in Ha. set_solver. }
  split; apply map_empty; intros id; apply eq_None_not_Some; intros [a Ha]; [|by eapply Hno].
  destruct (Hacc id a Ha) as [Hx|[Hx|[Hx|[Hx|(id' & Hx & _)]]]]; [..|by eapply H4|by eapply Hno];
    rewrite ?H1, ?H2, ?H3 in Hx; by apply not_elem_of_nil in Hx.
Qed.

(** ** A scheduler for the daemon's life *)

Inductive LAct := LHost (act : Act) | LListenFails | LSignal | LDrained | LDestroy | LDestroyed | LBye.

Definition named (st : HState) : bool := bool_decide (v_table (h_vms st) !! "" = None).
(** No thread was added: no request arrived. *)
Definition sameThreads (st st' : HState) : bool :=
  (length (h_threads st') =? length (h_threads st))%nat.

Definition lifeExec1 (maxLive target : Z) (l : LAct) (c : Phase * HState) : option (Phase * HState) :=
  let '(ph, st) := c in
  match l, ph with
  | LHost act, Exited _ _ => None
  | LHost act, _ =>
    match exec1 maxLive target act st with
    | Some st' =>
      if named st' && (sameThreads st st' || match ph with Serving => true | _ => false end)
      then Some (ph, st') else None
    | None => None
    end
  | LListenFails, Serving => Some (Exited 1 [], st)
  | LSignal, Serving => Some (Draining, st)
  | LDrained, Draining => Some (Sweeping None (map_to_list (h_sessions st)).*1 (h_inserted st), st)
  | LDestroy, Sweeping None (id :: todo) l =>
    Some (Sweeping (Some (length (h_threads st))) todo l, spawn (PTake id) st)
  | LDestroyed, Sweeping (Some i) todo l =>
    if bool_decide (h_threads st !! i = Some PRet) then Some (Sweeping None todo l, st) else None
  | LBye, Sweeping None [] l => Some (Exited 0 l, st)
  | _, _ => None
  end.

Fixpoint lifeExec (maxLive target : Z) (ls : list LAct) (c : Phase * HState) : option (Phase * HState) :=
  match ls with
  | [] => Some c
  | l :: ls' => match lifeExec1 maxLive target l c with
                | Some c' => lifeExec maxLive target ls' c'
                | None => None
                end
  end.

Lemma sameThreads_quiet st st' : sameThreads st st' = true → ¬ arrives st st'.
Proof.
  intros H%Nat.eqb_eq (pc & _ & ->). cbn [spawn h_threads] in H. rewrite length_app in H. simpl in H. lia.
Qed.

Lemma lifeExec1_sound maxLive target l c c' :
  lifeExec1 maxLive target l c = Some c' → life maxLive target c c'.
Proof.
  destruct c as [ph st]. destruct l as [act| | | | | |]; cbn [lifeExec1].
  - assert (∀ b, (match exec1 maxLive target act st with
      | Some st' => if named st' && (sameThreads st st' || b) then Some (ph, st') else None
      | None => None end) = Some c' → ∃ st', c' = (ph, st') ∧ hstep maxLive target st st' ∧
        v_table (h_vms st') !! "" = None ∧ (b = false → ¬ arrives st st')) as H.
    { intros b. destruct (exec1 maxLive target act st) as [st'|] eqn:E; [|done].
      destruct (named st') eqn:En; [|done]. apply bool_decide_eq_true in En.
      destruct (sameThreads st st' || b) eqn:Es; [|done]. intros [= <-]. exists st'.
      split_and!; [done|by eapply exec1_sound|done|]. intros ->. rewrite orb_false_r in Es.
      by apply sameThreads_quiet. }
    destruct ph as [| |cur todo l|code l]; [..|done]; intros Hx; apply H in Hx as (st' & -> & Hs & Hn & Hq);
      by constructor; auto.
  - destruct ph; try done. intros [= <-]. constructor.
  - destruct ph; try done. intros [= <-]. constructor.
  - destruct ph; try done. intros [= <-]. by constructor.
  - destruct ph as [| |[] [] ?|]; try done. intros [= <-]. constructor.
  - destruct ph as [| |[i|] todo l|]; try done. case_bool_decide; [|done]. intros [= <-]. by constructor.
  - destruct ph as [| |[i|] [|id todo] l|]; try done. intros [= <-]. constructor.
Qed.

Lemma lifeExec_sound maxLive target ls : ∀ c c',
  lived maxLive target c → lifeExec maxLive target ls c = Some c' → lived maxLive target c'.
Proof.
  induction ls as [|l ls IH]; intros c c' Hl; cbn [lifeExec]; [by intros [= <-]|].
  destruct (lifeExec1 maxLive target l c) as [c1|] eqn:E; [|done]. apply IH.
  eapply lv_step; [exact Hl|by eapply lifeExec1_sound].
Qed.

Lemma lived_witness maxLive target ls c (P : Phase * HState → bool) :
  lived maxLive target c →
  (match lifeExec maxLive target ls c with Some c' => P c' | None => false end) = true →
  ∃ c', lived maxLive target c' ∧ P c' = true.
Proof.
  intros Hl H. destruct (lifeExec maxLive target ls c) as [c'|] eqn:E; [|done].
  exists c'. split; [by eapply lifeExec_sound|done].
Qed.

(** Two VMs are created, a signal comes, both are swept. *)
Definition twoThenStop : list LAct :=
  (LHost <$> twoCreates) ++ [LSignal; LDrained] ++
  [LDestroy; LHost (ARun 4); LHost (ARun 4); LHost (ARun 4); LHost (ARun 4); LDestroyed] ++
  [LDestroy; LHost (ARun 5); LHost (ARun 5); LHost (ARun 5); LHost (ARun 5); LDestroyed; LBye].
Definition finalState : option (Phase * HState) := lifeExec 3 0 twoThenStop (Serving, hostStart).

Lemma exit_accounts_for_vms_witness : ∃ listed st,
  finalState = Some (Exited 0 listed, st) ∧ length listed = 2%nat ∧ v_table (h_vms st) = ∅.
Proof.
  destruct finalState as [[[| | |code listed] st]|] eqn:E; try (vm_compute in E; discriminate E).
  assert (code = 0 ∧ length listed = 2%nat ∧ h_ready st = [] ∧ h_dropped st = [] ∧ holds st = [] ∧
    h_threads st = [PRet; PRet; PWatch 0; PWatch 1; PRet; PRet] ∧ h_inserted st = listed)
    as (-> & Hlen & H1 & H2 & H3 & H4 & H5).
  { vm_compute in E. injection E as <- <- <-. vm_compute. repeat split. }
  exists listed, st. split_and!; [reflexivity|exact Hlen|].
  assert (lived 3 0 (Exited 0 listed, st)) as Hl 
    by exact (lifeExec_sound 3 0 _ _ _ (lv_start 3 0) E).
  apply (exit_accounts_for_vms 3 0 listed st Hl); [exact H1|exact H2|exact H3| |exact H5].
  intros a. rewrite H4. rewrite !elem_of_cons, elem_of_nil. intros Ha.
  repeat destruct Ha as [Ha|Ha]; try discriminate Ha. exact Ha.
Defined.

(** When the listener fails, for example because the port is taken, [main]
    exits at once: the VMs the warm pool has booted meanwhile run on. *)
Definition poolThenFail : list LAct :=
  LHost <$> [ARun 1; ARun 0; ARun 0; ALaunch 2 (demoVM "w"); ARun 2].
Theorem listen_failure_leaves_vms : ∃ st,
  lived 3 1 (Exited 1 [], st) ∧ v_table (h_vms st) !! "w" = Some 0%nat ∧ h_ready st = [0%nat] ∧
  isDone 0 st = false.
Proof.
  destruct (lived_witness 3 1 (poolThenFail ++ [LListenFails]) (Serving, Start 1 hostStart)
    (λ c, match c.1 with Exited 1 [] => true | _ => false end &&
          bool_decide (v_table (h_vms c.2) !! "w" = Some 0%nat) && bool_decide (h_ready c.2 = [0%nat]) &&
          negb (isDone 0 c.2))) as ([ph st] & Hl & H); [apply lv_pool|vm_compute; reflexivity|].
  apply andb_true_iff in H as [[[H1 H2%bool_decide_eq_true]%andb_true_iff
    H3%bool_decide_eq_true]%andb_true_iff H4%negb_true_iff].
  cbn [fst snd] in *. exists st. split_and!; [|done..].
  destruct ph as [| | |[|[]|] [|? ?]]; done.
Qed.
