(* ===== verification/Guest.v ===== *)
(** The agent inside the VM, guest-agent/cmd/microvm-guest-agent/main.go: it
    reads its token off the kernel command line, proves it to the host and
    applies the terminal geometry it is sent. *)
From S2P Require Import Prelude GoLib NetAlloc Session Config HostOS Launch Manager.
Open Scope Z_scope.

Definition hostCID : Z := 2.
Definition defaultVsockPort : Z := 5555.

(** ** The kernel command line *)

Definition tokenPrefix : string := "mvt.session_token=".
Definition portPrefix : string := "mvt.vsock_port=".

Fixpoint digitRun (s : string) : string :=
  match s with
  | String c t => if isDigit c then String c (digitRun t) else ""
  | EmptyString => ""
  end.

(** [fmt.Sscanf(s, "%d", &n)] into a uint32 on a word: the leading digits;
    [n] stays zero when there are none or they do not fit. *)
Definition sscanUint32 (s : string) : Z :=
  match digits (digitRun s) with
  | Some n => if n <? two32 then n else 0
  | None => 0
  end.

(** One word of the command line. *)
Definition cmdlineWord (tok : string) (st : string * Z) : string * Z :=
  if hasPrefix tokenPrefix tok then (trimPrefix tokenPrefix tok, st.2)
  else if hasPrefix portPrefix tok then
    let n := sscanUint32 (trimPrefix portPrefix tok) in
    if 0 <? n then (st.1, n) else st
  else st.

(** [data] is what reading /proc/cmdline returned. *)
Definition readCmdlineParams (data : option string) : string * Z :=
  match data with
  | None => ("", defaultVsockPort)
  | Some d => foldl (λ st tok, cmdlineWord tok st) ("", defaultVsockPort) (fields d)
  end.

(** ** Frames *)

(** A payload value as the JSON decoder produces it. *)
Inductive PayVal := PNum (v : float64) | PStr (s : string) | POther.

Record frame := mkFrame {
  fr_Type : string; fr_TS : string; fr_Session : string; fr_Payload : gmap string PayVal
}.

Definition numField (m : gmap string PayVal) (key : string) : Z :=
  match m !! key with Some (PNum v) => goInt v | _ => 0 end.

(** The window size of the console; [ok] is whether the device could be
    opened and set. *)
Definition applyWinsize (ok : bool) (cols rows : Z) (tty : Z * Z) : bool * (Z * Z) :=
  if (cols =? 0) || (rows =? 0) then (false, tty)
  else if ok then (true, (cols, rows)) else (false, tty).

Definition frameSize (f : frame) : Z * Z :=
  (wrapU16 (numField (fr_Payload f) "cols"), wrapU16 (numField (fr_Payload f) "rows")).

(** One round of the loop of [serve]. *)
Definition serveFrame (ok : bool) (f : frame) (tty : Z * Z) : Z * Z :=
  if bool_decide (fr_Type f = "resize") then
    let '(cols, rows) := frameSize f in (applyWinsize ok cols rows tty).2
  else tty.

(** [serve]: what goes wrong outside ([dial], [enc]), the frames read until
    the connection drops, whether the console accepts each size, and the
    console before; the result is the hello that was sent and the console
    after. *)
Definition serve (dial enc : bool) (ts hostname version sessionToken : string) (frames : list (frame * bool))
    (tty : Z * Z) : option frame * (Z * Z) :=
  if negb dial then (None, tty)
  else if negb enc then (None, tty)
  else (Some (mkFrame "hello" ts sessionToken {[ "hostname" := PStr hostname; "version" := PStr version ]}),
        foldl (λ tty fo, serveFrame fo.2 fo.1 tty) tty frames).

(** The pause of [main] before the next dial. *)
Definition nextBackoff (b : Z) : Z := if b <? 10 * second then b * 2 else b.
Definition backoffAt (n : nat) : Z := Nat.iter n nextBackoff second.

(** One round of the loop of [main]: how the connection goes and how long it
    lasts. *)
Record Round := mkRound {
  ro_dial : bool; ro_enc : bool; ro_ts : string; ro_took : Z; ro_frames : list (frame * bool)
}.

(** The loop, for as many rounds as the guest lives: the instants of the
    dials with the hello of each, and the console in the end. *)
Fixpoint agentLoop (host ver tok : string) (rounds : list Round) (backoff now : Z) (tty : Z * Z)
    : list (Z * option frame) * (Z * Z) :=
  match rounds with
  | [] => ([], tty)
  | ro :: rounds' =>
    let '(hello, tty1) := serve (ro_dial ro) (ro_enc ro) (ro_ts ro) host ver tok (ro_frames ro) tty in
    let '(dials, tty2) := agentLoop host ver tok rounds' (nextBackoff backoff) (now + ro_took ro + backoff) tty1 in
    ((now, hello) :: dials, tty2)
  end.

Definition agentMain (host ver : string) (cmdline : option string) (rounds : list Round) (now : Z) (tty : Z * Z)
    : list (Z * option frame) * (Z * Z) :=
  let '(tok, port) := readCmdlineParams cmdline in agentLoop host ver tok rounds second now tty.

Definition safePrefix (s : string) : string :=
  if (String.length s <? 4)%nat then "---" else takeStr 4 s.

(** ** What arrives at the other end *)

(** The hello as the host decodes it, and a resize message as the agent
    decodes it: JSON numbers become float64. *)
Definition asEvent (f : frame) : GuestEvent := mkGuestEvent (fr_Type f) (fr_Session f).
Definition asFrame (m : GuestMessage) : frame :=
  mkFrame (gm_Type m) "" "" ((λ z, PNum (f64 z)) <$> gm_Payload m).

Definition isParam (w : string) : bool := hasPrefix tokenPrefix w || hasPrefix portPrefix w.

Lemma boot_words tok rest :
  allChars plain tok = true →
  fields (bootArgsOf tok +:+ " " +:+ rest) =
  ["console=ttyS0"; "reboot=k"; "panic=1"; "pci=off"; "rw"; tokenPrefix +:+ tok; portPrefix +:+ "5555"]
    ++ fields rest.
Proof.
  intros Htok.
  assert (bootArgsOf tok +:+ " " +:+ rest =
    "console=ttyS0" +:+ " " +:+ "reboot=k" +:+ " " +:+ "panic=1" +:+ " " +:+ "pci=off" +:+ " " +:+
    "rw" +:+ " " +:+ (tokenPrefix +:+ tok) +:+ " " +:+ (portPrefix +:+ "5555") +:+ " " +:+ rest) as ->.
  { unfold bootArgsOf, cmdlineTokenKey, cmdlineVsockKey, tokenPrefix, portPrefix.
    change (itoa guestVsockPort) with "5555". by rewrite !str_app_assoc. }
  by rewrite !fields_word.
Qed.

Lemma cmdline_rest ws : ∀ st, (∀ w, w ∈ ws → isParam w = false) →
  foldl (λ st tok, cmdlineWord tok st) st ws = st.
Proof.
  induction ws as [|w ws IH]; intros st Hw; [done|]. cbn [foldl].
  assert (cmdlineWord w st = st) as ->.
  { specialize (Hw w ltac:(set_solver)). apply orb_false_iff in Hw as [H1 H2].
    unfold cmdlineWord. by rewrite H1, H2. }
  apply IH. set_solver.
Qed.

Lemma plain_hex s : allChars plain (hexEncode s) = true.
Proof.
  eapply allChars_impl; [|apply hexEncode_isHex]. intros c Hc.
  unfold isHexChar, plain, isSpace, between in *. lia.
Qed.

Lemma readCmdline_boot b rest :
  (∀ w, w ∈ fields rest → isParam w = false) →
  readCmdlineParams (Some (bootArgsOf (hexEncode b) +:+ " " +:+ rest)) = (hexEncode b, guestVsockPort).
Proof.
  intros Hrest. unfold readCmdlineParams. rewrite boot_words by apply plain_hex.
  rewrite foldl_app, cmdline_rest by done. cbn [foldl].
  change (cmdlineWord "rw" _) with ("", defaultVsockPort).
  unfold cmdlineWord at 2. rewrite prefix_app, trimPrefix_app. done.
Qed.

(** A uint16 survives the trip through a JSON number. *)
Lemma goInt_f64_all :
  forallb (λ a, forallb (λ b, goInt (f64 (a * 256 + b)) =? a * 256 + b) (seqZ 0 256)) (seqZ 0 256) = true.
Proof. vm_compute. reflexivity. Qed.

Lemma goInt_f64 n : 0 ≤ n < 65536 → goInt (f64 n) = n.
Proof.
  intros Hn. pose proof goInt_f64_all as H. rewrite forallb_forall in H.
  pose proof (Z.div_mod n 256 ltac:(lia)) as Hd. pose proof (Z.mod_pos_bound n 256 ltac:(lia)).
  specialize (H (n / 256) ltac:(apply list_elem_of_In, elem_of_seqZ; lia)).
  rewrite forallb_forall in H.
  specialize (H (n mod 256) ltac:(apply list_elem_of_In, elem_of_seqZ; lia)).
  apply Z.eqb_eq in H. by replace (n / 256 * 256 + n mod 256) with n in H by lia.
Qed.

Lemma frame_size cols rows :
  0 ≤ cols < 65536 → 0 ≤ rows < 65536 → frameSize (asFrame (resizeMessage cols rows)) = (cols, rows).
Proof.
  intros Hc Hr. unfold frameSize, numField, asFrame, resizeMessage. cbn [fr_Payload gm_Payload].
  rewrite !lookup_fmap. rewrite lookup_insert_eq.
  rewrite lookup_insert_ne, lookup_singleton_eq by done. cbn [fmap option_fmap option_map].
  rewrite !goInt_f64 by done. unfold wrapU16, two16. by rewrite !Z.mod_small by lia.
Qed.

Definition validSize (sz : Z * Z) : Prop := 0 < sz.1 < 65536 ∧ 0 < sz.2 < 65536.

(** C27: The handshake works end to end: whatever else the kernel puts on
    its command line, the agent reads back the token and the port the
    manager wrote into the boot arguments, and the hello it sends is the one
    the manager's listener accepts for that session. *)
Theorem handshake_end_to_end (cfg : Config) (b rest ts host ver sid : string) (g : Grant)
    (proc : Process) (now : Z) (frames : list (frame * bool)) (tty : Z * Z) :
  (∀ w, w ∈ fields rest → isParam w = false) →
  readCmdlineParams (Some (bootArgsOf (hexEncode b) +:+ " " +:+ rest)) = (hexEncode b, guestVsockPort) ∧
  ∃ hello, (serve true true ts host ver (hexEncode b) frames tty).1 = Some hello ∧
    helloAccepted (asEvent hello) (newSession cfg sid (hexEncode b) g proc now) = true.
Proof.
  intros Hrest. split; [by apply readCmdline_boot|].
  eexists. split; [reflexivity|]. unfold helloAccepted. simpl. by rewrite !bool_decide_true.
Qed.

(** The console ends with the last geometry sent: when the host writes
    resize messages of any positive sizes and the console accepts them, the
    agent leaves it at exactly the last one, and at its old size if there was
    none. *)
Theorem console_gets_last_size (sizes : list (Z * Z)) (ts host ver tok : string) (tty : Z * Z) :
  Forall validSize sizes →
  (serve true true ts host ver tok
     ((λ sz, (asFrame (resizeMessage sz.1 sz.2), true)) <$> sizes) tty).2 = default tty (last sizes).
Proof.
  intros Hs. unfold serve. cbn [negb snd]. revert tty.
  induction Hs as [|[c r] sizes [Hc Hr] Hs IH]; intros tty; [done|].
  cbn [fmap list_fmap foldl fst snd] in *.
  assert (serveFrame true (asFrame (resizeMessage c r)) tty = (c, r)) as ->.
  { unfold serveFrame. rewrite bool_decide_true by done. rewrite frame_size by lia.
    unfold applyWinsize. by replace ((c =? 0) || (r =? 0)) with false by lia. }
  rewrite IH, (last_cons (c, r)). by destruct (last sizes).
Qed.

Lemma backoff_eq n : backoffAt n = Z.min (2 ^ Z.of_nat n) 16 * second.
Proof.
  destruct n as [|[|[|[|n]]]]; [vm_compute; reflexivity..|].
  assert (backoffAt (S (S (S (S n)))) = 16 * second) as ->.
  { unfold backoffAt. induction n as [|n IH]; [reflexivity|].
    change (nextBackoff (Nat.iter (S (S (S (S n)))) nextBackoff second) = 16 * second).
    by rewrite IH. }
  assert (16 ≤ 2 ^ Z.of_nat (S (S (S (S n))))) by (apply (Z.pow_le_mono_r 2 4); lia).
  rewrite Z.min_r by lia. done.
Qed.

Lemma backoff_range n : second ≤ backoffAt n ≤ 16 * second.
Proof. rewrite backoff_eq. assert (0 < 2 ^ Z.of_nat n) by lia. unfold second. lia. Qed.

(** Redialling backs off: the pauses are one, two, four and eight seconds
    and sixteen from then on, so a guest that lost its host is back within
    sixteen seconds of the host listening again. *)
Theorem backoff_bounded (n : nat) :
  backoffAt n = Z.min (2 ^ Z.of_nat n) 16 * second ∧ second ≤ backoffAt n ≤ 16 * second.
Proof. split; [apply backoff_eq|apply backoff_range]. Qed.

(** The frames that reach the console: those of the rounds whose dial and
    hello went through. *)
Definition delivered (rounds : list Round) : list (frame * bool) :=
  rounds ≫= λ ro, if ro_dial ro && ro_enc ro then ro_frames ro else [].

Lemma agentLoop_spec host ver tok rounds : ∀ k now tty,
  let '(dials, tty') := agentLoop host ver tok rounds (backoffAt k) now tty in
  tty' = foldl (λ tty fo, serveFrame fo.2 fo.1 tty) tty (delivered rounds) ∧
  length dials = length rounds ∧ (∀ t h, dials !! 0%nat = Some (t, h) → t = now) ∧
  (∀ i t h, dials !! i = Some (t, Some h) → fr_Type h = "hello" ∧ fr_Session h = tok) ∧
  (∀ i ro t h t' h', rounds !! i = Some ro → dials !! i = Some (t, h) → dials !! S i = Some (t', h') →
     t' = t + ro_took ro + backoffAt (k + i)).
Proof.
  induction rounds as [|ro rounds IH]; intros k now tty; simpl; [done|].
  destruct (serve _ _ _ _ _ _ _ _) as [hello tty1] eqn:Es.
  change (nextBackoff (backoffAt k)) with (backoffAt (S k)).
  specialize (IH (S k) (now + ro_took ro + backoffAt k) tty1).
  destruct (agentLoop host ver tok rounds _ _ tty1) as [dials tty2].
  destruct IH as (-> & Hlen & H0 & Hh & Ht). split_and!; simpl.
  - rewrite foldl_app. f_equal. unfold serve in Es. by destruct (ro_dial ro), (ro_enc ro); simplify_eq/=.
  - by rewrite Hlen.
  - by intros t h [= <- _].
  - intros [|i] t h; simpl; [|by apply Hh]. intros [= <- ->]. unfold serve in Es.
    by destruct (ro_dial ro), (ro_enc ro); simplify_eq/=.
  - intros [|i] r t h t' h'; simpl.
    + intros [= <-] [= <- <-] Hd. rewrite (H0 _ _ Hd), Nat.add_0_r. done.
    + intros Hr Hd Hd'. rewrite (Ht i r t h t' h' Hr Hd Hd'). do 2 f_equal. lia.
Qed.

(** The agent never gives up and never forgets: it dials once per round,
    every hello it sends carries the token of its command line, it redials at
    most sixteen seconds after a connection ended or failed, and in the end
    the console has every size that arrived over any connection applied in
    order. *)
Theorem agent_redials (host ver : string) (cmdline : option string) (rounds : list Round) (now : Z) (tty : Z * Z) :
  let '(dials, tty') := agentMain host ver cmdline rounds now tty in
  length dials = length rounds ∧
  (∀ i t h, dials !! i = Some (t, Some h) → asEvent h = mkGuestEvent "hello" (readCmdlineParams cmdline).1) ∧
  (∀ i ro t h t' h', rounds !! i = Some ro → dials !! i = Some (t, h) → dials !! S i = Some (t', h') →
     t + ro_took ro + second ≤ t' ≤ t + ro_took ro + 16 * second) ∧
  tty' = foldl (λ tty fo, serveFrame fo.2 fo.1 tty) tty (delivered rounds).
Proof.
  unfold agentMain. destruct (readCmdlineParams cmdline) as [tok port].
  pose proof (agentLoop_spec host ver tok rounds 0 now tty) as H. change (backoffAt 0) with second in H.
  destruct (agentLoop host ver tok rounds second now tty) as [dials tty'].
  destruct H as (Htty & Hlen & _ & Hh & Ht). split_and!; [done| |..|done].
  - intros i t h Hi. unfold asEvent. by destruct (Hh i t h Hi) as [-> ->].
  - intros i ro t h t' h' Hr Hd Hd'. rewrite (Ht i ro t h t' h' Hr Hd Hd').
    pose proof (backoff_range i) as Hb. simpl in *. lia.
Qed.

(** ** Concrete command lines *)

Lemma handshake_end_to_end_witness :
  readCmdlineParams (Some (bootArgsOf (hexEncode "AB") +:+ " " +:+ "root=/dev/vda rw")) =
  (hexEncode "AB", guestVsockPort).
Proof.
  assert (∀ w, w ∈ fields "root=/dev/vda rw" → isParam w = false) as Hw.
  { intros w. replace (fields "root=/dev/vda rw") with ["root=/dev/vda"; "rw"] by reflexivity.
    intros [->|[->|[]%not_elem_of_nil]%elem_of_cons]%elem_of_cons; reflexivity. }
  destruct (handshake_end_to_end Defaults "AB" "root=/dev/vda rw" "" "vm" "dev" "id"
    (mkGrant AInvalid "" "" 0) (mkProcess 1 "" "" "") 0 [] (0, 0) Hw) as [H _].
  exact H.
Defined.

Lemma console_gets_last_size_witness :
  (serve true true "" "vm" "dev" "t"
     ((λ sz, (asFrame (resizeMessage sz.1 sz.2), true)) <$> [(80, 24); (200, 50)]) (0, 0)).2 = (200, 50).
Proof.
  apply (console_gets_last_size [(80, 24); (200, 50)] "" "vm" "dev" "t" (0, 0)).
  repeat constructor; simpl; lia.
Defined.
