(* ===== verification/Sha256.v ===== *)
(** HMAC-SHA256, the standard library's [hmac.New(sha256.New, key)] with
    which the login gate signs its cookies (FIPS 180-4 and RFC 2104).  Words
    are integers below 2^32, messages are byte strings. *)
From S2P Require Import Prelude GoLib.
Open Scope Z_scope.

Definition add32 (x y : Z) : Z := wrapU32 (x + y).
Definition rotr (n x : Z) : Z := Z.lor (Z.shiftr x n) (wrapU32 (Z.shiftl x (32 - n))).
Definition not32 (x : Z) : Z := Z.lxor x (two32 - 1).

Definition Ch (x y z : Z) : Z := Z.lxor (Z.land x y) (Z.land (not32 x) z).
Definition Maj (x y z : Z) : Z := Z.lxor (Z.lxor (Z.land x y) (Z.land x z)) (Z.land y z).
Definition bigSigma0 (x : Z) : Z := Z.lxor (Z.lxor (rotr 2 x) (rotr 13 x)) (rotr 22 x).
Definition bigSigma1 (x : Z) : Z := Z.lxor (Z.lxor (rotr 6 x) (rotr 11 x)) (rotr 25 x).
Definition smallSigma0 (x : Z) : Z := Z.lxor (Z.lxor (rotr 7 x) (rotr 18 x)) (Z.shiftr x 3).
Definition smallSigma1 (x : Z) : Z := Z.lxor (Z.lxor (rotr 17 x) (rotr 19 x)) (Z.shiftr x 10).

(** The constants of the standard: the first 32 bits of the fractional parts
    of the cube roots of the first 64 primes, and of the square roots of the
    first eight. *)
Definition isPrime (n : Z) : bool :=
  forallb (λ d, negb (n mod d =? 0)) (seqZ 2 (n - 2)).
Definition primes : list Z := Eval vm_compute in filter (λ n, isPrime n = true) (seqZ 2 310).

(** The greatest [r] below [2 ^ bits] with [r ^ e <= x]. *)
Fixpoint iroot (bits : nat) (e x r : Z) : Z :=
  match bits with
  | O => r
  | S b => let r' := r + 2 ^ Z.of_nat b in iroot b e x (if r' ^ e <=? x then r' else r)
  end.
Definition fracRoot (e p : Z) : Z := wrapU32 (iroot 40 e (p * 2 ^ (32 * e)) 0).

Definition roundConstants : list Z := Eval vm_compute in fracRoot 3 <$> primes.
Definition initialHash : list Z := Eval vm_compute in fracRoot 2 <$> take 8 primes.

Example constants_count : length roundConstants = 64%nat ∧ length initialHash = 8%nat.
Proof. split; reflexivity. Qed.

(** The message schedule, built backwards: the newest word first. *)
Definition nextWord (w : list Z) : Z :=
  let at_ i := default 0 (w !! i) in
  add32 (add32 (smallSigma1 (at_ 1%nat)) (at_ 6%nat)) (add32 (smallSigma0 (at_ 14%nat)) (at_ 15%nat)).
Fixpoint expand (n : nat) (w : list Z) : list Z :=
  match n with O => w | S n' => expand n' (nextWord w :: w) end.

Definition round (st : list Z) (kw : Z * Z) : list Z :=
  match st with
  | [a; b; c; d; e; f; g; h] =>
    let t1 := add32 (add32 (add32 h (bigSigma1 e)) (add32 (Ch e f g) kw.1)) kw.2 in
    let t2 := add32 (bigSigma0 a) (Maj a b c) in
    [add32 t1 t2; a; b; c; add32 d t1; e; f; g]
  | _ => st
  end.

Definition compress (st block : list Z) : list Z :=
  let w := reverse (expand 48 (reverse block)) in
  zip_with add32 st (foldl round st (zip roundConstants w)).

(** ** Bytes and words *)

Fixpoint bytesOf (s : string) : list Z :=
  match s with EmptyString => [] | String c t => code c :: bytesOf t end.
Fixpoint ofBytes (l : list Z) : string :=
  match l with [] => "" | b :: l' => String (chr b) (ofBytes l') end.

Fixpoint wordsOf (l : list Z) : list Z :=
  match l with
  | a :: b :: c :: d :: l' => (((a * 256 + b) * 256 + c) * 256 + d) :: wordsOf l'
  | _ => []
  end.
Definition wordBytes (w : Z) : list Z :=
  [w / 2 ^ 24; (w / 2 ^ 16) mod 256; (w / 2 ^ 8) mod 256; w mod 256].

(** The message, a one bit, zeros to 56 modulo 64, its length in bits. *)
Definition padded (m : list Z) : list Z :=
  let n := Z.of_nat (length m) in
  m ++ 128 :: replicate (Z.to_nat ((55 - n) mod 64)) 0
    ++ wordBytes (wrapU32 (n * 8 / two32)) ++ wordBytes (wrapU32 (n * 8)).

Fixpoint blocks (fuel : nat) (st w : list Z) : list Z :=
  match fuel with
  | O => st
  | S fuel' => match w with [] => st | _ => blocks fuel' (compress st (take 16 w)) (drop 16 w) end
  end.

Definition sha256 (m : list Z) : list Z :=
  let w := wordsOf (padded m) in
  concat (wordBytes <$> blocks (length w) initialHash w).

Definition blockSize : nat := 64.

Definition hmacKey (key : list Z) : list Z :=
  let k := if (blockSize <? length key)%nat then sha256 key else key in
  k ++ replicate (blockSize - length k) 0.

Definition hmacBytes (key msg : list Z) : list Z :=
  let k := hmacKey key in
  sha256 ((Z.lxor 0x5c <$> k) ++ sha256 ((Z.lxor 0x36 <$> k) ++ msg)).

(** [mac := hmac.New(sha256.New, key); mac.Write(msg); mac.Sum(nil)] *)
Definition hmacSHA256 (key msg : string) : string := ofBytes (hmacBytes (bytesOf key) (bytesOf msg)).

(** ** Published test vectors *)

Example sha256_abc :
  hexEncode (ofBytes (sha256 (bytesOf "abc"))) =
  "ba7816bf8f01cfea414140de5dae2223b00361a396177a9cb410ff61f20015ad".
Proof. vm_compute. reflexivity. Qed.

Example sha256_two_blocks :
  hexEncode (ofBytes (sha256 (bytesOf "abcdbcdecdefdefgefghfghighijhijkijkljklmklmnlmnomnopnopq"))) =
  "248d6a61d20638b8e5c026930c3e6039a33ce45964ff2167f6ecedd419db06c1".
Proof. vm_compute. reflexivity. Qed.

Example hmac_rfc4231_2 :
  hexEncode (hmacSHA256 "Jefe" "what do ya want for nothing?") =
  "5bdcc146bf60754e6a042426089575c75a003f089d2739839dec58b964ec3843".
Proof. vm_compute. reflexivity. Qed.
