(* ===== verification/Auth.v ===== *)
(** The login gate, control-plane/internal/auth/auth.go: the shared password,
    owner names, signed cookies, and the rate limit on login attempts. *)
From S2P Require Import Prelude GoLib Session Sha256.
Open Scope Z_scope.

Definition CookieName : string := "mvt_auth".
Definition CookieMaxAge : Z := 30 * 24 * 3600 * second.
Definition MaxNameLen : nat := 32.

Record Options := mkOptions { op_Secure : bool; op_Domain : string }.

Record rlState := mkRL { rl_tokens : float64; rl_last : Z }.

Record Gate := mkGate {
  g_password : string;
  g_cookieSecret : string;
  g_opts : Options;
  g_rlTokens : gmap string rlState
}.

Inductive AuthErr :=
| ErrReadPassword | ErrShortPassword | ErrDecodeSecret | ErrGenSecret | ErrWriteSecret
| ErrCookieInvalid.

(** ** Secrets *)

(** [loadOrCreateSecret]: the files, what [rand.Read] filled in, and whether
    the write succeeds. *)
Definition loadOrCreateSecret (rnd : option string) (wok : bool) (path : string)
    (files : gmap string string) : res AuthErr string * gmap string string :=
  let create :=
    match rnd with
    | None => (Err ErrGenSecret, files)
    | Some secret =>
      if wok then (Ok secret, <[path := hexEncode secret +:+ String (chr 10) ""]> files)
      else (Err ErrWriteSecret, files)
    end in
  match files !! path with
  | Some b =>
    let t := trimSpace b in
    if (64 <=? String.length t)%nat
    then (match hexDecode t with Some d => Ok d | None => Err ErrDecodeSecret end, files)
    else create
  | None => create
  end.

Definition NewGate (rnd : option string) (wok : bool) (passwordFile cookieSecretFile : string)
    (opts : Options) (files : gmap string string) : res AuthErr Gate * gmap string string :=
  match files !! passwordFile with
  | None => (Err ErrReadPassword, files)
  | Some b =>
    let pw := trimSpace b in
    if (String.length pw <? 8)%nat then (Err ErrShortPassword, files)
    else let '(r, files') := loadOrCreateSecret rnd wok cookieSecretFile files in
         (match r with Ok secret => Ok (mkGate pw secret opts ∅) | Err e => Err e end, files')
  end.

Definition NewGateFromSecrets (password cookieSecret : string) (opts : Options) : Gate :=
  mkGate password cookieSecret opts ∅.

(** ** Owner names *)

(** [unicode.ToLower], as far as the next step can tell: two runes outside
    ASCII have a lower case inside it, and every other rune outside ASCII
    stays outside. *)
Definition lowerRune (r : Z) : Z :=
  if between 65 90 r then r + 32
  else if r =? 304 then 105
  else if r =? 8490 then 107
  else r.

Definition slugRune (r : Z) : bool := between 97 122 r || between 48 57 r.

Definition dash : ascii := "-"%char.

(** [slugRE.ReplaceAllString(s, "-")]: every run of other runes is one dash. *)
Fixpoint dashRuns (inRun : bool) (l : list Z) : list ascii :=
  match l with
  | [] => []
  | r :: l' => if slugRune r then chr r :: dashRuns false l'
               else if inRun then dashRuns true l' else dash :: dashRuns true l'
  end.

Definition isDash (c : ascii) : bool := bool_decide (c = dash).
Definition trimDash (l : list ascii) : list ascii := trimBoth isDash l.

Definition slugChars (name : string) : list ascii :=
  let s := trimDash (dashRuns false (lowerRune <$> runes (trimSpace name))) in
  if (MaxNameLen <? length s)%nat then trimDash (take MaxNameLen s) else s.

Definition Slugify (name : string) : string := String.string_of_list_ascii (slugChars name).

Definition CheckPassword (candidate : string) (g : Gate) : bool :=
  bool_decide (candidate = g_password g).

(** ** The rate limit *)

(** [time.Duration.Seconds] *)
Definition Seconds (d : Z) : float64 :=
  fadd (f64 (Z.quot d second)) (fdiv (f64 (Z.rem d second)) (f64 second)).

(** The constant [5.0/60.0], rounded once. *)
Definition refillRate : float64 := fdiv (f64 1) (f64 12).

Definition fmin (x y : float64) : float64 := if fltb y x then y else x.

(** [Allow] on the state of one address. *)
Definition allowState (now : Z) (st : rlState) : bool * rlState :=
  let elapsed := Seconds (satS64 (now - rl_last st)) in
  let tokens := fmin (f64 5) (fadd (rl_tokens st) (fmul elapsed refillRate)) in
  if fltb tokens (f64 1) then (false, mkRL tokens now)
  else (true, mkRL (fsub tokens (f64 1)) now).

Definition Allow (now : Z) (ip : string) (g : Gate) : bool * Gate :=
  let st := default (mkRL (f64 5) now) (g_rlTokens g !! ip) in
  let '(ok, st') := allowState now st in
  (ok, mkGate (g_password g) (g_cookieSecret g) (g_opts g) (<[ip := st']> (g_rlTokens g))).

(** ** Cookies *)

Record Cookie := mkCookie {
  ck_Name : string; ck_Value : string; ck_Path : string; ck_Domain : string;
  ck_Secure : bool; ck_HttpOnly : bool; ck_SameSiteLax : bool; ck_MaxAge : Z
}.

Definition bar : ascii := "|"%char.

(** [time.Time.Unix] of an instant in nanoseconds. *)
Definition Unix (t : Z) : Z := t / second.

Definition payloadOf (owner expStr : string) : string := owner +:+ String bar expStr.

Definition sign (g : Gate) (payload : string) : string := hmacSHA256 (g_cookieSecret g) payload.

Definition cookieFor (now : Z) (owner : string) (g : Gate) : Cookie :=
  let exp := Unix (now + CookieMaxAge) in
  let payload := payloadOf owner (itoa exp) in
  {| ck_Name := CookieName;
     ck_Value := payload +:+ String bar (hexEncode (sign g payload));
     ck_Path := "/"; ck_Domain := op_Domain (g_opts g); ck_Secure := op_Secure (g_opts g);
     ck_HttpOnly := true; ck_SameSiteLax := true; ck_MaxAge := Z.quot CookieMaxAge second |}.

Definition ClearCookie (now : Z) (g : Gate) : Cookie :=
  let c := cookieFor now "" g in
  mkCookie (ck_Name c) "" (ck_Path c) (ck_Domain c) (ck_Secure c) (ck_HttpOnly c)
    (ck_SameSiteLax c) (-1).

Definition Verify (now : Z) (value : string) (g : Gate) : res AuthErr string :=
  match splitN bar 3 value with
  | [owner; expStr; sigHex] =>
    match hexDecode sigHex with
    | None => Err ErrCookieInvalid
    | Some sig =>
      if negb (bool_decide (sig = sign g (payloadOf owner expStr))) then Err ErrCookieInvalid
      else match parseInt64 expStr with
           | None => Err ErrCookieInvalid
           | Some exp =>
             if exp <? Unix now then Err ErrCookieInvalid
             else if bool_decide (owner = "") || negb (bool_decide (Slugify owner = owner))
             then Err ErrCookieInvalid
             else Ok owner
           end
    end
  | _ => Err ErrCookieInvalid
  end.

(** ** Requests *)

(** What the gate reads of a request: its cookies, the [X-Forwarded-For]
    header and the peer's address with its port. *)
Record HReq := mkHReq { hr_Cookies : list (string * string); hr_XFF : string; hr_RemoteAddr : string }.

(** [r.Cookie(name)]: the first of that name. *)
Fixpoint cookieNamed (name : string) (l : list (string * string)) : option string :=
  match l with
  | [] => None
  | (n, v) :: l' => if bool_decide (n = name) then Some v else cookieNamed name l'
  end.

Definition OwnerFromRequest (now : Z) (r : HReq) (g : Gate) : option string :=
  match cookieNamed CookieName (hr_Cookies r) with
  | None => None
  | Some v => match Verify now v g with Ok owner => Some owner | Err _ => None end
  end.

(** [Middleware]: the handler behind it runs with the owner in its context. *)
Definition Middleware {A} (now : Z) (deny : A) (next : string → A) (r : HReq) (g : Gate) : A :=
  match OwnerFromRequest now r g with None => deny | Some owner => next owner end.

Definition ClientIP (r : HReq) : string :=
  let v := hr_XFF r in
  if bool_decide (v = "") then hr_RemoteAddr r
  else match cutByte ","%char v with
       | Some (x, _) => trimSpace (if bool_decide (x = "") then v else x)
       | None => trimSpace v
       end.

#[local] Opaque sign.

(** ** Trimming *)

Section Trim.
Context {A : Type} (p : A → bool).

Lemma dropWhile_suffix (l : list A) : ∃ pre, l = pre ++ dropWhile p l.
Proof.
  induction l as [|x l [pre IH]]; [by exists []|]. simpl. destruct (p x); [|by exists []].
  exists (x :: pre). simpl. by rewrite <- IH.
Qed.

Lemma dropWhile_head (l : list A) x : head (dropWhile p l) = Some x → p x = false.
Proof.
  induction l as [|y l IH]; [done|]. simpl. destruct (p y) eqn:E; [done|]. by intros [= <-].
Qed.

Lemma dropWhile_id (l : list A) : (∀ x, head l = Some x → p x = false) → dropWhile p l = l.
Proof. destruct l as [|x l]; [done|]. intros H. simpl. by rewrite (H x eq_refl). Qed.

Lemma trimBoth_infix (l : list A) : ∃ pre post, l = pre ++ trimBoth p l ++ post.
Proof.
  destruct (dropWhile_suffix l) as [pre Hpre].
  destruct (dropWhile_suffix (reverse (dropWhile p l))) as [post Hpost].
  exists pre, (reverse post). unfold trimBoth. rewrite <- reverse_app, <- Hpost, reverse_involutive.
  done.
Qed.

Lemma trimBoth_last (l : list A) x : last (trimBoth p l) = Some x → p x = false.
Proof. unfold trimBoth. rewrite last_reverse. apply dropWhile_head. Qed.

Lemma trimBoth_head (l : list A) x : head (trimBoth p l) = Some x → p x = false.
Proof.
  intros Hh. unfold trimBoth in *. set (m := dropWhile p l) in *.
  destruct (dropWhile_suffix (reverse m)) as [post Hpost].
  assert (m = reverse (dropWhile p (reverse m)) ++ reverse post) as Hm
    by (rewrite <- reverse_app, <- Hpost; by rewrite reverse_involutive).
  apply (dropWhile_head l). fold m. rewrite Hm.
  destruct (reverse (dropWhile p (reverse m))); [done|exact Hh].
Qed.

Lemma trimBoth_id (l : list A) :
  (∀ x, head l = Some x → p x = false) → (∀ x, last l = Some x → p x = false) → trimBoth p l = l.
Proof.
  intros Hh Hl. unfold trimBoth. rewrite (dropWhile_id l Hh), dropWhile_id.
  - apply reverse_involutive.
  - intros x. rewrite head_reverse. apply Hl.
Qed.
End Trim.

(** ** Slugs *)

Definition slugChar (c : ascii) : bool := slugRune (code c) || isDash c.

(** The normal form: letters and digits, single dashes between them. *)
Record slugOK (l : list ascii) : Prop := {
  so_chars : Forall (λ c, slugChar c = true) l;
  so_single : ∀ x y, l ≠ x ++ dash :: dash :: y;
  so_head : ∀ c, head l = Some c → isDash c = false;
  so_last : ∀ c, last l = Some c → isDash c = false
}.

Lemma slugChar_code c : slugChar c = true →
  code c < 128 ∧ isSpace (code c) = false ∧ lowerRune (code c) = code c ∧
  (slugRune (code c) = false → c = dash).
Proof.
  unfold slugChar, isDash. intros H. assert (slugRune (code c) = true ∨ c = dash) as [Hs| ->].
  { apply orb_true_iff in H as [?|?%bool_decide_eq_true]; auto. }
  - rewrite Hs. unfold slugRune, between in Hs. unfold isSpace, lowerRune, between.
    split_and!; [lia|lia| |done]. replace ((65 <=? code c) && (code c <=? 90)) with false by lia.
    replace (code c =? 304) with false by lia. by replace (code c =? 8490) with false by lia.
  - done.
Qed.

Lemma isDash_true c : isDash c = true ↔ c = dash.
Proof. unfold isDash. apply bool_decide_eq_true. Qed.

Lemma slugRune_chr r : slugRune r = true → slugChar (chr r) = true ∧ isDash (chr r) = false.
Proof.
  intros H. assert (code (chr r) = r) as Hc by (apply code_chr; unfold slugRune, between in H; lia).
  unfold slugChar. rewrite Hc, H. split; [done|]. apply not_true_iff_false. rewrite isDash_true.
  intros Hd. rewrite Hd in Hc. change (code dash) with 45 in Hc. subst r. done.
Qed.

Lemma dashRuns_spec l : ∀ b,
  Forall (λ c, slugChar c = true) (dashRuns b l) ∧
  (∀ x y, dashRuns b l ≠ x ++ dash :: dash :: y) ∧
  (b = true → ∀ c, head (dashRuns b l) = Some c → isDash c = false).
Proof.
  induction l as [|r l IH]; intros b; simpl.
  - split_and!; [constructor|by intros [|??] ?|done].
  - destruct (slugRune r) eqn:Hr.
    + apply slugRune_chr in Hr as [Hr1 Hr2]. destruct (IH false) as (H1 & H2 & _). split_and!.
      * by constructor.
      * intros [|c x] y; simpl; [|intros [= _ ?]; by eapply H2].
        intros [= He _]. rewrite He in Hr2. done.
      * by intros _ c [= <-].
    + destruct (IH true) as (H1 & H2 & H3). destruct b; [by split_and!|]. split_and!.
      * by constructor.
      * intros [|c x] y; simpl; [|intros [= _ ?]; by eapply H2].
        intros [= He]. specialize (H3 eq_refl dash). rewrite He in H3. by discriminate H3.
      * done.
Qed.

Lemma slugOK_trim l m :
  Forall (λ c, slugChar c = true) l → (∀ x y, l ≠ x ++ dash :: dash :: y) →
  (∃ pre post, l = pre ++ m ++ post) → slugOK (trimDash m).
Proof.
  intros Hc Hs (pre & post & Hl).
  destruct (trimBoth_infix isDash m) as (pre' & post' & Hm). fold (trimDash m) in Hm.
  assert (l = (pre ++ pre') ++ trimDash m ++ (post' ++ post)) as Hl'
    by (rewrite Hl, Hm at 1; by rewrite <- !app_assoc).
  split.
  - rewrite Hl' in Hc. by apply Forall_app in Hc as [_ [Hc _]%Forall_app].
  - intros x y Hxy. apply (Hs ((pre ++ pre') ++ x) (y ++ post' ++ post)). rewrite Hl', Hxy.
    by rewrite <- !app_assoc.
  - apply trimBoth_head.
  - apply trimBoth_last.
Qed.

Lemma slugChars_ok name : slugOK (slugChars name) ∧ (length (slugChars name) ≤ MaxNameLen)%nat.
Proof.
  unfold slugChars. set (d := dashRuns false _).
  destruct (dashRuns_spec (lowerRune <$> runes (trimSpace name)) false) as (H1 & H2 & _). fold d in H1, H2.
  destruct (Nat.ltb_spec MaxNameLen (length (trimDash d))) as [Hl|Hl].
  - split.
    + apply (slugOK_trim d); [done|done|].
      destruct (trimBoth_infix isDash d) as (pre & post & Hd). fold (trimDash d) in Hd.
      exists pre, (drop MaxNameLen (trimDash d) ++ post).
      by rewrite (app_assoc (take _ _)), take_drop.
    + destruct (trimBoth_infix isDash (take MaxNameLen (trimDash d))) as (pre & post & Hd).
      fold (trimDash (take MaxNameLen (trimDash d))) in Hd.
      apply (f_equal length) in Hd. rewrite !length_app, length_take in Hd. lia.
  - split; [|lia]. apply (slugOK_trim d); [done|done|]. exists [], []. by rewrite app_nil_r.
Qed.

Lemma segs_slug l :
  Forall (λ c, slugChar c = true) l →
  segs (String.string_of_list_ascii l) = (λ c, (code c, String c "")) <$> l.
Proof.
  induction 1 as [|c l Hc _ IH]; [done|]. apply slugChar_code in Hc as (Hc & _).
  cbn [String.string_of_list_ascii fmap list_fmap]. rewrite segs_cons_ascii by done. by rewrite <- IH.
Qed.

Lemma dashRuns_id l : ∀ b, slugOK l ∨ (Forall (λ c, slugChar c = true) l ∧
    (∀ x y, l ≠ x ++ dash :: dash :: y)) →
  (b = true → ∀ c, head l = Some c → isDash c = false) → dashRuns b (code <$> l) = l.
Proof.
  intros b Hl Hb. assert (Forall (λ c, slugChar c = true) l ∧ (∀ x y, l ≠ x ++ dash :: dash :: y))
    as [Hc Hs] by (destruct Hl as [[]|]; auto). clear Hl. revert b Hb.
  induction l as [|c l IH]; intros b Hb; [done|]. apply Forall_cons in Hc as [Hc Hcl].
  apply slugChar_code in Hc as (_ & _ & _ & Hd).
  assert (∀ x y, l ≠ x ++ dash :: dash :: y) as Hs'.
  { intros x y ->. by apply (Hs (c :: x) y). }
  cbn [fmap list_fmap dashRuns]. destruct (slugRune (code c)).
  - rewrite chr_code. f_equal. by apply IH.
  - specialize (Hd eq_refl) as ->. destruct b; [by discriminate (Hb eq_refl dash)|]. f_equal.
    apply IH; [done|done|]. intros _ e He. apply not_true_iff_false. rewrite isDash_true. intros ->.
    destruct l as [|e l]; simplify_eq/=. by apply (Hs [] l).
Qed.

Lemma slugChars_id l :
  slugOK l → (length l ≤ MaxNameLen)%nat → slugChars (String.string_of_list_ascii l) = l.
Proof.
  intros Hl Hn. pose proof (so_chars l Hl) as Hc. unfold slugChars, runes, trimSpace.
  rewrite (segs_slug l Hc).
  rewrite trimBoth_id.
  - assert (concats (((λ c, (code c, String c "")) <$> l).*2) = String.string_of_list_ascii l) as ->.
    { rewrite <- (segs_slug l Hc). apply concats_segs. }
    rewrite (segs_slug l Hc), <- !list_fmap_compose.
    assert (lowerRune ∘ fst ∘ (λ c, (code c, String c "")) <$> l = code <$> l) as Hlow.
    { apply list_fmap_ext. intros i c Hi. simpl. eapply Forall_lookup_1 in Hc; [|done].
      by apply slugChar_code in Hc as (_ & _ & ? & _). }
    rewrite Hlow, dashRuns_id; [|by left|done]. unfold trimDash.
    rewrite trimBoth_id by (destruct Hl; done).
    by replace (MaxNameLen <? length l)%nat with false by (symmetry; apply Nat.ltb_ge; lia).
  - intros x Hx. destruct l as [|c l]; simplify_eq/=. inversion Hc as [|?? Hc1]; subst.
    by apply slugChar_code in Hc1 as (_ & ? & _).
  - intros x Hx. rewrite fmap_last in Hx. destruct (last l) as [c|] eqn:E; simplify_eq/=.
    apply last_Some_elem_of in E. rewrite Forall_forall in Hc. apply Hc in E.
    by apply slugChar_code in E as (_ & ? & _).
Qed.

Lemma Slugify_idem name : Slugify (Slugify name) = Slugify name.
Proof.
  unfold Slugify. f_equal. destruct (slugChars_ok name). by apply slugChars_id.
Qed.

(** ** Payloads *)

Definition noBar (s : string) : Prop := allChars (λ d, negb (bool_decide (d = bar))) s = true.

Lemma cutByte_noBar s x y : cutByte bar s = Some (x, y) → noBar x.
Proof.
  unfold noBar. revert x y. induction s as [|d s IH]; intros x y; simpl; [done|].
  case_bool_decide as Hd; [by intros [= <- <-]|].
  destruct (cutByte bar s) as [[x' y']|]; [|done]. intros [= <- <-]. simpl.
  rewrite bool_decide_false by done. simpl. by eapply IH.
Qed.

Lemma split_payload o e h :
  noBar o → noBar e → splitN bar 3 (payloadOf o e +:+ String bar h) = [o; e; h].
Proof.
  intros Ho He. unfold payloadOf. rewrite str_app_assoc, str_app_cons. cbn [splitN].
  by rewrite (cutByte_app _ _ _ Ho), (cutByte_app _ _ _ He).
Qed.

Lemma split_payload_inv v o e h :
  splitN bar 3 v = [o; e; h] → v = payloadOf o e +:+ String bar h ∧ noBar o ∧ noBar e.
Proof.
  cbn [splitN]. destruct (cutByte bar v) as [[x y]|] eqn:E1; [|done].
  destruct (cutByte bar y) as [[x' y']|] eqn:E2; [|done]. intros [= <- <- <-].
  pose proof (cutByte_Some _ _ _ _ E1) as ->. pose proof (cutByte_Some _ _ _ _ E2) as ->.
  split; [|split; by eapply cutByte_noBar]. unfold payloadOf. by rewrite str_app_assoc, str_app_cons.
Qed.

Lemma payload_inj o e o' e' :
  noBar o → noBar o' → payloadOf o e = payloadOf o' e' → o = o' ∧ e = e'.
Proof.
  intros Ho Ho' Heq. apply (f_equal (cutByte bar)) in Heq. unfold payloadOf in Heq.
  rewrite (cutByte_app _ _ _ Ho), (cutByte_app _ _ _ Ho') in Heq. by simplify_eq.
Qed.

Lemma allChars_list P l : allChars P (String.string_of_list_ascii l) = forallb P l.
Proof. induction l as [|c l IH]; [done|]. simpl. by rewrite IH. Qed.

Lemma Slugify_chars name : allChars slugChar (Slugify name) = true.
Proof.
  unfold Slugify. rewrite allChars_list. apply forallb_forall. intros c Hc%list_elem_of_In.
  destruct (slugChars_ok name) as [[H _ _ _] _]. rewrite Forall_forall in H. by apply H.
Qed.

Lemma Slugify_noBar name : noBar (Slugify name).
Proof.
  eapply allChars_impl; [|apply Slugify_chars]. intros c Hc. rewrite bool_decide_false; [done|].
  by intros ->.
Qed.

Lemma itoa_noBar z : 0 ≤ z → noBar (itoa z).
Proof.
  intros Hz. eapply allChars_impl; [|by apply itoa_digits]. intros c Hc.
  rewrite bool_decide_false; [done|]. by intros ->.
Qed.

Lemma expiry_eq now : Unix (now + CookieMaxAge) = Unix now + 2592000.
Proof.
  unfold Unix, CookieMaxAge. replace (30 * 24 * 3600 * second) with (2592000 * second) by done.
  by rewrite Z_div_plus_full by done.
Qed.

Lemma expiry_range now : 0 ≤ now < two63 → 0 ≤ Unix now + 2592000 ∧ int64_ok (Unix now + 2592000).
Proof.
  intros. unfold Unix, int64_ok, two63, second in *.
  assert (0 ≤ now / 1000000000 ≤ now) by (split; [apply Z.div_pos|apply Z.div_le_upper_bound]; lia).
  assert (now / 1000000000 < 2 ^ 34) by (apply Z.div_lt_upper_bound; lia). lia.
Qed.

(** ** The rate limit, one address at a time *)

Fixpoint attempts (calls : list (Z * string)) (g : Gate) : list (string * bool) * Gate :=
  match calls with
  | [] => ([], g)
  | (now, ip) :: calls' =>
    let '(ok, g1) := Allow now ip g in
    let '(oks, g2) := attempts calls' g1 in ((ip, ok) :: oks, g2)
  end.

Definition answersTo (ip : string) (l : list (string * bool)) : list bool :=
  (filter (λ x : string * bool, x.1 = ip) l).*2.
Definition timesOf (ip : string) (calls : list (Z * string)) : list Z :=
  (filter (λ x : Z * string, x.2 = ip) calls).*1.

Fixpoint ownAnswers (times : list Z) (st : option rlState) : list bool :=
  match times with
  | [] => []
  | now :: times' =>
    let '(ok, st') := allowState now (default (mkRL (f64 5) now) st) in
    ok :: ownAnswers times' (Some st')
  end.

Lemma attempts_own ip calls : ∀ g,
  answersTo ip (attempts calls g).1 = ownAnswers (timesOf ip calls) (g_rlTokens g !! ip).
Proof.
  induction calls as [|[now i] calls IH]; intros g; [done|]. cbn [attempts]. unfold Allow.
  destruct (allowState now _) as [ok st'] eqn:Est.
  specialize (IH (mkGate (g_password g) (g_cookieSecret g) (g_opts g) (<[i:=st']> (g_rlTokens g)))).
  destruct (attempts calls _) as [oks g2]. cbn [fst g_rlTokens] in *.
  unfold answersTo, timesOf in *. rewrite !filter_cons. cbn [fst snd].
  destruct (decide (i = ip)) as [->|Hne].
  - rewrite lookup_insert_eq in IH. cbn [fmap list_fmap ownAnswers snd fst]. rewrite Est. by f_equal.
  - by rewrite lookup_insert_ne in IH.
Qed.

(** Five attempts at one instant empty a full bucket exactly. *)
Lemma allow_instant now k :
  (k ≤ 5)%nat →
  allowState now (mkRL (f64 (Z.of_nat k)) now) =
    (match k with O => false | S _ => true end, mkRL (f64 (Z.of_nat (pred k))) now).
Proof.
  intros Hk. unfold allowState. cbn [rl_last rl_tokens]. rewrite Z.sub_diag.
  destruct k as [|[|[|[|[|[|k]]]]]]; [vm_compute; reflexivity..|lia].
Qed.

Lemma own_instant now n : ∀ k, (k ≤ 5)%nat →
  ownAnswers (replicate n now) (Some (mkRL (f64 (Z.of_nat k)) now)) =
  (λ i, (i <? k)%nat) <$> seq 0 n.
Proof.
  induction n as [|n IH]; intros k Hk; [done|]. cbn [replicate ownAnswers default].
  unfold default, id. rewrite allow_instant by done. rewrite IH by lia.
  cbn [seq fmap list_fmap]. replace (0 <? k)%nat with (match k with O => false | S _ => true end)
    by (by destruct k). f_equal.
  rewrite <- (fmap_S_seq 0 n), <- list_fmap_compose. apply list_fmap_ext. intros i j _. simpl.
  destruct k; simpl; [by destruct (j <? 0)%nat eqn:E|done].
Qed.

(** ** The secret file *)

Lemma segs_nl : segs (String (chr 10) "") = [(10, String (chr 10) "")].
Proof. done. Qed.

Lemma trimSpace_line s :
  allChars plain s = true → s ≠ "" → trimSpace (s +:+ String (chr 10) "") = s.
Proof.
  intros Hs Hne. unfold trimSpace. rewrite segs_app_ascii by (by apply plain_ascii).
  rewrite segs_nl. set (l := segs s).
  assert (Forall (λ x : Z * string, isSpace x.1 = false) l) as Hl.
  { subst l. clear Hne. induction s as [|c s IH]; [constructor|].
    apply andb_true_iff in Hs as [Hc Hs]. unfold plain in Hc.
    apply andb_true_iff in Hc as [Hc1 Hc2%negb_true_iff].
    rewrite segs_cons_ascii by lia. constructor; [done|auto]. }
  assert (l ≠ []) as Hlne.
  { intros Hl0. apply Hne. rewrite <- (concats_segs s). fold l. by rewrite Hl0. }
  unfold trimBoth. rewrite (dropWhile_id _ (l ++ _)).
  - rewrite reverse_snoc. cbn [dropWhile fst]. replace (isSpace 10) with true by done.
    rewrite (dropWhile_id _ (reverse l)).
    + rewrite reverse_involutive. apply concats_segs.
    + intros x Hx. rewrite head_reverse in Hx. apply last_Some_elem_of in Hx.
      rewrite Forall_forall in Hl. by apply Hl.
  - intros x Hx. destruct l as [|y l]; [done|]. simplify_eq/=. by inversion Hl.
Qed.

Lemma hex_plain s : allChars plain (hexEncode s) = true.
Proof.
  eapply allChars_impl; [|apply hexEncode_isHex]. intros c Hc.
  unfold isHexChar, plain, isSpace, between in *. lia.
Qed.

Lemma length_hexEncode s : String.length (hexEncode s) = (2 * String.length s)%nat.
Proof. induction s as [|c s IH]; [done|]. cbn [hexEncode]. rewrite str_length_app, IH. simpl. lia. Qed.

Lemma secret_persists rnd wok path files secret files' :
  (∀ b, rnd = Some b → String.length b = 32%nat) →
  loadOrCreateSecret rnd wok path files = (Ok secret, files') →
  (∀ f, f ≠ path → files' !! f = files !! f) ∧
  ∀ rnd' wok', loadOrCreateSecret rnd' wok' path files' = (Ok secret, files').
Proof.
  intros Hrnd. unfold loadOrCreateSecret.
  set (create := match rnd with None => _ | Some _ => _ end).
  assert (create = (Ok secret, files') → (∀ f, f ≠ path → files' !! f = files !! f) ∧
    files' !! path = Some (hexEncode secret +:+ String (chr 10) "") ∧ String.length secret = 32%nat)
    as Hcreate.
  { subst create. destruct rnd as [b|]; [|done]. destruct wok; [|done]. intros [= <- <-].
    split_and!; [by intros; rewrite lookup_insert_ne|by rewrite lookup_insert_eq|by apply Hrnd]. }
  assert (create = (Ok secret, files') → (∀ f, f ≠ path → files' !! f = files !! f) ∧
    ∀ rnd' wok', loadOrCreateSecret rnd' wok' path files' = (Ok secret, files')) as Hdone.
  { intros (H1 & H2 & H3)%Hcreate. split; [done|]. intros rnd' wok'. unfold loadOrCreateSecret.
    pose proof (length_hexEncode secret) as Hlen. rewrite H3 in Hlen.
    rewrite H2, trimSpace_line; [|apply hex_plain|intros Hn; by rewrite Hn in Hlen].
    rewrite Hlen. simpl. by rewrite hexDecode_hexEncode. }
  clearbody create. destruct (files !! path) as [b|] eqn:Ef; [|exact Hdone].
  destruct (64 <=? String.length (trimSpace b))%nat eqn:El; [|exact Hdone].
  destruct (hexDecode (trimSpace b)) as [d|] eqn:Ed; [|done]. intros [= -> <-]. split; [done|].
  intros rnd' wok'. by rewrite Ef, El, Ed.
Qed.

Lemma Verify_cookie (g : Gate) (name : string) (now later : Z) :
  Slugify name ≠ "" → 0 ≤ now < two63 →
  Verify later (ck_Value (cookieFor now (Slugify name) g)) g =
    if Unix later <=? Unix now + 30 * 24 * 3600 then Ok (Slugify name) else Err ErrCookieInvalid.
Proof.
  intros Hne Hnow. destruct (expiry_range now Hnow) as [Hpos Hok].
  unfold Verify, cookieFor. cbn [ck_Value]. rewrite expiry_eq.
  rewrite split_payload; [|apply Slugify_noBar|by apply itoa_noBar].
  rewrite hexDecode_hexEncode, bool_decide_true, parseInt64_itoa by done. cbn [negb].
  change (30 * 24 * 3600) with 2592000. rewrite (bool_decide_false (Slugify name = "")) by done.
  rewrite Slugify_idem, bool_decide_true by done.
  destruct (Z.ltb_spec (Unix now + 2592000) (Unix later)), (Z.leb_spec (Unix later) (Unix now + 2592000));
    done || lia.
Qed.

(** C19: An owner name is normal and safe to put into a cookie: it has at
    most 32 characters, all of them lower-case letters, digits and dashes,
    so never the separator of the cookie, and normalising it again does not
    change it, which is what [Verify] checks. *)
Theorem slug_normal_form (name : string) :
  Slugify (Slugify name) = Slugify name ∧
  allChars slugChar (Slugify name) = true ∧ noBar (Slugify name) ∧
  (String.length (Slugify name) ≤ MaxNameLen)%nat.
Proof.
  split_and!; [apply Slugify_idem|apply Slugify_chars|apply Slugify_noBar|].
  destruct (slugChars_ok name) as [_ Hn]. unfold Slugify.
  enough (∀ l, String.length (String.string_of_list_ascii l) = length l) as -> by done.
  induction l as [|c l IH]; simpl; congruence.
Qed.

(** C18: The cookie a login sets is accepted as the login's owner for exactly
    thirty days, to the second, and refused after that, whatever the secret. *)
Theorem cookie_roundtrip (g : Gate) (name : string) (now later : Z) :
  Slugify name ≠ "" → 0 ≤ now < two63 →
  Verify later (ck_Value (cookieFor now (Slugify name) g)) g =
    if Unix later <=? Unix now + 30 * 24 * 3600 then Ok (Slugify name) else Err ErrCookieInvalid.
Proof. apply Verify_cookie. Qed.

(** Only what the gate signed is accepted: an accepted value is an owner
    name in normal form, an expiry that has not passed and the signature of
    exactly these two; and a value that carries the signature of a cookie the
    gate issued names that cookie's owner and expiry, unless two different
    payloads have the same HMAC. *)
Theorem cookie_names_signer (g : Gate) (now : Z) (v owner : string) :
  Verify now v g = Ok owner →
  ∃ expStr exp sigHex,
    v = payloadOf owner expStr +:+ String bar sigHex ∧
    owner ≠ "" ∧ Slugify owner = owner ∧
    parseInt64 expStr = Some exp ∧ Unix now ≤ exp ∧
    hexDecode sigHex = Some (sign g (payloadOf owner expStr)) ∧
    ∀ now0 name0, let p0 := payloadOf (Slugify name0) (itoa (Unix (now0 + CookieMaxAge))) in
      hexDecode sigHex = Some (sign g p0) →
      (owner = Slugify name0 ∧ expStr = itoa (Unix (now0 + CookieMaxAge))) ∨
      ∃ p, p ≠ p0 ∧ sign g p = sign g p0.
Proof.
  unfold Verify. destruct (splitN bar 3 v) as [|o [|e [|h [|]]]] eqn:Es; try done.
  apply split_payload_inv in Es as (-> & Ho & He).
  destruct (hexDecode h) as [sig|] eqn:Eh; [|done]. case_bool_decide as Hsig; [|done]. simpl.
  destruct (parseInt64 e) as [exp|] eqn:Ep; [|done].
  destruct (Z.ltb_spec exp (Unix now)); [done|]. case_bool_decide as Hne; [done|].
  case_bool_decide as Hslug; [|done]. simpl. intros [= <-]. exists e, exp, h.
  split_and!; try done; [by rewrite Eh, Hsig|]. intros now0 name0. set (p0 := payloadOf _ _).
  intros Hs.
  destruct (decide (payloadOf o e = p0)) as [Hp|Hp].
  - left. apply payload_inj in Hp as [-> ->]; [done|done|apply Slugify_noBar].
  - right. exists (payloadOf o e). split; [done|]. congruence.
Qed.

(** Logins survive a restart: the gate a daemon builds from the files an
    earlier start left behind has the same password and the same signing
    secret, also when that start generated the secret, so it accepts the
    same cookies; and a gate never has a password under eight bytes. *)
Theorem gate_survives_restart (rnd rnd' : option string) (wok wok' : bool) (pwFile secretFile : string)
    (opts : Options) (files files' : gmap string string) (g : Gate) :
  (∀ b, rnd = Some b → String.length b = 32%nat) → pwFile ≠ secretFile →
  NewGate rnd wok pwFile secretFile opts files = (Ok g, files') →
  (8 ≤ String.length (g_password g))%nat ∧
  NewGate rnd' wok' pwFile secretFile opts files' = (Ok g, files').
Proof.
  intros Hrnd Hpath. unfold NewGate. destruct (files !! pwFile) as [b|] eqn:Eb; [|done].
  destruct (String.length (trimSpace b) <? 8)%nat eqn:El; [done|].
  destruct (loadOrCreateSecret rnd wok secretFile files) as [[secret|] fs] eqn:Es; [|done].
  intros [= <- <-]. apply secret_persists in Es as [Hother Hagain]; [|done].
  rewrite Hother, Eb, El, Hagain by done. apply Nat.ltb_ge in El. done.
Qed.


(** The limit is kept per connection, not per address, when no proxy sets
    [X-Forwarded-For]: the key is then the peer's address with its port, so
    guesses from different ports of one host are never slowed down. *)
Theorem login_limit_is_per_port (g : Gate) (now : Z) (addrs : list string) :
  NoDup addrs → (∀ a, a ∈ addrs → g_rlTokens g !! a = None) →
  (attempts ((λ a, (now, ClientIP (mkHReq [] "" a))) <$> addrs) g).1 = (λ a, (a, true)) <$> addrs.
Proof.
  revert g. induction addrs as [|a addrs IH]; intros g Hnd Hf; [done|].
  apply NoDup_cons in Hnd as [Ha Hnd]. cbn [fmap list_fmap attempts].
  change (ClientIP (mkHReq [] "" a)) with a. unfold Allow. rewrite Hf by set_solver.
  cbn [default]. unfold default, id. pose proof (allow_instant now 5 ltac:(lia)) as Hst.
  change (Z.of_nat 5) with 5 in Hst. rewrite Hst.
  set (g1 := mkGate _ _ _ _). specialize (IH g1 Hnd). destruct (attempts _ g1) as [oks g2].
  simpl in *. f_equal. apply IH. intros b Hb. subst g1. simpl.
  rewrite lookup_insert_ne by set_solver. apply Hf. set_solver.
Qed.

(** ** Concrete gates *)

Definition demoGate : Gate := NewGateFromSecrets "correct horse" "k" (mkOptions true "").

Lemma cookie_roundtrip_witness :
  Verify (60 * second) (ck_Value (cookieFor 0 (Slugify "Ada L.") demoGate)) demoGate = Ok "ada-l".
Proof.
  rewrite (cookie_roundtrip demoGate "Ada L." 0 (60 * second)).
  - vm_compute. reflexivity.
  - vm_compute. discriminate.
  - unfold two63. lia.
Defined.

Lemma cookie_names_signer_witness :
  ∃ expStr sigHex, ck_Value (cookieFor 0 "bob" demoGate) = payloadOf "bob" expStr +:+ String bar sigHex.
Proof.
  destruct (cookie_names_signer demoGate 0 (ck_Value (cookieFor 0 "bob" demoGate)) "bob"
    ltac:(vm_compute; reflexivity)) as (e & x & h & Hv & _).
  exists e, h. exact Hv.
Defined.

Definition demoFiles : gmap string string :=
  {[ "pw" := "correct horse" +:+ String (chr 10) "" ]}.
Definition demoRandom : string := "0123456789abcdef0123456789abcdef".

Lemma gate_survives_restart_witness :
  let fs := (NewGate (Some demoRandom) true "pw" "secret" (mkOptions true "") demoFiles).2 in
  (NewGate None false "pw" "secret" (mkOptions true "") fs).1 =
  Ok (mkGate "correct horse" demoRandom (mkOptions true "") ∅).
Proof.
  intros fs.
  destruct (gate_survives_restart (Some demoRandom) None true false "pw" "secret" (mkOptions true "")
    demoFiles fs (mkGate "correct horse" demoRandom (mkOptions true "") ∅)) as [_ H].
  - intros b [= <-]. reflexivity.
  - discriminate.
  - vm_compute. reflexivity.
  - rewrite H. reflexivity.
Defined.


(** Twelve seconds after the bucket ran dry one more attempt is let through. *)
Example refill_after_twelve_seconds :
  answersTo "a" (attempts (replicate 6 (0, "a") ++ [(11 * second, "a"); (12 * second, "a"); (12 * second, "a")])
                   demoGate).1 = [true; true; true; true; true; false; false; true; false].
Proof. vm_compute. reflexivity. Qed.
