(* ===== verification/Pages.v ===== *)
(** The login pages, control-plane/internal/api/pages.go, over the gate of
    Auth.v.  A page is the name of its template with the fields it shows. *)
From S2P Require Import Prelude GoLib Session Sha256 Auth.
Open Scope Z_scope.

Definition StatusOK : Z := 200.
Definition StatusNoContent : Z := 204.
Definition StatusSeeOther : Z := 303.
Definition StatusBadRequest : Z := 400.
Definition StatusUnauthorized : Z := 401.
Definition StatusTooManyRequests : Z := 429.

Inductive PageBody :=
| PNone
| PLogin (name err : string)            (* the login form *)
| PTerminal (owner : string)            (* the terminal page *)
| PError (code message : string)        (* an APIError document *)
| PText (s : string).                   (* http.Error *)

Record PageResp := mkPageResp {
  pg_Status : Z; pg_Cookie : option Cookie; pg_Location : option string; pg_Body : PageBody
}.

Definition page (status : Z) (b : PageBody) : PageResp := mkPageResp status None None b.
Definition redirect (to : string) : PageResp := mkPageResp StatusSeeOther None (Some to) PNone.

(** What is posted: the content type decides between JSON and a form, and
    either may fail to parse. *)
Record LoginReq := mkLoginReq {
  lg_http : HReq; lg_ContentType : string; lg_decoded : option (string * string)
}.

Definition wantsJSON (r : LoginReq) : bool := hasPrefix "application/json" (lg_ContentType r).

Definition loginFail (r : LoginReq) (name : string) (status : Z) (code msg : string) : PageResp :=
  if wantsJSON r then page status (PError code msg) else page status (PLogin name msg).

(** [SubmitLogin]; [now] is the clock. *)
Definition SubmitLogin (now : Z) (r : LoginReq) (g : Gate) : PageResp * Gate :=
  match lg_decoded r with
  | None =>
    (if wantsJSON r then page StatusBadRequest (PError "bad_request" "invalid json")
     else page StatusBadRequest (PText "bad form"), g)
  | Some (name, password) =>
    let '(ok, g1) := Allow now (ClientIP (lg_http r)) g in
    if negb ok then
      (loginFail r name StatusTooManyRequests "rate_limited"
         "Too many attempts. Wait a minute and try again.", g1)
    else
      let owner := Slugify name in
      if bool_decide (owner = "") then
        (loginFail r name StatusBadRequest "bad_request"
           "Pick a name with at least one letter or digit.", g1)
      else if negb (CheckPassword password g1) then
        (loginFail r name StatusUnauthorized "auth_invalid" "Wrong password.", g1)
      else
        let c := cookieFor now owner g1 in
        (if wantsJSON r then mkPageResp StatusNoContent (Some c) None PNone
         else mkPageResp StatusSeeOther (Some c) (Some "/terminal") PNone, g1)
  end.

Definition Login (now : Z) (r : HReq) (g : Gate) : PageResp :=
  match OwnerFromRequest now r g with
  | Some _ => redirect "/terminal"
  | None => page StatusOK (PLogin "" "")
  end.

Definition Logout (now : Z) (g : Gate) : PageResp :=
  mkPageResp StatusSeeOther (Some (ClearCookie now g)) (Some "/") PNone.

Definition Terminal (now : Z) (r : HReq) (g : Gate) : PageResp :=
  match OwnerFromRequest now r g with
  | None => redirect "/"
  | Some owner => page StatusOK (PTerminal owner)
  end.

(** ** Lemmas *)

Lemma Allow_secret now ip g : g_cookieSecret (Allow now ip g).2 = g_cookieSecret g.
Proof. unfold Allow. by destruct (allowState now _). Qed.

Lemma Allow_password now ip g : g_password (Allow now ip g).2 = g_password g.
Proof. unfold Allow. by destruct (allowState now _). Qed.

(** Verification depends on the gate only through its secret. *)
Lemma Verify_secret now v g g' : g_cookieSecret g' = g_cookieSecret g → Verify now v g' = Verify now v g.
Proof. intros H. unfold Verify, sign. by rewrite H. Qed.

Lemma cookie_accepted g name now later :
  Slugify name ≠ "" → 0 ≤ now < two63 → Unix later ≤ Unix now + 30 * 24 * 3600 →
  Verify later (ck_Value (cookieFor now (Slugify name) g)) g = Ok (Slugify name).
Proof.
  intros Hne Hnow Hlater. rewrite Verify_cookie by done.
  by replace (Unix later <=? Unix now + 30 * 24 * 3600) with true by lia.
Qed.

Lemma SubmitLogin_cookie now r g c :
  pg_Cookie (SubmitLogin now r g).1 = Some c →
  ∃ name password, lg_decoded r = Some (name, password) ∧
    (Allow now (ClientIP (lg_http r)) g).1 = true ∧ Slugify name ≠ "" ∧
    CheckPassword password g = true ∧
    (SubmitLogin now r g).2 = (Allow now (ClientIP (lg_http r)) g).2 ∧
    c = cookieFor now (Slugify name) (Allow now (ClientIP (lg_http r)) g).2.
Proof.
  unfold SubmitLogin. destruct (lg_decoded r) as [[name password]|]; [|by destruct (wantsJSON r)].
  pose proof (Allow_password now (ClientIP (lg_http r)) g) as Hpw.
  destruct (Allow now (ClientIP (lg_http r)) g) as [ok g1]. cbn [fst snd] in *.
  destruct ok; cbn [negb]; [|unfold loginFail; by destruct (wantsJSON r)].
  case_bool_decide as Hn; [unfold loginFail; by destruct (wantsJSON r)|].
  destruct (CheckPassword password g1) eqn:Hc; cbn [negb];
    [|unfold loginFail; by destruct (wantsJSON r)].
  intros Hck. exists name, password. unfold CheckPassword in *. rewrite Hpw in Hc.
  split_and!; try done. by destruct (wantsJSON r); injection Hck as <-.
Qed.

(** ** Properties *)

(** Logging in takes the password, a usable name and a free slot of the
    rate limit, and exactly these; and the cookie it sets opens the gate:
    presented with any request within thirty days it lets the request through
    to the handlers, under the owner the login named. *)
Theorem login_opens_gate (now : Z) (r : LoginReq) (g : Gate) :
  0 ≤ now < two63 →
  (is_Some (pg_Cookie (SubmitLogin now r g).1) ↔
   ∃ name, lg_decoded r = Some (name, g_password g) ∧ Slugify name ≠ "" ∧
     (Allow now (ClientIP (lg_http r)) g).1 = true) ∧
  ∀ c, pg_Cookie (SubmitLogin now r g).1 = Some c →
    ∃ name, lg_decoded r = Some (name, g_password g) ∧
    ∀ (A : Type) (deny : A) (next : string → A) later xff remote,
      Unix later ≤ Unix now + 30 * 24 * 3600 →
      Middleware later deny next (mkHReq [(ck_Name c, ck_Value c)] xff remote) (SubmitLogin now r g).2
      = next (Slugify name).
Proof.
  intros Hnow. split; [split|].
  - intros [c (name & pw & Hd & Ha & Hne & Hpw%bool_decide_eq_true & _)%SubmitLogin_cookie].
    exists name. by rewrite <- Hpw.
  - intros (name & Hd & Hne & Ha). unfold SubmitLogin. rewrite Hd.
    pose proof (Allow_password now (ClientIP (lg_http r)) g) as Hpw.
    destruct (Allow now (ClientIP (lg_http r)) g) as [ok g1]. simpl in *. subst ok. cbn [negb].
    rewrite bool_decide_false by done. unfold CheckPassword. rewrite Hpw, bool_decide_true by done.
    cbn [negb]. by destruct (wantsJSON r); eexists.
  - intros c (name & pw & Hd & Ha & Hne & Hpw%bool_decide_eq_true & Hg & ->)%SubmitLogin_cookie.
    exists name. split; [by rewrite <- Hpw|]. intros A deny next later xff remote Hlater.
    unfold Middleware, OwnerFromRequest. cbn [hr_Cookies cookieNamed].
    rewrite bool_decide_true by done. rewrite Hg, cookie_accepted by done. done.
Qed.

(** The two pages agree on who is logged in, so they never send a
    browser back and forth: the login page redirects to the terminal exactly
    when the terminal page is shown; and the cookie a logout sets is refused. *)
Theorem pages_agree (now later : Z) (r : HReq) (g : Gate) :
  (pg_Location (Login now r g) = Some "/terminal" ↔ pg_Location (Terminal now r g) = None) ∧
  (∀ c, pg_Cookie (Logout now g) = Some c → Verify later (ck_Value c) g = Err ErrCookieInvalid).
Proof.
  split.
  - unfold Login, Terminal. by destruct (OwnerFromRequest now r g).
  - intros c [= <-]. done.
Qed.

Definition demoLogin (pw : string) : LoginReq :=
  mkLoginReq (mkHReq [] "10.0.0.9, 10.0.0.1" "127.0.0.1:1") "application/json" (Some ("Ada L.", pw)).

Lemma login_opens_gate_witness :
  is_Some (pg_Cookie (SubmitLogin 0 (demoLogin "correct horse") demoGate).1) ∧
  pg_Cookie (SubmitLogin 0 (demoLogin "wrong") demoGate).1 = None ∧
  0 ≤ 0 < two63.
Proof.
  assert (0 ≤ 0 < two63) as H0 by (unfold two63; lia). split; [|split; [|exact H0]].
  - apply (login_opens_gate 0 (demoLogin "correct horse") demoGate H0).
    exists "Ada L.". split; [reflexivity|]. split; [vm_compute; discriminate|vm_compute; reflexivity].
  - vm_compute. reflexivity.
Defined.
