(* ===== verification/Store.v ===== *)
(** The session store, control-plane/internal/db/db.go: the migration runner
    and the table of sessions.  Postgres is a service: the schema a migration
    script produces is a parameter, a transaction takes effect as a whole or
    not at all, and every round trip may fail. *)
From stdpp Require Import sorting.
From S2P Require Import Prelude GoLib NetAlloc Session.
Open Scope Z_scope.

(** ** [Open] *)

(** The connection pool's configuration: what the DSN says, and the limits
    [Open] sets (times in nanoseconds). *)
Record PoolConf := mkPoolConf {
  pc_url : string; pc_MaxConns : Z; pc_MinConns : Z; pc_MaxConnLifetime : Z; pc_MaxConnIdleTime : Z
}.

Inductive OpenErr := ErrParseDSN | ErrPool | ErrPing.

(** Which DSNs the driver accepts, whether it can make the pool, and whether
    the server answers. *)
Record OpenEnv := mkOpenEnv { oe_parse : string → bool; oe_pool : bool; oe_ping : bool }.

Definition poolConf (url : string) : PoolConf :=
  mkPoolConf url 10 1 (30 * 60 * second) (5 * 60 * second).

(** [Open], over the pools the process has open. *)
Definition Open (e : OpenEnv) (url : string) (pools : list PoolConf) : res OpenErr PoolConf * list PoolConf :=
  if negb (oe_parse e url) then (Err ErrParseDSN, pools)
  else
    let cfg := poolConf url in
    if negb (oe_pool e) then (Err ErrPool, pools)
    else
      let opened := cfg :: pools in
      if negb (oe_ping e) then (Err ErrPing, tail opened) else (Ok cfg, opened).

(** ** Migration files *)

Definition nlc : ascii := chr 10.
Definition nls : string := String nlc "".

(** [strings.Split] with a one-byte separator. *)
Fixpoint splitAll (c : ascii) (s : string) : list string :=
  match s with
  | EmptyString => [""]
  | String d t =>
    if bool_decide (d = c) then "" :: splitAll c t
    else match splitAll c t with
         | x :: l => String d x :: l
         | [] => [String d ""]
         end
  end.

Definition markUp : string := "-- +goose Up".
Definition markDown : string := "-- +goose Down".
Definition markBegin : string := "-- +goose StatementBegin".
Definition markEnd : string := "-- +goose StatementEnd".

Definition marked (m ln : string) : bool := hasPrefix m (trimSpace ln).

(** The loop of [extractGooseUp]. *)
Fixpoint upLines (inUp : bool) (lines : list string) : list string :=
  match lines with
  | [] => []
  | ln :: l =>
    if marked markUp ln then upLines true l
    else if marked markDown ln then upLines false l
    else if negb inUp then upLines inUp l
    else if marked markBegin ln || marked markEnd ln then upLines inUp l
    else ln :: upLines inUp l
  end.

Definition extractGooseUp (src : string) : string := joinStr nls (upLines false (splitAll nlc src)).

(** ** The migration runner *)

Section Migrate.
Context {D : Type}.
(** What executing a script does to the schema, or an error. *)
Variable exec : string → D → option D.

Record Db := mkDb { d_data : D; d_applied : gset string }.

(** How the round trips of one migration go; a failed commit may have been
    applied all the same. *)
Inductive CommitResult := CommitOk | CommitFailed | CommitLost.
Record MigEnv := mkMigEnv {
  me_query : bool; me_begin : bool; me_exec : bool; me_record : bool; me_commit : CommitResult
}.

Inductive MigErr :=
| ErrCreateTable | ErrCheck (name : string) | ErrNoUp (name : string) | ErrBegin
| ErrApply (name : string) | ErrRecord (name : string) | ErrCommit.

(** One round of the loop of [Migrate]. *)
Definition migrateOne (e : MigEnv) (f : string * string) (db : Db) : res MigErr unit * Db :=
  let '(name, raw) := f in
  if negb (me_query e) then (Err (ErrCheck name), db)
  else if bool_decide (name ∈ d_applied db) then (Ok tt, db)
  else
    let up := extractGooseUp raw in
    if bool_decide (trimSpace up = "") then (Err (ErrNoUp name), db)
    else if negb (me_begin e) then (Err ErrBegin, db)
    else match (if me_exec e then exec up (d_data db) else None) with
         | None => (Err (ErrApply name), db)
         | Some data =>
           if negb (me_record e) then (Err (ErrRecord name), db)
           else let db' := mkDb data ({[name]} ∪ d_applied db) in
                match me_commit e with
                | CommitOk => (Ok tt, db')
                | CommitFailed => (Err ErrCommit, db)
                | CommitLost => (Err ErrCommit, db')
                end
         end.

Fixpoint migrateAll (env : nat → MigEnv) (files : list (string * string)) (db : Db) : res MigErr unit * Db :=
  match files with
  | [] => (Ok tt, db)
  | f :: files' =>
    match migrateOne (env 0%nat) f db with
    | (Ok _, db') => migrateAll (λ n, env (S n)) files' db'
    | (Err e, db') => (Err e, db')
    end
  end.

(** [sort.Strings] on the names. *)
Definition nameLe (f g : string * string) : Prop := String.leb f.1 g.1 = true.
#[local] Instance nameLe_dec f g : Decision (nameLe f g).
Proof. unfold nameLe. apply _. Defined.

Definition hasSuffix (suf s : string) : bool :=
  (String.length suf <=? String.length s)%nat
  && bool_decide (dropStr (String.length s - String.length suf) s = suf).

Definition sqlFiles (entries : list (string * string)) : list (string * string) :=
  merge_sort nameLe (filter (λ f, hasSuffix ".sql" f.1 = true) entries).

(** [Migrate]; [created] is whether the bookkeeping table could be created,
    [entries] the embedded files. *)
Definition Migrate (created : bool) (env : nat → MigEnv) (entries : list (string * string)) (db : Db)
  : res MigErr unit * Db :=
  if negb created then (Err ErrCreateTable, db) else migrateAll env (sqlFiles entries) db.

(** The daemon started again and again, each time with its own failures. *)
Fixpoint starts (runs : list (bool * (nat → MigEnv))) (entries : list (string * string)) (db : Db) : Db :=
  match runs with
  | [] => db
  | (created, env) :: runs' => starts runs' entries (Migrate created env entries db).2
  end.

(** What the scripts of the first migrations do, one after the other. *)
Fixpoint applyUps (files : list (string * string)) (d : D) : option D :=
  match files with
  | [] => Some d
  | f :: files' => match exec (extractGooseUp f.2) d with Some d' => applyUps files' d' | None => None end
  end.

(** *** Exactly once, in order *)

(** The first [k] migrations were applied, each once. *)
Record upTo (files : list (string * string)) (d0 : D) (k : nat) (db : Db) : Prop := {
  ut_le : (k ≤ length files)%nat;
  ut_names : d_applied db = list_to_set (take k files).*1;
  ut_data : applyUps (take k files) d0 = Some (d_data db)
}.

Lemma applyUps_app l1 l2 d :
  applyUps (l1 ++ l2) d = match applyUps l1 d with Some d' => applyUps l2 d' | None => None end.
Proof.
  revert d. induction l1 as [|f l1 IH]; intros d; [done|]. simpl.
  destruct (exec (extractGooseUp f.2) d); [apply IH|done].
Qed.

Lemma migrate_skip env l1 l2 db :
  (∀ f, f ∈ l1 → f.1 ∈ d_applied db) →
  (∃ env', migrateAll env (l1 ++ l2) db = migrateAll env' l2 db) ∨
  (∃ e, migrateAll env (l1 ++ l2) db = (Err e, db)).
Proof.
  revert env. induction l1 as [|[name raw] l1 IH]; intros env Hl; [left; by exists env|]. simpl.
  destruct (negb (me_query (env 0%nat))); [right; by eexists|].
  rewrite bool_decide_true by (apply (Hl (name, raw)); set_solver). apply IH. set_solver.
Qed.

Lemma upTo_applied files d0 k db f : NoDup files.*1 → upTo files d0 k db → f ∈ take k files →
  f.1 ∈ d_applied db.
Proof. intros _ [_ -> _] Hf. apply elem_of_list_to_set, list_elem_of_fmap. eauto. Qed.

Lemma migrate_rest files d0 n : ∀ env k db, (length files - k = n)%nat →
  NoDup files.*1 → upTo files d0 k db →
  ∃ k', (k ≤ k')%nat ∧ upTo files d0 k' (migrateAll env (drop k files) db).2 ∧
    ((migrateAll env (drop k files) db).1 = Ok tt → k' = length files).
Proof.
  induction n as [|n IH]; intros env k db Hn Hnd [Hle Hnames Hdata].
  - rewrite drop_ge by lia. exists k. split_and!; [lia|done|simpl; lia].
  - destruct (drop k files) as [|[name raw] rest] eqn:Hd.
    { apply (f_equal length) in Hd. rewrite length_drop in Hd. simpl in Hd. lia. }
    assert (files !! k = Some (name, raw)) as Hk.
    { rewrite <- (Nat.add_0_r k), <- lookup_drop, Hd. done. }
    assert (drop (S k) files = rest) as Hrest by (pose proof (drop_S _ _ _ Hk); congruence).
    assert (take (S k) files = take k files ++ [(name, raw)]) as Htk by (by apply take_S_r).
    assert (name ∉ d_applied db) as Hnew.
    { rewrite Hnames, elem_of_list_to_set. intros (f & -> & (i & Hi)%list_elem_of_lookup)%list_elem_of_fmap.
      apply lookup_take_Some in Hi as [Hi Hik].
      assert (i = k); [|lia]. eapply (NoDup_lookup files.*1); [done|rewrite list_lookup_fmap, Hi; done|].
      by rewrite list_lookup_fmap, Hk. }
    simpl. destruct (negb (me_query (env 0%nat))); [exists k; by split_and!|].
    rewrite bool_decide_false by done.
    case_bool_decide; [exists k; by split_and!|].
    destruct (negb (me_begin (env 0%nat))); [exists k; by split_and!|].
    destruct (if me_exec (env 0%nat) then exec (extractGooseUp raw) (d_data db) else None) as [data|] eqn:Hex;
      [|exists k; by split_and!].
    destruct (negb (me_record (env 0%nat))); [exists k; by split_and!|].
    assert (upTo files d0 (S k) (mkDb data ({[name]} ∪ d_applied db))) as Hup.
    { split; simpl.
      - apply lookup_lt_Some in Hk. lia.
      - rewrite Htk, fmap_app, list_to_set_app_L, Hnames. simpl. set_solver.
      - rewrite Htk, applyUps_app, Hdata. simpl. destruct (me_exec (env 0%nat)); [|done]. by rewrite Hex. }
    destruct (me_commit (env 0%nat)); [|exists k; by split_and!|exists (S k); split_and!; [lia|done|done]].
    destruct (IH (λ n, env (S n)) (S k) _ ltac:(lia) Hnd Hup) as (k' & Hk' & H1 & H2).
    rewrite Hrest in H1, H2. exists k'. split_and!; [lia|done|done].
Qed.

Lemma migrate_run created env entries d0 k db :
  NoDup (sqlFiles entries).*1 → upTo (sqlFiles entries) d0 k db →
  ∃ k', (k ≤ k')%nat ∧ upTo (sqlFiles entries) d0 k' (Migrate created env entries db).2 ∧
    ((Migrate created env entries db).1 = Ok tt → k' = length (sqlFiles entries)).
Proof.
  intros Hnd Hup. unfold Migrate. destruct created; simpl; [|exists k; by split_and!].
  set (files := sqlFiles entries) in *.
  destruct (migrate_skip env (take k files) (drop k files) db) as [[env' He]|[e He]].
  - intros f Hf. by eapply upTo_applied.
  - rewrite take_drop in He. rewrite He. by eapply migrate_rest.
  - rewrite take_drop in He. rewrite He. exists k. by split_and!.
Qed.
End Migrate.
Arguments mkDb {D} _ _.
Arguments d_data {D} _.
Arguments d_applied {D} _.

Lemma nodup_sqlFiles entries : NoDup entries.*1 → NoDup (sqlFiles entries).*1.
Proof.
  intros Hnd. unfold sqlFiles. rewrite merge_sort_Permutation.
  induction entries as [|f entries IH]; [constructor|]. apply NoDup_cons in Hnd as [Hf Hnd].
  rewrite filter_cons. destruct (decide _); [|auto]. apply NoDup_cons. split; [|auto].
  intros (g & Hg & Hin)%list_elem_of_fmap. apply Hf. rewrite Hg. apply list_elem_of_fmap.
  apply list_elem_of_filter in Hin as [_ ?]. eauto.
Qed.

Lemma nameLe_total : Total nameLe.
Proof. intros f g. unfold nameLe. apply String.leb_total. Qed.

(** ** Lines *)

Definition oneLine (s : string) : Prop := allChars (λ d, negb (bool_decide (d = nlc))) s = true.

Lemma splitAll_line x : oneLine x → splitAll nlc x = [x].
Proof.
  unfold oneLine. induction x as [|c x IH]; [done|]. simpl. intros [Hc Hx]%andb_true_iff.
  destruct (bool_decide (c = nlc)); [done|]. by rewrite IH.
Qed.

Lemma splitAll_cons x rest : oneLine x → splitAll nlc (x +:+ nls +:+ rest) = x :: splitAll nlc rest.
Proof.
  unfold oneLine. induction x as [|c x IH]; intros Hx; [done|].
  rewrite str_app_cons. simpl in Hx |- *. apply andb_true_iff in Hx as [Hc Hx].
  destruct (bool_decide (c = nlc)); [done|]. by rewrite IH.
Qed.

Lemma splitAll_join lines : lines ≠ [] → Forall oneLine lines → splitAll nlc (joinStr nls lines) = lines.
Proof.
  intros Hne Hl. induction Hl as [|x lines Hx Hl IH]; [done|]. destruct lines as [|y lines].
  - simpl. by apply splitAll_line.
  - change (joinStr nls (x :: y :: lines)) with (x +:+ nls +:+ joinStr nls (y :: lines)).
    rewrite splitAll_cons by done. by rewrite IH.
Qed.

Definition isMark (ln : string) : bool := marked markUp ln || marked markDown ln.
Definition isStmtMark (ln : string) : bool := marked markBegin ln || marked markEnd ln.

Lemma upLines_block inUp block rest :
  Forall (λ ln, isMark ln = false) block →
  upLines inUp (block ++ rest) =
  (if inUp then filter (λ ln, isStmtMark ln = false) block else []) ++ upLines inUp rest.
Proof.
  induction 1 as [|ln block Hln _ IH]; [by destruct inUp|]. simpl.
  apply orb_false_iff in Hln as [-> ->]. destruct inUp; simpl in *; [|exact IH].
  fold (isStmtMark ln). rewrite filter_cons. destruct (decide (isStmtMark ln = false)) as [E|E].
  - rewrite E. simpl. by f_equal.
  - apply not_false_iff_true in E. by rewrite E.
Qed.

(** ** The table of sessions *)

Record Row := mkRow {
  r_Owner : string; r_VMIP : option string; r_Warm : bool; r_CreatedAt : Z;
  r_ReadyAt : option Z; r_ReapedAt : option Z; r_LastAttachedAt : option Z
}.

Abbreviation Table := (gmap string Row).

Inductive StoreErr := ErrRowNotFound | ErrDB.

(** [net.ParseIP(s) != nil], on the addresses the control plane has. *)
Definition validIP (s : string) : bool := match parseIPv4 s with Some _ => true | None => false end.

(** [InsertSession] of a fresh session; [up] is whether the database answers,
    [now] its clock.  The primary key refuses a second row. *)
Definition InsertSession (up : bool) (now : Z) (id owner : string) (vmIP : option string) (warm : bool)
    (t : Table) : res StoreErr unit * Table :=
  let ip := match vmIP with
            | Some s => if negb (bool_decide (s = "")) && validIP s then Some s else None
            | None => None
            end in
  if negb up then (Err ErrDB, t)
  else match t !! id with
       | Some _ => (Err ErrDB, t)
       | None => (Ok tt, <[id := mkRow owner ip warm now (Some now) None None]> t)
       end.

Definition GetSession (up : bool) (id : string) (t : Table) : res StoreErr Row :=
  if negb up then Err ErrDB else match t !! id with Some r => Ok r | None => Err ErrRowNotFound end.

(** [update sessions set reaped_at = now() where id = $1 and reaped_at is null] *)
Definition MarkSessionReaped (up : bool) (now : Z) (id : string) (t : Table) : res StoreErr unit * Table :=
  if negb up then (Err ErrDB, t)
  else (Ok tt, alter (λ r, match r_ReapedAt r with
                           | Some _ => r
                           | None => mkRow (r_Owner r) (r_VMIP r) (r_Warm r) (r_CreatedAt r)
                                       (r_ReadyAt r) (Some now) (r_LastAttachedAt r)
                           end) id t).

Definition TouchSessionAttached (up : bool) (now : Z) (id : string) (t : Table)
  : res StoreErr unit * Table :=
  if negb up then (Err ErrDB, t)
  else (Ok tt, alter (λ r, mkRow (r_Owner r) (r_VMIP r) (r_Warm r) (r_CreatedAt r)
                             (r_ReadyAt r) (r_ReapedAt r) (Some now)) id t).

Inductive StoreOp :=
| SInsert (up : bool) (now : Z) (id owner : string) (vmIP : option string) (warm : bool)
| SReap (up : bool) (now : Z) (id : string)
| STouch (up : bool) (now : Z) (id : string).

Definition storeStep (o : StoreOp) (t : Table) : Table :=
  match o with
  | SInsert up now id owner vmIP warm => (InsertSession up now id owner vmIP warm t).2
  | SReap up now id => (MarkSessionReaped up now id t).2
  | STouch up now id => (TouchSessionAttached up now id t).2
  end.

Definition storeRun (ops : list StoreOp) (t : Table) : Table := foldl (λ t o, storeStep o t) t ops.

(** What may not change about a row. *)
Definition keeps (r r' : Row) : Prop :=
  r_Owner r' = r_Owner r ∧ r_VMIP r' = r_VMIP r ∧ r_Warm r' = r_Warm r ∧
  r_CreatedAt r' = r_CreatedAt r ∧ r_ReadyAt r' = r_ReadyAt r ∧
  (∀ at_, r_ReapedAt r = Some at_ → r_ReapedAt r' = Some at_).

#[export] Instance keeps_preorder : PreOrder keeps.
Proof. split; [by intros ?|]. unfold keeps. intros ???. naive_solver congruence. Qed.

Lemma keeps_alter f (id : string) (t : Table) k r :
  (∀ r, keeps r (f r)) → t !! k = Some r → ∃ r', alter f id t !! k = Some r' ∧ keeps r r'.
Proof.
  intros Hf Hr. destruct (decide (k = id)) as [->|Hne].
  - rewrite lookup_alter_eq, Hr. eauto.
  - rewrite lookup_alter_ne by done. exists r. by split.
Qed.

Lemma store_step_keeps o t id r :
  t !! id = Some r → ∃ r', storeStep o t !! id = Some r' ∧ keeps r r'.
Proof.
  intros Hr. destruct o as [up now i owner ip warm|up now i|up now i]; simpl;
    [unfold InsertSession|unfold MarkSessionReaped|unfold TouchSessionAttached];
    destruct up; simpl; try (by exists r); try (apply keeps_alter; [|done]; intros r0).
  - destruct (t !! i) eqn:Ei; [by exists r|]. simpl. exists r. split; [|done].
    rewrite lookup_insert_ne; [done|congruence].
  - unfold keeps. by destruct (r_ReapedAt r0) eqn:E; simpl; rewrite ?E.
  - done.
Qed.

(** ** Properties *)

(** C37: Migrations are applied exactly once and in order, however often the
    daemon starts and wherever a start fails (a lost answer to a commit
    included): the schema is always the result of running the Up scripts of
    the first so many files, in the order of their names, each once, and
    exactly these are recorded; and a start that reports success has applied
    all of them. *)
Theorem migrations_exactly_once {D : Type} (exec : string → D → option D)
    (runs : list (bool * (nat → MigEnv))) (entries : list (string * string)) (d0 : D) :
  NoDup entries.*1 →
  let db := starts exec runs entries (mkDb d0 ∅) in
  Sorted nameLe (sqlFiles entries) ∧
  (∃ k, d_applied db = list_to_set (take k (sqlFiles entries)).*1 ∧
        applyUps exec (take k (sqlFiles entries)) d0 = Some (d_data db)) ∧
  (∀ created env, (Migrate exec created env entries db).1 = Ok tt →
     let db' := (Migrate exec created env entries db).2 in
     d_applied db' = list_to_set (sqlFiles entries).*1 ∧
     applyUps exec (sqlFiles entries) d0 = Some (d_data db')).
Proof.
  intros Hnd%nodup_sqlFiles db.
  assert (∃ k, upTo exec (sqlFiles entries) d0 k db) as [k Hk].
  { subst db. assert (upTo exec (sqlFiles entries) d0 0 (mkDb d0 ∅)) as H0 by (split; simpl; [lia|done|done]).
    revert H0. generalize 0%nat, (mkDb d0 (∅ : gset string)).
    induction runs as [|[created env] runs IH]; intros k db Hk; simpl; [eauto|].
    destruct (migrate_run exec created env entries d0 k db Hnd Hk) as (k' & _ & Hk' & _). eauto. }
  split_and!.
  - apply Sorted_merge_sort, nameLe_total.
  - exists k. by destruct Hk.
  - intros created env Hok.
    destruct (migrate_run exec created env entries d0 k db Hnd Hk) as (k' & _ & [_ Hn Hd] & Hall).
    specialize (Hall Hok) as ->. by rewrite firstn_all in Hn, Hd.
Qed.

(** [extractGooseUp] returns the Up section of a migration file and
    nothing else: of any file made of lines before the Up marker, an Up
    section and a Down section, exactly the Up section's lines come back,
    joined by newlines, without the statement markers. *)
Theorem goose_up_extracted (pre up down : list string) :
  Forall oneLine (pre ++ up ++ down) → Forall (λ ln, isMark ln = false) (pre ++ up ++ down) →
  extractGooseUp (joinStr nls (pre ++ [markUp] ++ up ++ [markDown] ++ down)) =
  joinStr nls (filter (λ ln, isStmtMark ln = false) up).
Proof.
  rewrite !Forall_app. intros (H1 & H2 & H3) (M1 & M2 & M3). unfold extractGooseUp.
  rewrite splitAll_join.
  - rewrite upLines_block by done. simpl. rewrite upLines_block by done. simpl.
    rewrite <- (app_nil_r down), upLines_block by done. simpl. by rewrite app_nil_r.
  - by destruct pre.
  - rewrite !Forall_app. repeat split; try done; by repeat constructor.
Qed.

(** The table is a history: whatever inserts, reap stamps and attach
    stamps follow, and whichever of them fail, a row is never removed, its
    owner, address, and times of creation and readiness never change, and
    the moment it was reaped, once stamped, stays. *)
Theorem rows_are_history (ops : list StoreOp) (t : Table) (id : string) (r : Row) :
  t !! id = Some r → ∃ r', storeRun ops t !! id = Some r' ∧ keeps r r'.
Proof.
  revert t r. induction ops as [|o ops IH]; intros t r Hr; [by exists r|].
  destruct (store_step_keeps o t id r Hr) as (r1 & H1 & K1).
  destruct (IH _ _ H1) as (r2 & H2 & K2). exists r2. split; [done|by transitivity r1].
Qed.

(** ** Concrete runs *)

Definition logExec (script : string) (d : list string) : option (list string) := Some (d ++ [script]).
Definition allGood : nat → MigEnv := λ _, mkMigEnv true true true true CommitOk.
(** The second migration's commit goes through but its answer is lost. *)
Definition secondLost : nat → MigEnv :=
  λ n, mkMigEnv true true true true (if Nat.eqb n 1 then CommitLost else CommitOk).
Definition demoEntries : list (string * string) :=
  [("002_b.sql", joinStr nls [markUp; "B"]); ("README", ""); ("001_a.sql", joinStr nls [markUp; "A"; markDown; "a"]);
   ("003_c.sql", joinStr nls [markUp; "C"])].

Lemma migrations_exactly_once_witness :
  let db := starts logExec [(true, secondLost); (false, allGood)] demoEntries (mkDb [] ∅) in
  d_data db = ["A"; "B"] ∧ d_data (Migrate logExec true allGood demoEntries db).2 = ["A"; "B"; "C"].
Proof.
  intros db.
  destruct (migrations_exactly_once logExec [(true, secondLost); (false, allGood)] demoEntries []) as (_ & _ & H).
  { apply (bool_decide_unpack _). vm_compute. reflexivity. }
  destruct (H true allGood) as [_ Hd]; [vm_compute; reflexivity|].
  split; [vm_compute; reflexivity|].
  apply (inj Some). fold db in Hd. rewrite <- Hd. vm_compute. reflexivity.
Defined.

Lemma goose_up_extracted_witness :
  extractGooseUp (joinStr nls ([] ++ [markUp] ++ [markBegin; "create table t;"; markEnd; ""] ++ [markDown] ++ ["drop table t;"]))
  = joinStr nls ["create table t;"; ""].
Proof.
  rewrite (goose_up_extracted [] [markBegin; "create table t;"; markEnd; ""] ["drop table t;"]);
    [vm_compute; reflexivity|repeat constructor..].
Defined.

Lemma rows_are_history_witness :
  ∃ r', storeRun [SReap true 20 "u"; STouch true 30 "u"; SReap true 40 "u"]
    {[ "u" := mkRow "ada" None false 10 (Some 10) None None ]} !! "u" = Some r' ∧
    r_ReapedAt r' = Some 20 ∧ r_Owner r' = "ada".
Proof.
  destruct (rows_are_history [SReap true 20 "u"; STouch true 30 "u"; SReap true 40 "u"]
    {[ "u" := mkRow "ada" None false 10 (Some 10) None None ]} "u"
    (mkRow "ada" None false 10 (Some 10) None None)) as (r' & Hr & Ho & _); [reflexivity|].
  exists r'. split; [exact Hr|]. split; [|exact Ho]. vm_compute in Hr. injection Hr as <-. reflexivity.
Defined.
