(* ===== verification/Bridge.v ===== *)
(** The terminal, [PTY] of control-plane/internal/api/sessions.go after its
    checks ([ptyGate] of Api.v): a WebSocket between a browser and the serial
    console of a VM.

    The handler's goroutine (attach, replay, then client to console, then its
    deferred cleanups) and the pump goroutine (console to client, VM exit,
    keepalive) are program counters; [bstep] interleaves them with the tee's
    drain goroutine, with the terminals of other clients and with the exit of
    the VM.  The outcome of a read or write on the WebSocket is part of the
    label. *)
From Stdlib Require Strings.Byte.
From S2P Require Import Prelude GoLib NetAlloc Serial Session Store.
Open Scope Z_scope.

(** ** Messages *)

(** [ControlMessage]; [None] is a text frame that does not decode. *)
Record ControlMessage := mkControl { cm_Type : string; cm_Cols : Z; cm_Rows : Z }.
Inductive WsMsg := MBinary (data : list byte) | MText (m : option ControlMessage).

(** ** Program points *)

Inductive ReaderPC :=
| TAttach                      (* the connection was accepted *)
| TTouch                       (* about to record the visit *)
| TSub                         (* about to attach to the console *)
| TReplay (data : list byte)   (* about to send the replay *)
| TLoop                        (* client to console *)
| TUnsub                       (* the deferred calls, last first *)
| TCloseCh
| TDetach
| TCancel
| TClose
| TDone.

Inductive PumpPC :=
| QNone                        (* not started *)
| QSelect
| QWrite (data : list byte)    (* took a chunk, about to send it *)
| QPing                        (* waiting for the pong *)
| QExit                        (* the VM exited: about to close the connection *)
| QCancel                      (* about to cancel and return *)
| QEnd.

#[local] Instance byte_eq_dec : EqDecision byte := Strings.Byte.byte_eq_dec.
#[export] Instance ReaderPC_eq_dec : EqDecision ReaderPC.
Proof. solve_decision. Defined.
#[export] Instance PumpPC_eq_dec : EqDecision PumpPC.
Proof. solve_decision. Defined.

Record Bridge := mkBridge {
  b_att : Attachments;         (* the session and its detach functions *)
  b_tee : Tee;
  b_wire : Wire;               (* what the guest's control connections got *)
  b_rows : Table;
  b_stdin : list byte;         (* what the console got from this client *)
  b_out : list (list byte);    (* the binary frames sent to the client *)
  b_closed : option string;    (* the reason of the close frame *)
  b_ctx : bool;                (* the context is cancelled *)
  b_slot : nat;                (* our detach function *)
  b_chan : nat;                (* our channel *)
  b_reader : ReaderPC;
  b_pump : PumpPC
}.

(** ** State updates *)

Definition setReader (pc : ReaderPC) (b : Bridge) : Bridge :=
  mkBridge (b_att b) (b_tee b) (b_wire b) (b_rows b) (b_stdin b) (b_out b) (b_closed b) (b_ctx b)
    (b_slot b) (b_chan b) pc (b_pump b).
Definition setPump (pc : PumpPC) (b : Bridge) : Bridge :=
  mkBridge (b_att b) (b_tee b) (b_wire b) (b_rows b) (b_stdin b) (b_out b) (b_closed b) (b_ctx b)
    (b_slot b) (b_chan b) (b_reader b) pc.
Definition setTee (t : Tee) (b : Bridge) : Bridge :=
  mkBridge (b_att b) t (b_wire b) (b_rows b) (b_stdin b) (b_out b) (b_closed b) (b_ctx b)
    (b_slot b) (b_chan b) (b_reader b) (b_pump b).
Definition setAtt (a : Attachments) (b : Bridge) : Bridge :=
  mkBridge a (b_tee b) (b_wire b) (b_rows b) (b_stdin b) (b_out b) (b_closed b) (b_ctx b)
    (b_slot b) (b_chan b) (b_reader b) (b_pump b).
Definition sendOut (data : list byte) (b : Bridge) : Bridge :=
  mkBridge (b_att b) (b_tee b) (b_wire b) (b_rows b) (b_stdin b) (b_out b ++ [data]) (b_closed b) (b_ctx b)
    (b_slot b) (b_chan b) (b_reader b) (b_pump b).
Definition toStdin (data : list byte) (b : Bridge) : Bridge :=
  mkBridge (b_att b) (b_tee b) (b_wire b) (b_rows b) (b_stdin b ++ data) (b_out b) (b_closed b) (b_ctx b)
    (b_slot b) (b_chan b) (b_reader b) (b_pump b).
Definition setSession (s : Session) (b : Bridge) : Bridge := setAtt (mkAttachments s (at_once (b_att b))) b.
Definition setWire (w : Wire) (b : Bridge) : Bridge :=
  mkBridge (b_att b) (b_tee b) w (b_rows b) (b_stdin b) (b_out b) (b_closed b) (b_ctx b)
    (b_slot b) (b_chan b) (b_reader b) (b_pump b).
Definition setRows (r : Table) (b : Bridge) : Bridge :=
  mkBridge (b_att b) (b_tee b) (b_wire b) r (b_stdin b) (b_out b) (b_closed b) (b_ctx b)
    (b_slot b) (b_chan b) (b_reader b) (b_pump b).

(** [cancel()] *)
Definition cancelCtx (b : Bridge) : Bridge :=
  mkBridge (b_att b) (b_tee b) (b_wire b) (b_rows b) (b_stdin b) (b_out b) (b_closed b) true
    (b_slot b) (b_chan b) (b_reader b) (b_pump b).

(** [c.Close]: the first close frame counts. *)
Definition closeWS (reason : string) (b : Bridge) : Bridge :=
  mkBridge (b_att b) (b_tee b) (b_wire b) (b_rows b) (b_stdin b) (b_out b)
    (match b_closed b with Some r => Some r | None => Some reason end) (b_ctx b)
    (b_slot b) (b_chan b) (b_reader b) (b_pump b).

(** ** Steps *)

Section Bridge.
(** How [bytes.Buffer] grows; [uuid.Parse]; the id of the session. *)
Variable slack : nat → nat → nat.
Variable parseUUID : string → option string.
Variable id : string.

Definition nilUUID : string := "00000000-0000-0000-0000-000000000000".
Definition mustUUID (s : string) : string := match parseUUID s with Some u => u | None => nilUUID end.

(** What the handler's goroutine meets at its next step: the database and
    its clock, a write that succeeds or fails, a message read from the
    client, a read that fails, the clock when it detaches. *)
Inductive ReaderEv :=
| EStep
| ETouch (up : bool) (now : Z)
| EWrote (ok : bool)
| EMsg (m : WsMsg) (ok : bool)
| EReadErr
| EDetach (now : Z).

(** A write to the client can only succeed while the connection is open. *)
Definition wsOpen (b : Bridge) : bool := negb (b_ctx b) && bool_decide (b_closed b = None).

(** One message of the client; [ok] is whether the console, or the guest's
    control connection, accepts the write. *)
Definition onMessage (m : WsMsg) (ok : bool) (b : Bridge) : Bridge :=
  match m with
  | MBinary data => if ok then toStdin data b else setReader TUnsub b
  | MText None => b
  | MText (Some c) =>
    if bool_decide (cm_Type c = "resize") then
      let '(_, s, w) := Resize ok (cm_Cols c) (cm_Rows c) (at_s (b_att b)) (b_wire b) in
      setWire w (setSession s b)
    else b
  end.

Definition readerStep (ev : ReaderEv) (b : Bridge) : option Bridge :=
  match b_reader b, ev with
  | TAttach, EStep =>
    let b1 := setReader TTouch (setAtt (Session.Attach (b_att b)) b) in
    Some (mkBridge (b_att b1) (b_tee b1) (b_wire b1) (b_rows b1) (b_stdin b1) (b_out b1) (b_closed b1)
            (b_ctx b1) (length (at_once (b_att b))) (b_chan b1) (b_reader b1) (b_pump b1))
  | TTouch, ETouch up now =>
    Some (setReader TSub (setRows (TouchSessionAttached up now (mustUUID id) (b_rows b)).2 b))
  | TSub, EStep =>
    let replay := contents (t_ring (b_tee b)) in
    let b1 := setReader (TReplay replay) (setTee (Serial.Attach (b_tee b)) b) in
    Some (mkBridge (b_att b1) (b_tee b1) (b_wire b1) (b_rows b1) (b_stdin b1) (b_out b1) (b_closed b1)
            (b_ctx b1) (b_slot b1) (t_next (b_tee b)) (b_reader b1) (b_pump b1))
  | TReplay data, EWrote ok =>
    if bool_decide (data = []) then Some (setPump QSelect (setReader TLoop b))
    else if ok then (if wsOpen b then Some (setPump QSelect (setReader TLoop (sendOut data b))) else None)
    else Some (setReader TUnsub b)
  | TLoop, EMsg m ok => if wsOpen b then Some (onMessage m ok b) else None
  | TLoop, EReadErr => Some (setReader TUnsub b)
  | TUnsub, EStep => Some (setReader TCloseCh (setTee (unsubscribe (b_chan b) (b_tee b)) b))
  | TCloseCh, EStep => match closeChan (b_chan b) (b_tee b) with
                       | Some t => Some (setReader TDetach (setTee t b))
                       | None => None
                       end
  | TDetach, EDetach now => Some (setReader TCancel (setAtt (detach now (b_slot b) (b_att b)) b))
  | TCancel, EStep => Some (setReader TClose (cancelCtx b))
  | TClose, EStep => Some (setReader TDone (closeWS "" b))
  | _, _ => None
  end.

(** What the pump's [select] finds, and the outcome of its writes. *)
Inductive PumpEv :=
| GData                        (* a chunk from the console *)
| GShut                        (* the channel is closed *)
| GTick                        (* the keepalive is due *)
| GDone                        (* the VM exited *)
| GCtx                         (* the context is cancelled *)
| GSent (ok : bool)            (* the write, or the pong *)
| GStep.

Definition pumpStep (ev : PumpEv) (b : Bridge) : option Bridge :=
  match b_pump b, ev with
  | QSelect, GCtx => if b_ctx b then Some (setPump QEnd b) else None
  | QSelect, GDone => if bool_decide (s_done (at_s (b_att b)) = SigClosed) then Some (setPump QExit b) else None
  | QSelect, GData =>
    match t_chans (b_tee b) !! b_chan b with
    | Some c => match ch_queue c, recv (b_chan b) (b_tee b) with
                | p :: _, Some t => Some (setPump (QWrite p) (setTee t b))
                | _, _ => None
                end
    | None => None
    end
  | QSelect, GShut =>
    match t_chans (b_tee b) !! b_chan b with
    | Some c => if ch_closed c && bool_decide (ch_queue c = []) then Some (setPump QCancel b) else None
    | None => None
    end
  | QSelect, GTick => Some (setPump QPing b)
  | QPing, GSent ok => if ok then (if wsOpen b then Some (setPump QSelect b) else None) else Some (setPump QCancel b)
  | QWrite data, GSent ok =>
    if ok then (if wsOpen b then Some (setPump QSelect (sendOut data b)) else None) else Some (setPump QCancel b)
  | QExit, GStep => Some (setPump QCancel (closeWS "vm exited" b))
  | QCancel, GStep => Some (setPump QEnd (cancelCtx b))
  | _, _ => None
  end.

(** The rest of the world: the tee and other clients' channels, other
    clients' visits, the VM's exit, a request that is cancelled. *)
Inductive BLabel :=
| BReader (ev : ReaderEv)
| BPump (ev : PumpEv)
| BTee (l : Label)
| BVisit
| BLeave (now : Z) (i : nat)
| BVMExit
| BGone.

(** The labels of the tee that belong to this terminal. *)
Definition ours (l : Label) (b : Bridge) : bool :=
  match l with
  | LUnsub i | LClose i | LRecv i =>
    bool_decide (i = b_chan b) && negb (bool_decide (b_reader b = TAttach ∨ b_reader b = TTouch ∨ b_reader b = TSub))
  | _ => false
  end.

Definition bstep (l : BLabel) (b : Bridge) : option Bridge :=
  match l with
  | BReader ev => readerStep ev b
  | BPump ev => pumpStep ev b
  | BTee l => if ours l b then None
              else match step slack l (b_tee b) with Some t => Some (setTee t b) | None => None end
  | BVisit => Some (setAtt (Session.Attach (b_att b)) b)
  | BLeave now i =>
    if bool_decide (i = b_slot b) && negb (bool_decide (b_reader b = TAttach)) then None
    else Some (setAtt (detach now i (b_att b)) b)
  | BVMExit => match CloseDone (at_s (b_att b)) with Some s => Some (setSession s b) | None => None end
  | BGone => Some (cancelCtx b)
  end.

Fixpoint bsteps (ls : list BLabel) (b : Bridge) : option Bridge :=
  match ls with
  | [] => Some b
  | l :: ls' => match bstep l b with Some b' => bsteps ls' b' | None => None end
  end.

(** A terminal just accepted, on a session and a console in any state. *)
Definition bridgeStart (a : Attachments) (t : Tee) (w : Wire) (rows : Table) : Bridge :=
  mkBridge a t w rows [] [] None false 0 0 TAttach QNone.
(** ** Invariant *)

Definition subscribed (pc : ReaderPC) : bool :=
  match pc with TAttach | TTouch | TSub => false | _ => true end.
Definition unsubscribed (pc : ReaderPC) : bool :=
  match pc with TCloseCh | TDetach | TCancel | TClose | TDone => true | _ => false end.
Definition chanClosed (pc : ReaderPC) : bool :=
  match pc with TDetach | TCancel | TClose | TDone => true | _ => false end.
Definition detached (pc : ReaderPC) : bool :=
  match pc with TCancel | TClose | TDone => true | _ => false end.
Definition cancelled (pc : ReaderPC) : bool := match pc with TClose | TDone => true | _ => false end.

(** What the client was sent is what the tee handed out, up to the chunk the
    pump holds. *)
Definition sentOf (c : Chan) (b : Bridge) : Prop :=
  match b_reader b with
  | TReplay d => d = ch_replay c ∧ ch_got c = [] ∧ b_out b = [] ∧ b_pump b = QNone
  | _ => ∃ rest, concat (b_out b) ++ rest = ch_replay c ++ ch_got c ∧
           (b_pump b = QSelect ∨ b_pump b = QPing → rest = []) ∧ (∀ d, b_pump b = QWrite d → rest = d)
  end.

Record BInv (limit : nat) (b : Bridge) : Prop := {
  bi_tee : TInv limit (b_tee b);
  bi_early : subscribed (b_reader b) = false → b_out b = [] ∧ b_pump b = QNone;
  bi_chan : subscribed (b_reader b) = true → ∃ c, t_chans (b_tee b) !! b_chan b = Some c ∧
    ch_closed c = chanClosed (b_reader b) ∧
    (unsubscribed (b_reader b) = true → t_subscriber (b_tee b) ≠ Some (b_chan b)) ∧ sentOf c b;
  bi_slot : b_reader b ≠ TAttach → at_once (b_att b) !! b_slot b = Some (detached (b_reader b));
  bi_ctx : cancelled (b_reader b) = true → b_ctx b = true;
  bi_closed : b_reader b = TDone → b_closed b ≠ None
}.

(** *** The tee, seen from one channel *)

Definition sameChan (i : nat) (c : Chan) (t t' : Tee) : Prop :=
  ∃ c', t_chans t' !! i = Some c' ∧ ch_replay c' = ch_replay c ∧ ch_got c' = ch_got c ∧
    ch_closed c' = ch_closed c ∧ (t_subscriber t ≠ Some i → t_subscriber t' ≠ Some i).

Lemma insert_same (m : gmap nat Chan) i j c d d' :
  m !! i = Some c → m !! j = Some d →
  ch_replay d' = ch_replay d → ch_got d' = ch_got d → ch_closed d' = ch_closed d →
  ∃ c', <[j := d']> m !! i = Some c' ∧ ch_replay c' = ch_replay c ∧ ch_got c' = ch_got c ∧ ch_closed c' = ch_closed c.
Proof.
  intros Hi Hj H1 H2 H3. destruct (decide (i = j)) as [->|Hne].
  - simplify_eq. rewrite lookup_insert_eq. eauto.
  - rewrite lookup_insert_ne by done. eauto.
Qed.

Lemma insert_other (m : gmap nat Chan) i j c d' : m !! i = Some c → i ≠ j →
  ∃ c', <[j := d']> m !! i = Some c' ∧ ch_replay c' = ch_replay c ∧ ch_got c' = ch_got c ∧ ch_closed c' = ch_closed c.
Proof. intros Hi Hne. rewrite lookup_insert_ne by done. eauto. Qed.

Lemma step_sameChan limit l t t' i c : TInv limit t → t_chans t !! i = Some c →
  (l ≠ LUnsub i ∧ l ≠ LClose i ∧ l ≠ LRecv i) → step slack l t = Some t' → sameChan i c t t'.
Proof.
  intros Hinv Hc (Hu & Hcl & Hr) Hs.
  assert (∀ m, (∃ c', m !! i = Some c' ∧ ch_replay c' = ch_replay c ∧ ch_got c' = ch_got c ∧ ch_closed c' = ch_closed c) →
    t_chans t' = m → t_subscriber t' = t_subscriber t → sameChan i c t t') as Hmk.
  { intros m (c' & H1 & H2 & H3 & H4) Hm Hsub. exists c'. rewrite Hm, Hsub. done. }
  assert (∃ c', t_chans t !! i = Some c' ∧ ch_replay c' = ch_replay c ∧ ch_got c' = ch_got c ∧ ch_closed c' = ch_closed c)
    as Hid by eauto.
  destruct l as [p| | | |j|j|j]; simpl in Hs.
  - unfold drainChunk in Hs. destruct (t_pc t); try done. case_match; [|done]. injection Hs as <-. by eapply Hmk.
  - unfold drainSend in Hs. destruct (t_pc t) as [|p j|]; try done. destruct (t_chans t !! j) as [d|] eqn:Ed; [|done].
    destruct (ch_closed d) eqn:Ecl; [injection Hs as <-; by eapply Hmk|].
    case_match; injection Hs as <-; (eapply Hmk; [|reflexivity..]; by eapply insert_same).
  - unfold drainEOF in Hs. destruct (t_pc t); try done. injection Hs as <-. by eapply Hmk.
  - injection Hs as <-. destruct Hid as (c' & H1 & H2 & H3 & H4). pose proof (ti_fresh _ _ Hinv i c' H1).
    exists c'. simpl. rewrite lookup_insert_ne by lia. split_and!; try done. intros _ [= Heq]. lia.
  - destruct (t_chans t !! j); [|done]. injection Hs as <-. destruct Hid as (c' & ? & ? & ? & ?). exists c'.
    split_and!; try done. simpl. intros Hn. by case_bool_decide.
  - unfold closeChan in Hs. destruct (t_chans t !! j) as [d|]; [|done]. destruct (ch_closed d); [done|].
    case_bool_decide; [done|]. injection Hs as <-. eapply Hmk; [|reflexivity..]. apply insert_other; [done|congruence].
  - unfold recv in Hs. destruct (t_chans t !! j) as [[[|p q] cl rep got lost]|]; try done. injection Hs as <-.
    eapply Hmk; [|reflexivity..]. apply insert_other; [done|congruence].
Qed.

Lemma step_TInv limit l t t' : TInv limit t → step slack l t = Some t' → TInv limit t'.
Proof.
  intros Hinv. destruct l; simpl.
  - by apply TInv_chunk.
  - by apply TInv_send.
  - by apply TInv_eof.
  - intros [= <-]. by apply TInv_attach.
  - case_match; [|done]. intros [= <-]. by apply TInv_unsub.
  - by apply TInv_close.
  - by apply TInv_recv.
Qed.

(** *** Steps of the others *)

Lemma bi_world limit b b' :
  BInv limit b → b_reader b' = b_reader b → b_pump b' = b_pump b → b_out b' = b_out b → b_chan b' = b_chan b →
  TInv limit (b_tee b') →
  (∀ c, subscribed (b_reader b) = true → t_chans (b_tee b) !! b_chan b = Some c → sameChan (b_chan b) c (b_tee b) (b_tee b')) →
  (b_reader b ≠ TAttach → at_once (b_att b') !! b_slot b' = at_once (b_att b) !! b_slot b) →
  (b_ctx b = true → b_ctx b' = true) → (b_closed b ≠ None → b_closed b' ≠ None) → BInv limit b'.
Proof.
  intros [H1 H2 H3 H4 H5 H6] Er Ep Eo Ec Ht Hc Hs Hx Hcl. split; rewrite ?Er.
  - done.
  - rewrite Eo, Ep. done.
  - intros Hsub. destruct (H3 Hsub) as (c & Hch & Hclo & Huns & Hsent). rewrite Ec.
    destruct (Hc c Hsub Hch) as (c' & Hch' & Hrep & Hgot & Hclo' & Hn). exists c'. split_and!; [done|congruence|auto|].
    unfold sentOf in *. rewrite Er, Ep, Eo, Hrep, Hgot. done.
  - intros Hne. rewrite Hs; auto.
  - auto.
  - auto.
Qed.
Lemma sameChan_refl i c t : t_chans t !! i = Some c → sameChan i c t t.
Proof. intros Hc. by exists c. Qed.

Lemma attach_once a i x : at_once a !! i = Some x → at_once (Session.Attach a) !! i = Some x.
Proof. intros Hi. simpl. by apply lookup_app_l_Some. Qed.

Lemma detach_once now j i a : i ≠ j → at_once (detach now j a) !! i = at_once a !! i.
Proof. intros Hne. unfold detach. destruct (at_once a !! j) as [[]|]; try done. simpl. by rewrite list_lookup_insert_ne. Qed.

Lemma detach_own now i a : at_once a !! i = Some false → at_once (detach now i a) !! i = Some true.
Proof.
  intros Hi. unfold detach. rewrite Hi. simpl. apply list_lookup_insert_eq. by eapply lookup_lt_Some.
Qed.

(** *** The handler *)

Definition inReplay (pc : ReaderPC) : bool := match pc with TReplay _ => true | _ => false end.

(** Moving on without touching the console or the pump. *)
Lemma bi_move limit b b' :
  BInv limit b → b_tee b' = b_tee b → b_pump b' = b_pump b → b_out b' = b_out b → b_chan b' = b_chan b →
  subscribed (b_reader b) = true → inReplay (b_reader b) = false →
  subscribed (b_reader b') = true → inReplay (b_reader b') = false →
  chanClosed (b_reader b') = chanClosed (b_reader b) →
  (unsubscribed (b_reader b') = true → unsubscribed (b_reader b) = true) →
  at_once (b_att b') !! b_slot b' = Some (detached (b_reader b')) →
  (cancelled (b_reader b') = true → b_ctx b' = true) → (b_reader b' = TDone → b_closed b' ≠ None) → BInv limit b'.
Proof.
  intros [H1 H2 H3 H4 H5 H6] Et Ep Eo Ec Hs Hnr Hs' Hnr' Hcl Hu Hat Hx Hc. split; try done.
  - by rewrite Et.
  - by rewrite Hs'.
  - intros _. destruct (H3 Hs) as (c & Hch & Hclo & Huns & Hsent). rewrite Et, Ec. exists c.
    split_and!; [done|by rewrite Hcl|auto|]. unfold sentOf in *. rewrite Ep, Eo.
    destruct (b_reader b), (b_reader b'); done.
Qed.

Lemma message_inv limit m ok b : BInv limit b → b_reader b = TLoop → BInv limit (onMessage m ok b).
Proof.
  intros Hb Hr. unfold onMessage. pose proof (bi_slot limit b Hb) as Hsl. rewrite Hr in Hsl. specialize (Hsl ltac:(done)).
  destruct m as [data|[c|]]; [destruct ok|case_bool_decide|]; try done.
  - by apply (bi_move limit b); simpl; rewrite ?Hr.
  - by apply (bi_move limit b); simpl; rewrite ?Hr.
  - destruct (Resize ok (cm_Cols c) (cm_Rows c) (at_s (b_att b)) (b_wire b)) as [[e s] w].
    by apply (bi_move limit b); simpl; rewrite ?Hr.
Qed.

Lemma sub_inv limit b : BInv limit b → b_reader b = TSub → ∀ b', readerStep EStep b = Some b' → BInv limit b'.
Proof.
  intros [H1 H2 H3 H4 H5 H6] Hr b'. unfold readerStep. rewrite Hr in *. intros [= <-].
  destruct (H2 eq_refl) as [Hout Hpump]. split; simpl; try done.
  - by apply TInv_attach.
  - intros _. eexists. split; [apply lookup_insert_eq|]. split_and!; [done|done|]. done.
  - auto.
Qed.

Lemma closeCh_inv limit b : BInv limit b → b_reader b = TCloseCh → ∀ b', readerStep EStep b = Some b' → BInv limit b'.
Proof.
  intros [H1 H2 H3 H4 H5 H6] Hr b'. unfold readerStep. rewrite Hr in *.
  destruct (closeChan (b_chan b) (b_tee b)) as [t|] eqn:Et; [|done]. intros [= <-].
  destruct (H3 eq_refl) as (c & Hc & Hcl & Hu & Hs). split; simpl; try done.
  - by eapply TInv_close.
  - intros _. unfold closeChan in Et. rewrite Hc, Hcl in Et. simpl in Et.
    rewrite bool_decide_false in Et by auto. injection Et as <-. simpl. rewrite lookup_insert_eq.
    eexists. split; [done|]. split_and!; [done|auto|]. unfold sentOf in *. by rewrite Hr in Hs.
  - auto.
Qed.

(** The rest of the handler's own steps. *)
Lemma replay_inv limit ok d b b' : BInv limit b → b_reader b = TReplay d →
  readerStep (EWrote ok) b = Some b' → BInv limit b'.
Proof.
  intros [H1 H2 H3 H4 H5 H6] Hr. unfold readerStep. rewrite Hr in *.
  destruct (H3 eq_refl) as (c & Hc & Hcl & Hu & Hs). unfold sentOf in Hs. rewrite Hr in Hs.
  destruct Hs as (-> & Hgot & Hout & Hp). specialize (H4 ltac:(done)).
  case_bool_decide as Hd; [|destruct ok; [destruct (wsOpen b); [|done]|]]; intros [= <-]; (split; simpl; try done);
    intros _; exists c; (split_and!; [done..|]); unfold sentOf; simpl; rewrite Hout, Hgot, ?Hd, ?app_nil_r.
  - by exists [].
  - exists []. simpl. by rewrite !app_nil_r.
  - exists (ch_replay c). rewrite Hp. split_and!; [done| |done]. by intros [?|?].
Qed.

Lemma reader_inv limit ev b b' : BInv limit b → readerStep ev b = Some b' → BInv limit b'.
Proof.
  intros Hb Hst. pose proof Hb as [H1 H2 H3 H4 H5 H6].
  destruct (b_reader b) eqn:Hr, ev; try (by unfold readerStep in Hst; rewrite Hr in Hst); try by eapply replay_inv.
  1-3: unfold readerStep in Hst; rewrite Hr in Hst; injection Hst as <-.
  - split; simpl; try done. intros _. by rewrite lookup_app_r, Nat.sub_diag by lia.
  - split; simpl; try done. intros _. by apply H4.
  - eapply sub_inv; [exact Hb|done|]. unfold readerStep. by rewrite Hr.
  - unfold readerStep in Hst. rewrite Hr in Hst. destruct (wsOpen b); [|done]. injection Hst as <-. by apply message_inv.
  - unfold readerStep in Hst. rewrite Hr in Hst. injection Hst as <-.
    apply (bi_move limit b); simpl; rewrite ?Hr; try done. by apply H4.
  - unfold readerStep in Hst. rewrite Hr in Hst. injection Hst as <-. split; simpl; try done.
    + by apply TInv_unsub.
    + intros _. destruct (H3 eq_refl) as (c & ? & ? & _ & Hs). exists c. split_and!; [done..| |].
      * intros _. by case_bool_decide.
      * unfold sentOf in *. by rewrite Hr in Hs.
    + intros _. by apply H4.
  - by eapply closeCh_inv.
  - unfold readerStep in Hst. rewrite Hr in Hst. injection Hst as <-.
    apply (bi_move limit b); simpl; rewrite ?Hr; try done. apply detach_own. by apply H4.
  - unfold readerStep in Hst. rewrite Hr in Hst. injection Hst as <-.
    apply (bi_move limit b); simpl; rewrite ?Hr; try done. by apply H4.
  - unfold readerStep in Hst. rewrite Hr in Hst. injection Hst as <-.
    apply (bi_move limit b); simpl; rewrite ?Hr; try done; [by apply H4|]. intros _. by destruct (b_closed b).
Qed.
(** *** The pump *)

(** The pump runs only once the replay is out. *)
Lemma pump_started limit b : BInv limit b → b_pump b ≠ QNone →
  subscribed (b_reader b) = true ∧ inReplay (b_reader b) = false.
Proof.
  intros [H1 H2 H3 H4 H5 H6] Hp. destruct (subscribed (b_reader b)) eqn:Hs.
  - split; [done|]. destruct (H3 eq_refl) as (c & _ & _ & _ & Hsent). unfold sentOf in Hsent.
    destruct (b_reader b); try done. by destruct Hsent as (_ & _ & _ & ?).
  - by destruct (H2 eq_refl).
Qed.

(** What the client has been sent, while the pump runs. *)
Lemma sent_rest limit b : BInv limit b → b_pump b ≠ QNone →
  ∃ c rest, t_chans (b_tee b) !! b_chan b = Some c ∧ concat (b_out b) ++ rest = ch_replay c ++ ch_got c ∧
    (b_pump b = QSelect ∨ b_pump b = QPing → rest = []) ∧ (∀ d, b_pump b = QWrite d → rest = d).
Proof.
  intros Hb Hp. destruct (pump_started limit b Hb Hp) as [Hs Hn].
  destruct (bi_chan limit b Hb Hs) as (c & Hc & _ & _ & Hsent). exists c. unfold sentOf in Hsent.
  destruct (b_reader b); try done; destruct Hsent as (rest & ? & ? & ?); exists rest; done.
Qed.

(** A step of the pump that takes nothing from the console. *)
Lemma bi_pump limit b b' :
  BInv limit b → b_pump b ≠ QNone → b_reader b' = b_reader b → b_tee b' = b_tee b → b_chan b' = b_chan b →
  b_att b' = b_att b → b_slot b' = b_slot b → (b_ctx b = true → b_ctx b' = true) → (b_closed b ≠ None → b_closed b' ≠ None) →
  (∀ c rest, concat (b_out b) ++ rest = ch_replay c ++ ch_got c →
    (b_pump b = QSelect ∨ b_pump b = QPing → rest = []) → (∀ d, b_pump b = QWrite d → rest = d) →
    ∃ rest', concat (b_out b') ++ rest' = ch_replay c ++ ch_got c ∧
      (b_pump b' = QSelect ∨ b_pump b' = QPing → rest' = []) ∧ (∀ d, b_pump b' = QWrite d → rest' = d)) → BInv limit b'.
Proof.
  intros Hb Hp Er Et Ec Ea Es Hx Hc Hout. destruct (pump_started limit b Hb Hp) as [Hs Hn].
  destruct Hb as [H1 H2 H3 H4 H5 H6]. split; rewrite ?Er, ?Et, ?Ec, ?Ea, ?Es; auto.
  - by rewrite Hs.
  - intros _. destruct (H3 Hs) as (c & Hch & Hclo & Huns & Hsent). exists c. split_and!; try done.
    unfold sentOf in *. rewrite Er. destruct (b_reader b); try done; destruct Hsent as (rest & ? & ? & ?); by eapply Hout.
Qed.

Lemma data_inv limit b b' : BInv limit b → b_pump b = QSelect → pumpStep GData b = Some b' → BInv limit b'.
Proof.
  intros Hb Hp. unfold pumpStep. rewrite Hp.
  destruct (pump_started limit b Hb ltac:(by rewrite Hp)) as [Hs Hn].
  destruct Hb as [H1 H2 H3 H4 H5 H6]. destruct (H3 Hs) as (c & Hc & Hcl & Hu & Hsent). rewrite Hc.
  destruct (recv (b_chan b) (b_tee b)) as [t|] eqn:Et; [|by destruct (ch_queue c)].
  pose proof (TInv_recv limit (b_tee b) (b_chan b) t H1 Et) as Ht.
  unfold recv in Et. rewrite Hc in Et. destruct c as [[|p q] cl rep got lost]; [done|]. injection Et as <-.
  simpl. intros [= <-]. split; simpl; auto.
  - by rewrite Hs.
  - intros _. rewrite lookup_insert_eq. eexists. split; [done|]. split_and!; [done|done|].
    unfold sentOf in *. simpl in *. destruct (b_reader b); try done;
      destruct Hsent as (rest & Hcat & Hrest & _); rewrite Hrest, app_nil_r in Hcat by auto; exists p; rewrite Hcat;
      (split; [by rewrite <- app_assoc|]; split; [by intros [?|?]|by intros d [= <-]]).
Qed.

Lemma pump_inv limit ev b b' : BInv limit b → pumpStep ev b = Some b' → BInv limit b'.
Proof.
  intros Hb Hst. destruct (b_pump b) eqn:Hp, ev; try (by unfold pumpStep in Hst; rewrite Hp in Hst).
  1: by eapply data_inv.
  all: unfold pumpStep in Hst; rewrite Hp in Hst.
  - destruct (t_chans (b_tee b) !! b_chan b) as [c|]; [|done]. case_match; [|done]. injection Hst as <-.
    apply (bi_pump limit b); simpl; rewrite ?Hp; try done. intros c' rest ? ? ?. exists rest. naive_solver.
  - injection Hst as <-. apply (bi_pump limit b); simpl; rewrite ?Hp; try done. intros c rest ? ? ?. exists rest. naive_solver.
  - case_bool_decide; [|done]. injection Hst as <-.
    apply (bi_pump limit b); simpl; rewrite ?Hp; try done. intros c rest ? ? ?. exists rest. naive_solver.
  - destruct (b_ctx b) eqn:Hx; [|done]. injection Hst as <-.
    apply (bi_pump limit b); simpl; rewrite ?Hp; try done. intros c rest ? ? ?. exists rest. naive_solver.
  - destruct ok; [destruct (wsOpen b); [|done]|]; injection Hst as <-; (apply (bi_pump limit b); simpl; rewrite ?Hp; try done).
    + intros c rest Hcat _ Hrest. exists []. rewrite concat_app. simpl. rewrite (Hrest data eq_refl) in Hcat.
      rewrite !app_nil_r. split_and!; [done|done|naive_solver].
    + intros c rest ? ? ?. exists rest. naive_solver.
  - destruct ok; [destruct (wsOpen b); [|done]|]; injection Hst as <-; (apply (bi_pump limit b); simpl; rewrite ?Hp; try done);
      intros c rest ? ? ?; exists rest; naive_solver.
  - injection Hst as <-. apply (bi_pump limit b); simpl; rewrite ?Hp; try done.
    + by destruct (b_closed b).
    + intros c rest ? ? ?. exists rest. naive_solver.
  - injection Hst as <-. apply (bi_pump limit b); simpl; rewrite ?Hp; try done. intros c rest ? ? ?. exists rest. naive_solver.
Qed.

(** *** Every step *)

Lemma subscribed_ne pc : subscribed pc = true → ~ (pc = TAttach ∨ pc = TTouch ∨ pc = TSub).
Proof. by destruct pc; intros ?; intros [?|[?|?]]. Qed.

Lemma bstep_inv limit l b b' : BInv limit b → bstep l b = Some b' → BInv limit b'.
Proof.
  intros Hb Hst. pose proof (bi_slot limit b Hb) as Hsl. destruct l as [ev|ev|l| |now i| |]; simpl in Hst.
  - by eapply reader_inv.
  - by eapply pump_inv.
  - destruct (ours l b) eqn:Ho; [done|]. destruct (step slack l (b_tee b)) as [t|] eqn:Et; [|done]. injection Hst as <-.
    pose proof (step_TInv limit l _ _ (bi_tee limit b Hb) Et).
    apply (bi_world limit b); try done. simpl. intros c Hs Hc.
    eapply step_sameChan; [apply Hb|done| |done].
    apply subscribed_ne in Hs. unfold ours in Ho.
    destruct l; split_and!; try done; intros [= ->]; by rewrite bool_decide_true, bool_decide_false in Ho.
  - injection Hst as <-. apply (bi_world limit b); simpl; try done; [apply Hb|intros c _; by apply sameChan_refl|].
    intros Hne. rewrite (Hsl Hne). apply lookup_app_l_Some. by apply Hsl.
  - destruct (_ && _) eqn:Ho; [done|]. injection Hst as <-.
    apply (bi_world limit b); simpl; try done; [apply Hb|intros c _; by apply sameChan_refl|].
    intros Hne. apply detach_once. intros <-. by rewrite bool_decide_true, bool_decide_false in Ho.
  - destruct (CloseDone (at_s (b_att b))) as [s|]; [|done]. injection Hst as <-.
    apply (bi_world limit b); simpl; try done; [apply Hb|intros c _; by apply sameChan_refl].
  - injection Hst as <-. apply (bi_world limit b); simpl; try done; [apply Hb|intros c _; by apply sameChan_refl].
Qed.

Lemma bsteps_inv limit ls : ∀ b b', BInv limit b → bsteps ls b = Some b' → BInv limit b'.
Proof.
  induction ls as [|l ls IH]; intros b b' Hb; simpl; [by intros [= <-]|].
  destruct (bstep l b) as [b1|] eqn:E; [|done]. apply IH. by eapply bstep_inv.
Qed.

Lemma start_inv limit a t w rows : TInv limit t → BInv limit (bridgeStart a t w rows).
Proof. intros Ht. by split. Qed.
End Bridge.

(** ** What a label brings from the client *)

Definition inputOf (l : BLabel) : list byte :=
  match l with BReader (EMsg (MBinary d) true) => d | _ => [] end.

Definition sizeAfter (size : Z * Z) (l : BLabel) : Z * Z :=
  match l with
  | BReader (EMsg (MText (Some c)) _) =>
    if bool_decide (cm_Type c = "resize") && negb ((cm_Cols c =? 0) || (cm_Rows c =? 0))
    then (cm_Cols c, cm_Rows c) else size
  | _ => size
  end.

Section Claims.
Variable slack : nat → nat → nat.
Variable parseUUID : string → option string.
Variable id : string.
Notation bstep := (bstep slack parseUUID id).
Notation bsteps := (bsteps slack parseUUID id).
Notation readerStep := (readerStep parseUUID id).

Lemma detach_size now i a : WindowSize (at_s (detach now i a)) = WindowSize (at_s a).
Proof. unfold detach. by destruct (at_once a !! i) as [[]|]. Qed.

Lemma closeDone_size s s' : CloseDone s = Some s' → WindowSize s' = WindowSize s.
Proof.
  unfold CloseDone. destruct (s_done s); [by intros [= <-]| |]; destruct (s_doneOnce s); simpl; try (by intros [= <-]); done.
Qed.

Lemma resize_size ok cols rows s w :
  WindowSize (Resize ok cols rows s w).1.2 =
  if negb ((cols =? 0) || (rows =? 0)) then (cols, rows) else WindowSize s.
Proof.
  unfold Resize. destruct (_ || _); [done|]. simpl.
  by destruct (SendToGuest ok (resizeMessage cols rows) (with_size cols rows s) w).
Qed.

Lemma message_input m ok b :
  b_stdin (onMessage m ok b) = b_stdin b ++ inputOf (BReader (EMsg m ok)) ∧
  WindowSize (at_s (b_att (onMessage m ok b))) = sizeAfter (WindowSize (at_s (b_att b))) (BReader (EMsg m ok)).
Proof.
  destruct m as [d|[c|]]; simpl; [by destruct ok; rewrite ?app_nil_r| |by rewrite app_nil_r].
  case_bool_decide; simpl; [|by rewrite app_nil_r].
  pose proof (resize_size ok (cm_Cols c) (cm_Rows c) (at_s (b_att b)) (b_wire b)) as Hr.
  destruct (Resize ok (cm_Cols c) (cm_Rows c) (at_s (b_att b)) (b_wire b)) as [[e s] w]. simpl in *.
  by rewrite app_nil_r.
Qed.

Lemma step_input l b b' : bstep l b = Some b' →
  b_stdin b' = b_stdin b ++ inputOf l ∧ WindowSize (at_s (b_att b')) = sizeAfter (WindowSize (at_s (b_att b))) l.
Proof.
  destruct l as [ev|ev|l| |now i| |]; simpl; intros Hst.
  - destruct ev as [|up now|ok|m ok| |now]; unfold readerStep in Hst; destruct (b_reader b); try done;
      try (injection Hst as <-; simpl; by rewrite app_nil_r).
    + destruct (closeChan _ _); [|done]. injection Hst as <-. simpl. by rewrite app_nil_r.
    + repeat case_match; simplify_eq; simpl; by rewrite app_nil_r.
    + destruct (wsOpen b); [|done]. injection Hst as <-. apply message_input.
    + injection Hst as <-. simpl. by rewrite app_nil_r, detach_size.
  - unfold pumpStep in Hst. destruct (b_pump b), ev; try done; repeat case_match; simplify_eq; simpl; by rewrite app_nil_r.
  - repeat case_match; simplify_eq; simpl; by rewrite app_nil_r.
  - injection Hst as <-. simpl. by rewrite app_nil_r.
  - case_match; [done|]. injection Hst as <-. simpl. by rewrite app_nil_r, detach_size.
  - destruct (CloseDone (at_s (b_att b))) as [s|] eqn:Ec; [|done]. injection Hst as <-. simpl.
    by rewrite app_nil_r, (closeDone_size _ _ Ec).
  - injection Hst as <-. simpl. by rewrite app_nil_r.
Qed.

(** ** Progress *)

Definition readerRank (pc : ReaderPC) : nat :=
  match pc with
  | TAttach => 10 | TTouch => 9 | TSub => 8 | TReplay _ => 7 | TLoop => 6 | TUnsub => 5
  | TCloseCh => 4 | TDetach => 3 | TCancel => 2 | TClose => 1 | TDone => 0
  end.
Definition pumpRank (pc : PumpPC) : nat :=
  match pc with QNone | QEnd => 0 | QSelect | QCancel => 1 | QWrite _ | QPing | QExit => 2 end.

Lemma reader_moves limit b : BInv limit b → b_reader b ≠ TDone →
  ∃ ev b', readerStep ev b = Some b' ∧ (readerRank (b_reader b') < readerRank (b_reader b))%nat.
Proof.
  intros Hb Hne. pose proof (bi_chan limit b Hb) as Hc. unfold readerStep.
  destruct (b_reader b) eqn:Hr; try done.
  - exists EStep. eexists. split; [reflexivity|simpl; lia].
  - exists (ETouch true 0). eexists. split; [reflexivity|simpl; lia].
  - exists EStep. eexists. split; [reflexivity|simpl; lia].
  - exists (EWrote false). case_bool_decide; eexists; (split; [reflexivity|simpl; lia]).
  - exists EReadErr. eexists. split; [reflexivity|simpl; lia].
  - exists EStep. eexists. split; [reflexivity|simpl; lia].
  - exists EStep. destruct (Hc eq_refl) as (c & Hch & Hcl & Hu & _).
    unfold closeChan. rewrite Hch, Hcl. simpl. rewrite bool_decide_false by auto.
    eexists. split; [reflexivity|simpl; lia].
  - exists (EDetach 0). eexists. split; [reflexivity|simpl; lia].
  - exists EStep. eexists. split; [reflexivity|simpl; lia].
  - exists EStep. eexists. split; [reflexivity|simpl; lia].
Qed.

Lemma pump_ends b : b_ctx b = true → b_pump b ≠ QNone → b_pump b ≠ QEnd →
  ∃ ev b', pumpStep ev b = Some b' ∧ (pumpRank (b_pump b') < pumpRank (b_pump b))%nat.
Proof.
  intros Hx Hn He. unfold pumpStep. destruct (b_pump b) eqn:Hp; try done.
  - exists GCtx. rewrite Hx. eexists. split; [reflexivity|simpl; lia].
  - exists (GSent false). eexists. split; [reflexivity|simpl; lia].
  - exists (GSent false). eexists. split; [reflexivity|simpl; lia].
  - exists GStep. eexists. split; [reflexivity|simpl; lia].
  - exists GStep. eexists. split; [reflexivity|simpl; lia].
Qed.

(** ** Properties *)



(** C23: A terminal always cleans up after itself.  In every reachable state
    the handler that has not returned can take a step towards its return (no
    deferred call blocks, and its channel is never closed twice), and the
    pump can end once the context is cancelled; when the handler has
    returned, its detach function has run, its channel is closed and no
    longer subscribed, the context is cancelled and the WebSocket closed. *)
Theorem terminal_cleans_up (limit : nat) (a : Attachments) (t : Tee) (w : Wire) (rows : Table)
    (ls : list BLabel) (b : Bridge) :
  reach slack limit t → bsteps ls (bridgeStart a t w rows) = Some b →
  (b_reader b ≠ TDone →
     ∃ ev b', readerStep ev b = Some b' ∧ (readerRank (b_reader b') < readerRank (b_reader b))%nat) ∧
  (b_ctx b = true → b_pump b ≠ QNone → b_pump b ≠ QEnd →
     ∃ ev b', pumpStep ev b = Some b' ∧ (pumpRank (b_pump b') < pumpRank (b_pump b))%nat) ∧
  (b_reader b = TDone →
     at_once (b_att b) !! b_slot b = Some true ∧ t_subscriber (b_tee b) ≠ Some (b_chan b) ∧
     (ch_closed <$> t_chans (b_tee b) !! b_chan b) = Some true ∧ b_ctx b = true ∧ b_closed b ≠ None).
Proof.
  intros Ht Hls. pose proof (bsteps_inv slack parseUUID id limit ls _ _ (start_inv limit a t w rows (reach_TInv slack limit t Ht)) Hls) as Hb.
  split_and!; [by eapply reader_moves|apply pump_ends|]. intros Hr. destruct Hb as [H1 H2 H3 H4 H5 H6]. rewrite Hr in *.
  destruct (H3 eq_refl) as (c & Hc & Hcl & Hu & _). rewrite Hc. simpl. rewrite Hcl.
  split_and!; [by apply H4|by apply Hu|done|by apply H5|by apply H6].
Qed.
End Claims.

(** ** Witnesses: a boot log, a visit, some output, a resize and a key *)

Definition demoConsole : Tee := default (NewSerialTee 4) (steps noSlack [LChunk [Byte.x41; Byte.x42]] (NewSerialTee 4)).
Definition demoVisit : list BLabel :=
  [BReader EStep; BReader (ETouch true 5); BReader EStep; BReader (EWrote true);
   BTee (LChunk [Byte.x43]); BTee LSend; BPump GData; BPump (GSent true);
   BReader (EMsg (MText (Some (mkControl "resize" 120 40))) true); BReader (EMsg (MBinary [Byte.x0d]) true)].
Definition demoLeaving : list BLabel :=
  [BReader EReadErr; BReader EStep; BReader EStep; BReader (EDetach 9); BReader EStep; BReader EStep].
Definition demoBridge (ls : list BLabel) : Bridge :=
  let b := bridgeStart (mkAttachments (freshSession "u1" 1) []) demoConsole (λ _, []) ∅ in
  default b (bsteps noSlack Some "u1" ls b).

Lemma demoConsole_reach : reach noSlack 4 demoConsole.
Proof. eapply (steps_reach noSlack 4 [LChunk [Byte.x41; Byte.x42]]); [constructor|vm_compute; reflexivity]. Qed.



Lemma terminal_cleans_up_witness :
  b_reader (demoBridge (demoVisit ++ demoLeaving)) = TDone ∧
  at_once (b_att (demoBridge (demoVisit ++ demoLeaving))) !! 0%nat = Some true.
Proof.
  split; [vm_compute; reflexivity|].
  apply (terminal_cleans_up noSlack Some "u1" 4 (mkAttachments (freshSession "u1" 1) []) demoConsole (λ _, []) ∅
    (demoVisit ++ demoLeaving) (demoBridge (demoVisit ++ demoLeaving))).
  - apply demoConsole_reach.
  - vm_compute. reflexivity.
  - vm_compute. reflexivity.
Defined.
