(* ===== verification/Api.v ===== *)
(** The HTTP handlers for sessions, control-plane/internal/api/sessions.go
    with types.go and respond.go, over the host's interface (SessionHost.v)
    and the table of sessions (Store.v).  The owner of a request is what the
    login gate put into its context (Auth.v). *)
From S2P Require Import Prelude GoLib NetAlloc Session VMTable Host Store SessionHost.
Open Scope Z_scope.

(** ** [time.RFC3339], in UTC *)

Definition padTo (n : nat) (z : Z) : string :=
  let s := itoa z in concats (replicate (n - String.length s) "0") +:+ s.

(** Year, month and day of a day number, from 1970-01-01. *)
Definition civil (days : Z) : Z * Z * Z :=
  let z := days + 719468 in
  let era := z / 146097 in
  let doe := z - era * 146097 in
  let yoe := (doe - doe / 1460 + doe / 36524 - doe / 146096) / 365 in
  let doy := doe - (365 * yoe + yoe / 4 - yoe / 100) in
  let mp := (5 * doy + 2) / 153 in
  let d := doy - (153 * mp + 2) / 5 + 1 in
  let m := if mp <? 10 then mp + 3 else mp - 9 in
  (yoe + era * 400 + (if m <=? 2 then 1 else 0), m, d).

Definition rfc3339 (t : Z) : string :=
  let secs := t / second in
  let '(y, m, d) := civil (secs / 86400) in
  let r := secs mod 86400 in
  padTo 4 y +:+ "-" +:+ padTo 2 m +:+ "-" +:+ padTo 2 d +:+ "T" +:+
  padTo 2 (r / 3600) +:+ ":" +:+ padTo 2 (r / 60 mod 60) +:+ ":" +:+ padTo 2 (r mod 60) +:+ "Z".

Example rfc3339_leap : rfc3339 (1709210096 * second + 7) = "2024-02-29T12:34:56Z".
Proof. vm_compute. reflexivity. Qed.
Example rfc3339_last : rfc3339 (253402300799 * second) = "9999-12-31T23:59:59Z".
Proof. vm_compute. reflexivity. Qed.
Example rfc3339_before : rfc3339 (- second) = "1969-12-31T23:59:59Z".
Proof. vm_compute. reflexivity. Qed.

(** ** Wire types *)

Record SessionInfo := mkSessionInfo {
  si_SessionID : string; si_Owner : string; si_VMIP : string; si_Alive : bool; si_Attached : Z;
  si_CreatedAt : string; si_ReadyAt : string; si_ReapedAt : string
}.

Inductive AReply :=
| AError (code message : string) (retryAfter : option Z) (requestID : string)
| ACreated (sessionID vmIP url : string) (warm : bool)
| AInfo (i : SessionInfo)
| AOk.

Record AResp := mkAResp { ap_Status : Z; ap_Reply : AReply }.

(** What a handler reads of its request: the owner the gate put into the
    context, the id of the URL, the request id. *)
Record AReq := mkAReq { aq_Owner : string; aq_ID : string; aq_ReqID : string }.

(** [writeJSON], [apiError] and [apiErrorRetry] *)
Definition writeJSON (status : Z) (v : AReply) : AResp := mkAResp status v.
Definition apiError (r : AReq) (status : Z) (code message : string) : AResp :=
  writeJSON status (AError code message None (aq_ReqID r)).
Definition apiErrorRetry (r : AReq) (status : Z) (code message : string) (retry : Z) : AResp :=
  writeJSON status (AError code message (Some retry) (aq_ReqID r)).

(** [requestIDMiddleware]: the caller's id or a new one. *)
Definition requestID (header uuid : string) : string := if bool_decide (header = "") then uuid else header.

(** [requestIDFrom]: what the middleware put into the context, if it ran. *)
Definition requestIDFrom (ctx : option string) : string := match ctx with Some v => v | None => "" end.

(** ** Helpers *)

Definition ipString (a : Addr) : string := match a with AInvalid => "" | A4 _ => addrString a end.

Definition liveInfo (s : Session) : SessionInfo := {|
  si_SessionID := s_ID s; si_Owner := s_Owner s; si_VMIP := ipString (s_IP s); si_Alive := true;
  si_Attached := Attached s; si_CreatedAt := rfc3339 (CreatedAt s);
  si_ReadyAt := if IsZero (ReadyAt s) then "" else rfc3339 (ReadyAt s);
  si_ReapedAt := "" |}.

Definition nullStrVal (v : option string) : string := match v with Some s => s | None => "" end.
Definition nullTime (v : option Z) : string := match v with Some t => rfc3339 t | None => "" end.

(** [strings.TrimRight(s, "/")] *)
Fixpoint trimSlashes (s : string) : string :=
  match s with
  | EmptyString => ""
  | String c t => match trimSlashes t with
                  | EmptyString => if bool_decide (c = "/"%char) then "" else String c ""
                  | t' => String c t'
                  end
  end.

(** [strings.Replace(s, old, new, 1)] *)
Fixpoint replaceFirst (old new s : string) : string :=
  if hasPrefix old s then new +:+ dropStr (String.length old) s
  else match s with EmptyString => "" | String c t => String c (replaceFirst old new t) end.

Definition wsOrigin (publicOrigin : string) : string :=
  replaceFirst "https://" "wss://" (replaceFirst "http://" "ws://" (trimSlashes publicOrigin)).

(** ** The handlers *)

Section Handlers.
Context {H E : Type} `{!SessionHost H E}.
(** [uuid.Parse], in canonical form. *)
Variable parseUUID : string → option string.
Variable publicOrigin : string.

Record ApiSt := mkApiSt { at_host : H; at_rows : Table }.

(** The callback main registers with [OnGone]: stamp the row. *)
Definition onGone (up : bool) (now : Z) (s : Session) (rows : Table) : Table :=
  match parseUUID (s_ID s) with
  | None => rows
  | Some id => (MarkSessionReaped up now id rows).2
  end.

(** [Host.Destroy] with that callback. *)
Definition destroySession (up : bool) (now : Z) (id : string) (st : ApiSt) : res GoErr unit * ApiSt :=
  let gone := match hostGet id (at_host st) with
              | Some a => hostCell a (at_host st)
              | None => None
              end in
  let '(r, h) := hostDestroy id (at_host st) in
  (r, mkApiSt h (match gone with Some s => onGone up now s (at_rows st) | None => at_rows st end)).

(** The body of POST /sessions. *)
Inductive CreateBody := NoBody | BadBody | Body (warm : bool).

(** What one creation draws from outside. *)
Record CreateEnv := mkCreateEnv {
  ce_env : E; ce_uuid : string; ce_up : bool; ce_now : Z; ce_upGone : bool; ce_nowGone : Z
}.

Definition setOwner (owner : string) (s : Session) : Session := with_ident (s_ID s) owner (s_Warm s) s.
Definition setID (id : string) (s : Session) : Session := with_ident id (s_Owner s) (s_Warm s) s.

(** [Create], once the host has handed out the session. *)
Definition recordSession (r : AReq) (c : CreateEnv) (a : nat) (s : Session) (st : ApiSt) : AResp * ApiSt :=
  let '(sid, id, h) := match parseUUID (s_ID s) with
                       | Some u => (u, s_ID s, at_host st)
                       | None => (ce_uuid c, ce_uuid c, hostSet a (setID (ce_uuid c)) (at_host st))
                       end in
  let ip := ipString (s_IP s) in
  let vmIP := if bool_decide (ip = "") then None else Some ip in
  let '(ins, rows) := InsertSession (ce_up c) (ce_now c) sid (aq_Owner r) vmIP (s_Warm s) (at_rows st) in
  match ins with
  | Err _ => (apiError r 500 "internal" "internal",
              (destroySession (ce_upGone c) (ce_nowGone c) id (mkApiSt h rows)).2)
  | Ok _ => (writeJSON 200 (ACreated id ip (wsOrigin publicOrigin +:+ "/sessions/" +:+ id +:+ "/pty") (s_Warm s)),
             mkApiSt h rows)
  end.

Definition CreateSession (r : AReq) (body : CreateBody) (c : CreateEnv) (st : ApiSt) : AResp * ApiSt :=
  match body with
  | BadBody => (apiError r 400 "bad_request" "invalid json", st)
  | _ =>
    let warm := match body with Body w => w | _ => false end in
    let '(res, h) := hostCreate warm (ce_env c) (at_host st) in
    match res with
    | Err ErrAtCapacity =>
      (apiErrorRetry r 503 "capacity_full" "all VM slots are busy" 30, mkApiSt h (at_rows st))
    | Err _ => (apiError r 500 "vm_launch_failed" "vm launch failed", mkApiSt h (at_rows st))
    | Ok a =>
      let h1 := hostSet a (setOwner (aq_Owner r)) h in
      match hostCell a h1 with
      | None => (apiError r 500 "internal" "internal", mkApiSt h1 (at_rows st))
      | Some s => recordSession r c a s (mkApiSt h1 (at_rows st))
      end
    end
  end.

(** [Current]: the newest session of the caller among [cells], the order in
    which [List] met the live ones. *)
Fixpoint newestOf (owner : string) (cells : list nat) (h : H) (best : option Session) : option Session :=
  match cells with
  | [] => best
  | a :: cells' =>
    match hostCell a h with
    | None => newestOf owner cells' h best
    | Some s =>
      if negb (bool_decide (s_Owner s = owner)) then newestOf owner cells' h best
      else match best with
           | None => newestOf owner cells' h (Some s)
           | Some b => newestOf owner cells' h (if CreatedAt b <? CreatedAt s then Some s else best)
           end
    end
  end.

Definition Current (r : AReq) (cells : list nat) (st : ApiSt) : AResp :=
  match newestOf (aq_Owner r) cells (at_host st) None with
  | None => apiError r 404 "vm_not_found" "no live session"
  | Some s => writeJSON 200 (AInfo (liveInfo s))
  end.

Definition rowForOwner (up : bool) (id owner : string) (rows : Table) : res StoreErr (string * Row) :=
  match parseUUID id with
  | None => Err ErrRowNotFound
  | Some u => match GetSession up u rows with
              | Err e => Err e
              | Ok row => if bool_decide (r_Owner row = owner) then Ok (u, row) else Err ErrRowNotFound
              end
  end.

Definition writeSessionErr (r : AReq) (e : StoreErr) : AResp :=
  match e with
  | ErrRowNotFound => apiError r 404 "vm_not_found" "session not found"
  | ErrDB => apiError r 500 "internal" "internal"
  end.

(** The live session of an id, if the caller owns it. *)
Definition ownLive (r : AReq) (h : H) : option Session :=
  match hostGet (aq_ID r) h with
  | None => None
  | Some a => match hostCell a h with
              | Some s => if bool_decide (s_Owner s = aq_Owner r) then Some s else None
              | None => None
              end
  end.

Definition rowInfo (id : string) (row : Row) : SessionInfo := {|
  si_SessionID := id; si_Owner := r_Owner row; si_VMIP := nullStrVal (r_VMIP row); si_Alive := false;
  si_Attached := 0; si_CreatedAt := rfc3339 (r_CreatedAt row);
  si_ReadyAt := nullTime (r_ReadyAt row); si_ReapedAt := nullTime (r_ReapedAt row) |}.

Definition Describe (up : bool) (r : AReq) (st : ApiSt) : AResp :=
  match ownLive r (at_host st) with
  | Some s => writeJSON 200 (AInfo (liveInfo s))
  | None => match rowForOwner up (aq_ID r) (aq_Owner r) (at_rows st) with
            | Err e => writeSessionErr r e
            | Ok (u, row) => writeJSON 200 (AInfo (rowInfo u row))
            end
  end.

(** [Delete]; [up] and [now] are the database's state and clock at the
    lookup and when the row is stamped. *)
Definition Delete (up : bool) (now : Z) (r : AReq) (st : ApiSt) : AResp * ApiSt :=
  match ownLive r (at_host st) with
  | None => (match rowForOwner up (aq_ID r) (aq_Owner r) (at_rows st) with
             | Err e => writeSessionErr r e
             | Ok _ => writeJSON 200 AOk
             end, st)
  | Some _ => (writeJSON 200 AOk, (destroySession up now (aq_ID r) st).2)
  end.

(** The checks of [PTY] before the connection is upgraded. *)
Definition ptyGate (r : AReq) (st : ApiSt) : AResp + Session :=
  match ownLive r (at_host st) with
  | None => inl (apiError r 404 "vm_not_found" "session not found")
  | Some s => if negb (s_Serial s) || bool_decide (s_Process s = None)
              then inl (apiError r 410 "session_reaped" "session has no console")
              else inr s
  end.
End Handlers.
Arguments ApiSt H : clear implicits.
Arguments mkApiSt {H} _ _.
Arguments at_host {H} _.
Arguments at_rows {H} _.

(** ** Histories of calls *)

Inductive ApiOp (E : Type) :=
| OpCreate (r : AReq) (body : CreateBody) (c : CreateEnv (E := E))
| OpDelete (up : bool) (now : Z) (r : AReq)
| OpGone (up : bool) (now : Z) (id : string).      (* idle reap, or the VM exits *)
Arguments OpCreate {E} _ _ _.
Arguments OpDelete {E} _ _ _.
Arguments OpGone {E} _ _ _.

Definition requester {E} (o : ApiOp E) : option string :=
  match o with OpCreate r _ _ | OpDelete _ _ r => Some (aq_Owner r) | OpGone _ _ _ => None end.

Section Runs.
Context {H E : Type} `{!SessionHost H E, !SessionHostLaws H E}.
Variable parseUUID : string → option string.
Variable publicOrigin : string.
Implicit Types st : ApiSt H.

Definition apiStep (o : ApiOp E) st : ApiSt H :=
  match o with
  | OpCreate r body c => (CreateSession parseUUID publicOrigin r body c st).2
  | OpDelete up now r => (Delete parseUUID up now r st).2
  | OpGone up now id => (destroySession parseUUID up now id st).2
  end.

(** New ids are UUIDs in canonical form that were never used before. *)
Definition opOK (o : ApiOp E) st : Prop :=
  match o with
  | OpCreate _ body c =>
    let w := match body with Body w => w | _ => false end in
    envOK (ce_env c) (at_host st) ∧
    ∀ a s, (hostCreate w (ce_env c) (at_host st)).1 = Ok a →
      hostCell a (hostCreate w (ce_env c) (at_host st)).2 = Some s →
      parseUUID (s_ID s) = Some (s_ID s) ∧ at_rows st !! s_ID s = None
  | _ => True
  end.

Fixpoint runOK (ops : list (ApiOp E)) st : Prop :=
  match ops with [] => True | o :: ops' => opOK o st ∧ runOK ops' (apiStep o st) end.

Definition apiRun (ops : list (ApiOp E)) st : ApiSt H := foldl (λ st o, apiStep o st) st ops.

Definition live (st : ApiSt H) (id : string) (s : Session) : Prop :=
  ∃ a, hostGet id (at_host st) = Some a ∧ hostCell a (at_host st) = Some s.

(** Every live session has a row of its owner under its id. *)
Record AInv st : Prop := {
  av_host : hostOK (at_host st);
  av_rows : ∀ id s, live st id s →
    parseUUID id = Some id ∧ ∃ row, at_rows st !! id = Some row ∧ r_Owner row = s_Owner s
}.

Lemma ownLive_Some r st s : ownLive r (at_host st) = Some s ↔ live st (aq_ID r) s ∧ s_Owner s = aq_Owner r.
Proof.
  clear parseUUID publicOrigin.
  unfold ownLive, live. destruct (hostGet (aq_ID r) (at_host st)) as [a|] eqn:Ea; [|naive_solver].
  destruct (hostCell a (at_host st)) as [t|] eqn:Et; [|naive_solver congruence].
  case_bool_decide; naive_solver.
Qed.

Lemma live_fun st id s t : live st id s → live st id t → s = t.
Proof. clear parseUUID publicOrigin. unfold live. naive_solver congruence. Qed.

Lemma mark_row up now u (rows : Table) v :
  (MarkSessionReaped up now u rows).2 !! v =
  if decide (v = u)
  then (if up then (λ r, match r_ReapedAt r with
                         | Some _ => r
                         | None => mkRow (r_Owner r) (r_VMIP r) (r_Warm r) (r_CreatedAt r)
                                     (r_ReadyAt r) (Some now) (r_LastAttachedAt r)
                         end) <$> rows !! u else rows !! u)
  else rows !! v.
Proof.
  unfold MarkSessionReaped. destruct up; simpl; case_decide; subst; try done;
    [by rewrite lookup_alter_eq|by rewrite lookup_alter_ne].
Qed.

Lemma mark_owner up now u (rows : Table) v row :
  rows !! v = Some row →
  ∃ row', (MarkSessionReaped up now u rows).2 !! v = Some row' ∧ r_Owner row' = r_Owner row.
Proof.
  clear parseUUID publicOrigin.
  intros Hr. rewrite mark_row. case_decide as Hv; [subst v|by exists row].
  destruct up; rewrite Hr; [|by exists row]. simpl. eexists. split; [done|]. by destruct (r_ReapedAt row).
Qed.

(** *** Destroying a session *)

Lemma destroy_rows up now id st v :
  at_rows (destroySession parseUUID up now id st).2 !! v =
  match hostGet id (at_host st) ≫= λ a, hostCell a (at_host st) ≫= λ s, parseUUID (s_ID s) with
  | Some u => (MarkSessionReaped up now u (at_rows st)).2 !! v
  | None => at_rows st !! v
  end.
Proof.
  unfold destroySession, onGone. destruct (hostDestroy id (at_host st)).
  destruct (hostGet id (at_host st)) as [a|]; [|done]. simpl.
  destruct (hostCell a (at_host st)) as [s|]; [|done]. simpl. by destruct (parseUUID (s_ID s)).
Qed.

Lemma destroy_host up now id st :
  at_host (destroySession parseUUID up now id st).2 = (hostDestroy id (at_host st)).2.
Proof. unfold destroySession. by destruct (hostDestroy id (at_host st)). Qed.

Lemma destroy_live up now id st j s : hostOK (at_host st) →
  live (destroySession parseUUID up now id st).2 j s ↔ j ≠ id ∧ live st j s.
Proof.
  intros Hok. unfold live. rewrite destroy_host. setoid_rewrite destroy_get; [|done].
  case_decide as Hj; [naive_solver|]. split.
  - intros (a & Ha & Hs). rewrite destroy_cell in Hs; [eauto|done|].
    intros Hid. by destruct (Hj (get_inj _ _ _ _ Hok Ha Hid)).
  - intros (_ & a & Ha & Hs). exists a. rewrite destroy_cell; [done|done|].
    intros Hid. by destruct (Hj (get_inj _ _ _ _ Hok Ha Hid)).
Qed.

Lemma destroy_inv up now id st : AInv st → AInv (destroySession parseUUID up now id st).2.
Proof.
  intros [Hok Hrows]. split; [rewrite destroy_host; by apply destroy_ok|].
  intros j s [Hj Hl]%destroy_live; [|done]. destruct (Hrows j s Hl) as (Hp & row & Hr & Ho).
  split; [done|]. rewrite destroy_rows. destruct (_ ≫= _) as [u|]; [|by exists row].
  destruct (mark_owner up now u _ _ _ Hr) as (row' & ? & ?). exists row'. split; [done|congruence].
Qed.

(** The row stamped is the one of the id destroyed. *)
Lemma destroy_row_of up now id st v : AInv st →
  at_rows (destroySession parseUUID up now id st).2 !! v =
  if hostGet id (at_host st) then (MarkSessionReaped up now id (at_rows st)).2 !! v else at_rows st !! v.
Proof.
  intros [Hok Hrows]. rewrite destroy_rows. destruct (hostGet id (at_host st)) as [a|] eqn:Ea; [|done].
  simpl. destruct (live_cell _ _ _ Hok Ea) as (s & Hs & Hid). rewrite Hs. simpl.
  destruct (Hrows id s) as [Hp _]; [by exists a|]. by rewrite Hid, Hp.
Qed.

(** *** Creating a session *)

Lemma frames_setOwner owner : frames (setOwner owner).
Proof. intros s. done. Qed.

(** The outcomes of [Create]: nothing changed but what the host dropped, or
    one live session and one row more. *)
Definition createOutcome (r : AReq) (st : ApiSt H) (resp : AResp) (st' : ApiSt H) : Prop :=
  (ap_Status resp ≠ 200 ∧ (∀ id s, live st' id s ↔ live st id s) ∧ (∀ u, at_rows st' !! u = at_rows st !! u)) ∨
  (∃ id ip url warm s row, resp = mkAResp 200 (ACreated id ip url warm) ∧
     url = wsOrigin publicOrigin +:+ "/sessions/" +:+ id +:+ "/pty" ∧
     s_ID s = id ∧ s_Owner s = aq_Owner r ∧ r_Owner row = aq_Owner r ∧ r_ReapedAt row = None ∧
     parseUUID id = Some id ∧ at_rows st !! id = None ∧ (∀ t, ~ live st id t) ∧
     (∀ j t, live st' j t ↔ (j = id ∧ t = s) ∨ (j ≠ id ∧ live st j t)) ∧
     (∀ u, at_rows st' !! u = if decide (u = id) then Some row else at_rows st !! u)).

(** The state between the host's answer and the row. *)
Lemma owned_live owner st h a s rows :
  hostCell a h = Some s → hostGet (s_ID s) (at_host st) = None →
  (∀ id, hostGet id h = if decide (id = s_ID s) then Some a else hostGet id (at_host st)) →
  (∀ id b, hostGet id (at_host st) = Some b → b ≠ a ∧ hostCell b h = hostCell b (at_host st)) →
  ∀ j t, live (mkApiSt (hostSet a (setOwner owner) h) rows) j t ↔
    (j = s_ID s ∧ t = setOwner owner s) ∨ (j ≠ s_ID s ∧ live st j t).
Proof.
  intros Hs Hnew Hget Hcell j t. unfold live. simpl. setoid_rewrite set_get. setoid_rewrite set_cell.
  setoid_rewrite Hget. case_decide as Hj.
  - subst j. split.
    + intros (b & [= <-] & Ht). rewrite decide_True, Hs in Ht by done. left. by simplify_eq/=.
    + intros [[_ ->]|[? _]]; [|done]. exists a. by rewrite decide_True, Hs.
  - split.
    + intros (b & Hb & Ht). destruct (Hcell j b Hb) as [Hba Hbc]. rewrite decide_False, Hbc in Ht by done. eauto.
    + intros [[? _]|(_ & b & Hb & Ht)]; [done|]. destruct (Hcell j b Hb) as [Hba Hbc].
      exists b. by rewrite decide_False, Hbc.
Qed.

Lemma record_spec r c st h a s :
  hostOK h → hostCell a h = Some s → hostGet (s_ID s) (at_host st) = None →
  (∀ id, hostGet id h = if decide (id = s_ID s) then Some a else hostGet id (at_host st)) →
  (∀ id b, hostGet id (at_host st) = Some b → b ≠ a ∧ hostCell b h = hostCell b (at_host st)) →
  parseUUID (s_ID s) = Some (s_ID s) → at_rows st !! s_ID s = None →
  let out := recordSession parseUUID publicOrigin r c a (setOwner (aq_Owner r) s)
               (mkApiSt (hostSet a (setOwner (aq_Owner r)) h) (at_rows st)) in
  hostOK (at_host out.2) ∧ createOutcome r st out.1 out.2.
Proof.
  intros Hok Hs Hnew Hget Hcell Hcan Hrow out. subst out. set (h1 := hostSet a _ h).
  assert (hostOK h1) as Hok1 by (apply set_ok; [apply frames_setOwner|done]).
  pose proof (owned_live (aq_Owner r) st h a s (at_rows st) Hs Hnew Hget Hcell) as Hlive. fold h1 in Hlive.
  unfold recordSession. change (s_ID (setOwner (aq_Owner r) s)) with (s_ID s). rewrite Hcan. cbn [at_host at_rows].
  unfold InsertSession. destruct (ce_up c); cbn [negb].
  - rewrite Hrow. cbn [fst snd at_host at_rows]. split; [done|]. right. set (row := mkRow _ _ _ _ _ _ _).
    do 4 eexists. exists (setOwner (aq_Owner r) s), row.
    split; [reflexivity|]. split; [reflexivity|]. split_and!; try done.
    + intros t (b & Hb & _). congruence.
    + intros u. cbn [at_rows]. case_decide; [subst; by rewrite lookup_insert_eq|by rewrite lookup_insert_ne].
  - cbn [fst snd]. rewrite destroy_host. cbn [at_host]. split; [by apply destroy_ok|]. left.
    split_and!; [done| |].
    + intros j t. rewrite destroy_live by done. rewrite Hlive. split; [naive_solver|].
      intros Hl. assert (j ≠ s_ID s); [|naive_solver]. intros ->. destruct Hl as (b & Hb & _). congruence.
    + intros u. rewrite destroy_rows. destruct (_ ≫= _) as [v|] eqn:Ev; [|done].
      rewrite mark_row. case_decide as Hu; [subst v|done].
      assert (u = s_ID s) as ->.
      { cbn [at_host] in Ev. unfold h1 in Ev. rewrite set_get, Hget, decide_True in Ev by done.
        simpl in Ev. rewrite set_cell, decide_True, Hs in Ev by done. simpl in Ev.
        rewrite Hcan in Ev. by simplify_eq. }
      cbn [at_rows]. rewrite Hrow. by destruct (ce_upGone c).
Qed.

Lemma create_spec r body c st :
  AInv st → opOK (OpCreate r body c) st →
  hostOK (at_host (CreateSession parseUUID publicOrigin r body c st).2) ∧
  createOutcome r st (CreateSession parseUUID publicOrigin r body c st).1
    (CreateSession parseUUID publicOrigin r body c st).2.
Proof.
  intros [Hok Hrows] [Henv Hid]. unfold CreateSession.
  set (w := match body with Body w => w | _ => false end) in *.
  assert (∀ h err resp, hostCreate w (ce_env c) (at_host st) = (Err err, h) → ap_Status resp ≠ 200 →
    hostOK h ∧ createOutcome r st resp (mkApiSt h (at_rows st))) as Herr.
  { intros h err resp Hc Hresp.
    pose proof (create_ok w (ce_env c) (at_host st) Hok Henv) as Hok'.
    pose proof (create_err w (ce_env c) (at_host st) err Hok Henv) as He. rewrite Hc in Hok', He.
    specialize (He eq_refl). simpl in *. split; [done|]. left. split_and!; [done| |done].
    intros id s. unfold live. simpl. destruct (He id) as [-> Hcell]. split.
    - intros (a & Ha & Hs). exists a. by rewrite Hcell in Hs.
    - intros (a & Ha & Hs). exists a. by rewrite Hcell. }
  destruct body; [|by split; [|left]|]; fold w.
  all: destruct (hostCreate w (ce_env c) (at_host st)) as [[a|err] h] eqn:Hc;
    [|destruct err; by eapply Herr].
  all: pose proof (create_ok w (ce_env c) (at_host st) Hok Henv) as Hok';
    destruct (create_new w (ce_env c) (at_host st) a Hok Henv) as (s & Hs & Hne & Hnew & Hget & Hcell);
    [by rewrite Hc|]; rewrite Hc in *; cbn [fst snd] in *;
    destruct (Hid a s eq_refl Hs) as [Hcan Hrow];
    rewrite set_cell, decide_True, Hs by done; by apply record_spec.
Qed.

(** *** Every call *)

Lemma create_inv r body c st :
  AInv st → opOK (OpCreate r body c) st → AInv (CreateSession parseUUID publicOrigin r body c st).2.
Proof.
  intros Hinv Hop. destruct (create_spec r body c st Hinv Hop) as [Hok Hout]. pose proof Hinv as [_ Hrows].
  split; [done|]. destruct Hout as [(_ & Hl & Hr)|(id & ip & url & warm & s & row & _ & _ & Hs & Ho & Hro & _ & Hp & _ & _ & Hl & Hr)].
  - intros j t Ht%Hl. rewrite Hr. by apply Hrows.
  - intros j t [[-> ->]|[Hj Ht]]%Hl; rewrite Hr.
    + split; [done|]. exists row. rewrite decide_True by done. split; [done|congruence].
    + rewrite decide_False by done. by apply Hrows.
Qed.

Lemma delete_cases up now r st :
  (Delete parseUUID up now r st).2 = st ∨
  ((∃ s, live st (aq_ID r) s ∧ s_Owner s = aq_Owner r) ∧
   (Delete parseUUID up now r st).2 = (destroySession parseUUID up now (aq_ID r) st).2).
Proof.
  unfold Delete. destruct (ownLive r (at_host st)) as [s|] eqn:Eo; [|by left]. right.
  apply ownLive_Some in Eo. eauto.
Qed.

Lemma step_inv o st : AInv st → opOK o st → AInv (apiStep o st).
Proof.
  intros Hinv Hop. destruct o as [r body c|up now r|up now id]; simpl.
  - by apply create_inv.
  - destruct (delete_cases up now r st) as [->|[_ ->]]; [done|by apply destroy_inv].
  - by apply destroy_inv.
Qed.

(** The part of the state that belongs to an owner. *)
Definition sameFor (owner : string) st st' : Prop :=
  (∀ id s, s_Owner s = owner → live st' id s ↔ live st id s) ∧
  (∀ u row, r_Owner row = owner → at_rows st' !! u = Some row ↔ at_rows st !! u = Some row).

#[local] Instance sameFor_equiv owner : PreOrder (sameFor owner).
Proof.
  split; [by intros st|]. intros a b c [H1 H2] [H3 H4]. split.
  - intros id s Hs. by rewrite H3, H1.
  - intros u row Hr. by rewrite H4, H2.
Qed.

Lemma destroy_frame up now id st owner s :
  AInv st → live st id s → s_Owner s ≠ owner → sameFor owner st (destroySession parseUUID up now id st).2.
Proof.
  intros Hinv Hl Ho. pose proof Hinv as [Hok Hrows]. split.
  - intros j t Ht. rewrite destroy_live by done. split; [naive_solver|]. intros Hj. split; [|done].
    intros ->. by rewrite (live_fun _ _ _ _ Hj Hl) in Ht.
  - intros u row Hr. rewrite destroy_row_of by done. destruct (hostGet id (at_host st)) as [a|]; [|done].
    rewrite mark_row. case_decide as Hu; [subst u|done].
    destruct (Hrows id s Hl) as (_ & row0 & Hr0 & Ho0).
    destruct up; [|done]. rewrite Hr0. simpl. split; intros [= Heq]; exfalso; subst row.
    + apply Ho. rewrite <- Ho0, <- Hr. by destruct (r_ReapedAt row0).
    + congruence.
Qed.

Lemma step_frame o st owner p :
  AInv st → opOK o st → requester o = Some p → p ≠ owner → sameFor owner st (apiStep o st).
Proof.
  intros Hinv Hop Hp Hne. destruct o as [r body c|up now r|]; simplify_eq/=.
  - destruct (create_spec r body c st Hinv Hop) as [_ [(_ & Hl & Hr)|(id & ip & url & warm & s & row & _ & _ & Hs & Ho & Hro & _ & Hpa & Hrn & Hno & Hl & Hr)]].
    + split; [intros; apply Hl|intros; by rewrite Hr].
    + split.
      * intros j t Ht. rewrite Hl. split; [naive_solver congruence|].
        intros Hj. right. split; [|done]. intros ->. by destruct (Hno t).
      * intros u row' Hr'. rewrite Hr. case_decide as Hu; [subst u|done].
        rewrite Hrn. split; [|done]. intros [= ->]. congruence.
  - destruct (delete_cases up now r st) as [->|[(s & Hs & Ho) ->]]; [done|].
    eapply destroy_frame; [done|done|congruence].
Qed.

Lemma run_frame ops owner : ∀ st, AInv st → runOK ops st →
  Forall (λ o, ∃ p, requester o = Some p ∧ p ≠ owner) ops → sameFor owner st (apiRun ops st).
Proof.
  induction ops as [|o ops IH]; intros st Hinv Hok Hf; [done|]. destruct Hok as [Ho Hok].
  apply Forall_cons in Hf as [(p & Hp & Hne) Hf]. simpl.
  transitivity (apiStep o st); [by eapply step_frame|]. apply IH; [by apply step_inv|done|done].
Qed.

Lemma run_inv ops : ∀ st, AInv st → runOK ops st → AInv (apiRun ops st).
Proof.
  induction ops as [|o ops IH]; intros st Hinv Hok; [done|]. destruct Hok as [Ho Hok]. simpl.
  apply IH; [by apply step_inv|done].
Qed.

(** *** Current *)

Lemma newestOf_spec owner h cells : ∀ best s,
  (∀ b, best = Some b → s_Owner b = owner) →
  newestOf owner cells h best = Some s →
  s_Owner s = owner ∧ (best = Some s ∨ ∃ a, a ∈ cells ∧ hostCell a h = Some s) ∧
  (∀ b, best = Some b → CreatedAt b ≤ CreatedAt s) ∧
  (∀ a t, a ∈ cells → hostCell a h = Some t → s_Owner t = owner → CreatedAt t ≤ CreatedAt s).
Proof.
  clear parseUUID publicOrigin.
  induction cells as [|a cells IH]; intros best s Hb Hn; simpl in Hn.
  { subst best. split_and!; [by apply Hb|by left|naive_solver lia|set_solver]. }
  destruct (hostCell a h) as [t|] eqn:Et.
  2:{ destruct (IH best s Hb Hn) as (H1 & H2 & H3 & H4). split_and!; [done|set_solver|done|].
      intros a' t' [->|Ha']%elem_of_cons; [congruence|by apply H4]. }
  case_bool_decide as Ho; simpl in Hn.
  2:{ destruct (IH best s Hb Hn) as (H1 & H2 & H3 & H4). split_and!; [done|set_solver|done|].
      intros a' t' [->|Ha']%elem_of_cons; [congruence|by apply H4]. }
  assert (∃ best', newestOf owner cells h best' = Some s ∧
    (best' = Some t ∧ (∀ b, best = Some b → CreatedAt b ≤ CreatedAt t) ∨
     best' = best ∧ ∃ b, best = Some b ∧ CreatedAt t ≤ CreatedAt b)) as (best' & Hn' & Hbest).
  { destruct best as [b|]; [|exists (Some t); naive_solver].
    destruct (Z.ltb_spec (CreatedAt b) (CreatedAt t)).
    - exists (Some t). split; [done|]. left. split; [done|]. intros ? [= <-]. lia.
    - exists (Some b). split; [done|]. right. eauto with lia. }
  destruct (IH best' s ltac:(naive_solver) Hn') as (H1 & H2 & H3 & H4). split_and!; [done| | |].
  - destruct Hbest as [[-> _]|[-> _]]; [|set_solver].
    destruct H2 as [[= ->]|]; [right; exists a; set_solver|set_solver].
  - intros b Hbb. destruct Hbest as [[-> Hle]|[-> _]]; [|by apply H3].
    specialize (Hle b Hbb). specialize (H3 t eq_refl). lia.
  - intros a' t' [->|Ha']%elem_of_cons Ht' Ho'; [|by eapply H4]. simplify_eq.
    destruct Hbest as [[-> _]|[-> (b & Hb' & Hle)]]; [by apply H3|]. specialize (H3 b Hb'). lia.
Qed.

Lemma newestOf_None owner h cells : ∀ best,
  newestOf owner cells h best = None →
  best = None ∧ ∀ a t, a ∈ cells → hostCell a h = Some t → s_Owner t ≠ owner.
Proof.
  clear parseUUID publicOrigin.
  induction cells as [|a cells IH]; intros best Hn; simpl in Hn; [split; [done|set_solver]|].
  destruct (hostCell a h) as [t|] eqn:Et.
  2:{ destruct (IH best Hn) as [-> H2]. split; [done|].
      intros a' t' [->|Ha']%elem_of_cons; [congruence|by apply H2]. }
  case_bool_decide as Ho; simpl in Hn.
  - destruct best as [b|]; [destruct (CreatedAt b <? CreatedAt t)|]; by destruct (IH _ Hn).
  - destruct (IH best Hn) as [-> H2]. split; [done|].
    intros a' t' [->|Ha']%elem_of_cons; [congruence|by apply H2].
Qed.

(** *** What the owner sees *)

Lemma ownLive_same st st' r : sameFor (aq_Owner r) st st' → ownLive r (at_host st') = ownLive r (at_host st).
Proof.
  clear parseUUID publicOrigin.
  intros [Hl _]. apply option_eq. intros s. rewrite !ownLive_Some.
  split; intros [Hs Ho]; (split; [by apply (Hl (aq_ID r) s Ho)|done]).
Qed.

Lemma rowForOwner_Ok up id owner rows u row :
  rowForOwner parseUUID up id owner rows = Ok (u, row) ↔
  up = true ∧ parseUUID id = Some u ∧ rows !! u = Some row ∧ r_Owner row = owner.
Proof.
  unfold rowForOwner, GetSession. destruct (parseUUID id) as [v|]; [|naive_solver].
  destruct up; simpl; [|naive_solver]. destruct (rows !! v) as [row'|] eqn:Er; [|naive_solver congruence].
  case_bool_decide; naive_solver.
Qed.

Lemma rowForOwner_Err up id owner rows e :
  rowForOwner parseUUID up id owner rows = Err e → e = match parseUUID id with
    | Some _ => if up then ErrRowNotFound else ErrDB
    | None => ErrRowNotFound end.
Proof.
  unfold rowForOwner, GetSession. destruct (parseUUID id) as [v|]; [|naive_solver].
  destruct up; simpl; [|naive_solver]. destruct (rows !! v); [|naive_solver].
  case_bool_decide; naive_solver.
Qed.

Lemma rowForOwner_same st st' up id owner : sameFor owner st st' →
  rowForOwner parseUUID up id owner (at_rows st') = rowForOwner parseUUID up id owner (at_rows st).
Proof.
  intros [_ Hr].
  destruct (rowForOwner parseUUID up id owner (at_rows st)) as [[u row]|e] eqn:E1.
  - apply rowForOwner_Ok in E1 as (-> & Hp & Hrow & Ho). apply rowForOwner_Ok.
    split_and!; [done|done|by apply Hr|done].
  - destruct (rowForOwner parseUUID up id owner (at_rows st')) as [[u row]|e'] eqn:E2.
    + apply rowForOwner_Ok in E2 as (-> & Hp & Hrow & Ho). apply (Hr u row Ho) in Hrow.
      assert (rowForOwner parseUUID true id owner (at_rows st) = Ok (u, row)) as E3 by by apply rowForOwner_Ok.
      congruence.
    + f_equal. by rewrite (rowForOwner_Err _ _ _ _ _ E1), (rowForOwner_Err _ _ _ _ _ E2).
Qed.

Lemma Describe_same st st' up r : sameFor (aq_Owner r) st st' →
  Describe parseUUID up r st' = Describe parseUUID up r st.
Proof.
  intros Hs. unfold Describe. rewrite (ownLive_same st st' r Hs). destruct (ownLive r _); [done|].
  by rewrite (rowForOwner_same st st').
Qed.

(** A live session under an id the caller does not own. *)
Lemma foreign_ownLive st r u row : AInv st → parseUUID (aq_ID r) = Some u → at_rows st !! u = Some row →
  r_Owner row ≠ aq_Owner r → ownLive r (at_host st) = None.
Proof.
  intros Hinv Hp Hrow Ho. destruct (ownLive r (at_host st)) as [s|] eqn:Es; [|done]. exfalso.
  apply ownLive_Some in Es as [Hl Hs]. destruct (av_rows st Hinv _ _ Hl) as (Hp' & row' & Hr' & Ho').
  congruence.
Qed.

(** The live sessions, through [List]. *)
Lemma lives_live st cells : hostOK (at_host st) → cells ≡ₚ hostLives (at_host st) →
  ∀ s, (∃ a, a ∈ cells ∧ hostCell a (at_host st) = Some s) ↔ live st (s_ID s) s.
Proof.
  clear parseUUID publicOrigin.
  intros Hok Hc s. split.
  - intros (a & Ha & Hs). rewrite Hc in Ha. apply lives_get in Ha as [id Hid]; [|done].
    destruct (live_cell _ _ _ Hok Hid) as (t & Ht & <-). rewrite Ht in Hs. injection Hs as ->. by exists a.
  - intros (a & Ha & Hs). exists a. split; [|done]. rewrite Hc. apply lives_get; [done|]. by exists (s_ID s).
Qed.

Lemma live_ID st id s : hostOK (at_host st) → live st id s → s_ID s = id.
Proof. clear parseUUID publicOrigin. intros Hok (a & Ha & Hs). destruct (live_cell _ _ _ Hok Ha) as (t & Ht & <-). congruence. Qed.

(** The row of a session that was destroyed while the database was up. *)
Lemma destroyed_row st id s now : AInv st → live st id s →
  ∃ row', at_rows (destroySession parseUUID true now id st).2 !! id = Some row' ∧
    r_Owner row' = s_Owner s ∧
    (∀ row, at_rows st !! id = Some row → r_ReapedAt row = None → r_ReapedAt row' = Some now).
Proof.
  intros Hinv Hl. destruct (av_rows st Hinv id s Hl) as (_ & row & Hr & Ho).
  rewrite destroy_row_of by done. destruct Hl as (a & Ha & _). rewrite Ha, mark_row, decide_True, Hr by done.
  simpl. eexists. split; [done|]. split; [by destruct (r_ReapedAt row)|].
  intros row' [= <-] Hn. by rewrite Hn.
Qed.
End Runs.

(** ** The theorems *)

(** C6: Whatever the other owners do (create, delete, in any number and
    order, with any answers of the host and the database), an owner keeps
    exactly the live sessions and the rows it had, and [Describe] and the
    terminal's gate answer it as before. *)
Theorem owners_isolated `{SessionHostLaws H E} (parseUUID : string → option string) (origin : string)
    (ops : list (ApiOp E)) (owner : string) (st : ApiSt H) :
  AInv parseUUID st → runOK parseUUID origin ops st →
  Forall (λ o, ∃ p, requester o = Some p ∧ p ≠ owner) ops →
  let st' := apiRun parseUUID origin ops st in
  (∀ id s, s_Owner s = owner → live st' id s ↔ live st id s) ∧
  (∀ u row, r_Owner row = owner → at_rows st' !! u = Some row ↔ at_rows st !! u = Some row) ∧
  (∀ up r, aq_Owner r = owner → Describe parseUUID up r st' = Describe parseUUID up r st) ∧
  (∀ r, aq_Owner r = owner → ptyGate r st' = ptyGate r st).
Proof.
  intros Hinv Hok Hf st'. pose proof (run_frame parseUUID origin ops owner st Hinv Hok Hf) as Hs. fold st' in Hs.
  pose proof Hs as [H1 H2]. split_and!; [done|done| |].
  - intros up r <-. by apply Describe_same.
  - intros r <-. unfold ptyGate. by rewrite (ownLive_same st st').
Qed.


(** [Current] answers with the newest of the caller's live sessions,
    whatever order the host's map yields them in, and with 404 exactly when
    the caller has none. *)
Theorem current_is_newest `{SessionHostLaws H E} (st : ApiSt H) (r : AReq) (cells : list nat) :
  hostOK (at_host st) → cells ≡ₚ hostLives (at_host st) →
  (∃ s, Current r cells st = mkAResp 200 (AInfo (liveInfo s)) ∧ s_Owner s = aq_Owner r ∧ live st (s_ID s) s ∧
     ∀ id t, live st id t → s_Owner t = aq_Owner r → CreatedAt t ≤ CreatedAt s) ∨
  (Current r cells st = apiError r 404 "vm_not_found" "no live session" ∧
     ∀ id t, live st id t → s_Owner t ≠ aq_Owner r).
Proof.
  intros Hok Hc. pose proof (lives_live st cells Hok Hc) as Hl. unfold Current.
  assert (∀ id t, live st id t → ∃ a, a ∈ cells ∧ hostCell a (at_host st) = Some t) as Hin.
  { intros id t Ht. apply Hl. by rewrite (live_ID st id t Hok Ht). }
  destruct (newestOf _ cells _ None) as [s|] eqn:Es.
  - left. apply newestOf_spec in Es as (Ho & [?|Hs] & _ & Hmax); [done| |done].
    exists s. split_and!; [done|done|by apply Hl|]. intros id t (a & Ha & Ht)%Hin Hto. by eapply Hmax.
  - right. split; [done|]. apply newestOf_None in Es as [_ Hno]. intros id t (a & Ha & Ht)%Hin. by eapply Hno.
Qed.

(** C16: The life of a session as its owner sees it: after a successful
    create [Describe] shows it alive; deleting it answers 200, after which it
    is shown as finished, with the moment of the deletion as its reap time;
    deleting it again answers 200 and changes nothing; its terminal is
    gone. *)
Theorem session_lifecycle `{SessionHostLaws H E} (parseUUID : string → option string) (origin : string)
    (r : AReq) (body : CreateBody) (c : CreateEnv) (st st1 : ApiSt H) (id ip url rq : string) (warm : bool) (now : Z) :
  AInv parseUUID st → opOK parseUUID (OpCreate r body c) st →
  CreateSession parseUUID origin r body c st = (mkAResp 200 (ACreated id ip url warm), st1) →
  let q := mkAReq (aq_Owner r) id rq in
  let st2 := (Delete parseUUID true now q st1).2 in
  (∃ s, s_ID s = id ∧ s_Owner s = aq_Owner r ∧ ∀ up, Describe parseUUID up q st1 = mkAResp 200 (AInfo (liveInfo s))) ∧
  (Delete parseUUID true now q st1).1 = mkAResp 200 AOk ∧
  (∃ row, Describe parseUUID true q st2 = mkAResp 200 (AInfo (rowInfo id row)) ∧
     r_Owner row = aq_Owner r ∧ nullTime (r_ReapedAt row) = rfc3339 now) ∧
  (∀ now', Delete parseUUID true now' q st2 = (mkAResp 200 AOk, st2)) ∧
  ptyGate q st2 = inl (apiError q 404 "vm_not_found" "session not found").
Proof.
  intros Hinv Hop Hc q st2. pose proof (create_inv parseUUID origin r body c st Hinv Hop) as Hinv1.
  destruct (create_spec parseUUID origin r body c st Hinv Hop) as [_ Hout]. rewrite Hc in Hinv1, Hout. simpl in *.
  destruct Hout as [(Hs & _)|(id' & ip' & url' & warm' & s & row & Hresp & _ & Hid & Ho & Hro & Hreap & Hp & _ & _ & Hl & Hr)];
    [done|]. injection Hresp as <- _ _ _.
  assert (live st1 id s) as Hls by (apply Hl; naive_solver).
  assert (ownLive q (at_host st1) = Some s) as Hown by (by apply ownLive_Some).
  assert (st2 = (destroySession parseUUID true now id st1).2) as Hst2 by (unfold st2, Delete; by rewrite Hown).
  destruct (destroyed_row parseUUID st1 id s now Hinv1 Hls) as (row' & Hr' & Ho' & Hre').
  assert (ownLive q (at_host st2) = None) as Hown2.
  { destruct (ownLive q (at_host st2)) as [t|] eqn:Et; [|done]. apply ownLive_Some in Et as [Ht _].
    rewrite Hst2 in Ht. by apply destroy_live in Ht as [? _]; [|apply Hinv1]. }
  assert (rowForOwner parseUUID true id (aq_Owner r) (at_rows st2) = Ok (id, row')) as Hrow2.
  { apply rowForOwner_Ok. rewrite Hst2. split_and!; [done|done|done|congruence]. }
  split_and!.
  - exists s. split_and!; [done|done|]. intros up. unfold Describe. by rewrite Hown.
  - unfold Delete. by rewrite Hown.
  - exists row'. split_and!; [|congruence|].
    + unfold Describe. rewrite Hown2. change (aq_ID q) with id. change (aq_Owner q) with (aq_Owner r). by rewrite Hrow2.
    + by rewrite (Hre' row) by (by rewrite ?Hr, ?decide_True).
  - intros now'. unfold Delete. rewrite Hown2. change (aq_ID q) with id. change (aq_Owner q) with (aq_Owner r). by rewrite Hrow2.
  - unfold ptyGate. by rewrite Hown2.
Qed.

(** ** Findings *)

(** A VM that exits before [Create] has inserted its row: [OnGone] finds no
    row to stamp, and the row that follows is never reaped. *)
Theorem early_exit_row_never_reaped (now t : Z) (u owner : string) (ip : option string) (warm : bool) (rows : Table) :
  rows !! u = None →
  let rows' := storeRun [SReap true t u; SInsert true now u owner ip warm] rows in
  ∃ row, rows' !! u = Some row ∧ r_ReapedAt row = None.
Proof.
  intros Hu. simpl. unfold InsertSession, MarkSessionReaped. simpl.
  assert (alter (λ r, match r_ReapedAt r with
    | Some _ => r
    | None => mkRow (r_Owner r) (r_VMIP r) (r_Warm r) (r_CreatedAt r) (r_ReadyAt r) (Some t) (r_LastAttachedAt r)
    end) u rows !! u = None) as Hn by (by rewrite lookup_alter_eq, Hu).
  rewrite Hn. simpl. rewrite lookup_insert_eq. by eexists.
Qed.

(** ** Witnesses: the host of Host.v with three slots, and two owners *)

Definition demoOrigin : string := "https://vm.example/".
Definition demoApi : ApiSt (HostOf 3 2) := mkApiSt (mkHostOf hostStart) ∅.
Definition demoCreate (owner id : string) : ApiOp LaunchEnv :=
  OpCreate (mkAReq owner "" "q") NoBody (mkCreateEnv (mkLaunchEnv (Ok (demoVM id)) "other") "new" true 5 true 6).

Definition opOKb (o : ApiOp LaunchEnv) (st : ApiSt (HostOf 3 2)) : bool :=
  match o with
  | OpCreate _ body c =>
    let v := h_vms (ho_state (at_host st)) in
    match le_result (ce_env c) with
    | Ok s => newIDb v (le_uuid (ce_env c)) && openedb s && newIDb v (s_ID s) &&
              negb (bool_decide (s_ID s = le_uuid (ce_env c)))
    | Err _ => newIDb v (le_uuid (ce_env c))
    end &&
    let w := match body with Body w => w | _ => false end in
    match hostCreate w (ce_env c) (at_host st) with
    | (Ok a, h) => match hostCell a h with
                   | Some s => bool_decide (at_rows st !! s_ID s = None)
                   | None => true
                   end
    | _ => true
    end
  | _ => true
  end.

Lemma opOKb_sound o st : opOKb o st = true → opOK Some o st.
Proof.
  destruct o as [r body c| |]; [|done|done]. unfold opOKb, opOK.
  set (w := match body with Body w => w | _ => false end). intros [He Hr]%andb_true_iff. split.
  - split; [|intros s Hs; rewrite Hs in He].
    + destruct (le_result (ce_env c)) as [s|]; [|by apply newIDb_sound].
      rewrite !andb_true_iff in He. apply newIDb_sound, He.
    + rewrite !andb_true_iff in He. destruct He as [[[_ Ho] Hn] Hd]. split_and!.
      * unfold openedb in Ho. apply andb_true_iff in Ho as [H1%bool_decide_eq_true H2%negb_true_iff]. by split.
      * right. by apply newIDb_sound.
      * by apply negb_true_iff, bool_decide_eq_false in Hd.
  - intros a s Ha Hs. split; [done|].
    destruct (hostCreate w (ce_env c) (at_host st)) as [[b|] h]; [|done]. simplify_eq/=.
    rewrite Hs in Hr. by apply bool_decide_eq_true in Hr.
Qed.

Fixpoint runOKb (ops : list (ApiOp LaunchEnv)) (st : ApiSt (HostOf 3 2)) : bool :=
  match ops with [] => true | o :: ops' => opOKb o st && runOKb ops' (apiStep Some demoOrigin o st) end.

Lemma runOKb_sound ops : ∀ st, runOKb ops st = true → runOK Some demoOrigin ops st.
Proof.
  induction ops as [|o ops IH]; intros st; simpl; [done|]. intros [Ho Hr]%andb_true_iff.
  split; [by apply opOKb_sound|by apply IH].
Qed.

Lemma demoApi_inv : AInv Some demoApi.
Proof.
  split.
  - split; [apply (J_reachable 3 2); constructor|apply map_Forall_empty].
  - intros id s (a & Ha & _). simpl in Ha. by unfold HostGet in Ha; simpl in Ha; rewrite lookup_empty in Ha.
Qed.

Definition aliceApi : ApiSt (HostOf 3 2) := apiRun Some demoOrigin [demoCreate "alice" "u1"] demoApi.
Definition bobOps : list (ApiOp LaunchEnv) := [demoCreate "bob" "u2"; OpDelete true 9 (mkAReq "bob" "u1" "q")].

Lemma aliceApi_inv : AInv Some aliceApi.
Proof. apply run_inv; [apply demoApi_inv|apply runOKb_sound; vm_compute; reflexivity]. Qed.

Lemma owners_isolated_witness :
  ap_Status (Describe Some true (mkAReq "alice" "u1" "q") aliceApi) = 200 ∧
  Describe Some true (mkAReq "alice" "u1" "q") (apiRun Some demoOrigin bobOps aliceApi) =
  Describe Some true (mkAReq "alice" "u1" "q") aliceApi.
Proof.
  split; [vm_compute; reflexivity|].
  apply (owners_isolated Some demoOrigin bobOps "alice" aliceApi); [|..|reflexivity].
  - apply aliceApi_inv.
  - apply runOKb_sound. vm_compute. reflexivity.
  - repeat constructor; by exists "bob".
Defined.


Lemma current_is_newest_witness :
  ∃ s, Current (mkAReq "alice" "" "q") [0%nat] aliceApi = mkAResp 200 (AInfo (liveInfo s)) ∧ s_ID s = "u1".
Proof.
  destruct (current_is_newest aliceApi (mkAReq "alice" "" "q") [0%nat]) as [(s & H1 & _ & H2 & _)|[H1 _]].
  - apply aliceApi_inv.
  - vm_compute. reflexivity.
  - exists s. split; [done|].
    change (s_ID s) with (match ap_Reply (mkAResp 200 (AInfo (liveInfo s))) with
                          | AInfo i => si_SessionID i
                          | _ => ""
                          end).
    rewrite <- H1. vm_compute. reflexivity.
  - vm_compute in H1. discriminate.
Defined.

Lemma session_lifecycle_witness :
  ∃ row, Describe Some true (mkAReq "alice" "u1" "q")
    (Delete Some true 9 (mkAReq "alice" "u1" "q") aliceApi).2 = mkAResp 200 (AInfo (rowInfo "u1" row)) ∧
    r_Owner row = "alice" ∧ nullTime (r_ReapedAt row) = rfc3339 9.
Proof.
  apply (session_lifecycle Some demoOrigin (mkAReq "alice" "" "q") NoBody
    (mkCreateEnv (mkLaunchEnv (Ok (demoVM "u1")) "other") "new" true 5 true 6) demoApi aliceApi
    "u1" "" "wss://vm.example/sessions/u1/pty" "q" false 9).
  - apply demoApi_inv.
  - apply opOKb_sound. vm_compute. reflexivity.
  - vm_compute. reflexivity.
Defined.
