(* ===== verification/Router.v ===== *)
(** The whole HTTP surface of the control plane,
    control-plane/internal/api/router.go: pages without a gate, session
    routes behind it.  A request is given as the route the mux matched, with
    what its handler reads. *)
From S2P Require Import Prelude GoLib NetAlloc Session VMTable Host Store SessionHost Sha256 Auth Pages Api.
Open Scope Z_scope.

Inductive Route (E : Type) :=
| GetHealthz
| GetRoot (h : HReq)
| PostLogin (l : LoginReq)
| AnyLogout
| GetTerminal (h : HReq)
| PostSessions (h : HReq) (rq : string) (body : CreateBody) (c : CreateEnv (E := E))
| GetCurrent (h : HReq) (rq : string) (cells : list nat)
| GetSessionID (h : HReq) (rq id : string) (up : bool)
| DeleteSessionID (h : HReq) (rq id : string) (up : bool) (now : Z)
| GetPty (h : HReq) (rq id : string).
Arguments GetHealthz {E}.
Arguments GetRoot {E} _.
Arguments PostLogin {E} _.
Arguments AnyLogout {E}.
Arguments GetTerminal {E} _.
Arguments PostSessions {E} _ _ _ _.
Arguments GetCurrent {E} _ _ _.
Arguments GetSessionID {E} _ _ _ _.
Arguments DeleteSessionID {E} _ _ _ _ _.
Arguments GetPty {E} _ _ _.

Inductive Answer :=
| AnOk                                  (* the liveness probe *)
| AnPage (p : PageResp)
| AnDenied                              (* 401 of the gate *)
| AnApi (r : AResp)
| AnUpgrade (s : Session).              (* the terminal takes over *)

Record Site (H : Type) := mkSite { st_gate : Gate; st_api : ApiSt H }.
Arguments mkSite {H} _ _.
Arguments st_gate {H} _.
Arguments st_api {H} _.

(** The headers a route's gate reads, for the routes behind it. *)
Definition gated {E} (q : Route E) : option HReq :=
  match q with
  | PostSessions h _ _ _ | GetCurrent h _ _ | GetSessionID h _ _ _ | DeleteSessionID h _ _ _ _ | GetPty h _ _ => Some h
  | _ => None
  end.

Section Router.
Context {H E : Type} `{!SessionHost H E}.
Variable parseUUID : string → option string.
Variable publicOrigin : string.

(** The handlers behind the gate, for the owner it found. *)
Definition asOwner (q : Route E) (owner : string) (a : ApiSt H) : Answer * ApiSt H :=
  match q with
  | PostSessions _ rq body c =>
    let '(r, a') := CreateSession parseUUID publicOrigin (mkAReq owner "" rq) body c a in (AnApi r, a')
  | GetCurrent _ rq cells => (AnApi (Current (mkAReq owner "" rq) cells a), a)
  | GetSessionID _ rq id up => (AnApi (Describe parseUUID up (mkAReq owner id rq) a), a)
  | DeleteSessionID _ rq id up now =>
    let '(r, a') := Delete parseUUID up now (mkAReq owner id rq) a in (AnApi r, a')
  | GetPty _ rq id => (match ptyGate (mkAReq owner id rq) a with
                       | inl r => AnApi r
                       | inr s => AnUpgrade s
                       end, a)
  | _ => (AnDenied, a)
  end.

(** The mux of [NewRouter]. *)
Definition serveHTTP (now : Z) (q : Route E) (st : Site H) : Answer * Site H :=
  let g := st_gate st in
  match q with
  | GetHealthz => (AnOk, st)
  | GetRoot h => (AnPage (Login now h g), st)
  | PostLogin l => let '(p, g') := SubmitLogin now l g in (AnPage p, mkSite g' (st_api st))
  | AnyLogout => (AnPage (Logout now g), st)
  | GetTerminal h => (AnPage (Terminal now h g), st)
  | _ => match gated q with
         | None => (AnDenied, st)
         | Some h =>
           let '(ans, a) := Middleware now (AnDenied, st_api st) (λ owner, asOwner q owner (st_api st)) h g in
           (ans, mkSite g a)
         end
  end.

Definition serveRun (qs : list (Z * Route E)) (st : Site H) : Site H :=
  foldl (λ st q, (serveHTTP q.1 q.2 st).2) st qs.

(** ** The middleware of every route *)

(** A request as it arrives: what is logged of it, its request id header, a
    fresh UUID should it have none, and the route the mux matches, which
    carries the request id of the context. *)
Record Inbound := mkInbound {
  ib_Method : string; ib_Path : string; ib_RemoteAddr : string; ib_RequestID : string; ib_uuid : string;
  ib_route : string → Route E
}.

Record LogLine := mkLogLine { ll_method : string; ll_path : string; ll_remote : string; ll_request_id : string }.

(** [requestLogger] reads the header of the request. *)
Definition requestLogger (ib : Inbound) : LogLine :=
  mkLogLine (ib_Method ib) (ib_Path ib) (ib_RemoteAddr ib) (ib_RequestID ib).

(** The chain: the X-Request-Id of the response, the log line, the answer. *)
Definition handleInbound (now : Z) (ib : Inbound) (st : Site H) : string * LogLine * Answer * Site H :=
  let id := requestID (ib_RequestID ib) (ib_uuid ib) in
  let '(ans, st') := serveHTTP now (ib_route ib (requestIDFrom (Some id))) st in
  (id, requestLogger ib, ans, st').
End Router.

(** The request id a route carries to its handler. *)
Definition routeID {E} (q : Route E) : option string :=
  match q with
  | PostSessions _ rq _ _ | GetCurrent _ rq _ | GetSessionID _ rq _ _ | DeleteSessionID _ rq _ _ _ | GetPty _ rq _ => Some rq
  | _ => None
  end.

(** The request id an error document names. *)
Definition errorID (ans : Answer) : option string :=
  match ans with AnApi r => match ap_Reply r with AError _ _ _ id => Some id | _ => None end | _ => None end.

(** ** Lemmas *)

Section Lemmas.
Context {H E : Type} `{!SessionHost H E, !SessionHostLaws H E}.
Variable parseUUID : string → option string.
Variable publicOrigin : string.
Implicit Types (st : Site H) (q : Route E).

Lemma serve_gated now q h st : gated q = Some h →
  serveHTTP parseUUID publicOrigin now q st =
  let '(ans, a) := Middleware now (AnDenied, st_api st) (λ owner, asOwner parseUUID publicOrigin q owner (st_api st)) h (st_gate st) in
  (ans, mkSite (st_gate st) a).
Proof. by destruct q; intros [= <-]. Qed.

(** What a request must satisfy for its creation to make sense. *)
Definition routeOK q st : Prop :=
  match q with
  | PostSessions _ rq body c => opOK parseUUID (OpCreate (mkAReq "" "" rq) body c) (st_api st)
  | _ => True
  end.

Fixpoint routesOK (qs : list (Z * Route E)) st : Prop :=
  match qs with
  | [] => True
  | q :: qs' => routeOK q.2 st ∧ routesOK qs' (serveHTTP parseUUID publicOrigin q.1 q.2 st).2
  end.

(** The owner a request acts for, if it reaches a session handler. *)
Definition actsFor (now : Z) q st : option string :=
  match gated q with Some h => OwnerFromRequest now h (st_gate st) | None => None end.

Lemma serve_api now q st :
  st_api (serveHTTP parseUUID publicOrigin now q st).2 =
  match actsFor now q st with
  | Some owner => (asOwner parseUUID publicOrigin q owner (st_api st)).2
  | None => st_api st
  end.
Proof.
  unfold actsFor. destruct (gated q) as [h|] eqn:Hg.
  - rewrite (serve_gated now q h st Hg). unfold Middleware. destruct (OwnerFromRequest now h (st_gate st)); [|done].
    by destruct (asOwner parseUUID publicOrigin q s (st_api st)).
  - destruct q; try done. simpl. by destruct (SubmitLogin now l (st_gate st)).
Qed.

(** A request changes the sessions as the call of its owner does. *)
Lemma asOwner_step q owner a : a = (asOwner parseUUID publicOrigin q owner a).2 ∨
  ∃ o, requester o = Some owner ∧ (asOwner parseUUID publicOrigin q owner a).2 = apiStep parseUUID publicOrigin o a ∧
    (∀ st, st_api st = a → routeOK q st → opOK parseUUID o a).
Proof.
  destruct q as [| | | | |h rq body c|h rq cells|h rq id up|h rq id up now|h rq id]; simpl; auto.
  - right. exists (OpCreate (mkAReq owner "" rq) body c). split; [done|]. simpl.
    destruct (CreateSession parseUUID publicOrigin (mkAReq owner "" rq) body c a). split; [done|]. by intros st <-.
  - right. exists (OpDelete up now (mkAReq owner id rq)). split; [done|]. simpl.
    by destruct (Delete parseUUID up now (mkAReq owner id rq) a).
Qed.

Lemma serve_inv now q st : AInv parseUUID (st_api st) → routeOK q st →
  AInv parseUUID (st_api (serveHTTP parseUUID publicOrigin now q st).2).
Proof.
  intros Hinv Hok. rewrite serve_api. destruct (actsFor now q st) as [owner|]; [|done].
  destruct (asOwner_step q owner (st_api st)) as [<-|(o & _ & -> & Ho)]; [done|].
  apply step_inv; [done|]. by eapply Ho.
Qed.

(** A session that appears belongs to the caller. *)
Lemma create_live r body c a id s : AInv parseUUID a → opOK parseUUID (OpCreate r body c) a →
  live (CreateSession parseUUID publicOrigin r body c a).2 id s → live a id s ∨ s_Owner s = aq_Owner r.
Proof.
  intros Hinv Hop. destruct (create_spec parseUUID publicOrigin r body c a Hinv Hop)
    as [_ [(_ & Hl & _)|(j & ip & url & warm & t & row & _ & _ & _ & Ho & _ & _ & _ & _ & _ & Hl & _)]].
  - rewrite Hl. auto.
  - rewrite Hl. intros [[_ ->]|[_ ?]]; auto.
Qed.

Lemma delete_live up now r a id s : AInv parseUUID a → live (Delete parseUUID up now r a).2 id s → live a id s.
Proof.
  intros Hinv. destruct (delete_cases parseUUID up now r a) as [->|[_ ->]]; [done|].
  intros [_ ?]%destroy_live; [done|apply Hinv].
Qed.

Lemma serve_live now q st id s : AInv parseUUID (st_api st) → routeOK q st →
  live (st_api (serveHTTP parseUUID publicOrigin now q st).2) id s →
  live (st_api st) id s ∨ actsFor now q st = Some (s_Owner s).
Proof.
  intros Hinv Hok. rewrite serve_api. destruct (actsFor now q st) as [owner|]; [|auto].
  destruct q as [| | | | |h rq body c|h rq cells|h rq j up|h rq j up t|h rq j]; simpl; auto.
  - pose proof (create_live (mkAReq owner "" rq) body c (st_api st) id s Hinv Hok) as Hl.
    destruct (CreateSession parseUUID publicOrigin (mkAReq owner "" rq) body c (st_api st)). simpl in *.
    intros [?| ->]%Hl; auto.
  - pose proof (delete_live up t (mkAReq owner j rq) (st_api st) id s Hinv) as Hl.
    destruct (Delete parseUUID up t (mkAReq owner j rq) (st_api st)). auto.
Qed.

Lemma serve_secret now q st :
  g_cookieSecret (st_gate (serveHTTP parseUUID publicOrigin now q st).2) = g_cookieSecret (st_gate st).
Proof.
  destruct (gated q) as [h|] eqn:Hg.
  - rewrite (serve_gated now q h st Hg). by destruct (Middleware _ _ _ _ _).
  - destruct q as [| |l| | | | | | |]; try done. simpl.
    pose proof (Allow_secret now (ClientIP (lg_http l)) (st_gate st)) as Hs.
    unfold SubmitLogin. destruct (lg_decoded l) as [[name password]|]; [|done].
    destruct (Allow now (ClientIP (lg_http l)) (st_gate st)) as [ok g1]. simpl in *. repeat case_match; simplify_eq; done.
Qed.

Lemma serveRun_secret qs : ∀ st, g_cookieSecret (st_gate (serveRun parseUUID publicOrigin qs st)) = g_cookieSecret (st_gate st).
Proof. induction qs as [|q qs IH]; intros st; simpl; [done|]. by rewrite IH, serve_secret. Qed.

Lemma actsFor_secret now q st st' : g_cookieSecret (st_gate st') = g_cookieSecret (st_gate st) →
  actsFor now q st' = actsFor now q st.
Proof.
  intros Hs. unfold actsFor, OwnerFromRequest. destruct (gated q) as [h|]; [|done].
  destruct (cookieNamed CookieName (hr_Cookies h)); [|done]. by rewrite (Verify_secret now _ (st_gate st)).
Qed.

Lemma run_live qs : ∀ st id s, AInv parseUUID (st_api st) → routesOK qs st →
  live (st_api (serveRun parseUUID publicOrigin qs st)) id s →
  live (st_api st) id s ∨ ∃ nq : Z * Route E, nq ∈ qs ∧ actsFor nq.1 nq.2 st = Some (s_Owner s).
Proof.
  induction qs as [|[now q] qs IH]; intros st id s Hinv Hok Hl; [by left|]. destruct Hok as [Hq Hok]. simpl in *.
  destruct (IH _ id s (serve_inv now q st Hinv Hq) Hok Hl) as [Hl'|(q' & Hin & Ha)].
  - destruct (serve_live now q st id s Hinv Hq Hl') as [?|?]; [by left|]. right. exists (now, q). split; [set_solver|done].
  - right. exists q'. split; [set_solver|]. rewrite <- Ha. symmetry. apply actsFor_secret. apply serve_secret.
Qed.
End Lemmas.

(** Every error a handler answers with names the request it answers. *)
Section ErrorIDs.
Context {H E : Type} `{!SessionHost H E}.
Variable parseUUID : string → option string.
Variable publicOrigin : string.

Ltac errorCases :=
  unfold recordSession, writeSessionErr, apiErrorRetry, apiError, writeJSON;
  repeat (case_match; simplify_eq/=); congruence.

Lemma asOwner_errorID (q : Route E) owner (a : ApiSt H) id :
  errorID (asOwner parseUUID publicOrigin q owner a).1 = Some id → routeID q = Some id.
Proof.
  destruct q as [| | | | |h rq body c|h rq cells|h rq i up|h rq i up now|h rq i]; try done; cbn [asOwner routeID].
  - unfold CreateSession. errorCases.
  - unfold Current. errorCases.
  - unfold Describe. errorCases.
  - unfold Delete. errorCases.
  - unfold ptyGate. errorCases.
Qed.
End ErrorIDs.

(** ** Properties *)

(** C7: No VM without a login.  A request to a session route whose cookie the
    gate does not accept is answered 401 and changes nothing; and in every
    history of requests, each session that is live at the end and was not at
    the beginning belongs to an owner whose cookie, valid under the gate's
    secret, came with one of the requests. *)
Theorem vm_needs_login `{SessionHostLaws H E} (parseUUID : string → option string) (origin : string)
    (qs : list (Z * Route E)) (st : Site H) :
  AInv parseUUID (st_api st) → routesOK parseUUID origin qs st →
  (∀ now q h, gated q = Some h → OwnerFromRequest now h (st_gate st) = None →
     serveHTTP parseUUID origin now q st = (AnDenied, st)) ∧
  (∀ id s, live (st_api (serveRun parseUUID origin qs st)) id s → ~ live (st_api st) id s →
     ∃ now q h v, (now, q) ∈ qs ∧ gated q = Some h ∧ cookieNamed CookieName (hr_Cookies h) = Some v ∧
       Verify now v (st_gate st) = Ok (s_Owner s)).
Proof.
  intros Hinv Hok. split.
  - intros now q h Hg Hno. rewrite (serve_gated parseUUID origin now q h st Hg). unfold Middleware. rewrite Hno. by destruct st.
  - intros id s Hl Hn. destruct (run_live parseUUID origin qs st id s Hinv Hok Hl) as [?|([now q] & Hin & Ha)]; [done|].
    unfold actsFor, OwnerFromRequest in Ha. simpl in Ha. destruct (gated q) as [h|] eqn:Hg; [|done].
    destruct (cookieNamed CookieName (hr_Cookies h)) as [v|] eqn:Hc; [|done].
    destruct (Verify now v (st_gate st)) as [o|] eqn:Hv; [|done]. injection Ha as ->. eauto 10.
Qed.

(** C17: From the password to a VM of one's own.  When a login succeeds, then
    after any further requests of anybody, a request with the cookie it set,
    within thirty days, reaches the session handlers as the owner the login
    named. *)
Theorem login_reaches_sessions `{SessionHostLaws H E} (parseUUID : string → option string) (origin : string)
    (qs : list (Z * Route E)) (st : Site H) (now later : Z) (l : LoginReq) (p : PageResp) (c : Cookie) (st1 : Site H)
    (q : Route E) (xff remote : string) :
  0 ≤ now < two63 → Unix later ≤ Unix now + 30 * 24 * 3600 →
  serveHTTP parseUUID origin now (PostLogin l) st = (AnPage p, st1) → pg_Cookie p = Some c →
  gated q = Some (mkHReq [(ck_Name c, ck_Value c)] xff remote) →
  let st2 := serveRun parseUUID origin qs st1 in
  ∃ name, lg_decoded l = Some (name, g_password (st_gate st)) ∧
    serveHTTP parseUUID origin later q st2 =
    let '(ans, a) := asOwner parseUUID origin q (Slugify name) (st_api st2) in (ans, mkSite (st_gate st2) a).
Proof.
  intros Hnow Hlater Hlog Hc Hg st2.
  assert (g_cookieSecret (st_gate st2) = g_cookieSecret (st_gate st)) as Hsec.
  { unfold st2. rewrite serveRun_secret. pose proof (serve_secret parseUUID origin now (PostLogin l) st) as Hs.
    by rewrite Hlog in Hs. }
  assert (pg_Cookie (SubmitLogin now l (st_gate st)).1 = Some c) as Hcook.
  { simpl in Hlog. destruct (SubmitLogin now l (st_gate st)). by injection Hlog as -> _. }
  apply SubmitLogin_cookie in Hcook as (name & password & Hd & _ & Hne & Hpw & _ & Hcc).
  exists name. split.
  { unfold CheckPassword in Hpw. apply bool_decide_eq_true in Hpw. by rewrite Hd, Hpw. }
  rewrite (serve_gated parseUUID origin later q _ st2 Hg). unfold Middleware, OwnerFromRequest. simpl.
  assert (ck_Name c = CookieName) as -> by (by rewrite Hcc). rewrite bool_decide_true by done.
  rewrite (Verify_secret later _ (Allow now (ClientIP (lg_http l)) (st_gate st)).2) by (by rewrite Hsec, Allow_secret).
  rewrite Hcc, cookie_accepted by done. done.
Qed.

(** Every answer can be traced to its request: each response names a request
    id, the caller's own if it sent one, and an error document names the same
    one.  The log line names it only when the caller sent it: an id the
    middleware made up is never logged. *)
Theorem request_ids_agree {H E : Type} `{!SessionHost H E} (parseUUID : string → option string) (origin : string)
    (now : Z) (ib : Inbound) (st : Site H) :
  ib_uuid ib ≠ "" → (∀ id, routeID (ib_route ib id) = None ∨ routeID (ib_route (E := E) ib id) = Some id) →
  let '(hdr, line, ans, _) := handleInbound parseUUID origin now ib st in
  hdr ≠ "" ∧ (ib_RequestID ib ≠ "" → hdr = ib_RequestID ib) ∧
  (∀ id, errorID ans = Some id → id = hdr) ∧ (ll_request_id line = hdr ↔ ib_RequestID ib ≠ "").
Proof.
  intros Hu Hr. unfold handleInbound, requestIDFrom. set (id := requestID _ _). specialize (Hr id).
  destruct (serveHTTP parseUUID origin now (ib_route ib id) st) as [ans st'] eqn:Es.
  assert (∀ i, errorID ans = Some i → i = id) as He.
  { intros i Hi. destruct (gated (ib_route ib id)) as [h|] eqn:Hg.
    - rewrite (serve_gated parseUUID origin now _ h st Hg) in Es. unfold Middleware in Es.
      destruct (OwnerFromRequest now h (st_gate st)) as [o|]; [|by injection Es as <- <-].
      pose proof (asOwner_errorID parseUUID origin (ib_route ib id) o (st_api st) i) as Ha.
      destruct (asOwner parseUUID origin (ib_route ib id) o (st_api st)) as [ans1 a1]. injection Es as <- <-.
      specialize (Ha Hi). destruct Hr as [Hr|Hr]; congruence.
    - destruct (ib_route ib id); try done; simpl in Es; repeat case_match; simplify_eq/=. }
  unfold requestLogger. simpl. revert He. unfold id, requestID. case_bool_decide as Hb; intros He.
  - split_and!; [done|by intros ?|done|]. rewrite Hb. naive_solver.
  - naive_solver.
Qed.

(** ** Witnesses *)

Definition anonymousDelete : Inbound (E := LaunchEnv) :=
  mkInbound "DELETE" "/sessions/u1" "10.0.0.9:5001" "" "fresh" (λ id, DeleteSessionID (mkHReq [] "" "10.0.0.9:5001") id "u1" true 5).

Definition demoSite : Site (HostOf 3 2) := mkSite demoGate demoApi.
Definition aliceLogin : LoginReq := mkLoginReq (mkHReq [] "" "10.0.0.9:5000") "" (Some ("Alice", g_password demoGate)).
Definition aliceCookie : string :=
  match pg_Cookie (SubmitLogin 1000 aliceLogin demoGate).1 with Some c => ck_Value c | None => "" end.
Definition aliceReq : HReq := mkHReq [(CookieName, aliceCookie)] "" "10.0.0.9:5001".
Definition aliceCreates : Route LaunchEnv :=
  PostSessions aliceReq "q" NoBody (mkCreateEnv (mkLaunchEnv (Ok (demoVM "u1")) "other") "new" true 5 true 6).
Definition aliceSite : Site (HostOf 3 2) := serveRun Some demoOrigin [(2000, aliceCreates)] demoSite.

Lemma vm_needs_login_witness :
  ∃ now q h v, (now, q) ∈ [(2000, aliceCreates)] ∧ gated q = Some h ∧
    cookieNamed CookieName (hr_Cookies h) = Some v ∧ Verify now v demoGate = Ok "alice".
Proof.
  destruct (ownLive (mkAReq "alice" "u1" "q") (at_host (st_api aliceSite))) as [s|] eqn:Es; [|vm_compute in Es; discriminate].
  apply ownLive_Some in Es as [Hl Ho]. simpl in Hl, Ho. rewrite <- Ho.
  eapply (vm_needs_login Some demoOrigin [(2000, aliceCreates)] demoSite).
  - apply demoApi_inv.
  - split; [|done]. apply opOKb_sound. vm_compute. reflexivity.
  - exact Hl.
  - intros (a & Ha & _). vm_compute in Ha. discriminate.
Defined.

Lemma login_reaches_sessions_witness :
  ∃ name, Some ("Alice", g_password demoGate) = Some (name, g_password demoGate) ∧
    ap_Status (match (serveHTTP Some demoOrigin 2000 (GetCurrent aliceReq "q" [0%nat]) aliceSite).1 with
               | AnApi r => r
               | _ => mkAResp 0 AOk
               end) = 200.
Proof.
  destruct (pg_Cookie (SubmitLogin 1000 aliceLogin demoGate).1) as [c|] eqn:Ec; [|vm_compute in Ec; discriminate].
  destruct (login_reaches_sessions Some demoOrigin [(2000, aliceCreates)] demoSite 1000 2000 aliceLogin
    (SubmitLogin 1000 aliceLogin demoGate).1 c (mkSite (SubmitLogin 1000 aliceLogin demoGate).2 demoApi)
    (GetCurrent (mkHReq [(ck_Name c, ck_Value c)] "" "") "q" [0%nat]) "" "") as (name & Hn & _).
  - vm_compute. split; [discriminate|reflexivity].
  - vm_compute. discriminate.
  - simpl. by destruct (SubmitLogin 1000 aliceLogin demoGate).
  - exact Ec.
  - reflexivity.
  - exists name. split; [exact Hn|vm_compute; reflexivity].
Defined.

Lemma request_ids_agree_witness :
  let '(hdr, line, _, _) := handleInbound Some demoOrigin 2000 anonymousDelete demoSite in hdr = "fresh" ∧ ll_request_id line ≠ hdr.
Proof.
  pose proof (request_ids_agree Some demoOrigin 2000 anonymousDelete demoSite) as H.
  destruct (handleInbound Some demoOrigin 2000 anonymousDelete demoSite) as [[[hdr line] ans] st] eqn:E.
  destruct H as (_ & _ & _ & Hl); [discriminate|intros id; right; reflexivity|].
  split; [|intros Heq; apply Hl in Heq; apply Heq; reflexivity].
  apply (f_equal (λ x, x.1.1.1)) in E. vm_compute in E. symmetry. exact E.
Defined.
