(* ===== verification/Daemon.v ===== *)
(** The start of the control plane, [main] and [pickLauncher] of
    control-plane/cmd/microvm-terminal/main.go: configuration, database and
    migrations, login gate, launcher, warm pool and session host, in this
    order, with [os.Exit(1)] at the first failure. *)
From S2P Require Import Prelude GoLib NetAlloc Session Config HostOS Network Manager Ownership VMTable Host HostLive Store Sha256 Auth.
Open Scope Z_scope.

(** What stopped the daemon before it listened. *)
Inductive Fatal :=
| FatalConfig (e : ConfigErr) | FatalDB (e : OpenErr) | FatalMigrate (e : MigErr) | FatalGate (e : AuthErr)
| FatalLauncher (e : GoErr).

Section Daemon.
Context {OS D : Type} `{!HostOS OS}.
(** [yaml.Unmarshal], and what a script does to the schema. *)
Variable yaml : string → Config → option Config.
Variable exec : string → D → option D.

(** The VM launcher: in memory, or a Firecracker manager with the boot
    timeout its launches wait for. *)
Inductive LauncherOf :=
| MockLauncher
| ManagerLauncher (w : World OS) (boot : Z).

Definition pickLauncher (cfg : Config) : osM OS (res GoErr LauncherOf) := λ os,
  if c_UseMockLauncher cfg then (Ok MockLauncher, os)
  else match NewManager cfg os with
       | (Err e, os1) => (Err e, os1)
       | (Ok w, os1) => (Ok (ManagerLauncher w (wrapS64 (c_BootTimeoutSeconds cfg * second))), os1)
       end.

(** A session the mock launcher hands out. *)
Definition mockLaunch (now : Z) : option Session := NewInMemorySession "" now.

Record DaemonOf := mkDaemon {
  dm_cfg : Config;
  dm_gate : Gate;
  dm_launcher : LauncherOf;
  dm_pool : option Z;                (* the warm pool's target *)
  dm_maxLive : Z;
  dm_idleTimeout : Z
}.

(** What the machine looks like to the daemon. *)
Record Machine := mkMachine { mc_os : OS; mc_db : Db (D := D); mc_files : gmap string string; mc_pools : list PoolConf }.

(** What the start draws from outside: files, environment, whether the
    database can be opened, how the migrations go, randomness. *)
Record StartIn := mkStartIn {
  in_readFile : string → ReadResult; in_env : Env; in_path : string;
  in_open : OpenEnv; in_created : bool; in_mig : nat → MigEnv; in_entries : list (string * string);
  in_rnd : option string; in_wok : bool
}.

Definition startDaemon (i : StartIn) (m : Machine) : res Fatal DaemonOf * Machine :=
  match Load yaml (in_readFile i) (in_env i) (in_path i) with
  | Err e => (Err (FatalConfig e), m)
  | Ok cfg =>
    let '(r, pools) := Open (in_open i) (c_DatabaseURL cfg) (mc_pools m) in
    let m0 := mkMachine (mc_os m) (mc_db m) (mc_files m) pools in
    match r with
    | Err e => (Err (FatalDB e), m0)
    | Ok _ =>
      let '(r, db) := Migrate exec (in_created i) (in_mig i) (in_entries i) (mc_db m0) in
      let m1 := mkMachine (mc_os m0) db (mc_files m0) pools in
      match r with
      | Err e => (Err (FatalMigrate e), m1)
      | Ok _ =>
        let '(r, files) := NewGate (in_rnd i) (in_wok i) (c_PasswordFile cfg) (c_CookieSecretFile cfg)
                             (mkOptions (c_SecureCookies cfg) (c_CookieDomain cfg)) (mc_files m1) in
        let m2 := mkMachine (mc_os m1) (mc_db m1) files pools in
        match r with
        | Err e => (Err (FatalGate e), m2)
        | Ok gate =>
          let '(r, os) := pickLauncher cfg (mc_os m2) in
          let m3 := mkMachine os (mc_db m2) (mc_files m2) pools in
          match r with
          | Err e => (Err (FatalLauncher e), m3)
          | Ok l => (Ok (mkDaemon cfg gate l
                          (if 0 <? c_WarmPoolTarget cfg then Some (NewWarmPoolTarget (c_WarmPoolTarget cfg)) else None)
                          (NewHostMax (c_MaxConcurrent cfg))
                          (wrapS64 (c_IdleTimeoutSeconds cfg * second))), m3)
          end
        end
      end
    end
  end.

(** ** Lemmas *)

Lemma migrateOne_ok env f db db' : migrateOne exec env f db = (Ok tt, db') →
  f.1 ∈ d_applied db' ∧ d_applied db ⊆ d_applied db'.
Proof.
  destruct f as [name raw]. unfold migrateOne. destruct (me_query env); simpl; [|done].
  case_bool_decide as Ha; [by intros [= <-]|]. case_bool_decide; [done|].
  destruct (me_begin env); simpl; [|done]. destruct (if me_exec env then _ else _) as [data|]; [|done].
  destruct (me_record env); simpl; [|done]. destruct (me_commit env); intros [= <-]; simpl. set_solver.
Qed.

Lemma migrateAll_ok files : ∀ env db db', migrateAll exec env files db = (Ok tt, db') →
  (∀ f, f ∈ files → f.1 ∈ d_applied db') ∧ d_applied db ⊆ d_applied db'.
Proof.
  induction files as [|f files IH]; intros env db db'; simpl.
  { intros [= <-]. split; [by intros f ?%not_elem_of_nil|done]. }
  destruct (migrateOne exec (env 0%nat) f db) as [[[]|e] db1] eqn:E; [|done]. intros Hm.
  destruct (IH _ _ _ Hm) as [H1 H2]. destruct (migrateOne_ok _ _ _ _ E) as [H3 H4].
  split; [|set_solver]. intros g [->|Hg]%elem_of_cons; [set_solver|by apply H1].
Qed.

Lemma Open_ok e url pools conf pools' : Open e url pools = (Ok conf, pools') → pools' = poolConf url :: pools.
Proof. unfold Open. destruct (oe_parse e url), (oe_pool e), (oe_ping e); simpl; congruence. Qed.

(** A database that could not be opened leaves no pool behind. *)
Lemma Open_err e url pools err pools' : Open e url pools = (Err err, pools') → pools' = pools.
Proof. unfold Open. destruct (oe_parse e url), (oe_pool e), (oe_ping e); simpl; congruence. Qed.

Lemma NewGate_ok rnd wok pf cf opts files g files' :
  NewGate rnd wok pf cf opts files = (Ok g, files') → (8 ≤ String.length (g_password g))%nat ∧ g_opts g = opts.
Proof.
  unfold NewGate. destruct (files !! pf) as [b|]; [|done]. case_match eqn:Hlen; [done|].
  destruct (loadOrCreateSecret rnd wok cf files) as [[secret|e] files1]; [|done]. intros [= <- <-]. simpl.
  apply Nat.ltb_ge in Hlen. done.
Qed.

(** What the launcher's start did to the host. *)
Definition launcherUp (cfg : Config) (os' : OS) (l : LauncherOf) : Prop :=
  match l with
  | MockLauncher => c_UseMockLauncher cfg = true
  | ManagerLauncher w boot =>
    c_UseMockLauncher cfg = false ∧ w_os w = os' ∧ w_sessions w = ∅ ∧
    c_BridgeName cfg ∈ o_links (obs os') ∧
    (∃ subnet upstream, (Some "nat", natRule subnet upstream) ∈ o_rules (obs os')) ∧
    (c_BootTimeoutSeconds cfg ≤ 10 ^ 9 → boot = c_BootTimeoutSeconds cfg * second ∧ 0 < boot)
  end.

Lemma pickLauncher_ok `{!HostOSLaws OS} cfg os l os' :
  validate cfg = Ok tt → pickLauncher cfg os = (Ok l, os') → launcherUp cfg os' l ∧
  (c_UseMockLauncher cfg = true → os' = os).
Proof.
  intros Hv%validate_iff. unfold pickLauncher. destruct (c_UseMockLauncher cfg) eqn:Hm.
  { intros [= <- <-]. done. }
  unfold NewManager. destruct (NetAlloc.New (c_VMCIDR cfg)) as [al|]; [|done].
  destruct (ParsePrefix (c_VMCIDR cfg)) as [subnet|]; [|done].
  destruct (detectUpstreamIface os) as [up|]; [|done].
  pose proof (wp_run _ _ _ (wp_EnsureBridge (c_BridgeName cfg) (HostAddr al) (PrefixLen al) subnet up os)) as [_ Hb].
  destruct (EnsureBridge (c_BridgeName cfg) (HostAddr al) (PrefixLen al) subnet up os) as [[[]|e] os1]; [|done].
  intros [= <- <-]. destruct (Hb eq_refl) as [Hb1 Hb2]. split; [|done]. simpl. split_and!; eauto.
  intros Hmax. rewrite wrapS64_id; unfold second, int64_ok, two63; lia.
Qed.
End Daemon.
Arguments mkMachine {OS D} _ _ _ _.

(** ** Properties *)


(** ** A concrete start *)

Definition demoStart : StartIn :=
  mkStartIn (λ _, RdNotExist) (λ k, if bool_decide (k = "PASSWORD_FILE") then "/pw" else "") "/etc/microvm-terminal/config.yaml"
    (mkOpenEnv (λ _, true) true true) true allGood demoEntries (Some "0123456789abcdef0123456789abcdef") true.
Definition demoMachine : Machine (OS := SimOS) (D := list string) :=
  mkMachine demoHost (mkDb [] ∅) {["/pw" := "correct horse"]} [].

