(* ===== verification/Quota.v ===== *)
(** The proxy's per-session quotas, proxy/internal/quota/quota.go: a fixed
    window on the request rate, taken at [Reserve], and cumulative caps on
    requests and tokens, recorded at [Commit]. *)
From S2P Require Import Prelude GoLib Session.
Open Scope Z_scope.

Definition minute : Z := 60 * second.

Record Limits := mkLimits {
  MaxTokensIn : Z;
  MaxTokensOut : Z;
  MaxRequests : Z;
  MaxRequestsPerMinute : Z
}.

Definition DefaultLimits : Limits := mkLimits 60000 120000 60 12.

Record Usage := mkUsage { TokensIn : Z; TokensOut : Z; Requests : Z }.

Inductive QCode := CodeTokensIn | CodeTokensOut | CodeRequests | CodeRateLimit.

#[export] Instance QCode_eq_dec : EqDecision QCode.
Proof. solve_decision. Defined.

Record QError := mkQError { qe_Code : QCode; qe_RetryAfter : Z; qe_SessionID : string }.

#[export] Instance QError_eq_dec : EqDecision QError.
Proof. solve_decision. Defined.

Record bucket := mkBucket { b_usage : Usage; b_windowStart : Z; b_windowCount : Z }.

Record Manager := mkManager { q_limits : Limits; q_buckets : gmap string bucket }.

(** [New]: limits without an input cap are replaced as a whole. *)
Definition New (l : Limits) : Manager :=
  mkManager (if MaxTokensIn l <=? 0 then DefaultLimits else l) ∅.

(** [get]: the session's bucket, made on first use. *)
Definition get (now : Z) (sid : string) (m : Manager) : bucket :=
  match q_buckets m !! sid with
  | Some b => b
  | None => mkBucket (mkUsage 0 0 0) now 0
  end.

Definition setBucket (sid : string) (b : bucket) (m : Manager) : Manager :=
  mkManager (q_limits m) (<[sid := b]> (q_buckets m)).

(** The window of a bucket at [now]: a new one when a minute has passed. *)
Definition rollWindow (now : Z) (b : bucket) : bucket :=
  if minute <=? satS64 (now - b_windowStart b) then mkBucket (b_usage b) now 0 else b.

(** [Reserve] on one bucket. *)
Definition reserveBucket (l : Limits) (sid : string) (now : Z) (b0 : bucket)
    : option QError * bucket :=
  let b := rollWindow now b0 in
  if MaxRequestsPerMinute l <=? b_windowCount b then
    let retry := wrapS64 (minute - satS64 (now - b_windowStart b)) in
    (Some (mkQError CodeRateLimit (if retry <? second then second else retry) sid), b)
  else if MaxRequests l <=? Requests (b_usage b) then
    (Some (mkQError CodeRequests 0 sid), b)
  else if MaxTokensIn l <=? TokensIn (b_usage b) then
    (Some (mkQError CodeTokensIn 0 sid), b)
  else if MaxTokensOut l <=? TokensOut (b_usage b) then
    (Some (mkQError CodeTokensOut 0 sid), b)
  else (None, mkBucket (b_usage b) (b_windowStart b) (wrapS64 (b_windowCount b + 1))).

Definition Reserve (now : Z) (sid : string) (m : Manager) : option QError * Manager :=
  let '(r, b) := reserveBucket (q_limits m) sid now (get now sid m) in
  (r, setBucket sid b m).

Definition commitBucket (tin tout : Z) (b : bucket) : bucket :=
  mkBucket (mkUsage (wrapS64 (TokensIn (b_usage b) + tin)) (wrapS64 (TokensOut (b_usage b) + tout))
              (wrapS64 (Requests (b_usage b) + 1)))
    (b_windowStart b) (b_windowCount b).

Definition Commit (now : Z) (sid : string) (tin tout : Z) (m : Manager) : Manager :=
  setBucket sid (commitBucket tin tout (get now sid m)) m.

Definition refundBucket (b : bucket) : bucket :=
  if 0 <? b_windowCount b
  then mkBucket (b_usage b) (b_windowStart b) (b_windowCount b - 1) else b.

Definition Refund (now : Z) (sid : string) (m : Manager) : Manager :=
  setBucket sid (refundBucket (get now sid m)) m.

(** [Usage]: a snapshot; looking creates the bucket. *)
Definition usageOf (now : Z) (sid : string) (m : Manager) : Usage * Manager :=
  let b := get now sid m in (b_usage b, setBucket sid b m).

Definition Reset (sid : string) (m : Manager) : Manager :=
  mkManager (q_limits m) (delete sid (q_buckets m)).

(** ** Histories *)

Inductive QOp :=
| QReserve | QCommit (tin tout : Z) | QRefund.

(** A call on a session's bucket at a time, and whether a reservation was
    granted. *)
Definition stepB (l : Limits) (sid : string) (now : Z) (o : QOp) (b : bucket) : bool * bucket :=
  match o with
  | QReserve => let '(r, b') := reserveBucket l sid now b in (bool_decide (r = None), b')
  | QCommit tin tout => (false, commitBucket tin tout b)
  | QRefund => (false, refundBucket b)
  end.

(** The number of reservations granted along a history. *)
Fixpoint grants (l : Limits) (sid : string) (ops : list (Z * QOp)) (b : bucket) : Z * bucket :=
  match ops with
  | [] => (0, b)
  | (now, o) :: ops' =>
    let '(g, b1) := stepB l sid now o b in
    let '(n, b2) := grants l sid ops' b1 in ((if g then 1 else 0) + n, b2)
  end.

(** The same history on the manager. *)
Definition stepQ (sid : string) (now : Z) (o : QOp) (m : Manager) : bool * Manager :=
  match o with
  | QReserve => let '(r, m') := Reserve now sid m in (bool_decide (r = None), m')
  | QCommit tin tout => (false, Commit now sid tin tout m)
  | QRefund => (false, Refund now sid m)
  end.

Fixpoint runQ (ops : list (string * Z * QOp)) (m : Manager) : list bool * Manager :=
  match ops with
  | [] => ([], m)
  | (sid, now, o) :: ops' =>
    let '(g, m1) := stepQ sid now o m in
    let '(gs, m2) := runQ ops' m1 in (g :: gs, m2)
  end.

Definition isRefund (o : QOp) : bool := match o with QRefund => true | _ => false end.
Definition refunds (ops : list (Z * QOp)) : Z :=
  Z.of_nat (length (List.filter (λ p : Z * QOp, isRefund p.2) ops)).

(** ** The rate *)

(** The counter of a bucket stays between zero and the cap. *)
Definition windowOK (l : Limits) (b : bucket) : Prop :=
  0 ≤ b_windowCount b ≤ MaxRequestsPerMinute l.

Definition limitsOK (l : Limits) : Prop := 0 ≤ MaxRequestsPerMinute l < two63 - 1.

Lemma rollWindow_ok l now b : limitsOK l → windowOK l b → windowOK l (rollWindow now b).
Proof. unfold limitsOK, windowOK, rollWindow. intros. case_match; simpl; lia. Qed.

Lemma reserveBucket_spec l sid now b :
  limitsOK l → windowOK l b →
  let '(r, b') := reserveBucket l sid now b in
  b_usage b' = b_usage b ∧ b_windowStart b' = b_windowStart (rollWindow now b) ∧
  b_windowCount b' =
    b_windowCount (rollWindow now b) + (if bool_decide (r = None) then 1 else 0) ∧
  windowOK l b' ∧
  (r = None → Requests (b_usage b) < MaxRequests l ∧ TokensIn (b_usage b) < MaxTokensIn l ∧
              TokensOut (b_usage b) < MaxTokensOut l).
Proof.
  intros Hl Hb. pose proof (rollWindow_ok l now b Hl Hb) as Hr.
  assert (b_usage (rollWindow now b) = b_usage b) as Hu by (unfold rollWindow; by case_match).
  unfold reserveBucket. cbv zeta. rewrite !Hu. unfold windowOK, limitsOK in *.
  destruct (Z.leb_spec (MaxRequestsPerMinute l) (b_windowCount (rollWindow now b)));
    [simpl; split_and!; try done; lia|].
  destruct (Z.leb_spec (MaxRequests l) (Requests (b_usage b))); [simpl; split_and!; try done; lia|].
  destruct (Z.leb_spec (MaxTokensIn l) (TokensIn (b_usage b))); [simpl; split_and!; try done; lia|].
  destruct (Z.leb_spec (MaxTokensOut l) (TokensOut (b_usage b))); [simpl; split_and!; try done; lia|].
  cbn [b_usage b_windowStart b_windowCount].
  rewrite bool_decide_true by done.
  rewrite wrapS64_id by (unfold int64_ok, two63 in *; lia). split_and!; try done; lia.
Qed.

Lemma stepB_window l sid now o b :
  limitsOK l → windowOK l b →
  let '(g, b') := stepB l sid now o b in
  windowOK l b' ∧
  (b_windowStart b' = b_windowStart b ∧
     b_windowCount b + (if g : bool then 1 else 0)
       ≤ b_windowCount b' + (if isRefund o then 1 else 0) ∨
   (b_windowStart b' = now ∧ o = QReserve ∧ minute ≤ satS64 (now - b_windowStart b) ∧
    b_windowCount b' = (if g then 1 else 0))).
Proof.
  intros Hl Hb. destruct o as [|tin tout|]; cbn [stepB isRefund].
  - pose proof (reserveBucket_spec l sid now b Hl Hb) as Hs.
    destruct (reserveBucket l sid now b) as [r b']. destruct Hs as (_ & Hw & Hc & Hok & _).
    split; [done|]. unfold rollWindow in *.
    destruct (Z.leb_spec minute (satS64 (now - b_windowStart b))); [right|left];
      simpl in *; split_and!; try done; lia.
  - split; [done|]. left. simpl. lia.
  - unfold refundBucket, windowOK in *. destruct (Z.ltb_spec 0 (b_windowCount b)); simpl;
      (split; [lia|left; simpl; lia]).
Qed.

(** Within one window: no more grants than the cap has left, and what
    refunds give back. *)
Lemma grants_one_window l sid ops : ∀ b,
  limitsOK l → windowOK l b →
  Forall (λ p : Z * QOp, satS64 (p.1 - b_windowStart b) < minute) ops →
  (grants l sid ops b).1 ≤ MaxRequestsPerMinute l - b_windowCount b + refunds ops.
Proof.
  induction ops as [|[now o] ops IH]; intros b Hl Hb Ht; cbn [grants].
  - unfold windowOK in Hb. change (refunds []) with 0. simpl. lia.
  - apply Forall_cons in Ht as [Hnow Ht].
    pose proof (stepB_window l sid now o b Hl Hb) as Hs.
    destruct (stepB l sid now o b) as [g b1]. destruct Hs as [Hb1 [[Hw Hc]|(_ & _ & Hm & _)]];
      [|simpl in Hnow; lia].
    specialize (IH b1 Hl Hb1). rewrite Hw in IH. specialize (IH Ht).
    destruct (grants l sid ops b1) as [n b2]. cbn [fst] in *.
    assert (refunds ((now, o) :: ops) = (if isRefund o then 1 else 0) + refunds ops) as ->.
    { unfold refunds. simpl. destruct (isRefund o); simpl length; lia. }
    lia.
Qed.

(** Over any span shorter than a minute the window rolls over at most
    once. *)
Lemma grants_one_minute l sid t0 ops : ∀ b,
  limitsOK l → windowOK l b →
  Forall (λ p : Z * QOp, t0 ≤ p.1 < t0 + minute) ops →
  (grants l sid ops b).1 ≤ 2 * MaxRequestsPerMinute l - b_windowCount b + refunds ops.
Proof.
  induction ops as [|[now o] ops IH]; intros b Hl Hb Ht; cbn [grants].
  - unfold windowOK in Hb. change (refunds []) with 0. simpl. lia.
  - apply Forall_cons in Ht as [Hnow Ht].
    pose proof (stepB_window l sid now o b Hl Hb) as Hs.
    destruct (stepB l sid now o b) as [g b1].
    assert (refunds ((now, o) :: ops) = (if isRefund o then 1 else 0) + refunds ops) as ->.
    { unfold refunds. simpl. destruct (isRefund o); simpl length; lia. }
    destruct Hs as [Hb1 [[Hw Hc]|(Hw & -> & Hm & Hc)]].
    + specialize (IH b1 Hl Hb1 Ht). destruct (grants l sid ops b1) as [n b2]. cbn [fst] in *. lia.
    + pose proof (grants_one_window l sid ops b1 Hl Hb1) as Hg. rewrite Hw in Hg.
      assert (Forall (λ p : Z * QOp, satS64 (p.1 - now) < minute) ops) as Ht'.
      { eapply Forall_impl; [exact Ht|]. intros p Hp. simpl in Hnow. unfold satS64, minute, second, two63 in *.
        lia. }
      specialize (Hg Ht'). destruct (grants l sid ops b1) as [n b2]. cbn [fst isRefund] in *.
      unfold windowOK in Hb. lia.
Qed.

(** ** Sessions do not see each other *)

Definition projQ (sid : string) (ops : list (string * Z * QOp)) : list (Z * QOp) :=
  omap (λ x : string * Z * QOp, let '(s, now, o) := x in if decide (s = sid) then Some (now, o) else None) ops.

(** The answers a session got. *)
Fixpoint answersOf (sid : string) (ops : list (string * Z * QOp)) (gs : list bool) : list bool :=
  match ops, gs with
  | (s, _, _) :: ops', g :: gs' =>
    if decide (s = sid) then g :: answersOf sid ops' gs' else answersOf sid ops' gs'
  | _, _ => []
  end.

(** A history on a bucket that is made on first use. *)
Fixpoint runB (l : Limits) (sid : string) (ops : list (Z * QOp)) (ob : option bucket)
    : list bool * option bucket :=
  match ops with
  | [] => ([], ob)
  | (now, o) :: ops' =>
    let '(g, b1) := stepB l sid now o (default (mkBucket (mkUsage 0 0 0) now 0) ob) in
    let '(gs, ob2) := runB l sid ops' (Some b1) in (g :: gs, ob2)
  end.

Lemma stepQ_bucket sid now o m :
  let ob := default (mkBucket (mkUsage 0 0 0) now 0) (q_buckets m !! sid) in
  stepQ sid now o m = ((stepB (q_limits m) sid now o ob).1,
                       setBucket sid (stepB (q_limits m) sid now o ob).2 m).
Proof.
  intros ob.
  assert (get now sid m = ob) as Hg by (unfold get, ob; by destruct (q_buckets m !! sid)).
  destruct o; cbn [stepQ stepB]; unfold Reserve, Commit, Refund; rewrite Hg; try done.
  by destruct (reserveBucket (q_limits m) sid now ob).
Qed.

Lemma runQ_session sid ops : ∀ m,
  answersOf sid ops (runQ ops m).1 = (runB (q_limits m) sid (projQ sid ops) (q_buckets m !! sid)).1 ∧
  q_buckets (runQ ops m).2 !! sid = (runB (q_limits m) sid (projQ sid ops) (q_buckets m !! sid)).2 ∧
  q_limits (runQ ops m).2 = q_limits m.
Proof.
  induction ops as [|[[s now] o] ops IH]; intros m; [done|]. cbn [runQ].
  rewrite stepQ_bucket. cbv beta iota zeta.
  set (b1 := stepB (q_limits m) s now o _).
  specialize (IH (setBucket s b1.2 m)). destruct (runQ ops (setBucket s b1.2 m)) as [gs m2].
  cbn [fst snd] in *. destruct IH as (IH1 & IH2 & IH3). cbn [answersOf].
  unfold projQ. cbn [omap list_omap]. fold (projQ sid ops).
  cbn [setBucket q_limits q_buckets] in *. destruct (decide (s = sid)) as [->|Hne].
  - cbn [runB]. rewrite lookup_insert_eq in IH1, IH2. unfold b1 in *.
    destruct (stepB (q_limits m) sid now o _) as [g b]. cbn [fst snd] in *.
    destruct (runB (q_limits m) sid (projQ sid ops) (Some b)) as [gs' ob]. cbn [fst snd] in *.
    split_and!; [by f_equal|done|done].
  - rewrite lookup_insert_ne in IH1, IH2 by done. done.
Qed.

Definition ones (gs : list bool) : Z := Z.of_nat (length (List.filter id gs)).

Lemma runB_grants l sid ops : ∀ b,
  ones (runB l sid ops (Some b)).1 = (grants l sid ops b).1 ∧
  (runB l sid ops (Some b)).2 = Some (grants l sid ops b).2.
Proof.
  induction ops as [|[now o] ops IH]; intros b; cbn [runB grants]; [done|]. simpl default.
  destruct (stepB l sid now o b) as [g b1]. specialize (IH b1).
  destruct (runB l sid ops (Some b1)) as [gs ob], (grants l sid ops b1) as [n b2].
  cbn [fst snd] in *. destruct IH as [<- ->]. split; [|done].
  unfold ones. simpl. destruct g; simpl length; lia.
Qed.

Lemma runB_window l sid ops : ∀ ob,
  limitsOK l → (∀ b, ob = Some b → windowOK l b) → ∀ b, (runB l sid ops ob).2 = Some b → windowOK l b.
Proof.
  induction ops as [|[now o] ops IH]; intros ob Hl Hob; cbn [runB]; [done|].
  set (b0 := default _ ob).
  assert (windowOK l b0) as Hb0.
  { unfold b0. destruct ob; [by apply Hob|]. unfold windowOK, limitsOK in *. simpl. lia. }
  pose proof (stepB_window l sid now o b0 Hl Hb0) as Hs. destruct (stepB l sid now o b0) as [g b1].
  specialize (IH (Some b1) Hl). destruct (runB l sid ops (Some b1)) as [gs ob2].
  apply IH. intros b [= <-]. by destruct Hs.
Qed.

Definition refundsOf (sid : string) (ops : list (string * Z * QOp)) : Z := refunds (projQ sid ops).

(** ** The budget *)

(** A history in which at most [k] requests of the session are in flight at
    a time, each commit or refund belongs to a granted reservation, and a
    request uses at most [T] tokens each way. *)
Fixpoint disciplined (l : Limits) (sid : string) (k T : Z) (ops : list (Z * QOp)) (b : bucket)
    (out : Z) : Prop :=
  match ops with
  | [] => True
  | (now, o) :: ops' =>
    let '(g, b1) := stepB l sid now o b in
    match o with
    | QReserve => (if g : bool then out + 1 ≤ k else True) ∧
                  disciplined l sid k T ops' b1 (out + if g then 1 else 0)
    | QCommit tin tout => 0 < out ∧ 0 ≤ tin ≤ T ∧ 0 ≤ tout ≤ T ∧
                          disciplined l sid k T ops' b1 (out - 1)
    | QRefund => 0 < out ∧ disciplined l sid k T ops' b1 (out - 1)
    end
  end.

Record budget (l : Limits) (k T : Z) (b : bucket) (out : Z) : Prop := {
  bu_win : windowOK l b;
  bu_out : 0 ≤ out;
  bu_req : 0 ≤ Requests (b_usage b) ∧ Requests (b_usage b) + out ≤ MaxRequests l - 1 + k;
  bu_in : 0 ≤ TokensIn (b_usage b) ∧ TokensIn (b_usage b) + T * out ≤ MaxTokensIn l - 1 + k * T;
  bu_tout : 0 ≤ TokensOut (b_usage b) ∧
            TokensOut (b_usage b) + T * out ≤ MaxTokensOut l - 1 + k * T
}.

Definition sizesOK (l : Limits) (k T : Z) : Prop :=
  0 ≤ k ∧ 0 ≤ T ∧ MaxRequests l + k < two63 ∧ MaxTokensIn l + k * T < two63 ∧
  MaxTokensOut l + k * T < two63.

(** What one call does to the number of requests in flight, and when it may
    be made. *)
Definition outAfter (o : QOp) (g : bool) (out : Z) : Z :=
  match o with QReserve => out + (if g then 1 else 0) | _ => out - 1 end.
Definition mayCall (k T : Z) (o : QOp) (g : bool) (out : Z) : Prop :=
  match o with
  | QReserve => if g then out + 1 ≤ k else True
  | QCommit tin tout => 0 < out ∧ 0 ≤ tin ≤ T ∧ 0 ≤ tout ≤ T
  | QRefund => 0 < out
  end.

Lemma budget_call l sid k T now o b out :
  limitsOK l → sizesOK l k T → budget l k T b out → mayCall k T o (stepB l sid now o b).1 out →
  budget l k T (stepB l sid now o b).2 (outAfter o (stepB l sid now o b).1 out).
Proof.
  intros Hl (Hk & HT & Hs1 & Hs2 & Hs3) [Hw Ho Hr Hi Ht].
  pose proof (stepB_window l sid now o b Hl Hw) as Hw1.
  destruct o as [|tin tout|]; cbn [stepB outAfter mayCall] in *.
  - pose proof (reserveBucket_spec l sid now b Hl Hw) as Hs.
    destruct (reserveBucket l sid now b) as [r b1]. cbn [fst snd].
    destruct Hs as (Hu & _ & _ & Hok & Hgr). intros Hle. case_bool_decide as Hn.
    + destruct (Hgr Hn) as (?&?&?). split; rewrite ?Hu; try done; try lia; nia.
    + split; rewrite ?Hu, ?Z.add_0_r; done.
  - intros (Hpos & Hin & Hout).
    split; [by destruct Hw1|lia|..]; cbn [snd commitBucket b_usage TokensIn TokensOut Requests];
      rewrite wrapS64_id; unfold int64_ok, two63 in *; nia.
  - intros Hpos. assert (b_usage (refundBucket b) = b_usage b) as Hu
      by (unfold refundBucket; by destruct (0 <? b_windowCount b)).
    split; [by destruct Hw1|lia|..]; cbn [snd]; rewrite ?Hu; try lia; nia.
Qed.

Lemma budget_step l sid k T now o b out ops :
  limitsOK l → sizesOK l k T → budget l k T b out → disciplined l sid k T ((now, o) :: ops) b out →
  ∃ out', budget l k T (stepB l sid now o b).2 out' ∧
          disciplined l sid k T ops (stepB l sid now o b).2 out'.
Proof.
  intros Hl Hs Hb. pose proof (budget_call l sid k T now o b out Hl Hs Hb) as Hc. cbn [disciplined].
  destruct (stepB l sid now o b) as [g b1]. cbn [fst snd] in *.
  destruct o; cbn [mayCall outAfter] in Hc; intros Hd; eexists; (split; [apply Hc|]); tauto.
Qed.

Lemma budget_run l sid k T ops : ∀ b out,
  limitsOK l → sizesOK l k T → budget l k T b out → disciplined l sid k T ops b out →
  ∃ out', budget l k T (grants l sid ops b).2 out'.
Proof.
  induction ops as [|[now o] ops IH]; intros b out Hl Hs Hb Hd; [by exists out|].
  destruct (budget_step l sid k T now o b out ops Hl Hs Hb Hd) as (out' & Hb' & Hd').
  cbn [grants]. destruct (stepB l sid now o b) as [g b1]. cbn [snd] in *.
  destruct (IH b1 out' Hl Hs Hb' Hd') as (out2 & Hb2). exists out2.
  by destruct (grants l sid ops b1).
Qed.

(** ** Properties *)

(** C8: the request rate of a session is bounded whatever the other
    sessions do and however the calls interleave: over any span of less than
    a minute, anywhere in any history, a session is granted at most twice
    its per-minute cap (the window is fixed, not sliding) plus what it was
    refunded. *)
Theorem rate_cap_per_minute (l : Limits) (pre mid : list (string * Z * QOp)) (sid : string) (t0 : Z) :
  let m1 := (runQ pre (New l)).2 in
  let cap := MaxRequestsPerMinute (q_limits m1) in
  0 ≤ cap < two63 - 1 →
  Forall (λ p : Z * QOp, t0 ≤ p.1 < t0 + minute) (projQ sid mid) →
  ones (answersOf sid mid (runQ mid m1).1) ≤ 2 * cap + refundsOf sid mid.
Proof.
  intros m1 cap Hcap Ht.
  destruct (runQ_session sid mid m1) as (Hans & _ & _). rewrite Hans.
  destruct (runQ_session sid pre (New l)) as (_ & Hb & Hlim). fold m1 in Hb, Hlim.
  assert (limitsOK (q_limits m1)) as Hl by done.
  assert (∀ b, q_buckets m1 !! sid = Some b → windowOK (q_limits m1) b) as Hw.
  { rewrite Hb, Hlim. apply runB_window; [by rewrite <- Hlim|done]. }
  unfold refundsOf. destruct (projQ sid mid) as [|[now o] ops] eqn:Ep; cbn [runB].
  - unfold ones, refunds. simpl. lia.
  - set (b0 := default (mkBucket (mkUsage 0 0 0) now 0) (q_buckets m1 !! sid)).
    assert (windowOK (q_limits m1) b0) as Hb0.
    { unfold b0. destruct (q_buckets m1 !! sid); [by apply Hw|]. unfold windowOK. simpl. lia. }
    pose proof (grants_one_minute (q_limits m1) sid t0 ((now, o) :: ops) b0 Hl Hb0 Ht) as Hg.
    pose proof (runB_grants (q_limits m1) sid ((now, o) :: ops) b0) as [Ho _].
    cbn [runB] in Ho. change (default _ (Some b0)) with b0 in Ho. fold b0.
    destruct (stepB (q_limits m1) sid now o b0) as [g b1].
    destruct (runB (q_limits m1) sid ops (Some b1)) as [gs ob]. cbn [fst] in *. rewrite Ho.
    unfold windowOK in Hb0. fold cap. fold cap in Hb0, Hg. lia.
Qed.

Lemma rate_cap_per_minute_witness :
  ones (answersOf "a" [("a", 59 * second, QReserve); ("b", 59 * second, QReserve);
                       ("a", 60 * second, QReserve); ("a", 61 * second, QReserve)]
    (runQ [("a", 59 * second, QReserve); ("b", 59 * second, QReserve);
           ("a", 60 * second, QReserve); ("a", 61 * second, QReserve)]
       (runQ [("a", 0, QReserve); ("a", 0, QRefund)] (New (mkLimits 100 100 10 1))).2).1) ≤ 2 * 1 + 0.
Proof.
  apply (rate_cap_per_minute (mkLimits 100 100 10 1) [("a", 0, QReserve); ("a", 0, QRefund)]
    [("a", 59 * second, QReserve); ("b", 59 * second, QReserve);
     ("a", 60 * second, QReserve); ("a", 61 * second, QReserve)] "a" (59 * second)).
  - vm_compute. split; [discriminate|reflexivity].
  - repeat constructor; vm_compute; try discriminate; reflexivity.
Defined.

(** The cumulative caps hold up to the requests in flight: when a
    session never has more than [k] requests in flight and a request never
    uses more than [T] tokens each way, it commits at most
    [MaxRequests + k - 1] requests and at most [MaxTokens + k*T - 1] tokens
    in either direction, in particular at most one request's worth over the
    cap for a client that sends one request at a time. *)
Theorem budget_overshoot_bounded (l : Limits) (sid : string) (k T t0 : Z) (ops : list (Z * QOp)) :
  limitsOK l → sizesOK l k T → 0 < MaxRequests l → 0 < MaxTokensIn l → 0 < MaxTokensOut l →
  disciplined l sid k T ops (mkBucket (mkUsage 0 0 0) t0 0) 0 →
  let u := b_usage (grants l sid ops (mkBucket (mkUsage 0 0 0) t0 0)).2 in
  Requests u ≤ MaxRequests l + k - 1 ∧ TokensIn u ≤ MaxTokensIn l + k * T - 1 ∧
  TokensOut u ≤ MaxTokensOut l + k * T - 1.
Proof.
  intros Hl Hs H1 H2 H3 Hd u. pose proof Hs as (Hk & HT & _).
  destruct (budget_run l sid k T ops (mkBucket (mkUsage 0 0 0) t0 0) 0 Hl Hs) as (out & [_ Ho Hr Hi Ht]);
    [|done|].
  - split; unfold windowOK, limitsOK in *; simpl; nia.
  - fold u in Hr, Hi, Ht. nia.
Qed.

Definition demoHistory : list (Z * QOp) :=
  [(0, QReserve); (second, QCommit 90 40); (2 * second, QReserve); (3 * second, QCommit 90 40);
   (4 * second, QReserve)].

Lemma budget_overshoot_bounded_witness :
  TokensIn (b_usage (grants (mkLimits 100 100 10 5) "a" demoHistory (mkBucket (mkUsage 0 0 0) 0 0)).2)
    = 180 ∧
  TokensIn (b_usage (grants (mkLimits 100 100 10 5) "a" demoHistory (mkBucket (mkUsage 0 0 0) 0 0)).2)
    ≤ 100 + 1 * 90 - 1.
Proof.
  split; [vm_compute; reflexivity|].
  apply (budget_overshoot_bounded (mkLimits 100 100 10 5) "a" 1 90 0 demoHistory);
    try (vm_compute; repeat split; (reflexivity || discriminate)).
Defined.

(** A session's answers and its recorded usage are a function of its own
    calls: two histories in which it made the same calls at the same times
    give it the same answers and leave it the same bucket, whatever the other
    sessions did in between. *)
Theorem sessions_have_own_quota (l : Limits) (sid : string) (ops ops' : list (string * Z * QOp)) :
  projQ sid ops = projQ sid ops' →
  answersOf sid ops (runQ ops (New l)).1 = answersOf sid ops' (runQ ops' (New l)).1 ∧
  q_buckets (runQ ops (New l)).2 !! sid = q_buckets (runQ ops' (New l)).2 !! sid.
Proof.
  intros Hp. destruct (runQ_session sid ops (New l)) as (-> & -> & _).
  destruct (runQ_session sid ops' (New l)) as (-> & -> & _). by rewrite Hp.
Qed.

Lemma sessions_have_own_quota_witness :
  answersOf "a" [("a", 0, QReserve); ("b", 0, QReserve); ("a", 1, QReserve)]
    (runQ [("a", 0, QReserve); ("b", 0, QReserve); ("a", 1, QReserve)] (New (mkLimits 9 9 9 1))).1
  = answersOf "a" [("a", 0, QReserve); ("a", 1, QReserve)]
    (runQ [("a", 0, QReserve); ("a", 1, QReserve)] (New (mkLimits 9 9 9 1))).1.
Proof.
  apply (sessions_have_own_quota (mkLimits 9 9 9 1) "a"
    [("a", 0, QReserve); ("b", 0, QReserve); ("a", 1, QReserve)]
    [("a", 0, QReserve); ("a", 1, QReserve)]).
  reflexivity.
Defined.

(** A refund is taken from whatever window is current when it arrives:
    with a cap of one request a minute, refunding a request of the previous
    minute lets two requests of the new minute through. *)
Theorem refund_crosses_windows :
  let l := mkLimits 1000 1000 1000 1 in
  (runQ [("a", 0, QReserve); ("a", minute, QReserve); ("a", minute + second, QRefund);
         ("a", minute + 2 * second, QReserve)] (New l)).1 = [true; true; false; true].
Proof. vm_compute. reflexivity. Qed.
