(* ===== verification/Keys.v ===== *)
(** The proxy's key pool, proxy/internal/keys/keys.go: upstream keys, the
    session tokens pinned to them round-robin, and rotation. *)
From S2P Require Import Prelude GoLib Session.
Open Scope Z_scope.

Record Key := mkKey { k_ID : string; k_Workspace : string; k_Secret : string }.

#[export] Instance Key_eq_dec : EqDecision Key.
Proof. solve_decision. Defined.

Record Pool := mkPool {
  p_keys : list Key;
  p_sessionToKey : gmap string string;
  p_keyBySecret : gmap string Key;
  p_rr : Z                              (* int, 64 bits *)
}.

Inductive KeyErr := ErrEmptyPool | ErrKeyRevoked | ErrUnknownSession | ErrRand | ErrBadKeys | ErrPanic.

#[export] Instance KeyErr_eq_dec : EqDecision KeyErr.
Proof. solve_decision. Defined.

(** [LoadFromEnv]; [decode] is the JSON decoder on an array of keys. *)
Definition LoadFromEnv (decode : string → option (list Key)) (raw : string)
    : res KeyErr (list Key) :=
  if bool_decide (raw = "") then Err ErrEmptyPool
  else match decode raw with
       | None => Err ErrBadKeys
       | Some [] => Err ErrEmptyPool
       | Some ks =>
         if existsb (λ k, bool_decide (k_ID k = "") || bool_decide (k_Secret k = "")) ks
         then Err ErrBadKeys else Ok ks
       end.

(** The loop of [Replace]: a later key with the same id wins. *)
Definition indexKeys (next : list Key) : gmap string Key :=
  foldl (λ m k, <[k_ID k := k]> m) ∅ next.

Definition Replace (next : list Key) (p : Pool) : Pool :=
  mkPool next (p_sessionToKey p) (indexKeys next) (p_rr p).

Definition New (initial : list Key) : Pool := Replace initial (mkPool [] ∅ ∅ 0).

(** [randomToken]: 32 random bytes in hex; [None] when the source failed. *)
Definition randomToken (rnd : option string) : option string :=
  match rnd with Some b => Some ("sess_" +:+ hexEncode b) | None => None end.

(** [p.keys[p.rr%len(p.keys)]]: the remainder has the sign of the dividend,
    and an index out of range panics. *)
Definition keyAt (p : Pool) : option Key :=
  let i := Z.rem (p_rr p) (Z.of_nat (length (p_keys p))) in
  if i <? 0 then None else p_keys p !! Z.to_nat i.

Definition pin (token : string) (p : Pool) : res KeyErr unit * Pool :=
  match keyAt p with
  | None => (Err ErrPanic, p)
  | Some key => (Ok tt, mkPool (p_keys p) (<[token := k_ID key]> (p_sessionToKey p))
                          (p_keyBySecret p) (wrapS64 (p_rr p + 1)))
  end.

Definition MintSessionToken (rnd : option string) (p : Pool) : res KeyErr string * Pool :=
  if Nat.eqb (length (p_keys p)) 0 then (Err ErrEmptyPool, p)
  else match randomToken rnd with
       | None => (Err ErrRand, p)
       | Some token => let '(r, p') := pin token p in
                       (match r with Ok _ => Ok token | Err e => Err e end, p')
       end.

Definition RegisterSessionToken (token : string) (p : Pool) : res KeyErr unit * Pool :=
  if Nat.eqb (length (p_keys p)) 0 then (Err ErrEmptyPool, p) else pin token p.

Definition RevokeSessionToken (token : string) (p : Pool) : Pool :=
  mkPool (p_keys p) (delete token (p_sessionToKey p)) (p_keyBySecret p) (p_rr p).

Definition SecretForSession (token : string) (p : Pool) : res KeyErr (string * string) :=
  match p_sessionToKey p !! token with
  | None => Err ErrUnknownSession
  | Some keyID => match p_keyBySecret p !! keyID with
                  | None => Err ErrKeyRevoked
                  | Some k => Ok (k_Secret k, keyID)
                  end
  end.

(** [Stats] never fills [LastRotation], so it stays the zero time. *)
Record Stats := mkStats { st_Keys : nat; st_ActiveSessions : nat; st_LastRotation : Z }.
Definition StatsOf (p : Pool) : Stats :=
  mkStats (length (p_keys p)) (size (p_sessionToKey p)) Session.zeroTime.

(** ** Histories *)

Inductive KOp :=
| KMint (rnd : option string) | KRegister (token : string) | KRevoke (token : string)
| KReplace (next : list Key).

Definition stepK (o : KOp) (p : Pool) : Pool :=
  match o with
  | KMint rnd => (MintSessionToken rnd p).2
  | KRegister token => (RegisterSessionToken token p).2
  | KRevoke token => RevokeSessionToken token p
  | KReplace next => Replace next p
  end.

Definition runK (ops : list KOp) (p : Pool) : Pool := foldl (λ p o, stepK o p) p ops.

(** What a session's token is worth, read off the history alone: the
    operation that last pinned or revoked it, and the keys of the last
    rotation. *)
Definition lastKey (id : string) (ks : list Key) : option Key :=
  List.find (λ k, bool_decide (k_ID k = id)) (reverse ks).

(** The summary of a history: current keys, number of pins so far, and for
    one token the id it is pinned to. *)
Record Sum := mkSum { su_keys : list Key; su_n : Z; su_pin : option string }.

Definition pinSum (hit : bool) (s : Sum) : Sum :=
  match su_keys s !! Z.to_nat (su_n s mod Z.of_nat (length (su_keys s))) with
  | Some k => mkSum (su_keys s) (su_n s + 1) (if hit then Some (k_ID k) else su_pin s)
  | None => s
  end.

Definition sumStep (tok : string) (s : Sum) (o : KOp) : Sum :=
  match o with
  | KMint rnd => match randomToken rnd with
                 | Some t => pinSum (bool_decide (t = tok)) s
                 | None => s
                 end
  | KRegister t => pinSum (bool_decide (t = tok)) s
  | KRevoke t => if bool_decide (t = tok) then mkSum (su_keys s) (su_n s) None else s
  | KReplace next => mkSum next (su_n s) (su_pin s)
  end.

Definition summary (tok : string) (init : list Key) (ops : list KOp) : Sum :=
  foldl (sumStep tok) (mkSum init 0 None) ops.

Definition worth (s : Sum) : res KeyErr (string * string) :=
  match su_pin s with
  | None => Err ErrUnknownSession
  | Some id => match lastKey id (su_keys s) with
               | None => Err ErrKeyRevoked
               | Some k => Ok (k_Secret k, id)
               end
  end.

Lemma indexKeys_last ks id : indexKeys ks !! id = lastKey id ks.
Proof.
  unfold indexKeys, lastKey.
  induction ks as [|k ks IH] using rev_ind; [done|].
  rewrite foldl_app, reverse_app. cbn [foldl reverse app List.find].
  change (reverse [k] ++ reverse ks) with (k :: reverse ks). cbn [List.find].
  case_bool_decide as Hk.
  - subst id. by rewrite lookup_insert_eq.
  - by rewrite lookup_insert_ne.
Qed.

Record KInv (tok : string) (s : Sum) (p : Pool) : Prop := {
  ki_keys : p_keys p = su_keys s;
  ki_rr : p_rr p = su_n s;
  ki_index : p_keyBySecret p = indexKeys (su_keys s);
  ki_pin : p_sessionToKey p !! tok = su_pin s
}.

Lemma keyAt_sum tok s p : KInv tok s p → 0 ≤ su_n s →
  keyAt p = su_keys s !! Z.to_nat (su_n s mod Z.of_nat (length (su_keys s))).
Proof.
  intros [Hk Hr _ _] Hn. unfold keyAt. rewrite Hk, Hr.
  destruct (su_keys s) as [|k ks] eqn:E.
  - by case_match; rewrite ?lookup_nil.
  - rewrite Z.rem_mod_nonneg by (simpl; lia).
    pose proof (Z.mod_pos_bound (su_n s) (Z.of_nat (length (k :: ks))) ltac:(simpl; lia)).
    by destruct (Z.ltb_spec (su_n s mod Z.of_nat (length (k :: ks))) 0); [lia|].
Qed.

Lemma pin_sum tok t s p : KInv tok s p → 0 ≤ su_n s < two63 - 1 →
  KInv tok (pinSum (bool_decide (t = tok)) s) (pin t p).2.
Proof.
  intros HK Hn. pose proof HK as [Hk Hr Hi Hp]. unfold pin, pinSum.
  rewrite (keyAt_sum tok s p HK) by lia. destruct (su_keys s !! _) as [k|]; [|done].
  split; simpl; try done.
  - rewrite Hr. apply wrapS64_id. unfold int64_ok, two63 in *. lia.
  - case_bool_decide as Ht; [subst; by rewrite lookup_insert_eq|by rewrite lookup_insert_ne].
Qed.

Lemma pinSum_n hit s : su_n s ≤ su_n (pinSum hit s) ≤ su_n s + 1.
Proof. unfold pinSum. case_match; simpl; lia. Qed.

Lemma pinSum_empty hit s : su_keys s = [] → pinSum hit s = s.
Proof. intros E. unfold pinSum. by rewrite E, lookup_nil. Qed.

Lemma stepK_sum tok o s p : KInv tok s p → 0 ≤ su_n s < two63 - 1 →
  KInv tok (sumStep tok s o) (stepK o p) ∧ su_n s ≤ su_n (sumStep tok s o) ≤ su_n s + 1.
Proof.
  intros HK Hn. pose proof HK as [Hk Hr Hi Hp].
  destruct o as [rnd|t|t|next]; cbn [stepK sumStep].
  - unfold MintSessionToken. rewrite Hk. destruct (randomToken rnd) as [t|].
    + split; [|apply pinSum_n]. destruct (su_keys s) as [|k ks] eqn:E; cbn [length Nat.eqb].
      * by rewrite pinSum_empty.
      * pose proof (pin_sum tok t s p HK Hn) as Hs. by destruct (pin t p).
    + split; [|lia]. by destruct (Nat.eqb _ _).
  - unfold RegisterSessionToken. rewrite Hk. split; [|apply pinSum_n].
    destruct (su_keys s) as [|k ks] eqn:E; cbn [length Nat.eqb].
    + by rewrite pinSum_empty.
    + by apply pin_sum.
  - case_bool_decide as Ht; simpl; (split; [|lia]); split; simpl; try done.
    + subst. by rewrite lookup_delete_eq.
    + by rewrite lookup_delete_ne.
  - simpl. split; [|lia]. by split.
Qed.

Lemma runK_sum tok ops : ∀ s p, KInv tok s p → 0 ≤ su_n s →
  su_n s + Z.of_nat (length ops) < two63 →
  KInv tok (foldl (sumStep tok) s ops) (runK ops p).
Proof.
  induction ops as [|o ops IH]; intros s p HK Hn Hlen; [done|].
  cbn [length] in Hlen. unfold runK. cbn [foldl]. fold (runK ops (stepK o p)).
  destruct (stepK_sum tok o s p HK) as [HK' Hn']; [lia|]. apply IH; [done|lia..].
Qed.

Lemma New_sum tok init : KInv tok (mkSum init 0 None) (New init).
Proof. by split. Qed.

(** ** Round robin *)

(** The keys that a run of registrations hands out, seen from outside. *)
Fixpoint handedOut (toks : list string) (p : Pool) : list string :=
  match toks with
  | [] => []
  | t :: toks' =>
    let p1 := (RegisterSessionToken t p).2 in
    match SecretForSession t p1 with
    | Ok (_, id) => id :: handedOut toks' p1
    | Err _ => handedOut toks' p1
    end
  end.

Lemma lastKey_in k ks : k ∈ ks → ∃ k', lastKey (k_ID k) ks = Some k'.
Proof.
  intros Hk. destruct (lastKey (k_ID k) ks) as [k'|] eqn:E; [eauto|].
  exfalso. unfold lastKey in E. apply (List.find_none _ _) with (x := k) in E.
  - by case_bool_decide.
  - by apply list_elem_of_In, elem_of_reverse.
Qed.

Definition consistent (p : Pool) : Prop := p_keyBySecret p = indexKeys (p_keys p).

Lemma handedOut_lookup toks : ∀ p,
  consistent p → p_keys p ≠ [] → 0 ≤ p_rr p → p_rr p + Z.of_nat (length toks) < two63 →
  ∀ i, (i < length toks)%nat →
  handedOut toks p !! i =
  k_ID <$> p_keys p !! Z.to_nat ((p_rr p + Z.of_nat i) mod Z.of_nat (length (p_keys p))).
Proof.
  induction toks as [|t toks IH]; intros p Hc Hne Hr Hlen i Hi; cbn [length] in *; [lia|].
  assert (0 < Z.of_nat (length (p_keys p))) as HL by (destruct (p_keys p); [done|simpl; lia]).
  assert (KInv t (mkSum (p_keys p) (p_rr p) (p_sessionToKey p !! t)) p) as HK by (by split).
  pose proof (keyAt_sum t _ p HK Hr) as Hk. simpl in Hk.
  destruct (lookup_lt_is_Some_2 (p_keys p)
    (Z.to_nat (p_rr p mod Z.of_nat (length (p_keys p))))) as [k Hkk].
  { pose proof (Z.mod_pos_bound (p_rr p) _ HL). lia. }
  rewrite Hkk in Hk. cbn [handedOut]. unfold RegisterSessionToken.
  replace (Nat.eqb (length (p_keys p)) 0) with false by (destruct (p_keys p); done).
  unfold pin. rewrite Hk. cbn [snd]. unfold SecretForSession. cbn [p_sessionToKey p_keyBySecret].
  rewrite lookup_insert_eq, Hc, indexKeys_last.
  destruct (lastKey_in k (p_keys p)) as [k' ->]; [by eapply list_elem_of_lookup_2|].
  destruct i as [|i]; cbn [lookup list_lookup].
  - rewrite Z.add_0_r, Hkk. done.
  - match goal with |- handedOut toks ?q !! i = _ => set (p1 := q) end.
    assert (p_rr p1 = p_rr p + 1) as Hr1.
    { unfold p1. simpl. apply wrapS64_id. unfold int64_ok, two63 in *. lia. }
    assert (p_keys p1 = p_keys p) as Hk1 by done.
    rewrite IH; rewrite ?Hr1, ?Hk1; try done; try lia.
    replace (p_rr p + 1 + Z.of_nat i) with (p_rr p + Z.of_nat (S i)) by lia. done.
Qed.

Lemma rotate_Permutation {A} n (l : list A) : rotate n l ≡ₚ l.
Proof.
  unfold rotate. rewrite Permutation_app_comm. by rewrite take_drop.
Qed.

(** ** Properties *)

(** C35: what a session token resolves to is determined by its history
    alone: unknown unless it was minted or registered and not revoked since;
    otherwise pinned to the key id its last registration drew, and worth the
    current secret under that id, or an explicit error once rotation removed
    the id; rotations, revocations and registrations of other tokens never
    move it. *)
Theorem token_resolves_by_history (tok : string) (init : list Key) (ops : list KOp) :
  Z.of_nat (length ops) < two63 →
  SecretForSession tok (runK ops (New init)) = worth (summary tok init ops).
Proof.
  intros Hlen.
  destruct (runK_sum tok ops (mkSum init 0 None) (New init) (New_sum tok init)) as [Hk _ Hi Hp];
    [simpl; lia..|].
  unfold SecretForSession, worth, summary in *. rewrite Hp, Hi.
  destruct (su_pin _) as [id|]; [|done]. by rewrite indexKeys_last.
Qed.

Definition keyA : Key := mkKey "a" "ws" "sk-a".
Definition keyB : Key := mkKey "b" "ws" "sk-b".

Lemma token_resolves_by_history_witness :
  SecretForSession "t1" (runK [KRegister "t0"; KRegister "t1"; KReplace [mkKey "b" "ws" "sk-b2"];
                               KRevoke "t0"] (New [keyA; keyB])) = Ok ("sk-b2", "b").
Proof.
  rewrite (token_resolves_by_history "t1" [keyA; keyB]); [|vm_compute; reflexivity].
  vm_compute. reflexivity.
Defined.

(** Assignment is fair: from any state of the pool, as many successive
    registrations as there are keys use every key exactly once (the ids
    handed out are a permutation of the pool), so no key is ever assigned
    more than one session ahead of another. *)
Theorem round_robin_fair (p : Pool) (toks : list string) :
  consistent p → p_keys p ≠ [] → 0 ≤ p_rr p → p_rr p + Z.of_nat (length toks) < two63 →
  length toks = length (p_keys p) →
  handedOut toks p ≡ₚ k_ID <$> p_keys p.
Proof.
  intros Hc Hne Hr Hlen HL.
  cut (handedOut toks p = k_ID <$> rotate (Z.to_nat (p_rr p)) (p_keys p));
    [intros ->; by rewrite rotate_Permutation|].
  apply list_eq. intros i.
  destruct (decide (i < length toks)%nat) as [Hi|Hi].
  - rewrite handedOut_lookup by done. rewrite list_lookup_fmap, lookup_rotate_r by lia.
    unfold rotate_nat_add. by rewrite Z2Nat.id.
  - assert (length (handedOut toks p) ≤ length toks)%nat as Hle.
    { clear. revert p. induction toks as [|t toks IH]; intros p; cbn [handedOut length]; [done|].
      destruct (SecretForSession t _) as [[]|]; cbn [length]; specialize (IH (RegisterSessionToken t p).2); lia. }
    rewrite !lookup_ge_None_2; [done| |lia]. rewrite length_fmap, length_rotate. lia.
Qed.

Lemma round_robin_fair_witness :
  handedOut ["t0"; "t1"] (runK [KRegister "x"] (New [keyA; keyB])) ≡ₚ ["a"; "b"] ∧
  handedOut ["t0"; "t1"] (runK [KRegister "x"] (New [keyA; keyB])) = ["b"; "a"].
Proof.
  split; [|vm_compute; reflexivity].
  apply (round_robin_fair (runK [KRegister "x"] (New [keyA; keyB])) ["t0"; "t1"]);
    vm_compute; (reflexivity || discriminate).
Defined.

Lemma LoadFromEnv_usable (decode : string → option (list Key)) (raw : string) (ks : list Key) :
  LoadFromEnv decode raw = Ok ks → ks ≠ [] ∧ Forall (λ k, k_ID k ≠ "" ∧ k_Secret k ≠ "") ks.
Proof.
  unfold LoadFromEnv. case_bool_decide; [done|]. destruct (decode raw) as [[|k0 ks0]|]; try done.
  destruct (existsb _ _) eqn:E; [done|]. intros [= <-]. split; [done|]. apply Forall_forall.
  intros k Hk%list_elem_of_In. destruct (bool_decide (k_ID k = "") || bool_decide (k_Secret k = "")) eqn:Ek.
  - assert (existsb (λ k, bool_decide (k_ID k = "") || bool_decide (k_Secret k = "")) (k0 :: ks0) = true)
      by (apply existsb_exists; eauto). congruence.
  - by apply orb_false_iff in Ek as [?%bool_decide_eq_false ?%bool_decide_eq_false].
Qed.

(** A pool loaded from the environment is usable: it is not empty,
    every key has an id and a secret, and a token minted from it at once
    resolves to a secret. *)
Theorem loaded_keys_usable (decode : string → option (list Key)) (raw : string) (ks : list Key) :
  LoadFromEnv decode raw = Ok ks →
  ks ≠ [] ∧ (∀ k, k ∈ ks → k_ID k ≠ "" ∧ k_Secret k ≠ "") ∧
  (∀ b, ∃ t p', MintSessionToken (Some b) (New ks) = (Ok t, p') ∧
     ∃ s id, SecretForSession t p' = Ok (s, id) ∧ s ≠ "" ∧ id ≠ "").
Proof.
  intros Hl. destruct (LoadFromEnv_usable decode raw ks Hl) as [Hne Hall]. rewrite Forall_forall in Hall.
  destruct ks as [|k0 ks0]; [done|]. clear Hl Hne.
  split_and!; [done|done|]. intros b.
  unfold MintSessionToken. simpl length. cbn [Nat.eqb randomToken]. unfold pin, keyAt.
  cbn [New Replace p_rr p_keys]. rewrite Z.rem_0_l by (simpl; lia). simpl.
  eexists _, _. split; [reflexivity|]. unfold SecretForSession. cbn [p_sessionToKey p_keyBySecret].
  rewrite lookup_insert_eq, indexKeys_last.
  destruct (lastKey_in k0 (k0 :: ks0)) as [k' Hk']; [set_solver|]. rewrite Hk'.
  eexists _, _. split; [reflexivity|]. split; [|apply Hall; set_solver].
  apply (Hall k'). unfold lastKey in Hk'. apply List.find_some in Hk' as [Hin _].
  rewrite <- elem_of_reverse. by apply list_elem_of_In.
Qed.

Lemma loaded_keys_usable_witness :
  [keyA] ≠ [] ∧ LoadFromEnv (λ _, Some [keyA]) "[...]" = Ok [keyA].
Proof.
  assert (LoadFromEnv (λ _, Some [keyA]) "[...]" = Ok [keyA]) as H by (vm_compute; reflexivity).
  destruct (loaded_keys_usable (λ _, Some [keyA]) "[...]" [keyA] H) as (H1 & _ & _).
  split; [exact H1|exact H].
Defined.
