(* ===== verification/Stream.v ===== *)
(** Streaming the upstream's answer to the client while reading the token
    usage off it, proxy/internal/server/stream.go.  The JSON decoder is a
    parameter; the upstream body is its bytes, how they are cut into reads,
    and whether reading ends in EOF; the client may stop accepting writes at
    any point. *)
From S2P Require Import Prelude GoLib.
Open Scope Z_scope.

Record Usage := mkUsage { RequestTokens : Z; ResponseTokens : Z }.

#[export] Instance Usage_eq_dec : EqDecision Usage.
Proof. solve_decision. Defined.

(** The three usage objects of [parseUsage]'s struct: at the top level,
    inside [message] and inside [delta]; absent numbers are zero. *)
Record Outer := mkOuter { ou_top : Usage; ou_message : Usage; ou_delta : Usage }.

Definition strlen (s : string) : Z := Z.of_nat (String.length s).
Definition takeZ (n : Z) (s : string) : string := takeStr (Z.to_nat n) s.

Definition nl : ascii := chr 10.

(** [ReadBytes('\n')] until EOF: the complete lines, and what is left. *)
Fixpoint splitLines (s : string) : list string * string :=
  match s with
  | EmptyString => ([], "")
  | String c t =>
    let '(ls, r) := splitLines t in
    if bool_decide (c = nl) then (String c "" :: ls, r)
    else match ls with
         | [] => ([], String c r)
         | l :: ls' => (String c l :: ls', r)
         end
  end.

Definition max64 (xs : list Z) : Z := foldl (λ m x, if m <? x then x else m) 0 xs.

Definition mergeUsage (a b : Usage) : Usage :=
  mkUsage (if RequestTokens a <? RequestTokens b then RequestTokens b else RequestTokens a)
          (if ResponseTokens a <? ResponseTokens b then ResponseTokens b else ResponseTokens a).

Definition estimateCostMicros (u : Usage) : Z :=
  wrapS64 (wrapS64 (RequestTokens u * 3) + wrapS64 (ResponseTokens u * 15)).

(** ** limitedWriter *)

(** Its [Write] on the buffer collected so far; it never fails. *)
Record LimitedWriter := mkLW { lw_buf : string; lw_N : Z }.

Definition lwWrite (p : string) (lw : LimitedWriter) : LimitedWriter :=
  if lw_N lw <=? 0 then lw
  else if lw_N lw <? strlen p then mkLW (lw_buf lw +:+ takeZ (lw_N lw) p) 0
  else mkLW (lw_buf lw +:+ p) (lw_N lw - strlen p).

Section Stream.
(** [json.Unmarshal] into the struct; [None] is an error. *)
Variable unmarshal : string → option Outer.

Definition parseUsage (b : string) : Usage :=
  let b := trimSpace b in
  match b with
  | EmptyString => mkUsage 0 0
  | String c _ =>
    if negb (bool_decide (c = "{"%char)) then mkUsage 0 0
    else match unmarshal b with
         | None => mkUsage 0 0
         | Some o =>
           mkUsage (max64 [RequestTokens (ou_top o); RequestTokens (ou_message o);
                           RequestTokens (ou_delta o)])
                   (max64 [ResponseTokens (ou_top o); ResponseTokens (ou_message o);
                           ResponseTokens (ou_delta o)])
         end
  end.

(** ** streamSSE *)

Definition captureCap : Z := 32 * 1024.

Record SSE := mkSSE { se_usage : Usage; se_captured : string; se_out : list string; se_flushes : nat }.

Definition capture (line : string) (cap : string) : string :=
  if strlen cap <? captureCap then
    let remain := captureCap - strlen cap in
    if strlen line <? remain then cap +:+ line else cap +:+ takeZ remain line
  else cap.

Definition lineUsage (line : string) : option Usage :=
  if hasPrefix "data:" line then Some (parseUsage (trimSpace (dropStr 5 line))) else None.

(** One non-empty line.  [None]: the client refused the bytes, and the state
    is the one [streamSSE] returns. *)
Definition sseLine (wok : bool) (line : string) (st : SSE) : bool * SSE :=
  let cap := capture line (se_captured st) in
  if negb wok then (false, mkSSE (se_usage st) cap (se_out st) (se_flushes st))
  else
    let fl := if bool_decide (line = String nl "") then S (se_flushes st) else se_flushes st in
    let u := match lineUsage line with
             | Some u => mergeUsage (se_usage st) u
             | None => se_usage st
             end in
    (true, mkSSE u cap (se_out st ++ [line]) fl).

(** [woks]: which of the client's writes succeed; true once the list ends. *)
Fixpoint sseLoop (woks : list bool) (lines : list string) (st : SSE) : bool * list bool * SSE :=
  match lines with
  | [] => (true, woks, st)
  | line :: lines' =>
    match sseLine (hd true woks) line st with
    | (true, st') => sseLoop (tail woks) lines' st'
    | (false, st') => (false, tail woks, st')
    end
  end.

Inductive StreamErr := ErrClientWrite | ErrBodyRead.

(** [streamSSE]; [readErr] says that reading failed at the end of [body]
    instead of reaching EOF. *)
Definition streamSSE (woks : list bool) (body : string) (readErr : bool)
    : SSE * option StreamErr :=
  let '(lines, rest) := splitLines body in
  let '(ok, woks', st) := sseLoop woks lines (mkSSE (mkUsage 0 0) "" [] 0) in
  if negb ok then (st, Some ErrClientWrite)
  else
    let '(ok', st') := if bool_decide (rest = "") then (true, st)
                       else sseLine (hd true woks') rest st in
    if negb ok' then (st', Some ErrClientWrite)
    else if readErr then (st', Some ErrBodyRead)
    else (mkSSE (se_usage st') (se_captured st') (se_out st') (S (se_flushes st')), None).

(** ** streamJSON *)

(** [io.Copy] from the tee: each read goes to the capped buffer, then to the
    client. *)
Fixpoint copyLoop (woks : list bool) (chunks : list string) (lw : LimitedWriter) (out : list string)
    : bool * LimitedWriter * list string :=
  match chunks with
  | [] => (true, lw, out)
  | c :: chunks' =>
    let lw' := lwWrite c lw in
    if hd true woks then copyLoop (tail woks) chunks' lw' (out ++ [c]) else (false, lw', out)
  end.

Definition bufCap : Z := Z.shiftl 1 20.

Definition streamJSON (woks : list bool) (chunks : list string) (readErr : bool)
    : Usage * string * list string * option StreamErr :=
  let '(ok, lw, out) := copyLoop woks chunks (mkLW "" bufCap) [] in
  if negb ok then (mkUsage 0 0, lw_buf lw, out, Some ErrClientWrite)
  else if readErr then (mkUsage 0 0, lw_buf lw, out, Some ErrBodyRead)
  else (parseUsage (lw_buf lw), lw_buf lw, out, None).

(** ** Lemmas *)

Lemma splitLines_concat s : concats (splitLines s).1 +:+ (splitLines s).2 = s.
Proof.
  induction s as [|c s IH]; [done|]. cbn [splitLines].
  destruct (splitLines s) as [ls r]. cbn [fst snd] in IH. subst s. unfold concats.
  case_bool_decide as Hc; [|destruct ls as [|l ls]]; cbn [fst snd foldr];
    rewrite ?str_app_assoc, ?str_app_cons, ?str_app_nil, ?str_app_assoc; done.
Qed.

Lemma splitLines_nonempty s : Forall (λ l, l ≠ "") (splitLines s).1.
Proof.
  induction s as [|c s IH]; [constructor|]. cbn [splitLines].
  destruct (splitLines s) as [ls r]. cbn [fst] in *. case_bool_decide; [by constructor|].
  destruct ls as [|l ls]; [constructor|]. apply Forall_cons in IH as [_ IH]. by constructor.
Qed.

Lemma takeStr_length_ge n (s : string) : (String.length s ≤ n)%nat → takeStr n s = s.
Proof.
  revert n. induction s as [|c s IH]; intros [|n] Hn; simpl in *; try done; [lia|].
  by rewrite IH by lia.
Qed.

Lemma takeStr_app n (s t : string) :
  takeStr n (s +:+ t) = takeStr n s +:+ takeStr (n - String.length s) t.
Proof.
  revert n. induction s as [|c s IH]; intros n.
  - rewrite str_app_nil. destruct n; simpl; by rewrite ?Nat.sub_0_r.
  - rewrite str_app_cons. destruct n as [|n]; [by destruct t|]. simpl. by rewrite IH, str_app_cons.
Qed.

Lemma takeStr_length n (s : string) : String.length (takeStr n s) = (n `min` String.length s)%nat.
Proof. revert n. induction s as [|c s IH]; intros [|n]; simpl; try done. by rewrite IH. Qed.

Lemma takeStr_0 s : takeStr 0 s = "".
Proof. by destruct s. Qed.

(** Both capped buffers keep the first bytes of what passes through. *)
Lemma capture_take line seen :
  capture line (takeZ captureCap seen) = takeZ captureCap (seen +:+ line).
Proof.
  unfold capture, takeZ, strlen. rewrite takeStr_app, takeStr_length.
  destruct (Z.ltb_spec (Z.of_nat (Z.to_nat captureCap `min` String.length seen)) captureCap) as [Hlt|Hge].
  - rewrite (takeStr_length_ge _ seen) by (unfold captureCap in *; lia).
    rewrite Nat.min_r by (unfold captureCap in *; lia).
    destruct (Z.ltb_spec (Z.of_nat (String.length line))
      (captureCap - Z.of_nat (String.length seen))); f_equal.
    + rewrite takeStr_length_ge; [done|]. unfold captureCap in *; lia.
    + f_equal. unfold captureCap in *; lia.
  - replace (Z.to_nat captureCap - String.length seen)%nat with 0%nat by (unfold captureCap in *; lia).
    by rewrite takeStr_0, str_app_nil_r.
Qed.

Definition lwOf (n : Z) (seen : string) : LimitedWriter :=
  mkLW (takeZ n seen) (Z.max 0 (n - strlen seen)).

Lemma lwWrite_take n p seen : 0 ≤ n → lwWrite p (lwOf n seen) = lwOf n (seen +:+ p).
Proof.
  intros Hn. unfold lwWrite, lwOf, takeZ, strlen. cbn [lw_N lw_buf].
  rewrite str_length_app, takeStr_app.
  destruct (Z.leb_spec (Z.max 0 (n - Z.of_nat (String.length seen))) 0).
  - replace (Z.to_nat n - String.length seen)%nat with 0%nat by lia.
    rewrite takeStr_0, str_app_nil_r; f_equal; lia.
  - destruct (Z.ltb_spec (Z.max 0 (n - Z.of_nat (String.length seen))) (Z.of_nat (String.length p))).
    + f_equal; [|lia]. do 2 f_equal. lia.
    + f_equal; [|lia]. f_equal. rewrite takeStr_length_ge; [done|]. lia.
Qed.

(** The tokens of the data lines of a stream. *)
Definition reports (lines : list string) : list Usage := omap lineUsage lines.
Definition maxOf (f : Usage → Z) (us : list Usage) : Z := foldr (λ u m, Z.max (f u) m) 0 us.

Lemma mergeUsage_max a b :
  mergeUsage a b = mkUsage (Z.max (RequestTokens a) (RequestTokens b))
                     (Z.max (ResponseTokens a) (ResponseTokens b)).
Proof.
  unfold mergeUsage. f_equal; [destruct (Z.ltb_spec (RequestTokens a) (RequestTokens b))
    |destruct (Z.ltb_spec (ResponseTokens a) (ResponseTokens b))]; lia.
Qed.

Definition usageMax (u : Usage) (us : list Usage) : Usage :=
  mkUsage (Z.max (RequestTokens u) (maxOf RequestTokens us))
          (Z.max (ResponseTokens u) (maxOf ResponseTokens us)).

Lemma sseLoop_ok lines : ∀ woks seen u out fl,
  Forall (λ b, b = true) woks → 0 ≤ RequestTokens u → 0 ≤ ResponseTokens u →
  ∃ fl' woks', Forall (λ b, b = true) woks' ∧
    sseLoop woks lines (mkSSE u (takeZ captureCap seen) out fl) =
    (true, woks', mkSSE (usageMax u (reports lines)) (takeZ captureCap (seen +:+ concats lines))
                    (out ++ lines) fl').
Proof.
  induction lines as [|line lines IH]; intros woks seen u out fl Hw Hu1 Hu2; cbn [sseLoop].
  - exists fl, woks. split; [done|]. unfold usageMax, reports, concats. simpl.
    rewrite !Z.max_l by lia. rewrite str_app_nil_r, app_nil_r. by destruct u.
  - assert (hd true woks = true ∧ Forall (λ b, b = true) (tail woks)) as [-> Hw'].
    { destruct Hw; [by split|]. simpl. by split. }
    unfold sseLine. cbn [negb se_usage se_captured se_out se_flushes]. rewrite capture_take.
    set (u' := match lineUsage line with Some v => mergeUsage u v | None => u end).
    assert (0 ≤ RequestTokens u' ∧ 0 ≤ ResponseTokens u') as [Hu1' Hu2'].
    { unfold u'. destruct (lineUsage line); [|done]. rewrite mergeUsage_max. simpl. lia. }
    set (fl1 := if bool_decide _ then _ else _).
    destruct (IH (tail woks) (seen +:+ line) u' (out ++ [line]) fl1 Hw' Hu1' Hu2')
      as (fl' & woks' & Hww & ->).
    exists fl', woks'. split; [done|]. do 2 f_equal.
    + unfold u', usageMax, reports. cbn [omap list_omap]. destruct (lineUsage line) as [v|]; [|done].
      rewrite mergeUsage_max. simpl. f_equal; lia.
    + unfold concats. cbn [foldr]. by rewrite str_app_assoc.
    + by rewrite <- app_assoc.
Qed.

Lemma copyLoop_ok chunks : ∀ woks seen out,
  Forall (λ b, b = true) woks →
  copyLoop woks chunks (lwOf bufCap seen) out =
  (true, lwOf bufCap (seen +:+ concats chunks), out ++ chunks).
Proof.
  induction chunks as [|c chunks IH]; intros woks seen out Hw; cbn [copyLoop].
  - unfold concats. simpl. by rewrite str_app_nil_r, app_nil_r.
  - assert (hd true woks = true ∧ Forall (λ b, b = true) (tail woks)) as [-> Hw'].
    { destruct Hw; [by split|]. simpl. by split. }
    rewrite lwWrite_take by done. rewrite IH by done. unfold concats. cbn [foldr].
    by rewrite str_app_assoc, <- app_assoc.
Qed.

End Stream.

(** The lines of a body as [streamSSE] sees them, a last one without a line
    end included. *)
Definition bodyLines (body : string) : list string :=
  (splitLines body).1 ++ (if bool_decide ((splitLines body).2 = "") then [] else [(splitLines body).2]).

Lemma concats_app l k : concats (l ++ k) = concats l +:+ concats k.
Proof. unfold concats. induction l as [|x l IH]; [done|]. simpl. by rewrite IH, str_app_assoc. Qed.

Lemma bodyLines_concat body : concats (bodyLines body) = body.
Proof.
  unfold bodyLines. pose proof (splitLines_concat body) as H.
  rewrite concats_app. case_bool_decide as Hr.
  - rewrite Hr in H. unfold concats at 2. simpl. by rewrite str_app_nil_r in *.
  - unfold concats at 2. simpl. by rewrite str_app_nil_r.
Qed.

Lemma streamSSE_ok unmarshal woks body readErr :
  Forall (λ b, b = true) woks →
  let '(st, e) := streamSSE unmarshal woks body readErr in
  se_out st = bodyLines body ∧ se_captured st = takeZ captureCap body ∧
  se_usage st = usageMax (mkUsage 0 0) (reports unmarshal (bodyLines body)) ∧
  e = (if readErr then Some ErrBodyRead else None).
Proof.
  intros Hw. unfold streamSSE. pose proof (bodyLines_concat body) as Hb. unfold bodyLines in *.
  destruct (splitLines body) as [lines rest]. cbn [fst snd] in *.
  change (mkSSE (mkUsage 0 0) "" [] 0) with (mkSSE (mkUsage 0 0) (takeZ captureCap "") [] 0).
  destruct (sseLoop_ok unmarshal lines woks "" (mkUsage 0 0) [] 0 Hw ltac:(done) ltac:(done))
    as (fl & woks' & Hw' & ->). cbn [negb]. rewrite str_app_nil in *.
  case_bool_decide as Hr.
  - rewrite app_nil_r in *. rewrite Hb. cbn [negb]. by destruct readErr.
  - destruct (sseLoop_ok unmarshal [rest] woks' (concats lines) (usageMax (mkUsage 0 0) (reports unmarshal lines))
      ([] ++ lines) fl Hw') as (fl2 & woks2 & _ & Hl);
      [unfold usageMax; simpl; lia..|]. cbn [sseLoop] in Hl.
    destruct (sseLine unmarshal (hd true woks') rest _) as [[] st'] eqn:Es; [|done].
    injection Hl as _ ->. cbn [negb].
    assert (concats lines +:+ concats [rest] = body) as Hc.
    { by rewrite <- Hb, concats_app. }
    assert (usageMax (usageMax (mkUsage 0 0) (reports unmarshal lines)) (reports unmarshal [rest]) =
            usageMax (mkUsage 0 0) (reports unmarshal (lines ++ [rest]))) as Hu.
    { unfold reports. rewrite omap_app. unfold usageMax, maxOf. cbn [RequestTokens ResponseTokens].
      rewrite !foldr_app. clear. set (k := omap _ [rest]). f_equal;
        (induction (omap (lineUsage unmarshal) lines) as [|v l IH]; cbn [foldr]; lia). }
    destruct readErr; cbn [se_out se_captured se_usage]; split_and!; try done; by f_equal.
Qed.

(** ** Properties *)


(** The usage committed for a completed event stream is, in each
    direction, the largest count any of its data lines reports (zero if none
    does), never a sum: the order and repetition of the reports do not
    matter. *)
Theorem sse_usage_is_max (unmarshal : string → option Outer) (woks : list bool) (body : string) :
  Forall (λ b, b = true) woks →
  let u := se_usage (streamSSE unmarshal woks body false).1 in
  let us := omap (lineUsage unmarshal) (bodyLines body) in
  (∀ v, v ∈ us → RequestTokens v ≤ RequestTokens u ∧ ResponseTokens v ≤ ResponseTokens u) ∧
  (RequestTokens u = 0 ∨ ∃ v, v ∈ us ∧ RequestTokens v = RequestTokens u) ∧
  (ResponseTokens u = 0 ∨ ∃ v, v ∈ us ∧ ResponseTokens v = ResponseTokens u).
Proof.
  intros Hw u us. pose proof (streamSSE_ok unmarshal woks body false Hw) as H.
  assert (u = usageMax (mkUsage 0 0) us) as ->.
  { unfold u. destruct (streamSSE unmarshal woks body false) as [st e]. by destruct H as (_ & _ & H & _). }
  assert (∀ f (l : list Usage), 0 ≤ maxOf f l ∧ (∀ v, v ∈ l → f v ≤ maxOf f l) ∧
            (maxOf f l = 0 ∨ ∃ v, v ∈ l ∧ f v = maxOf f l)) as Hmax.
  { intros f l. induction l as [|v l (H0 & H1 & H2)]; cbn [maxOf foldr].
    - split_and!; [done|set_solver|by left].
    - fold (maxOf f l). split_and!; [lia| |].
      + intros x [->|Hx]%elem_of_cons; [lia|]. specialize (H1 x Hx). lia.
      + destruct (Z.max_spec (f v) (maxOf f l)) as [[? ->]|[? ->]]; [|right; exists v; set_solver].
        destruct H2 as [?|(x & ? & ?)]; [by left|right; exists x; set_solver]. }
  destruct (Hmax RequestTokens us) as (A0 & A1 & A2), (Hmax ResponseTokens us) as (B0 & B1 & B2).
  unfold usageMax. cbn [RequestTokens ResponseTokens]. rewrite !Z.max_r by lia.
  split_and!; [|done|done]. intros v Hv. auto.
Qed.

(** A decoder for the witnesses: it knows two documents. *)
Definition demoUnmarshal (s : string) : option Outer :=
  if bool_decide (s = "{start}") then Some (mkOuter (mkUsage 0 0) (mkUsage 10 1) (mkUsage 0 0))
  else if bool_decide (s = "{delta}") then Some (mkOuter (mkUsage 0 7) (mkUsage 0 0) (mkUsage 0 0))
  else None.

Definition demoBody : string :=
  "event: message_start" +:+ String nl ("data: {start}" +:+ String nl (String nl
  ("data: {delta}" +:+ String nl ("data: {delta}" +:+ String nl "")))).


Lemma sse_usage_is_max_witness :
  se_usage (streamSSE demoUnmarshal [] demoBody false).1 = mkUsage 10 7 ∧
  (∀ v, v ∈ omap (lineUsage demoUnmarshal) (bodyLines demoBody) →
     RequestTokens v ≤ RequestTokens (se_usage (streamSSE demoUnmarshal [] demoBody false).1)).
Proof.
  destruct (sse_usage_is_max demoUnmarshal [] demoBody (List.Forall_nil _)) as (H & _ & _).
  split; [vm_compute; reflexivity|]. intros v Hv. apply (H v Hv).
Defined.

(** A client that hangs up decides what it is charged: the line whose
    write fails is not counted, so a client that stops reading before the
    final report is charged the tokens of the first one only. *)
Theorem hangup_hides_usage :
  se_usage (streamSSE demoUnmarshal [] demoBody false).1 = mkUsage 10 7 ∧
  se_usage (streamSSE demoUnmarshal [true; true; true; false] demoBody false).1 = mkUsage 10 1 ∧
  se_usage (streamSSE demoUnmarshal [true; false] demoBody false).1 = mkUsage 0 0.
Proof. vm_compute. done. Qed.
