(* ===== verification/Forward.v ===== *)
(** The proxy's HTTP handlers, proxy/internal/server/server.go, over the
    quota manager, the key pool and the streaming code.

    A request is its method, path, query, headers and body; the upstream is a
    function from the request the proxy sends to the answer it gets, or
    [None] when the exchange failed.  Audit records, written by detached
    goroutines, are collected in the order they are emitted. *)
From S2P Require Import Prelude GoLib Session Keys Quota Stream.
Open Scope Z_scope.

(** ** net/http headers *)

(** A header map, by canonical key. *)
Abbreviation Header := (gmap string (list string)).

Definition upperC (c : ascii) : ascii := if between 97 122 (code c) then chr (code c - 32) else c.
Definition lowerC (c : ascii) : ascii := if between 65 90 (code c) then chr (code c + 32) else c.

(** The bytes of a token (RFC 7230). *)
Definition tokenC (c : ascii) : bool :=
  let z := code c in
  between 48 57 z || between 65 90 z || between 97 122 z || (z =? 33) || between 35 39 z ||
  (z =? 42) || (z =? 43) || (z =? 45) || (z =? 46) || between 94 96 z || (z =? 124) || (z =? 126).

Fixpoint canon (upper : bool) (s : string) : string :=
  match s with
  | EmptyString => ""
  | String c t => String (if upper then upperC c else lowerC c) (canon (bool_decide (c = "-"%char)) t)
  end.

(** [http.CanonicalHeaderKey]: a key with a byte no token has is left
    alone. *)
Definition CanonicalHeaderKey (s : string) : string := if allChars tokenC s then canon true s else s.

Definition hGet (k : string) (h : Header) : string :=
  match h !! CanonicalHeaderKey k with Some (v :: _) => v | _ => "" end.
Definition hSet (k v : string) (h : Header) : Header := <[CanonicalHeaderKey k := [v]]> h.
Definition hAdd (k v : string) (h : Header) : Header :=
  <[CanonicalHeaderKey k := default [] (h !! CanonicalHeaderKey k) ++ [v]]> h.
Definition hAddAll (k : string) (vv : list string) (h : Header) : Header :=
  foldl (λ h v, hAdd k v h) h vv.

Definition strippedHeaders : list string :=
  ["Connection"; "Keep-Alive"; "Proxy-Authenticate"; "Proxy-Authorization"; "Te"; "Trailer";
   "Transfer-Encoding"; "Upgrade"; "Authorization"; "X-Api-Key"].

(** [copyForwardHeaders], over the entries of [src] in some order. *)
Definition copyForwardHeaders (dst : Header) (src : list (string * list string)) : Header :=
  foldl (λ h kv, if bool_decide (CanonicalHeaderKey kv.1 ∈ strippedHeaders) then h
                 else hAddAll kv.1 kv.2 h) dst src.

Definition firstNonEmpty (a b : string) : string := if bool_decide (a = "") then b else a.

(** [bearerToken] *)
Definition bearerToken (h : Header) : option string :=
  let v := hGet "Authorization" h in
  if hasPrefix "Bearer " v then Some (trimSpace (trimPrefix "Bearer " v)) else None.

(** ** Requests and answers *)

(** A body that may fail while it is read. *)
Record Body := mkBody { bd_bytes : string; bd_err : bool }.

Record Request := mkRequest {
  rq_Method : string;
  rq_Path : string;
  rq_Query : string;
  rq_Header : Header;
  rq_Body : Body
}.

Record UpReq := mkUpReq { up_Method : string; up_URL : string; up_Header : Header; up_Body : string }.
Record UpResp := mkUpResp {
  ur_Status : Z;
  ur_Header : Header;
  ur_Chunks : list string;
  ur_Err : bool
}.

(** What the client gets: an error document of [writeError], the line of
    [http.Error] (the text of a wrapped error is left out), the document
    [{ok: true}] or [{token: tok}], or the upstream's bytes. *)
Inductive Reply :=
| RError (code message : string) (retryAfter : Z) (reqID : string)
| RLine (s : string)
| ROk
| RToken (tok : string)
| RStream (chunks : list string).

Record Response := mkResponse { rs_Status : Z; rs_Header : Header; rs_Reply : Reply }.

Record AuditRecord := mkAudit {
  ar_TS : Z; ar_SessionID : string; ar_Endpoint : string;
  ar_RequestTokens : Z; ar_ResponseTokens : Z; ar_CostUSDMicros : Z; ar_Status : Z
}.

Record Server := mkServer {
  sv_pool : Pool;
  sv_quota : Quota.Manager;
  sv_audit : list AuditRecord;
  sv_inflight : Z
}.

Definition setQuota (q : Quota.Manager) (s : Server) : Server :=
  mkServer (sv_pool s) q (sv_audit s) (sv_inflight s).
Definition emitAudit (r : AuditRecord) (s : Server) : Server :=
  mkServer (sv_pool s) (sv_quota s) (sv_audit s ++ [r]) (sv_inflight s).
Definition setPool (p : Pool) (s : Server) : Server :=
  mkServer p (sv_quota s) (sv_audit s) (sv_inflight s).

Definition codeString (c : QCode) : string :=
  match c with
  | CodeTokensIn => "tokens_in_exhausted"
  | CodeTokensOut => "tokens_out_exhausted"
  | CodeRequests => "requests_exhausted"
  | CodeRateLimit => "rate_limit_per_minute"
  end.

(** [writeError] *)
Definition writeError (h : Header) (status : Z) (code message : string) (retryAfter : Z)
    (reqID : string) : Response :=
  mkResponse status (hSet "Content-Type" "application/json" h) (RError code message retryAfter reqID).

(** [http.Error] *)
Definition httpError (status : Z) (message : string) : Response :=
  mkResponse status
    (hSet "X-Content-Type-Options" "nosniff" (hSet "Content-Type" "text/plain; charset=utf-8" ∅))
    (RLine message).

Definition bodyLimit : Z := Z.shiftl 1 20.

(** What one request draws from outside: a UUID, the clock at the four
    places it is read, whether [NewRequestWithContext] accepts method and
    URL, and which writes to the client succeed. *)
Record ForwardIn := mkForwardIn {
  fi_uuid : string;
  fi_reserve : Z; fi_done : Z; fi_audit : Z;
  fi_build : bool;
  fi_woks : list bool
}.

Section Forward.
Variable unmarshal : string → option Outer.
(** The client that talks to the upstream. *)
Variable Do : UpReq → option UpResp.
Variable upstream : string.
Variable adminToken : string.

(** The request sent for [r] on behalf of a key. *)
Definition upstreamRequest (r : Request) (secret : string) : UpReq :=
  let h := copyForwardHeaders ∅ (map_to_list (rq_Header r)) in
  let h := hSet "x-api-key" secret h in
  let h := hSet "anthropic-version"
             (firstNonEmpty (hGet "anthropic-version" (rq_Header r)) "2023-06-01") h in
  mkUpReq (rq_Method r) (upstream +:+ rq_Path r) h (takeZ bodyLimit (bd_bytes (rq_Body r))).

(** [streamBody] on the answer: the usage, and what the client received. *)
Definition streamBody (woks : list bool) (resp : UpResp) : Stream.Usage * list string :=
  if hasPrefix "text/event-stream" (hGet "Content-Type" (ur_Header resp)) then
    let '(st, _) := streamSSE unmarshal woks (concats (ur_Chunks resp)) (ur_Err resp) in
    (se_usage st, se_out st)
  else
    let '(u, _, out, _) := streamJSON unmarshal woks (ur_Chunks resp) (ur_Err resp) in (u, out).

(** The part of [handleForward] after the reservation; it also returns the
    request that was sent. *)
Definition forwardReserved (inp : ForwardIn) (reqID : string) (h : Header) (r : Request)
    (secret sessionID : string) (s : Server) : option UpReq * Response * Server :=
  let refunded := setQuota (Refund (fi_done inp) sessionID (sv_quota s)) s in
  if bd_err (rq_Body r) && (strlen (bd_bytes (rq_Body r)) <? bodyLimit) then
    (None, writeError h 400 "bad_request" "read body" 0 reqID, refunded)
  else if negb (fi_build inp) then
    (None, writeError h 500 "internal" "build upstream request" 0 reqID, refunded)
  else
    let up := upstreamRequest r secret in
    match Do up with
    | None =>
      (Some up, writeError h 502 "internal" "upstream error" 0 reqID,
       emitAudit (mkAudit (fi_audit inp) sessionID (rq_Path r) 0 0 0 502) refunded)
    | Some resp =>
      let h := foldl (λ h kv, hAddAll kv.1 kv.2 h) h (map_to_list (ur_Header resp)) in
      let '(u, out) := streamBody (fi_woks inp) resp in
      let s1 := setQuota (Commit (fi_done inp) sessionID (RequestTokens u) (ResponseTokens u)
                            (sv_quota s)) s in
      (Some up, mkResponse (ur_Status resp) h (RStream out),
       emitAudit (mkAudit (fi_audit inp) sessionID (rq_Path r) (RequestTokens u) (ResponseTokens u)
                    (estimateCostMicros u) (ur_Status resp)) s1)
    end.

Definition forwardBody (inp : ForwardIn) (r : Request) (s : Server)
    : option UpReq * Response * Server :=
  let reqID := firstNonEmpty (hGet "X-Request-Id" (rq_Header r)) (fi_uuid inp) in
  let h := hSet "X-Request-Id" reqID ∅ in
  match bearerToken (rq_Header r) with
  | None => (None, writeError h 401 "auth_required" "missing bearer token" 0 reqID, s)
  | Some sessionToken =>
    match SecretForSession sessionToken (sv_pool s) with
    | Err ErrUnknownSession =>
      (None, writeError h 401 "auth_invalid" "unknown session token" 0 reqID, s)
    | Err ErrKeyRevoked =>
      (None, writeError h 503 "internal" "session key revoked" 5 reqID, s)
    | Err _ => (None, writeError h 500 "internal" "key resolve failed" 0 reqID, s)
    | Ok (secret, keyID) =>
      let h := hSet "X-Proxy-Key-Id" keyID h in
      let '(qerr, q) := Reserve (fi_reserve inp) sessionToken (sv_quota s) in
      let s1 := setQuota q s in
      match qerr with
      | Some e =>
        let retry := qe_RetryAfter e / second in
        let h := if 0 <? retry then hSet "Retry-After" (itoa retry) h else h in
        (None, writeError h 429 "rate_limited" (codeString (qe_Code e)) retry reqID,
         emitAudit (mkAudit (fi_audit inp) sessionToken (rq_Path r) 0 0 0 429) s1)
      | None => forwardReserved inp reqID h r secret sessionToken s1
      end
    end
  end.

(** [handleForward]: the body between the counter's increment and the
    deferred decrement. *)
Definition handleForward (inp : ForwardIn) (r : Request) (s : Server)
    : option UpReq * Response * Server :=
  let s0 := mkServer (sv_pool s) (sv_quota s) (sv_audit s) (sv_inflight s + 1) in
  let '(up, resp, s1) := forwardBody inp r s0 in
  (up, resp, mkServer (sv_pool s1) (sv_quota s1) (sv_audit s1) (sv_inflight s1 - 1)).

(** ** Administration *)

(** [checkAdmin]: [None] lets the request through. *)
Definition checkAdmin (r : Request) : option Response :=
  if bool_decide (adminToken = "") then Some (httpError 404 "admin disabled")
  else if bool_decide (default "" (bearerToken (rq_Header r)) = adminToken) then None
  else Some (httpError 403 "forbidden").

(** [handleAdminRotate]; [decode] is the JSON decoder on the body.  The drain
    only delays the swap: it happens when the forwards have finished or after
    thirty seconds. *)
Definition handleAdminRotate (decode : Body → option (list Key)) (r : Request) (s : Server)
    : Response * Server :=
  match checkAdmin r with
  | Some resp => (resp, s)
  | None =>
    match decode (rq_Body r) with
    | None => (httpError 400 "bad body", s)
    | Some [] => (httpError 400 "cannot rotate to empty pool", s)
    | Some next => (mkResponse 200 ∅ ROk, setPool (Replace next (sv_pool s)) s)
    end
  end.

(** [handleAdminMint] *)
Definition handleAdminMint (decode : Body → option string) (rnd : option string) (r : Request)
    (s : Server) : Response * Server :=
  match checkAdmin r with
  | Some resp => (resp, s)
  | None =>
    match decode (rq_Body r) with
    | None => (httpError 400 "bad body", s)
    | Some _ =>
      let '(t, p) := MintSessionToken rnd (sv_pool s) in
      match t with
      | Err _ => (httpError 500 "mint", setPool p s)
      | Ok tok => (mkResponse 200 (hSet "Content-Type" "application/json" ∅) (RToken tok), setPool p s)
      end
    end
  end.

Lemma mint_frame rnd p : p_keys (MintSessionToken rnd p).2 = p_keys p.
Proof. unfold MintSessionToken, pin. by go_cases. Qed.

(** ** Lemmas on headers *)

Lemma hAddAll_key k vv : ∀ h c, c ≠ CanonicalHeaderKey k → hAddAll k vv h !! c = h !! c.
Proof.
  induction vv as [|v vv IH]; intros h c Hc; [done|]. unfold hAddAll. cbn [foldl].
  fold (hAddAll k vv (hAdd k v h)). rewrite IH by done. unfold hAdd. by rewrite lookup_insert_ne.
Qed.

Lemma copyForwardHeaders_stripped src : ∀ dst c,
  c ∈ strippedHeaders → copyForwardHeaders dst src !! c = dst !! c.
Proof.
  induction src as [|[k vv] src IH]; intros dst c Hc; [done|]. unfold copyForwardHeaders.
  cbn [foldl fst snd]. case_bool_decide as Hk.
  - apply (IH dst c Hc).
  - rewrite <- (hAddAll_key k vv dst c) by congruence. apply (IH _ c Hc).
Qed.

Lemma hSet_ne k v h c : c ≠ CanonicalHeaderKey k → hSet k v h !! c = h !! c.
Proof. intros. unfold hSet. by rewrite lookup_insert_ne. Qed.

(** The credentials of the request that is sent. *)
Lemma upstreamRequest_headers r secret :
  let h := up_Header (upstreamRequest r secret) in
  h !! "X-Api-Key" = Some [secret] ∧
  (∀ c, c ∈ strippedHeaders → c ≠ "X-Api-Key" → h !! c = None) ∧
  ∃ v, v ≠ "" ∧ h !! "Anthropic-Version" = Some [v].
Proof.
  unfold upstreamRequest. cbn [up_Header].
  assert (CanonicalHeaderKey "x-api-key" = "X-Api-Key") as Hx by (vm_compute; reflexivity).
  assert (CanonicalHeaderKey "anthropic-version" = "Anthropic-Version") as Ha by (vm_compute; reflexivity).
  split_and!.
  - rewrite hSet_ne by (rewrite Ha; discriminate). unfold hSet. by rewrite Hx, lookup_insert_eq.
  - intros c Hc Hne. rewrite !hSet_ne.
    + by rewrite copyForwardHeaders_stripped.
    + by rewrite Hx.
    + rewrite Ha. intros ->. revert Hc. apply (bool_decide_unpack _). vm_compute. exact I.
  - eexists. split; [|unfold hSet; rewrite Ha, lookup_insert_eq; reflexivity].
    unfold firstNonEmpty. by case_bool_decide.
Qed.

End Forward.

(** ** Properties *)


(** The calls one request makes on the quota of its session. *)
Inductive QuotaUse := UseNone | UseDenied | UseRefunded | UseCommitted (tin tout : Z).

Definition useOps (inp : ForwardIn) (tok : string) (u : QuotaUse) : list (string * Z * QOp) :=
  match u with
  | UseNone => []
  | UseDenied => [(tok, fi_reserve inp, QReserve)]
  | UseRefunded => [(tok, fi_reserve inp, QReserve); (tok, fi_done inp, QRefund)]
  | UseCommitted tin tout =>
    [(tok, fi_reserve inp, QReserve); (tok, fi_done inp, QCommit tin tout)]
  end.

Definition granted (u : QuotaUse) : list bool :=
  match u with UseNone => [] | UseDenied => [false] | _ => [true; false] end.

(** Every request settles its accounts: a slot it reserved is either
    committed with the usage that was observed, which happens exactly when
    the upstream answered, or given back; a request without a slot leaves the
    quota untouched; each attempt that was denied or sent is audited once and
    no other; the key pool and the number of requests in flight are as
    before. *)
Theorem forward_settles_quota (unmarshal : string → option Outer) (Do : UpReq → option UpResp)
    (upstream : string) (inp : ForwardIn) (r : Request) (s : Server) :
  let '(up, resp, s') := handleForward unmarshal Do upstream inp r s in
  let tok := default "" (bearerToken (rq_Header r)) in
  ∃ u, runQ (useOps inp tok u) (sv_quota s) = (granted u, sv_quota s') ∧
    sv_pool s' = sv_pool s ∧ sv_inflight s' = sv_inflight s ∧
    match u with
    | UseNone => up = None ∧ sv_audit s' = sv_audit s
    | UseDenied => up = None ∧ rs_Status resp = 429 ∧ length (sv_audit s') = S (length (sv_audit s))
    | UseRefunded =>
      (up = None ∧ sv_audit s' = sv_audit s) ∨
      (∃ q, up = Some q ∧ Do q = None ∧ rs_Status resp = 502 ∧
         length (sv_audit s') = S (length (sv_audit s)))
    | UseCommitted tin tout =>
      ∃ q a, up = Some q ∧ Do q = Some a ∧ rs_Status resp = ur_Status a ∧
        (tin, tout) = (RequestTokens (streamBody unmarshal (fi_woks inp) a).1,
                       ResponseTokens (streamBody unmarshal (fi_woks inp) a).1) ∧
        length (sv_audit s') = S (length (sv_audit s))
    end.
Proof.
  unfold handleForward, forwardBody. cbn [sv_pool sv_quota].
  assert (∀ z, z + 1 - 1 = z) as Hz by lia.
  destruct (bearerToken (rq_Header r)) as [tok|];
    [|exists UseNone; simpl; rewrite Hz; by destruct (sv_quota s)].
  simpl default.
  destruct (SecretForSession tok (sv_pool s)) as [[secret keyID]|[]] eqn:Es;
    try (exists UseNone; simpl; rewrite Hz; done).
  destruct (Reserve (fi_reserve inp) tok (sv_quota s)) as [[e|] q] eqn:Er.
  { exists UseDenied. cbn [useOps granted runQ stepQ]. rewrite Er. simpl. rewrite Hz.
    rewrite length_app, Nat.add_1_r. split_and!; done. }
  unfold forwardReserved. cbn [setQuota sv_quota].
  destruct (_ && _).
  { exists UseRefunded. cbn [useOps granted runQ stepQ]. rewrite Er. simpl. rewrite Hz. auto 10. }
  destruct (negb (fi_build inp)).
  { exists UseRefunded. cbn [useOps granted runQ stepQ]. rewrite Er. simpl. rewrite Hz. auto 10. }
  destruct (Do (upstreamRequest upstream r secret)) as [a|] eqn:Ed.
  - destruct (streamBody unmarshal (fi_woks inp) a) as [u out] eqn:Eu.
    exists (UseCommitted (RequestTokens u) (ResponseTokens u)).
    cbn [useOps granted runQ stepQ]. rewrite Er. simpl. rewrite Hz.
    split_and!; try done. eexists _, a. rewrite Eu, length_app, Nat.add_1_r. done.
  - exists UseRefunded. cbn [useOps granted runQ stepQ]. rewrite Er. simpl. rewrite Hz.
    split_and!; try done. right. eexists. rewrite length_app, Nat.add_1_r. done.
Qed.

(** The admin endpoints answer only to the configured token: with none
    configured they do not exist, a request without exactly that token
    changes nothing, and a rotation that is let through replaces the keys,
    never by an empty pool, and keeps every session's pin; minting a token
    never changes the keys or the quota. *)
Theorem admin_gate (adminToken : string) (decode : Body → option (list Key)) (r : Request) (s : Server) :
  let '(resp, s') := handleAdminRotate adminToken decode r s in
  (adminToken = "" ∨ bearerToken (rq_Header r) ≠ Some adminToken → s' = s ∧
     (rs_Status resp = 403 ∨ rs_Status resp = 404)) ∧
  (s' = s ∨ rs_Status resp = 200 ∧ ∃ next, next ≠ [] ∧ decode (rq_Body r) = Some next ∧
     p_keys (sv_pool s') = next ∧ p_sessionToKey (sv_pool s') = p_sessionToKey (sv_pool s) ∧
     sv_quota s' = sv_quota s ∧ sv_audit s' = sv_audit s) ∧
  ∀ decodeID rnd, let '(resp, s') := handleAdminMint adminToken decodeID rnd r s in
    (adminToken = "" ∨ bearerToken (rq_Header r) ≠ Some adminToken → s' = s ∧
       (rs_Status resp = 403 ∨ rs_Status resp = 404)) ∧
    p_keys (sv_pool s') = p_keys (sv_pool s) ∧ sv_quota s' = sv_quota s.
Proof.
  unfold handleAdminRotate, handleAdminMint, checkAdmin. case_bool_decide as Ha; [by auto 10|].
  case_bool_decide as Hb.
  - assert (bearerToken (rq_Header r) = Some adminToken) as Hb'.
    { destruct (bearerToken (rq_Header r)); simpl in Hb; congruence. }
    pose proof (mint_frame) as Hm.
    destruct (decode (rq_Body r)) as [[|k next]|]; (split; [naive_solver|]).
    all: split; [first [by left|right; split; [done|]; by exists (k :: next)]|].
    all: intros decodeID rnd; specialize (Hm rnd (sv_pool s)); destruct (decodeID (rq_Body r)); [|naive_solver].
    all: destruct (MintSessionToken rnd (sv_pool s)) as [[] p]; simpl in *; naive_solver.
  - split_and!; auto.
Qed.

(** What the proxy sends does not depend on the query of the request it
    answers, and is cut at one MiB: two requests that differ in their query
    are forwarded alike, and a longer body is forwarded as a prefix of itself
    rather than refused. *)
Theorem forward_drops_query_and_tail (upstream : string) (r : Request) (q secret : string) :
  upstreamRequest upstream (mkRequest (rq_Method r) (rq_Path r) q (rq_Header r) (rq_Body r)) secret
    = upstreamRequest upstream r secret ∧
  (2 ^ 20 < strlen (bd_bytes (rq_Body r)) →
   strlen (up_Body (upstreamRequest upstream r secret)) = 2 ^ 20).
Proof.
  split; [done|]. intros Hlen. unfold upstreamRequest, takeZ, strlen in *. cbn [up_Body].
  rewrite takeStr_length. change bodyLimit with (2 ^ 20). rewrite Nat.min_l; lia.
Qed.

(** ** A concrete exchange *)

Definition demoPool : Pool := runK [KRegister "sess_1"] (Keys.New [keyA; keyB]).
Definition demoServer : Server := mkServer demoPool (Quota.New DefaultLimits) [] 0.
Definition demoRequest : Request :=
  mkRequest "POST" "/v1/messages" "beta=true"
    {["Authorization" := ["Bearer sess_1"]; "X-Api-Key" := ["mine"]; "Accept-Encoding" := ["gzip"]]}
    (mkBody "{}" false).
Definition demoForward : ForwardIn := mkForwardIn "u" 0 1 2 true [].
Definition demoDo (_ : UpReq) : option UpResp :=
  Some (mkUpResp 200 {["Content-Type" := ["text/event-stream"]]} [demoBody] false).
Definition demoSent : UpReq := upstreamRequest "https://api" demoRequest "sk-a".


Lemma forward_drops_query_and_tail_witness :
  upstreamRequest "https://api" (mkRequest "POST" "/v1/messages" "" (rq_Header demoRequest)
    (rq_Body demoRequest)) "sk-a" = demoSent ∧
  (∃ n, strlen (bd_bytes (rq_Body demoRequest)) = n ∧ n = 2).
Proof.
  destruct (forward_drops_query_and_tail "https://api" demoRequest "" "sk-a") as [H _].
  split; [exact H|]. exists 2. vm_compute. split; reflexivity.
Defined.

(** The header that lets the upstream compress its answer is passed on,
    and the proxy then reads no usage from the compressed bytes: the quota
    records a request with no tokens. *)
Theorem compressed_answers_cost_nothing :
  let gz := String (chr 31) (String (chr 139) "data") in
  let Do (up : UpReq) := Some (mkUpResp 200 {["Content-Type" := ["text/event-stream"]]}
              [if bool_decide (up_Header up !! "Accept-Encoding" = Some ["gzip"]) then gz else demoBody]
              false) in
  b_usage (get 3 "sess_1" (sv_quota (handleForward demoUnmarshal Do "https://api" demoForward
                                        demoRequest demoServer).2)) = Quota.mkUsage 0 0 1.
Proof. vm_compute. reflexivity. Qed.
