(* ===== verification/Drain.v ===== *)
(** Rotating the keys under load, proxy/internal/server/server.go: the count
    of forwards in flight, the condition variable that signals zero, and the
    rotation that waits for it, for thirty seconds at most, before it
    replaces the keys.

    Forwards, rotations and the goroutine each rotation waits with are
    program counters; [dstep] interleaves their critical sections. *)
From S2P Require Import Prelude GoLib Keys.
Open Scope Z_scope.

Inductive Task :=
| FNew (tok : string)                         (* a forward, about to count itself in *)
| FIn (tok : string)                          (* counted, about to resolve its key *)
| FUse (r : res KeyErr (string * string))     (* using what it resolved *)
| FEnd
| RStart (next : list Key)                    (* a rotation, about to start its waiter *)
| RWait (next : list Key) (g : nat) (before : list nat)
| RSwap (next : list Key) (byDone : bool) (before : list nat)
| REnd (byDone : bool) (before : list nat)
| GCheck                                      (* the waiter: about to look at the count *)
| GSleep                                      (* in [drained.Wait] *)
| GEnd.                                       (* it closed [done] *)

Record Drain := mkDrain { d_inflight : Z; d_pool : Pool; d_tasks : list Task }.

Definition inFlight (t : Task) : bool := match t with FIn _ | FUse _ => true | _ => false end.

(** The forwards counted at this moment, by their index. *)
Fixpoint flying (i : nat) (l : list Task) : list nat :=
  match l with
  | [] => []
  | t :: l' => if inFlight t then i :: flying (S i) l' else flying (S i) l'
  end.

(** [drained.Broadcast()] *)
Definition wake (t : Task) : Task := match t with GSleep => GCheck | t => t end.

Definition setTask (i : nat) (t : Task) (d : Drain) : Drain :=
  mkDrain (d_inflight d) (d_pool d) (<[i := t]> (d_tasks d)).
Definition spawnTask (t : Task) (d : Drain) : Drain :=
  mkDrain (d_inflight d) (d_pool d) (d_tasks d ++ [t]).

(** [s.inflight++] *)
Definition enter (d : Drain) : Drain := mkDrain (d_inflight d + 1) (d_pool d) (d_tasks d).

(** The deferred function of [handleForward]. *)
Definition leave (d : Drain) : Drain :=
  let n := d_inflight d - 1 in
  mkDrain n (d_pool d) (if n =? 0 then wake <$> d_tasks d else d_tasks d).

Inductive DLabel :=
| DForward (tok : string)      (* a request arrives *)
| DRotate (next : list Key)    (* a rotation was let in *)
| DRun (i : nat)               (* task [i] takes its next step *)
| DTimeout (i : nat).          (* thirty seconds have passed for rotation [i] *)

Definition runTask (i : nat) (t : Task) (d : Drain) : option Drain :=
  match t with
  | FNew tok => Some (setTask i (FIn tok) (enter d))
  | FIn tok => Some (setTask i (FUse (SecretForSession tok (d_pool d))) d)
  | FUse _ => Some (leave (setTask i FEnd d))
  | RStart next =>
    Some (spawnTask GCheck (setTask i (RWait next (length (d_tasks d)) (flying 0 (d_tasks d))) d))
  | RWait next g before =>
    match d_tasks d !! g with
    | Some GEnd => Some (setTask i (RSwap next true before) d)
    | _ => None
    end
  | RSwap next byDone before =>
    Some (setTask i (REnd byDone before) (mkDrain (d_inflight d) (Replace next (d_pool d)) (d_tasks d)))
  | GCheck => Some (setTask i (if 0 <? d_inflight d then GSleep else GEnd) d)
  | _ => None
  end.

Definition dstep (l : DLabel) (d : Drain) : option Drain :=
  match l with
  | DForward tok => Some (spawnTask (FNew tok) d)
  | DRotate next => Some (spawnTask (RStart next) d)
  | DRun i => match d_tasks d !! i with Some t => runTask i t d | None => None end
  | DTimeout i => match d_tasks d !! i with
                  | Some (RWait next g before) => Some (setTask i (RSwap next false before) d)
                  | _ => None
                  end
  end.

Fixpoint dsteps (ls : list DLabel) (d : Drain) : option Drain :=
  match ls with
  | [] => Some d
  | l :: ls' => match dstep l d with Some d' => dsteps ls' d' | None => None end
  end.

Definition drainStart (p : Pool) : Drain := mkDrain 0 p [].

(** ** Lemmas *)

Definition countIn (l : list Task) : Z := Z.of_nat (length (filter (λ t, inFlight t = true) l)).

Lemma countIn_app l k : countIn (l ++ k) = countIn l + countIn k.
Proof. unfold countIn. rewrite filter_app, length_app. lia. Qed.

Lemma countIn_one t : countIn [t] = if inFlight t then 1 else 0.
Proof. unfold countIn. rewrite filter_cons, filter_nil. by destruct (inFlight t). Qed.

Lemma countIn_set l i t t' : l !! i = Some t →
  countIn (<[i := t']> l) = countIn l - (if inFlight t then 1 else 0) + (if inFlight t' then 1 else 0).
Proof.
  intros Hi. apply list_elem_of_split_length in Hi as (l1 & l2 & -> & ->).
  rewrite insert_app_r_alt, Nat.sub_diag by lia. simpl.
  change (t' :: l2) with ([t'] ++ l2). change (t :: l2) with ([t] ++ l2).
  rewrite !countIn_app, !countIn_one. lia.
Qed.

Lemma countIn_wake l : countIn (wake <$> l) = countIn l.
Proof.
  unfold countIn. f_equal. induction l as [|t l IH]; [done|]. rewrite fmap_cons, !filter_cons.
  destruct t; simpl; rewrite ?decide_True, ?decide_False by done; simpl; by rewrite ?IH.
Qed.

Lemma countIn_zero l i t : countIn l = 0 → l !! i = Some t → inFlight t = false.
Proof.
  intros Hz Hi. destruct (inFlight t) eqn:Ht; [|done]. exfalso.
  assert (t ∈ filter (λ t, inFlight t = true) l) as Hin.
  { apply list_elem_of_filter. split; [done|]. by eapply list_elem_of_lookup_2. }
  unfold countIn in Hz. destruct (filter _ l); [by apply not_elem_of_nil in Hin|simpl in Hz; lia].
Qed.

Lemma countIn_nonneg l : 0 ≤ countIn l.
Proof. unfold countIn. lia. Qed.

Lemma flying_elem l : ∀ i j, j ∈ flying i l → ∃ k t, j = (i + k)%nat ∧ l !! k = Some t ∧ inFlight t = true.
Proof.
  induction l as [|t l IH]; intros i j; simpl; [by intros ?%not_elem_of_nil|].
  assert (j ∈ flying (S i) l → ∃ k u, j = (i + k)%nat ∧ (t :: l) !! k = Some u ∧ inFlight u = true) as Hl.
  { intros (k & u & -> & Hk & Hu)%IH. exists (S k), u. split; [lia|done]. }
  destruct (inFlight t) eqn:Ht; [|done]. intros [->|?]%elem_of_cons; [|auto].
  exists 0%nat, t. split; [lia|done].
Qed.

(** A forward that has started is in flight or has finished. *)
Definition started (t : Task) : bool := match t with FIn _ | FUse _ | FEnd => true | _ => false end.
Definition allEnded (l : list Task) (js : list nat) : Prop := ∀ j, j ∈ js → l !! j = Some FEnd.
Definition allStarted (l : list Task) (js : list nat) : Prop :=
  ∀ j, j ∈ js → ∃ t, l !! j = Some t ∧ started t = true.

Record DInv (d : Drain) : Prop := {
  di_count : d_inflight d = countIn (d_tasks d);
  di_sleep : ∀ i, d_tasks d !! i = Some GSleep → 0 < d_inflight d;
  di_wait : ∀ i next g before, d_tasks d !! i = Some (RWait next g before) →
    allStarted (d_tasks d) before ∧
    ∃ t, d_tasks d !! g = Some t ∧ (t = GCheck ∨ t = GSleep ∨ t = GEnd ∧ allEnded (d_tasks d) before);
  di_swap : ∀ i next before, d_tasks d !! i = Some (RSwap next true before) → allEnded (d_tasks d) before;
  di_end : ∀ i before, d_tasks d !! i = Some (REnd true before) → allEnded (d_tasks d) before
}.

(** How a task may move as seen by the others: a started forward stays
    started, a finished one finished, a waiter's task its waiter. *)
Definition evolves (l l' : list Task) : Prop :=
  ∀ j t, l !! j = Some t → ∃ t', l' !! j = Some t' ∧
    (started t = true → started t' = true) ∧ (t = FEnd → t' = FEnd) ∧ (t = GEnd → t' = GEnd) ∧
    (t = GCheck ∨ t = GSleep → t' = GCheck ∨ t' = GSleep ∨ t' = GEnd).

Lemma evolves_ended l l' js : evolves l l' → allEnded l js → allEnded l' js.
Proof. intros He Ha j Hj. destruct (He j FEnd (Ha j Hj)) as (t' & Ht' & _ & Hf & _). by rewrite Ht', Hf. Qed.

Lemma evolves_started l l' js : evolves l l' → allStarted l js → allStarted l' js.
Proof.
  intros He Ha j Hj. destruct (Ha j Hj) as (t & Ht & Hs). destruct (He j t Ht) as (t' & Ht' & Hs' & _). eauto.
Qed.

Lemma evolves_refl l : evolves l l.
Proof. intros j t Hj. exists t. naive_solver. Qed.

Lemma evolves_app l l' k : evolves l l' → evolves l (l' ++ k).
Proof. intros He j t Hj. destruct (He j t Hj) as (t' & ? & ?). exists t'. split; [by apply lookup_app_l_Some|done]. Qed.

Lemma evolves_set l i t t' : l !! i = Some t →
  (started t = true → started t' = true) → (t = FEnd → t' = FEnd) → (t = GEnd → t' = GEnd) →
  (t = GCheck ∨ t = GSleep → t' = GCheck ∨ t' = GSleep ∨ t' = GEnd) → evolves l (<[i := t']> l).
Proof.
  intros Hi H1 H2 H3 H4 j u Hj. destruct (decide (j = i)) as [->|Hne].
  - exists t'. rewrite list_lookup_insert_eq by (by eapply lookup_lt_Some). simplify_eq. done.
  - exists u. rewrite list_lookup_insert_ne by done. naive_solver.
Qed.

Lemma evolves_wake l l' : evolves l l' → evolves l (wake <$> l').
Proof.
  intros He j t Hj. destruct (He j t Hj) as (t' & Ht' & H1 & H2 & H3 & H4). exists (wake t').
  rewrite list_lookup_fmap, Ht'. split; [done|]. split_and!.
  - intros Hs. specialize (H1 Hs). by destruct t'.
  - intros Hs. by rewrite (H2 Hs).
  - intros Hs. by rewrite (H3 Hs).
  - intros Hs. destruct (H4 Hs) as [->|[->| ->]]; simpl; auto.
Qed.

Lemma started_ended l js : countIn l = 0 → allStarted l js → allEnded l js.
Proof.
  intros Hz Hs j Hj. destruct (Hs j Hj) as (t & Ht & Hst). pose proof (countIn_zero l j t Hz Ht). by destruct t.
Qed.

(** ** Preservation *)

(** What must hold of a task a step has just written. *)
Definition taskOK (l : list Task) (t : Task) : Prop :=
  match t with
  | RWait _ g before => allStarted l before ∧ l !! g = Some GCheck
  | RSwap _ true before | REnd true before => allEnded l before
  | _ => True
  end.

Lemma DInv_evolve d d' :
  DInv d → evolves (d_tasks d) (d_tasks d') → d_inflight d' = countIn (d_tasks d') →
  (∀ i, d_tasks d' !! i = Some GSleep → 0 < d_inflight d') →
  (∀ i t, d_tasks d' !! i = Some t → d_tasks d !! i = Some t ∨ taskOK (d_tasks d') t) →
  (∀ g t, d_tasks d !! g = Some t → t ≠ GEnd → d_tasks d' !! g = Some GEnd → countIn (d_tasks d') = 0) → DInv d'.
Proof.
  intros [H1 H2 H3 H4 H5] He Hc Hs Hnew Hend. split; [done|done|..].
  - intros i next g before Hi. destruct (Hnew i _ Hi) as [Hold|[Hst Hg]]; [|by eauto 6].
    destruct (H3 i next g before Hold) as [Hst (t & Ht & Hcase)].
    pose proof (evolves_started _ _ _ He Hst) as Hst'. split; [done|].
    destruct (He g t Ht) as (t' & Ht' & _ & _ & Hge & Hgc). exists t'. split; [done|].
    destruct Hcase as [->|[->|[-> Ha]]].
    + destruct Hgc as [->|[->| ->]]; auto. right. right. split; [done|].
      apply started_ended; [by eapply Hend|done].
    + destruct Hgc as [->|[->| ->]]; auto. right. right. split; [done|].
      apply started_ended; [by eapply Hend|done].
    + rewrite Hge by done. right. right. split; [done|]. by eapply evolves_ended.
  - intros i next before Hi. destruct (Hnew i _ Hi) as [Hold|Hok]; [|done]. eapply evolves_ended; [done|by eapply H4].
  - intros i before Hi. destruct (Hnew i _ Hi) as [Hold|Hok]; [|done]. eapply evolves_ended; [done|by eapply H5].
Qed.

Lemma lookup_setT (l : list Task) i j t u : <[i := t]> l !! j = Some u → (j = i ∧ u = t) ∨ (j ≠ i ∧ l !! j = Some u).
Proof. intros [(? & ? & _)|[? ?]]%list_lookup_insert_Some; [left; done|right; done]. Qed.

Lemma lookup_appT (l : list Task) t j u : (l ++ [t]) !! j = Some u → l !! j = Some u ∨ u = t.
Proof.
  intros [?|[_ Hu]]%lookup_app_Some; [by left|right].
  apply list_lookup_singleton_Some in Hu as [_ ?]. done.
Qed.

(** A step that rewrites one task, by one that neither sleeps nor ends a
    waiter. *)
Lemma DInv_set d d' i t t' :
  DInv d → d_tasks d !! i = Some t → d_tasks d' = <[i := t']> (d_tasks d) →
  evolves (d_tasks d) (d_tasks d') → d_inflight d' = countIn (d_tasks d') → d_inflight d ≤ d_inflight d' →
  t' ≠ GSleep → t' ≠ GEnd → taskOK (d_tasks d') t' → DInv d'.
Proof.
  intros Hd Hi Ht He Hc Hle Hns Hne Hok. apply (DInv_evolve d); try done; rewrite Ht.
  - intros j [[-> ?]|[_ Hj]]%lookup_setT; [done|]. pose proof (di_sleep d Hd j Hj). lia.
  - intros j u [[-> ->]|[_ Hj]]%lookup_setT; [right; by rewrite <- Ht|by left].
  - intros g u Hg Hu [[-> ?]|[_ Hj]]%lookup_setT; [done|]. congruence.
Qed.

Lemma DInv_spawn d t : DInv d → inFlight t = false → taskOK (d_tasks d ++ [t]) t → t ≠ GSleep → DInv (spawnTask t d).
Proof.
  intros Hd Hf Hok Hns. apply (DInv_evolve d); simpl; try done.
  - apply evolves_app, evolves_refl.
  - rewrite countIn_app, countIn_one, Hf, (di_count d Hd). lia.
  - intros i [Hi|Hi]%lookup_appT; [by eapply di_sleep|done].
  - intros i u [Hi| ->]%lookup_appT; [by left|by right].
  - intros g u Hg Hu Hg'. rewrite (lookup_app_l_Some _ _ _ _ Hg) in Hg'. congruence.
Qed.

Lemma DInv_leave d i r : DInv d → d_tasks d !! i = Some (FUse r) → DInv (leave (setTask i FEnd d)).
Proof.
  intros Hd Hi. pose proof (di_count d Hd) as Hc.
  pose proof (countIn_set (d_tasks d) i (FUse r) FEnd Hi) as Hn. simpl in Hn.
  assert (evolves (d_tasks d) (<[i:=FEnd]> (d_tasks d))) as He by (eapply evolves_set; [done|naive_solver..]).
  unfold leave. simpl. destruct (Z.eqb_spec (d_inflight d - 1) 0) as [Hz|Hnz].
  - apply (DInv_evolve d); simpl; try done.
    + by apply evolves_wake.
    + rewrite countIn_wake. lia.
    + intros j Hj. rewrite list_lookup_fmap in Hj. destruct (_ !! j) as [[]|]; simplify_eq/=.
    + intros j t. rewrite list_lookup_fmap. destruct (_ !! j) as [u|] eqn:Hu; [|done]. simpl. intros [= <-].
      apply lookup_setT in Hu as [[_ ->]|[_ Hu]]; [by right|]. destruct u; auto. by right.
    + intros g t Hg Ht _. rewrite countIn_wake. lia.
  - assert (0 < d_inflight d - 1).
    { pose proof (countIn_nonneg (<[i:=FEnd]> (d_tasks d))). lia. }
    apply (DInv_evolve d); simpl; try done.
    + lia.
    + intros j t [[_ ->]|[_ Hj]]%lookup_setT; [by right|by left].
    + intros g t Hg Ht [[_ ?]|[_ Hj]]%lookup_setT; [done|congruence].
Qed.

Lemma DInv_check d i : DInv d → d_tasks d !! i = Some GCheck →
  DInv (setTask i (if 0 <? d_inflight d then GSleep else GEnd) d).
Proof.
  intros Hd Hi. pose proof (di_count d Hd) as Hc. destruct (Z.ltb_spec 0 (d_inflight d)) as [Hlt|Hge].
  - pose proof (countIn_set (d_tasks d) i GCheck GSleep Hi) as Hn. simpl in Hn.
    apply (DInv_evolve d); simpl; try done.
    + eapply evolves_set; [done|naive_solver..].
    + lia.
    + intros j t [[_ ->]|[_ Hj]]%lookup_setT; [by right|by left].
    + intros g t Hg Ht [[_ ?]|[_ Hj]]%lookup_setT; [done|congruence].
  - pose proof (countIn_set (d_tasks d) i GCheck GEnd Hi) as Hn. simpl in Hn.
    pose proof (countIn_nonneg (d_tasks d)).
    apply (DInv_evolve d); simpl; try done.
    + eapply evolves_set; [done|naive_solver..].
    + lia.
    + intros j [[_ ?]|[_ Hj]]%lookup_setT; [done|]. by eapply di_sleep.
    + intros j t [[_ ->]|[_ Hj]]%lookup_setT; [by right|by left].
    + lia.
Qed.

Lemma DInv_start d i next : DInv d → d_tasks d !! i = Some (RStart next) →
  DInv (spawnTask GCheck (setTask i (RWait next (length (d_tasks d)) (flying 0 (d_tasks d))) d)).
Proof.
  intros Hd Hi. pose proof (di_count d Hd) as Hc. set (w := RWait _ _ _).
  pose proof (countIn_set (d_tasks d) i (RStart next) w Hi) as Hn. simpl in Hn.
  assert (evolves (d_tasks d) (<[i:=w]> (d_tasks d) ++ [GCheck])) as He.
  { apply evolves_app. eapply evolves_set; [done|naive_solver..]. }
  assert (length (d_tasks d) = length (<[i:=w]> (d_tasks d))) as Hlen by (by rewrite length_insert).
  apply (DInv_evolve d); simpl; try done.
  - rewrite countIn_app, countIn_one. simpl. lia.
  - intros j [Hj|?]%lookup_appT; [|done]. apply lookup_setT in Hj as [[_ ?]|[_ Hj]]; [done|]. by eapply di_sleep.
  - intros j t [Hj| ->]%lookup_appT; [|by right]. apply lookup_setT in Hj as [[_ ->]|[_ Hj]]; [|by left]. right. split.
    + eapply evolves_started; [done|]. intros k (k' & t' & -> & Hk & Hf)%flying_elem. exists t'. split; [done|]. by destruct t'.
    + rewrite lookup_app_r by lia. by rewrite Hlen, Nat.sub_diag.
  - intros g t Hg Ht Hg'. destruct (lookup_app_Some (<[i:=w]> (d_tasks d)) [GCheck] g GEnd) as [[Hj|[_ Hj]] _]; [done| |].
    + apply lookup_setT in Hj as [[_ ?]|[_ Hj]]; [done|congruence].
    + by apply list_lookup_singleton_Some in Hj as [_ ?].
Qed.

Lemma DInv_run d i t d' : DInv d → d_tasks d !! i = Some t → runTask i t d = Some d' → DInv d'.
Proof.
  intros Hd Hi. pose proof (di_count d Hd) as Hc. pose proof (λ t', countIn_set (d_tasks d) i t t' Hi) as Hn.
  destruct t as [tok|tok|r| |next|next g before|next by_ before|by_ before| | |]; simpl; try done.
  - intros [= <-]. apply (DInv_set d _ i (FNew tok) (FIn tok)); simpl; try done.
    + eapply evolves_set; [done|naive_solver..].
    + rewrite Hn. simpl. lia.
    + lia.
  - intros [= <-]. apply (DInv_set d _ i (FIn tok) (FUse (SecretForSession tok (d_pool d)))); simpl; try done.
    + eapply evolves_set; [done|naive_solver..].
    + rewrite Hn. simpl. lia.
  - intros [= <-]. by eapply DInv_leave.
  - intros [= <-]. by apply DInv_start.
  - destruct (d_tasks d !! g) as [[]|] eqn:Hg; try done. intros [= <-].
    assert (evolves (d_tasks d) (<[i:=RSwap next true before]> (d_tasks d))) as He
      by (eapply evolves_set; [done|naive_solver..]).
    apply (DInv_set d _ i (RWait next g before) (RSwap next true before)); simpl; try done.
    + rewrite Hn. simpl. lia.
    + destruct (di_wait d Hd i next g before Hi) as (_ & t & Ht & Hcase). rewrite Hg in Ht. injection Ht as <-.
      destruct Hcase as [?|[?|[_ Ha]]]; [done|done|]. by eapply evolves_ended.
  - intros [= <-].
    assert (evolves (d_tasks d) (<[i:=REnd by_ before]> (d_tasks d))) as He
      by (eapply evolves_set; [done|naive_solver..]).
    apply (DInv_set d _ i (RSwap next by_ before) (REnd by_ before)); simpl; try done.
    + rewrite Hn. simpl. lia.
    + destruct by_; [|done]. eapply evolves_ended; [done|by eapply di_swap].
  - intros [= <-]. by apply DInv_check.
Qed.

Lemma dstep_inv l d d' : DInv d → dstep l d = Some d' → DInv d'.
Proof.
  intros Hd. destruct l as [tok|next|i|i]; simpl.
  - intros [= <-]. by apply DInv_spawn.
  - intros [= <-]. by apply DInv_spawn.
  - destruct (d_tasks d !! i) as [t|] eqn:Hi; [|done]. by apply DInv_run.
  - destruct (d_tasks d !! i) as [[]|] eqn:Hi; try done. intros [= <-].
    apply (DInv_set d _ i (RWait next g before) (RSwap next false before)); simpl; try done.
    + eapply evolves_set; [done|naive_solver..].
    + rewrite (countIn_set _ _ _ _ Hi), (di_count d Hd). simpl. lia.
Qed.

Lemma dsteps_inv ls : ∀ d d', DInv d → dsteps ls d = Some d' → DInv d'.
Proof.
  induction ls as [|l ls IH]; intros d d' Hd; simpl; [by intros [= <-]|].
  destruct (dstep l d) as [d1|] eqn:E; [|done]. apply IH. by eapply dstep_inv.
Qed.

Lemma start_DInv p : DInv (drainStart p).
Proof. by split; simpl; intros; rewrite ?lookup_nil in *. Qed.

(** *** A rotation remembers what it waits for *)

Definition waitsFor (t : Task) : option (list nat) :=
  match t with RWait _ _ b | RSwap _ _ b | REnd _ b => Some b | _ => None end.

Lemma flying_complete l : ∀ i k t, l !! k = Some t → inFlight t = true → (i + k)%nat ∈ flying i l.
Proof.
  induction l as [|u l IH]; intros i k t Hk Ht; [by rewrite lookup_nil in Hk|]. simpl. destruct k as [|k]; simpl in Hk.
  - injection Hk as ->. rewrite Ht, Nat.add_0_r. set_solver.
  - specialize (IH (S i) k t Hk Ht). replace (i + S k)%nat with (S i + k)%nat by lia. destruct (inFlight u); set_solver.
Qed.

Lemma set_waits (l : list Task) i j t b u u' : l !! j = Some t → waitsFor t = Some b →
  l !! i = Some u → (waitsFor u = Some b → waitsFor u' = Some b) →
  ∃ t', <[i := u']> l !! j = Some t' ∧ waitsFor t' = Some b.
Proof.
  intros Hj Hw Hi Hu. destruct (decide (j = i)) as [->|Hne].
  - exists u'. rewrite list_lookup_insert_eq by (by eapply lookup_lt_Some). simplify_eq. auto.
  - exists t. by rewrite list_lookup_insert_ne.
Qed.

Lemma wake_waits (l : list Task) j b : (∃ t, l !! j = Some t ∧ waitsFor t = Some b) →
  ∃ t, (wake <$> l) !! j = Some t ∧ waitsFor t = Some b.
Proof. intros (t & Ht & Hw). exists (wake t). rewrite list_lookup_fmap, Ht. split; [done|]. by destruct t. Qed.

Lemma dstep_waits l d d' j t b : dstep l d = Some d' → d_tasks d !! j = Some t → waitsFor t = Some b →
  ∃ t', d_tasks d' !! j = Some t' ∧ waitsFor t' = Some b.
Proof.
  intros Hs Hj Hw. destruct l as [tok|next|i|i]; simpl in Hs.
  - injection Hs as <-. exists t. split; [by apply lookup_app_l_Some|done].
  - injection Hs as <-. exists t. split; [by apply lookup_app_l_Some|done].
  - destruct (d_tasks d !! i) as [u|] eqn:Hi; [|done].
    destruct u as [tok|tok|r| |next|next g before|next by_ before|by_ before| | |]; simpl in Hs; try done.
    + injection Hs as <-. by eapply set_waits.
    + injection Hs as <-. by eapply set_waits.
    + injection Hs as <-. unfold leave. simpl. case_match; [apply wake_waits|]; by eapply set_waits.
    + injection Hs as <-. destruct (set_waits (d_tasks d) i j t b (RStart next)
        (RWait next (length (d_tasks d)) (flying 0 (d_tasks d)))) as (t' & ? & ?); [done..|].
      exists t'. split; [by apply lookup_app_l_Some|done].
    + repeat case_match; simplify_eq. by eapply set_waits.
    + injection Hs as <-. by eapply set_waits.
    + injection Hs as <-. by eapply set_waits.
  - repeat case_match; simplify_eq. by eapply set_waits.
Qed.

Lemma dsteps_waits ls : ∀ d d' j t b, dsteps ls d = Some d' → d_tasks d !! j = Some t → waitsFor t = Some b →
  ∃ t', d_tasks d' !! j = Some t' ∧ waitsFor t' = Some b.
Proof.
  induction ls as [|l ls IH]; intros d d' j t b; simpl; [intros [= <-]; eauto|].
  destruct (dstep l d) as [d1|] eqn:E; [|done]. intros Hs Hj Hw.
  destruct (dstep_waits l d d1 j t b E Hj Hw) as (t1 & ? & ?). by eapply IH.
Qed.

Lemma dsteps_app ls ls' d d1 : dsteps ls d = Some d1 → dsteps (ls ++ ls') d = dsteps ls' d1.
Proof.
  revert d. induction ls as [|l ls IH]; intros d; simpl; [by intros [= ->]|].
  destruct (dstep l d); [|done]. apply IH.
Qed.

(** ** Properties *)

(** C34: What a rotation waits for.  The in-flight counter is the number of
    forwards between their start and their return, whatever the
    interleaving, and never negative; a waiter sleeps only while it is
    positive, so no wake-up is lost; and when a rotation swaps the keys
    because its waiter reported, every forward that was in flight when it
    began to wait has returned. *)
Theorem rotation_drains (p : Pool) (ls ls' : list DLabel) (d d1 : Drain) (i : nat) (next : list Key) :
  dsteps ls (drainStart p) = Some d → d_tasks d !! i = Some (RStart next) →
  dsteps (DRun i :: ls') d = Some d1 →
  d_inflight d1 = countIn (d_tasks d1) ∧ 0 ≤ d_inflight d1 ∧
  (∀ j, d_tasks d1 !! j = Some GSleep → 0 < d_inflight d1) ∧
  (∀ b, d_tasks d1 !! i = Some (RSwap next true b) ∨ d_tasks d1 !! i = Some (REnd true b) →
     ∀ j t, d_tasks d !! j = Some t → inFlight t = true → d_tasks d1 !! j = Some FEnd).
Proof.
  intros Hls Hi Hls'.
  assert (DInv d1) as Hd1.
  { eapply (dsteps_inv (ls ++ DRun i :: ls')); [apply (start_DInv p)|]. by rewrite (dsteps_app ls _ _ _ Hls). }
  pose proof (di_count d1 Hd1). pose proof (countIn_nonneg (d_tasks d1)). split_and!; [done|lia|apply Hd1|].
  simpl in Hls'. rewrite Hi in Hls'. simpl in Hls'.
  set (w := RWait next (length (d_tasks d)) (flying 0 (d_tasks d))) in Hls'.
  destruct (dsteps_waits ls' _ d1 i w (flying 0 (d_tasks d)) Hls') as (t' & Ht' & Hw').
  { simpl. apply lookup_app_l_Some. apply list_lookup_insert_eq. by eapply lookup_lt_Some. }
  { done. }
  intros b Hb j t Hj Ht. pose proof (flying_complete _ 0 j t Hj Ht) as Hin. simpl in Hin.
  destruct Hb as [Hb|Hb]; rewrite Ht' in Hb; injection Hb as ->; injection Hw' as ->.
  - by eapply (di_swap d1 Hd1).
  - by eapply (di_end d1 Hd1).
Qed.

(** The comment says that the new keys are live only for new requests; new
    forwards are not held back while a rotation drains, so one that starts
    after the waiter reported is in flight, with a key of the old pool, when
    the keys are swapped. *)
Definition lateForward : list DLabel :=
  [DForward "sess_1"; DRun 0; DRun 0; DRotate [mkKey "b" "" "sk-b"]; DRun 1; DRun 0; DRun 2; DRun 1;
   DForward "sess_1"; DRun 3; DRun 3; DRun 1].

Definition oldPool : Pool := (RegisterSessionToken "sess_1" (New [mkKey "a" "" "sk-a"])).2.

Theorem drained_rotation_overlaps :
  ∃ d b, dsteps lateForward (drainStart oldPool) = Some d ∧ d_tasks d !! 1%nat = Some (REnd true b) ∧
    d_tasks d !! 3%nat = Some (FUse (Ok ("sk-a", "a"))) ∧ p_keys (d_pool d) = [mkKey "b" "" "sk-b"].
Proof. eexists _, _. split; [vm_compute; reflexivity|]. split_and!; vm_compute; reflexivity. Qed.

Lemma rotation_drains_witness :
  ∃ d1, dsteps lateForward (drainStart oldPool) = Some d1 ∧ d_inflight d1 = countIn (d_tasks d1) ∧
    d_tasks d1 !! 0%nat = Some FEnd.
Proof.
  destruct (dsteps (take 4 lateForward) (drainStart oldPool)) as [d|] eqn:E0; [|vm_compute in E0; discriminate].
  destruct (dsteps (drop 4 lateForward) d) as [d1|] eqn:E1; [|vm_compute in E0; injection E0 as <-; vm_compute in E1; discriminate].
  exists d1. rewrite <- (take_drop 4 lateForward), (dsteps_app _ _ _ _ E0). split; [done|].
  destruct (rotation_drains oldPool (take 4 lateForward) (drop 5 lateForward) d d1 1 [mkKey "b" "" "sk-b"] E0)
    as (H1 & _ & _ & H4).
  - vm_compute in E0. injection E0 as <-. reflexivity.
  - exact E1.
  - split; [exact H1|]. eapply (H4 [0%nat]).
    + right. vm_compute in E0. injection E0 as <-. vm_compute in E1. injection E1 as <-. reflexivity.
    + vm_compute in E0. injection E0 as <-. reflexivity.
    + reflexivity.
Defined.
