(* ===== verification/Proxy.v ===== *)
(** The API proxy as a whole: its start ([main] of
    proxy/cmd/claude-proxy/main.go and [New] of
    proxy/internal/server/server.go), its mux, and histories of requests. *)
From S2P Require Import Prelude GoLib Session Keys Quota Stream Forward.
Open Scope Z_scope.

(** ** [server.New] *)

(** The audit sink, the HTTP client and the logger, which default when they
    are not given, play no part in what follows and are left out. *)

Record ServerConfig := mkServerConfig {
  sc_Upstream : string; sc_Pool : option Pool; sc_Quota : option Quota.Manager; sc_AdminToken : string
}.

Inductive ServerErr := ErrParseUpstream | ErrNilPool | ErrNilQuota.

Definition defaultUpstream : string := "https://api.anthropic.com".

(** A server ready to serve: its upstream, its admin token, its state. *)
Record Ready := mkReady { rd_upstream : string; rd_admin : string; rd_server : Server }.

Section Start.
(** [url.Parse] followed by [String]; [json.Unmarshal] on an array of keys. *)
Variable parseURL : string → option string.
Variable decodeEnv : string → option (list Key).

Definition NewServer (cfg : ServerConfig) : res ServerErr Ready :=
  let up := if bool_decide (sc_Upstream cfg = "") then defaultUpstream else sc_Upstream cfg in
  match parseURL up with
  | None => Err ErrParseUpstream
  | Some u =>
    match sc_Pool cfg, sc_Quota cfg with
    | None, _ => Err ErrNilPool
    | _, None => Err ErrNilQuota
    | Some p, Some q => Ok (mkReady u (sc_AdminToken cfg) (mkServer p q [] 0))
    end
  end.

(** ** [main] *)

Definition envOr (env : string → string) (k d : string) : string :=
  let v := trimSpace (env k) in if bool_decide (v = "") then d else v.

(** The flags that were given; [None] takes the default. *)
Record Flags := mkFlags {
  fl_tlsCert : option string; fl_tlsKey : option string; fl_plain : bool;
  fl_upstream : option string; fl_postgres : option string
}.

(** How far the audit database got. *)
Record PgEnv := mkPgEnv { pg_open : bool; pg_ping : bool; pg_schema : bool }.

Inductive ProxyFatal := PxKeys (e : KeyErr) | PxPostgres | PxServer (e : ServerErr) | PxTLS.

(** What is served, and how: [None] is plain HTTP. *)
Record ProxyUp := mkProxyUp { pu_ready : Ready; pu_tls : option (string * string); pu_sql : bool }.

Definition startProxy (env : string → string) (fl : Flags) (pg : PgEnv) : res ProxyFatal ProxyUp :=
  match LoadFromEnv decodeEnv (env "ANTHROPIC_API_KEYS") with
  | Err e => Err (PxKeys e)
  | Ok ks =>
    let pgURL := default (env "POSTGRES_URL") (fl_postgres fl) in
    let sql := negb (bool_decide (pgURL = "")) in
    if sql && negb (pg_open pg && pg_ping pg && pg_schema pg) then Err PxPostgres
    else match NewServer (mkServerConfig (default (envOr env "PROXY_UPSTREAM" defaultUpstream) (fl_upstream fl))
                            (Some (Keys.New ks)) (Some (Quota.New DefaultLimits)) (env "PROXY_ADMIN_TOKEN")) with
         | Err e => Err (PxServer e)
         | Ok rd =>
           let cert := default (env "PROXY_TLS_CERT_FILE") (fl_tlsCert fl) in
           let key := default (env "PROXY_TLS_KEY_FILE") (fl_tlsKey fl) in
           if fl_plain fl then Ok (mkProxyUp rd None sql)
           else if bool_decide (cert = "") || bool_decide (key = "") then Err PxTLS
           else Ok (mkProxyUp rd (Some (cert, key)) sql)
         end
  end.
End Start.

(** ** The mux *)

Section Serve.
Variable unmarshal : string → option Outer.
Variable Do : UpReq → option UpResp.
Variable decodeKeys : Body → option (list Key).
Variable decodeID : Body → option string.
Variable upstream : string.
Variable adminToken : string.

(** What one request draws from outside. *)
Record ProxyIn := mkProxyIn { pi_forward : ForwardIn; pi_rnd : option string }.

(** [routes], for paths in canonical form. *)
Definition proxyServe (i : ProxyIn) (r : Request) (s : Server) : option UpReq * Response * Server :=
  if hasPrefix "/v1/" (rq_Path r) then handleForward unmarshal Do upstream (pi_forward i) r s
  else if bool_decide (rq_Path r = "/admin/rotate") then
    let '(resp, s') := handleAdminRotate adminToken decodeKeys r s in (None, resp, s')
  else if bool_decide (rq_Path r = "/admin/mint") then
    let '(resp, s') := handleAdminMint adminToken decodeID (pi_rnd i) r s in (None, resp, s')
  else if bool_decide (rq_Path r = "/healthz") then (None, mkResponse 200 ∅ ROk, s)
  else (None, httpError 404 "404 page not found", s).

(** A history of requests, with the answers they got. *)
Fixpoint proxyRun (rs : list (ProxyIn * Request)) (s : Server) : list Response * Server :=
  match rs with
  | [] => ([], s)
  | (i, r) :: rs' =>
    let '(_, resp, s1) := proxyServe i r s in
    let '(resps, s2) := proxyRun rs' s1 in (resp :: resps, s2)
  end.

(** ** Lemmas *)

Lemma mint_tokens rnd p tok :
  is_Some (p_sessionToKey (MintSessionToken rnd p).2 !! tok) →
  is_Some (p_sessionToKey p !! tok) ∨ (MintSessionToken rnd p).1 = Ok tok.
Proof.
  unfold MintSessionToken. destruct (Nat.eqb _ _); [auto|]. destruct (randomToken rnd) as [t|]; [|auto].
  unfold pin. destruct (keyAt p); simpl; [|auto]. intros [x [[<- _]|[_ ?]]%lookup_insert_Some]; [auto|eauto].
Qed.

Lemma forward_pool i r s : sv_pool (handleForward unmarshal Do upstream i r s).2 = sv_pool s.
Proof.
  unfold handleForward, forwardBody, forwardReserved. simpl.
  destruct (bearerToken (rq_Header r)) as [tok|]; [|done].
  destruct (SecretForSession tok (sv_pool s)) as [[secret keyID]|[]]; try done.
  destruct (Reserve (fi_reserve i) tok (sv_quota s)) as [[e|] q]; [done|].
  destruct (_ && _); [done|]. destruct (negb _); [done|].
  destruct (Do _) as [resp|]; [|done]. by destruct (streamBody unmarshal (fi_woks i) resp).
Qed.

(** An answer that hands out a token, to somebody who has the admin token. *)
Definition mints (tok : string) (r : Request) (resp : Response) : Prop :=
  rq_Path r = "/admin/mint" ∧ adminToken ≠ "" ∧ bearerToken (rq_Header r) = Some adminToken ∧
  rs_Status resp = 200 ∧ rs_Reply resp = RToken tok.

Lemma checkAdmin_None r : checkAdmin adminToken r = None →
  adminToken ≠ "" ∧ bearerToken (rq_Header r) = Some adminToken.
Proof.
  unfold checkAdmin. case_bool_decide; [done|]. case_bool_decide as Hb; [|done]. intros _. split; [done|].
  destruct (bearerToken (rq_Header r)); simpl in Hb; congruence.
Qed.

(** A token a request adds was handed out by it. *)
Lemma serve_tokens i r s tok :
  let '(_, resp, s') := proxyServe i r s in
  is_Some (p_sessionToKey (sv_pool s') !! tok) →
  is_Some (p_sessionToKey (sv_pool s) !! tok) ∨ mints tok r resp.
Proof.
  unfold proxyServe. destruct (hasPrefix "/v1/" (rq_Path r)).
  { pose proof (forward_pool (pi_forward i) r s) as Hp.
    destruct (handleForward unmarshal Do upstream (pi_forward i) r s) as [[up resp] s']. simpl in Hp. rewrite Hp. auto. }
  case_bool_decide as H1; [|case_bool_decide as H2; [|case_bool_decide; auto]].
  - unfold handleAdminRotate. destruct (checkAdmin adminToken r); [auto|].
    destruct (decodeKeys (rq_Body r)) as [[|k l]|]; auto.
  - unfold handleAdminMint. destruct (checkAdmin adminToken r) eqn:Hc; [auto|]. apply checkAdmin_None in Hc as [Ha Hb].
    destruct (decodeID (rq_Body r)); [|auto].
    pose proof (mint_tokens (pi_rnd i) (sv_pool s) tok) as Hm.
    destruct (MintSessionToken (pi_rnd i) (sv_pool s)) as [[t|e] p]; simpl in *; intros [?|Ht]%Hm; auto; [|done].
    injection Ht as ->. by right.
Qed.

Lemma run_tokens rs tok : ∀ s,
  is_Some (p_sessionToKey (sv_pool (proxyRun rs s).2) !! tok) →
  is_Some (p_sessionToKey (sv_pool s) !! tok) ∨
  ∃ k i r resp, rs !! k = Some (i, r) ∧ (proxyRun rs s).1 !! k = Some resp ∧ mints tok r resp.
Proof.
  induction rs as [|[i r] rs IH]; intros s; simpl; [auto|].
  pose proof (serve_tokens i r s tok) as Hs. destruct (proxyServe i r s) as [[up resp] s1].
  specialize (IH s1). destruct (proxyRun rs s1) as [resps s2]. simpl in *.
  intros [Ht|(k & i' & r' & resp' & Hk & Hr & Hm)]%IH.
  - destruct (Hs Ht) as [?|Hm]; [auto|]. right. exists 0%nat, i, r, resp. done.
  - right. exists (S k), i', r', resp'. done.
Qed.

(** What is sent upstream carries a token the pool knows. *)
Lemma serve_upstream i r s up : (proxyServe i r s).1.1 = Some up →
  hasPrefix "/v1/" (rq_Path r) = true ∧ up_URL up = upstream +:+ rq_Path r ∧
  ∃ tok, bearerToken (rq_Header r) = Some tok ∧ is_Some (p_sessionToKey (sv_pool s) !! tok).
Proof.
  unfold proxyServe. destruct (hasPrefix "/v1/" (rq_Path r)).
  2:{ repeat case_bool_decide; simpl; try done.
      - by destruct (handleAdminRotate adminToken decodeKeys r s).
      - by destruct (handleAdminMint adminToken decodeID (pi_rnd i) r s). }
  unfold handleForward, forwardBody, forwardReserved. simpl.
  destruct (bearerToken (rq_Header r)) as [tok|]; [|done].
  destruct (SecretForSession tok (sv_pool s)) as [[secret keyID]|[]] eqn:Es; try done.
  destruct (Reserve (fi_reserve (pi_forward i)) tok (sv_quota s)) as [[e|] q]; [done|].
  destruct (_ && _); [done|]. destruct (negb _); [done|]. intros Hup.
  assert (up = upstreamRequest upstream r secret) as ->.
  { destruct (Do (upstreamRequest upstream r secret)) as [resp|]; [|by injection Hup].
    destruct (streamBody unmarshal (fi_woks (pi_forward i)) resp). by injection Hup. }
  split_and!; [done|done|]. exists tok. split; [done|]. unfold SecretForSession in Es.
  destruct (p_sessionToKey (sv_pool s) !! tok); [eauto|done].
Qed.
End Serve.

(** ** Properties *)

(** C29: Nothing reaches the upstream without the operator's consent.  From a
    freshly started server, after any history of requests, a request is
    sent upstream only if its path is under /v1/ and its bearer token was
    handed out, earlier in that history, by a mint that was itself made with
    the configured, non-empty admin token. *)
Theorem upstream_needs_mint (parseURL : string → option string) (unmarshal : string → option Outer)
    (Do : UpReq → option UpResp) (decodeKeys : Body → option (list Key)) (decodeID : Body → option string)
    (cfg : ServerConfig) (ks : list Key) (rd : Ready) (rs : list (ProxyIn * Request)) (i : ProxyIn) (r : Request) (up : UpReq) :
  sc_Pool cfg = Some (Keys.New ks) → NewServer parseURL cfg = Ok rd →
  let serve := proxyServe unmarshal Do decodeKeys decodeID (rd_upstream rd) (rd_admin rd) in
  let '(resps, s) := proxyRun unmarshal Do decodeKeys decodeID (rd_upstream rd) (rd_admin rd) rs (rd_server rd) in
  (serve i r s).1.1 = Some up →
  hasPrefix "/v1/" (rq_Path r) = true ∧ up_URL up = rd_upstream rd +:+ rq_Path r ∧
  ∃ tok k j m resp, bearerToken (rq_Header r) = Some tok ∧ rs !! k = Some (j, m) ∧ resps !! k = Some resp ∧
    rq_Path m = "/admin/mint" ∧ sc_AdminToken cfg ≠ "" ∧ bearerToken (rq_Header m) = Some (sc_AdminToken cfg) ∧
    rs_Reply resp = RToken tok.
Proof.
  intros Hp Hn serve. unfold NewServer in Hn. rewrite Hp in Hn.
  destruct (parseURL _) as [u|]; [|done]. destruct (sc_Quota cfg) as [q|]; [|done]. injection Hn as <-. simpl in *.
  pose proof (run_tokens unmarshal Do decodeKeys decodeID u (sc_AdminToken cfg) rs) as Ht.
  specialize (λ tok, Ht tok (mkServer (Keys.New ks) q [] 0)).
  destruct (proxyRun unmarshal Do decodeKeys decodeID u (sc_AdminToken cfg) rs (mkServer (Keys.New ks) q [] 0)) as [resps s].
  intros Hup. apply serve_upstream in Hup as (Hv & Hu & tok & Hb & Hk). split_and!; [done|done|].
  destruct (Ht tok Hk) as [He|(k & j & m & resp & H1 & H2 & H3 & H4 & H5 & _ & H6)].
  - simpl in He. rewrite lookup_empty in He. by destruct He.
  - exists tok, k, j, m, resp. done.
Qed.

(** The proxy starts safely or not at all.  A proxy that serves has at
    least one key, each with an id and a secret, the default limits and no
    session token yet, and unless plain HTTP was asked for it serves with a
    certificate and a key; without them, or without usable keys, or with an
    audit database that does not come up, it does not start. *)
Theorem proxy_starts_safely (parseURL : string → option string) (decodeEnv : string → option (list Key))
    (env : string → string) (fl : Flags) (pg : PgEnv) :
  match startProxy parseURL decodeEnv env fl pg with
  | Ok up =>
    let s := rd_server (pu_ready up) in
    p_keys (sv_pool s) ≠ [] ∧ Forall (λ k, k_ID k ≠ "" ∧ k_Secret k ≠ "") (p_keys (sv_pool s)) ∧
    p_sessionToKey (sv_pool s) = ∅ ∧ q_limits (sv_quota s) = DefaultLimits ∧
    rd_admin (pu_ready up) = env "PROXY_ADMIN_TOKEN" ∧
    (if fl_plain fl then pu_tls up = None
     else ∃ cert key, pu_tls up = Some (cert, key) ∧ cert ≠ "" ∧ key ≠ "") ∧
    (pu_sql up = true → pg_open pg = true ∧ pg_ping pg = true ∧ pg_schema pg = true)
  | Err (PxKeys _) => ∀ ks, LoadFromEnv decodeEnv (env "ANTHROPIC_API_KEYS") ≠ Ok ks
  | Err PxTLS => fl_plain fl = false
  | Err PxPostgres => default (env "POSTGRES_URL") (fl_postgres fl) ≠ ""
  | Err (PxServer _) => True
  end.
Proof.
  unfold startProxy. destruct (LoadFromEnv decodeEnv (env "ANTHROPIC_API_KEYS")) as [ks|e] eqn:Hl; [|done].
  destruct (LoadFromEnv_usable decodeEnv _ ks Hl) as [Hne Hall].
  set (sql := negb _). destruct (sql && _) eqn:Hs.
  { apply andb_true_iff in Hs as [Hs _]. by apply negb_true_iff, bool_decide_eq_false in Hs. }
  unfold NewServer. simpl. destruct (parseURL _) as [u|]; [|done].
  assert (sql = true → pg_open pg = true ∧ pg_ping pg = true ∧ pg_schema pg = true) as Hpg.
  { intros Hq. rewrite Hq in Hs. simpl in Hs. apply negb_false_iff in Hs. by rewrite !andb_true_iff in Hs; destruct Hs as [[? ?] ?]. }
  destruct (fl_plain fl) eqn:Hpl; simpl; [by split_and!|].
  destruct (bool_decide _ || bool_decide _) eqn:Ht; [done|]. apply orb_false_iff in Ht as [H1%bool_decide_eq_false H2%bool_decide_eq_false].
  simpl. split_and!; try done. by eexists _, _.
Qed.

(** ** A concrete history: the operator mints, the guest calls *)

Definition demoCfg : ServerConfig :=
  mkServerConfig "" (Some (Keys.New [keyA])) (Some (Quota.New DefaultLimits)) "adm".
Definition demoReady : Ready :=
  mkReady defaultUpstream "adm" (mkServer (Keys.New [keyA]) (Quota.New DefaultLimits) [] 0).
Definition mintReq : Request :=
  mkRequest "POST" "/admin/mint" "" {["Authorization" := ["Bearer adm"]]} (mkBody "{}" false).
Definition callReq : Request :=
  mkRequest "POST" "/v1/messages" "" {["Authorization" := ["Bearer sess_6162"]]} (mkBody "{}" false).
Definition demoHistory : list (ProxyIn * Request) := [(mkProxyIn demoForward (Some "ab"), mintReq)].

Lemma upstream_needs_mint_witness :
  ∃ k j m resp, demoHistory !! k = Some (j, m) ∧
    (proxyRun demoUnmarshal demoDo (λ _, None) (λ _, Some "s") defaultUpstream "adm" demoHistory
       (rd_server demoReady)).1 !! k = Some resp ∧
    rs_Reply resp = RToken "sess_6162".
Proof.
  pose proof (upstream_needs_mint Some demoUnmarshal demoDo (λ _, None) (λ _, Some "s") demoCfg [keyA] demoReady
    demoHistory (mkProxyIn demoForward None) callReq (upstreamRequest defaultUpstream callReq "sk-a")
    ltac:(reflexivity) ltac:(reflexivity)) as H. cbn zeta in H.
  destruct (proxyRun _ _ _ _ _ _ demoHistory _) as [resps s] eqn:E.
  destruct H as (_ & _ & tok & k & j & m & resp & Hb & Hk & Hr & _ & _ & _ & Ht).
  { apply (f_equal snd) in E. vm_compute in E. simpl in E. subst s. vm_compute. reflexivity. }
  exists k, j, m, resp. split; [exact Hk|]. split; [exact Hr|].
  vm_compute in Hb. injection Hb as <-. exact Ht.
Defined.
