(* ===== verification/AuditLog.v ===== *)
(** The audit trail of the proxy: the sinks of proxy/internal/audit/audit.go,
    the goroutines [emitAudit] of proxy/internal/server/server.go detaches,
    and the life of the process around them (the end of [main] of
    proxy/cmd/claude-proxy/main.go): serving, the signal, the shutdown, and
    the close of the database.

    Postgres is a service: what it stores for a value in a column of a given
    type is the parameter [coerce], with its documented behaviour as the
    class [Coerces]. *)
From S2P Require Import Prelude GoLib Session Keys Quota Stream Forward Proxy.
Open Scope Z_scope.

(** ** What the proxy asks of a sink *)

Inductive AuditErr := ErrNilDB | ErrExec.

(** How one round trip to a database goes: answered, failed before anything
    was done, or done but with the answer lost (the three seconds of the
    writer's context may end at any point). *)
Inductive ExecOut := ExDone | ExFailed | ExLost.
Record WriteIn := mkWriteIn { wi_now : Z; wi_out : ExecOut }.

(** [Sink]: [sinkWrite] is its [Write]; [dbClose] is what the [db.Close] at
    the end of [main] does to it. *)
Class Sink (S : Type) := {
  sinkWrite : WriteIn → AuditRecord → S → res AuditErr unit * S;
  dbClose : S → S;
  (* the records it holds, in the order they were written *)
  recorded : S → list AuditRecord;
  (* what it keeps of a record *)
  kept : AuditRecord → AuditRecord
}.

(** Who called what, and with which outcome. *)
Definition trail (a : AuditRecord) : string * string * Z := (ar_SessionID a, ar_Endpoint a, ar_Status a).

Class SinkLaws (S : Type) `{!Sink S} := {
  write_ok : ∀ i r (s s' : S), sinkWrite i r s = (Ok tt, s') → recorded s' = recorded s ++ [kept r];
  write_err : ∀ i r (s s' : S) e, sinkWrite i r s = (Err e, s') →
    recorded s' = recorded s ∨ recorded s' = recorded s ++ [kept r];
  close_keeps : ∀ s : S, recorded (dbClose s) = recorded s;
  kept_trail : ∀ r, trail (kept r) = trail r
}.

(** ** [InMemorySink] *)

Record InMemorySink := mkInMemorySink { ms_records : list AuditRecord }.
Definition NewInMemorySink : InMemorySink := mkInMemorySink [].
Definition MemWrite (r : AuditRecord) (s : InMemorySink) : res AuditErr unit * InMemorySink :=
  (Ok tt, mkInMemorySink (ms_records s ++ [r])).
(** [All] hands out a copy. *)
Definition All (s : InMemorySink) : list AuditRecord := ms_records s.
Definition Len (s : InMemorySink) : Z := Z.of_nat (length (ms_records s)).

#[export] Instance memory_sink : Sink InMemorySink :=
  { sinkWrite := λ _, MemWrite; dbClose := id; recorded := All; kept := id }.

#[export] Instance memory_sink_laws : SinkLaws InMemorySink.
Proof. split; [by intros i r s s' [= <-]|done..]. Qed.

(** ** [SQLSink] *)

Inductive SqlVal := VTime (ns : Z) | VText (s : string) | VInt (z : Z).
Inductive ColType := CBigserial | CTimestamptz | CText | CBigint | CInteger.
Inductive ColDefault := DNone | DSerial | DNow | DValue (v : SqlVal).
Record Column := mkColumn { col_name : string; col_type : ColType; col_default : ColDefault }.

(** [Schema]; every column is [not null]. *)
Definition Schema : list Column :=
  [mkColumn "id" CBigserial DSerial;
   mkColumn "ts" CTimestamptz DNow;
   mkColumn "session_id" CText DNone;
   mkColumn "endpoint" CText DNone;
   mkColumn "request_tokens" CBigint (DValue (VInt 0));
   mkColumn "response_tokens" CBigint (DValue (VInt 0));
   mkColumn "cost_usd_micros" CBigint (DValue (VInt 0));
   mkColumn "status" CInteger DNone].

(** The statement of [SQLSink.Write]: its columns, and the arguments in the
    order of the placeholders. *)
Definition insertColumns : list string :=
  ["ts"; "session_id"; "endpoint"; "request_tokens"; "response_tokens"; "cost_usd_micros"; "status"].
Definition insertArgs (r : AuditRecord) : list SqlVal :=
  [VTime (ar_TS r); VText (ar_SessionID r); VText (ar_Endpoint r); VInt (ar_RequestTokens r);
   VInt (ar_ResponseTokens r); VInt (ar_CostUSDMicros r); VInt (ar_Status r)].

Definition SqlRow : Type := gmap string SqlVal.

(** Instants are stored in microseconds. *)
Definition micros (ns : Z) : Z := ns / 1000 * 1000.

Section Postgres.
Variable coerce : ColType → SqlVal → option SqlVal.

Class Coerces : Prop := {
  coerce_text : ∀ s v, coerce CText (VText s) = Some v → v = VText s;
  coerce_bigint : ∀ z v, coerce CBigint (VInt z) = Some v → v = VInt z;
  coerce_integer : ∀ z v, coerce CInteger (VInt z) = Some v → v = VInt z;
  coerce_time : ∀ t v, coerce CTimestamptz (VTime t) = Some v → v = VTime (micros t)
}.

Record AuditDB := mkAuditDB { db_rows : list SqlRow; db_serial : Z; db_closed : bool }.

Definition defaultOf (now serial : Z) (d : ColDefault) : option SqlVal :=
  match d with
  | DNone => None
  | DSerial => Some (VInt serial)
  | DNow => Some (VTime now)
  | DValue v => Some v
  end.

Definition fillColumn (now serial : Z) (given : gmap string SqlVal) (c : Column) : option (string * SqlVal) :=
  match (match given !! col_name c with Some v => Some v | None => defaultOf now serial (col_default c) end) with
  | None => None
  | Some v => match coerce (col_type c) v with Some v' => Some (col_name c, v') | None => None end
  end.

(** [insert into] a table of the given columns. *)
Definition sqlInsert (table : list Column) (now serial : Z) (names : list string) (vals : list SqlVal) : option SqlRow :=
  if forallb (λ n, bool_decide (n ∈ col_name <$> table)) names && (length names =? length vals)%nat then
    match mapM (fillColumn now serial (list_to_map (zip names vals))) table with
    | Some cells => Some (list_to_map cells)
    | None => None
    end
  else None.

Record SQLSink := mkSQLSink { ss_db : option AuditDB }.
Definition NewSQLSink (db : option AuditDB) : SQLSink := mkSQLSink db.

(** [SQLSink.Write] *)
Definition SQLWrite (i : WriteIn) (r : AuditRecord) (s : SQLSink) : res AuditErr unit * SQLSink :=
  match ss_db s with
  | None => (Err ErrNilDB, s)
  | Some db =>
    if db_closed db then (Err ErrExec, s)
    else match wi_out i, sqlInsert Schema (wi_now i) (db_serial db) insertColumns (insertArgs r) with
         | ExFailed, _ | _, None => (Err ErrExec, s)
         | out, Some row =>
           let s' := mkSQLSink (Some (mkAuditDB (db_rows db ++ [row]) (db_serial db + 1) false)) in
           (match out with ExLost => Err ErrExec | _ => Ok tt end, s')
         end
  end.

(** [db.Close] waits for the statements that have started and fails every
    later one. *)
Definition SQLClose (s : SQLSink) : SQLSink :=
  mkSQLSink (match ss_db s with
             | Some db => Some (mkAuditDB (db_rows db) (db_serial db) true)
             | None => None
             end).

(** A record read back by the names of the columns. *)
Definition readRow (row : SqlRow) : option AuditRecord :=
  match row !! "ts", row !! "session_id", row !! "endpoint", row !! "request_tokens",
        row !! "response_tokens", row !! "cost_usd_micros", row !! "status" with
  | Some (VTime t), Some (VText s), Some (VText e), Some (VInt a), Some (VInt b), Some (VInt c), Some (VInt st) =>
    Some (mkAudit t s e a b c st)
  | _, _, _, _, _, _, _ => None
  end.

Definition toMicros (r : AuditRecord) : AuditRecord :=
  mkAudit (micros (ar_TS r)) (ar_SessionID r) (ar_Endpoint r) (ar_RequestTokens r) (ar_ResponseTokens r)
    (ar_CostUSDMicros r) (ar_Status r).

Definition sqlRecords (s : SQLSink) : list AuditRecord :=
  match ss_db s with Some db => omap readRow (db_rows db) | None => [] end.

#[export] Instance sql_sink : Sink SQLSink :=
  { sinkWrite := SQLWrite; dbClose := SQLClose; recorded := sqlRecords; kept := toMicros }.

(** The row an insert makes reads back as the record: every column of the
    statement is a column of the table, every argument is under its own
    name, and the columns left out have a default. *)
Lemma insert_reads_back `{!Coerces} now serial r row :
  sqlInsert Schema now serial insertColumns (insertArgs r) = Some row → readRow row = Some (toMicros r).
Proof.
  unfold sqlInsert. change (forallb _ insertColumns && _) with true. cbv iota.
  destruct (mapM _ Schema) as [cells|] eqn:E; [|done]. intros [= <-].
  apply mapM_Some in E. unfold Schema in E.
  repeat match type of E with
  | Forall2 _ (_ :: _) _ => apply Forall2_cons_inv_l in E as (? & ? & ? & E & ->)
  | Forall2 _ [] _ => apply Forall2_nil_inv_l in E as ->
  end.
  unfold fillColumn in *. cbn in *. simplify_map_eq.
  repeat match goal with
  | H : match coerce ?t ?v with _ => _ end = Some _ |- _ => destruct (coerce t v) eqn:?; [injection H as <-|done]
  end.
  repeat match goal with
  | H : coerce CTimestamptz _ = Some _ |- _ => apply coerce_time in H
  | H : coerce CText _ = Some _ |- _ => apply coerce_text in H
  | H : coerce CBigint _ = Some _ |- _ => apply coerce_bigint in H
  | H : coerce CInteger _ = Some _ |- _ => apply coerce_integer in H
  end. subst. unfold readRow. by simplify_map_eq.
Qed.

#[export] Instance sql_sink_laws `{!Coerces} : SinkLaws SQLSink.
Proof.
  assert (∀ i r s s' q, SQLWrite i r s = (q, s') → sqlRecords s' = sqlRecords s ++ [toMicros r] ∨
    sqlRecords s' = sqlRecords s ∧ q ≠ Ok tt) as Hw.
  { intros i r s s' q. unfold SQLWrite, sqlRecords. destruct (ss_db s) as [db|] eqn:Es.
    2:{ intros [= <- <-]. rewrite Es. by right. }
    destruct (db_closed db); [intros [= <- <-]; rewrite Es; by right|].
    destruct (sqlInsert Schema (wi_now i) (db_serial db) insertColumns (insertArgs r)) as [row|] eqn:E; destruct (wi_out i);
      intros [= <- <-]; rewrite ?Es; try (by right);
      left; cbn [ss_db db_rows]; rewrite omap_app; simpl; by rewrite (insert_reads_back _ _ _ _ E). }
  split; cbn [sinkWrite dbClose recorded kept sql_sink].
  - intros i r s s' [?|[_ ?]]%Hw; done.
  - intros i r s s' e [?|[? _]]%Hw; auto.
  - intros s. unfold sqlRecords, SQLClose. by destruct (ss_db s).
  - done.
Qed.
End Postgres.

(** ** The life of the proxy *)

(** After the signal [main] waits for the requests in flight, thirty seconds
    at most, closes the database and returns. *)
Inductive PPhase := PServing | PDraining | PClosed | PExited (code : Z).

Section Life.
Context {S : Type} `{!Sink S}.
Variable unmarshal : string → option Outer.
Variable Do : UpReq → option UpResp.
Variable decodeKeys : Body → option (list Key).
Variable decodeID : Body → option string.
Variable upstream : string.
Variable adminToken : string.

Record PLife := mkPLife {
  pl_phase : PPhase;
  pl_server : Server;
  pl_sink : S;
  pl_writers : list AuditRecord;   (* the goroutines of [emitAudit] that have not written yet *)
  pl_failed : list AuditRecord;    (* the records whose write returned an error, which is logged *)
  pl_billed : list (string * string * Z)   (* the requests sent upstream or denied: token, path, status *)
}.

Definition running (p : PPhase) : bool := match p with PExited _ => false | _ => true end.

(** What a request that was handled adds to the trail. *)
Definition bill (r : Request) (up : option UpReq) (resp : Response) : list (string * string * Z) :=
  match up with
  | Some _ => [(default "" (bearerToken (rq_Header r)), rq_Path r, rs_Status resp)]
  | None => if rs_Status resp =? 429 then [(default "" (bearerToken (rq_Header r)), rq_Path r, 429)] else []
  end.

(** The records a request emitted. *)
Definition emitted (s s' : Server) : list AuditRecord := drop (length (sv_audit s)) (sv_audit s').

Inductive plife : PLife → PLife → Prop :=
| pl_request : ∀ st i r up resp s',
    running (pl_phase st) = true →
    proxyServe unmarshal Do decodeKeys decodeID upstream adminToken i r (pl_server st) = (up, resp, s') →
    plife st (mkPLife (pl_phase st) s' (pl_sink st) (pl_writers st ++ emitted (pl_server st) s') (pl_failed st)
                (pl_billed st ++ bill r up resp))
| pl_write : ∀ st k r i q sink',
    running (pl_phase st) = true → pl_writers st !! k = Some r → sinkWrite i r (pl_sink st) = (q, sink') →
    plife st (mkPLife (pl_phase st) (pl_server st) sink' (delete k (pl_writers st))
                (match q with Ok _ => pl_failed st | Err _ => pl_failed st ++ [r] end) (pl_billed st))
| pl_listen_fails : ∀ st, pl_phase st = PServing →
    plife st (mkPLife (PExited 1) (pl_server st) (pl_sink st) (pl_writers st) (pl_failed st) (pl_billed st))
| pl_signal : ∀ st, pl_phase st = PServing →
    plife st (mkPLife PDraining (pl_server st) (pl_sink st) (pl_writers st) (pl_failed st) (pl_billed st))
| pl_drained : ∀ st, pl_phase st = PDraining →
    plife st (mkPLife PClosed (pl_server st) (dbClose (pl_sink st)) (pl_writers st) (pl_failed st) (pl_billed st))
| pl_return : ∀ st, pl_phase st = PClosed →
    plife st (mkPLife (PExited 0) (pl_server st) (pl_sink st) (pl_writers st) (pl_failed st) (pl_billed st)).

(** A proxy that has just started, on the sink it found. *)
Definition proxyBorn (rd : Ready) (sink : S) : PLife := mkPLife PServing (rd_server rd) sink [] [] [].

Inductive plived (rd : Ready) (sink : S) : PLife → Prop :=
| plv_start : plived rd sink (proxyBorn rd sink)
| plv_step : ∀ st st', plived rd sink st → plife st st' → plived rd sink st'.

(** ** Lemmas *)

(** An answer that adds nothing to the audit. *)
Ltac quiet := intros [= <- <- <-]; exists []; by rewrite app_nil_r.

(** A request adds to the audit exactly its bill. *)
Lemma serve_bills i r s up resp s' :
  proxyServe unmarshal Do decodeKeys decodeID upstream adminToken i r s = (up, resp, s') →
  ∃ l, sv_audit s' = sv_audit s ++ l ∧ trail <$> l = bill r up resp.
Proof.
  unfold proxyServe. destruct (hasPrefix "/v1/" (rq_Path r)).
  - unfold handleForward, forwardBody, bill. cbn [sv_pool sv_quota].
    destruct (bearerToken (rq_Header r)) as [tok|]; [|quiet].
    simpl default.
    destruct (SecretForSession tok (sv_pool s)) as [[secret keyID]|[]]; try (quiet).
    destruct (Reserve (fi_reserve (pi_forward i)) tok (sv_quota s)) as [[e|] q].
    { intros [= <- <- <-]. by eexists. }
    unfold forwardReserved.
    destruct (_ && _); [quiet|].
    destruct (negb _); [quiet|].
    destruct (Do _) as [a|]; [|intros [= <- <- <-]; by eexists].
    destruct (streamBody unmarshal (fi_woks (pi_forward i)) a) as [u out]. intros [= <- <- <-]. by eexists.
  - repeat case_bool_decide.
    + unfold handleAdminRotate, checkAdmin. repeat case_bool_decide; [quiet| |quiet].
      destruct (decodeKeys (rq_Body r)) as [[|k l]|]; quiet.
    + unfold handleAdminMint, checkAdmin. repeat case_bool_decide; [quiet| |quiet].
      destruct (decodeID (rq_Body r)); [|quiet].
      destruct (MintSessionToken (pi_rnd i) (sv_pool s)) as [[] p]; quiet.
    + quiet.
    + quiet.
Qed.

(** The books balance: nothing is recorded twice, and what is not recorded is
    still to be written or is known to have failed. *)
Definition balanced (old : list AuditRecord) (st : PLife) : Prop :=
  ∃ new lost, recorded (pl_sink st) = old ++ new ∧ lost ⊆+ pl_failed st ∧
    kept <$> sv_audit (pl_server st) ≡ₚ new ++ (kept <$> lost) ++ (kept <$> pl_writers st).

Context `{!SinkLaws S}.

Lemma plife_appends st st' : plife st st' → recorded (pl_sink st) `prefix_of` recorded (pl_sink st').
Proof.
  destruct 1 as [st i r up resp s' _ Hs|st k r i q sink' _ Hk Hw| | |st| ]; simpl; try done.
  - destruct q as [[]|e].
    + rewrite (write_ok _ _ _ _ Hw). by eexists.
    + destruct (write_err _ _ _ _ _ Hw) as [->| ->]; [done|by eexists].
  - by rewrite close_keeps.
Qed.

Lemma write_balanced old st k r i q sink' :
  balanced old st → pl_writers st !! k = Some r → sinkWrite i r (pl_sink st) = (q, sink') →
  balanced old (mkPLife (pl_phase st) (pl_server st) sink' (delete k (pl_writers st))
    (match q with Ok _ => pl_failed st | Err _ => pl_failed st ++ [r] end) (pl_billed st)).
Proof.
  intros (new & lost & Hr & Hl & Hp) Hk Hw. unfold balanced. simpl.
  apply delete_Permutation in Hk as Hd. rewrite Hd in Hp. rewrite fmap_cons in Hp.
  assert (recorded sink' = recorded (pl_sink st) ++ [kept r] ∨
          recorded sink' = recorded (pl_sink st) ∧ q ≠ Ok tt) as [Hs|[Hs Hq]].
  { destruct q as [[]|e]; [left; by eapply write_ok|].
    destruct (write_err _ _ _ _ _ Hw) as [?|?]; [by right|by left]. }
  - exists (new ++ [kept r]), lost. split_and!.
    + by rewrite Hs, Hr, (assoc_L (++)).
    + destruct q; [done|]. by apply submseteq_inserts_r.
    + rewrite Hp. solve_Permutation.
  - destruct q as [[]|e]; [done|]. exists new, (lost ++ [r]). split_and!.
    + congruence.
    + by apply submseteq_app.
    + rewrite Hp, fmap_app. simpl. solve_Permutation.
Qed.

Lemma plived_inv rd sink st : plived rd sink st → sv_audit (rd_server rd) = [] →
  trail <$> sv_audit (pl_server st) = pl_billed st ∧ balanced (recorded sink) st.
Proof.
  intros Hl H0. induction Hl as [|st st' Hl [IH1 IH2] Hs]; simpl.
  { rewrite H0. split; [done|]. exists [], []. simpl. rewrite H0, app_nil_r. done. }
  destruct Hs as [st i r up resp s' _ Hs|st k r i q sink' _ Hk Hw| | |st| ]; simpl; try done.
  - destruct (serve_bills _ _ _ _ _ _ Hs) as (l & Ha & Ht). rewrite Ha, fmap_app, IH1, Ht. split; [done|].
    destruct IH2 as (new & lost & Hr & Hlost & Hp). exists new, lost. simpl. split_and!; [done|done|].
    unfold emitted. rewrite Ha, drop_app_length, !fmap_app, Hp. by rewrite <- !(assoc_L (++)).
  - split; [done|]. by eapply write_balanced.
  - split; [done|]. unfold balanced. simpl. by rewrite close_keeps.
Qed.
End Life.
Arguments PLife S : clear implicits.

(** ** Properties *)

(** C32: The audit trail accounts for every request the proxy sent upstream or
    denied.  In every state of the proxy's life, with any interleaving of
    requests, detached writers, failing writes and the shutdown, for every
    sink that keeps its promise: the records emitted name, in order, exactly
    the session token, path and status of the requests sent or denied; the
    sink holds what it held before the start followed by those records, each
    at most once, less those whose writer has not run yet or got an error;
    no step removes or changes a record; and when no writer is left and none
    failed, the new records are exactly those requests up to order. *)
Theorem audit_trail_accounts {S : Type} `{!Sink S, !SinkLaws S} (parseURL : string → option string)
    (unmarshal : string → option Outer) (Do : UpReq → option UpResp) (decodeKeys : Body → option (list Key))
    (decodeID : Body → option string) (cfg : ServerConfig) (rd : Ready) (sink : S) (st : PLife S) :
  NewServer parseURL cfg = Ok rd →
  plived unmarshal Do decodeKeys decodeID (rd_upstream rd) (rd_admin rd) rd sink st →
  trail <$> sv_audit (pl_server st) = pl_billed st ∧
  (∃ new lost, recorded (pl_sink st) = recorded sink ++ new ∧ lost ⊆+ pl_failed st ∧
     kept <$> sv_audit (pl_server st) ≡ₚ new ++ (kept <$> lost) ++ (kept <$> pl_writers st) ∧
     (pl_writers st = [] → pl_failed st = [] → trail <$> new ≡ₚ pl_billed st)) ∧
  (∀ st', plife unmarshal Do decodeKeys decodeID (rd_upstream rd) (rd_admin rd) st st' →
     recorded (pl_sink st) `prefix_of` recorded (pl_sink st')).
Proof.
  intros Hn Hl. assert (sv_audit (rd_server rd) = []) as H0.
  { unfold NewServer in Hn. by repeat case_match; simplify_eq. }
  destruct (plived_inv _ _ _ _ _ _ _ _ _ Hl H0) as [Ht (new & lost & Hr & Hlo & Hp)].
  split_and!; [done| |intros st'; by apply (plife_appends unmarshal Do decodeKeys decodeID (rd_upstream rd) (rd_admin rd))].
  exists new, lost. split_and!; [done..|]. intros Hw Hf. rewrite Hf in Hlo. rewrite Hw in Hp.
  apply submseteq_nil_r in Hlo as ->. simpl in Hp. rewrite app_nil_r in Hp.
  rewrite <- Ht, <- Hp, <- list_fmap_compose. apply reflexive_eq, list_fmap_ext. intros k r _. apply kept_trail.
Qed.

(** ** A scheduler, and what Postgres documents *)

Inductive PAct := PReq (i : ProxyIn) (r : Request) | PWrite (k : nat) (i : WriteIn)
| PListenFails | PSignal | PDrained | PReturn.

Section Exec.
Context {S : Type} `{!Sink S}.
Variable unmarshal : string → option Outer.
Variable Do : UpReq → option UpResp.
Variable decodeKeys : Body → option (list Key).
Variable decodeID : Body → option string.
Variable upstream : string.
Variable adminToken : string.

Definition setPhase (p : PPhase) (sink : S) (st : PLife S) : PLife S :=
  mkPLife p (pl_server st) sink (pl_writers st) (pl_failed st) (pl_billed st).

Definition pexec1 (a : PAct) (st : PLife S) : option (PLife S) :=
  match a, pl_phase st with
  | PReq _ _, PExited _ | PWrite _ _, PExited _ => None
  | PReq i r, _ =>
    let '(up, resp, s') := proxyServe unmarshal Do decodeKeys decodeID upstream adminToken i r (pl_server st) in
    Some (mkPLife (pl_phase st) s' (pl_sink st) (pl_writers st ++ emitted (pl_server st) s') (pl_failed st)
            (pl_billed st ++ bill r up resp))
  | PWrite k i, _ =>
    match pl_writers st !! k with
    | Some r =>
      let '(q, sink') := sinkWrite i r (pl_sink st) in
      Some (mkPLife (pl_phase st) (pl_server st) sink' (delete k (pl_writers st))
              (match q with Ok _ => pl_failed st | Err _ => pl_failed st ++ [r] end) (pl_billed st))
    | None => None
    end
  | PListenFails, PServing => Some (setPhase (PExited 1) (pl_sink st) st)
  | PSignal, PServing => Some (setPhase PDraining (pl_sink st) st)
  | PDrained, PDraining => Some (setPhase PClosed (dbClose (pl_sink st)) st)
  | PReturn, PClosed => Some (setPhase (PExited 0) (pl_sink st) st)
  | _, _ => None
  end.

Fixpoint pexec (acts : list PAct) (st : PLife S) : option (PLife S) :=
  match acts with
  | [] => Some st
  | a :: acts' => match pexec1 a st with Some st' => pexec acts' st' | None => None end
  end.

Lemma pexec1_sound a st st' : pexec1 a st = Some st' →
  plife unmarshal Do decodeKeys decodeID upstream adminToken st st'.
Proof.
  destruct a as [i r|k i| | | |]; unfold pexec1.
  - intros H. assert (running (pl_phase st) = true) as Hr by (by destruct (pl_phase st)).
    destruct (proxyServe _ _ _ _ _ _ i r (pl_server st)) as [[up resp] s'] eqn:E.
    assert (st' = mkPLife (pl_phase st) s' (pl_sink st) (pl_writers st ++ emitted (pl_server st) s') (pl_failed st)
      (pl_billed st ++ bill r up resp)) as -> by (destruct (pl_phase st); by inversion H).
    by eapply pl_request.
  - intros H. assert (running (pl_phase st) = true) as Hr by (by destruct (pl_phase st)).
    destruct (pl_writers st !! k) as [r|] eqn:Hk; [|by destruct (pl_phase st)].
    destruct (sinkWrite i r (pl_sink st)) as [q sink'] eqn:Ew.
    assert (st' = mkPLife (pl_phase st) (pl_server st) sink' (delete k (pl_writers st))
      (match q with Ok _ => pl_failed st | Err _ => pl_failed st ++ [r] end) (pl_billed st)) as ->
      by (destruct (pl_phase st); by inversion H).
    by eapply pl_write.
  - destruct (pl_phase st) eqn:Hp; try done. intros [= <-]. by apply pl_listen_fails.
  - destruct (pl_phase st) eqn:Hp; try done. intros [= <-]. by apply pl_signal.
  - destruct (pl_phase st) eqn:Hp; try done. intros [= <-]. by apply pl_drained.
  - destruct (pl_phase st) eqn:Hp; try done. intros [= <-]. by apply pl_return.
Qed.

Lemma pexec_sound rd sink acts : ∀ st st',
  plived unmarshal Do decodeKeys decodeID upstream adminToken rd sink st → pexec acts st = Some st' →
  plived unmarshal Do decodeKeys decodeID upstream adminToken rd sink st'.
Proof.
  induction acts as [|a acts IH]; intros st st' Hl; cbn [pexec]; [by intros [= <-]|].
  destruct (pexec1 a st) as [st1|] eqn:E; [|done]. apply IH. eapply plv_step; [done|by eapply pexec1_sound].
Qed.
End Exec.

(** Text is valid UTF-8 without the zero byte; numbers fit their column. *)
Definition validText (s : string) : bool :=
  forallb (λ x : Z * string, negb (x.1 =? 0) && negb ((x.1 =? RuneError) && (String.length x.2 =? 1)%nat)) (segs s).
Definition pgCoerce (t : ColType) (v : SqlVal) : option SqlVal :=
  match t, v with
  | CText, VText s => if validText s then Some v else None
  | CBigint, VInt z | CBigserial, VInt z => if between (- two63) (two63 - 1) z then Some v else None
  | CInteger, VInt z => if between (- 2 ^ 31) (2 ^ 31 - 1) z then Some v else None
  | CTimestamptz, VTime ns => Some (VTime (micros ns))
  | _, _ => None
  end.

#[export] Instance pgCoerce_laws : Coerces pgCoerce.
Proof. split; intros x v; simpl; first [by intros [= <-] | case_match; [by intros [= <-]|done]]. Qed.

#[local] Instance pg_sink : Sink SQLSink := sql_sink pgCoerce.

Definition openDB : SQLSink := NewSQLSink (Some (mkAuditDB [] 1 false)).
Definition mintFirst : PAct := PReq (mkProxyIn demoForward (Some "ab")) mintReq.
Definition demoCall : PAct := PReq (mkProxyIn demoForward None) callReq.
Definition demoLife : list PAct → option (PLife SQLSink) := λ acts,
  pexec demoUnmarshal demoDo (λ _, None) (λ _, Some "s") defaultUpstream "adm" acts (proxyBorn demoReady openDB).
Definition demoLived : PLife SQLSink → Prop :=
  plived demoUnmarshal demoDo (λ _, None) (λ _, Some "s") defaultUpstream "adm" demoReady openDB.

(** Two calls, recorded in the opposite order, then a clean stop. *)
Definition twoCalls : list PAct :=
  [mintFirst; demoCall; demoCall; PWrite 1 (mkWriteIn 5 ExDone); PWrite 0 (mkWriteIn 6 ExDone); PSignal; PDrained; PReturn].

Lemma audit_trail_accounts_witness : ∃ st, demoLife twoCalls = Some st ∧ pl_phase st = PExited 0 ∧
  pl_billed st = replicate 2 ("sess_6162", "/v1/messages", 200) ∧ trail <$> recorded (pl_sink st) ≡ₚ pl_billed st.
Proof.
  destruct (demoLife twoCalls) as [st|] eqn:E; [|vm_compute in E; discriminate E].
  assert (pl_phase st = PExited 0 ∧ pl_billed st = replicate 2 ("sess_6162", "/v1/messages", 200) ∧
    pl_writers st = [] ∧ pl_failed st = []) as (H1 & H2 & H3 & H4).
  { vm_compute in E. injection E as <-. repeat split. }
  exists st. split; [reflexivity|]. split; [exact H1|]. split; [exact H2|].
  assert (demoLived st) as Hl by exact (pexec_sound _ _ _ _ _ _ _ _ _ _ _ (plv_start _ _ _ _ _ _ _ _) E).
  pose proof (sql_sink_laws pgCoerce) as Hlaws.
  destruct (audit_trail_accounts Some demoUnmarshal demoDo (λ _, None) (λ _, Some "s") demoCfg demoReady openDB st
    ltac:(reflexivity) Hl) as (_ & (new & lost & Hr & _ & _ & Hall) & _).
  rewrite Hr. exact (Hall H3 H4).
Defined.

(** A stop does not wait for the writers: a request can be answered, the
    shutdown run its course with the database answering all along, and the
    process end with the record of that request never written. *)
Theorem shutdown_loses_audit : ∃ st, demoLived st ∧ pl_phase st = PExited 0 ∧
  pl_billed st = [("sess_6162", "/v1/messages", 200)] ∧ recorded (pl_sink st) = [] ∧ pl_failed st = [].
Proof.
  destruct (demoLife [mintFirst; demoCall; PSignal; PDrained; PReturn]) as [st|] eqn:E; [|vm_compute in E; done].
  exists st. split; [exact (pexec_sound _ _ _ _ _ _ _ _ _ _ _ (plv_start _ _ _ _ _ _ _ _) E)|].
  vm_compute in E. injection E as <-. done.
Qed.

(** A path that is not valid UTF-8 is forwarded and charged, but the database
    refuses its record: the call leaves no row even when it answers every
    time. *)
Definition oddCall : PAct :=
  PReq (mkProxyIn demoForward None)
    (mkRequest "POST" ("/v1/" +:+ String (chr 255) "") "" {["Authorization" := ["Bearer sess_6162"]]} (mkBody "{}" false)).
Theorem odd_path_not_audited : ∃ st, demoLived st ∧
  (∃ path, pl_billed st = [("sess_6162", path, 200)]) ∧ pl_writers st = [] ∧ recorded (pl_sink st) = [].
Proof.
  destruct (demoLife [mintFirst; oddCall; PWrite 0 (mkWriteIn 5 ExDone)]) as [st|] eqn:E; [|vm_compute in E; done].
  exists st. split; [exact (pexec_sound _ _ _ _ _ _ _ _ _ _ _ (plv_start _ _ _ _ _ _ _ _) E)|].
  vm_compute in E. injection E as <-. split; [by eexists|done].
Qed.
