(* ===== verification/ForwardConc.v ===== *)
(** The proxy under concurrent clients, proxy/internal/server/server.go: the
    forward handler as a program whose actions are its critical sections (the
    in-flight counter, the key pool, the quota manager) and the start of an
    audit writer, run in any interleaving with other clients, rotations and
    mints.

    A client is a connection that sends its requests one after the other; a
    session that opens [k] connections has at most [k] requests in flight. *)
From S2P Require Import Prelude Conc GoLib Session Keys Quota Stream Forward Proxy AuditLog.
Open Scope Z_scope.
Open Scope conc_scope.

(** ** The programs *)

(** A request of a client, what it draws from outside, and how the upstream
    answers it. *)
Record FCall := mkFCall { fc_in : ForwardIn; fc_req : Request; fc_Do : UpReq → option UpResp }.

Definition FAns : Type := option UpReq * Response.

Inductive PRes :=
| RClient (answers : list (FCall * FAns))
| RAdmin (resp : Response).

Abbreviation PProg := (prog Server PRes).

Definition updM (f : Server → Server) : Server → option (unit * Server) := λ s, Some (tt, f s).
Definition enterM : Server → option (unit * Server) :=
  updM (λ s, mkServer (sv_pool s) (sv_quota s) (sv_audit s) (sv_inflight s + 1)).
Definition leaveM : Server → option (unit * Server) :=
  updM (λ s, mkServer (sv_pool s) (sv_quota s) (sv_audit s) (sv_inflight s - 1)).
Definition resolveM (tok : string) : Server → option (res KeyErr (string * string) * Server) :=
  λ s, Some (SecretForSession tok (sv_pool s), s).
Definition reserveM (now : Z) (tok : string) : Server → option (option QError * Server) :=
  λ s, let '(e, q) := Reserve now tok (sv_quota s) in Some (e, setQuota q s).
Definition refundM (now : Z) (tok : string) : Server → option (unit * Server) :=
  updM (λ s, setQuota (Refund now tok (sv_quota s)) s).
Definition commitM (now : Z) (tok : string) (u : Stream.Usage) : Server → option (unit * Server) :=
  updM (λ s, setQuota (Commit now tok (RequestTokens u) (ResponseTokens u) (sv_quota s)) s).
Definition emitM (r : AuditRecord) : Server → option (unit * Server) := updM (emitAudit r).

Section Programs.
Variable unmarshal : string → option Outer.
Variable upstream : string.

(** The answer is written, then the deferred decrement runs. *)
Definition leaveP (a : FAns) (k : FAns → PProg) : PProg := _ ⇐ leaveM; k a.

(** [handleForward] after the reservation. *)
Definition reservedP (c : FCall) (reqID : string) (h : Header) (secret tok : string) (k : FAns → PProg) : PProg :=
  let inp := fc_in c in let r := fc_req c in
  if bd_err (rq_Body r) && (strlen (bd_bytes (rq_Body r)) <? bodyLimit) then
    _ ⇐ refundM (fi_done inp) tok;
    leaveP (None, writeError h 400 "bad_request" "read body" 0 reqID) k
  else if negb (fi_build inp) then
    _ ⇐ refundM (fi_done inp) tok;
    leaveP (None, writeError h 500 "internal" "build upstream request" 0 reqID) k
  else
    let up := upstreamRequest upstream r secret in
    match fc_Do c up with
    | None =>
      _ ⇐ refundM (fi_done inp) tok;
      _ ⇐ emitM (mkAudit (fi_audit inp) tok (rq_Path r) 0 0 0 502);
      leaveP (Some up, writeError h 502 "internal" "upstream error" 0 reqID) k
    | Some resp =>
      let h := foldl (λ h kv, hAddAll kv.1 kv.2 h) h (map_to_list (ur_Header resp)) in
      let '(u, out) := Forward.streamBody unmarshal (fi_woks inp) resp in
      _ ⇐ commitM (fi_done inp) tok u;
      _ ⇐ emitM (mkAudit (fi_audit inp) tok (rq_Path r) (RequestTokens u) (ResponseTokens u)
                   (estimateCostMicros u) (ur_Status resp));
      leaveP (Some up, mkResponse (ur_Status resp) h (RStream out)) k
    end.

Definition forwardP (c : FCall) (k : FAns → PProg) : PProg :=
  let inp := fc_in c in let r := fc_req c in
  _ ⇐ enterM;
  let reqID := firstNonEmpty (hGet "X-Request-Id" (rq_Header r)) (fi_uuid inp) in
  let h := hSet "X-Request-Id" reqID ∅ in
  match bearerToken (rq_Header r) with
  | None => leaveP (None, writeError h 401 "auth_required" "missing bearer token" 0 reqID) k
  | Some tok =>
    key ⇐ resolveM tok;
    match key with
    | Err ErrUnknownSession => leaveP (None, writeError h 401 "auth_invalid" "unknown session token" 0 reqID) k
    | Err ErrKeyRevoked => leaveP (None, writeError h 503 "internal" "session key revoked" 5 reqID) k
    | Err _ => leaveP (None, writeError h 500 "internal" "key resolve failed" 0 reqID) k
    | Ok (secret, keyID) =>
      let h := hSet "X-Proxy-Key-Id" keyID h in
      qerr ⇐ reserveM (fi_reserve inp) tok;
      match qerr with
      | Some e =>
        let retry := qe_RetryAfter e / second in
        let h := if 0 <? retry then hSet "Retry-After" (itoa retry) h else h in
        _ ⇐ emitM (mkAudit (fi_audit inp) tok (rq_Path r) 0 0 0 429);
        leaveP (None, writeError h 429 "rate_limited" (codeString (qe_Code e)) retry reqID) k
      | None => reservedP c reqID h secret tok k
      end
    end
  end.

(** A connection. *)
Fixpoint clientP (reqs : list FCall) (acc : list (FCall * FAns)) : PProg :=
  match reqs with
  | [] => Ret (RClient acc)
  | c :: reqs' => forwardP c (λ a, clientP reqs' (acc ++ [(c, a)]))
  end.

Variable decodeKeys : Body → option (list Key).
Variable decodeID : Body → option string.
Variable adminToken : string.

(** An administrative request.  What a rotation waits for delays its only
    action (Drain.v). *)
Inductive Admin := ARotate (r : Request) | AMint (rnd : option string) (r : Request).

Definition adminM (a : Admin) : Server → option (Response * Server) := λ s,
  Some (match a with
        | ARotate r => handleAdminRotate adminToken decodeKeys r s
        | AMint rnd r => handleAdminMint adminToken decodeID rnd r s
        end).
Definition adminP (a : Admin) : PProg := resp ⇐ adminM a; Ret (RAdmin resp).

Definition threads (clients : list (list FCall)) (admins : list Admin) : list PProg :=
  ((λ reqs, clientP reqs []) <$> clients) ++ (adminP <$> admins).

(** A run: which thread goes next. *)
Fixpoint runF (sched : list nat) (st : list PProg * Server) : option (list PProg * Server) :=
  match sched with
  | [] => Some st
  | i :: sched' => match stepAt i st with Some st' => runF sched' st' | None => None end
  end.

(** ** On its own, the program is the handler *)

Lemma forward_alone c k s :
  alone (forwardP c k) s =
  let '(up, resp, s') := handleForward unmarshal (fc_Do c) upstream (fc_in c) (fc_req c) s in alone (k (up, resp)) s'.
Proof.
  unfold forwardP, handleForward, forwardBody. cbn [alone enterM updM sv_pool sv_quota].
  destruct (bearerToken _) as [tok|]; [|done]. cbn [alone resolveM sv_pool].
  destruct (SecretForSession tok (sv_pool s)) as [[secret keyID]|[]]; [|done..].
  cbn [alone]. unfold reserveM. cbn [sv_quota]. destruct (Reserve _ tok (sv_quota s)) as [[e|] q]; [done|].
  unfold reservedP, forwardReserved. destruct (_ && _); [done|]. destruct (negb _); [done|].
  destruct (fc_Do c _) as [resp|]; [|done]. by destruct (Forward.streamBody _ _ resp).
Qed.
End Programs.

(** ** What each connection is doing *)

Inductive FPh := Away | Counted | Holding (tok : string).
#[export] Instance FPh_eq_dec : EqDecision FPh.
Proof. solve_decision. Defined.

(** Where a connection is, and what it has been audited for. *)
Record FGhost := mkFG { fg_ph : FPh; fg_bills : list (string * string * Z) }.

Definition indic (P : Prop) `{Decision P} : Z := if decide P then 1 else 0.

(** The connections in a given phase. *)
Section Count.
Variable P : FGhost → Prop.
Context `{∀ g, Decision (P g)}.

Definition cnt (G : gmap nat FGhost) : Z := Z.of_nat (size (filter (λ x, P x.2) G)).

Lemma cnt_new G i g : G !! i = None → cnt (<[i := g]> G) = indic (P g) + cnt G.
Proof.
  intros Hi. unfold cnt, indic. rewrite map_filter_insert. simpl. case_decide.
  - rewrite map_size_insert_None; [lia|]. apply map_lookup_filter_None. by left.
  - rewrite delete_id; [lia|done].
Qed.

Lemma cnt_set G i g g' : G !! i = Some g → cnt (<[i := g']> G) = cnt G - indic (P g) + indic (P g').
Proof.
  intros Hi. rewrite <- (insert_delete_id G i g Hi) at 2.
  rewrite <- insert_delete_eq, !cnt_new by apply lookup_delete_eq. lia.
Qed.

Lemma cnt_nonneg G : 0 ≤ cnt G.
Proof. unfold cnt. lia. Qed.

Lemma cnt_pos G i g : G !! i = Some g → P g → 0 < cnt G.
Proof.
  intros Hi Hg. rewrite <- (insert_delete_id G i g Hi), cnt_new by apply lookup_delete_eq.
  unfold indic. rewrite decide_True by done. pose proof (cnt_nonneg (delete i G)). lia.
Qed.

(** Fewer than the connections that could be in that phase, if one that could
    is not. *)
Lemma cnt_lt G i g (D : gset nat) :
  G !! i = Some g → ¬ P g → i ∈ D → (∀ j h, G !! j = Some h → P h → j ∈ D) → cnt G + 1 ≤ Z.of_nat (size D).
Proof.
  intros Hi Hg HD Hsub. unfold cnt. rewrite <- size_dom.
  assert (dom (filter (λ x, P x.2) G) ⊆ D ∖ {[i]}) as Hd.
  { intros j (h & [Hj Hh]%map_lookup_filter_Some)%elem_of_dom. simpl in Hh.
    apply elem_of_difference. split; [by eapply Hsub|]. intros ->%elem_of_singleton. congruence. }
  apply subseteq_size in Hd. rewrite size_difference in Hd by set_solver. rewrite size_singleton in Hd.
  assert (size D ≠ 0%nat) as Hz by (intros ?%size_empty_inv; set_solver). lia.
Qed.
End Count.

(** What all connections were audited for. *)
Definition allBills (G : gmap nat FGhost) : list (string * string * Z) :=
  (map_to_list G).*2 ≫= fg_bills.

Lemma allBills_new G i g : G !! i = None → allBills (<[i := g]> G) ≡ₚ fg_bills g ++ allBills G.
Proof. intros Hi. unfold allBills. by rewrite map_to_list_insert. Qed.

Lemma allBills_set G i g g' l : G !! i = Some g → fg_bills g' = fg_bills g ++ l →
  allBills (<[i := g']> G) ≡ₚ allBills G ++ l.
Proof.
  intros Hi Hl. rewrite <- (insert_delete_id G i g Hi) at 2.
  rewrite <- insert_delete_eq, !allBills_new by apply lookup_delete_eq. rewrite Hl. solve_Permutation.
Qed.

(** ** The invariant *)

Definition tokenOf (c : FCall) : option string := bearerToken (rq_Header (fc_req c)).
Definition uses (tok : string) (reqs : list FCall) : Prop := Exists (λ c, tokenOf c = Some tok) reqs.
#[export] Instance uses_dec tok reqs : Decision (uses tok reqs).
Proof. unfold uses. apply _. Defined.

Section Inv.
Variable unmarshal : string → option Outer.
Variable upstream : string.
Variable decodeKeys : Body → option (list Key).
Variable decodeID : Body → option string.
Variable adminToken : string.
Variable l : Limits.
Variable T : Z.
(** The connections that send requests for a token, and what each sends. *)
Variable D : string → gset nat.
Variable script : nat → option (list FCall).

(** How many connections there are for a token. *)
Definition kOf (tok : string) : Z := Z.of_nat (size (D tok)).

Record FInv (G : gmap nat FGhost) (s : Server) : Prop := {
  fv_count : sv_inflight s = cnt (λ g, fg_ph g ≠ Away) G;
  fv_limits : q_limits (sv_quota s) = l;
  fv_budget : ∀ tok now, budget l (kOf tok) T (get now tok (sv_quota s)) (cnt (λ g, fg_ph g = Holding tok) G);
  fv_conn : ∀ i g tok, G !! i = Some g → fg_ph g = Holding tok → i ∈ D tok;
  fv_trail : trail <$> sv_audit s ≡ₚ allBills G
}.

Definition never (g : FGhost) : bool := false.

(** The bills of the answers a connection has had. *)
Definition billsOf (acc : list (FCall * FAns)) : list (string * string * Z) :=
  acc ≫= λ x, bill (fc_req x.1) x.2.1 x.2.2.

Definition FPost (r : PRes) (o : gmap nat FGhost) : Prop :=
  match r with
  | RClient acc => ∃ i, o = {[i := mkFG Away (billsOf acc)]} ∧ script i = Some acc.*1
  | RAdmin _ => o = ∅
  end.
Definition noWait (p : PProg) (s : Server) : Prop := False.

Abbreviation fsafe := (safe never FInv FPost noWait).

(** An action of connection [i], with what it does to its own phase. *)
Lemma safe_act {B} (m : Server → option (B * Server)) k i g (g' : B → FGhost) :
  (∀ G s, FInv G s → G !! i = Some g → ∃ b s', m s = Some (b, s') ∧ FInv (<[i := g' b]> G) s') →
  (∀ b, fsafe (k b) {[i := g' b]}) → fsafe (Act m k) {[i := g]}.
Proof.
  intros Hm Hk G s HI Ho. destruct (Ho i g) as [Hi _]; [by rewrite lookup_singleton_eq|].
  destruct (Hm G s HI Hi) as (b & s' & -> & HI'). exists (<[i := g' b]> G), {[i := g' b]}.
  split; [done|]. split; [|apply Hk].
  pose proof (moved_own never {[i := g]} G i g (g' b) Ho (lookup_singleton_eq _ _) eq_refl) as Hmv.
  by rewrite insert_singleton_eq in Hmv.
Qed.

Lemma get_set now tok tok' b m : get now tok (setBucket tok' b m) = if decide (tok = tok') then b else get now tok m.
Proof.
  unfold get, setBucket. simpl. case_decide as H; [subst; by rewrite lookup_insert_eq|by rewrite lookup_insert_ne].
Qed.

(** The counters when a connection changes phase. *)
Lemma FInv_phase G s i g ph s' :
  FInv G s → G !! i = Some g → sv_quota s' = sv_quota s → sv_audit s' = sv_audit s →
  sv_inflight s' = sv_inflight s - indic (fg_ph g ≠ Away) + indic (ph ≠ Away) →
  (∀ tok, fg_ph g ≠ Holding tok) → (∀ tok, ph ≠ Holding tok) →
  FInv (<[i := mkFG ph (fg_bills g)]> G) s'.
Proof.
  intros [H1 H2 H3 H4 H5] Hi Hq Ha Hn Hg Hp. split.
  - rewrite (cnt_set _ _ _ _ _ Hi), Hn, H1. done.
  - by rewrite Hq.
  - intros tok now. rewrite (cnt_set _ _ _ _ _ Hi), Hq. unfold indic. simpl.
    rewrite !decide_False by done. rewrite Z.sub_0_r, Z.add_0_r. apply H3.
  - intros j h tok [[<- <-]|[_ Hj]]%lookup_insert_Some; simpl; [by intros ?%Hp|by eauto].
  - rewrite Ha, H5, (allBills_set G i g _ []) by (simpl; rewrite ?app_nil_r; done). by rewrite app_nil_r.
Qed.

Hypothesis Hlim : limitsOK l.
Hypothesis Hsizes : ∀ tok, sizesOK l (kOf tok) T.

(** A call of the quota manager. *)
Lemma FInv_quota G s i g ph tok now o :
  let r := stepB l tok now o (get now tok (sv_quota s)) in
  FInv G s → G !! i = Some g → fg_ph g ≠ Away → ph ≠ Away → i ∈ D tok →
  (∀ t, t ≠ tok → fg_ph g ≠ Holding t ∧ ph ≠ Holding t) →
  mayCall (kOf tok) T o r.1 (cnt (λ g, fg_ph g = Holding tok) G) →
  indic (ph = Holding tok) - indic (fg_ph g = Holding tok) = outAfter o r.1 0 →
  FInv (<[i := mkFG ph (fg_bills g)]> G) (setQuota (setBucket tok r.2 (sv_quota s)) s).
Proof.
  intros r [H1 H2 H3 H4 H5] Hi Hg Hp HD Hot Hmay Hout. split; simpl.
  - rewrite (cnt_set _ _ _ _ _ Hi), H1. unfold indic. simpl. rewrite !decide_True by done. lia.
  - done.
  - intros t now'. rewrite (cnt_set _ _ _ _ _ Hi), get_set. cbn [fg_ph]. destruct (decide (t = tok)) as [->|Ht].
    + pose proof (budget_call l tok (kOf tok) T now o _ _ Hlim (Hsizes tok) (H3 tok now) Hmay) as Hb.
      fold r in Hb. replace (cnt _ G - _ + _) with (outAfter o r.1 (cnt (λ g, fg_ph g = Holding tok) G)); [done|].
      destruct o; cbn [outAfter] in *; lia.
    + destruct (Hot t Ht) as [E1 E2]. unfold indic. rewrite !decide_False by done.
      rewrite Z.sub_0_r, Z.add_0_r. apply H3.
  - intros j h t [[<- <-]|[_ Hj]]%lookup_insert_Some; simpl; [|by eauto].
    intros ->. destruct (decide (t = tok)) as [->|Hne]; [done|]. by destruct (Hot t Hne).
  - rewrite H5, (allBills_set G i g _ []) by (simpl; rewrite ?app_nil_r; done). by rewrite app_nil_r.
Qed.

(** An audit record is emitted for connection [i]. *)
Lemma FInv_emit G s i g a : FInv G s → G !! i = Some g →
  FInv (<[i := mkFG (fg_ph g) (fg_bills g ++ [trail a])]> G) (emitAudit a s).
Proof.
  intros [H1 H2 H3 H4 H5] Hi. split; simpl.
  - rewrite (cnt_set _ _ _ _ _ Hi), H1. simpl. lia.
  - done.
  - intros t now. rewrite (cnt_set _ _ _ _ _ Hi). simpl.
    replace (_ - _ + _) with (cnt (λ g, fg_ph g = Holding t) G) by lia. apply H3.
  - intros j h t [[<- <-]|[_ Hj]]%lookup_insert_Some; simpl; eauto.
  - rewrite fmap_app, H5. by rewrite (allBills_set G i g _ [trail a]).
Qed.

(** ** Every action is safe *)

Lemma safe_enter k i bs :
  fsafe k {[i := mkFG Counted bs]} → fsafe (Act enterM (λ _, k)) {[i := mkFG Away bs]}.
Proof.
  intros Hk. apply (safe_act _ _ _ _ (λ _, mkFG Counted bs)); [|done]. intros G s HI Hi.
  eexists _, _. split; [done|]. apply (FInv_phase G s i (mkFG Away bs) Counted); try done. simpl.
  unfold indic. simpl. lia.
Qed.

Lemma safe_leave a k i bs :
  fsafe (k a) {[i := mkFG Away bs]} → fsafe (leaveP a k) {[i := mkFG Counted bs]}.
Proof.
  intros Hk. apply (safe_act _ _ _ _ (λ _, mkFG Away bs)); [|done]. intros G s HI Hi.
  eexists _, _. split; [done|]. apply (FInv_phase G s i (mkFG Counted bs) Away); try done. simpl.
  unfold indic. simpl. lia.
Qed.

Lemma safe_emit a k i ph bs :
  fsafe k {[i := mkFG ph (bs ++ [trail a])]} → fsafe (Act (emitM a) (λ _, k)) {[i := mkFG ph bs]}.
Proof.
  intros Hk. apply (safe_act _ _ _ _ (λ _, mkFG ph (bs ++ [trail a]))); [|done]. intros G s HI Hi.
  eexists _, _. split; [done|]. by apply (FInv_emit G s i (mkFG ph bs)).
Qed.

Lemma safe_resolve tok k i g : (∀ r, fsafe (k r) {[i := g]}) → fsafe (Act (resolveM tok) k) {[i := g]}.
Proof.
  intros Hk. apply (safe_act _ _ _ _ (λ _, g)); [|done]. intros G s HI Hi.
  eexists _, s. split; [done|]. by rewrite insert_id.
Qed.

(** The phase after a reservation was denied or granted. *)
Definition reserved (r : option QError) (tok : string) : FPh :=
  match r with Some _ => Counted | None => Holding tok end.

Lemma safe_reserve now tok k i bs : i ∈ D tok →
  (∀ e, fsafe (k (Some e)) {[i := mkFG Counted bs]}) → fsafe (k None) {[i := mkFG (Holding tok) bs]} →
  fsafe (Act (reserveM now tok) k) {[i := mkFG Counted bs]}.
Proof.
  intros HD He Hn.
  apply (safe_act _ _ _ _ (λ r, mkFG (reserved r tok) bs)); [|by intros []].
  intros G s HI Hi. unfold reserveM, Reserve. rewrite (fv_limits _ _ HI).
  pose proof (FInv_quota G s i (mkFG Counted bs) (reserved (reserveBucket l tok now (get now tok (sv_quota s))).1 tok)
    tok now QReserve) as Hq. cbn [stepB] in Hq.
  destruct (reserveBucket l tok now (get now tok (sv_quota s))) as [r b]. cbn [fst snd] in Hq.
  eexists _, _. split; [done|]. apply Hq; try done; [by destruct r| | |].
  - intros t Ht. split; [done|]. destruct r; simpl; congruence.
  - destruct r; simpl; [done|]. eapply cnt_lt; [exact Hi|done|done|]. intros j h Hj. by apply (fv_conn _ _ HI).
  - destruct r; simpl; unfold indic; simpl; [done|]. by rewrite decide_True.
Qed.

(** Settling the slot. *)
Lemma safe_settle now tok o f k i bs : i ∈ D tok →
  (∀ s, f s = setQuota (setBucket tok (stepB l tok now o (get now tok (sv_quota s))).2 (sv_quota s)) s) →
  (o = QRefund ∨ ∃ tin tout, o = QCommit tin tout ∧ 0 ≤ tin ≤ T ∧ 0 ≤ tout ≤ T) →
  fsafe k {[i := mkFG Counted bs]} → fsafe (Act (updM f) (λ _, k)) {[i := mkFG (Holding tok) bs]}.
Proof.
  intros HD Hf Ho Hk. apply (safe_act _ _ _ _ (λ _, mkFG Counted bs)); [|done]. intros G s HI Hi.
  eexists _, _. split; [done|]. rewrite Hf.
  assert (0 < cnt (λ g, fg_ph g = Holding tok) G) as Hpos by (by eapply cnt_pos).
  apply (FInv_quota G s i (mkFG (Holding tok) bs) Counted tok now o); try done.
  - intros t Ht. simpl. split; congruence.
  - destruct Ho as [->|(tin & tout & -> & ? & ?)]; simpl; auto.
  - unfold indic. simpl. rewrite decide_True by done. by destruct Ho as [->|(tin & tout & -> & _)].
Qed.

Lemma safe_refund now tok k i bs : i ∈ D tok →
  fsafe k {[i := mkFG Counted bs]} → fsafe (Act (refundM now tok) (λ _, k)) {[i := mkFG (Holding tok) bs]}.
Proof. intros HD. apply (safe_settle now tok QRefund); [done|done|by left]. Qed.

(** A request never uses more than [T] tokens each way. *)
Definition frugal (c : FCall) : Prop := ∀ up a, fc_Do c up = Some a →
  let u := (Forward.streamBody unmarshal (fi_woks (fc_in c)) a).1 in
  0 ≤ RequestTokens u ≤ T ∧ 0 ≤ ResponseTokens u ≤ T.

(** The end of a request that is audited for [bill]. *)
Lemma safe_finish c a k i bs bs' :
  (∀ a, fsafe (k a) {[i := mkFG Away (bs ++ bill (fc_req c) a.1 a.2)]}) →
  bs' = bs ++ bill (fc_req c) a.1 a.2 → fsafe (leaveP a k) {[i := mkFG Counted bs']}.
Proof. intros Hk ->. apply safe_leave, Hk. Qed.

Lemma safe_reserved c reqID h secret tok k i bs :
  tokenOf c = Some tok → i ∈ D tok → frugal c →
  (∀ a, fsafe (k a) {[i := mkFG Away (bs ++ bill (fc_req c) a.1 a.2)]}) →
  fsafe (reservedP unmarshal upstream c reqID h secret tok k) {[i := mkFG (Holding tok) bs]}.
Proof.
  intros Ht HD Hf Hk. unfold tokenOf in Ht. unfold reservedP.
  assert (bs = bs ++ []) as Hnil by (by rewrite app_nil_r).
  destruct (_ && _); [apply safe_refund; [done|]; by eapply safe_finish|].
  destruct (negb _); [apply safe_refund; [done|]; by eapply safe_finish|].
  destruct (fc_Do c _) as [a|] eqn:Ed.
  - specialize (Hf _ _ Ed). destruct (Forward.streamBody _ _ a) as [u out].
    apply (safe_settle (fi_done (fc_in c)) tok (QCommit (RequestTokens u) (ResponseTokens u))); [done|done|eauto 10|].
    apply safe_emit. eapply safe_finish; [exact Hk|]. unfold bill. simpl. by rewrite Ht.
  - apply safe_refund; [done|]. apply safe_emit. eapply safe_finish; [exact Hk|]. unfold bill. simpl. by rewrite Ht.
Qed.

Lemma safe_forward c k i bs :
  (∀ tok, tokenOf c = Some tok → i ∈ D tok) → frugal c →
  (∀ a, fsafe (k a) {[i := mkFG Away (bs ++ bill (fc_req c) a.1 a.2)]}) →
  fsafe (forwardP unmarshal upstream c k) {[i := mkFG Away bs]}.
Proof.
  intros HD Hf Hk. apply safe_enter. unfold tokenOf in HD.
  assert (bs = bs ++ []) as Hnil by (by rewrite app_nil_r).
  destruct (bearerToken _) as [tok|] eqn:Ht; [|by eapply safe_finish].
  specialize (HD tok eq_refl). apply safe_resolve. intros [[secret keyID]|[]]; try by eapply safe_finish.
  apply safe_reserve; [done| |by apply safe_reserved].
  intros e. apply safe_emit. eapply safe_finish; [exact Hk|]. unfold bill. simpl. by rewrite Ht.
Qed.

Lemma safe_client reqs i : ∀ acc,
  script i = Some (acc.*1 ++ reqs) → (∀ tok, uses tok reqs → i ∈ D tok) → Forall frugal reqs →
  fsafe (clientP unmarshal upstream reqs acc) {[i := mkFG Away (billsOf acc)]}.
Proof.
  induction reqs as [|c reqs IH]; intros acc Hs HD Hf; simpl; [exists i; by rewrite app_nil_r in Hs|].
  inversion_clear Hf as [|? ? Hc Hreqs]. apply safe_forward; [|done|].
  - intros tok Ht. apply HD. by left.
  - intros a. assert (billsOf acc ++ bill (fc_req c) a.1 a.2 = billsOf (acc ++ [(c, a)])) as ->.
    { unfold billsOf. rewrite bind_app. simpl. by rewrite app_nil_r. }
    apply IH; [|intros tok Ht; apply HD; by right|done]. by rewrite fmap_app, <- (assoc_L (++)).
Qed.

Lemma safe_admin a : fsafe (adminP decodeKeys decodeID adminToken a) ∅.
Proof.
  intros G s HI Ho. unfold adminM.
  destruct (match a with ARotate r => _ | AMint rnd r => _ end) as [resp s'] eqn:E.
  exists G, ∅. split; [|split; [by apply moved_refl|done]].
  assert (sv_quota s' = sv_quota s ∧ sv_audit s' = sv_audit s ∧ sv_inflight s' = sv_inflight s) as (E1 & E2 & E3).
  { destruct a; unfold handleAdminRotate, handleAdminMint in E; repeat case_match; by simplify_eq/=. }
  destruct HI as [H1 H2 H3 H4 H5]. split; rewrite ?E1, ?E2, ?E3; done.
Qed.
End Inv.

(** ** The start *)

Section Runs.
Variable unmarshal : string → option Outer.
Variable upstream : string.
Variable decodeKeys : Body → option (list Key).
Variable decodeID : Body → option string.
Variable adminToken : string.
Variable lim : Limits.
Variable T : Z.
Variable clients : list (list FCall).
Variable admins : list Admin.
Variable pool : Pool.

Definition limits : Limits := q_limits (Quota.New lim).
(** The connections of a token. *)
Definition connsOf (tok : string) : gset nat :=
  dom (filter (λ x : nat * list FCall, uses tok x.2) (map_seq 0 clients : gmap nat (list FCall))).
Definition connections (tok : string) : Z := Z.of_nat (length (filter (uses tok) clients)).

Definition served : Server := mkServer pool (Quota.New lim) [] 0.
Definition started : list PProg * Server :=
  (threads unmarshal upstream decodeKeys decodeID adminToken clients admins, served).

Lemma connsOf_spec tok i reqs : clients !! i = Some reqs → uses tok reqs → i ∈ connsOf tok.
Proof.
  intros Hi Hu. apply elem_of_dom. exists reqs. apply map_lookup_filter_Some. by rewrite lookup_map_seq_0.
Qed.

Lemma connsOf_size tok : kOf connsOf tok = connections tok.
Proof.
  unfold kOf, connsOf, connections. rewrite size_dom. f_equal. generalize 0%nat.
  induction clients as [|reqs l IH]; intros n; simpl; [by rewrite map_filter_empty, map_size_empty|].
  rewrite map_filter_insert, filter_cons. simpl. case_decide.
  - rewrite map_size_insert_None; [by rewrite IH|]. apply map_lookup_filter_None. left.
    apply lookup_map_seq_None. lia.
  - rewrite delete_id; [apply IH|]. apply lookup_map_seq_None. lia.
Qed.

Lemma size_map_seq {A} (xs : list A) n : size (map_seq n xs : gmap nat A) = length xs.
Proof.
  revert n. induction xs as [|x xs IH]; intros n; simpl; [apply map_size_empty|].
  rewrite map_size_insert_None; [by rewrite IH|]. apply lookup_map_seq_None. lia.
Qed.

Lemma connections_le tok : connections tok ≤ Z.of_nat (length clients).
Proof. unfold connections. pose proof (length_filter (uses tok) clients). lia. Qed.

(** Limits that leave room for every connection. *)
Record roomy : Prop := {
  rm_limits : limitsOK limits;
  rm_pos : 0 < MaxRequests limits ∧ 0 < MaxTokensIn limits ∧ 0 < MaxTokensOut limits;
  rm_sizes : sizesOK limits (Z.of_nat (length clients)) T;
  rm_frugal : Forall (Forall (frugal unmarshal T)) clients
}.
Hypothesis Hroom : roomy.

Lemma roomy_sizes tok : sizesOK limits (kOf connsOf tok) T.
Proof.
  rewrite connsOf_size. destruct (rm_sizes Hroom) as (? & ? & ? & ? & ?). pose proof (connections_le tok).
  assert (0 ≤ connections tok) by (unfold connections; lia). unfold sizesOK. split_and!; nia.
Qed.

Abbreviation fpooled :=
  (pooled never (FInv limits T connsOf) (FPost (λ i, clients !! i)) noWait).

Definition ghosts0 : gmap nat FGhost := (λ _, mkFG Away []) <$> (map_seq 0 clients : gmap nat (list FCall)).
Definition owned0 : list (gmap nat FGhost) :=
  imap (λ i _, {[i := mkFG Away []]}) clients ++ ((λ _, ∅) <$> admins).

Lemma ghosts0_lookup i g : ghosts0 !! i = Some g ↔ (is_Some (clients !! i) ∧ g = mkFG Away []).
Proof.
  unfold ghosts0. rewrite lookup_fmap, lookup_map_seq_0. destruct (clients !! i); simpl; [|by split; [|intros [[]]]].
  split; [intros [= <-]; by eauto|by intros [_ ->]].
Qed.

Lemma owned0_lookup i o : owned0 !! i = Some o →
  o = ∅ ∨ (is_Some (clients !! i) ∧ o = {[i := mkFG Away []]}).
Proof.
  intros [Hi|[_ Hi]]%lookup_app_Some.
  - rewrite list_lookup_imap in Hi. apply fmap_Some in Hi as (reqs & -> & ->). right. eauto.
  - rewrite list_lookup_fmap in Hi. apply fmap_Some in Hi as (? & _ & ->). by left.
Qed.

Lemma cnt_none (P : FGhost → Prop) `{∀ g, Decision (P g)} G : (∀ i g, G !! i = Some g → ¬ P g) → cnt P G = 0.
Proof.
  intros Hn. unfold cnt. assert (filter (λ x : nat * FGhost, P x.2) G = ∅) as ->; [|by rewrite map_size_empty].
  apply map_empty. intros i. apply map_lookup_filter_None. right. intros g Hg. by eapply Hn.
Qed.

Lemma FInv_start : FInv limits T connsOf ghosts0 served.
Proof.
  split.
  - rewrite cnt_none; [done|]. intros i g [_ ->]%ghosts0_lookup. simpl. auto.
  - done.
  - intros tok now. rewrite cnt_none by (by intros i g [_ ->]%ghosts0_lookup).
    destruct (rm_pos Hroom) as (? & ? & ?). destruct (roomy_sizes tok) as (? & ? & _).
    pose proof (rm_limits Hroom) as Hl. unfold limitsOK in Hl. unfold get, served. simpl. rewrite lookup_empty.
    split; unfold windowOK; simpl; try lia; nia.
  - by intros i g tok [_ ->]%ghosts0_lookup.
  - unfold allBills. simpl. assert (∀ l, (∀ g, g ∈ l → fg_bills g = []) → l ≫= fg_bills = []) as Hl.
    { induction l as [|g l IH]; intros Hg; [done|]. rewrite bind_cons, (Hg g), IH by set_solver. done. }
    rewrite Hl; [done|]. intros g ([i h] & -> & Hh%elem_of_map_to_list)%list_elem_of_fmap.
    by apply ghosts0_lookup in Hh as [_ ->].
Qed.

Lemma pooled_start : fpooled ghosts0 owned0 started.1 started.2.
Proof.
  split.
  - apply FInv_start.
  - unfold started, threads, owned0. simpl. apply Forall2_app.
    + apply Forall2_same_length_lookup. split; [by rewrite length_fmap, length_imap|].
      intros i p o Hp Ho. rewrite list_lookup_fmap in Hp. rewrite list_lookup_imap in Ho.
      destruct (clients !! i) as [reqs|] eqn:Hi; [|done]. simplify_eq/=.
      apply (safe_client unmarshal upstream limits T connsOf (λ i, clients !! i) (rm_limits Hroom) roomy_sizes reqs i []).
      * done.
      * intros tok. by apply connsOf_spec.
      * by apply (Forall_lookup_1 _ _ _ _ (rm_frugal Hroom) Hi).
    + apply Forall2_fmap, Forall_Forall2_diag, Forall_forall. intros a _. apply safe_admin.
  - intros i o [->|[Hi ->]]%owned0_lookup x v; [by rewrite lookup_empty|].
    intros [<- <-]%lookup_singleton_Some. split; [by apply ghosts0_lookup|done].
  - intros i j o1 o2 x [->|[_ ->]]%owned0_lookup [->|[_ ->]]%owned0_lookup;
      rewrite ?lookup_empty; try by intros [??]. intros [? [-> _]%lookup_singleton_Some] [? [-> _]%lookup_singleton_Some]. done.
  - intros x v Hx%ghosts0_lookup _. destruct Hx as [[reqs Hx] ->]. exists x, {[x := mkFG Away []]}.
    split; [|by rewrite lookup_singleton_eq]. apply lookup_app_l_Some. by rewrite list_lookup_imap, Hx.
Qed.

Lemma pooled_run sched : ∀ G os st st', fpooled G os st.1 st.2 → runF sched st = Some st' →
  ∃ G' os', fpooled G' os' st'.1 st'.2 ∧ dom G' = dom G.
Proof.
  induction sched as [|i sched IH]; intros G os [ts s] st' Hp; cbn [runF]; [intros [= <-]; by exists G, os|].
  destruct (stepAt i (ts, s)) as [st1|] eqn:E; [|done]. intros Hr.
  destruct (pooled_step _ _ _ _ _ _ _ _ _ _ Hp E) as (G1 & os1 & Hp1 & Hd1).
  destruct (IH G1 os1 st1 st' Hp1 Hr) as (G2 & os2 & Hp2 & Hd2). exists G2, os2. split; [done|congruence].
Qed.

(** A thread that cannot go on has returned. *)
Lemma stuck_returned G os ts s : fpooled G os ts s → (∀ i, stepAt i (ts, s) = None) →
  Forall2 (λ p o, ∃ r, p = Ret r ∧ FPost (λ i, clients !! i) r o) ts os.
Proof.
  intros Hp Hst. apply Forall2_same_length_lookup. split; [by eapply Forall2_length, Hp|].
  intros i p o Hi Ho. destruct (pooled_stuck _ _ _ _ _ _ _ _ _ _ Hp Hi (Hst i)) as (o' & Ho' & [Hr|[_ []]]).
  simplify_eq. done.
Qed.

(** What the answers of a thread that returned are audited for. *)
Definition answered (p : PProg) : list (string * string * Z) :=
  match p with Ret (RClient answers) => billsOf answers | _ => [] end.

Lemma stuck_bills (ts : list PProg) (os : list (gmap nat FGhost)) :
  Forall2 (λ p o, ∃ r, p = Ret r ∧ FPost (λ i, clients !! i) r o) ts os →
  (os ≫= map_to_list).*2 ≫= fg_bills = ts ≫= answered.
Proof.
  induction 1 as [|p o ts os (r & -> & Hr) _ IH]; [done|].
  rewrite !bind_cons, fmap_app, bind_app, IH. f_equal.
  destruct r as [acc|resp]; simpl in Hr; [destruct Hr as (i & -> & _)|subst o].
  - rewrite map_to_list_singleton. simpl. by rewrite app_nil_r.
  - by rewrite map_to_list_empty.
Qed.

Lemma stuck_away (ts : list PProg) (os : list (gmap nat FGhost)) i o x g :
  Forall2 (λ p o, ∃ r, p = Ret r ∧ FPost (λ i, clients !! i) r o) ts os →
  os !! i = Some o → o !! x = Some g →
  fg_ph g = Away ∧ ∃ answers, ts !! i = Some (Ret (RClient answers)) ∧ clients !! x = Some answers.*1.
Proof.
  intros Hf Hi Hx. destruct (Forall2_lookup_r _ _ _ _ _ Hf Hi) as (p & Hp & r & -> & Hr).
  destruct r as [acc|resp]; simpl in Hr; [|subst o; by rewrite lookup_empty in Hx].
  destruct Hr as (j & -> & Hj). apply lookup_singleton_Some in Hx as [-> <-]. eauto.
Qed.
End Runs.

(** ** Properties *)



(** ** Two connections of one session, and a rotation *)

Definition demoCallF : FCall := mkFCall demoForward callReq demoDo.
Definition rotateReq : Request :=
  mkRequest "POST" "/admin/rotate" "" {["Authorization" := ["Bearer adm"]]} (mkBody "[]" false).
Definition mintedPool : Pool := (MintSessionToken (Some "ab") (Keys.New [keyA])).2.
Definition twoConns : list (list FCall) := [[demoCallF; demoCallF]; [demoCallF]].
Definition demoStarted : list PProg * Server :=
  started demoUnmarshal defaultUpstream (λ _, Some [keyA]) (λ _, None) "adm" DefaultLimits twoConns
    [ARotate rotateReq] mintedPool.

(** Round robin. *)
Fixpoint roundF (fuel i : nat) (st : list PProg * Server) : list nat :=
  match fuel with
  | O => []
  | S fuel' =>
    let n := length st.1 in
    match stepAt (i mod n) st with
    | Some st' => (i mod n)%nat :: roundF fuel' (S i) st'
    | None => roundF fuel' (S i) st
    end
  end.
Definition demoOrder : list nat := Eval vm_compute in roundF 60 0 demoStarted.

Lemma demo_roomy : roomy demoUnmarshal DefaultLimits 100 twoConns.
Proof.
  assert (frugal demoUnmarshal 100 demoCallF) as Hf.
  { intros up a [= <-]. vm_compute. repeat split; discriminate. }
  split; [vm_compute; split; [discriminate|reflexivity]|vm_compute; repeat split|vm_compute; repeat split; discriminate|].
  repeat (first [exact Hf|apply Forall_nil; exact I|apply Forall_cons; split]).
Qed.

Definition demoBusy : list nat := take 9 demoOrder.


Definition stuckb (st : list PProg * Server) : bool :=
  forallb (λ p : PProg, match p with Ret _ => true | _ => false end) st.1.

Lemma stuckb_stuck ts s : stuckb (ts, s) = true → ∀ i, stepAt i (ts, s) = None.
Proof.
  unfold stuckb. rewrite forallb_forall. intros H i. unfold stepAt. cbn [fst snd].
  destruct (ts !! i) as [p|] eqn:E; [|done]. apply list_elem_of_lookup_2, list_elem_of_In, H in E. by destruct p.
Qed.

